(* ===== verification/_CoqProject ===== *)
-Q . S2P
Prelude.v
Errors.v
PieceSets.v
Bitfields.v
Paths.v
Bencode.v
Metainfos.v
ByteBufs.v
Messages.v
Handshakes.v
Pieces.v
States.v
Stats.v
Disks.v
Addresses.v
Trackers.v
TrackerUrls.v
UnitTests.v
Clients.v
Sessions.v
Registries.v
Coordinators.v
Completions.v
Writers.v
Seeders.v
Liveness.v
Refinements.v
SwarmTests.v
Loopbacks.v
Demos.v
Snapshots.v
EndToEnd.v
Programs.v
