(* ===== verification/Prelude.v ===== *)
(** * Torrentina: a verification library of the BitTorrent engine

    Torrentina is a BitTorrent client in Rust: a library ([src/src/]), a command
    line program ([src/src/main.rs]), a desktop shell ([src/gui/]) and a loopback
    example ([src/examples/]). This library models them in Rocq, definition by
    definition, and proves what makes them correct. Each file opens with a comment
    of its own; this one is the map of the whole.

    ** How the program works

    A [.torrent] is parsed ([metainfo.rs]) into the declared sizes and the SHA-1
    digest of every piece, and its info hash names the torrent to everybody
    else. A tracker, over HTTP or UDP ([tracker/]), gives the addresses of
    peers. The coordinator ([download/mod.rs]) starts one task per peer: it
    connects and exchanges handshakes ([peer/handshake.rs],
    [peer/connection.rs]), then speaks the message protocol
    ([peer/message.rs]), claims pieces from the shared tracker
    ([download/state.rs]), requests their blocks, assembles and verifies them
    ([download/piece.rs]), and sends each verified piece to the disk writer
    ([disk.rs]), which splits it over the torrent's files. Statistics
    ([download/stats.rs]) are kept on the side. The command line program does
    this once; the desktop shell keeps a registry of torrents and runs one such
    pipeline per torrent; the example runs the engine against a seeder of its
    own.

    ** The files

    - [Prelude] (this file): bytes, machine words, big-endian fields, slices,
      chunks, counting. [Errors]: [src/error.rs] and the result monad, in which
      a computation returns, fails or panics.
    - [Bencode], [Paths], [Metainfos]: [src/metainfo.rs]. [Bencode] is the raw
      walk that finds the bytes of the [info] value; [Paths] the part of
      [std::path] that [file_paths] uses; [Metainfos] the typed torrent, path
      validation and the info hash.
    - [PieceSets]: the interface of a set of piece indices, a type class with
      its laws; [Bitfields]: [src/download/bitfield.rs], which implements it.
      The piece tracker, the sessions and the coordinator are proved against the
      class.
    - [ByteBufs]: the interface of the byte buffer crate; [Messages]:
      [src/peer/message.rs]; [Handshakes]: [src/peer/mod.rs],
      [src/peer/handshake.rs], [src/peer/connection.rs].
    - [Pieces]: [src/download/piece.rs]; [States]: [src/download/state.rs];
      [Stats]: [src/download/stats.rs].
    - [Disks]: [src/disk.rs], over a file system in which any call can fail.
    - [Addresses]: the address parser and lossy UTF-8 of the standard library;
      [Trackers]: [src/tracker/mod.rs] and [src/tracker/udp.rs];
      [TrackerUrls]: [src/tracker/http.rs] and the dispatch on the scheme.
    - [Sessions]: [run_session] and [handle_block] of [src/download/mod.rs], cut
      at their awaits into a step function; [Coordinators]: [Coordinator], the
      running swarm as a transition system, and its invariant.
    - [Completions]: what completion does to the tasks still running.
    - [Clients]: what the two front ends share, [collect_peers],
      [consume_to_disk], the description and the deletion of a torrent;
      [Registries]: the registry of the desktop shell, its commands, pipelines
      and persisted list, as a transition system.
    - [Writers]: the disk writer beside the peer tasks, over the bounded channel
      ([Download]).
    - [Seeders]: the seeder of the example and a swarm with it behind one task;
      [Liveness]: the potential that bounds their moves; [Loopbacks]: the rest of
      the example.
    - [Refinements]: the contract of the coordinator, three rules over the owned
      pieces, the deliveries and the completion, and the proof that every step
      of the running swarm is steps of the contract.
    - [Demos]: concrete runs and concrete states for the theorems of
      [Sessions], [Coordinators] and [Refinements]; [Snapshots]: the progress snapshot; [EndToEnd]: the swarm
      composed with [assemble] and with the codec.
    - [UnitTests] and [SwarmTests]: the tests of the repository, translated and
      evaluated on the model.
    - [Programs]: [main] and [run_pipeline], from the bytes of a [.torrent] to
      the result.

    A Rust type becomes a record or an inductive type of the same name, in a
    module named after it when it has methods; a function or method becomes a
    definition of the same name. A loop body that is a definition of its own is
    named after what it does. Unsigned integers are [Z] with their width written
    out ([wrap], [add_w], [checked_add], [saturating_sub]); an index, a slice, an
    [expect] or an overflow that would stop the program is [Panic].

    ** What is proved

    - The programs: a run of either front end that reports a complete download
      has left on disk every piece with its declared digest, for any peers,
      interleaving and faults, and it fails only for the reasons it states
      ([Programs.client_correct], [Programs.pipeline_complete_verified]).
    - Progress: with one honest seeder behind one task the download completes
      within a bounded number of moves of the two, whatever the other peers do
      ([Liveness.seeder_completes]); the disk writer never blocks the swarm
      ([Writers.writer_never_stuck]); completion ends the other tasks without
      their peers ([Completions.completion_releases]); the loopback example ends
      with the file equal to the data ([Loopbacks.loopback_succeeds]).
    - The registry: it stays consistent, survives restarts, and deleting a
      torrent's data stays inside its own directory ([Registries], [Clients]).
    - The download: whatever the interleaving of the peer tasks and whatever the
      peers send, only verified pieces are delivered and each once; completion
      means that all were delivered; draining them leaves files in which every
      piece has its declared digest ([EndToEnd.download_correct],
      [Coordinators]). The contract behind this is stated on its own and refined
      by the swarm ([Refinements.swarm_refines_spec]).
    - Resources: availability counts are exact, requests are bounded and
      existing blocks, claims are exclusive, selection is rarest-first
      ([Coordinators], [States]).
    - Geometry: pieces tile the content and blocks tile the pieces; blocks
      assemble in any order; a region is written exactly where it belongs
      ([Pieces], [Disks]).
    - Hostile input: no torrent escapes the download directory, the bencode walk
      is total, the message decoder accepts exactly the frames of the protocol
      and never panics, the handshake connects to the right torrent only, tracker
      replies are accepted exactly when they match ([Metainfos], [Bencode],
      [Messages], [Handshakes], [Trackers]).
    - Round trips: messages, handshakes, bitfields, packets, URL parameters.
    - Agreement with the code: every test of the repository, run on these
      definitions, passes. The tests that run tasks concurrently are evaluated
      on one schedule, the theorems cover the others ([UnitTests], [SwarmTests]).
    - Defects, as theorems of the model: an empty block can crash a task, an
      error exit keeps its claim, the total length can overflow, a torrent with
      two equal paths loses a verified piece, a torrent can be started twice
      before its coordinator is published, completion does not wake a paused
      task ([Completions.paused_never_woken], [Sessions.empty_block_crashes],
      [Sessions.claim_after_exit], [Metainfos.total_length_branches],
      [Programs.duplicate_paths_lost], [Registries.publication_race]).

    ** Bounds and fuel

    [Bencode.skip_value_f] and [Bencode.find_info] have fuel; every step consumes
    a byte, and [bencode_walk_total] shows that the fuel their callers give is
    enough. [Sessions.refill] has the pipeline depth as fuel, one unit per
    request it may send. [Messages.drain], [Utf8.lossy_f] and [chunks_fuel]
    consume at least a byte per unit and get the length of their input, and so
    does [chunks_rest].
    [decimal_f] prints twenty digits, enough for 64 bits. [exchange_loop] counts
    the three attempts of the code.

    ** What is not modelled

    Code outside the repository is a parameter with its documented behaviour: the
    digest ([Sha1]), the serde decoder and encoder, the byte buffer ([ByteBuf]),
    the byte stream ([ByteStream]), the network ([UdpNet]), the percent encoder
    ([PercentEncoding]), the URL parser and the HTTP client. The scheduler is the
    choice of the next action, so fairness and real time are absent: a timeout is
    an event that may happen. In [Coordinators] alone the channel of verified
    pieces is unbounded; [Writers] gives it its capacity. The theorems of
    progress leave out timeouts, control commands and failed sends at the honest
    task. [persist] is one step, so writes of the registry file do not overlap;
    its JSON is the list it encodes. The registry's file system is not the one
    the pipelines write to, and deletion follows no symbolic links. The order of
    a [HashMap]'s iteration is left open where it matters. Argument parsing, the
    console, the log and the events of the interface, the file dialogs and the
    JavaScript front end are left out. *)

From stdpp Require Export list gmap.
From stdpp Require Export numbers option relations sorting.
From Stdlib Require Export ZArith Lia.
From Stdlib Require Export Strings.Byte.
From stdpp Require Export strings.

#[global] Open Scope Z_scope.

#[global] Arguments Nat.div : simpl never.
#[global] Arguments Nat.modulo : simpl never.
#[global] Arguments Z.of_nat : simpl never.
#[global] Arguments Z.to_nat : simpl never.

(** ** Scopes and hint databases of the development *)

Declare Scope engine_scope.
Delimit Scope engine_scope with engine.
Create HintDb engine.
Create Rewrite HintDb wire.

(** ** Bytes

    Rust's [u8] is [Byte.byte]; [b2z] and [z2b] are [as u64] and [as u8]. *)

Abbreviation byte := Byte.byte.

#[global] Instance byte_eq_dec : EqDecision byte := Byte.byte_eq_dec.

Definition b2z (b : byte) : Z := Z.of_N (Byte.to_N b).

Definition z2b (z : Z) : byte :=
  default Byte.x00 (Byte.of_N (Z.to_N (z `mod` 256))).

Lemma b2z_range b : 0 ≤ b2z b < 256.
Proof.
  unfold b2z. pose proof (Byte.to_N_bounded b). lia.
Qed.

Lemma b2z_z2b z : b2z (z2b z) = z `mod` 256.
Proof.
  unfold b2z, z2b.
  assert (0 ≤ z `mod` 256 < 256) as Hr by (apply Z.mod_pos_bound; lia).
  destruct (Byte.of_N (Z.to_N (z `mod` 256))) as [b|] eqn:E; simpl.
  - apply Byte.to_of_N in E. rewrite E. lia.
  - apply Byte.of_N_None_iff in E. lia.
Qed.

Lemma z2b_b2z b : z2b (b2z b) = b.
Proof.
  unfold z2b. rewrite Z.mod_small by apply b2z_range.
  unfold b2z. rewrite N2Z.id, Byte.of_to_N. done.
Qed.

Lemma b2z_inj b c : b2z b = b2z c → b = c.
Proof. intros H. by rewrite <-(z2b_b2z b), H, z2b_b2z. Qed.

#[global] Instance byte_countable : Countable byte.
Proof. by apply (inj_countable' b2z z2b), z2b_b2z. Defined.

(** The bytes of a Rust string literal. *)
Abbreviation lit s := (String.list_byte_of_string s%string) (only parsing).

(** ** Machine words

    A [w]-bit unsigned word is a [Z] in [[0, 2^w)]. *)

Definition in_word (w z : Z) : Prop := 0 ≤ z < 2 ^ w.

#[global] Instance in_word_dec w z : Decision (in_word w z).
Proof. unfold in_word. apply _. Defined.

(** [x as uW]. *)
Definition wrap (w z : Z) : Z := z `mod` 2 ^ w.

(** [a.checked_add(b)] and [a.checked_sub(b)] at width [w]. *)
Definition checked_add (w a b : Z) : option Z :=
  if a + b <? 2 ^ w then Some (a + b) else None.

Definition checked_sub (a b : Z) : option Z :=
  if b <=? a then Some (a - b) else None.

(** [a.saturating_sub(b)]. *)
Definition saturating_sub (a b : Z) : Z := Z.max 0 (a - b).

(** [n.div_ceil(d)]. *)
Definition div_ceil (n d : Z) : Z := (n + d - 1) `div` d.

Lemma wrap_small w z : in_word w z → wrap w z = z.
Proof. apply Z.mod_small. Qed.

Lemma wrap_range w z : 0 ≤ w → in_word w (wrap w z).
Proof. intros. apply Z.mod_pos_bound. lia. Qed.

Lemma div_ceil_spec n d :
  0 ≤ n → 0 < d →
  0 ≤ div_ceil n d ∧ n ≤ div_ceil n d * d ∧ (div_ceil n d - 1) * d < n ∨ n = 0 ∧ div_ceil n d = 0.
Proof.
  intros Hn Hd. unfold div_ceil.
  pose proof (Z.div_mod (n + d - 1) d ltac:(lia)).
  pose proof (Z.mod_pos_bound (n + d - 1) d ltac:(lia)).
  destruct (decide (n = 0)) as [->|]; [right|left].
  - split; [done|]. apply Z.div_small. lia.
  - split_and!; [apply Z.div_pos; lia| nia | nia].
Qed.

Lemma div_ceil_lt n d k : 0 < d → k < div_ceil n d ↔ k * d < n.
Proof.
  intros Hd. unfold div_ceil.
  pose proof (Z.div_mod (n + d - 1) d ltac:(lia)).
  pose proof (Z.mod_pos_bound (n + d - 1) d ltac:(lia)).
  split; intros; nia.
Qed.

(** ** Big-endian fields

    [x.to_be_bytes()] and [uW::from_be_bytes], with the width in bytes. *)

Fixpoint be_encode (n : nat) (z : Z) : list byte :=
  match n with
  | O => []
  | S n' => z2b (Z.shiftr z (8 * Z.of_nat n')) :: be_encode n' z
  end.

Definition be_decode (l : list byte) : Z :=
  foldl (λ acc b, acc * 256 + b2z b) 0 l.

Lemma be_encode_length n z : length (be_encode n z) = n.
Proof. induction n; simpl; auto. Qed.

Lemma be_decode_acc l a :
  foldl (λ acc b, acc * 256 + b2z b) a l = a * 256 ^ Z.of_nat (length l) + be_decode l.
Proof.
  unfold be_decode. revert a.
  induction l as [|b l IH]; intros a; cbn [foldl length].
  - rewrite Z.pow_0_r. lia.
  - rewrite IH, (IH (0 * 256 + b2z b)), Nat2Z.inj_succ, Z.pow_succ_r by lia. ring.
Qed.

Lemma be_decode_cons b l :
  be_decode (b :: l) = b2z b * 256 ^ Z.of_nat (length l) + be_decode l.
Proof. unfold be_decode at 1. cbn [foldl]. rewrite be_decode_acc. lia. Qed.

Lemma be_decode_range l : 0 ≤ be_decode l < 256 ^ Z.of_nat (length l).
Proof.
  induction l as [|b l IH]; [done|].
  rewrite be_decode_cons. cbn [length]. rewrite Nat2Z.inj_succ, Z.pow_succ_r by lia.
  pose proof (b2z_range b). nia.
Qed.

Lemma be_decode_encode n z : be_decode (be_encode n z) = z `mod` 256 ^ Z.of_nat n.
Proof.
  induction n as [|n IH]; [by rewrite Z.mod_1_r|].
  cbn [be_encode]. rewrite be_decode_cons, IH, b2z_z2b, be_encode_length.
  rewrite Z.shiftr_div_pow2 by lia.
  replace (2 ^ (8 * Z.of_nat n)) with (256 ^ Z.of_nat n)
    by (rewrite Z.pow_mul_r by lia; done).
  rewrite Nat2Z.inj_succ, Z.pow_succ_r by lia.
  rewrite (Z.mul_comm 256), Z.rem_mul_r by (apply Z.pow_nonzero || lia; lia).
  lia.
Qed.

Lemma z2b_mod z : z2b (z `mod` 256) = z2b z.
Proof. unfold z2b. by rewrite Z.mod_mod by lia. Qed.

(** Only the low [8 * n] bits of [z] reach an [n]-byte field. *)
Lemma be_encode_add n m k z :
  (n ≤ m)%nat → be_encode n (k * 256 ^ Z.of_nat m + z) = be_encode n z.
Proof.
  induction n as [|n IH]; intros Hle; [done|].
  cbn [be_encode]. f_equal; [|apply IH; lia].
  rewrite <-z2b_mod, <-(z2b_mod (Z.shiftr z _)). f_equal.
  rewrite !Z.shiftr_div_pow2 by lia.
  replace (2 ^ (8 * Z.of_nat n)) with (256 ^ Z.of_nat n)
    by (rewrite Z.pow_mul_r by lia; done).
  replace (Z.of_nat m) with (Z.succ (Z.of_nat (m - n - 1)) + Z.of_nat n) by lia.
  rewrite Z.pow_add_r, Z.mul_assoc, Z.div_add_l by lia.
  rewrite Z.pow_succ_r by lia.
  rewrite Z.add_comm, (Z.mul_comm 256), Z.mul_assoc. apply Z.mod_add. lia.
Qed.

Lemma be_encode_decode l : be_encode (length l) (be_decode l) = l.
Proof.
  induction l as [|b l IH]; [done|].
  cbn [length be_encode]. rewrite be_decode_cons. f_equal.
  - rewrite Z.shiftr_div_pow2 by lia.
    replace (2 ^ (8 * Z.of_nat (length l))) with (256 ^ Z.of_nat (length l))
      by (rewrite Z.pow_mul_r by lia; done).
    rewrite Z.div_add_l by lia.
    rewrite Z.div_small by apply be_decode_range.
    by rewrite Z.add_0_r, z2b_b2z.
  - by rewrite be_encode_add.
Qed.

Lemma be_encode_decode' n l : length l = n → be_encode n (be_decode l) = l.
Proof. intros <-. apply be_encode_decode. Qed.

Lemma be_decode_encode_word n w z :
  w = 8 * Z.of_nat n → in_word w z → be_decode (be_encode n z) = z.
Proof.
  intros -> Hz. rewrite be_decode_encode. apply Z.mod_small.
  unfold in_word in Hz. by rewrite Z.pow_mul_r in Hz by lia.
Qed.

Lemma be_decode_word n w l :
  w = 8 * Z.of_nat n → length l = n → in_word w (be_decode l).
Proof.
  intros -> <-. unfold in_word. rewrite Z.pow_mul_r by lia. apply be_decode_range.
Qed.

(** ** Slices *)

(** [&l[i..j]], for [i <= j <= l.len()]. *)
Definition slice {A} (i j : nat) (l : list A) : list A := take (j - i) (drop i l).

(** [l[i..i + xs.len()].copy_from_slice(xs)], in range. *)
Definition splice {A} (i : nat) (xs l : list A) : list A :=
  take i l ++ xs ++ drop (i + length xs) l.

(** [l.iter().position(|x| p(x))]. *)
Fixpoint position {A} (p : A → bool) (l : list A) : option nat :=
  match l with
  | [] => None
  | x :: l' => if p x then Some O else S <$> position p l'
  end.

(** [l.chunks_exact(n)]; the fuel is the length of the list. *)
Fixpoint chunks_fuel {A} (fuel n : nat) (l : list A) : list (list A) :=
  match fuel with
  | O => []
  | S fuel' =>
      if decide (length l < n)%nat then []
      else take n l :: chunks_fuel fuel' n (drop n l)
  end.

Definition chunks_exact {A} (n : nat) (l : list A) : list (list A) :=
  chunks_fuel (length l) n l.

(** [l.chunks(n)]: the last chunk may be shorter. *)
Fixpoint chunks_rest {A} (fuel n : nat) (l : list A) : list (list A) :=
  match fuel, l with
  | O, _ | _, [] => []
  | S fuel', _ => take n l :: chunks_rest fuel' n (drop n l)
  end.

Definition chunks {A} (n : nat) (l : list A) : list (list A) := chunks_rest (length l) n l.

Section slices.
Context {A : Type}.
Implicit Types (l xs : list A) (i j n : nat).

Lemma slice_length i j l : (j ≤ length l)%nat → length (slice i j l) = (j - i)%nat.
Proof. intros. unfold slice. rewrite length_take, length_drop. lia. Qed.

Lemma slice_lookup i j k l :
  (k < j - i)%nat → slice i j l !! k = l !! (i + k)%nat.
Proof.
  intros. unfold slice. rewrite lookup_take_lt by lia. by rewrite lookup_drop.
Qed.

Lemma slice_app_mid (l1 l2 l3 : list A) :
  slice (length l1) (length l1 + length l2) (l1 ++ l2 ++ l3) = l2.
Proof.
  unfold slice. rewrite drop_app_length.
  replace (length l1 + length l2 - length l1)%nat with (length l2) by lia.
  by rewrite take_app_length.
Qed.

Lemma slice_mid i j (l1 l2 l3 : list A) :
  i = length l1 → j = (length l1 + length l2)%nat → slice i j (l1 ++ l2 ++ l3) = l2.
Proof. intros -> ->. apply slice_app_mid. Qed.

Lemma slice_nil i l : slice i i l = [].
Proof. unfold slice. by rewrite Nat.sub_diag, take_0. Qed.

Lemma slice_slice a b i j l :
  (b ≤ j - i)%nat → slice a b (slice i j l) = slice (i + a) (i + b) l.
Proof.
  intros. unfold slice. rewrite skipn_firstn_comm, take_take, drop_drop. f_equal; lia.
Qed.

Lemma slice_split i j k l :
  (i ≤ j)%nat → (j ≤ k)%nat → (k ≤ length l)%nat →
  slice i k l = slice i j l ++ slice j k l.
Proof.
  intros. unfold slice.
  replace (k - i)%nat with ((j - i) + (k - j))%nat by lia.
  rewrite <-take_take_drop, drop_drop. by replace (i + (j - i))%nat with j by lia.
Qed.

Lemma slice_full l : slice 0 (length l) l = l.
Proof. unfold slice. rewrite drop_0. apply take_ge. lia. Qed.

Lemma splice_length i xs l :
  (i + length xs ≤ length l)%nat → length (splice i xs l) = length l.
Proof.
  intros. unfold splice. rewrite !length_app, length_take, length_drop. lia.
Qed.

Lemma splice_lookup i xs l k :
  (i + length xs ≤ length l)%nat →
  splice i xs l !! k =
    (if decide (i ≤ k < i + length xs)%nat then xs !! (k - i)%nat else l !! k).
Proof.
  intros. unfold splice.
  assert (length (take i l) = i) as Hl by (rewrite length_take; lia).
  destruct (decide (k < i)%nat).
  - rewrite decide_False by lia. rewrite lookup_app_l by lia. apply lookup_take_lt. lia.
  - rewrite lookup_app_r by lia. rewrite Hl.
    case_decide.
    + apply lookup_app_l. lia.
    + rewrite lookup_app_r by lia. rewrite lookup_drop. f_equal. lia.
Qed.

Lemma splice_nil i l : splice i [] l = l.
Proof. unfold splice. cbn. rewrite Nat.add_0_r. apply take_drop. Qed.

(** Adjacent writes are one write. *)
Lemma splice_app i xs1 xs2 l :
  (i + length xs1 + length xs2 ≤ length l)%nat →
  splice (i + length xs1) xs2 (splice i xs1 l) = splice i (xs1 ++ xs2) l.
Proof.
  intros. apply list_eq. intros k.
  rewrite !splice_lookup; rewrite ?splice_length, ?length_app; try lia.
  repeat case_decide; try lia; try done.
  - rewrite lookup_app_r by lia. f_equal. lia.
  - rewrite lookup_app_l by lia. done.
Qed.

Lemma position_Some p l i :
  position p l = Some i ↔
  ∃ x, l !! i = Some x ∧ p x = true ∧ Forall (λ y, p y = false) (take i l).
Proof.
  revert i. induction l as [|y l IH]; intros i; simpl.
  { split; [done|]. intros (x & ? & _). done. }
  destruct (p y) eqn:Hy.
  - split; [intros [= <-]; exists y; auto|].
    intros (x & Hx & Hp & Hall). destruct i; [done|].
    simpl in Hall. apply Forall_cons in Hall as [? _]. congruence.
  - destruct i as [|i]; simpl.
    + split; [by destruct (position p l)|].
      intros (x & [= <-] & Hp & _). congruence.
    + rewrite fmap_Some. setoid_rewrite IH. split.
      * intros (i' & (x & ? & ? & ?) & [= ->]). exists x. auto.
      * intros (x & ? & ? & Hall). apply Forall_cons in Hall as [_ ?]. eauto 10.
Qed.

Lemma position_lt p l i : position p l = Some i → (i < length l)%nat.
Proof. intros (x & Hx & _)%position_Some. by eapply lookup_lt_Some. Qed.

Lemma position_app p l1 l2 :
  Forall (λ y, p y = false) l1 →
  position p (l1 ++ l2) = Nat.add (length l1) <$> position p l2.
Proof.
  induction 1 as [|y l1 Hy _ IH]; simpl; [by destruct (position p l2)|].
  rewrite Hy, IH. by destruct (position p l2).
Qed.

Lemma position_None p l : position p l = None ↔ Forall (λ y, p y = false) l.
Proof.
  induction l as [|y l IH]; simpl; [done|]. rewrite Forall_cons.
  destruct (p y); [split; [done|intros [? _]; done]|].
  rewrite <-IH. destruct (position p l); simpl; split; [done|by intros [_ ?]|auto|done].
Qed.

Lemma chunks_fuel_spec fuel n l :
  (0 < n)%nat → (length l ≤ fuel)%nat →
  chunks_fuel fuel n l =
    (if decide (length l < n)%nat then [] else take n l :: chunks_exact n (drop n l)).
Proof.
  intros Hn. revert l.
  assert (∀ f l, (length l ≤ f)%nat → ∀ g, (length l ≤ g)%nat →
    chunks_fuel f n l = chunks_fuel g n l) as Hirr.
  { induction f as [|f IH]; intros l Hf [|g] Hg; simpl; try case_decide; try done; try lia.
    f_equal. apply IH; rewrite length_drop; lia. }
  intros l Hf. destruct fuel as [|fuel]; simpl.
  { rewrite decide_True by lia. done. }
  case_decide; [done|]. f_equal. apply Hirr; rewrite ?length_drop; lia.
Qed.

Lemma chunks_exact_unfold n l :
  (0 < n)%nat →
  chunks_exact n l =
    (if decide (length l < n)%nat then [] else take n l :: chunks_exact n (drop n l)).
Proof. intros. by apply chunks_fuel_spec. Qed.

(** The [i]-th chunk is the [i]-th aligned slice, and there are [len / n]. *)
Lemma chunks_exact_lookup n l i :
  (0 < n)%nat →
  chunks_exact n l !! i =
    (if decide ((i + 1) * n ≤ length l)%nat then Some (slice (i * n) ((i + 1) * n) l)
     else None).
Proof.
  intros Hn. revert l. induction i as [|i IH]; intros l.
  - rewrite chunks_exact_unfold by done.
    destruct (decide (length l < n)%nat); [rewrite decide_False by lia; done|].
    rewrite decide_True by lia. cbn. f_equal. unfold slice. rewrite drop_0. f_equal. lia.
  - rewrite chunks_exact_unfold by done.
    destruct (decide (length l < n)%nat); [rewrite decide_False by nia; done|].
    cbn [lookup list_lookup]. rewrite IH, length_drop.
    destruct (decide ((S i + 1) * n ≤ length l)%nat);
      [rewrite decide_True by nia | rewrite decide_False by nia; done].
    unfold slice. rewrite drop_drop.
    by replace ((i + 1) * n - i * n)%nat with ((S i + 1) * n - S i * n)%nat by lia.
Qed.

Lemma chunks_exact_length n l :
  (0 < n)%nat → length (chunks_exact n l) = (length l / n)%nat.
Proof.
  intros Hn.
  pose proof (Nat.div_mod (length l) n ltac:(lia)) as Hdm.
  pose proof (Nat.mod_upper_bound (length l) n ltac:(lia)) as Hmod.
  set (q := (length l / n)%nat) in *.
  apply Nat.le_antisymm.
  - destruct (decide (length (chunks_exact n l) ≤ q)%nat) as [|Hgt]; [done|exfalso].
    destruct (lookup_lt_is_Some_2 (chunks_exact n l) q) as [c Hc]; [lia|].
    rewrite chunks_exact_lookup in Hc by done. case_decide; [nia|done].
  - destruct (decide (q = 0)%nat) as [->|]; [lia|].
    assert (is_Some (chunks_exact n l !! (q - 1)%nat)) as Hs.
    { rewrite chunks_exact_lookup by done. rewrite decide_True by nia. eauto. }
    apply lookup_lt_is_Some in Hs. lia.
Qed.

Lemma chunks_exact_concat n l :
  (0 < n)%nat → (length l `mod` n = 0)%nat → concat (chunks_exact n l) = l.
Proof.
  intros Hn. remember (length l) as m eqn:Hm. revert l Hm.
  induction (lt_wf m) as [m _ IH]. intros l Hm Hmod.
  rewrite chunks_exact_unfold by done. case_decide as Hlt.
  - rewrite Nat.mod_small in Hmod by lia. by destruct l; simpl in Hm; [|lia].
  - cbn [concat]. rewrite (IH (m - n)%nat); [apply take_drop|lia|rewrite length_drop; lia|].
    replace m with (m - n + 1 * n)%nat in Hmod by lia. by rewrite Nat.Div0.mod_add in Hmod.
Qed.

Lemma chunks_exact_Forall_length n l :
  (0 < n)%nat → Forall (λ c, length c = n) (chunks_exact n l).
Proof.
  intros Hn. apply Forall_lookup. intros i c. rewrite chunks_exact_lookup by done.
  case_decide; [|done]. intros [= <-]. rewrite slice_length by done. lia.
Qed.

Lemma chunks_exact_of_concat n (ls : list (list A)) :
  (0 < n)%nat → Forall (λ c, length c = n) ls → chunks_exact n (concat ls) = ls.
Proof.
  intros Hn. induction 1 as [|c ls Hc _ IH]; [done|]. cbn [concat].
  rewrite chunks_exact_unfold by done. rewrite decide_False by (rewrite length_app; lia).
  by rewrite take_app_length', drop_app_length', IH by done.
Qed.

(** The [i]-th chunk is the [i]-th aligned slice, as far as the list reaches. *)
Lemma chunks_rest_lookup fuel n l i :
  (0 < n)%nat → (length l ≤ fuel)%nat →
  chunks_rest fuel n l !! i =
    (if decide (i * n < length l)%nat then Some (slice (i * n) ((i + 1) * n) l) else None).
Proof.
  intros Hn. revert l i. induction fuel as [|fuel IH]; intros l i Hl; cbn [chunks_rest].
  { rewrite decide_False by lia. done. }
  destruct l as [|x l]; [by rewrite decide_False by (cbn; lia)|].
  set (l' := x :: l) in *. assert (0 < length l')%nat by (cbn; lia).
  destruct i as [|i]; cbn [lookup list_lookup].
  - rewrite decide_True by lia. unfold slice. rewrite drop_0. do 2 f_equal. lia.
  - rewrite IH, length_drop by (rewrite length_drop; lia).
    destruct (decide (S i * n < length l')%nat);
      [rewrite decide_True by nia|by rewrite decide_False by nia].
    unfold slice. rewrite drop_drop.
    by replace ((i + 1) * n - i * n)%nat with ((S i + 1) * n - S i * n)%nat by lia.
Qed.

Lemma chunks_lookup n l i :
  (0 < n)%nat →
  chunks n l !! i =
    (if decide (i * n < length l)%nat then Some (slice (i * n) ((i + 1) * n) l) else None).
Proof. intros. by apply chunks_rest_lookup. Qed.

Lemma chunks_length n l :
  (0 < n)%nat → Z.of_nat (length (chunks n l)) = div_ceil (Z.of_nat (length l)) (Z.of_nat n).
Proof.
  intros Hn. destruct (div_ceil_spec (Z.of_nat (length l)) (Z.of_nat n) ltac:(lia) ltac:(lia))
    as [(Hq & Hle & Hlt)|[Hz ->]]; cycle 1.
  { unfold chunks. by destruct l. }
  set (q := div_ceil _ _) in *.
  assert (length (chunks n l) = Z.to_nat q) as ->; [|lia].
  apply Nat.le_antisymm.
  - destruct (decide (length (chunks n l) ≤ Z.to_nat q)%nat) as [|Hgt]; [done|exfalso].
    destruct (lookup_lt_is_Some_2 (chunks n l) (Z.to_nat q)) as [c Hc]; [lia|].
    rewrite chunks_lookup in Hc by done. case_decide; [nia|done].
  - destruct (decide (q = 0)) as [->|]; [lia|].
    assert (is_Some (chunks n l !! (Z.to_nat q - 1)%nat)) as Hs.
    { rewrite chunks_lookup by done. rewrite decide_True by nia. eauto. }
    apply lookup_lt_is_Some in Hs. lia.
Qed.
End slices.

#[export] Hint Rewrite be_encode_length : wire.
#[export] Hint Rewrite @length_app @length_drop @length_take @length_insert : wire.

(** ** Counting the indices that satisfy a test

    [(0..n).filter(|&i| f(i)).count()]. *)

Fixpoint count_below (f : nat → bool) (n : nat) : nat :=
  match n with
  | O => O
  | S n' => ((if f n' then 1 else 0) + count_below f n')%nat
  end.

Section count_below.
Implicit Types (f g : nat → bool) (n i : nat).

Lemma count_below_ext f g n :
  (∀ i, (i < n)%nat → f i = g i) → count_below f n = count_below g n.
Proof.
  induction n as [|n IH]; intros Hfg; simpl; [done|].
  rewrite Hfg, IH by auto with lia. done.
Qed.

Lemma count_below_le f n : (count_below f n ≤ n)%nat.
Proof. induction n as [|n IH]; simpl; [done|]. destruct (f n); lia. Qed.

Lemma count_below_full f n :
  count_below f n = n ↔ ∀ i, (i < n)%nat → f i = true.
Proof.
  induction n as [|n IH]; simpl; [split; [lia|done]|].
  pose proof (count_below_le f n). split.
  - intros Hn i Hi. destruct (f n) eqn:Hf; [|lia].
    destruct (decide (i = n)) as [->|]; [done|]. apply IH; lia.
  - intros Hall. rewrite Hall by lia. rewrite (proj2 IH); [lia|].
    intros i Hi. apply Hall. lia.
Qed.

Lemma count_below_zero f n :
  (∀ i, (i < n)%nat → f i = false) → count_below f n = O.
Proof.
  induction n as [|n IH]; intros Hall; simpl; [done|].
  rewrite Hall, IH by auto with lia. done.
Qed.

(** Turning one test on adds one. *)
Lemma count_below_set f g n i :
  (i < n)%nat → f i = false → g i = true → (∀ j, j ≠ i → g j = f j) →
  count_below g n = S (count_below f n).
Proof.
  intros Hi Hf Hg Hne. induction n as [|n IH]; [lia|]. simpl.
  destruct (decide (i = n)) as [->|].
  - rewrite Hf, Hg, (count_below_ext g f n); [lia|]. intros j Hj. apply Hne. lia.
  - rewrite IH by lia. rewrite (Hne n) by lia. destruct (f n); lia.
Qed.

Lemma count_below_filter f n :
  count_below f n = length (filter (λ i, f i = true) (seq 0 n)).
Proof.
  induction n as [|n IH]; [done|].
  rewrite seq_S, filter_app, length_app, <-IH. cbn [count_below].
  rewrite filter_cons, filter_nil, Nat.add_0_l. destruct (f n); case_decide; simpl; naive_solver lia.
Qed.
End count_below.

(** ** Sums over the indices below a bound *)

Fixpoint sum_below (f : nat → Z) (n : nat) : Z :=
  match n with
  | O => 0
  | S n' => f n' + sum_below f n'
  end.

Section sum_below.
Implicit Types (f g : nat → Z) (n i : nat).

Lemma sum_below_le f g n : (∀ i, (i < n)%nat → f i ≤ g i) → sum_below f n ≤ sum_below g n.
Proof.
  induction n as [|n IH]; intros Hfg; cbn [sum_below]; [lia|].
  specialize (IH ltac:(intros; apply Hfg; lia)). specialize (Hfg n ltac:(lia)). lia.
Qed.

Lemma sum_below_ext f g n : (∀ i, (i < n)%nat → f i = g i) → sum_below f n = sum_below g n.
Proof.
  intros Hfg. apply Z.le_antisymm; apply sum_below_le; intros i Hi; by rewrite Hfg.
Qed.

(** One term differs. *)
Lemma sum_below_one f g n i :
  (i < n)%nat → (∀ j, (j < n)%nat → j ≠ i → f j = g j) →
  sum_below f n = sum_below g n + (f i - g i).
Proof.
  induction n as [|n IH]; intros Hi Hne; [lia|]. cbn [sum_below].
  destruct (decide (i = n)) as [->|].
  - rewrite (sum_below_ext f g n); [lia|]. intros j Hj. apply Hne; lia.
  - rewrite IH by (auto with lia). rewrite (Hne n) by lia. lia.
Qed.

Lemma sum_below_nonneg f n : (∀ i, (i < n)%nat → 0 ≤ f i) → 0 ≤ sum_below f n.
Proof.
  induction n as [|n IH]; intros Hf; cbn [sum_below]; [lia|].
  specialize (IH ltac:(intros; apply Hf; lia)). specialize (Hf n ltac:(lia)). lia.
Qed.
End sum_below.

(** ** Duplicates

    [if seen.insert(x) { out.push(x) }], with a [HashSet] and a [Vec]. *)

Definition push_new {A} `{Countable A} (st : gset A * list A) (x : A) : gset A * list A :=
  let '(seen, out) := st in
  if decide (x ∈ seen) then st else ({[x]} ∪ seen, out ++ [x]).

(** Duplicates removed, keeping the first occurrence of each element. *)
Fixpoint first_occurrences {A} `{EqDecision A} (l : list A) : list A :=
  match l with
  | [] => []
  | x :: l' => x :: filter (λ y, y ≠ x) (first_occurrences l')
  end.

Lemma first_occurrences_elem {A} `{EqDecision A} (l : list A) x :
  x ∈ first_occurrences l ↔ x ∈ l.
Proof.
  induction l as [|y l IH]; simpl; [done|].
  rewrite !elem_of_cons, list_elem_of_filter, IH. destruct (decide (x = y)); naive_solver.
Qed.

Lemma first_occurrences_NoDup {A} `{EqDecision A} (l : list A) : NoDup (first_occurrences l).
Proof.
  induction l as [|y l IH]; simpl; constructor.
  - rewrite list_elem_of_filter. naive_solver.
  - by apply NoDup_filter.
Qed.

Lemma first_occurrences_snoc {A} `{EqDecision A} (l : list A) x :
  first_occurrences (l ++ [x]) =
  (if decide (x ∈ l) then first_occurrences l else first_occurrences l ++ [x]).
Proof.
  induction l as [|y l IH]; [done|]. cbn [app first_occurrences].
  rewrite IH. destruct (decide (x = y)) as [->|Hne].
  - rewrite (decide_True (P := y ∈ y :: l)) by left.
    case_decide; [done|]. rewrite filter_app, filter_cons, filter_nil.
    rewrite decide_False by naive_solver. by rewrite app_nil_r.
  - destruct (decide (x ∈ l)).
    + by rewrite decide_True by (by right).
    + rewrite decide_False by (rewrite not_elem_of_cons; done).
      rewrite filter_app, filter_cons, filter_nil. by rewrite decide_True.
Qed.

Lemma push_new_from {A} `{Countable A} (l pre : list A) :
  foldl push_new (list_to_set pre, first_occurrences pre) l =
  (list_to_set (pre ++ l), first_occurrences (pre ++ l)).
Proof.
  revert pre. induction l as [|x l IH]; intros pre; cbn [foldl].
  { by rewrite app_nil_r. }
  rewrite (cons_middle x pre l), app_assoc, <-IH. f_equal.
  unfold push_new. rewrite first_occurrences_snoc.
  destruct (decide (x ∈ pre)) as [Hin|Hout].
  - rewrite decide_True by (by apply elem_of_list_to_set). f_equal. set_solver.
  - rewrite decide_False by (by rewrite elem_of_list_to_set). f_equal. set_solver.
Qed.

(** The loop keeps the first occurrence of every element. *)
Lemma push_new_fold {A} `{Countable A} (l : list A) :
  foldl push_new (∅, []) l = (list_to_set l, first_occurrences l).
Proof. apply (push_new_from l []). Qed.
