(* ===== verification/Errors.v ===== *)
(** * Errors and fallible computations ([src/error.rs])

    [Error] is the crate's error enum, one constructor per variant; the text
    of a [format!] message is diagnostic only and is not kept, the numbers and
    the tracker's reason are.

    A Rust function returning [Result<T>] becomes a function returning
    [result T]. Besides [Ok] and [Err] a computation can [Panic]: an index or a
    slice out of bounds, a [copy_from_slice] of unequal lengths, an [expect] on
    [None], or an arithmetic operation that overflows its type (overflow checks
    on; where a theorem shows that a function does not panic, a build without
    the checks computes the same value). *)

From S2P Require Export Prelude.

(** ** The error enum *)

Inductive Error : Type :=
  | Io
  | BencodeDecode
  | InvalidPiecesLength (len : Z)
  | InvalidFileLayout
  | MalformedTorrent
  | Http
  | UrlParse
  | UnsupportedScheme (scheme : list byte)
  | TrackerFailure (reason : list byte)
  | InvalidPeersData (len width : Z)
  | UdpProtocol
  | Timeout
  | PeerProtocol
  | Storage.

#[export] Instance Error_eq_dec : EqDecision Error.
Proof. solve_decision. Defined.

(** ** The result monad *)

Inductive result (A : Type) : Type :=
  | Ok (a : A)
  | Err (e : Error)
  | Panic.
Arguments Ok {A} _.
Arguments Err {A} _.
Arguments Panic {A}.

#[export] Instance result_eq_dec {A} `{EqDecision A} : EqDecision (result A).
Proof. solve_decision. Defined.

(** The [?] operator. *)
#[export] Instance result_ret : MRet result := @Ok.
#[export] Instance result_bind : MBind result :=
  λ A B f x, match x with Ok a => f a | Err e => Err e | Panic => Panic end.
#[export] Instance result_fmap : FMap result :=
  λ A B f x, match x with Ok a => Ok (f a) | Err e => Err e | Panic => Panic end.

(** [o.ok_or(e)]. *)
Definition ok_or {A} (e : Error) (o : option A) : result A :=
  match o with Some a => Ok a | None => Err e end.

(** [o.expect(..)], [l[i]]. *)
Definition expect {A} (o : option A) : result A :=
  match o with Some a => Ok a | None => Panic end.

Definition is_Ok {A} (r : result A) : Prop := ∃ a, r = Ok a.
Definition is_Err {A} (r : result A) : Prop := ∃ e, r = Err e.

(** [l.iter().map(f).collect::<Result<Vec<_>>>()], and loops with [?]. *)
Fixpoint map_result {A B} (f : A → result B) (l : list A) : result (list B) :=
  match l with
  | [] => Ok []
  | x :: l' => y ← f x; ys ← map_result f l'; Ok (y :: ys)
  end.

Fixpoint fold_result {A S} (f : S → A → result S) (s : S) (l : list A) : result S :=
  match l with
  | [] => Ok s
  | x :: l' => s' ← f s x; fold_result f s' l'
  end.

(** ** Arithmetic with overflow checks at width [w] *)

Definition add_w (w a b : Z) : result Z := expect (checked_add w a b).
Definition mul_w (w a b : Z) : result Z :=
  if a * b <? 2 ^ w then Ok (a * b) else Panic.
Definition sub_w (a b : Z) : result Z := expect (checked_sub a b).

(** [&l[i..j]]. *)
Definition slice_r {A} (i j : nat) (l : list A) : result (list A) :=
  if decide (i ≤ j ≤ length l)%nat then Ok (slice i j l) else Panic.

(** [l[i..j].copy_from_slice(xs)]. *)
Definition copy_from_slice {A} (i j : nat) (xs l : list A) : result (list A) :=
  if decide ((i ≤ j ≤ length l)%nat ∧ length xs = (j - i)%nat)
  then Ok (splice i xs l) else Panic.

(** ** Laws *)

Section bind_laws.
Context {A B : Type}.

Lemma bind_Ok_inv (x : result A) (f : A → result B) b :
  x ≫= f = Ok b ↔ ∃ a, x = Ok a ∧ f a = Ok b.
Proof. destruct x; cbn; naive_solver. Qed.

Lemma bind_Panic_inv (x : result A) (f : A → result B) :
  x ≫= f = Panic ↔ x = Panic ∨ ∃ a, x = Ok a ∧ f a = Panic.
Proof. destruct x; cbn; naive_solver. Qed.

Lemma bind_Err_inv (x : result A) (f : A → result B) e :
  x ≫= f = Err e ↔ x = Err e ∨ ∃ a, x = Ok a ∧ f a = Err e.
Proof. destruct x; cbn; naive_solver. Qed.

Lemma ok_or_Ok_inv e (o : option A) a : ok_or e o = Ok a ↔ o = Some a.
Proof. destruct o; cbn; naive_solver. Qed.

Lemma expect_Ok_inv (o : option A) a : expect o = Ok a ↔ o = Some a.
Proof. destruct o; cbn; naive_solver. Qed.

Lemma ok_or_no_panic e (o : option A) : ok_or e o ≠ Panic.
Proof. by destruct o. Qed.

End bind_laws.

Section loop_laws.
Context {A B : Type}.

Lemma map_result_Ok_inv (f : A → result B) l ys :
  map_result f l = Ok ys ↔ Forall2 (λ x y, f x = Ok y) l ys.
Proof.
  revert ys. induction l as [|x l IH]; intros ys; cbn [map_result].
  - split; [by intros [= <-]|]. by intros ->%Forall2_nil_inv_l.
  - rewrite bind_Ok_inv. setoid_rewrite bind_Ok_inv. split.
    + intros (y & ? & ys' & Hys & [= <-]). constructor; [done|]. by apply IH.
    + intros (y & ys' & ? & ? & ->)%Forall2_cons_inv_l.
      exists y. split; [done|]. exists ys'. split; [by apply IH|done].
Qed.

Lemma map_result_no_panic (f : A → result B) l :
  (∀ x, f x ≠ Panic) → map_result f l ≠ Panic.
Proof.
  intros Hf. induction l as [|x l IH]; cbn [map_result]; [done|].
  intros [?|(y & _ & [?|(ys & _ & ?)]%bind_Panic_inv)]%bind_Panic_inv; [|done|done].
  by eapply Hf.
Qed.

Lemma fold_result_app (f : B → A → result B) s l1 l2 :
  fold_result f s (l1 ++ l2) = fold_result f s l1 ≫= λ s', fold_result f s' l2.
Proof.
  revert s. induction l1 as [|x l1 IH]; intros s; [done|]. simpl.
  destruct (f s x); simpl; auto.
Qed.
End loop_laws.

Lemma checked_add_Some w a b c :
  checked_add w a b = Some c ↔ c = a + b ∧ a + b < 2 ^ w.
Proof. unfold checked_add. destruct (Z.ltb_spec (a + b) (2 ^ w)); naive_solver lia. Qed.

Lemma checked_add_None w a b : checked_add w a b = None ↔ 2 ^ w ≤ a + b.
Proof. unfold checked_add. destruct (Z.ltb_spec (a + b) (2 ^ w)); naive_solver lia. Qed.

Lemma checked_sub_Some a b c : checked_sub a b = Some c ↔ c = a - b ∧ b ≤ a.
Proof. unfold checked_sub. destruct (Z.leb_spec b a); naive_solver lia. Qed.

Lemma checked_sub_None a b : checked_sub a b = None ↔ a < b.
Proof. unfold checked_sub. destruct (Z.leb_spec b a); naive_solver lia. Qed.

Lemma add_w_Ok w a b : a + b < 2 ^ w → add_w w a b = Ok (a + b).
Proof. intros. unfold add_w, checked_add. destruct (Z.ltb_spec (a + b) (2 ^ w)); [done|lia]. Qed.

Lemma add_w_Ok_inv w a b c : add_w w a b = Ok c ↔ c = a + b ∧ a + b < 2 ^ w.
Proof. unfold add_w. by rewrite expect_Ok_inv, checked_add_Some. Qed.

Lemma mul_w_Ok w a b : a * b < 2 ^ w → mul_w w a b = Ok (a * b).
Proof. intros. unfold mul_w. destruct (Z.ltb_spec (a * b) (2 ^ w)); [done|lia]. Qed.

Lemma sub_w_Ok a b : b ≤ a → sub_w a b = Ok (a - b).
Proof. intros. unfold sub_w, checked_sub. destruct (Z.leb_spec b a); [done|lia]. Qed.

Lemma slice_r_Ok {A} i j (l : list A) :
  (i ≤ j ≤ length l)%nat → slice_r i j l = Ok (slice i j l).
Proof. intros. unfold slice_r. by rewrite decide_True. Qed.

Lemma slice_r_Ok_inv {A} i j (l l' : list A) :
  slice_r i j l = Ok l' ↔ (i ≤ j ≤ length l)%nat ∧ l' = slice i j l.
Proof. unfold slice_r. case_decide; naive_solver. Qed.

Lemma copy_from_slice_Ok {A} i j (xs l : list A) :
  (i ≤ j ≤ length l)%nat → length xs = (j - i)%nat →
  copy_from_slice i j xs l = Ok (splice i xs l).
Proof. intros. unfold copy_from_slice. by rewrite decide_True. Qed.

Lemma copy_from_slice_Ok_inv {A} i j (xs l l' : list A) :
  copy_from_slice i j xs l = Ok l' ↔
  (i ≤ j ≤ length l)%nat ∧ length xs = (j - i)%nat ∧ l' = splice i xs l.
Proof. unfold copy_from_slice. case_decide; naive_solver. Qed.

#[export] Hint Resolve ok_or_no_panic : engine.

(** Invert every [bind], [expect] and [ok_or] that returned [Ok]. *)
Ltac inv_result :=
  repeat match goal with
  | H : mret _ = Ok _ |- _ => injection H as H
  | H : Ok _ = Ok _ |- _ => injection H as H
  | H : Err _ = Ok _ |- _ => discriminate H
  | H : Panic = Ok _ |- _ => discriminate H
  | H : _ ≫= _ = Ok _ |- _ => apply bind_Ok_inv in H as (? & ? & ?)
  | H : ok_or _ _ = Ok _ |- _ => apply ok_or_Ok_inv in H
  | H : expect _ = Ok _ |- _ => apply expect_Ok_inv in H
  | H : add_w _ _ _ = Ok _ |- _ => apply add_w_Ok_inv in H as [? ?]
  | H : slice_r _ _ _ = Ok _ |- _ => apply slice_r_Ok_inv in H as [? ?]
  | H : copy_from_slice _ _ _ _ = Ok _ |- _ =>
      apply copy_from_slice_Ok_inv in H as (? & ? & ?)
  | H : (if _ then Err _ else _) = Ok _ |- _ => case_match; [discriminate H|]
  | H : (if _ then Panic else _) = Ok _ |- _ => case_match; [discriminate H|]
  end; subst.

(** Reduce the monadic glue once its heads are known. *)
Ltac red_result :=
  cbn [mbind result_bind option_bind mret result_ret fmap result_fmap option_fmap option_map
       ok_or expect fst snd].
