(* ===== verification/PieceSets.v ===== *)
(** * What a set of pieces promises

    [PieceTracker] and the peer sessions use a bitfield only through the
    methods below. [PieceSet] states what those methods promise; [Bitfields]
    discharges it for the packed wire representation, and the tracker's and
    the sessions' theorems are proved against it. *)

From S2P Require Export Errors.

Class PieceSet (B : Type) := {
  ps_new : nat → B;
  ps_num : B → nat;
  ps_has : B → nat → bool;
  ps_set : B → nat → B;
  ps_count : B → nat;
  (** The set a peer's wire bytes describe. *)
  ps_from_bytes : list byte → nat → result B;
  (** The representation invariant. *)
  ps_wf : B → Prop;
  ps_new_wf n : ps_wf (ps_new n);
  ps_new_num n : ps_num (ps_new n) = n;
  ps_new_has n i : ps_has (ps_new n) i = false;
  ps_set_wf b i : ps_wf b → ps_wf (ps_set b i);
  ps_set_num b i : ps_num (ps_set b i) = ps_num b;
  ps_set_has b i j : ps_wf b →
    ps_has (ps_set b i) j = ps_has b j || (bool_decide (i = j) && (i <? ps_num b)%nat);
  ps_has_lt b i : ps_has b i = true → (i < ps_num b)%nat;
  ps_count_spec b : ps_wf b → ps_count b = count_below (ps_has b) (ps_num b);
  ps_from_bytes_spec bs n :
    match ps_from_bytes bs n with
    | Ok b => ps_wf b ∧ ps_num b = n
    | Err e => e = PeerProtocol
    | Panic => False
    end;
}.

#[export] Hint Resolve ps_new_wf ps_set_wf : engine.

(** [is_complete]: every piece is present. *)
Definition ps_is_complete {B} `{PieceSet B} (b : B) : bool := (ps_count b =? ps_num b)%nat.

(** The abstract set a piece set stands for. *)
Definition ps_elems {B} `{PieceSet B} (b : B) : gset nat :=
  list_to_set (filter (λ i, ps_has b i = true) (seq 0 (ps_num b))).

Section laws.
Context {B : Type} `{PieceSet B}.
Implicit Types b : B.

Lemma ps_has_ge b i : (ps_num b ≤ i)%nat → ps_has b i = false.
Proof.
  intros. destruct (ps_has b i) eqn:E; [|done]. apply ps_has_lt in E. lia.
Qed.

Lemma ps_set_same b i :
  ps_wf b → (i < ps_num b)%nat → ps_has (ps_set b i) i = true.
Proof.
  intros ? Hi. rewrite ps_set_has by done.
  rewrite bool_decide_eq_true_2, (proj2 (Nat.ltb_lt _ _)) by done.
  by destruct (ps_has b i).
Qed.

Lemma ps_set_ne b i j : ps_wf b → i ≠ j → ps_has (ps_set b i) j = ps_has b j.
Proof.
  intros ??. rewrite ps_set_has by done. rewrite bool_decide_eq_false_2 by done.
  by destruct (ps_has b j).
Qed.

Lemma ps_set_mono b i j : ps_wf b → ps_has b j = true → ps_has (ps_set b i) j = true.
Proof. intros ? Hj. rewrite ps_set_has by done. by rewrite Hj. Qed.

Lemma ps_complete_spec b :
  ps_wf b → ps_is_complete b = true ↔ ∀ i, (i < ps_num b)%nat → ps_has b i = true.
Proof.
  intros. unfold ps_is_complete.
  by rewrite Nat.eqb_eq, ps_count_spec, count_below_full by done.
Qed.

Lemma elem_of_ps_elems b i : i ∈ ps_elems b ↔ ps_has b i = true.
Proof.
  unfold ps_elems. rewrite elem_of_list_to_set, list_elem_of_filter, elem_of_seq.
  split; [by intros [? _]|]. intros Hi. pose proof (ps_has_lt _ _ Hi). naive_solver lia.
Qed.

Lemma ps_elems_new n : ps_elems (ps_new n : B) = ∅.
Proof. apply set_eq. intros i. rewrite elem_of_ps_elems, ps_new_has. set_solver. Qed.

Lemma ps_elems_set b i :
  ps_wf b → (i < ps_num b)%nat → ps_elems (ps_set b i) = {[i]} ∪ ps_elems b.
Proof.
  intros ? Hi. apply set_eq. intros j.
  rewrite elem_of_union, elem_of_singleton, !elem_of_ps_elems.
  destruct (decide (i = j)) as [<-|].
  - rewrite ps_set_same by done. naive_solver.
  - rewrite ps_set_ne by done. naive_solver.
Qed.

Lemma ps_count_size b : ps_wf b → ps_count b = size (ps_elems b).
Proof.
  intros. rewrite ps_count_spec, count_below_filter by done. unfold ps_elems.
  rewrite size_list_to_set; [done|]. apply NoDup_filter, NoDup_seq.
Qed.
End laws.
