(* ===== verification/Bitfields.v ===== *)
(** * The packed bitfield ([src/download/bitfield.rs])

    [Bitfield] stores piece [i] in byte [i / 8] under the mask
    [0x80 >> (i % 8)], with a cached count. The theorems: the operations keep
    the representation invariant, [set] and [has] behave as insertion and
    membership of an abstract set whose size is the cached count, no byte
    access is out of bounds, and the wire bytes round-trip. *)

From S2P Require Export PieceSets.

Module Bitfield.

Record t : Type := mk {
  bytes : list byte;
  num_pieces : nat;
  count : nat;
}.

#[global] Instance t_eq_dec : EqDecision t.
Proof. solve_decision. Defined.

(** ** Operations *)

Definition byte_len (num_pieces : nat) : nat := Z.to_nat (div_ceil (Z.of_nat num_pieces) 8).

Definition new (num_pieces : nat) : t :=
  {| bytes := replicate (byte_len num_pieces) Byte.x00;
     num_pieces := num_pieces;
     count := 0 |}.

(** [0x80u8 >> (index % 8)]. *)
Definition mask (index : nat) : Z := Z.shiftr 128 (Z.of_nat (index `mod` 8)).

(** The byte access [self.bytes[index / 8]], a panic out of bounds. *)
Definition byte_at (bf : t) (index : nat) : result byte := expect (bytes bf !! (index / 8)%nat).

(** The panic of [byte_at] never arises: the fields are private and every
    constructor and [set] keep the bitfield [sized] (see [byte_at_sized]). *)
Definition has (bf : t) (index : nat) : bool :=
  if (num_pieces bf <=? index)%nat then false
  else match byte_at bf index with
       | Ok b => negb (Z.land (b2z b) (mask index) =? 0)
       | _ => false
       end.

Definition set (bf : t) (index : nat) : t :=
  if (num_pieces bf <=? index)%nat then bf
  else match byte_at bf index with
       | Ok b =>
           if Z.land (b2z b) (mask index) =? 0
           then {| bytes := <[(index / 8)%nat := z2b (Z.lor (b2z b) (mask index))]> (bytes bf);
                   num_pieces := num_pieces bf;
                   count := S (count bf) |}
           else bf
       | _ => bf
       end.

Definition from_bytes (bs : list byte) (num_pieces : nat) : result t :=
  if negb (length bs =? byte_len num_pieces)%nat then Err PeerProtocol
  else
    let bf := {| bytes := bs; num_pieces := num_pieces; count := 0 |} in
    Ok {| bytes := bs; num_pieces := num_pieces; count := count_below (has bf) num_pieces |}.

Definition is_complete (bf : t) : bool := (count bf =? num_pieces bf)%nat.
Definition as_bytes (bf : t) : list byte := bytes bf.
Definition to_message_bytes (bf : t) : list byte := bytes bf.

(** ** Representation invariant *)

Definition sized (bf : t) : Prop := length (bytes bf) = byte_len (num_pieces bf).

Definition wf (bf : t) : Prop := sized bf ∧ count bf = count_below (has bf) (num_pieces bf).

(** ** Bits *)

Lemma byte_len_spec n i : (i < n)%nat → (i / 8 < byte_len n)%nat.
Proof.
  intros Hi. unfold byte_len.
  pose proof (div_ceil_lt (Z.of_nat n) 8 (Z.of_nat (i / 8)) ltac:(lia)) as [_ Hd].
  pose proof (Nat.div_mod i 8 ltac:(lia)). pose proof (Nat.mod_upper_bound i 8 ltac:(lia)).
  lia.
Qed.

Definition bit (index : nat) : Z := 7 - Z.of_nat (index `mod` 8).

Lemma bit_range index : 0 ≤ bit index < 8.
Proof. unfold bit. pose proof (Nat.mod_upper_bound index 8 ltac:(lia)). lia. Qed.

Lemma mask_pow2 index : mask index = 2 ^ bit index.
Proof.
  unfold mask, bit. pose proof (Nat.mod_upper_bound index 8 ltac:(lia)).
  generalize dependent (index `mod` 8)%nat. intros k Hk.
  do 8 (destruct k as [|k]; [done|]). lia.
Qed.

Lemma land_mask_testbit x index :
  negb (Z.land x (mask index) =? 0) = Z.testbit x (bit index).
Proof.
  rewrite mask_pow2. pose proof (bit_range index).
  destruct (Z.testbit x (bit index)) eqn:Ht.
  - apply negb_true_iff, Z.eqb_neq. intros H0.
    assert (Z.testbit (Z.land x (2 ^ bit index)) (bit index) = true) as H1.
    { by rewrite Z.land_spec, Ht, Z.pow2_bits_true by lia. }
    by rewrite H0, Z.bits_0 in H1.
  - apply negb_false_iff, Z.eqb_eq. apply Z.bits_inj'. intros k Hk.
    rewrite Z.land_spec, Z.bits_0, Z.pow2_bits_eqb by lia.
    destruct (Z.eqb_spec (bit index) k) as [<-|]; [by rewrite Ht|by rewrite andb_false_r].
Qed.

Lemma testbit_z2b_lor b index j :
  Z.testbit (b2z (z2b (Z.lor (b2z b) (mask index)))) (bit j) =
  Z.testbit (b2z b) (bit j) || bool_decide (index `mod` 8 = j `mod` 8)%nat.
Proof.
  rewrite b2z_z2b, mask_pow2. pose proof (bit_range index). pose proof (bit_range j).
  change 256 with (2 ^ 8). rewrite Z.mod_pow2_bits_low by lia.
  rewrite Z.lor_spec, Z.pow2_bits_eqb by lia. f_equal.
  unfold bit. destruct (Z.eqb_spec (7 - Z.of_nat (index `mod` 8)) (7 - Z.of_nat (j `mod` 8)));
    [rewrite bool_decide_eq_true_2 by lia|rewrite bool_decide_eq_false_2 by lia]; done.
Qed.

(** Two indices of one byte with one position are one index. *)
Lemma index_split i j :
  (i / 8 = j / 8)%nat → (i `mod` 8 = j `mod` 8)%nat → i = j.
Proof.
  intros Hd Hm. rewrite (Nat.div_mod i 8), (Nat.div_mod j 8) by lia. by rewrite Hd, Hm.
Qed.

(** ** In-bounds accesses and membership *)

Lemma byte_at_sized bf i :
  sized bf → (i < num_pieces bf)%nat → ∃ b, bytes bf !! (i / 8)%nat = Some b.
Proof.
  intros Hs Hi. apply lookup_lt_is_Some. rewrite Hs. by apply byte_len_spec.
Qed.

Lemma has_testbit bf i b :
  bytes bf !! (i / 8)%nat = Some b →
  has bf i = ((i <? num_pieces bf)%nat && Z.testbit (b2z b) (bit i)).
Proof.
  intros Hb. unfold has, byte_at. rewrite Hb. simpl.
  destruct (Nat.leb_spec (num_pieces bf) i), (Nat.ltb_spec i (num_pieces bf)); try lia.
  by rewrite land_mask_testbit.
Qed.

Lemma has_lt bf i : has bf i = true → (i < num_pieces bf)%nat.
Proof. unfold has. destruct (Nat.leb_spec (num_pieces bf) i); done. Qed.

Lemma set_num_pieces bf i : num_pieces (set bf i) = num_pieces bf.
Proof. unfold set. repeat case_match; done. Qed.

Lemma set_sized bf i : sized bf → sized (set bf i).
Proof.
  unfold sized. rewrite set_num_pieces. intros <-.
  unfold set. repeat case_match; simpl; rewrite ?length_insert; done.
Qed.

Lemma has_set bf i j :
  sized bf →
  has (set bf i) j = has bf j || (bool_decide (i = j) && (i <? num_pieces bf)%nat).
Proof.
  intros Hs. unfold set.
  destruct (Nat.leb_spec (num_pieces bf) i) as [|Hi].
  { rewrite (proj2 (Nat.ltb_ge _ _)) by done. by rewrite andb_false_r, orb_false_r. }
  rewrite (proj2 (Nat.ltb_lt _ _)), andb_true_r by done.
  destruct (byte_at_sized bf i Hs Hi) as [b Hb].
  unfold byte_at. rewrite Hb. simpl.
  destruct (Z.land (b2z b) (mask i) =? 0) eqn:Hland.
  - destruct (decide (j < num_pieces bf)%nat) as [Hj|Hj].
    + destruct (byte_at_sized bf j Hs Hj) as [c Hc].
      rewrite (has_testbit bf j c Hc). rewrite (proj2 (Nat.ltb_lt _ _) Hj). simpl.
      destruct (decide (i / 8 = j / 8)%nat) as [Heq|Hne].
      * rewrite Heq in Hb. assert (c = b) as -> by congruence. rewrite Heq.
        erewrite has_testbit; [|simpl; apply list_lookup_insert_eq; by eapply lookup_lt_Some].
        simpl. rewrite (proj2 (Nat.ltb_lt _ _) Hj), testbit_z2b_lor. simpl. f_equal.
        apply bool_decide_ext. split; [intros; by apply index_split|by intros ->].
      * erewrite has_testbit; [|simpl; rewrite list_lookup_insert_ne by done; exact Hc].
        simpl. rewrite (proj2 (Nat.ltb_lt _ _) Hj). simpl.
        rewrite bool_decide_eq_false_2 by (by intros ->). by rewrite orb_false_r.
    + rewrite bool_decide_eq_false_2, orb_false_r by lia. unfold has. simpl.
      by rewrite (proj2 (Nat.leb_le _ _)) by lia.
  - destruct (bool_decide_reflect (i = j)) as [<-|]; [|by rewrite orb_false_r].
    rewrite (has_testbit bf i b Hb), <-land_mask_testbit, Hland.
    rewrite (proj2 (Nat.ltb_lt _ _)) by done. done.
Qed.

(** ** The invariant is kept *)

Lemma sized_has_irrel bs n c1 c2 i :
  has {| bytes := bs; num_pieces := n; count := c1 |} i =
  has {| bytes := bs; num_pieces := n; count := c2 |} i.
Proof. reflexivity. Qed.

Lemma new_has n i : has (new n) i = false.
Proof.
  destruct (decide (i < n)%nat) as [Hi|Hi].
  - erewrite has_testbit; [|apply lookup_replicate_2; by apply byte_len_spec].
    rewrite Z.bits_0. by rewrite andb_false_r.
  - unfold has. simpl. by rewrite (proj2 (Nat.leb_le _ _)) by lia.
Qed.

Lemma new_wf n : wf (new n).
Proof.
  split; [apply length_replicate|]. simpl. symmetry.
  apply count_below_zero. intros. apply new_has.
Qed.

Lemma set_wf bf i : wf bf → wf (set bf i).
Proof.
  intros [Hs Hc]. split; [by apply set_sized|].
  rewrite set_num_pieces. pose proof (has_set bf i) as Hhas. revert Hhas.
  unfold set.
  destruct (Nat.leb_spec (num_pieces bf) i) as [|Hi]; [done|].
  destruct (byte_at_sized bf i Hs Hi) as [b Hb]. unfold byte_at. rewrite Hb. simpl.
  destruct (Z.land (b2z b) (mask i) =? 0) eqn:Hland; [|done].
  rewrite (proj2 (Nat.ltb_lt _ _)) by done. intros Hhas. symmetry.
  etransitivity; [apply (count_below_set (has bf) _ _ i)|by rewrite Hc]; [done| | |].
  - rewrite (has_testbit bf i b Hb), <-land_mask_testbit, Hland. by rewrite andb_false_r.
  - rewrite Hhas by done. rewrite bool_decide_eq_true_2 by done. by rewrite orb_true_r.
  - intros j Hj. rewrite Hhas by done. rewrite bool_decide_eq_false_2 by done.
    by rewrite orb_false_r.
Qed.

Lemma from_bytes_Ok bs n bf :
  from_bytes bs n = Ok bf →
  length bs = byte_len n ∧ bytes bf = bs ∧ num_pieces bf = n ∧ wf bf.
Proof.
  unfold from_bytes. destruct (Nat.eqb_spec (length bs) (byte_len n)); simpl; [|done].
  intros [= <-]. done.
Qed.

Lemma from_bytes_cases bs n :
  match from_bytes bs n with
  | Ok b => wf b ∧ num_pieces b = n
  | Err e => e = PeerProtocol
  | Panic => False
  end.
Proof.
  destruct (from_bytes bs n) as [b|e|] eqn:Hf.
  - by apply from_bytes_Ok in Hf as (_ & _ & ? & ?).
  - unfold from_bytes in Hf. case_match; by simplify_eq.
  - unfold from_bytes in Hf. by case_match.
Qed.

End Bitfield.

(** ** [Bitfield] implements [PieceSet] *)

#[export] Instance Bitfield_PieceSet : PieceSet Bitfield.t := {|
  ps_new := Bitfield.new;
  ps_num := Bitfield.num_pieces;
  ps_has := Bitfield.has;
  ps_set := Bitfield.set;
  ps_count := Bitfield.count;
  ps_wf := Bitfield.wf;
  ps_new_wf := Bitfield.new_wf;
  ps_new_num n := eq_refl;
  ps_new_has := Bitfield.new_has;
  ps_set_wf := Bitfield.set_wf;
  ps_set_num := Bitfield.set_num_pieces;
  ps_set_has b i j H := Bitfield.has_set b i j (proj1 H);
  ps_has_lt := Bitfield.has_lt;
  ps_count_spec b H := proj2 H;
  ps_from_bytes := Bitfield.from_bytes;
  ps_from_bytes_spec := Bitfield.from_bytes_cases;
|}.

(** ** Properties of the bitfield *)

Lemma wf_pieces_below bf :
  Bitfield.wf bf → ps_elems bf = set_seq 0 (Bitfield.num_pieces bf) ↔
                   Bitfield.is_complete bf = true.
Proof.
  intros Hwf. change (Bitfield.is_complete bf) with (ps_is_complete bf).
  rewrite ps_complete_spec by done. split.
  - intros Hs j Hj. apply elem_of_ps_elems. rewrite Hs. apply elem_of_set_seq. cbn in Hj. lia.
  - intros Hall. apply set_eq. intros j. rewrite elem_of_ps_elems, elem_of_set_seq. split.
    + intros Hj%ps_has_lt. cbn in Hj. lia.
    + intros Hj. apply Hall. cbn. lia.
Qed.

(** C19: The packed bitfield is a set of piece indices. For a bitfield that
    satisfies the representation invariant, [set] keeps the invariant and adds
    exactly the given index (nothing when it is out of range), [has] is
    membership, the cached [count] is the size of the set, [is_complete] says
    that the set holds every piece, and no byte access of [has] or [set] for an
    index in range is out of bounds. *)
Theorem bitfield_refines_set bf i :
  Bitfield.wf bf →
  Bitfield.wf (Bitfield.set bf i) ∧
  ps_elems (Bitfield.set bf i) =
    (if decide (i < Bitfield.num_pieces bf)%nat then {[i]} ∪ ps_elems bf else ps_elems bf) ∧
  (Bitfield.has bf i = true ↔ i ∈ ps_elems bf) ∧
  Bitfield.count bf = size (ps_elems bf) ∧
  (Bitfield.is_complete bf = true ↔ ps_elems bf = set_seq 0 (Bitfield.num_pieces bf)) ∧
  ((i < Bitfield.num_pieces bf)%nat → is_Ok (Bitfield.byte_at bf i)).
Proof.
  intros Hwf. split_and!.
  - by apply Bitfield.set_wf.
  - case_decide as Hi; [exact (ps_elems_set bf i Hwf Hi)|].
    apply set_eq. intros j. rewrite !elem_of_ps_elems. cbn.
    rewrite Bitfield.has_set by apply Hwf. rewrite (proj2 (Nat.ltb_ge _ _)) by lia.
    by rewrite andb_false_r, orb_false_r.
  - by rewrite elem_of_ps_elems.
  - exact (ps_count_size bf Hwf).
  - symmetry. by apply wf_pieces_below.
  - intros Hi. destruct (Bitfield.byte_at_sized bf i (proj1 Hwf) Hi) as [b Hb].
    exists b. unfold Bitfield.byte_at. by rewrite Hb.
Qed.

(** Wire conversion. [from_bytes] accepts exactly the byte strings of
    [ceil(n / 8)] bytes, whatever their spare bits; what it accepts satisfies
    the invariant, holds piece [i] exactly when bit [7 - i mod 8] of byte
    [i / 8] is set, and is sent back unchanged by [to_message_bytes]; and every
    bitfield that satisfies the invariant survives the round trip. *)
Theorem from_bytes_roundtrip bs n :
  match Bitfield.from_bytes bs n with
  | Ok bf =>
      Z.of_nat (length bs) = div_ceil (Z.of_nat n) 8 ∧ Bitfield.wf bf ∧
      Bitfield.num_pieces bf = n ∧ Bitfield.to_message_bytes bf = bs ∧
      Forall (λ i, ∃ b, bs !! (i / 8)%nat = Some b ∧
        Bitfield.has bf i = Z.testbit (b2z b) (7 - Z.of_nat (i `mod` 8))) (seq 0 n)
  | Err e => e = PeerProtocol ∧ Z.of_nat (length bs) ≠ div_ceil (Z.of_nat n) 8
  | Panic => False
  end ∧
  (∀ bf, Bitfield.wf bf →
     Bitfield.from_bytes (Bitfield.to_message_bytes bf) (Bitfield.num_pieces bf) = Ok bf).
Proof.
  pose proof (div_ceil_spec (Z.of_nat n) 8 ltac:(lia) ltac:(lia)) as Hdc.
  split.
  - destruct (Bitfield.from_bytes bs n) as [bf|e|] eqn:Hf.
    + apply Bitfield.from_bytes_Ok in Hf as (Hl & Hb & Hn & Hwf).
      split_and!; [rewrite Hl; unfold Bitfield.byte_len; lia|done..|].
      apply Forall_forall. intros i Hi%elem_of_seq.
      destruct (Bitfield.byte_at_sized bf i (proj1 Hwf)) as [b Hlk]; [lia|].
      exists b. rewrite <-Hb. split; [done|].
      rewrite (Bitfield.has_testbit _ _ _ Hlk), (proj2 (Nat.ltb_lt _ _)) by lia. done.
    + unfold Bitfield.from_bytes in Hf. revert Hf.
      destruct (Nat.eqb_spec (length bs) (Bitfield.byte_len n)) as [|Hne]; [done|].
      intros [= <-]. split; [done|]. unfold Bitfield.byte_len in Hne. lia.
    + unfold Bitfield.from_bytes in Hf. by case_match.
  - intros [bb m c] [Hs Hc]. cbn in *. unfold Bitfield.from_bytes.
    rewrite (proj2 (Nat.eqb_eq _ _)) by done. cbn. by rewrite Hc.
Qed.

(** A nine-piece bitfield after setting piece 8. *)
Lemma bitfield_refines_set_witness :
  ps_elems (Bitfield.set (Bitfield.new 9) 8) = {[8%nat]} ∪ ps_elems (Bitfield.new 9) ∧
  Bitfield.has (Bitfield.set (Bitfield.new 9) 8) 8 = true.
Proof.
  split; [|vm_compute; reflexivity].
  apply (bitfield_refines_set (Bitfield.new 9) 8 (Bitfield.new_wf 9)).
Defined.
