(* ===== verification/Paths.v ===== *)
(** * Paths of the standard library, as the engine uses them

    Rust strings are modelled by their UTF-8 bytes. A [PathBuf] on Unix is such
    a byte string; [push] (and [join], [push] on a copy) and [components] follow
    [std::path]: pushing an absolute path replaces the buffer, otherwise a
    separator is added when the buffer is not empty and does not end in one;
    [components] drops empty segments and every ["."] but a leading one. *)

From S2P Require Export Errors.

Abbreviation str := (list byte).

Definition slash : byte := Byte.x2f.
Definition backslash : byte := Byte.x5c.
Definition nul : byte := Byte.x00.

Module Path.

Inductive Component : Type :=
  | RootDir
  | CurDir
  | ParentDir
  | Normal (s : str).

#[global] Instance Component_eq_dec : EqDecision Component.
Proof. solve_decision. Defined.

(** [p.is_absolute()]. *)
Definition is_absolute (p : str) : bool := bool_decide (head p = Some slash).

(** [buf.push(p)]. *)
Definition push (buf p : str) : str :=
  if is_absolute p then p
  else if bool_decide (last buf = None) || bool_decide (last buf = Some slash)
       then buf ++ p
       else buf ++ slash :: p.

Definition join (buf p : str) : str := push buf p.

Fixpoint split_on (c : byte) (l : str) : list str :=
  match l with
  | [] => [[]]
  | b :: l' =>
      if decide (b = c) then [] :: split_on c l'
      else match split_on c l' with
           | [] => [[b]]
           | s :: ss => (b :: s) :: ss
           end
  end.

Definition segment (s : str) : list Component :=
  if decide (s = [] ∨ s = lit ".") then []
  else if decide (s = lit "..") then [ParentDir]
  else [Normal s].

Definition prefix_component (p : str) : list Component :=
  if is_absolute p then [RootDir]
  else if decide (head (split_on slash p) = Some (lit ".")) then [CurDir]
  else [].

Definition components (p : str) : list Component :=
  prefix_component p ++ concat (segment <$> split_on slash p).

(** ** A plain name pushed on any path is one more component *)

Definition plain (s : str) : Prop :=
  s ≠ [] ∧ s ≠ lit "." ∧ s ≠ lit ".." ∧ slash ∉ s.

#[global] Instance plain_dec s : Decision (plain s).
Proof. unfold plain. apply _. Defined.

Lemma split_on_not_nil c l : split_on c l ≠ [].
Proof. destruct l as [|b l]; simpl; [done|]. repeat case_match; done. Qed.

Lemma split_on_sep c l1 l2 : split_on c (l1 ++ c :: l2) = split_on c l1 ++ split_on c l2.
Proof.
  induction l1 as [|b l1 IH]; simpl.
  - by rewrite decide_True.
  - rewrite IH. case_decide; [done|].
    destruct (split_on c l1) eqn:E; [by apply split_on_not_nil in E|done].
Qed.

Lemma split_on_plain c l : c ∉ l → split_on c l = [l].
Proof.
  induction l as [|b l IH]; intros Hc; simpl; [done|].
  apply not_elem_of_cons in Hc as [Hne Hl]. rewrite decide_False by done. by rewrite IH.
Qed.

Lemma segment_plain s : plain s → segment s = [Normal s].
Proof.
  intros (? & ? & ? & _). unfold segment. rewrite !decide_False; [done|done|tauto].
Qed.

Lemma is_absolute_plain s : plain s → is_absolute s = false.
Proof.
  intros (Hne & _ & _ & Hs). apply bool_decide_eq_false. intros Hh. apply Hs.
  destruct s; [done|]. injection Hh as ->. left.
Qed.

Lemma prefix_component_sep p l2 :
  p ≠ [] → prefix_component (p ++ slash :: l2) = prefix_component p.
Proof.
  intros Hp. unfold prefix_component, is_absolute. rewrite split_on_sep.
  destruct p as [|b p]; [done|]. simpl.
  destruct (split_on slash (b :: p)) eqn:E; [by apply split_on_not_nil in E|].
  simpl in E. rewrite E. done.
Qed.

Lemma components_push buf s :
  plain s → components (push buf s) = components buf ++ [Normal s].
Proof.
  intros Hs. unfold push. rewrite is_absolute_plain by done.
  pose proof (proj2 (proj2 (proj2 Hs))) as Hslash.
  destruct (last buf) as [b|] eqn:Hlast.
  - apply last_Some in Hlast as [buf' ->].
    rewrite (bool_decide_eq_false_2 (Some b = None)) by done. rewrite orb_false_l.
    destruct (bool_decide_reflect (Some b = Some slash)) as [[= ->]|Hb]; simpl.
    + rewrite <-app_assoc. simpl. unfold components.
      rewrite !split_on_sep, (split_on_plain _ s) by done.
      rewrite !fmap_app, !concat_app. cbn [fmap list_fmap]. rewrite segment_plain by done.
      rewrite <-(app_assoc (prefix_component (buf' ++ [slash]))). f_equal.
      * destruct buf' as [|b buf']; [done|].
        rewrite !(prefix_component_sep (b :: buf')); done.
      * simpl. rewrite <-app_assoc. done.
    + unfold components.
      rewrite prefix_component_sep, split_on_sep, (split_on_plain _ s) by (done || by destruct buf').
      rewrite fmap_app, concat_app. cbn [fmap list_fmap concat]. rewrite segment_plain by done.
      by rewrite app_assoc, app_nil_r.
  - apply last_None in Hlast as ->. simpl. unfold components, prefix_component.
    rewrite is_absolute_plain, split_on_plain by done. simpl. rewrite segment_plain by done.
    rewrite decide_False; [done|]. intros [= ->]. by destruct Hs as (_ & ? & _).
Qed.

Lemma components_push_all buf ss :
  Forall plain ss → components (foldl push buf ss) = components buf ++ (Normal <$> ss).
Proof.
  revert buf. induction ss as [|s ss IH]; intros buf; simpl; [by rewrite app_nil_r|].
  intros [Hs Hss]%Forall_cons. rewrite IH, components_push by done.
  by rewrite <-app_assoc.
Qed.

End Path.
