(* ===== verification/Bencode.v ===== *)
(** * The raw bencode walk ([extract_raw_info], [read_byte_string],
      [skip_value] of [src/metainfo.rs])

    Positions are indices into the buffer, as in the code. [skip_value] and its
    container loop recurse on a fuel; [skip_value_terminates] shows that twice
    the number of remaining bytes is always enough. The walk is characterised
    by a declarative grammar: it accepts at [i] exactly the encodings that
    start at [i], and [extract_raw_info] returns exactly the bytes of the first
    top-level ["info"] value. *)

From S2P Require Export Errors.

Module Bencode.

(** ASCII characters of the format. *)
Definition ch_d : byte := Byte.x64.
Definition ch_e : byte := Byte.x65.
Definition ch_i : byte := Byte.x69.
Definition ch_l : byte := Byte.x6c.
Definition colon : byte := Byte.x3a.
Definition plus : byte := Byte.x2b.

Definition is_digit (b : byte) : bool := (48 <=? b2z b) && (b2z b <=? 57).

(** [str::parse::<usize>()]: an optional ['+'], then digits, with overflow
    checks. A byte that is not ASCII is no digit, so [str::from_utf8] rejects
    nothing that [parse] would accept. *)
Fixpoint parse_digits (acc : Z) (ds : list byte) : option Z :=
  match ds with
  | [] => Some acc
  | b :: ds' =>
      if is_digit b then
        let acc' := acc * 10 + (b2z b - 48) in
        if acc' <? 2 ^ 64 then parse_digits acc' ds' else None
      else None
  end.

Definition parse_usize (s : list byte) : option Z :=
  match s with
  | [] => None
  | b :: s' =>
      if decide (b = plus)
      then match s' with [] => None | _ => parse_digits 0 s' end
      else parse_digits 0 s
  end.

(** ** The walk *)

Definition read_byte_string (buf : list byte) (i : nat) : result (list byte * nat) :=
  tail ← slice_r i (length buf) buf;
  off ← ok_or MalformedTorrent (position (λ b, bool_decide (b = colon)) tail);
  let colon_at := (i + off)%nat in
  digits ← slice_r i colon_at buf;
  len ← ok_or MalformedTorrent (parse_usize digits);
  let start := (colon_at + 1)%nat in
  stop ← ok_or MalformedTorrent
    (e ← checked_add 64 (Z.of_nat start) len;
     if e <=? Z.of_nat (length buf) then Some e else None);
  bytes ← slice_r start (Z.to_nat stop) buf;
  Ok (bytes, Z.to_nat stop).

Definition skip_integer (buf : list byte) (i : nat) : result nat :=
  tail ← slice_r i (length buf) buf;
  off ← ok_or MalformedTorrent (position (λ b, bool_decide (b = ch_e)) tail);
  Ok (i + off + 1)%nat.

(** [skip_value], and the [while] loop over a container's items. *)
Fixpoint skip_value_f (fuel : nat) (buf : list byte) (i : nat) : option (result nat) :=
  match fuel with
  | O => None
  | S fuel' =>
      match buf !! i with
      | None => Some (Err MalformedTorrent)
      | Some kind =>
          if decide (kind = ch_i) then Some (skip_integer buf i)
          else if decide (kind = ch_l ∨ kind = ch_d) then skip_items_f fuel' buf (i + 1)
          else if is_digit kind then Some (snd <$> read_byte_string buf i)
          else Some (Err MalformedTorrent)
      end
  end
with skip_items_f (fuel : nat) (buf : list byte) (j : nat) : option (result nat) :=
  match fuel with
  | O => None
  | S fuel' =>
      match buf !! j with
      | None => Some (Err MalformedTorrent)
      | Some b =>
          if decide (b = ch_e) then Some (Ok (j + 1)%nat)
          else match skip_value_f fuel' buf j with
               | Some (Ok j') => skip_items_f fuel' buf j'
               | r => r
               end
      end
  end.

Definition skip_fuel (buf : list byte) (i : nat) : nat := (2 * (length buf - i) + 2)%nat.

Definition skip_value (buf : list byte) (i : nat) : result nat :=
  default Panic (skip_value_f (skip_fuel buf i) buf i).

(** The [while] loop of [extract_raw_info]. *)
Fixpoint find_info (fuel : nat) (buf : list byte) (i : nat) : option (result (list byte)) :=
  match fuel with
  | O => None
  | S fuel' =>
      match buf !! i with
      | None => Some (Err MalformedTorrent)
      | Some b =>
          if decide (b = ch_e) then Some (Err MalformedTorrent)
          else match read_byte_string buf i with
               | Err e => Some (Err e)
               | Panic => Some Panic
               | Ok (key, after_key) =>
                   match skip_value buf after_key with
                   | Err e => Some (Err e)
                   | Panic => Some Panic
                   | Ok val_end =>
                       if decide (key = lit "info") then Some (slice_r after_key val_end buf)
                       else find_info fuel' buf val_end
                   end
               end
      end
  end.

Definition extract_raw_info (buf : list byte) : result (list byte) :=
  if decide (head buf = Some ch_d)
  then default Panic (find_info (length buf + 1) buf 1)
  else Err MalformedTorrent.

(** ** The grammar *)

(** [<len>:<bytes>] *)
Inductive byte_string (s : list byte) : list byte → Prop :=
  | byte_string_intro ds :
      colon ∉ ds → parse_usize ds = Some (Z.of_nat (length s)) →
      byte_string s (ds ++ colon :: s).

Inductive benc : list byte → Prop :=
  | benc_int body : ch_e ∉ body → benc (ch_i :: body ++ [ch_e])
  | benc_str d w s : is_digit d = true → byte_string s (d :: w) → benc (d :: w)
  | benc_container c w : (c = ch_l ∨ c = ch_d) → bencs w → benc (c :: w ++ [ch_e])
with bencs : list byte → Prop :=
  | bencs_nil : bencs []
  | bencs_cons v w : benc v → bencs w → bencs (v ++ w).

Scheme benc_ind' := Induction for benc Sort Prop
  with bencs_ind' := Induction for bencs Sort Prop.
Combined Scheme benc_mutind from benc_ind', bencs_ind'.

(** Key/value pairs none of whose keys is ["info"]. *)
Inductive entries_before_info : list byte → Prop :=
  | entries_nil : entries_before_info []
  | entries_cons key k v w :
      byte_string key k → key ≠ lit "info" → benc v → entries_before_info w →
      entries_before_info (k ++ v ++ w).

(** A Rust allocation is at most [isize::MAX] bytes long. *)
Definition alloc (buf : list byte) : Prop := Z.of_nat (length buf) < 2 ^ 63.

(** The only failure is the parser's own error. *)
Definition benign {A} (r : result A) : Prop :=
  match r with Ok _ => True | Err e => e = MalformedTorrent | Panic => False end.

(** ** Lengths and byte strings *)

Lemma parse_digits_range acc ds n :
  0 ≤ acc < 2 ^ 64 → parse_digits acc ds = Some n → 0 ≤ n < 2 ^ 64.
Proof.
  revert acc. induction ds as [|b ds IH]; intros acc Hacc; simpl; [by intros [= <-]|].
  destruct (is_digit b) eqn:Hd; [|done].
  destruct (Z.ltb_spec (acc * 10 + (b2z b - 48)) (2 ^ 64)); [|done].
  apply IH. unfold is_digit in Hd. lia.
Qed.

Lemma parse_usize_range s n : parse_usize s = Some n → 0 ≤ n < 2 ^ 64.
Proof.
  unfold parse_usize. destruct s as [|b s]; [done|].
  case_decide; [destruct s; [done|]|]; by apply parse_digits_range.
Qed.

Lemma digit_ne_e d : is_digit d = true → d ≠ ch_i ∧ d ≠ ch_l ∧ d ≠ ch_d ∧ d ≠ ch_e.
Proof. intros Hd. split_and!; by intros ->. Qed.

Lemma position_eq_Some (c : byte) l i :
  position (λ b, bool_decide (b = c)) l = Some i ↔ l !! i = Some c ∧ c ∉ take i l.
Proof.
  rewrite position_Some. split.
  - intros (x & Hx & Hc & Hall). apply bool_decide_eq_true in Hc as ->. split; [done|].
    intros Hin. rewrite Forall_forall in Hall. apply Hall in Hin.
    by apply bool_decide_eq_false in Hin.
  - intros [Hi Hc]. exists c. split_and!; [done|by apply bool_decide_eq_true|].
    apply Forall_forall. intros y Hy. apply bool_decide_eq_false. by intros ->.
Qed.

Lemma position_eq_app (c : byte) l post :
  c ∉ l → position (λ b, bool_decide (b = c)) (l ++ c :: post) = Some (length l).
Proof.
  intros Hc. apply position_eq_Some. rewrite list_lookup_middle by done.
  by rewrite take_app_length.
Qed.

Lemma slice_tail {A} (pre l : list A) : slice (length pre) (length (pre ++ l)) (pre ++ l) = l.
Proof.
  unfold slice. rewrite drop_app_length, length_app. apply take_ge. lia.
Qed.

Lemma slice_one {A} i (l : list A) x : l !! i = Some x → slice i (i + 1) l = [x].
Proof.
  intros Hx. unfold slice. replace (i + 1 - i)%nat with 1%nat by lia.
  rewrite (drop_S l x i Hx). simpl. by rewrite take_0.
Qed.

Lemma read_byte_string_complete s w pre post :
  byte_string s w → alloc (pre ++ w ++ post) →
  read_byte_string (pre ++ w ++ post) (length pre) = Ok (s, (length pre + length w)%nat).
Proof.
  intros [ds Hcol Hds] Ha. unfold alloc in Ha. unfold read_byte_string.
  rewrite slice_r_Ok by (rewrite length_app; lia). rewrite slice_tail. red_result.
  rewrite <-app_assoc. cbn [app]. rewrite position_eq_app by done. red_result.
  rewrite !length_app in Ha. cbn [length] in Ha.
  assert (length (pre ++ ds ++ colon :: s ++ post) =
    length pre + length ds + S (length s + length post))%nat as Hlen.
  { rewrite !length_app. cbn [length]. rewrite length_app. lia. }
  rewrite slice_r_Ok by lia. rewrite slice_app_mid. red_result.
  rewrite Hds. red_result.
  unfold checked_add. rewrite (proj2 (Z.ltb_lt _ _)) by lia. red_result.
  rewrite Hlen, (proj2 (Z.leb_le _ _)) by lia. red_result.
  rewrite slice_r_Ok by (rewrite Hlen; lia).
  replace (pre ++ ds ++ colon :: s ++ post) with ((pre ++ ds ++ [colon]) ++ s ++ post)
    by (rewrite <-!app_assoc; done).
  replace (length pre + length ds + 1)%nat with (length (pre ++ ds ++ [colon]))
    by (rewrite !length_app; simpl; lia).
  replace (Z.to_nat _) with (length (pre ++ ds ++ [colon]) + length s)%nat by lia.
  rewrite slice_app_mid. red_result. rewrite !length_app. cbn [length].
  by replace (length pre + (length ds + 1) + length s)%nat
    with (length pre + (length ds + S (length s)))%nat by lia.
Qed.

Lemma read_byte_string_sound buf i s j :
  read_byte_string buf i = Ok (s, j) →
  (i < j ≤ length buf)%nat ∧ byte_string s (slice i j buf).
Proof.
  unfold read_byte_string. intros H. inv_result.
  match goal with H : position _ _ = Some ?o |- _ =>
    rename o into off; pose proof (position_lt _ _ _ H) as Hoff;
    apply position_eq_Some in H as [Hc Hnc] end.
  match goal with H : parse_usize _ = Some ?n |- _ => rename n into len;
    pose proof (parse_usize_range _ _ H) as Hlen; rename H into Hparse end.
  match goal with H : checked_add _ _ _ ≫= _ = Some ?e |- _ =>
    rename e into stop; apply bind_Some in H as (e' & [-> Hov]%checked_add_Some & Hle) end.
  destruct (Z.leb_spec (Z.of_nat (i + off + 1) + len) (Z.of_nat (length buf))); [|done].
  injection Hle as <-.
  set (stop := Z.to_nat (Z.of_nat (i + off + 1) + len)) in *. split; [lia|].
  rewrite slice_length in Hoff by lia. rewrite slice_lookup in Hc by lia.
  rewrite (slice_split i (i + off) stop) by lia.
  rewrite (slice_split (i + off) (i + off + 1) stop) by lia.
  rewrite (slice_one _ _ _ Hc). constructor.
  - revert Hnc. unfold slice. by replace (i + off - i)%nat with off by lia;
      rewrite take_take, Nat.min_l by (rewrite ?length_drop; lia).
  - rewrite Hparse, slice_length by lia. f_equal. lia.
Qed.

Lemma read_byte_string_benign buf i :
  (i ≤ length buf)%nat → benign (read_byte_string buf i).
Proof.
  intros Hi. unfold read_byte_string. rewrite slice_r_Ok by lia. red_result.
  destruct (position _ _) as [off|] eqn:Hpos; [|done]. red_result.
  apply position_lt in Hpos. rewrite slice_length in Hpos by lia.
  rewrite slice_r_Ok by lia. red_result.
  destruct (parse_usize _) as [len|] eqn:Hlen; [|done]. red_result.
  apply parse_usize_range in Hlen.
  destruct (checked_add _ _ _) as [e|] eqn:He; [|done]. red_result.
  apply checked_add_Some in He as [-> _].
  destruct (Z.leb_spec (Z.of_nat (i + off + 1) + len) (Z.of_nat (length buf))); [|done].
  red_result. rewrite slice_r_Ok by lia. done.
Qed.

(** ** The walk consumes input and stays in bounds *)

Lemma skip_integer_sound buf i j :
  skip_integer buf i = Ok j → buf !! i = Some ch_i →
  (i < j ≤ length buf)%nat ∧ benc (slice i j buf).
Proof.
  unfold skip_integer. intros H Hi. inv_result.
  match goal with H : position _ _ = Some ?o |- _ =>
    rename o into off; pose proof (position_lt _ _ _ H) as Hoff;
    apply position_eq_Some in H as [Hc Hnc] end.
  rewrite slice_length in Hoff by lia. rewrite slice_lookup in Hc by lia.
  destruct off as [|off]; [by rewrite Nat.add_0_r, Hi in Hc|].
  split; [lia|].
  rewrite (slice_split i (i + S off)), (slice_one _ _ _ Hc) by lia.
  rewrite (slice_split i (i + 1)), (slice_one _ _ _ Hi) by lia.
  rewrite <-app_assoc. cbn [app]. apply benc_int. intros Hin. apply Hnc.
  unfold slice in *. rewrite take_take, Nat.min_l by lia.
  rewrite (drop_S buf ch_i i Hi). cbn [take].
  replace (i + 1)%nat with (S i) in Hin by lia.
  replace (i + S off - S i)%nat with off in Hin by lia. by right.
Qed.

Lemma skip_sound f buf :
  (∀ i j, skip_value_f f buf i = Some (Ok j) →
    (i < j ≤ length buf)%nat ∧ benc (slice i j buf)) ∧
  (∀ i j, skip_items_f f buf i = Some (Ok j) →
    (i < j ≤ length buf)%nat ∧ ∃ w, bencs w ∧ slice i j buf = w ++ [ch_e]).
Proof.
  induction f as [|f [IHv IHi]]; [done|]. split; intros i j; cbn [skip_value_f skip_items_f].
  - destruct (buf !! i) as [kind|] eqn:Hk; [|done].
    destruct (decide (kind = ch_i)) as [->|].
    { intros [= Hj]. by apply skip_integer_sound. }
    destruct (decide (kind = ch_l ∨ kind = ch_d)) as [Hc|].
    + intros (Hb & w & Hw & Hs)%IHi. split; [lia|].
      rewrite (slice_split i (i + 1)), (slice_one _ _ _ Hk), Hs by lia.
      by apply (benc_container kind w).
    + destruct (is_digit kind) eqn:Hd; [|done].
      destruct (read_byte_string buf i) as [[s j']| |] eqn:Hr; [|done|done].
      intros [= ->]. apply read_byte_string_sound in Hr as [Hb Hs]. split; [done|].
      rewrite (slice_split i (i + 1)), (slice_one _ _ _ Hk) in Hs |- * by lia.
      by eapply benc_str.
  - destruct (buf !! i) as [b|] eqn:Hb; [|done].
    destruct (decide (b = ch_e)) as [->|].
    { intros [= <-]. apply lookup_lt_Some in Hb as Hlt. split; [lia|].
      exists []. rewrite (slice_one _ _ _ Hb). split; [constructor|done]. }
    destruct (skip_value_f f buf i) as [[j'| |]|] eqn:Hv; [|done..].
    apply IHv in Hv as [Hb1 Hv]. intros (Hb2 & w & Hw & Hs)%IHi. split; [lia|].
    exists (slice i j' buf ++ w). split; [by constructor|].
    rewrite (slice_split i j'), Hs, app_assoc by lia. done.
Qed.

Lemma skip_integer_benign buf i : (i ≤ length buf)%nat → benign (skip_integer buf i).
Proof.
  intros. unfold skip_integer. rewrite slice_r_Ok by lia. red_result.
  by destruct (position _ _).
Qed.

Lemma skip_benign f buf :
  (∀ i r, skip_value_f f buf i = Some r → benign r) ∧
  (∀ i r, skip_items_f f buf i = Some r → benign r).
Proof.
  induction f as [|f [IHv IHi]]; [done|]. split; intros i r; cbn [skip_value_f skip_items_f].
  - destruct (buf !! i) as [kind|] eqn:Hk; [|by intros [= <-]]. apply lookup_lt_Some in Hk.
    repeat case_decide; [|by apply IHi|].
    + intros [= <-]. apply skip_integer_benign. lia.
    + destruct (is_digit kind); [|by intros [= <-]]. intros [= <-].
      pose proof (read_byte_string_benign buf i ltac:(lia)).
      by destruct (read_byte_string buf i) as [[??]| |].
  - destruct (buf !! i) as [b|]; [|by intros [= <-]]. case_decide; [by intros [= <-]|].
    destruct (skip_value_f f buf i) as [r'|] eqn:Hv; [|done]. apply IHv in Hv.
    destruct r'; [by apply IHi|by intros [= <-]..].
Qed.

(** ** Termination: the fuel is enough *)

Lemma skip_fuel_mono f f' buf :
  (f ≤ f')%nat →
  (∀ i r, skip_value_f f buf i = Some r → skip_value_f f' buf i = Some r) ∧
  (∀ i r, skip_items_f f buf i = Some r → skip_items_f f' buf i = Some r).
Proof.
  revert f'. induction f as [|f IH]; intros [|f'] Hle; [done|done|lia|].
  destruct (IH f' ltac:(lia)) as [IHv IHi].
  split; intros i r; cbn [skip_value_f skip_items_f].
  - destruct (buf !! i); [|done]. repeat case_decide; auto.
  - destruct (buf !! i); [|done]. case_decide; [done|].
    destruct (skip_value_f f buf i) as [r'|] eqn:Hv; [|done].
    rewrite (IHv _ _ Hv). destruct r'; auto.
Qed.

Lemma skip_fuel_enough n buf :
  (∀ f i, (length buf - i ≤ n)%nat → (2 * n ≤ f)%nat → (0 < f)%nat →
    is_Some (skip_value_f f buf i)) ∧
  (∀ f i, (length buf - i ≤ n)%nat → (2 * n + 1 ≤ f)%nat →
    is_Some (skip_items_f f buf i)).
Proof.
  induction n as [|n [IHv IHi]]; split.
  - intros [|f] i Hn _ Hf; [lia|]. cbn [skip_value_f].
    rewrite lookup_ge_None_2 by lia. eauto.
  - intros [|f] i Hn Hf; [lia|]. cbn [skip_items_f].
    rewrite lookup_ge_None_2 by lia. eauto.
  - intros [|f] i Hn Hf _; [lia|]. cbn [skip_value_f].
    destruct (buf !! i); [|eauto]. repeat case_decide; [eauto| |case_match; eauto].
    apply IHi; lia.
  - intros [|f] i Hn Hf; [lia|]. cbn [skip_items_f].
    destruct (buf !! i) as [b|] eqn:Hb; [|eauto]. case_decide; [eauto|].
    apply lookup_lt_Some in Hb.
    assert (is_Some (skip_value_f f buf i)) as [r Hr].
    { destruct f as [|f]; [lia|]. cbn [skip_value_f].
      destruct (buf !! i); [|eauto]. repeat case_decide; [eauto| |case_match; eauto].
      apply IHi; lia. }
    rewrite Hr. destruct r as [j| |]; [|eauto..].
    apply (proj1 (skip_sound _ _)) in Hr as [Hj _]. apply IHi; lia.
Qed.

Lemma skip_value_run buf i : ∃ r, skip_value_f (skip_fuel buf i) buf i = Some r.
Proof. apply (skip_fuel_enough (length buf - i)); unfold skip_fuel; lia. Qed.

Lemma skip_value_eq buf i r f :
  skip_value_f f buf i = Some r → skip_value buf i = r.
Proof.
  intros Hf. unfold skip_value. destruct (skip_value_run buf i) as [r' Hr]. rewrite Hr. simpl.
  destruct (Nat.le_ge_cases f (skip_fuel buf i)) as [Hle|Hle].
  - apply (proj1 (skip_fuel_mono _ _ buf Hle)) in Hf. congruence.
  - apply (proj1 (skip_fuel_mono _ _ buf Hle)) in Hr. congruence.
Qed.

Lemma skip_value_Ok buf i j :
  skip_value buf i = Ok j → (i < j ≤ length buf)%nat ∧ benc (slice i j buf).
Proof.
  unfold skip_value. destruct (skip_value_run buf i) as [r Hr]. rewrite Hr. intros Hj. simpl in Hj.
  subst r. by apply (skip_sound (skip_fuel buf i)).
Qed.

Lemma skip_value_benign buf i : benign (skip_value buf i).
Proof.
  unfold skip_value. destruct (skip_value_run buf i) as [r Hr]. rewrite Hr.
  by apply (skip_benign (skip_fuel buf i) buf) in Hr.
Qed.

(** ** The walk accepts every encoding of the grammar *)

Lemma byte_string_head s w : byte_string s w → ∃ c w', w = c :: w' ∧ c ≠ ch_e.
Proof.
  intros [ds _ Hds]. destruct ds as [|d ds]; [done|]. exists d, (ds ++ colon :: s).
  split; [done|]. intros ->. done.
Qed.

Lemma benc_head v : benc v → ∃ c w, v = c :: w ∧ c ≠ ch_e.
Proof.
  intros [body Hb|d w s Hd Hs|c w Hc Hw]; eexists _, _; (split; [done|]).
  - done.
  - by apply digit_ne_e.
  - by destruct Hc as [->| ->].
Qed.

Lemma skip_complete :
  (∀ v, benc v → ∀ pre post, alloc (pre ++ v ++ post) →
    ∃ f, skip_value_f f (pre ++ v ++ post) (length pre) =
      Some (Ok (length pre + length v)%nat)) ∧
  (∀ w, bencs w → ∀ pre post, alloc (pre ++ w ++ ch_e :: post) →
    ∃ f, skip_items_f f (pre ++ w ++ ch_e :: post) (length pre) =
      Some (Ok (length pre + length w + 1)%nat)).
Proof.
  apply benc_mutind.
  - intros body Hb pre post Ha. exists 1%nat. cbn [skip_value_f].
    cbn [app]. rewrite list_lookup_middle by done. rewrite decide_True by done. unfold skip_integer.
    rewrite slice_r_Ok by (rewrite length_app; lia). rewrite slice_tail. red_result.
    rewrite <-app_assoc. cbn [position app].
    rewrite bool_decide_eq_false_2 by done. rewrite position_eq_app by done. red_result.
    do 2 f_equal. cbn [length]. rewrite length_app. cbn [length]. lia.
  - intros d w s Hd Hs pre post Ha. exists 1%nat. cbn [skip_value_f app].
    rewrite list_lookup_middle by done. pose proof (digit_ne_e d Hd) as (?&?&?&?).
    rewrite !decide_False by tauto. rewrite Hd.
    cbn [app] in *. rewrite app_comm_cons in Ha |- *.
    by rewrite (read_byte_string_complete s).
  - intros c w Hc Hw IH pre post Ha.
    destruct (IH (pre ++ [c]) post) as [f Hf].
    { revert Ha. unfold alloc. rewrite !length_app. cbn [length]. rewrite !length_app.
      cbn [length]. lia. }
    exists (S f). cbn [skip_value_f app]. rewrite list_lookup_middle by done.
    rewrite decide_False by (by destruct Hc as [->| ->]). rewrite decide_True by done.
    replace (length pre + 1)%nat with (length (pre ++ [c])) by (rewrite length_app; done).
    replace (pre ++ c :: (w ++ [ch_e]) ++ post) with ((pre ++ [c]) ++ w ++ ch_e :: post)
      by (rewrite <-!app_assoc; done).
    rewrite Hf. do 2 f_equal. rewrite !length_app. cbn [length]. rewrite length_app. cbn [length]. lia.
  - intros pre post Ha. exists 1%nat. cbn [skip_items_f app].
    rewrite list_lookup_middle by done. rewrite decide_True by done. do 2 f_equal. simpl. lia.
  - intros v w Hv IHv Hw IHw pre post Ha. rewrite <-app_assoc in Ha.
    destruct (IHv pre (w ++ ch_e :: post) Ha) as [f1 Hf1].
    destruct (IHw (pre ++ v) post) as [f2 Hf2]; [by rewrite <-app_assoc|].
    rewrite <-app_assoc in Hf2. rewrite length_app in Hf2.
    exists (S (f1 + f2)). cbn [skip_items_f]. rewrite <-app_assoc.
    destruct (benc_head v Hv) as (c & v' & -> & Hc). cbn [app] in *.
    rewrite list_lookup_middle by done. rewrite decide_False by done.
    apply (proj1 (skip_fuel_mono f1 (f1 + f2) _ ltac:(lia))) in Hf1. rewrite Hf1.
    apply (proj2 (skip_fuel_mono f2 (f1 + f2) _ ltac:(lia))) in Hf2. rewrite Hf2.
    do 2 f_equal. cbn [length]. rewrite length_app. lia.
Qed.

Lemma skip_value_complete v pre post :
  benc v → alloc (pre ++ v ++ post) →
  skip_value (pre ++ v ++ post) (length pre) = Ok (length pre + length v)%nat.
Proof.
  intros Hv Ha. destruct (proj1 skip_complete v Hv pre post Ha) as [f Hf].
  by eapply skip_value_eq.
Qed.

(** ** The search for the ["info"] value *)

Lemma drop_slice {A} i j (l : list A) :
  (i ≤ j)%nat → drop i l = slice i j l ++ drop j l.
Proof.
  intros. unfold slice. rewrite <-(take_drop (j - i) (drop i l)) at 1.
  rewrite drop_drop. by replace (i + (j - i))%nat with j by lia.
Qed.

Lemma find_info_sound f buf i v :
  find_info f buf i = Some (Ok v) →
  ∃ pre k post, entries_before_info pre ∧ byte_string (lit "info") k ∧ benc v ∧
    drop i buf = pre ++ k ++ v ++ post.
Proof.
  revert i. induction f as [|f IH]; intros i; cbn [find_info]; [done|].
  destruct (buf !! i) as [b|]; [|done]. case_decide; [done|].
  destruct (read_byte_string buf i) as [[key j]| |] eqn:Hk; [|done..].
  apply read_byte_string_sound in Hk as [Hij Hk].
  destruct (skip_value buf j) as [j'| |] eqn:Hv; [|done..].
  apply skip_value_Ok in Hv as [Hjj Hv].
  case_decide as Hkey; intros H1.
  - injection H1 as H1. inv_result. exists [], (slice i j buf), (drop j' buf).
    split_and!; [constructor|done|done|].
    rewrite (drop_slice i j), (drop_slice j j') by lia. done.
  - apply IH in H1 as (pre & k & post & ? & ? & ? & Hd).
    exists (slice i j buf ++ slice j j' buf ++ pre), k, post.
    split_and!; [by econstructor|done|done|].
    rewrite (drop_slice i j), (drop_slice j j'), Hd by lia. by rewrite <-!app_assoc.
Qed.

Lemma find_info_mono f f' buf i r :
  (f ≤ f')%nat → find_info f buf i = Some r → find_info f' buf i = Some r.
Proof.
  revert f' i. induction f as [|f IH]; intros [|f'] i Hle; [done|done|lia|].
  cbn [find_info]. repeat case_match; try done. apply IH. lia.
Qed.

Lemma find_info_enough f buf i :
  (length buf - i < f)%nat → is_Some (find_info f buf i).
Proof.
  revert i. induction f as [|f IH]; intros i Hf; [lia|]. cbn [find_info].
  destruct (buf !! i) as [b|] eqn:Hb; [|eauto]. case_decide; [eauto|].
  destruct (read_byte_string buf i) as [[key j]| |] eqn:Hk; [|eauto..].
  apply read_byte_string_sound in Hk as [Hij Hk].
  destruct (skip_value buf j) as [j'| |] eqn:Hv; [|eauto..].
  apply skip_value_Ok in Hv as [Hjj Hv].
  case_decide; [eauto|]. apply IH. lia.
Qed.

Lemma find_info_benign f buf i r : find_info f buf i = Some r → benign r.
Proof.
  revert i. induction f as [|f IH]; intros i; cbn [find_info]; [done|].
  destruct (buf !! i) as [b|] eqn:Hb; [|by intros [= <-]].
  apply lookup_lt_Some in Hb. case_decide; [by intros [= <-]|].
  pose proof (read_byte_string_benign buf i ltac:(lia)) as Hr.
  destruct (read_byte_string buf i) as [[key j]| |] eqn:Hk; [|by intros [= <-]..].
  apply read_byte_string_sound in Hk as [Hij Hk].
  pose proof (skip_value_benign buf j) as Hs.
  destruct (skip_value buf j) as [j'| |] eqn:Hv; [|by intros [= <-]..].
  apply skip_value_Ok in Hv as [Hjj Hv].
  case_decide; [|by apply IH]. intros [= <-]. by rewrite slice_r_Ok by lia.
Qed.

Lemma find_info_complete es k v p post :
  entries_before_info es → byte_string (lit "info") k → benc v →
  alloc (p ++ es ++ k ++ v ++ post) →
  ∃ f, find_info f (p ++ es ++ k ++ v ++ post) (length p) = Some (Ok v).
Proof.
  intros Hes Hk Hv. revert p. induction Hes as [|key k' v' w Hk' Hne Hv' Hw IH]; intros p Ha.
  - exists 1%nat. cbn [find_info app] in Ha |- *.
    rewrite (read_byte_string_complete _ _ _ _ Hk Ha). red_result.
    destruct (byte_string_head _ _ Hk) as (c & k0 & -> & Hc).
    rewrite <-app_comm_cons, list_lookup_middle, decide_False by done. rewrite app_comm_cons.
    rewrite (app_assoc p) in Ha |- *. rewrite <-(length_app p) .
    rewrite skip_value_complete by done. rewrite decide_True by done.
    rewrite slice_r_Ok by (rewrite !length_app; lia). by rewrite slice_app_mid.
  - rewrite <-!app_assoc in Ha |- *.
    destruct (IH (p ++ k' ++ v')) as [f Hf]; [by rewrite <-!app_assoc|].
    rewrite <-!app_assoc, !length_app in Hf.
    exists (S f). cbn [find_info].
    rewrite (read_byte_string_complete _ _ _ _ Hk' Ha).
    destruct (byte_string_head _ _ Hk') as (c & k0 & -> & Hc).
    rewrite <-app_comm_cons, list_lookup_middle, decide_False by done. rewrite app_comm_cons.
    rewrite (app_assoc p (c :: k0)) in Ha |- *. rewrite <-(length_app p (c :: k0)).
    rewrite skip_value_complete by done. rewrite decide_False by done.
    rewrite <-app_assoc, length_app, <-Nat.add_assoc. exact Hf.
Qed.

Lemma extract_raw_info_run buf :
  ∃ r, find_info (length buf + 1) buf 1 = Some r.
Proof. apply find_info_enough. lia. Qed.

Lemma extract_raw_info_sound buf v :
  extract_raw_info buf = Ok v →
  ∃ es k post, entries_before_info es ∧ byte_string (lit "info") k ∧ benc v ∧
    buf = ch_d :: es ++ k ++ v ++ post.
Proof.
  unfold extract_raw_info. destruct (extract_raw_info_run buf) as [r Hr]. rewrite Hr. simpl.
  case_decide as Hh; [|done]. intros ->. destruct buf as [|b buf]; [done|].
  injection Hh as ->. apply find_info_sound in Hr as (es & k & post & ? & ? & ? & Hd).
  simpl in Hd. rewrite drop_0 in Hd. subst buf. eauto 10.
Qed.

Lemma extract_raw_info_complete es k v post :
  entries_before_info es → byte_string (lit "info") k → benc v →
  alloc (ch_d :: es ++ k ++ v ++ post) →
  extract_raw_info (ch_d :: es ++ k ++ v ++ post) = Ok v.
Proof.
  intros Hes Hk Hv Ha. unfold extract_raw_info. rewrite decide_True by done.
  destruct (find_info_complete es k v [ch_d] post Hes Hk Hv Ha) as [f Hf]. cbn [app] in Hf.
  destruct (extract_raw_info_run (ch_d :: es ++ k ++ v ++ post)) as [r Hr]. rewrite Hr. simpl.
  destruct (Nat.le_ge_cases f (length (ch_d :: es ++ k ++ v ++ post) + 1)) as [Hle|Hle].
  - apply (find_info_mono _ _ _ _ _ Hle) in Hf. simpl in *. congruence.
  - apply (find_info_mono _ _ _ _ _ Hle) in Hr. simpl in *. congruence.
Qed.

(** C14: the bytes hashed for the info hash are exactly those of the first
    top-level ["info"] value: on any in-memory buffer the walk succeeds with
    [v] if and only if the buffer is a dictionary whose entries before ["info"]
    are well-formed and whose ["info"] entry is encoded by [v]. *)
Theorem extract_raw_info_spec buf v :
  alloc buf →
  extract_raw_info buf = Ok v ↔
  ∃ es k post, entries_before_info es ∧ byte_string (lit "info") k ∧ benc v ∧
    buf = ch_d :: es ++ k ++ v ++ post.
Proof.
  intros Ha. split; [apply extract_raw_info_sound|].
  intros (es & k & post & Hes & Hk & Hv & ->). by apply extract_raw_info_complete.
Qed.

Lemma extract_raw_info_benign buf : benign (extract_raw_info buf).
Proof.
  unfold extract_raw_info. case_decide; [|done].
  destruct (extract_raw_info_run buf) as [r Hr]. rewrite Hr. simpl.
  by eapply find_info_benign.
Qed.

(** on every input, hostile ones included, [skip_value] and the search
    return: a result or the parser's [MalformedTorrent] error; they never index
    or slice out of bounds, and twice the remaining length is fuel enough for
    every nesting of lists and dictionaries. *)
Theorem bencode_walk_total buf i :
  benign (extract_raw_info buf) ∧ benign (skip_value buf i) ∧
  is_Some (skip_value_f (2 * (length buf - i) + 2) buf i).
Proof.
  split_and!; [apply extract_raw_info_benign|apply skip_value_benign|].
  destruct (skip_value_run buf i) as [r Hr]. exists r. exact Hr.
Qed.

(** A dictionary with one entry before ["info"]: the witness of the first
    theorem below. *)
Definition sample_torrent : list byte := lit "d1:ai1e4:infod1:xl0:ee1:zi2ee".

Lemma extract_raw_info_spec_witness :
  alloc sample_torrent ∧ extract_raw_info sample_torrent = Ok (lit "d1:xl0:ee") ∧
  ∃ es k post, entries_before_info es ∧ byte_string (lit "info") k ∧
    benc (lit "d1:xl0:ee") ∧ sample_torrent = ch_d :: es ++ k ++ lit "d1:xl0:ee" ++ post.
Proof.
  split; [vm_compute; reflexivity|]. split; [vm_compute; reflexivity|].
  apply (extract_raw_info_spec sample_torrent); vm_compute; reflexivity.
Defined.

End Bencode.
