(* ===== verification/Metainfos.v ===== *)
(** * Torrent metadata ([src/metainfo.rs])

    The typed view of a [.torrent]: [FileEntry], [Info], [Metainfo], their
    methods, and the resolution of on-disk paths. The SHA-1 function (crate
    [sha1]) and the serde decoder and encoder (crate [serde_bencode]) are not
    part of the repository: they are parameters. *)

From S2P Require Export Paths.
From S2P Require Export Bencode.

(** ** The digest

    [Sha1::digest]: the crate promises a 20-byte output. *)

Definition SHA1_LEN : nat := 20.

Class Sha1 := {
  sha1 : list byte → list byte;
  sha1_length bs : length (sha1 bs) = SHA1_LEN;
}.

Module InfoHash.
Record t : Type := mk { as_bytes : list byte }.

#[global] Instance t_eq_dec : EqDecision t.
Proof. solve_decision. Defined.

Definition wf (h : t) : Prop := length (as_bytes h) = SHA1_LEN.

(** [{byte:02x}]: two lower-case hex digits per byte. *)
Definition hex_digit (n : Z) : byte := z2b (if n <? 10 then 48 + n else 87 + n).

Definition to_string (h : t) : str :=
  concat ((λ b, [hex_digit (b2z b `div` 16); hex_digit (b2z b `mod` 16)]) <$> as_bytes h).
End InfoHash.

(** ** Data *)

Module FileEntry.
Record t : Type := mk {
  length : Z;
  path : list str;
  md5sum : option str;
}.

#[global] Instance t_eq_dec : EqDecision t.
Proof. solve_decision. Defined.
End FileEntry.

Inductive FileLayout : Type :=
  | Single (length : Z)
  | Multi (files : list FileEntry.t).

#[export] Instance FileLayout_eq_dec : EqDecision FileLayout.
Proof. solve_decision. Defined.

Module Info.
Record t : Type := mk {
  name : str;
  piece_length : Z;
  pieces : list byte;
  length : option Z;
  files : option (list FileEntry.t);
  private : option Z;
}.

#[global] Instance t_eq_dec : EqDecision t.
Proof. solve_decision. Defined.

(** The field types: [u64] lengths, an in-memory [pieces] vector. *)
Definition wf (i : t) : Prop :=
  in_word 64 (piece_length i) ∧ Bencode.alloc (pieces i) ∧
  (∀ l, length i = Some l → in_word 64 l) ∧
  (∀ fs, files i = Some fs → Forall (λ f, in_word 64 (FileEntry.length f)) fs).

Definition num_pieces (i : t) : nat := (Datatypes.length (pieces i) / SHA1_LEN)%nat.

Definition piece_hashes (i : t) : result (list (list byte)) :=
  if negb (Datatypes.length (pieces i) `mod` SHA1_LEN =? 0)%nat
  then Err (InvalidPiecesLength (Z.of_nat (Datatypes.length (pieces i))))
  else Ok (chunks_exact SHA1_LEN (pieces i)).

Definition layout (i : t) : result FileLayout :=
  match length i, files i with
  | Some l, None => Ok (Single l)
  | None, Some fs => Ok (Multi fs)
  | _, _ => Err InvalidFileLayout
  end.

(** [files.iter().map(|f| f.length).sum()] on [u64]. *)
Definition sum_lengths (fs : list FileEntry.t) : result Z :=
  fold_result (λ acc f, add_w 64 acc (FileEntry.length f)) 0 fs.

Definition total_length (i : t) : result Z :=
  l ← layout i;
  match l with
  | Single n => Ok n
  | Multi fs => sum_lengths fs
  end.
End Info.

Module Metainfo.
Record t : Type := mk {
  announce : option str;
  announce_list : option (list (list str));
  info : Info.t;
  comment : option str;
  created_by : option str;
  creation_date : option Z;
  encoding : option str;
  raw_info_hash : option InfoHash.t;
}.

#[global] Instance t_eq_dec : EqDecision t.
Proof. solve_decision. Defined.

Definition set_raw_info_hash (m : t) (h : InfoHash.t) : t :=
  {| announce := announce m; announce_list := announce_list m; info := info m;
     comment := comment m; created_by := created_by m; creation_date := creation_date m;
     encoding := encoding m; raw_info_hash := Some h |}.

(** The closure [push] of [all_trackers], over the [seen] set and [out]. *)
Definition push_tracker (st : gset str * list str) (url : str) : gset str * list str :=
  push_new st url.

Definition all_trackers (m : t) : list str :=
  let st0 : gset str * list str := (∅, []) in
  let st1 := match announce m with Some a => push_tracker st0 a | None => st0 end in
  let st2 := match announce_list m with
             | Some tiers => foldl (foldl push_tracker) st1 tiers
             | None => st1
             end in
  st2.2.
End Metainfo.

(** ** Path resolution *)

Definition contains (c : byte) (s : str) : bool := bool_decide (c ∈ s).

Definition validate_path_component (component : str) : result () :=
  if bool_decide (component = [])
     || bool_decide (component = lit ".")
     || bool_decide (component = lit "..")
     || contains slash component
     || contains backslash component
     || contains nul component
  then Err MalformedTorrent
  else Ok ().

(** One iteration of the path loop: validate, then push. *)
Definition push_component (p : str) (component : str) : result str :=
  _ ← validate_path_component component;
  Ok (Path.push p component).

Definition file_path (root : str) (f : FileEntry.t) : result (str * Z) :=
  p ← fold_result push_component root (FileEntry.path f);
  Ok (p, FileEntry.length f).

Definition file_paths (m : Metainfo.t) (base : str) : result (list (str * Z)) :=
  _ ← validate_path_component (Info.name (Metainfo.info m));
  l ← Info.layout (Metainfo.info m);
  match l with
  | Single n => Ok [(Path.join base (Info.name (Metainfo.info m)), n)]
  | Multi files =>
      let root := Path.join base (Info.name (Metainfo.info m)) in
      map_result (file_path root) files
  end.

(** ** Parsing and the info hash *)

Section parsing.
Context `{Sha1}.
(** [serde_bencode::from_bytes] (the skipped field comes back [None]) and
    [serde_bencode::to_bytes]. *)
Context (decode_metainfo : list byte → option Metainfo.t).
Context (encode_info : Info.t → option (list byte)).

Definition raw_info_hash (buf : list byte) : result InfoHash.t :=
  info ← Bencode.extract_raw_info buf;
  out ← copy_from_slice 0 SHA1_LEN (sha1 info) (replicate SHA1_LEN Byte.x00);
  Ok (InfoHash.mk out).

Definition from_bytes (bs : list byte) : result Metainfo.t :=
  meta ← ok_or BencodeDecode (decode_metainfo bs);
  h ← raw_info_hash bs;
  Ok (Metainfo.set_raw_info_hash meta h).

Definition info_info_hash (i : Info.t) : result InfoHash.t :=
  encoded ← ok_or BencodeDecode (encode_info i);
  out ← copy_from_slice 0 SHA1_LEN (sha1 encoded) (replicate SHA1_LEN Byte.x00);
  Ok (InfoHash.mk out).

Definition info_hash (m : Metainfo.t) : result InfoHash.t :=
  match Metainfo.raw_info_hash m with
  | Some h => Ok h
  | None => info_info_hash (Metainfo.info m)
  end.
End parsing.

(** ** Specifications *)

(** What [validate_path_component] lets through. *)
Definition safe_name (s : str) : Prop := Path.plain s ∧ (backslash ∉ s) ∧ (nul ∉ s).

#[export] Instance safe_name_dec s : Decision (safe_name s).
Proof. unfold safe_name. apply _. Defined.

(** Every announce URL, primary first, then tier by tier. *)
Definition announced (m : Metainfo.t) : list str :=
  from_option (λ a, [a]) [] (Metainfo.announce m) ++ (concat (default [] (Metainfo.announce_list m))).

(** The names of the file entry under [base/<name>]. *)
Definition entry_names (m : Metainfo.t) (f : FileEntry.t) : list str :=
  Info.name (Metainfo.info m) :: FileEntry.path f.

(** The sum of the file lengths, as a number. *)
Definition sum_of_lengths (fs : list FileEntry.t) : Z :=
  foldr (λ f acc, FileEntry.length f + acc) 0 fs.

(** ** Path components *)

Lemma validate_path_component_spec s :
  validate_path_component s = (if decide (safe_name s) then Ok () else Err MalformedTorrent).
Proof.
  unfold validate_path_component, contains, safe_name, Path.plain.
  repeat match goal with |- context [bool_decide ?P] => destruct (bool_decide_reflect P) end;
    cbn [orb]; case_decide; naive_solver.
Qed.

Lemma validate_path_component_Ok s :
  validate_path_component s = Ok () ↔ safe_name s.
Proof. rewrite validate_path_component_spec. by case_decide. Qed.

Lemma push_component_spec p s :
  push_component p s = (if decide (safe_name s) then Ok (Path.push p s)
                        else Err MalformedTorrent).
Proof. unfold push_component. rewrite validate_path_component_spec. by case_decide. Qed.

Lemma push_components_Ok root ss p :
  fold_result push_component root ss = Ok p ↔
  Forall safe_name ss ∧ p = foldl Path.push root ss.
Proof.
  revert root. induction ss as [|s ss IH]; intros root; cbn [fold_result foldl].
  { naive_solver. }
  rewrite push_component_spec, Forall_cons. case_decide as Hs; red_result.
  - rewrite IH. naive_solver.
  - naive_solver.
Qed.

Lemma push_components_Err root ss :
  fold_result push_component root ss =
  (if decide (Forall safe_name ss) then Ok (foldl Path.push root ss)
   else Err MalformedTorrent).
Proof.
  revert root. induction ss as [|s ss IH]; intros root; cbn [fold_result foldl].
  { by rewrite decide_True by constructor. }
  rewrite push_component_spec. destruct (decide (safe_name s)); red_result.
  - rewrite IH. apply decide_ext. rewrite Forall_cons. tauto.
  - rewrite decide_False; [done|]. by intros [? _]%Forall_cons.
Qed.

Lemma file_path_Ok root f q :
  file_path root f = Ok q ↔
  Forall safe_name (FileEntry.path f) ∧
  q = (foldl Path.push root (FileEntry.path f), FileEntry.length f).
Proof.
  unfold file_path. rewrite bind_Ok_inv. setoid_rewrite push_components_Ok. naive_solver.
Qed.

(** Pushing validated names below the base directory. *)
Lemma components_file_path base ss :
  Forall safe_name ss →
  Path.components (foldl Path.push base ss) = Path.components base ++ (Path.Normal <$> ss).
Proof.
  intros Hs. apply Path.components_push_all. eapply Forall_impl; [exact Hs|].
  by intros s [? _].
Qed.

(** ** Numbers *)

Lemma sum_of_lengths_nonneg fs :
  Forall (λ f, in_word 64 (FileEntry.length f)) fs → 0 ≤ sum_of_lengths fs.
Proof. induction 1 as [|f fs [? _] _ IH]; simpl; lia. Qed.

Lemma sum_lengths_from acc fs :
  0 ≤ acc → Forall (λ f, in_word 64 (FileEntry.length f)) fs →
  fold_result (λ acc f, add_w 64 acc (FileEntry.length f)) acc fs =
  (if decide (fs = [] ∨ acc + sum_of_lengths fs < 2 ^ 64)
   then Ok (acc + sum_of_lengths fs) else Panic).
Proof.
  intros Hacc Hfs. revert acc Hacc.
  induction Hfs as [|f fs [Hf1 Hf2] Hfs IH]; intros acc Hacc;
    cbn [fold_result sum_of_lengths foldr].
  { rewrite decide_True by auto. by rewrite Z.add_0_r. }
  pose proof (sum_of_lengths_nonneg fs Hfs) as Hnn. unfold sum_of_lengths in Hnn.
  unfold add_w, checked_add.
  destruct (Z.ltb_spec (acc + FileEntry.length f) (2 ^ 64)); red_result.
  - rewrite IH by lia. unfold sum_of_lengths.
    do 2 case_decide; [f_equal; lia| | |done].
    + destruct fs; simpl in *; naive_solver lia.
    + naive_solver lia.
  - rewrite decide_False; [done|]. naive_solver lia.
Qed.

Lemma sum_lengths_spec fs :
  Forall (λ f, in_word 64 (FileEntry.length f)) fs →
  Info.sum_lengths fs = (if decide (sum_of_lengths fs < 2 ^ 64)
                         then Ok (sum_of_lengths fs) else Panic).
Proof.
  intros Hfs. unfold Info.sum_lengths. rewrite sum_lengths_from by done.
  rewrite Z.add_0_l. destruct fs as [|f fs]; [done|].
  do 2 case_decide; naive_solver.
Qed.

(** ** Trackers *)

Lemma foldl_concat {A B} (f : A → B → A) a ls :
  foldl (foldl f) a ls = foldl f a (concat ls).
Proof.
  revert a. induction ls as [|l ls IH]; intros a; simpl; [done|]. by rewrite foldl_app, IH.
Qed.

(** Every resolved path is the base and plain names. *)
Lemma file_paths_under m base ps p n :
  file_paths m base = Ok ps → (p, n) ∈ ps →
  ∃ names, names ≠ [] ∧ Forall safe_name names ∧ head names = Some (Info.name (Metainfo.info m)) ∧
    Path.components p = Path.components base ++ (Path.Normal <$> names).
Proof.
  unfold file_paths. intros H Hin. inv_result.
  match goal with H : validate_path_component _ = Ok ?u |- _ =>
    destruct u; apply validate_path_component_Ok in H as Hname end.
  match goal with H : match ?l with _ => _ end = Ok ps |- _ => destruct l as [len|files] end.
  - inv_result. apply list_elem_of_singleton in Hin as [= -> ->].
    exists [Info.name (Metainfo.info m)]. split_and!; [done|by constructor|done|].
    by apply (components_file_path base [_]); constructor.
  - match goal with H : map_result _ _ = Ok ps |- _ => apply map_result_Ok_inv in H as Hf end.
    apply list_elem_of_lookup in Hin as [i Hi].
    apply (Forall2_lookup_r _ _ _ _ _ Hf) in Hi as (f & Hfi & Hpath).
    apply file_path_Ok in Hpath as [Hsafe [= -> ->]].
    exists (entry_names m f). split_and!; [done|by constructor|done|].
    by apply (components_file_path base (entry_names m f)); constructor.
Qed.

(** ** Properties *)

(** C9: no [.torrent] escapes the download directory. Every path that
    [file_paths] hands to the disk layer has the components of the base
    directory followed by one plain [Normal] component per name (the torrent
    name, then the entry's path list): no [".."], no root, no separator, NUL or
    backslash inside a name. *)
Theorem file_paths_confined m base ps p n :
  file_paths m base = Ok ps → (p, n) ∈ ps →
  ∃ names, names ≠ [] ∧ Forall safe_name names ∧ head names = Some (Info.name (Metainfo.info m)) ∧
    Path.components p = Path.components base ++ (Path.Normal <$> names).
Proof. apply file_paths_under. Qed.

(** [file_paths] on every branch. It succeeds exactly on a valid layout all
    of whose names are safe, with one path and length per file in order;
    a bad layout is [InvalidFileLayout] and any unsafe name is
    [MalformedTorrent]. *)
Theorem file_paths_branches m base :
  let i := Metainfo.info m in
  let root := Path.join base (Info.name i) in
  file_paths m base =
    if decide (safe_name (Info.name i)) then
      match Info.length i, Info.files i with
      | Some n, None => Ok [(root, n)]
      | None, Some fs =>
          if decide (Forall (λ f, Forall safe_name (FileEntry.path f)) fs)
          then Ok ((λ f, (foldl Path.push root (FileEntry.path f), FileEntry.length f)) <$> fs)
          else Err MalformedTorrent
      | _, _ => Err InvalidFileLayout
      end
    else Err MalformedTorrent.
Proof.
  cbv zeta. unfold file_paths. rewrite validate_path_component_spec.
  case_decide; [|done]. red_result. unfold Info.layout.
  destruct (Info.length _) as [n|], (Info.files _) as [fs|]; try done. red_result.
  generalize (Path.join base (Info.name (Metainfo.info m))). intros root.
  induction fs as [|f fs IH]; cbn [map_result fmap list_fmap].
  { by rewrite decide_True by constructor. }
  rewrite IH. unfold file_path at 1. rewrite push_components_Err.
  destruct (decide (Forall safe_name (FileEntry.path f))); red_result.
  - destruct (decide (Forall _ fs)); red_result.
    + by rewrite decide_True by by constructor.
    + rewrite decide_False; [done|]. by intros [_ ?]%Forall_cons.
  - rewrite decide_False; [done|]. by intros [? _]%Forall_cons.
Qed.

(** [all_trackers] (one pass with a [HashSet]) is the quadratic reference:
    every announced URL once, in the order of first appearance. *)
Theorem all_trackers_first_occurrences m :
  Metainfo.all_trackers m = first_occurrences (announced m).
Proof.
  unfold Metainfo.all_trackers, announced.
  pose proof (push_new_fold (announced m)) as Hf. unfold announced in Hf.
  change (@push_new str _ _) with Metainfo.push_tracker in Hf.
  rewrite foldl_app in Hf.
  destruct (Metainfo.announce m) as [a|], (Metainfo.announce_list m) as [ts|];
    cbn [from_option id foldl concat] in *; rewrite ?foldl_concat; by rewrite Hf.
Qed.

(** [piece_hashes] succeeds exactly on a multiple of 20 bytes; then there
    are [num_pieces] hashes, each the 20 bytes at its own offset, and they
    concatenate back to the [pieces] field. *)
Theorem piece_hashes_spec i :
  Info.piece_hashes i =
    (if decide (length (Info.pieces i) `mod` 20 = 0)%nat
     then Ok (chunks_exact 20 (Info.pieces i))
     else Err (InvalidPiecesLength (Z.of_nat (length (Info.pieces i))))) ∧
  (∀ hs, Info.piece_hashes i = Ok hs →
     length hs = Info.num_pieces i ∧ Forall (λ h, length h = SHA1_LEN) hs ∧
     concat hs = Info.pieces i ∧
     ∀ k, (k < length hs)%nat → hs !! k = Some (slice (k * 20) ((k + 1) * 20) (Info.pieces i))).
Proof.
  unfold Info.piece_hashes, Info.num_pieces, SHA1_LEN.
  destruct (Nat.eqb_spec (length (Info.pieces i) `mod` 20) 0) as [Hm|Hm]; simpl.
  - rewrite decide_True by done. split; [done|]. intros hs [= <-]. split_and!.
    + apply chunks_exact_length. lia.
    + apply chunks_exact_Forall_length. lia.
    + apply chunks_exact_concat; [lia|done].
    + intros k Hk. rewrite chunks_exact_length in Hk by lia.
      rewrite chunks_exact_lookup by lia. rewrite decide_True; [done|].
      pose proof (Nat.div_mod (length (Info.pieces i)) 20 ltac:(lia)). nia.
  - by rewrite decide_False.
Qed.

(** [total_length] on every branch: the single length, the exact sum of a
    multi-file table when it fits in 64 bits, [InvalidFileLayout] when both or
    neither of [length] and [files] are present; a table whose lengths sum past
    [u64::MAX] overflows the unchecked [sum()]. *)
Theorem total_length_branches i :
  Info.wf i →
  Info.total_length i =
    match Info.length i, Info.files i with
    | Some n, None => Ok n
    | None, Some fs =>
        if decide (sum_of_lengths fs < 2 ^ 64) then Ok (sum_of_lengths fs) else Panic
    | _, _ => Err InvalidFileLayout
    end.
Proof.
  intros (_ & _ & _ & Hfs). unfold Info.total_length, Info.layout.
  destruct (Info.length i), (Info.files i) as [fs|]; try done.
  red_result. apply sum_lengths_spec. by apply Hfs.
Qed.

Section parsing_laws.
Context `{Sha1}.
Context (decode_metainfo : list byte → option Metainfo.t).
Context (encode_info : Info.t → option (list byte)).

Lemma raw_info_hash_spec buf :
  raw_info_hash buf = (λ v, InfoHash.mk (sha1 v)) <$> Bencode.extract_raw_info buf.
Proof.
  unfold raw_info_hash. destruct (Bencode.extract_raw_info buf) as [v| |]; [|done..]. red_result.
  unfold copy_from_slice. rewrite decide_True.
  - unfold splice. rewrite take_0, drop_ge; [by rewrite app_nil_r|].
    rewrite length_replicate, sha1_length. lia.
  - rewrite length_replicate, sha1_length. lia.
Qed.

(** the info hash of a parsed torrent is the SHA-1 of the original bytes
    of its ["info"] value, whatever the typed decoder keeps or drops, and
    parsing fails only with the decoder's error or [MalformedTorrent]. *)
Theorem from_bytes_info_hash bs :
  match from_bytes decode_metainfo bs with
  | Ok m =>
      ∃ es k v post,
        bs = Bencode.ch_d :: es ++ k ++ v ++ post ∧
        Bencode.entries_before_info es ∧ Bencode.byte_string (lit "info") k ∧
        Bencode.benc v ∧ info_hash encode_info m = Ok (InfoHash.mk (sha1 v))
  | Err e => e = BencodeDecode ∧ decode_metainfo bs = None ∨ e = MalformedTorrent
  | Panic => False
  end.
Proof.
  unfold from_bytes. destruct (decode_metainfo bs) as [m|]; red_result; [|by left].
  rewrite raw_info_hash_spec.
  pose proof (Bencode.extract_raw_info_benign bs) as Hb.
  destruct (Bencode.extract_raw_info bs) as [v|e|] eqn:Hv; red_result; [|by right|done].
  apply Bencode.extract_raw_info_sound in Hv as (es & k & post & ? & ? & ? & ->).
  exists es, k, v, post. done.
Qed.
End parsing_laws.

Lemma hex_digit_inj a b :
  0 ≤ a < 16 → 0 ≤ b < 16 → InfoHash.hex_digit a = InfoHash.hex_digit b → a = b.
Proof.
  intros Ha Hb Heq. apply (f_equal b2z) in Heq. unfold InfoHash.hex_digit in Heq.
  rewrite !b2z_z2b in Heq.
  destruct (Z.ltb_spec a 10), (Z.ltb_spec b 10); rewrite !Z.mod_small in Heq by lia; lia.
Qed.

(** the hex form of an info hash, the registry's torrent id, is 40
    characters long and determines the hash: distinct hashes never share an id. *)
Theorem info_hash_hex h1 h2 :
  InfoHash.wf h1 → InfoHash.wf h2 →
  length (InfoHash.to_string h1) = 40%nat ∧
  (InfoHash.to_string h1 = InfoHash.to_string h2 → h1 = h2).
Proof.
  unfold InfoHash.wf, InfoHash.to_string, SHA1_LEN. destruct h1 as [b1], h2 as [b2]. simpl.
  intros H1 H2. split.
  - change 40%nat with (2 * 20)%nat. rewrite <-H1. clear. induction b1 as [|x b1 IH]; [done|].
    cbn [fmap list_fmap concat app length] in *. lia.
  - intros Heq. f_equal. assert (length b1 = length b2) as Hlen by congruence. clear H1 H2.
    revert b2 Hlen Heq. induction b1 as [|x b1 IH]; intros [|y b2] Hlen Heq; try done.
    simpl in Heq. injection Heq as Hhi Hlo Heq.
    pose proof (b2z_range x). pose proof (b2z_range y).
    pose proof (Z.div_mod (b2z x) 16). pose proof (Z.div_mod (b2z y) 16).
    apply hex_digit_inj in Hhi; [|split; [apply Z.div_pos|apply Z.div_lt_upper_bound]; lia..].
    apply hex_digit_inj in Hlo; [|apply Z.mod_pos_bound; lia..].
    f_equal; [apply b2z_inj; lia|]. apply IH; [by simpl in Hlen; lia|done].
Qed.

(** ** Witnesses *)

Definition sample_info : Info.t :=
  {| Info.name := lit "dir"; Info.piece_length := 16; Info.pieces := replicate 20 nul;
     Info.length := None;
     Info.files := Some [FileEntry.mk 10 [lit "sub"; lit "a"] None; FileEntry.mk 20 [lit "b"] None];
     Info.private := None |}.

Definition sample_metainfo : Metainfo.t :=
  {| Metainfo.announce := None; Metainfo.announce_list := None; Metainfo.info := sample_info;
     Metainfo.comment := None; Metainfo.created_by := None; Metainfo.creation_date := None;
     Metainfo.encoding := None; Metainfo.raw_info_hash := None |}.

Lemma file_paths_confined_witness :
  file_paths sample_metainfo (lit "/dl") = Ok [(lit "/dl/dir/sub/a", 10); (lit "/dl/dir/b", 20)] ∧
  ∃ names, names ≠ [] ∧ Forall safe_name names ∧ head names = Some (lit "dir") ∧
    Path.components (lit "/dl/dir/sub/a") =
      Path.components (lit "/dl") ++ (Path.Normal <$> names).
Proof.
  split; [vm_compute; reflexivity|].
  apply (file_paths_confined sample_metainfo (lit "/dl")
           [(lit "/dl/dir/sub/a", 10); (lit "/dl/dir/b", 20)] (lit "/dl/dir/sub/a") 10).
  - vm_compute. reflexivity.
  - left.
Defined.

Lemma total_length_branches_witness :
  Info.wf sample_info ∧ Info.total_length sample_info = Ok 30.
Proof.
  assert (Info.wf sample_info) as Hwf.
  { split_and!; [split; vm_compute; congruence|vm_compute; reflexivity|done|].
    intros fs [= <-]. repeat constructor; vm_compute; congruence. }
  split; [exact Hwf|]. rewrite (total_length_branches sample_info Hwf). reflexivity.
Defined.

Lemma info_hash_hex_witness :
  length (InfoHash.to_string (InfoHash.mk (replicate 20 Byte.xab))) = 40%nat.
Proof.
  apply (info_hash_hex (InfoHash.mk (replicate 20 Byte.xab)) (InfoHash.mk (replicate 20 nul)));
    vm_compute; reflexivity.
Defined.
