(* ===== verification/ByteBufs.v ===== *)
(** * The growable byte buffer of the [bytes] crate

    [BytesMut], [Bytes], [Buf] and [BufMut] belong to a crate that is not part
    of the repository. [ByteBuf] is the interface the codec uses: a view of the
    unread bytes, the methods called, and what the crate documents about them
    (network byte order; [advance], [split_to] and the getters panic past the
    end). A frozen [Bytes] is its contents. *)

From S2P Require Export Errors.

Class ByteBuf (B : Type) := {
  contents : B → list byte;
  put_u8 : B → Z → B;
  put_u16 : B → Z → B;
  put_u32 : B → Z → B;
  put_slice : B → list byte → B;
  reserve : B → Z → B;
  advance : B → nat → result B;
  split_to : B → nat → result (B * B);
  get_u16 : B → result (Z * B);
  get_u32 : B → result (Z * B);
  contents_put_u8 b z : contents (put_u8 b z) = contents b ++ be_encode 1 z;
  contents_put_u16 b z : contents (put_u16 b z) = contents b ++ be_encode 2 z;
  contents_put_u32 b z : contents (put_u32 b z) = contents b ++ be_encode 4 z;
  contents_put_slice b s : contents (put_slice b s) = contents b ++ s;
  contents_reserve b n : contents (reserve b n) = contents b;
  advance_spec b n :
    match advance b n with
    | Ok b' => (n ≤ length (contents b))%nat ∧ contents b' = drop n (contents b)
    | Err _ => False
    | Panic => (length (contents b) < n)%nat
    end;
  split_to_spec b n :
    match split_to b n with
    | Ok (h, t) => (n ≤ length (contents b))%nat ∧
                   contents h = take n (contents b) ∧ contents t = drop n (contents b)
    | Err _ => False
    | Panic => (length (contents b) < n)%nat
    end;
  get_u16_spec b :
    match get_u16 b with
    | Ok (z, b') => (2 ≤ length (contents b))%nat ∧
                    z = be_decode (take 2 (contents b)) ∧ contents b' = drop 2 (contents b)
    | Err _ => False
    | Panic => (length (contents b) < 2)%nat
    end;
  get_u32_spec b :
    match get_u32 b with
    | Ok (z, b') => (4 ≤ length (contents b))%nat ∧
                    z = be_decode (take 4 (contents b)) ∧ contents b' = drop 4 (contents b)
    | Err _ => False
    | Panic => (length (contents b) < 4)%nat
    end;
}.

Section laws.
Context {B : Type} `{ByteBuf B}.
Implicit Types b : B.

Lemma advance_Ok b n :
  (n ≤ length (contents b))%nat → ∃ b', advance b n = Ok b' ∧ contents b' = drop n (contents b).
Proof.
  intros. pose proof (advance_spec b n) as Hs.
  destruct (advance b n); [destruct Hs; eauto|done|lia].
Qed.

Lemma split_to_Ok b n :
  (n ≤ length (contents b))%nat →
  ∃ h t, split_to b n = Ok (h, t) ∧ contents h = take n (contents b) ∧
         contents t = drop n (contents b).
Proof.
  intros. pose proof (split_to_spec b n) as Hs.
  destruct (split_to b n) as [[h t]| |]; [destruct Hs; eauto|done|lia].
Qed.

Lemma get_u16_Ok b :
  (2 ≤ length (contents b))%nat →
  ∃ b', get_u16 b = Ok (be_decode (take 2 (contents b)), b') ∧ contents b' = drop 2 (contents b).
Proof.
  intros. pose proof (get_u16_spec b) as Hs.
  destruct (get_u16 b) as [[z t]| |]; [destruct Hs as (_ & -> & ?); eauto|done|lia].
Qed.

Lemma get_u32_Ok b :
  (4 ≤ length (contents b))%nat →
  ∃ b', get_u32 b = Ok (be_decode (take 4 (contents b)), b') ∧ contents b' = drop 4 (contents b).
Proof.
  intros. pose proof (get_u32_spec b) as Hs.
  destruct (get_u32 b) as [[z t]| |]; [destruct Hs as (_ & -> & ?); eauto|done|lia].
Qed.
End laws.

#[export] Hint Rewrite @contents_put_u8 @contents_put_u16 @contents_put_u32
  @contents_put_slice @contents_reserve : wire.

(** ** The interface is inhabited: a plain byte list *)

Definition getter (n : nat) (b : list byte) : result (Z * list byte) :=
  if decide (n ≤ length b)%nat then Ok (be_decode (take n b), drop n b) else Panic.

#[export] Program Instance list_ByteBuf : ByteBuf (list byte) := {|
  contents b := b;
  put_u8 b z := b ++ be_encode 1 z;
  put_u16 b z := b ++ be_encode 2 z;
  put_u32 b z := b ++ be_encode 4 z;
  put_slice b s := b ++ s;
  reserve b n := b;
  advance b n := if decide (n ≤ length b)%nat then Ok (drop n b) else Panic;
  split_to b n := if decide (n ≤ length b)%nat then Ok (take n b, drop n b) else Panic;
  get_u16 := getter 2;
  get_u32 := getter 4;
|}.
Solve All Obligations with
  (intros; unfold getter; simpl; repeat case_decide; auto with lia).
