(* ===== verification/Messages.v ===== *)
(** * Peer wire messages and their framing ([src/peer/message.rs])

    [Message] and the stateless [PeerCodec]: [decode] takes one frame off the
    read buffer, [encode] appends one to the write buffer. [frame] is the wire
    format as a specification; the theorems show that [encode] writes it, that
    [decode] inverts it and accepts nothing else, and that decoding is total,
    bounded and independent of how the stream is chunked. *)

From S2P Require Export ByteBufs.

(** ** Data *)

Module id.
Definition CHOKE : Z := 0.
Definition UNCHOKE : Z := 1.
Definition INTERESTED : Z := 2.
Definition NOT_INTERESTED : Z := 3.
Definition HAVE : Z := 4.
Definition BITFIELD : Z := 5.
Definition REQUEST : Z := 6.
Definition PIECE : Z := 7.
Definition CANCEL : Z := 8.
Definition PORT : Z := 9.
End id.

Definition MAX_MESSAGE_LEN : Z := Z.shiftl 1 20.

Module BlockInfo.
Record t : Type := mk { index : Z; begin : Z; length : Z }.

#[global] Instance t_eq_dec : EqDecision t.
Proof. solve_decision. Defined.

Definition wf (b : t) : Prop := in_word 32 (index b) ∧ in_word 32 (begin b) ∧ in_word 32 (length b).
End BlockInfo.

Module Block.
Record t : Type := mk { index : Z; begin : Z; data : list byte }.

#[global] Instance t_eq_dec : EqDecision t.
Proof. solve_decision. Defined.
End Block.

Inductive Message : Type :=
  | KeepAlive
  | Choke
  | Unchoke
  | Interested
  | NotInterested
  | Have (index : Z)
  | Bitfield (bits : list byte)
  | Request (b : BlockInfo.t)
  | Piece (b : Block.t)
  | Cancel (b : BlockInfo.t)
  | Port (port : Z).

#[export] Instance Message_eq_dec : EqDecision Message.
Proof. solve_decision. Defined.

(** ** The codec *)

Module PeerCodec.
Section codec.
Context {B : Type} `{ByteBuf B}.

(** [expect_empty], [expect_len], [expect_min_len]. *)
Definition expect_empty (body : B) (msg : Message) : result Message :=
  if decide (contents body = []) then Ok msg else Err PeerProtocol.

Definition expect_len (body : B) (expected : nat) : result () :=
  if decide (length (contents body) = expected) then Ok () else Err PeerProtocol.

Definition expect_min_len (body : B) (min : nat) : result () :=
  if decide (min ≤ length (contents body))%nat then Ok () else Err PeerProtocol.

Definition read_block_info (body : B) : result BlockInfo.t :=
  '(index, body) ← get_u32 body;
  '(begin, body) ← get_u32 body;
  '(len, body) ← get_u32 body;
  Ok (BlockInfo.mk index begin len).

(** The [match] on the message id, over the payload. *)
Definition decode_body (msg_id : Z) (body : B) : result Message :=
  if decide (msg_id = id.CHOKE) then expect_empty body Choke
  else if decide (msg_id = id.UNCHOKE) then expect_empty body Unchoke
  else if decide (msg_id = id.INTERESTED) then expect_empty body Interested
  else if decide (msg_id = id.NOT_INTERESTED) then expect_empty body NotInterested
  else if decide (msg_id = id.HAVE) then
    _ ← expect_len body 4;
    '(index, _) ← get_u32 body;
    Ok (Have index)
  else if decide (msg_id = id.BITFIELD) then Ok (Bitfield (contents body))
  else if decide (msg_id = id.REQUEST) then
    _ ← expect_len body 12;
    b ← read_block_info body;
    Ok (Request b)
  else if decide (msg_id = id.PIECE) then
    _ ← expect_min_len body 8;
    '(index, body) ← get_u32 body;
    '(begin, body) ← get_u32 body;
    Ok (Piece (Block.mk index begin (contents body)))
  else if decide (msg_id = id.CANCEL) then
    _ ← expect_len body 12;
    b ← read_block_info body;
    Ok (Cancel b)
  else if decide (msg_id = id.PORT) then
    _ ← expect_len body 2;
    '(port, _) ← get_u16 body;
    Ok (Port port)
  else Err PeerProtocol.

(** The declared length, [u32::from_be_bytes] of the first four bytes. *)
Definition declared_len (src : B) : Z := be_decode (take 4 (contents src)).

(** [decode]: the result and the buffer left behind. *)
Definition decode (src : B) : result (option Message) * B :=
  if decide (length (contents src) < 4)%nat then (Ok None, src)
  else
    let len := declared_len src in
    if decide (len = 0) then
      match advance src 4 with
      | Ok src' => (Ok (Some KeepAlive), src')
      | _ => (Panic, src)
      end
    else if decide (MAX_MESSAGE_LEN < len) then (Err PeerProtocol, src)
    else if decide (Z.of_nat (length (contents src)) < 4 + len) then
      (Ok None, reserve src (4 + len - Z.of_nat (length (contents src))))
    else
      match (src1 ← advance src 4; split_to src1 (Z.to_nat len)) with
      | Ok (body, rest) =>
          (msg_id ← expect (head (contents body));
           payload ← advance body 1;
           m ← decode_body (b2z msg_id) payload;
           Ok (Some m), rest)
      | _ => (Panic, src)
      end.

(** [put_simple], [put_block_info] and [encode]. *)
Definition put_simple (dst : B) (msg_id : Z) : B := put_u8 (put_u32 dst 1) msg_id.

Definition put_block_info (dst : B) (msg_id : Z) (b : BlockInfo.t) : B :=
  put_u32 (put_u32 (put_u32 (put_u8 (put_u32 dst 13) msg_id)
    (BlockInfo.index b)) (BlockInfo.begin b)) (BlockInfo.length b).

Definition encode (item : Message) (dst : B) : result B :=
  match item with
  | KeepAlive => Ok (put_u32 dst 0)
  | Choke => Ok (put_simple dst id.CHOKE)
  | Unchoke => Ok (put_simple dst id.UNCHOKE)
  | Interested => Ok (put_simple dst id.INTERESTED)
  | NotInterested => Ok (put_simple dst id.NOT_INTERESTED)
  | Have index => Ok (put_u32 (put_u8 (put_u32 dst 5) id.HAVE) index)
  | Bitfield bits =>
      n ← add_w 32 1 (wrap 32 (Z.of_nat (length bits)));
      Ok (put_slice (put_u8 (put_u32 dst n) id.BITFIELD) bits)
  | Request b => Ok (put_block_info dst id.REQUEST b)
  | Cancel b => Ok (put_block_info dst id.CANCEL b)
  | Piece block =>
      n ← add_w 32 9 (wrap 32 (Z.of_nat (length (Block.data block))));
      Ok (put_slice (put_u32 (put_u32 (put_u8 (put_u32 dst n) id.PIECE)
            (Block.index block)) (Block.begin block)) (Block.data block))
  | Port port => Ok (put_u16 (put_u8 (put_u32 dst 3) id.PORT) port)
  end.

End codec.
End PeerCodec.

(** ** The wire format *)

Definition block_info_bytes (b : BlockInfo.t) : list byte :=
  be_encode 4 (BlockInfo.index b) ++ be_encode 4 (BlockInfo.begin b) ++
  be_encode 4 (BlockInfo.length b).

(** Message id and payload; the keep-alive has neither. *)
Definition wire_body (m : Message) : option (Z * list byte) :=
  match m with
  | KeepAlive => None
  | Choke => Some (0, [])
  | Unchoke => Some (1, [])
  | Interested => Some (2, [])
  | NotInterested => Some (3, [])
  | Have index => Some (4, be_encode 4 index)
  | Bitfield bits => Some (5, bits)
  | Request b => Some (6, block_info_bytes b)
  | Piece b => Some (7, be_encode 4 (Block.index b) ++ be_encode 4 (Block.begin b) ++ Block.data b)
  | Cancel b => Some (8, block_info_bytes b)
  | Port port => Some (9, be_encode 2 port)
  end.

Definition frame (m : Message) : list byte :=
  match wire_body m with
  | None => be_encode 4 0
  | Some (i, payload) => be_encode 4 (1 + Z.of_nat (length payload)) ++ z2b i :: payload
  end.

(** Field values fit their types and the frame fits the length limit. *)
Definition encodable (m : Message) : Prop :=
  match m with
  | Have index => in_word 32 index
  | Bitfield bits => 1 + Z.of_nat (length bits) ≤ MAX_MESSAGE_LEN
  | Request b | Cancel b => BlockInfo.wf b
  | Piece b => in_word 32 (Block.index b) ∧ in_word 32 (Block.begin b) ∧
               9 + Z.of_nat (length (Block.data b)) ≤ MAX_MESSAGE_LEN
  | Port port => in_word 16 port
  | _ => True
  end.

(** A receiver that appends each chunk of the stream to its buffer and decodes
    until more bytes are needed, as the framed transport drives the codec. *)
Section receiver.
Context {B : Type} `{ByteBuf B}.

Fixpoint drain (fuel : nat) (src : B) : list Message * B :=
  match fuel with
  | O => ([], src)
  | S fuel' =>
      match PeerCodec.decode src with
      | (Ok (Some m), src') => let '(ms, src'') := drain fuel' src' in (m :: ms, src'')
      | (_, src') => ([], src')
      end
  end.

(** Every message takes at least four bytes, so the length is enough fuel. *)
Definition receive (src : B) (chunk : list byte) : list Message * B :=
  let src := put_slice src chunk in drain (S (length (contents src))) src.

Fixpoint receive_all (src : B) (chunks : list (list byte)) : list Message * B :=
  match chunks with
  | [] => ([], src)
  | c :: cs =>
      let '(ms, src) := receive src c in
      let '(ms', src) := receive_all src cs in (ms ++ ms', src)
  end.
End receiver.

(** ** Lemmas *)

Lemma MAX_MESSAGE_LEN_val : MAX_MESSAGE_LEN = 2 ^ 20.
Proof. done. Qed.

Lemma block_info_bytes_length b : length (block_info_bytes b) = 12%nat.
Proof. unfold block_info_bytes. by autorewrite with wire. Qed.

#[export] Hint Rewrite block_info_bytes_length : wire.

Lemma wire_body_id m i p : wire_body m = Some (i, p) → 0 ≤ i < 10.
Proof. destruct m; cbn; naive_solver lia. Qed.

(** The payload of an encodable message fits the length limit. *)
Lemma encodable_payload m i p :
  encodable m → wire_body m = Some (i, p) → 1 + Z.of_nat (length p) ≤ MAX_MESSAGE_LEN.
Proof.
  rewrite MAX_MESSAGE_LEN_val.
  destruct m; intros Hm [= <- <-]; cbn in Hm; rewrite ?MAX_MESSAGE_LEN_val in Hm;
    autorewrite with wire; cbn; lia.
Qed.

Section body.
Context {B : Type} `{ByteBuf B}.
Implicit Types p src : B.

Lemma get_u32_app p z l :
  in_word 32 z → contents p = be_encode 4 z ++ l →
  ∃ p', get_u32 p = Ok (z, p') ∧ contents p' = l.
Proof.
  intros Hz Hp. destruct (get_u32_Ok p) as (p' & Hg & Hc).
  { rewrite Hp. autorewrite with wire. lia. }
  rewrite Hp, take_app_length' in Hg by (by rewrite be_encode_length).
  rewrite Hp, drop_app_length' in Hc by (by rewrite be_encode_length).
  erewrite (be_decode_encode_word 4 32) in Hg by done. eauto.
Qed.

(** Reading a [u32] field: its value is a word and its bytes lead the buffer. *)
Lemma get_u32_inv p z p' :
  get_u32 p = Ok (z, p') → in_word 32 z ∧ contents p = be_encode 4 z ++ contents p'.
Proof.
  intros Hg. pose proof (get_u32_spec p) as Hs. rewrite Hg in Hs.
  destruct Hs as (Hl & -> & ->).
  assert (length (take 4 (contents p)) = 4%nat) as Ht by (rewrite length_take; lia).
  split; [by apply (be_decode_word 4 32)|].
  rewrite be_encode_decode' by done. by rewrite take_drop.
Qed.

Lemma read_block_info_app p b :
  BlockInfo.wf b → contents p = block_info_bytes b → PeerCodec.read_block_info p = Ok b.
Proof.
  intros (Hi & Hb & Hl) Hp. unfold PeerCodec.read_block_info.
  destruct (get_u32_app p _ _ Hi Hp) as (p1 & -> & Hp1). red_result.
  destruct (get_u32_app p1 _ _ Hb Hp1) as (p2 & -> & Hp2). red_result.
  destruct (get_u32_app p2 _ [] Hl) as (p3 & -> & _); [by rewrite app_nil_r|].
  by destruct b.
Qed.

Lemma read_block_info_inv p b :
  length (contents p) = 12%nat → PeerCodec.read_block_info p = Ok b →
  BlockInfo.wf b ∧ contents p = block_info_bytes b.
Proof.
  unfold PeerCodec.read_block_info. intros Hlen Hr.
  apply bind_Ok_inv in Hr as ([i p1] & [? Hp1]%get_u32_inv & Hr).
  apply bind_Ok_inv in Hr as ([g p2] & [? Hp2]%get_u32_inv & Hr).
  apply bind_Ok_inv in Hr as ([l p3] & [? Hp3]%get_u32_inv & [= <-]).
  split; [done|]. unfold block_info_bytes; cbn.
  rewrite Hp1, Hp2, Hp3 in Hlen |- *. autorewrite with wire in Hlen.
  assert (contents p3 = []) as -> by (apply nil_length_inv; lia). by rewrite app_nil_r.
Qed.

Lemma read_block_info_Ok p :
  (12 ≤ length (contents p))%nat → ∃ b, PeerCodec.read_block_info p = Ok b.
Proof.
  intros Hl. unfold PeerCodec.read_block_info.
  destruct (get_u32_Ok p) as (p1 & -> & H1); [lia|]. red_result.
  destruct (get_u32_Ok p1) as (p2 & -> & H2); [rewrite H1, length_drop; lia|]. red_result.
  destruct (get_u32_Ok p2) as (p3 & -> & H3);
    [rewrite H2, H1, !length_drop; lia|]. red_result. eauto.
Qed.

(** Decide which message id the [match] takes. *)
Ltac pick_id :=
  repeat rewrite decide_False by (cbv; discriminate); rewrite (decide_True _ _ eq_refl).

Lemma decode_body_complete m i p :
  encodable m → wire_body m = Some (i, contents p) → PeerCodec.decode_body i p = Ok m.
Proof.
  unfold PeerCodec.decode_body, PeerCodec.expect_empty, PeerCodec.expect_len,
    PeerCodec.expect_min_len.
  destruct m; intros Hm Hw; cbn [encodable] in Hm; cbn [wire_body] in Hw; try done;
    apply (inj Some), pair_eq in Hw as [<- Hp]; pick_id.
  1-4: by rewrite <-Hp.
  - rewrite decide_True by by rewrite <-Hp, be_encode_length. red_result.
    by destruct (get_u32_app p index []) as (? & -> & _); [|rewrite app_nil_r|].
  - by rewrite <-Hp.
  - rewrite decide_True by by rewrite <-Hp, block_info_bytes_length. red_result.
    by rewrite read_block_info_app with (b := b).
  - destruct b as [i b d], Hm as (Hi & Hb & Hl); cbn [Block.index Block.begin Block.data] in *.
    rewrite decide_True by (rewrite <-Hp; autorewrite with wire; lia). red_result.
    destruct (get_u32_app p i _ Hi (eq_sym Hp)) as (p1 & -> & Hp1). red_result.
    destruct (get_u32_app p1 b _ Hb Hp1) as (p2 & -> & Hp2). red_result. by rewrite Hp2.
  - rewrite decide_True by by rewrite <-Hp, block_info_bytes_length. red_result.
    by rewrite read_block_info_app with (b := b).
  - rewrite decide_True by by rewrite <-Hp, be_encode_length. red_result.
    destruct (get_u16_Ok p) as (p' & -> & _); [rewrite <-Hp, be_encode_length; lia|].
    rewrite <-Hp, take_ge by (rewrite be_encode_length; lia). red_result.
    by rewrite (be_decode_encode_word 2 16).
Qed.
Lemma get_u16_inv p z p' :
  get_u16 p = Ok (z, p') → in_word 16 z ∧ contents p = be_encode 2 z ++ contents p'.
Proof.
  intros Hg. pose proof (get_u16_spec p) as Hs. rewrite Hg in Hs.
  destruct Hs as (Hl & -> & ->).
  assert (length (take 2 (contents p)) = 2%nat) as Ht by (rewrite length_take; lia).
  split; [by apply (be_decode_word 2 16)|].
  rewrite be_encode_decode' by done. by rewrite take_drop.
Qed.

(** A fixed-size payload read to its end leaves nothing. *)
Lemma fixed_payload (l x y : list byte) n :
  length l = n → l = x ++ y → length x = n → l = x.
Proof.
  intros Hl -> Hx. rewrite length_app in Hl.
  rewrite (nil_length_inv y) by lia. by rewrite app_nil_r.
Qed.

Lemma decode_body_sound i p m :
  1 + Z.of_nat (length (contents p)) ≤ MAX_MESSAGE_LEN →
  PeerCodec.decode_body i p = Ok m → encodable m ∧ wire_body m = Some (i, contents p).
Proof.
  intros Hl. unfold PeerCodec.decode_body, PeerCodec.expect_empty, PeerCodec.expect_len,
    PeerCodec.expect_min_len.
  repeat (case_decide; subst; [|try done]); intros Hd; inv_result.
  1-4: rename select (contents p = []) into Hp; by rewrite Hp.
  all: try match goal with H : length (contents _) = _ |- _ => rename H into Hn end.
  - case_match. inv_result. rename select (get_u32 _ = _) into Hg.
    apply get_u32_inv in Hg as [? Hp]. split; [done|].
    cbn [wire_body]. by rewrite <-(fixed_payload _ _ _ _ Hn Hp).
  - done.
  - rename select (PeerCodec.read_block_info _ = _) into Hr.
    apply read_block_info_inv in Hr as [? Hp]; [|done].
    split; [done|]. cbn [wire_body]. by rewrite Hp.
  - case_match. inv_result. case_match. inv_result.
    rename select (get_u32 p = _) into Hg1. apply get_u32_inv in Hg1 as [? Hp1].
    rename select (get_u32 _ = _) into Hg2. apply get_u32_inv in Hg2 as [? Hp2].
    cbn. rewrite Hp1, Hp2 in *. autorewrite with wire in Hl.
    split; [|done]. split_and!; [done..|lia].
  - rename select (PeerCodec.read_block_info _ = _) into Hr.
    apply read_block_info_inv in Hr as [? Hp]; [|done].
    split; [done|]. cbn [wire_body]. by rewrite Hp.
  - case_match. inv_result. rename select (get_u16 _ = _) into Hg.
    apply get_u16_inv in Hg as [? Hp]. split; [done|].
    cbn [wire_body]. by rewrite <-(fixed_payload _ _ _ _ Hn Hp).
Qed.

Lemma decode_body_cases i p :
  is_Ok (PeerCodec.decode_body i p) ∨ PeerCodec.decode_body i p = Err PeerProtocol.
Proof.
  unfold is_Ok, PeerCodec.decode_body, PeerCodec.expect_empty, PeerCodec.expect_len,
    PeerCodec.expect_min_len.
  repeat case_decide; red_result; eauto.
  - destruct (get_u32_Ok p) as (p1 & -> & _); [lia|]. red_result. eauto.
  - destruct (read_block_info_Ok p) as (b & ->); [lia|]. red_result. eauto.
  - destruct (get_u32_Ok p) as (p1 & -> & H1'); [lia|]. red_result.
    destruct (get_u32_Ok p1) as (p2 & -> & _); [rewrite H1', length_drop; lia|].
    red_result. eauto.
  - destruct (read_block_info_Ok p) as (b & ->); [lia|]. red_result. eauto.
  - destruct (get_u16_Ok p) as (p1 & -> & _); [lia|]. red_result. eauto.
Qed.
End body.

(** ** One step of the decoder

    [decode_view src r] lists the exits of [decode]. *)
Inductive decode_view {B : Type} `{ByteBuf B} (src : B) : result (option Message) * B → Prop :=
  | view_short :
      (length (contents src) < 4)%nat → decode_view src (Ok None, src)
  | view_keep_alive src' :
      contents src = be_encode 4 0 ++ contents src' →
      decode_view src (Ok (Some KeepAlive), src')
  | view_too_long :
      (4 ≤ length (contents src))%nat → MAX_MESSAGE_LEN < PeerCodec.declared_len src →
      decode_view src (Err PeerProtocol, src)
  | view_partial src' :
      (4 ≤ length (contents src))%nat →
      0 < PeerCodec.declared_len src ≤ MAX_MESSAGE_LEN →
      Z.of_nat (length (contents src)) < 4 + PeerCodec.declared_len src →
      contents src' = contents src → decode_view src (Ok None, src')
  | view_frame i p rest :
      1 + Z.of_nat (length (contents p)) ≤ MAX_MESSAGE_LEN →
      contents src = be_encode 4 (1 + Z.of_nat (length (contents p))) ++
                     i :: contents p ++ contents rest →
      decode_view src (m ← PeerCodec.decode_body (b2z i) p; Ok (Some m), rest).

Section decode.
Context {B : Type} `{ByteBuf B}.
Implicit Types p src rest : B.

Lemma declared_len_bytes src :
  (4 ≤ length (contents src))%nat →
  in_word 32 (PeerCodec.declared_len src) ∧
  contents src = be_encode 4 (PeerCodec.declared_len src) ++ drop 4 (contents src).
Proof.
  intros Hl. assert (length (take 4 (contents src)) = 4%nat) as Ht by (rewrite length_take; lia).
  unfold PeerCodec.declared_len. split; [by apply (be_decode_word 4 32)|].
  rewrite be_encode_decode' by done. by rewrite take_drop.
Qed.

Lemma declared_len_app src n l :
  in_word 32 n → contents src = be_encode 4 n ++ l → PeerCodec.declared_len src = n.
Proof.
  intros Hn Hs. unfold PeerCodec.declared_len.
  rewrite Hs, take_app_length' by (by rewrite be_encode_length).
  by apply (be_decode_encode_word 4 32).
Qed.

Lemma decode_has_view src : decode_view src (PeerCodec.decode src).
Proof.
  unfold PeerCodec.decode. case_decide; [by constructor|].
  destruct (declared_len_bytes src) as [Hw Hs]; [lia|].
  set (n := PeerCodec.declared_len src) in *.
  case_decide as Hz.
  { destruct (advance_Ok src 4) as (src' & -> & Hc); [lia|]. constructor.
    by rewrite Hc, <-Hz. }
  case_decide; [constructor; fold n; lia|].
  unfold in_word in Hw.
  case_decide; [constructor; autorewrite with wire; fold n; done || lia|].
  destruct (advance_Ok src 4) as (src1 & -> & Hc1); [lia|]. red_result.
  assert (length (contents src1) = (length (contents src) - 4)%nat) as Hl1
    by (rewrite Hc1; apply length_drop).
  destruct (split_to_Ok src1 (Z.to_nat n)) as (body & rest & -> & Hb & Hr); [lia|].
  assert (length (contents body) = Z.to_nat n) as Hlb by (rewrite Hb, length_take; lia).
  destruct (contents body) as [|i pl] eqn:Hbody; [simpl in Hlb; lia|].
  destruct (advance_Ok body 1) as (p & Hadv & Hp); [rewrite Hbody; simpl; lia|].
  cbn [head]. red_result. rewrite Hadv. red_result.
  rewrite Hbody in Hp. cbn in Hp. rewrite drop_0 in Hp. simpl in Hlb.
  apply view_frame; rewrite Hp; [lia|].
  rewrite Hs, <-Hc1, <-(take_drop (Z.to_nat n) (contents src1)), <-Hb, <-Hr.
  by replace (1 + Z.of_nat (length pl)) with n by lia.
Qed.

Lemma frame_cons m i pl :
  wire_body m = Some (i, pl) →
  frame m = be_encode 4 (1 + Z.of_nat (length pl)) ++ z2b i :: pl.
Proof. unfold frame. by intros ->. Qed.

Lemma frame_length_ge m : (4 ≤ length (frame m))%nat.
Proof.
  unfold frame. destruct (wire_body m) as [[i pl]|]; autorewrite with wire; lia.
Qed.

Lemma decode_frame_sound src m src' :
  PeerCodec.decode src = (Ok (Some m), src') →
  encodable m ∧ contents src = frame m ++ contents src'.
Proof.
  intros Hd. pose proof (decode_has_view src) as Hv. rewrite Hd in Hv.
  inversion Hv as [| |  | |i p rest Hl Hs Hr]; subst; [done|].
  apply bind_Ok_inv in Hr as (m' & Hm & [= ->]).
  apply decode_body_sound in Hm as [Hm Hw]; [|done]. split; [done|].
  rewrite Hs, (frame_cons _ _ _ Hw), z2b_b2z, <-app_assoc. done.
Qed.

(** A complete length-prefixed frame reaches the [match] on its id. *)
Lemma decode_whole_frame src i pl l :
  1 + Z.of_nat (length pl) ≤ MAX_MESSAGE_LEN →
  contents src = be_encode 4 (1 + Z.of_nat (length pl)) ++ i :: pl ++ l →
  ∃ p rest, contents p = pl ∧ contents rest = l ∧
    PeerCodec.decode src = (m ← PeerCodec.decode_body (b2z i) p; Ok (Some m), rest).
Proof.
  rewrite MAX_MESSAGE_LEN_val. intros Hpl Hs.
  assert (PeerCodec.declared_len src = 1 + Z.of_nat (length pl)) as Hn.
  { eapply declared_len_app; [unfold in_word; lia|exact Hs]. }
  assert (length (contents src) = (5 + length pl + length l)%nat) as Hlen.
  { rewrite Hs. autorewrite with wire. simpl. autorewrite with wire. lia. }
  pose proof (decode_has_view src) as Hv. remember (PeerCodec.decode src) as r eqn:Hr.
  destruct Hv as [|src' Hk| | |j p rest Hl Hc]; rewrite ?Hn, ?MAX_MESSAGE_LEN_val in *; try lia.
  { eapply declared_len_app in Hk; [lia|unfold in_word; lia]. }
  assert (1 + Z.of_nat (length pl) = 1 + Z.of_nat (length (contents p))) as Hlp.
  { rewrite <-Hn. eapply declared_len_app; [unfold in_word; lia|exact Hc]. }
  rewrite Hs, <-Hlp in Hc. apply app_inv_head in Hc. injection Hc as <- Hc.
  apply app_inj_1 in Hc as [-> ->]; [|lia]. eauto.
Qed.

(** The frame of an encodable message is recognised whatever follows it. *)
Lemma decode_frame_complete src m l :
  encodable m → contents src = frame m ++ l →
  ∃ src', PeerCodec.decode src = (Ok (Some m), src') ∧ contents src' = l.
Proof.
  intros Hm Hs. destruct (wire_body m) as [[i pl]|] eqn:Hw.
  2:{ destruct m; try done. unfold frame in Hs; cbn [wire_body] in Hs.
      unfold PeerCodec.decode. rewrite decide_False by (rewrite Hs, length_app; simpl; lia).
      erewrite declared_len_app by done. rewrite decide_True by done.
      destruct (advance_Ok src 4) as (src' & -> & Hc); [rewrite Hs, length_app; simpl; lia|].
      eexists. split; [done|]. by rewrite Hc, Hs. }
  rewrite (frame_cons _ _ _ Hw), <-app_assoc in Hs.
  destruct (decode_whole_frame src (z2b i) pl l) as (p & rest & Hp & <- & ->);
    [by eapply encodable_payload|done|].
  rewrite b2z_z2b, Z.mod_small by (apply wire_body_id in Hw; lia).
  rewrite (decode_body_complete m) by (rewrite ?Hp; done). eauto.
Qed.

Lemma decode_body_ext i p q :
  1 + Z.of_nat (length (contents p)) ≤ MAX_MESSAGE_LEN →
  contents p = contents q → PeerCodec.decode_body i p = PeerCodec.decode_body i q.
Proof.
  intros Hl Hpq.
  destruct (decode_body_cases i p) as [[m Hm]|Hp], (decode_body_cases i q) as [[m' Hm']|Hq];
    [| | |congruence].
  1,2: apply decode_body_sound in Hm as Hs; [|done]; destruct Hs as [? Hw]; rewrite Hpq in Hw;
    by rewrite Hm, (decode_body_complete m i q).
  apply decode_body_sound in Hm' as Hs; [|by rewrite <-Hpq]. destruct Hs as [? Hw].
  rewrite <-Hpq in Hw. by rewrite Hm', (decode_body_complete m' i p).
Qed.

(** A decision taken on a prefix of the stream stands when more bytes arrive. *)
Lemma decode_stable src src2 l r rest :
  contents src2 = contents src ++ l → PeerCodec.decode src = (r, rest) → r ≠ Ok None →
  ∃ rest2, PeerCodec.decode src2 = (r, rest2) ∧
    (r ≠ Err PeerProtocol → contents rest2 = contents rest ++ l).
Proof.
  intros Hs2 Hd Hr. pose proof (decode_has_view src) as Hv. rewrite Hd in Hv.
  inversion Hv as [| src' Hk|Hl Hm|src' Hl ? ?|i p rest' Hl Hs Hrr]; subst; try done.
  - destruct (decode_frame_complete src2 KeepAlive (contents rest ++ l)) as (rest2 & -> & ?);
      [done|by rewrite Hs2, Hk|]. eauto.
  - destruct (declared_len_bytes rest) as [Hw Hb]; [done|].
    assert (PeerCodec.declared_len src2 = PeerCodec.declared_len rest) as Hn.
    { rewrite Hb, <-app_assoc in Hs2. by eapply declared_len_app in Hs2. }
    pose proof (decode_has_view src2) as Hv2. revert Hn Hm. rewrite MAX_MESSAGE_LEN_val.
    intros Hn Hm.
    inversion Hv2 as [Hx|src' Hk Hx|Hx|src' ? ? ? ? Hx|i p rest' Hx Hs Hy];
      rewrite ?MAX_MESSAGE_LEN_val in *.
    + rewrite Hs2, length_app in Hx. lia.
    + eapply declared_len_app in Hk; [lia|unfold in_word; lia].
    + eauto.
    + lia.
    + eapply declared_len_app in Hs; [lia|unfold in_word; lia].
  - destruct (decode_whole_frame src2 i (contents p) (contents rest ++ l))
      as (p2 & rest2 & Hp2 & Hr2 & ->); [done|by rewrite Hs2, Hs, <-app_assoc; cbn; rewrite <-app_assoc|].
    rewrite (decode_body_ext _ p2 p) by (rewrite Hp2; done). eauto.
Qed.
End decode.

Lemma encode_contents {B : Type} `{ByteBuf B} (m : Message) (dst : B) :
  encodable m →
  ∃ dst', PeerCodec.encode m dst = Ok dst' ∧ contents dst' = contents dst ++ frame m.
Proof.
  intros Hm. unfold PeerCodec.encode, PeerCodec.put_simple, PeerCodec.put_block_info, frame.
  destruct m; cbn [wire_body]; cbn [encodable] in Hm; rewrite ?MAX_MESSAGE_LEN_val in Hm.
  1-6,8,10-11: eexists; split; [done|]; unfold block_info_bytes; autorewrite with wire;
    by rewrite <-?app_assoc.
  - rewrite wrap_small by (unfold in_word; lia). rewrite add_w_Ok by lia. red_result.
    eexists; split; [done|]. autorewrite with wire. by rewrite <-!app_assoc.
  - rewrite wrap_small by (unfold in_word; lia). rewrite add_w_Ok by lia. red_result.
    eexists; split; [done|]. autorewrite with wire. rewrite <-!app_assoc. cbn [app].
    do 3 f_equal. lia.
Qed.

Section receiver_lemmas.
Context {B : Type} `{ByteBuf B}.
Implicit Types src : B.

Lemma decode_none_contents src src' :
  PeerCodec.decode src = (Ok None, src') → contents src' = contents src.
Proof.
  intros Hd. pose proof (decode_has_view src) as Hv. rewrite Hd in Hv.
  inversion Hv as [| | | |i p rest ? ? Hr]; subst; try done.
  by apply bind_Ok_inv in Hr as (? & _ & ?).
Qed.

(** A proper prefix of an encodable frame waits for more bytes. *)
Lemma decode_prefix src m l :
  encodable m → contents src ++ l = frame m → l ≠ [] →
  ∃ src', PeerCodec.decode src = (Ok None, src') ∧ contents src' = contents src.
Proof.
  intros Hm Hs Hl. destruct (PeerCodec.decode src) as [r src'] eqn:Hd.
  destruct (decide (r = Ok None)) as [->|Hr].
  { exists src'. split; [done|]. by eapply decode_none_contents. }
  destruct (decode_frame_complete (put_slice src l) m []) as (e & Hde & He);
    [done|by rewrite contents_put_slice, app_nil_r|].
  destruct (decode_stable src (put_slice src l) l r src') as (rest2 & Hd2 & Hc2);
    [by rewrite contents_put_slice|done|done|].
  rewrite Hde in Hd2. injection Hd2 as <- <-.
  rewrite He in Hc2. specialize (Hc2 ltac:(done)).
  by apply eq_sym, app_eq_nil in Hc2 as [_ ?].
Qed.

Lemma drain_frames fuel ms src l :
  Forall encodable ms → (length ms < fuel)%nat →
  contents src = concat (frame <$> ms) ++ l →
  (l = [] ∨ ∃ m l', encodable m ∧ l' ≠ [] ∧ l ++ l' = frame m) →
  ∃ src', drain fuel src = (ms, src') ∧ contents src' = l.
Proof.
  intros Hms. revert fuel src. induction Hms as [|m ms Hm _ IH]; intros fuel src Hf Hs Hl;
    (destruct fuel as [|fuel]; [simpl in Hf; lia|]); cbn [drain].
  - cbn in Hs. destruct Hl as [->|(m & l' & Hm & Hl' & Hlm)].
    + destruct (PeerCodec.decode src) as [r src'] eqn:Hd.
      unfold PeerCodec.decode in Hd. rewrite decide_True in Hd by (rewrite Hs; simpl; lia).
      injection Hd as <- <-. eauto.
    + rewrite <-Hs in Hlm.
      destruct (decode_prefix src m l' Hm Hlm Hl') as (src' & -> & Hc).
      exists src'. by rewrite Hc.
  - cbn in Hs. rewrite <-app_assoc in Hs.
    destruct (decode_frame_complete src m _ Hm Hs) as (src1 & -> & Hs1).
    destruct (IH fuel src1) as (src' & -> & ?); [simpl in Hf; lia|done|done|]. eauto.
Qed.

Lemma frames_length ms : (4 * length ms ≤ length (concat (frame <$> ms)))%nat.
Proof.
  induction ms as [|m ms IH]; [done|]. cbn. rewrite length_app.
  pose proof (frame_length_ge m). lia.
Qed.

(** Any prefix of a stream of frames is whole frames and a proper prefix of
    the next one. *)
Lemma frames_prefix ms l1 l2 :
  l1 ++ l2 = concat (frame <$> ms) →
  ∃ ms1 ms2 l, ms = ms1 ++ ms2 ∧ l1 = concat (frame <$> ms1) ++ l ∧
    l ++ l2 = concat (frame <$> ms2) ∧
    (l = [] ∨ ∃ m l', m ∈ ms ∧ l' ≠ [] ∧ l ++ l' = frame m).
Proof.
  revert l1. induction ms as [|m ms IH]; intros l1 Hl.
  { cbn in Hl. apply app_eq_nil in Hl as [-> ->]. exists [], [], []. naive_solver. }
  cbn in Hl. destruct (decide (length l1 < length (frame m))%nat) as [Hlt|Hge].
  - exists [], (m :: ms), l1. split_and!; [done..|]. right.
    exists m, (drop (length l1) (frame m)). split_and!; [set_solver| |].
    + intros Hn%(f_equal length). rewrite length_drop in Hn. simpl in Hn. lia.
    + apply (f_equal (take (length (frame m)))) in Hl.
      rewrite take_app_length, take_app_ge in Hl by lia.
      rewrite <-Hl at 1. by rewrite drop_app_length.
  - assert (∃ k, l1 = frame m ++ k) as [k ->].
    { exists (drop (length (frame m)) l1).
      apply (f_equal (take (length (frame m)))) in Hl.
      rewrite take_app_length, take_app_le in Hl by lia.
      rewrite <-Hl at 1. by rewrite take_drop. }
    rewrite <-app_assoc in Hl. apply app_inv_head in Hl.
    destruct (IH k Hl) as (ms1 & ms2 & l & -> & -> & Hl2 & Hp).
    exists (m :: ms1), ms2, l. split_and!; [done|cbn; by rewrite app_assoc|done|].
    destruct Hp as [|(m' & l' & ? & ? & ?)]; [auto|right]. exists m', l'. set_solver.
Qed.

Lemma receive_all_frames chunks ms src :
  Forall encodable ms →
  contents src ++ concat chunks = concat (frame <$> ms) →
  chunks ≠ [] ∨ contents src = [] ∧ ms = [] →
  ∃ src', receive_all src chunks = (ms, src') ∧ contents src' = [].
Proof.
  revert ms src. induction chunks as [|c chunks IH]; intros ms src Hms Hs Hne.
  { destruct Hne as [|[? ->]]; [done|]. eauto. }
  cbn [receive_all]. cbn [concat] in Hs. rewrite app_assoc in Hs.
  destruct (frames_prefix _ _ _ Hs) as (ms1 & ms2 & l1 & -> & Hc & Hl2 & Hp1).
  apply Forall_app in Hms as [Hms1 Hms2].
  assert (l1 = [] ∨ ∃ m l', encodable m ∧ l' ≠ [] ∧ l1 ++ l' = frame m) as Hp1'.
  { destruct Hp1 as [|(m & l' & Hin & ? & ?)]; [auto|right]. exists m, l'. split_and!; [|done..].
    apply elem_of_app in Hin as [Hin|Hin]; rewrite Forall_forall in *; auto. }
  rewrite <-contents_put_slice in Hc.
  pose proof (frames_length ms1) as Hfl.
  unfold receive. edestruct (drain_frames (S (length (contents (put_slice src c)))) ms1)
    as (src1 & -> & Hs1); [done| |exact Hc|done|].
  { rewrite Hc, length_app. lia. }
  destruct (decide (chunks = [])) as [->|Hch].
  - cbn in *. rewrite app_nil_r in Hl2. destruct ms2 as [|m ms2].
    { exists src1. rewrite !app_nil_r in *. by rewrite Hs1. }
    exfalso. cbn in Hl2. destruct Hp1' as [->|(m' & l' & Hm' & Hl' & Hml)].
    + pose proof (frame_length_ge m). apply (f_equal length) in Hl2.
      rewrite length_app in Hl2. simpl in Hl2. lia.
    + apply Forall_cons in Hms2 as [Hm2 _].
      destruct (decode_frame_complete src1 m _ Hm2 (eq_trans Hs1 Hl2)) as (e & He & _).
      rewrite <-Hs1 in Hml. destruct (decode_prefix src1 m' l' Hm' Hml Hl') as (? & He' & _).
      congruence.
  - edestruct (IH ms2 src1) as (src' & -> & ?); [done|by rewrite Hs1|by left|].
    eauto.
Qed.
End receiver_lemmas.

(** ** Properties of the codec *)

Section codec_properties.
Context {B : Type} `{ByteBuf B}.
Implicit Types src dst : B.

(** C8: [decode] inverts the wire format, and accepts nothing else: it yields the
    message [m] and leaves [rest] in the buffer exactly when the buffer holds
    the frame of [m] followed by [rest], every field of [m] fits its type and
    the frame respects the length limit. *)
Theorem decode_iff_frame src m rest :
  (∃ src', PeerCodec.decode src = (Ok (Some m), src') ∧ contents src' = rest) ↔
  encodable m ∧ contents src = frame m ++ rest.
Proof.
  split; [|intros []; by apply decode_frame_complete].
  intros (src' & Hd & <-). by apply decode_frame_sound.
Qed.

(** [encode] never fails on an encodable message and appends exactly its frame
    to the buffer, so [decode] gives the message back with nothing left over. *)
Theorem encode_decode_roundtrip dst src m :
  encodable m → contents src = [] →
  ∃ dst', PeerCodec.encode m dst = Ok dst' ∧ contents dst' = contents dst ++ frame m ∧
  ∃ src1 src2, PeerCodec.encode m src = Ok src1 ∧
    PeerCodec.decode src1 = (Ok (Some m), src2) ∧ contents src2 = [].
Proof.
  intros Hm Hs. destruct (encode_contents m dst Hm) as (dst' & ? & ?).
  destruct (encode_contents m src Hm) as (src1 & ? & Hs1). rewrite Hs in Hs1.
  destruct (decode_frame_complete src1 m [] Hm) as (src2 & ? & ?); [by rewrite app_nil_r|].
  eauto 10.
Qed.


(** C23: Framing does not depend on how the stream is cut: whatever chunks the
    concatenated frames of a list of messages arrive in, the receiver decodes
    exactly those messages, in order, and is left with an empty buffer. *)
Theorem chunks_irrelevant src chunks ms :
  contents src = [] → Forall encodable ms → concat chunks = concat (frame <$> ms) →
  ∃ src', receive_all src chunks = (ms, src') ∧ contents src' = [].
Proof.
  intros Hs Hms Hc. destruct (decide (chunks = [])) as [->|].
  - destruct ms as [|m ms]; [by exists src|].
    pose proof (frame_length_ge m). apply (f_equal length) in Hc. cbn in Hc.
    rewrite length_app in Hc. lia.
  - apply receive_all_frames; [done|by rewrite Hs|by left].
Qed.
End codec_properties.

(** Witnesses: a request block round trips, and a stream of three messages cut
    inside its frames. *)
Lemma encode_decode_roundtrip_witness :
  ∃ src1 src2 : list byte,
    PeerCodec.encode (Request (BlockInfo.mk 1 16384 16384)) [] = Ok src1 ∧
    PeerCodec.decode src1 = (Ok (Some (Request (BlockInfo.mk 1 16384 16384))), src2) ∧
    contents src2 = [].
Proof.
  destruct (encode_decode_roundtrip ([] : list byte) ([] : list byte)
    (Request (BlockInfo.mk 1 16384 16384))) as (? & _ & _ & ?);
    [unfold encodable, BlockInfo.wf, in_word; simpl; lia|done|done].
Defined.

Lemma chunks_irrelevant_witness :
  ∃ src' : list byte,
    receive_all ([] : list byte)
      [[x00; x00]; [x00; x01; x02; x00; x00; x00]; []; [x05; x04; x00; x00; x00; x07; x00; x00; x00; x00]]
    = ([Interested; Have 7; KeepAlive], src') ∧ contents src' = [].
Proof.
  apply (chunks_irrelevant ([] : list byte)); [done| |vm_compute; reflexivity].
  repeat constructor; cbn; unfold in_word; lia.
Defined.
