(* ===== verification/Handshakes.v ===== *)
(** * Peer ids, the handshake and connecting ([src/peer/mod.rs],
      [src/peer/handshake.rs], [src/peer/connection.rs])

    The 68-byte handshake as the code assembles and checks it, slice by slice,
    and the exchange over a byte stream. The random generator and the TCP
    stream are not part of the repository: the random bytes are an argument and
    the stream is the class [ByteStream]. Fixed-size arrays are lists whose
    length is stated by a [wf] predicate. *)

From S2P Require Export Metainfos.

Definition PEER_ID_LEN : nat := 20.
Definition CLIENT_PREFIX : list byte := lit "-TN0001-".

Module PeerId.
Record t : Type := mk { as_bytes : list byte }.

#[global] Instance t_eq_dec : EqDecision t.
Proof. solve_decision. Defined.

Definition wf (p : t) : Prop := length (as_bytes p) = PEER_ID_LEN.

(** [generate]; [random] is what the generator fills the tail with. *)
Definition generate (random : list byte) : result t :=
  id ← copy_from_slice 0 (length CLIENT_PREFIX) CLIENT_PREFIX (replicate PEER_ID_LEN x00);
  id ← copy_from_slice (length CLIENT_PREFIX) PEER_ID_LEN random id;
  Ok (mk id).

(** [Display]: printable ASCII verbatim, the rest as [\x..]. *)
Definition show_byte (b : byte) : str :=
  if ((33 <=? b2z b) && (b2z b <=? 126)) || (b2z b =? 32) then [b]
  else lit "\x" ++ [InfoHash.hex_digit (b2z b `div` 16); InfoHash.hex_digit (b2z b `mod` 16)].

Definition to_string (p : t) : str := concat (show_byte <$> as_bytes p).
End PeerId.

(** ** The handshake *)

Definition PSTR : list byte := lit "BitTorrent protocol".
Definition HANDSHAKE_LEN : nat := (1 + 19 + 8 + SHA1_LEN + PEER_ID_LEN)%nat.

Module Handshake.
Record t : Type := mk {
  reserved : list byte;
  info_hash : InfoHash.t;
  peer_id : PeerId.t;
}.

#[global] Instance t_eq_dec : EqDecision t.
Proof. solve_decision. Defined.

Definition wf (h : t) : Prop :=
  length (reserved h) = 8%nat ∧ InfoHash.wf (info_hash h) ∧ PeerId.wf (peer_id h).

Definition new (ih : InfoHash.t) (id : PeerId.t) : t :=
  {| reserved := replicate 8 x00; info_hash := ih; peer_id := id |}.

Definition to_bytes (h : t) : result (list byte) :=
  let buf := <[0%nat := z2b (Z.of_nat (length PSTR))]> (replicate HANDSHAKE_LEN x00) in
  buf ← copy_from_slice 1 20 PSTR buf;
  buf ← copy_from_slice 20 28 (reserved h) buf;
  buf ← copy_from_slice 28 48 (InfoHash.as_bytes (info_hash h)) buf;
  copy_from_slice 48 68 (PeerId.as_bytes (peer_id h)) buf.

Definition from_bytes (buf : list byte) : result t :=
  if negb (length buf =? HANDSHAKE_LEN)%nat then Err PeerProtocol
  else
    pstrlen ← expect (buf !! 0%nat);
    if negb (b2z pstrlen =? Z.of_nat (length PSTR)) then Err PeerProtocol
    else
      pstr ← slice_r 1 20 buf;
      if negb (bool_decide (pstr = PSTR)) then Err PeerProtocol
      else
        s ← slice_r 20 28 buf;
        reserved ← copy_from_slice 0 8 s (replicate 8 x00);
        s ← slice_r 28 48 buf;
        info_hash ← copy_from_slice 0 SHA1_LEN s (replicate SHA1_LEN x00);
        s ← slice_r 48 68 buf;
        peer_id ← copy_from_slice 0 PEER_ID_LEN s (replicate PEER_ID_LEN x00);
        Ok {| reserved := reserved; info_hash := InfoHash.mk info_hash;
              peer_id := PeerId.mk peer_id |}.

(** The wire format. *)
Definition layout (h : t) : list byte :=
  x13 :: PSTR ++ reserved h ++ InfoHash.as_bytes (info_hash h) ++ PeerId.as_bytes (peer_id h).
End Handshake.

(** ** The byte stream

    [write_all] and [read_exact] of the asynchronous I/O traits: each either
    fails with an I/O error or does all of its work. *)

Class ByteStream (S : Type) := {
  sent : S → list byte;
  write_all : S → list byte → result () * S;
  read_exact : S → nat → result (list byte) * S;
  write_all_spec s bs s' :
    write_all s bs = (Ok (), s') → sent s' = sent s ++ bs;
  write_all_err s bs r s' : write_all s bs = (r, s') → r = Ok () ∨ r = Err Io;
  read_exact_spec s n bs s' :
    read_exact s n = (Ok bs, s') → length bs = n ∧ sent s' = sent s;
  read_exact_err s n r s' : read_exact s n = (r, s') → is_Ok r ∨ r = Err Io;
}.

Section connection.
Context {S : Type} `{ByteStream S}.

(** [handshake]: send ours, read theirs, parse it, compare the torrents. *)
Definition handshake (stream : S) (info_hash : InfoHash.t) (peer_id : PeerId.t)
  : result Handshake.t * S :=
  match Handshake.to_bytes (Handshake.new info_hash peer_id) with
  | Err e => (Err e, stream)
  | Panic => (Panic, stream)
  | Ok ours =>
      let '(w, stream) := write_all stream ours in
      match w with
      | Err e => (Err e, stream)
      | Panic => (Panic, stream)
      | Ok _ =>
          let '(r, stream) := read_exact stream HANDSHAKE_LEN in
          (buf ← r;
           remote ← Handshake.from_bytes buf;
           if negb (bool_decide (Handshake.info_hash remote = info_hash))
           then Err PeerProtocol else Ok remote, stream)
      end
  end.

(** [timeout(d, f).await.map_err(..)??]; [elapsed] says that the deadline
    passed first. *)
Definition timed {A} (elapsed : bool) (r : result A) : result A :=
  if elapsed then Err PeerProtocol else r.

(** [PeerConnection::connect]: the remote peer's id and the stream the framed
    transport takes over. [dial] is the outcome of the TCP connection. *)
Definition connect (dial_elapsed : bool) (dial : result S) (hs_elapsed : bool)
    (info_hash : InfoHash.t) (peer_id : PeerId.t) : result (PeerId.t * S) :=
  stream ← timed dial_elapsed dial;
  let '(r, stream) := handshake stream info_hash peer_id in
  remote ← timed hs_elapsed r;
  Ok (Handshake.peer_id remote, stream).
End connection.

(** ** Lemmas *)

Lemma fill_slice n (s : list byte) :
  length s = n → copy_from_slice 0 n s (replicate n x00) = Ok s.
Proof.
  intros Hs. rewrite copy_from_slice_Ok by (rewrite ?length_replicate; lia).
  unfold splice. cbn. rewrite Hs, drop_ge by (rewrite length_replicate; lia).
  by rewrite app_nil_r.
Qed.

(** Consecutive slices are copied over a buffer that starts with [done]. *)
Lemma copy_next (pre s rest : list byte) i j :
  length pre = i → (i + length s)%nat = j → (length s ≤ length rest)%nat →
  copy_from_slice i j s (pre ++ rest) = Ok ((pre ++ s) ++ drop (length s) rest).
Proof.
  intros <- <- Hs. rewrite copy_from_slice_Ok by (rewrite ?length_app; lia).
  unfold splice. rewrite take_app_length, <-app_assoc. do 3 f_equal.
  by rewrite drop_app_add.
Qed.

Lemma to_bytes_layout h :
  Handshake.wf h → Handshake.to_bytes h = Ok (Handshake.layout h).
Proof.
  destruct h as [r [ih] [id]]. intros (Hr & Hi & Hp).
  unfold InfoHash.wf, PeerId.wf, SHA1_LEN, PEER_ID_LEN in *. cbn in Hr, Hi, Hp.
  unfold Handshake.to_bytes, Handshake.layout.
  cbn [Handshake.reserved Handshake.info_hash Handshake.peer_id InfoHash.as_bytes PeerId.as_bytes].
  change (<[0%nat := z2b (Z.of_nat (length PSTR))]> (replicate HANDSHAKE_LEN x00))
    with ([x13] ++ replicate 67 x00).
  rewrite (copy_next _ PSTR) by (cbn; lia). red_result.
  rewrite (copy_next _ r) by (rewrite ?length_app, ?length_drop, ?length_replicate; cbn; lia).
  red_result.
  rewrite (copy_next _ ih) by (rewrite ?length_app, ?length_drop, ?length_replicate; cbn; lia).
  red_result.
  rewrite (copy_next _ id) by (rewrite ?length_app, ?length_drop, ?length_replicate; cbn; lia).
  rewrite (drop_ge _ (length id)) by
    (rewrite !length_drop, length_replicate; cbn; lia).
  by rewrite app_nil_r, <-!app_assoc.
Qed.

Lemma handshake_bytes_cases buf :
  Handshake.from_bytes buf =
  (if decide (length buf = HANDSHAKE_LEN ∧ take 20 buf = x13 :: PSTR)
   then Ok {| Handshake.reserved := slice 20 28 buf;
              Handshake.info_hash := InfoHash.mk (slice 28 48 buf);
              Handshake.peer_id := PeerId.mk (slice 48 68 buf) |}
   else Err PeerProtocol).
Proof.
  unfold Handshake.from_bytes.
  destruct (Nat.eqb_spec (length buf) HANDSHAKE_LEN) as [Hl|Hl]; cbn [negb].
  2:{ by rewrite decide_False by (by intros [? _]). }
  assert (length buf = 68%nat) as Hl' by done.
  destruct buf as [|b buf]; [done|]. cbn [lookup list_lookup expect]. red_result.
  rewrite !slice_r_Ok by lia. red_result.
  change (take 20 (b :: buf)) with (b :: take 19 buf).
  change (slice 1 20 (b :: buf)) with (take 19 (drop 0 buf)). rewrite drop_0.
  destruct (Z.eqb_spec (b2z b) (Z.of_nat (length PSTR))) as [Hb|Hb]; cbn [negb].
  2:{ rewrite decide_False; [done|]. intros [_ [= -> _]]. done. }
  assert (b = x13) as -> by (by apply b2z_inj).
  case_bool_decide as Hp; cbn [negb].
  - rewrite decide_True by (by rewrite Hp).
    rewrite (fill_slice 8) by (rewrite slice_length; lia). red_result.
    rewrite (fill_slice SHA1_LEN) by (rewrite slice_length; [done|lia]). red_result.
    by rewrite (fill_slice PEER_ID_LEN) by (rewrite slice_length; [done|lia]).
  - rewrite decide_False; [done|]. by intros [_ [= Hq]].
Qed.

(** A buffer of handshake length is its five fields. *)
Lemma handshake_split (buf : list byte) :
  length buf = HANDSHAKE_LEN →
  buf = take 20 buf ++ slice 20 28 buf ++ slice 28 48 buf ++ slice 48 68 buf.
Proof.
  intros Hl. assert (length buf = 68%nat) as Hl' by done.
  rewrite <-(slice_split 28 48 68) by lia. rewrite <-(slice_split 20 28 68) by lia.
  unfold slice. rewrite (take_ge (drop 20 buf)) by (rewrite length_drop; lia).
  by rewrite take_drop.
Qed.

Lemma from_bytes_Ok_iff buf h :
  Handshake.from_bytes buf = Ok h ↔ Handshake.wf h ∧ buf = Handshake.layout h.
Proof.
  rewrite handshake_bytes_cases. split.
  - case_decide as Hd; [|done]. destruct Hd as [Hl Ht]. intros [= <-].
    assert (length buf = 68%nat) as Hl' by done. split.
    + split_and!; cbn [Handshake.reserved Handshake.info_hash Handshake.peer_id];
        unfold InfoHash.wf, PeerId.wf; cbn [InfoHash.as_bytes PeerId.as_bytes];
        by rewrite slice_length by lia.
    + rewrite (handshake_split buf Hl) at 1. by rewrite Ht.
  - intros [(Hr & Hi & Hp) ->]. destruct h as [r [ih] [id]].
    unfold InfoHash.wf, PeerId.wf, SHA1_LEN, PEER_ID_LEN in *; cbn in Hr, Hi, Hp.
    unfold Handshake.layout; cbn [Handshake.reserved Handshake.info_hash Handshake.peer_id
      InfoHash.as_bytes PeerId.as_bytes].
    rewrite decide_True.
    2:{ change HANDSHAKE_LEN with 68%nat. split; [|done]. cbn. rewrite !length_app. lia. }
    do 2 f_equal.
    + apply (slice_mid 20 28 (x13 :: PSTR) r (ih ++ id)); cbn; lia.
    + f_equal. rewrite app_comm_cons, app_assoc.
      apply slice_mid; rewrite length_app; cbn; lia.
    + f_equal. rewrite app_comm_cons, !app_assoc, <-(app_nil_r (_ ++ id)), <-app_assoc.
      apply slice_mid; rewrite !length_app; cbn; lia.
Qed.

(** ** Properties *)

(** The handshake's wire form. Serialising a handshake whose arrays have their
    declared sizes never panics and writes the 68 bytes of the protocol layout;
    [from_bytes] never panics and accepts a buffer exactly when it is that
    layout of some handshake, which it returns; anything else is a protocol
    error. *)
Theorem handshake_roundtrip h buf :
  (Handshake.wf h → Handshake.to_bytes h = Ok (Handshake.layout h) ∧
                    length (Handshake.layout h) = HANDSHAKE_LEN) ∧
  (Handshake.from_bytes buf = Ok h ↔ Handshake.wf h ∧ buf = Handshake.layout h) ∧
  (is_Ok (Handshake.from_bytes buf) ∨ Handshake.from_bytes buf = Err PeerProtocol).
Proof.
  split_and!.
  - intros Hwf. split; [by apply to_bytes_layout|].
    destruct h as [r [ih] [id]]. destruct Hwf as (Hr & Hi & Hp).
    unfold InfoHash.wf, PeerId.wf, SHA1_LEN, PEER_ID_LEN in *; cbn in *. rewrite !length_app. cbn.
    rewrite Hr, Hi, Hp. done.
  - by apply from_bytes_Ok_iff.
  - rewrite handshake_bytes_cases. case_decide; [left; eexists|right]; done.
Qed.

Section connection_properties.
Context {S : Type} `{ByteStream S}.

(** C20: A connection is established only with a peer that speaks the protocol for
    the same torrent: when [connect] succeeds neither deadline passed, exactly
    our handshake was written before anything was read, the peer's 68 bytes were
    a handshake with our info hash, and the reported id is the one in it. Every
    failure is an I/O or a protocol error, never a panic. *)
Theorem connect_checks_torrent (d h : bool) (stream : S) ih id :
  InfoHash.wf ih → PeerId.wf id →
  match connect d (Ok stream) h ih id with
  | Ok (remote_id, stream') =>
      d = false ∧ h = false ∧
      sent stream' = sent stream ++ Handshake.layout (Handshake.new ih id) ∧
      ∃ remote s1, read_exact s1 HANDSHAKE_LEN = (Ok (Handshake.layout remote), stream') ∧
        Handshake.wf remote ∧ Handshake.info_hash remote = ih ∧
        Handshake.peer_id remote = remote_id
  | Err e => e = Io ∨ e = PeerProtocol
  | Panic => False
  end.
Proof.
  intros Hih Hid. unfold connect. destruct d; cbn [timed]; red_result; [by right|].
  unfold handshake. rewrite to_bytes_layout by done.
  destruct (write_all stream (Handshake.layout (Handshake.new ih id))) as [w s1] eqn:Hw.
  destruct (write_all_err _ _ _ _ Hw) as [->| ->]; [|destruct h; cbn; auto].
  apply write_all_spec in Hw.
  destruct (read_exact s1 HANDSHAKE_LEN) as [r s2] eqn:Hr.
  destruct h; cbn [timed]; red_result; [by right|].
  destruct (read_exact_err _ _ _ _ Hr) as [[buf ->]| ->]; red_result; [|by left].
  destruct (read_exact_spec _ _ _ _ Hr) as [_ Hs].
  destruct (Handshake.from_bytes buf) as [remote|e|] eqn:Hf; red_result.
  - apply from_bytes_Ok_iff in Hf as [Hwf ->].
    case_bool_decide as Hi; cbn [negb]; red_result; [|by right].
    split_and!; [done..|by rewrite Hs|]. by exists remote, s1.
  - rewrite handshake_bytes_cases in Hf. case_decide; simplify_eq. by right.
  - rewrite handshake_bytes_cases in Hf. by case_decide.
Qed.
End connection_properties.

(** A generated peer id is 20 bytes: the client prefix, then the generator's
    twelve bytes. *)
Theorem generate_peer_id random :
  length random = 12%nat →
  ∃ id, PeerId.generate random = Ok id ∧ PeerId.wf id ∧
        PeerId.as_bytes id = CLIENT_PREFIX ++ random.
Proof.
  intros Hr. unfold PeerId.generate.
  change (replicate PEER_ID_LEN x00) with ([] ++ replicate 20 x00).
  rewrite copy_next by (cbn; lia). red_result.
  rewrite copy_next; cycle 1; [done|by cbn; rewrite Hr|by cbn; rewrite Hr|].
  red_result. eexists. split; [done|]. unfold PeerId.wf. cbn [PeerId.as_bytes].
  rewrite (drop_ge _ (length random)) by (cbn; lia). rewrite app_nil_r.
  split; [|done]. rewrite length_app, Hr. done.
Qed.

(** ** Witnesses *)

(** A stream over two byte lists: what was written, what is left to read. *)
#[export] Program Instance pair_ByteStream : ByteStream (list byte * list byte) := {|
  sent := fst;
  write_all s bs := (Ok (), (s.1 ++ bs, s.2));
  read_exact s n :=
    if decide (n ≤ length s.2)%nat then (Ok (take n s.2), (s.1, drop n s.2)) else (Err Io, s);
|}.
Next Obligation. naive_solver. Qed.
Next Obligation. naive_solver. Qed.
Next Obligation.
  intros [w r] n bs s' Hs. cbn in Hs. case_decide; simplify_eq. rewrite length_take.
  split; [lia|done].
Qed.
Next Obligation. intros [w r] n r' s' Hs. cbn in Hs. case_decide; simplify_eq; [left; eexists|right]; done. Qed.

Definition sample_hash : InfoHash.t := InfoHash.mk (replicate 20 xaa).
Definition sample_id : PeerId.t := PeerId.mk (replicate 20 xbb).

Lemma connect_checks_torrent_witness :
  is_Ok (connect false (Ok ([] : list byte, Handshake.layout (Handshake.new sample_hash sample_id)))
    false sample_hash sample_id) ∧
  match connect false (Ok ([], Handshake.layout (Handshake.new sample_hash sample_id))) false
    sample_hash sample_id with
  | Ok (remote_id, stream') =>
      false = false ∧ false = false ∧
      sent stream' = [] ++ Handshake.layout (Handshake.new sample_hash sample_id) ∧
      ∃ remote (s1 : list byte * list byte),
        read_exact s1 HANDSHAKE_LEN = (Ok (Handshake.layout remote), stream') ∧
        Handshake.wf remote ∧ Handshake.info_hash remote = sample_hash ∧
        Handshake.peer_id remote = remote_id
  | Err e => e = Io ∨ e = PeerProtocol
  | Panic => False
  end.
Proof.
  split; [eexists; reflexivity|].
  exact (connect_checks_torrent false false
    ([], Handshake.layout (Handshake.new sample_hash sample_id)) sample_hash sample_id
    eq_refl eq_refl).
Defined.

Lemma generate_peer_id_witness :
  ∃ id, PeerId.generate (lit "abcdefghijkl") = Ok id ∧ PeerId.wf id ∧
        PeerId.as_bytes id = CLIENT_PREFIX ++ lit "abcdefghijkl".
Proof. exact (generate_peer_id (lit "abcdefghijkl") eq_refl). Defined.
