(* ===== verification/Pieces.v ===== *)
(** * Piece and block geometry, and piece assembly ([src/download/piece.rs])

    [Geometry] is the size arithmetic of a torrent, with the code's [u32] and
    [u64] operations checked for overflow; [PieceAssembler] collects the blocks
    of one piece. The theorems: [from_info] accepts exactly the consistent
    sizes; pieces tile the content and blocks tile each piece, so every byte
    of the torrent is requested exactly once; every outcome of [add_block]; and
    the blocks of a piece, in any order and with repetitions, assemble it. *)

From S2P Require Export Metainfos Messages.

Definition BLOCK_SIZE : Z := 16 * 1024.

Lemma BLOCK_SIZE_val : BLOCK_SIZE = 16384.
Proof. done. Qed.

#[global] Opaque BLOCK_SIZE.

(** ** Geometry *)

Module Geometry.
Record t : Type := mk {
  total_length : Z;
  nominal_length : Z;
  num_pieces : Z;
  last_piece_length : Z;
}.

#[global] Instance t_eq_dec : EqDecision t.
Proof. solve_decision. Defined.

Definition from_info (info : Info.t) : result t :=
  total_length ← Info.total_length info;
  piece_length ← (if decide (Info.piece_length info < 2 ^ 32)
                  then Ok (Info.piece_length info) else Err PeerProtocol);
  if decide (piece_length = 0) then Err PeerProtocol
  else
    let num_pieces := wrap 32 (Z.of_nat (Info.num_pieces info)) in
    if decide (num_pieces = 0) then Err PeerProtocol
    else
      n ← sub_w num_pieces 1;
      full ← mul_w 64 n piece_length;
      last ← ok_or PeerProtocol (checked_sub total_length full);
      if decide (last = 0 ∨ piece_length < last) then Err PeerProtocol
      else Ok {| total_length := total_length;
                 nominal_length := piece_length;
                 num_pieces := num_pieces;
                 last_piece_length := wrap 32 last |}.

Definition piece_offset (g : t) (index : Z) : result Z := mul_w 64 index (nominal_length g).

Definition piece_length (g : t) (index : Z) : result Z :=
  next ← add_w 32 index 1;
  Ok (if decide (next = num_pieces g) then last_piece_length g else nominal_length g).

Definition num_blocks (g : t) (index : Z) : result Z :=
  len ← piece_length g index;
  Ok (div_ceil len BLOCK_SIZE).

Definition block_info (g : t) (index block_idx : Z) : result BlockInfo.t :=
  piece_len ← piece_length g index;
  begin ← mul_w 32 block_idx BLOCK_SIZE;
  rest ← sub_w piece_len begin;
  Ok (BlockInfo.mk index begin (Z.min BLOCK_SIZE rest)).

(** Consistent sizes. *)
Definition wf (g : t) : Prop :=
  0 < nominal_length g < 2 ^ 32 ∧ 0 < num_pieces g < 2 ^ 32 ∧
  0 < last_piece_length g ≤ nominal_length g ∧
  total_length g = (num_pieces g - 1) * nominal_length g + last_piece_length g.

(** The length of a piece as a number. *)
Definition piece_size (g : t) (index : Z) : Z :=
  if decide (index + 1 = num_pieces g) then last_piece_length g else nominal_length g.

(** Block [k] of piece [i] exists. *)
Definition valid_block (g : t) (i k : Z) : Prop :=
  0 ≤ i < num_pieces g ∧ 0 ≤ k < div_ceil (piece_size g i) BLOCK_SIZE.

(** Block [k] of piece [i] holds the byte at offset [o] of the content. *)
Definition covers (g : t) (i k o : Z) : Prop :=
  ∃ off b, piece_offset g i = Ok off ∧ block_info g i k = Ok b ∧
    off + BlockInfo.begin b ≤ o < off + BlockInfo.begin b + BlockInfo.length b.

(** ** Lemmas *)

Section lemmas.
Context (g : t) (Hwf : wf g).

Lemma piece_size_range i : 0 < piece_size g i ≤ nominal_length g.
Proof using Hwf. unfold piece_size. destruct Hwf as (? & ? & ? & ?). case_decide; lia. Qed.

Lemma piece_length_Ok i : 0 ≤ i < num_pieces g → piece_length g i = Ok (piece_size g i).
Proof using Hwf.
  intros Hi. destruct Hwf as (? & ? & _). unfold piece_length.
  rewrite add_w_Ok by lia. done.
Qed.

Lemma num_blocks_Ok i :
  0 ≤ i < num_pieces g → num_blocks g i = Ok (div_ceil (piece_size g i) BLOCK_SIZE).
Proof using Hwf. intros. unfold num_blocks. by rewrite piece_length_Ok. Qed.

Lemma piece_offset_Ok i :
  0 ≤ i < num_pieces g → piece_offset g i = Ok (i * nominal_length g).
Proof using Hwf.
  intros. destruct Hwf as (? & ? & _). unfold piece_offset. apply mul_w_Ok. nia.
Qed.

Lemma valid_block_begin i k :
  valid_block g i k → 0 ≤ k * BLOCK_SIZE < piece_size g i.
Proof using Hwf.
  intros [Hi [Hk1 Hk2%div_ceil_lt]]; [|by rewrite BLOCK_SIZE_val].
  rewrite BLOCK_SIZE_val in *. lia.
Qed.

Lemma block_info_Ok i k :
  valid_block g i k →
  block_info g i k =
    Ok (BlockInfo.mk i (k * BLOCK_SIZE) (Z.min BLOCK_SIZE (piece_size g i - k * BLOCK_SIZE))).
Proof using Hwf.
  intros Hv. pose proof (valid_block_begin i k Hv) as Hb.
  pose proof (piece_size_range i). destruct Hv as [Hi Hk]. destruct Hwf as (? & _).
  unfold block_info. rewrite piece_length_Ok by done. red_result.
  rewrite mul_w_Ok by lia. red_result. by rewrite sub_w_Ok by lia.
Qed.

(** Every requested block fits its message fields. *)
Lemma block_info_wf i k b :
  valid_block g i k → block_info g i k = Ok b →
  BlockInfo.wf b ∧ BlockInfo.index b = i ∧ BlockInfo.begin b `mod` BLOCK_SIZE = 0 ∧
  1 ≤ BlockInfo.length b ≤ BLOCK_SIZE ∧
  0 ≤ BlockInfo.begin b ∧ BlockInfo.begin b + BlockInfo.length b ≤ piece_size g i.
Proof using Hwf.
  intros Hv. rewrite block_info_Ok by done. intros [= <-].
  pose proof (valid_block_begin i k Hv) as Hb. pose proof (piece_size_range i).
  destruct Hv as [Hi Hk]. destruct Hwf as (? & ? & _).
  unfold BlockInfo.wf, in_word. cbn [BlockInfo.index BlockInfo.begin BlockInfo.length].
  pose proof (Z.mod_mul k BLOCK_SIZE ltac:(by rewrite BLOCK_SIZE_val)).
  rewrite BLOCK_SIZE_val in *. split_and!; lia.
Qed.

Lemma covers_iff i k o :
  valid_block g i k →
  covers g i k o ↔
    i * nominal_length g + k * BLOCK_SIZE ≤ o <
      i * nominal_length g + Z.min ((k + 1) * BLOCK_SIZE) (piece_size g i).
Proof using Hwf.
  intros Hv. unfold covers. rewrite block_info_Ok by done.
  rewrite piece_offset_Ok by apply Hv. split.
  - intros (off & b & [= <-] & [= <-] & Ho); cbn in Ho. lia.
  - intros Ho. do 2 eexists. split_and!; [done..| |]; cbn; lia.
Qed.

(** A piece that is not the last one is full. *)
Lemma piece_size_full i : i + 1 < num_pieces g → piece_size g i = nominal_length g.
Proof. intros. unfold piece_size. rewrite decide_False by lia. done. Qed.

Lemma piece_end_total i :
  0 ≤ i < num_pieces g → i * nominal_length g + piece_size g i ≤ total_length g.
Proof using Hwf.
  intros Hi. destruct Hwf as (? & ? & ? & ->). unfold piece_size. case_decide; nia.
Qed.

Lemma covering_block o :
  0 ≤ o < total_length g →
  let i := o `div` nominal_length g in
  let k := (o `mod` nominal_length g) `div` BLOCK_SIZE in
  valid_block g i k ∧ covers g i k o.
Proof using Hwf.
  intros Ho i k. destruct Hwf as (Hn & Hp & Hl & Ht).
  pose proof (Z.div_mod o (nominal_length g) ltac:(lia)) as Hd. fold i in Hd.
  pose proof (Z.mod_pos_bound o (nominal_length g) ltac:(lia)) as Hm.
  set (r := o `mod` nominal_length g) in *.
  assert (0 ≤ i < num_pieces g) as Hi by (split; nia).
  assert (r < piece_size g i) as Hr.
  { unfold piece_size. case_decide; [nia|lia]. }
  pose proof (Z.div_mod r BLOCK_SIZE ltac:(by rewrite BLOCK_SIZE_val)) as Hdk.
  pose proof (Z.mod_pos_bound r BLOCK_SIZE ltac:(by rewrite BLOCK_SIZE_val)) as Hmk.
  fold k in Hdk. rewrite BLOCK_SIZE_val in Hdk, Hmk.
  assert (valid_block g i k) as Hv.
  { split; [done|]. split; [lia|].
    apply div_ceil_lt; rewrite ?BLOCK_SIZE_val; lia. }
  split; [done|]. apply covers_iff; [done|]. rewrite BLOCK_SIZE_val. lia.
Qed.

Lemma covers_unique i k o :
  valid_block g i k → covers g i k o →
  0 ≤ o < total_length g ∧ i = o `div` nominal_length g ∧
  k = (o `mod` nominal_length g) `div` BLOCK_SIZE.
Proof using Hwf.
  intros Hv Hc. apply covers_iff in Hc; [|done].
  pose proof (valid_block_begin i k Hv) as Hb.
  pose proof (piece_size_range i). destruct Hv as [Hi Hk].
  pose proof (piece_end_total i Hi). destruct Hwf as (Hn & _).
  split; [nia|].
  assert (i = o `div` nominal_length g) as Hii.
  { apply (Z.div_unique o _ _ (o - i * nominal_length g)); [lia|ring]. }
  split; [done|].
  assert (o `mod` nominal_length g = o - i * nominal_length g) as ->.
  { symmetry. apply (Z.mod_unique _ _ i); [lia|ring]. }
  rewrite BLOCK_SIZE_val in *.
  apply (Z.div_unique _ _ _ (o - i * nominal_length g - k * 16384)); lia.
Qed.
End lemmas.
End Geometry.

Lemma total_length_word info n :
  Info.wf info → Info.total_length info = Ok n → in_word 64 n.
Proof.
  intros (_ & _ & Hl & Hfs). unfold Info.total_length, Info.layout.
  destruct (Info.length info) as [l|], (Info.files info) as [fs|]; try done; red_result.
  - intros [= <-]. by apply Hl.
  - rewrite sum_lengths_spec by (by apply Hfs). case_decide; [|done]. intros [= <-].
    split; [apply sum_of_lengths_nonneg; by apply Hfs|done].
Qed.

(** The sizes a geometry must have for a given torrent. *)
Definition sizes_of (info : Info.t) (g : Geometry.t) : Prop :=
  Info.total_length info = Ok (Geometry.total_length g) ∧
  Info.piece_length info = Geometry.nominal_length g ∧
  wrap 32 (Z.of_nat (Info.num_pieces info)) = Geometry.num_pieces g.

Lemma from_info_cases info :
  Info.wf info →
  match Geometry.from_info info with
  | Ok g => Geometry.wf g ∧ sizes_of info g
  | Err e => Info.total_length info = Err e ∨
             e = PeerProtocol ∧ ∀ g, Geometry.wf g → ¬ sizes_of info g
  | Panic => Info.total_length info = Panic
  end.
Proof.
  intros Hwf. pose proof (total_length_word info) as Ht. pose proof Hwf as ([Hp0 _] & _).
  unfold Geometry.from_info.
  destruct (Info.total_length info) as [total|e|] eqn:Htot; red_result; [|by left|done].
  specialize (Ht total Hwf eq_refl). unfold sizes_of, Geometry.wf in *.
  destruct (decide (Info.piece_length info < 2 ^ 32)) as [Hpl|Hpl]; red_result.
  2:{ right. split; [done|]. intros g Hg (_ & ? & _). lia. }
  destruct (decide (Info.piece_length info = 0)) as [Hz|Hz]; [right; split; [done|]; intros g Hg (_ & ? & _); lia|].
  pose proof (wrap_range 32 (Z.of_nat (Info.num_pieces info)) ltac:(lia)) as Hn.
  set (n := wrap 32 _) in *. unfold in_word in Hn, Ht.
  destruct (decide (n = 0)) as [Hn0|Hn0]; [right; split; [done|]; intros g Hg (_ & _ & ?); lia|].
  rewrite sub_w_Ok by lia. red_result. rewrite mul_w_Ok by nia. red_result.
  destruct (checked_sub total _) as [last|] eqn:Hs; red_result.
  2:{ apply checked_sub_None in Hs. right. split; [done|].
      intros g (? & ? & ? & Hg) (Htg & Hpg & Hng). rewrite Htot in Htg; injection Htg as Htg. rewrite <-Hpg, <-Hng, <-Htg in Hg. lia. }
  apply checked_sub_Some in Hs as [-> Hs].
  case_decide as Hlast.
  - right. split; [done|].
    intros g (? & ? & ? & Hg) (Htg & Hpg & Hng). rewrite Htot in Htg; injection Htg as Htg. rewrite <-Hpg, <-Hng, <-Htg in *. lia.
  - cbn [Geometry.total_length Geometry.nominal_length Geometry.num_pieces
      Geometry.last_piece_length].
    rewrite wrap_small by (unfold in_word; lia). split_and!; try done; lia.
Qed.

(** [from_info] accepts exactly the torrents whose sizes are consistent. It
    returns the one consistent geometry with the torrent's total length, piece
    length and (as a [u32]) piece count; it fails with the layout's error, or
    with a protocol error when no consistent geometry has these sizes; and it
    panics only where summing the file lengths does. *)
Theorem from_info_spec info :
  Info.wf info →
  match Geometry.from_info info with
  | Ok g => Geometry.wf g ∧ sizes_of info g
  | Err e => Info.total_length info = Err e ∨
             e = PeerProtocol ∧ ∀ g, Geometry.wf g → ¬ sizes_of info g
  | Panic => Info.total_length info = Panic
  end.
Proof. apply from_info_cases. Qed.

(** C15: Pieces tile the content and blocks tile the pieces. In a consistent
    geometry the numbers of every existing block are computed without overflow
    and fit the request's [u32] fields; the block is aligned, has between 1 and
    16384 bytes and lies inside its piece and the content; and every byte of
    the content lies in exactly one block of one piece. *)
Theorem blocks_tile_content g :
  Geometry.wf g →
  (∀ i k, Geometry.valid_block g i k → ∃ off n b,
     Geometry.piece_offset g i = Ok off ∧ Geometry.num_blocks g i = Ok n ∧ k < n ∧
     Geometry.block_info g i k = Ok b ∧ BlockInfo.wf b ∧ BlockInfo.index b = i ∧
     BlockInfo.begin b `mod` BLOCK_SIZE = 0 ∧ 1 ≤ BlockInfo.length b ≤ 16384 ∧
     off + BlockInfo.begin b + BlockInfo.length b ≤ Geometry.total_length g) ∧
  (∀ o, 0 ≤ o < Geometry.total_length g →
     ∃ i k, Geometry.valid_block g i k ∧ Geometry.covers g i k o ∧
       ∀ i' k', Geometry.valid_block g i' k' → Geometry.covers g i' k' o → i' = i ∧ k' = k).
Proof.
  intros Hwf. split.
  - intros i k Hv.
    pose proof (Geometry.block_info_Ok g Hwf i k Hv) as Hb.
    pose proof (Geometry.block_info_wf g Hwf i k _ Hv Hb) as (Hbw & Hbi & Hba & Hbl & _ & Hbe).
    pose proof (Geometry.piece_end_total g Hwf i (proj1 Hv)).
    do 3 eexists. split; [by apply Geometry.piece_offset_Ok, Hv|].
    split; [by apply Geometry.num_blocks_Ok, Hv|]. split; [by apply Hv|].
    split; [exact Hb|]. rewrite BLOCK_SIZE_val in *. split_and!; try done; lia.
  - intros o Ho. destruct (Geometry.covering_block g Hwf o Ho) as [Hv Hc].
    do 2 eexists. split; [exact Hv|]. split; [exact Hc|].
    intros i' k' Hv' Hc'. by apply (Geometry.covers_unique g Hwf) in Hc' as (_ & -> & ->).
Qed.

(** ** Piece assembly *)

Module PieceAssembler.
Record t : Type := mk {
  index : Z;
  length : Z;
  buf : list byte;
  received : list bool;
  remaining : Z;
}.

#[global] Instance t_eq_dec : EqDecision t.
Proof. solve_decision. Defined.

Definition new (index length : Z) : t :=
  let num_blocks := div_ceil length BLOCK_SIZE in
  {| index := index; length := length;
     buf := replicate (Z.to_nat length) x00;
     received := replicate (Z.to_nat num_blocks) false;
     remaining := num_blocks |}.

(** On an error the assembler is unchanged. *)
Definition add_block (a : t) (begin : Z) (data : list byte) : result t :=
  if negb (begin `mod` BLOCK_SIZE =? 0) then Err PeerProtocol
  else
    end_ ← ok_or PeerProtocol
      (e ← checked_add 32 begin (wrap 32 (Z.of_nat (Datatypes.length data)));
       if e <=? length a then Some e else None);
    let block_idx := begin `div` BLOCK_SIZE in
    buf ← copy_from_slice (Z.to_nat begin) (Z.to_nat end_) data (buf a);
    r ← expect (received a !! Z.to_nat block_idx);
    if negb r then
      rem ← sub_w (remaining a) 1;
      Ok {| index := index a; length := length a; buf := buf;
            received := <[Z.to_nat block_idx := true]> (received a); remaining := rem |}
    else
      Ok {| index := index a; length := length a; buf := buf;
            received := received a; remaining := remaining a |}.

Definition is_complete (a : t) : bool := remaining a =? 0.
Definition data (a : t) : list byte := buf a.
Definition into_bytes (a : t) : list byte := buf a.

(** The blocks not yet received. *)
Definition missing (r : list bool) : nat := Datatypes.length (filter (λ b, b = false) r).

Definition wf (a : t) : Prop :=
  in_word 32 (length a) ∧ Datatypes.length (buf a) = Z.to_nat (length a) ∧
  Datatypes.length (received a) = Z.to_nat (div_ceil (length a) BLOCK_SIZE) ∧
  remaining a = Z.of_nat (missing (received a)).

(** The state after a block that fits was copied. *)
Definition stored (a : t) (begin : Z) (bs : list byte) : t :=
  let k := Z.to_nat (begin `div` BLOCK_SIZE) in
  {| index := index a; length := length a;
     buf := splice (Z.to_nat begin) bs (buf a);
     received := <[k := true]> (received a);
     remaining := Z.of_nat (missing (<[k := true]> (received a))) |}.

Lemma missing_insert r k :
  r !! k = Some false → missing r = S (missing (<[k := true]> r)).
Proof.
  intros Hk. unfold missing. pose proof (lookup_lt_Some _ _ _ Hk) as Hlt.
  rewrite insert_take_drop by done. rewrite <-(take_drop_middle r k false Hk) at 1.
  rewrite !filter_app, !length_app, !filter_cons.
  rewrite decide_True, decide_False by done. cbn. lia.
Qed.

Lemma missing_zero r : missing r = 0%nat ↔ ∀ k b, r !! k = Some b → b = true.
Proof.
  unfold missing. induction r as [|b r IH]; [done|].
  rewrite filter_cons. case_decide as Hb; cbn [Datatypes.length].
  - split; [done|]. intros Hall. subst b. by specialize (Hall 0%nat false eq_refl).
  - rewrite IH. split.
    + intros Hall [|k] c; cbn; [|apply Hall]. intros [= <-]. by destruct b.
    + intros Hall k c Hk. by apply (Hall (S k) c).
Qed.

Lemma missing_none n : missing (replicate n false) = n.
Proof.
  unfold missing. induction n as [|n IH]; [done|].
  cbn [replicate]. rewrite filter_cons, decide_True by done. cbn. by rewrite IH.
Qed.

Lemma empty_wf i n : in_word 32 n → wf (new i n).
Proof.
  intros Hn. split; [done|]. split_and!; [apply length_replicate..|]. unfold new.
  pose proof (div_ceil_spec n BLOCK_SIZE ltac:(apply Hn) ltac:(by rewrite BLOCK_SIZE_val)).
  cbn [remaining received]. rewrite missing_none. lia.
Qed.

Lemma stored_wf a begin bs :
  wf a → 0 ≤ begin → begin + Z.of_nat (Datatypes.length bs) ≤ length a → wf (stored a begin bs).
Proof.
  intros (Hl & Hb & Hr & Hm) H0 Hle. unfold in_word in Hl. split; [done|]. cbn.
  rewrite splice_length by lia. rewrite length_insert. done.
Qed.

(** The block index of an aligned offset inside the piece. *)
Lemma block_index_lt a begin :
  wf a → 0 ≤ begin < length a → begin `mod` BLOCK_SIZE = 0 →
  (Z.to_nat (begin `div` BLOCK_SIZE) < Datatypes.length (received a))%nat.
Proof.
  intros (Hl & _ & Hr & _) Hb Hal. rewrite Hr.
  pose proof (Z.div_mod begin BLOCK_SIZE ltac:(by rewrite BLOCK_SIZE_val)) as Hd.
  pose proof (div_ceil_lt (length a) BLOCK_SIZE (begin `div` BLOCK_SIZE)
    ltac:(by rewrite BLOCK_SIZE_val)) as [_ Hc].
  rewrite BLOCK_SIZE_val in *. lia.
Qed.

(** A block that fits: stored, unless its flag is out of bounds. *)
Lemma add_block_fits a begin bs :
  wf a → 0 ≤ begin → begin `mod` BLOCK_SIZE = 0 →
  begin + Z.of_nat (Datatypes.length bs) ≤ length a →
  add_block a begin bs =
    (if decide (begin = length a) then Panic else Ok (stored a begin bs)).
Proof.
  intros Hwf H0 Hal Hle. pose proof Hwf as (Hl & Hb & Hr & Hm). unfold in_word in Hl.
  unfold add_block. rewrite Hal. cbn [Z.eqb negb].
  rewrite wrap_small by (unfold in_word; lia).
  unfold checked_add. rewrite (proj2 (Z.ltb_lt _ _)) by lia. red_result.
  rewrite (proj2 (Z.leb_le _ _)) by lia. red_result.
  rewrite copy_from_slice_Ok by lia. red_result.
  case_decide as Heq.
  - subst begin. rewrite lookup_ge_None_2; [done|]. rewrite Hr.
    pose proof (Z.div_mod (length a) BLOCK_SIZE ltac:(by rewrite BLOCK_SIZE_val)) as Hd.
    unfold div_ceil. rewrite BLOCK_SIZE_val in *.
    replace (length a + 16384 - 1) with (length a `div` 16384 * 16384 + 16383) by lia.
    rewrite Z.div_add_l by lia. change (16383 `div` 16384) with 0. lia.
  - destruct (lookup_lt_is_Some_2 (received a) (Z.to_nat (begin `div` BLOCK_SIZE)))
      as [r Hk]; [apply block_index_lt; lia || done|].
    rewrite Hk. red_result. unfold stored. destruct r; cbn [negb].
    + rewrite list_insert_id by done. by rewrite <-Hm.
    + rewrite Hm, (missing_insert _ _ Hk). rewrite sub_w_Ok by lia. red_result.
      do 2 f_equal. lia.
Qed.

Lemma add_block_rejects a begin bs :
  wf a → 0 ≤ begin → Z.of_nat (Datatypes.length bs) < 2 ^ 32 →
  begin `mod` BLOCK_SIZE ≠ 0 ∨ length a < begin + Z.of_nat (Datatypes.length bs) →
  add_block a begin bs = Err PeerProtocol.
Proof.
  intros (Hl & _) H0 Hb Hrej. unfold in_word in Hl. unfold add_block.
  destruct (Z.eqb_spec (begin `mod` BLOCK_SIZE) 0); cbn [negb]; [|done].
  rewrite wrap_small by (unfold in_word; lia). unfold checked_add.
  destruct (Z.ltb_spec (begin + Z.of_nat (Datatypes.length bs)) (2 ^ 32)); [|done].
  red_result. rewrite (proj2 (Z.leb_gt _ _)) by lia. done.
Qed.
Lemma add_block_Ok a begin bs a' :
  wf a → 0 ≤ begin → Z.of_nat (Datatypes.length bs) < 2 ^ 32 → add_block a begin bs = Ok a' →
  a' = stored a begin bs ∧ wf a'.
Proof.
  intros Hwf H0 Hbs Hadd.
  destruct (decide (begin `mod` BLOCK_SIZE ≠ 0 ∨
    length a < begin + Z.of_nat (Datatypes.length bs))) as [Hrej|Hrej].
  { rewrite add_block_rejects in Hadd by done. done. }
  apply Decidable.not_or in Hrej as [Hal Hle].
  rewrite add_block_fits in Hadd by (done || lia). case_decide; [done|]. injection Hadd as <-.
  split; [done|]. apply stored_wf; [done|done|lia].
Qed.
End PieceAssembler.

(** Every outcome of [add_block]. A block whose offset is not a multiple of
    16384, or that ends past the piece, is a protocol error; any other is
    copied into place and marked received, counted down only if it was missing,
    and the representation invariant is kept - except that an empty block at an
    offset equal to the piece length, which passes the checks when that length
    is a multiple of 16384, indexes past the block flags and panics. *)
Theorem add_block_branches a begin bs :
  PieceAssembler.wf a → 0 ≤ begin → Z.of_nat (length bs) < 2 ^ 32 →
  if decide (begin `mod` BLOCK_SIZE ≠ 0 ∨
             PieceAssembler.length a < begin + Z.of_nat (length bs))
  then PieceAssembler.add_block a begin bs = Err PeerProtocol
  else if decide (begin = PieceAssembler.length a)
  then bs = [] ∧ PieceAssembler.add_block a begin bs = Panic
  else
    let k := Z.to_nat (begin `div` BLOCK_SIZE) in
    ∃ a', PieceAssembler.add_block a begin bs = Ok a' ∧ PieceAssembler.wf a' ∧
      PieceAssembler.index a' = PieceAssembler.index a ∧
      PieceAssembler.length a' = PieceAssembler.length a ∧
      PieceAssembler.buf a' = splice (Z.to_nat begin) bs (PieceAssembler.buf a) ∧
      PieceAssembler.received a' !! k = Some true ∧
      (∀ j, j ≠ k → PieceAssembler.received a' !! j = PieceAssembler.received a !! j) ∧
      PieceAssembler.remaining a' = PieceAssembler.remaining a -
        (if decide (PieceAssembler.received a !! k = Some false) then 1 else 0).
Proof.
  intros Hwf H0 Hbs. case_decide as Hrej; [by apply PieceAssembler.add_block_rejects|].
  apply Decidable.not_or in Hrej as [Hal Hle].
  assert (begin `mod` BLOCK_SIZE = 0) as Hal' by lia. clear Hal.
  pose proof (PieceAssembler.add_block_fits a begin bs Hwf H0 Hal' ltac:(lia)) as Hadd.
  case_decide as Heq.
  { split; [apply nil_length_inv; lia|done]. }
  assert (Hlt := PieceAssembler.block_index_lt a begin Hwf ltac:(lia) Hal').
  intros k. eexists. split; [exact Hadd|].
  split; [apply PieceAssembler.stored_wf; done || lia|].
  split; [done|]. split; [done|]. split; [done|]. cbn. fold k in Hlt |- *.
  split; [by apply list_lookup_insert_eq|].
  split; [intros; by apply list_lookup_insert_ne|].
  destruct Hwf as (_ & _ & _ & ->).
  destruct (PieceAssembler.received a !! k) as [[]|] eqn:Hk;
    [rewrite decide_False by done|rewrite decide_True by done|].
  - rewrite list_insert_id by done. lia.
  - rewrite (PieceAssembler.missing_insert _ _ Hk). lia.
  - apply lookup_ge_None in Hk. lia.
Qed.

Section assembly.
Context (g : Geometry.t) (i : Z) (piece : list byte).
Context (Hg : Geometry.wf g) (Hi : 0 ≤ i < Geometry.num_pieces g).
Context (Hpiece : Z.of_nat (length piece) = Geometry.piece_size g i).

(** The bytes a correct peer answers a request with. *)
Definition block_data (b : BlockInfo.t) : list byte :=
  slice (Z.to_nat (BlockInfo.begin b)) (Z.to_nat (BlockInfo.begin b + BlockInfo.length b)) piece.

Definition deliver (a : PieceAssembler.t) (k : Z) : result PieceAssembler.t :=
  b ← Geometry.block_info g i k;
  PieceAssembler.add_block a (BlockInfo.begin b) (block_data b).

(** After the blocks [ks], the flags are those of [ks] and every flagged byte is
    the piece's. *)
Definition assembled (ks : list Z) (a : PieceAssembler.t) : Prop :=
  PieceAssembler.wf a ∧ PieceAssembler.length a = Geometry.piece_size g i ∧
  (∀ k : nat, PieceAssembler.received a !! k = Some true ↔ Z.of_nat k ∈ ks) ∧
  (∀ o : nat, PieceAssembler.received a !! Z.to_nat (Z.of_nat o `div` BLOCK_SIZE) = Some true →
     PieceAssembler.buf a !! o = piece !! o).

Lemma new_assembled : assembled [] (PieceAssembler.new i (Geometry.piece_size g i)).
Proof using Hg.
  pose proof (Geometry.piece_size_range g Hg i). destruct Hg as (? & _).
  split; [apply PieceAssembler.empty_wf; unfold in_word; lia|]. split; [done|]. cbn.
  split; [|intros o Ho; by apply lookup_replicate_1 in Ho as [? _]].
  intros k. split; [intros Hk; by apply lookup_replicate_1 in Hk as [? _]|by intros ?%not_elem_of_nil].
Qed.

Lemma deliver_assembled ks a k :
  Geometry.valid_block g i k → assembled ks a →
  ∃ a', deliver a k = Ok a' ∧ assembled (k :: ks) a'.
Proof using Hg Hi Hpiece.
  intros Hv (Hwf & Hl & Hr & Hb). unfold deliver.
  pose proof (Geometry.block_info_Ok g Hg i k Hv) as Hbi.
  destruct (Geometry.block_info_wf g Hg i k _ Hv Hbi) as (_ & _ & Hal & Hbl & Hb0 & Hbe).
  rewrite Hbi. red_result. unfold block_data.
  cbn [BlockInfo.index BlockInfo.begin BlockInfo.length] in *.
  set (n := Z.min BLOCK_SIZE (Geometry.piece_size g i - k * BLOCK_SIZE)) in *.
  set (bs := slice _ _ _).
  assert (Z.of_nat (length bs) = n) as Hbs by (unfold bs; rewrite slice_length; lia).
  rewrite PieceAssembler.add_block_fits by (done || lia).
  rewrite decide_False by lia. eexists. split; [done|].
  assert ((k * BLOCK_SIZE) `div` BLOCK_SIZE = k) as Hk by (apply Z.div_mul; by rewrite BLOCK_SIZE_val).
  pose proof (PieceAssembler.block_index_lt a (k * BLOCK_SIZE) Hwf ltac:(lia) Hal) as Hlt.
  rewrite Hk in Hlt. destruct Hv as [_ Hk0].
  split; [apply PieceAssembler.stored_wf; done || lia|]. split; [done|]. cbn. rewrite Hk.
  split.
  - intros j. rewrite elem_of_cons, <-Hr. destruct (decide (j = Z.to_nat k)) as [->|Hne].
    + rewrite list_lookup_insert_eq by done. split; [left; lia|done].
    + rewrite list_lookup_insert_ne by done. naive_solver lia.
  - intros o Ho.
    rewrite splice_lookup by (destruct Hwf as (_ & -> & _); lia).
    case_decide as Hin.
    + unfold bs. rewrite slice_lookup by lia. f_equal. lia.
    + destruct (decide (Z.to_nat (Z.of_nat o `div` BLOCK_SIZE) = Z.to_nat k)) as [Heq|Hne];
        [|apply Hb; by rewrite list_lookup_insert_ne in Ho].
      pose proof (Z.div_mod (Z.of_nat o) BLOCK_SIZE ltac:(by rewrite BLOCK_SIZE_val)) as Hd.
      pose proof (Z.mod_pos_bound (Z.of_nat o) BLOCK_SIZE ltac:(by rewrite BLOCK_SIZE_val)) as Hm.
      assert (0 ≤ Z.of_nat o `div` BLOCK_SIZE) by (apply Z.div_pos; rewrite ?BLOCK_SIZE_val; lia).
      replace (Z.of_nat o `div` BLOCK_SIZE) with k in Hd by lia.
      assert (Z.to_nat (Geometry.piece_size g i) ≤ o)%nat as Hge.
      { clearbody bs. subst n. rewrite BLOCK_SIZE_val in *. lia. }
      destruct Hwf as (_ & Hlb & _). by rewrite !lookup_ge_None_2 by lia.
Qed.

Lemma deliver_all ks ks0 a :
  Forall (Geometry.valid_block g i) ks → assembled ks0 a →
  ∃ a', fold_result deliver a ks = Ok a' ∧ assembled (reverse ks ++ ks0) a'.
Proof using Hg Hi Hpiece.
  intros Hks. revert ks0 a. induction Hks as [|k ks Hk _ IH]; intros ks0 a Ha; [eauto|].
  cbn [fold_result]. destruct (deliver_assembled ks0 a k Hk Ha) as (a1 & -> & Ha1). red_result.
  destruct (IH _ _ Ha1) as (a2 & -> & Ha2). exists a2. split; [done|].
  by rewrite reverse_cons, <-app_assoc.
Qed.

Lemma assembled_complete ks a :
  assembled ks a →
  (PieceAssembler.is_complete a = true ↔ ∀ k, Geometry.valid_block g i k → k ∈ ks) ∧
  (PieceAssembler.is_complete a = true → PieceAssembler.into_bytes a = piece).
Proof using Hg Hi Hpiece.
  intros (Hwf & Hl & Hr & Hb). pose proof Hwf as (_ & Hbuf & Hlen & Hm).
  unfold PieceAssembler.is_complete. rewrite Z.eqb_eq, Hm.
  assert (Z.of_nat (PieceAssembler.missing (PieceAssembler.received a)) = 0 ↔
    ∀ k, (k < length (PieceAssembler.received a))%nat →
      PieceAssembler.received a !! k = Some true) as ->.
  { rewrite (Nat2Z.inj_iff _ 0), PieceAssembler.missing_zero. split.
    - intros Hall k [b Hk]%lookup_lt_is_Some_2. by rewrite Hk, (Hall _ _ Hk).
    - intros Hall k b Hk. rewrite Hall in Hk by (by eapply lookup_lt_Some). by injection Hk. }
  rewrite Hlen, Hl. split.
  - split.
    + intros Hall k [_ Hk]. rewrite <-(Z2Nat.id k) by lia. apply Hr, Hall. lia.
    + intros Hall k Hk. apply Hr, Hall. split; [done|lia].
  - intros Hall. apply list_eq. intros o.
    destruct (decide (Z.of_nat o < Geometry.piece_size g i)) as [Ho|Ho].
    + apply Hb, Hall.
      pose proof (div_ceil_lt (Geometry.piece_size g i) BLOCK_SIZE (Z.of_nat o `div` BLOCK_SIZE)
        ltac:(by rewrite BLOCK_SIZE_val)) as [_ Hc].
      specialize (Hc ltac:(pose proof (Z.mul_div_le (Z.of_nat o) BLOCK_SIZE
        ltac:(by rewrite BLOCK_SIZE_val)); lia)).
      assert (0 ≤ Z.of_nat o `div` BLOCK_SIZE) by (apply Z.div_pos; rewrite ?BLOCK_SIZE_val; lia).
      lia.
    + unfold PieceAssembler.into_bytes. rewrite !lookup_ge_None_2 by lia. done.
Qed.
End assembly.

(** C16: Blocks assemble a piece in any order. When a peer answers requests for
    existing blocks of a piece with the piece's bytes, in any order and with
    any repetitions, no delivery fails, the assembler is complete exactly when
    every block of the piece was delivered, and then it yields the piece. *)
Theorem any_order_assembles g i piece ks :
  Geometry.wf g → 0 ≤ i < Geometry.num_pieces g →
  Z.of_nat (length piece) = Geometry.piece_size g i →
  Forall (Geometry.valid_block g i) ks →
  ∃ a, fold_result (deliver g i piece) (PieceAssembler.new i (Geometry.piece_size g i)) ks = Ok a ∧
    (PieceAssembler.is_complete a = true ↔ ∀ k, Geometry.valid_block g i k → k ∈ ks) ∧
    (PieceAssembler.is_complete a = true → PieceAssembler.into_bytes a = piece).
Proof.
  intros Hg Hi Hp Hks.
  destruct (deliver_all g i piece Hg Hi Hp ks [] _ Hks (new_assembled g i piece Hg)) as (a & Ha & Has).
  exists a. split; [done|].
  destruct (assembled_complete g i piece Hg Hi Hp _ _ Has) as [Hc Hd]. split; [|done].
  rewrite Hc, app_nil_r. by setoid_rewrite elem_of_reverse.
Qed.

(** ** Witnesses *)

(** Two pieces of 20000 bytes nominal length, the last one of 7. *)
Definition sample_geometry : Geometry.t := Geometry.mk 20007 20000 2 7.

Lemma sample_geometry_wf : Geometry.wf sample_geometry.
Proof. unfold Geometry.wf; cbn; lia. Qed.

Lemma from_info_spec_witness :
  Geometry.from_info sample_info = Err PeerProtocol ∧
  ∀ g, Geometry.wf g → ¬ sizes_of sample_info g.
Proof.
  assert (Info.wf sample_info) as Hwf.
  { split_and!; [split; vm_compute; congruence|vm_compute; reflexivity|done|].
    intros fs [= <-]. repeat constructor; vm_compute; congruence. }
  split; [reflexivity|].
  destruct (from_info_spec sample_info Hwf) as [Hd|[_ Hn]]; [discriminate Hd|exact Hn].
Defined.

Lemma blocks_tile_content_witness :
  ∃ i k, Geometry.valid_block sample_geometry i k ∧ Geometry.covers sample_geometry i k 20006.
Proof.
  destruct (blocks_tile_content sample_geometry sample_geometry_wf) as [_ Ht].
  destruct (Ht 20006 ltac:(cbn; lia)) as (i & k & Hv & Hc & _). exists i, k. split; [exact Hv|exact Hc].
Defined.

(** The piece of one full block, and the empty block that follows it. *)
Lemma add_block_branches_witness :
  PieceAssembler.add_block (PieceAssembler.new 0 16384) 16384 [] = Panic.
Proof.
  pose proof (add_block_branches (PieceAssembler.new 0 16384) 16384 []
    (PieceAssembler.empty_wf 0 16384 ltac:(unfold in_word; lia)) ltac:(lia) ltac:(cbn; lia)) as Hb.
  rewrite decide_False in Hb by
    (rewrite BLOCK_SIZE_val; change (16384 `mod` 16384) with 0;
     cbn [PieceAssembler.length PieceAssembler.new length]; lia).
  rewrite decide_True in Hb by reflexivity. exact (proj2 Hb).
Defined.

Lemma any_order_assembles_witness :
  ∃ a, fold_result (deliver sample_geometry 0 (replicate (Z.to_nat 20000) x07))
         (PieceAssembler.new 0 20000) [1; 0; 1] = Ok a ∧
       PieceAssembler.is_complete a = true ∧
       PieceAssembler.into_bytes a = replicate (Z.to_nat 20000) x07.
Proof.
  assert (∀ k, Geometry.valid_block sample_geometry 0 k ↔ k = 0 ∨ k = 1) as Hv.
  { intros k. unfold Geometry.valid_block, div_ceil. rewrite BLOCK_SIZE_val.
    change (Geometry.piece_size sample_geometry 0) with 20000.
    change ((20000 + 16384 - 1) `div` 16384) with 2.
    cbn [Geometry.num_pieces sample_geometry]. lia. }
  destruct (any_order_assembles sample_geometry 0 (replicate (Z.to_nat 20000) x07) [1; 0; 1])
    as (a & Ha & Hc & Hd).
  - apply sample_geometry_wf.
  - cbn; lia.
  - rewrite length_replicate. reflexivity.
  - rewrite !Forall_cons, !Hv. split_and!; auto.
  - exists a. split; [exact Ha|].
    assert (PieceAssembler.is_complete a = true) as Hcomp.
    { apply Hc. intros k [->| ->]%Hv; rewrite !elem_of_cons; auto. }
    auto.
Defined.
