(* ===== verification/States.v ===== *)
(** * The shared piece tracker ([src/download/state.rs])

    [PieceTracker]: which pieces we have, how common each piece is among the
    connected peers, and which pieces some peer has claimed. It is parametric
    in the bitfield implementation ([PieceSet]) and the digest ([Sha1]). The
    theorems: selection is exactly rarest-first with the lowest index winning
    ties; a claim is exclusive until it is released; verified pieces are never
    selected again; bitfield availability can be undone; every operation keeps
    the invariant and none panics while the counts fit in 32 bits. *)

From S2P Require Export Bitfields Metainfos.

Module PieceTracker.
Section tracker.
Context {B : Type} `{PieceSet B} `{Sha1}.

Record t : Type := mk {
  piece_hashes : list (list byte);
  have : B;
  availability : list Z;
  claimed : list bool;
}.

(** ** Operations *)

Definition from_info (info : Info.t) : result t :=
  hashes ← Info.piece_hashes info;
  let n := length hashes in
  Ok {| piece_hashes := hashes; have := ps_new n;
        availability := replicate n 0; claimed := replicate n false |}.

Definition num_pieces (s : t) : nat := length (piece_hashes s).
Definition is_complete (s : t) : bool := ps_is_complete (have s).
Definition have_bitfield (s : t) : B := have s.
Definition has (s : t) (index : Z) : bool := ps_has (have s) (Z.to_nat index).

Definition set_availability (s : t) (av : list Z) : t :=
  {| piece_hashes := piece_hashes s; have := have s; availability := av; claimed := claimed s |}.

Definition set_claimed (s : t) (c : list bool) : t :=
  {| piece_hashes := piece_hashes s; have := have s; availability := availability s; claimed := c |}.

Definition add_availability (s : t) (index : nat) : result t :=
  if decide (index < length (availability s))%nat then
    a ← expect (availability s !! index);
    a' ← add_w 32 a 1;
    Ok (set_availability s (<[index := a']> (availability s)))
  else Ok s.

(** The loop [for i in 0..availability.len()], entry by entry. *)
Definition add_bitfield_availability (s : t) (bf : B) : result t :=
  av ← map_result id (imap (λ i a, if ps_has bf i then add_w 32 a 1 else Ok a) (availability s));
  Ok (set_availability s av).

Definition remove_bitfield_availability (s : t) (bf : B) : t :=
  set_availability s
    (imap (λ i a, if ps_has bf i then saturating_sub a 1 else a) (availability s)).

(** One iteration of the selection loop; [best] is (availability, index). *)
Definition consider (s : t) (peer_has : B) (skip_claimed : bool)
    (best : option (Z * Z)) (i : nat) : result (option (Z * Z)) :=
  c ← (if ps_has (have s) i || negb (ps_has peer_has i) then Ok true
       else if skip_claimed then expect (claimed s !! i) else Ok false);
  if (c : bool) then Ok best
  else
    avail ← expect (availability s !! i);
    if match best with None => true | Some (b, _) => avail <? b end
    then Ok (Some (avail, wrap 32 (Z.of_nat i)))
    else Ok best.

Definition rarest_needed (s : t) (peer_has : B) (skip_claimed : bool) : result (option Z) :=
  best ← fold_result (consider s peer_has skip_claimed) None (seq 0 (num_pieces s));
  Ok (option_map snd best).

Definition reserve_piece (s : t) (peer_has : B) : result (option Z * t) :=
  r ← rarest_needed s peer_has true;
  match r with
  | None => Ok (None, s)
  | Some index =>
      _ ← expect (claimed s !! Z.to_nat index);
      Ok (Some index, set_claimed s (<[Z.to_nat index := true]> (claimed s)))
  end.

Definition reserve_piece_endgame (s : t) (peer_has : B) : result (option Z) :=
  rarest_needed s peer_has false.

(** [get_mut]: an index out of range is ignored. *)
Definition release_piece (s : t) (index : Z) : t :=
  set_claimed s (<[Z.to_nat index := false]> (claimed s)).

Definition verify (s : t) (index : Z) (data : list byte) : bool :=
  match piece_hashes s !! Z.to_nat index with
  | Some expected => bool_decide (sha1 data = expected)
  | None => false
  end.

Definition mark_have (s : t) (index : Z) : t :=
  release_piece
    {| piece_hashes := piece_hashes s; have := ps_set (have s) (Z.to_nat index);
       availability := availability s; claimed := claimed s |} index.

(** ** Invariant and candidates *)

(** Equal lengths, and a piece count that a [u32] index can address. *)
Definition wf (s : t) : Prop :=
  ps_wf (have s) ∧ ps_num (have s) = num_pieces s ∧
  length (availability s) = num_pieces s ∧ length (claimed s) = num_pieces s ∧
  Z.of_nat (num_pieces s) < 2 ^ 32 ∧
  Forall (in_word 32) (availability s).

(** A piece we need and the peer has, unclaimed when [skip] is set. *)
Definition candidate (s : t) (peer_has : B) (skip : bool) (i : nat) : Prop :=
  (i < num_pieces s)%nat ∧ ps_has (have s) i = false ∧ ps_has peer_has i = true ∧
  (skip = true → claimed s !! i = Some false).

(** [i] is the rarest candidate, the lowest index among equals. *)
Definition rarest (s : t) (peer_has : B) (skip : bool) (i : nat) : Prop :=
  candidate s peer_has skip i ∧
  ∀ j, candidate s peer_has skip j →
    availability s !!! i < availability s !!! j ∨
    availability s !!! i = availability s !!! j ∧ (i ≤ j)%nat.

(** ** Lemmas *)

(** After the first [n] iterations. *)
Definition best_of (s : t) (peer_has : B) (skip : bool) (n : nat) (best : option (Z * Z)) : Prop :=
  match best with
  | None => ∀ j, (j < n)%nat → ¬ candidate s peer_has skip j
  | Some (a, x) => ∃ i, x = Z.of_nat i ∧ (i < n)%nat ∧ candidate s peer_has skip i ∧
      availability s !! i = Some a ∧
      ∀ j b, (j < n)%nat → candidate s peer_has skip j → availability s !! j = Some b →
        a < b ∨ a = b ∧ (i ≤ j)%nat
  end.

Lemma consider_best s peer_has skip n best :
  wf s → (n < num_pieces s)%nat → best_of s peer_has skip n best →
  ∃ best', consider s peer_has skip best n = Ok best' ∧ best_of s peer_has skip (S n) best'.
Proof.
  intros (_ & _ & Hav & Hcl & Hn & _) Hlt Hb.
  destruct (lookup_lt_is_Some_2 (claimed s) n) as [c Hc]; [lia|].
  destruct (lookup_lt_is_Some_2 (availability s) n) as [a Ha]; [lia|].
  assert (best_of s peer_has skip n best → ¬ candidate s peer_has skip n →
    best_of s peer_has skip (S n) best) as Hskip.
  { intros Hbest Hnc. destruct best as [[b x]|]; cbn in *.
    - destruct Hbest as (i & -> & Hi & Hci & Hai & Hall). exists i. split_and!; try done; [lia|].
      intros j d Hj Hcj. destruct (decide (j = n)) as [->|]; [done|]. apply Hall; [lia|done].
    - intros j Hj Hcj. destruct (decide (j = n)) as [->|]; [done|]. apply (Hbest j); [lia|done]. }
  unfold consider.
  destruct (ps_has (have s) n) eqn:Hh; cbn [orb].
  { red_result. eexists. split; [done|]. apply Hskip; [done|]. intros (_ & ? & _). congruence. }
  destruct (ps_has peer_has n) eqn:Hp; cbn [negb].
  2:{ red_result. eexists. split; [done|]. apply Hskip; [done|]. intros (_ & _ & ? & _). congruence. }
  assert ((skip = true ∧ c = true) ∨ (skip = true → c = false)) as Hcase
    by (destruct skip, c; auto).
  destruct Hcase as [[-> ->]|Hfree].
  { rewrite Hc. red_result. eexists. split; [done|]. apply Hskip; [done|].
    intros (_ & _ & _ & Hcand). specialize (Hcand eq_refl). congruence. }
  assert (candidate s peer_has skip n) as Hcand.
  { split_and!; [done..|]. intros ->. by rewrite Hc, Hfree. }
  assert ((if skip then expect (claimed s !! n) else Ok false) = Ok false) as ->.
  { destruct skip; [|done]. by rewrite Hc, Hfree. }
  red_result. rewrite Ha. red_result. rewrite wrap_small by (unfold in_word; lia).
  destruct best as [[b x]|]; cbn in Hb.
  - destruct Hb as (i & -> & Hi & Hci & Hai & Hall).
    destruct (Z.ltb_spec a b) as [Hab|Hab]; eexists; (split; [done|]).
    + exists n. split_and!; try done; [lia|]. intros j d Hj Hcj Hd.
      destruct (decide (j = n)) as [->|]; [right; split; [congruence|lia]|].
      destruct (Hall j d ltac:(lia) Hcj Hd); left; lia.
    + exists i. split_and!; try done; [lia|]. intros j d Hj Hcj Hd.
      destruct (decide (j = n)) as [->|]; [|apply Hall; [lia|done..]].
      assert (d = a) as -> by congruence. destruct (decide (a = b)); [right|left]; lia.
  - eexists. split; [done|]. exists n. split_and!; try done; [lia|]. intros j d Hj Hcj Hd.
    destruct (decide (j = n)) as [->|]; [right; split; [congruence|lia]|].
    exfalso. apply (Hb j); [lia|done].
Qed.

Lemma rarest_needed_Ok s peer_has skip :
  wf s →
  ∃ r, rarest_needed s peer_has skip = Ok r ∧
    match r with
    | None => ∀ i, ¬ candidate s peer_has skip i
    | Some x => ∃ i, x = Z.of_nat i ∧ rarest s peer_has skip i
    end.
Proof.
  intros Hwf. unfold rarest_needed.
  assert (∀ n, (n ≤ num_pieces s)%nat → ∃ best,
    fold_result (consider s peer_has skip) None (seq 0 n) = Ok best ∧
    best_of s peer_has skip n best) as Hloop.
  { induction n as [|n IH]; intros Hn.
    - exists None. split; [done|]. cbn. intros; lia.
    - destruct IH as (best & Hf & Hb); [lia|].
      destruct (consider_best s peer_has skip n best Hwf ltac:(lia) Hb) as (best' & Hc & Hb').
      exists best'. split; [|done]. rewrite seq_S, fold_result_app, Hf. red_result.
      cbn [fold_result Nat.add]. by rewrite Hc. }
  destruct (Hloop (num_pieces s)) as (best & -> & Hb); [lia|]. red_result.
  eexists. split; [done|]. destruct best as [[a x]|]; cbn in *.
  - destruct Hb as (i & -> & Hi & Hci & Hai & Hall). exists i. split; [done|]. split; [done|].
    intros j Hcj. destruct Hwf as (_ & _ & Hav & _).
    destruct (lookup_lt_is_Some_2 (availability s) j) as [b Hb]; [rewrite Hav; by destruct Hcj|].
    rewrite (list_lookup_total_correct _ _ _ Hai), (list_lookup_total_correct _ _ _ Hb).
    apply Hall; [by destruct Hcj|done..].
  - intros i Hci. apply (Hb i); [by destruct Hci|done].
Qed.

Lemma set_claimed_wf s c : wf s → length c = num_pieces s → wf (set_claimed s c).
Proof. intros (? & ? & ? & _ & ? & ?) ?. by split_and!. Qed.

Lemma set_availability_wf s av :
  wf s → length av = num_pieces s → Forall (in_word 32) av → wf (set_availability s av).
Proof. intros (? & ? & _ & ? & ? & _) ??. by split_and!. Qed.

Lemma release_piece_wf s i : wf s → wf (release_piece s i).
Proof. intros Hwf. apply set_claimed_wf; [done|]. rewrite length_insert. apply Hwf. Qed.

Lemma mark_have_wf s i : wf s → wf (mark_have s i).
Proof.
  intros (? & ? & ? & ? & ? & ?). apply release_piece_wf.
  split_and!; cbn; try done; [by apply ps_set_wf|by rewrite ps_set_num].
Qed.

Lemma reserve_piece_Ok s peer_has :
  wf s →
  (reserve_piece s peer_has = Ok (None, s) ∧ ∀ i, ¬ candidate s peer_has true i) ∨
  ∃ i, reserve_piece s peer_has =
         Ok (Some (Z.of_nat i), set_claimed s (<[i := true]> (claimed s))) ∧
       rarest s peer_has true i.
Proof.
  intros Hwf. unfold reserve_piece.
  destruct (rarest_needed_Ok s peer_has true Hwf) as ([x|] & -> & Hr); red_result; [|by left].
  right. destruct Hr as (i & -> & Hr). exists i. split; [|done].
  rewrite Nat2Z.id. destruct Hr as [(_ & _ & _ & Hc) _]. by rewrite Hc.
Qed.

(** Counting in and out is pointwise. *)
Lemma add_bitfield_Ok_inv s bf s' :
  add_bitfield_availability s bf = Ok s' ↔
  Forall (λ r, ∃ a, r = Ok a) (imap (λ i a, if ps_has bf i then add_w 32 a 1 else Ok a) (availability s)) ∧
  s' = set_availability s
    (imap (λ i a, a + (if ps_has bf i then 1 else 0)) (availability s)).
Proof.
  unfold add_bitfield_availability. rewrite bind_Ok_inv. setoid_rewrite map_result_Ok_inv.
  split.
  - intros (av & Hav & [= <-]). split.
    + apply Forall_lookup. intros i r Hr. destruct (Forall2_lookup_l _ _ _ _ _ Hav Hr) as (a & _ & ?).
      by exists a.
    + f_equal. apply list_eq. intros i. rewrite list_lookup_imap.
      pose proof (proj1 (Forall2_lookup _ _ _) Hav i) as Hi. rewrite list_lookup_imap in Hi.
      destruct (availability s !! i) as [a|]; cbn in *; [|by inversion Hi].
      inversion Hi as [x y Hxy|]; subst. cbn in Hxy. f_equal. case_match; inv_result; [done|lia].
  - intros [Hall ->]. eexists. split; [|done]. apply Forall2_lookup. intros i.
    rewrite !list_lookup_imap. destruct (availability s !! i) as [a|] eqn:Ha; cbn; [|constructor].
    constructor. cbn. rewrite Forall_lookup in Hall.
    destruct (Hall i (if ps_has bf i then add_w 32 a 1 else Ok a)) as [b Hb];
      [by rewrite list_lookup_imap, Ha|].
    rewrite Hb. case_match; inv_result; f_equal; lia.
Qed.

(** ** Sequences of operations

    The calls peer tasks make on the shared tracker, in any order; [run] gives
    what each reservation returned. *)

Inductive op : Type :=
  | AddAvailability (index : nat)
  | AddBitfield (bf : B)
  | RemoveBitfield (bf : B)
  | Reserve (peer_has : B)
  | ReserveEndgame (peer_has : B)
  | Release (index : nat)
  | MarkHave (index : nat).

Definition step (s : t) (o : op) : result (option Z * t) :=
  match o with
  | AddAvailability i => s' ← add_availability s i; Ok (None, s')
  | AddBitfield bf => s' ← add_bitfield_availability s bf; Ok (None, s')
  | RemoveBitfield bf => Ok (None, remove_bitfield_availability s bf)
  | Reserve p => reserve_piece s p
  | ReserveEndgame p => r ← reserve_piece_endgame s p; Ok (r, s)
  | Release i => Ok (None, release_piece s (Z.of_nat i))
  | MarkHave i => Ok (None, mark_have s (Z.of_nat i))
  end.

Fixpoint run (s : t) (ops : list op) : result (list (option Z) * t) :=
  match ops with
  | [] => Ok ([], s)
  | o :: ops' =>
      '(r, s') ← step s o;
      '(rs, s'') ← run s' ops';
      Ok (r :: rs, s'')
  end.

Definition releases (x : nat) (o : op) : bool :=
  match o with Release i => bool_decide (i = x) | _ => false end.

(** No operation adds past [2^32 - 1]. *)
Definition room (s : t) : Prop := Forall (λ a, a + 1 < 2 ^ 32) (availability s).

Lemma add_availability_Ok s i :
  wf s → room s →
  ∃ s', add_availability s i = Ok s' ∧ wf s' ∧ have s' = have s ∧ claimed s' = claimed s ∧
    piece_hashes s' = piece_hashes s.
Proof.
  intros Hwf Hroom. unfold add_availability. case_decide as Hi; [|by exists s].
  destruct (lookup_lt_is_Some_2 (availability s) i Hi) as [a Ha]. rewrite Ha. red_result.
  pose proof (proj1 (Forall_lookup _ _) Hroom _ _ Ha) as Hr. cbn in Hr.
  rewrite add_w_Ok by done. red_result. eexists. split; [done|]. split_and!; try done.
  pose proof Hwf as (_ & _ & Hl & _ & _ & Hw).
  pose proof (proj1 (Forall_lookup _ _) Hw _ _ Ha) as [Hr0 _].
  apply set_availability_wf; [done|by rewrite length_insert|].
  apply Forall_insert; [done|]. unfold in_word. lia.
Qed.

Lemma add_bitfield_Ok s bf :
  wf s → room s →
  ∃ s', add_bitfield_availability s bf = Ok s' ∧ wf s'.
Proof.
  intros Hwf Hroom. eexists. split.
  - apply add_bitfield_Ok_inv. split; [|done]. apply Forall_lookup. intros i r.
    rewrite list_lookup_imap. destruct (availability s !! i) as [a|] eqn:Ha; [|done].
    intros [= <-]. pose proof (proj1 (Forall_lookup _ _) Hroom _ _ Ha) as Hr. cbn in Hr.
    destruct (ps_has bf i); [|eauto]. rewrite add_w_Ok by done. eauto.
  - pose proof Hwf as (_ & _ & Hl & _ & _ & Hw).
    apply set_availability_wf; [done|by rewrite length_imap|]. apply Forall_lookup. intros i a'.
    rewrite list_lookup_imap. destruct (availability s !! i) as [a|] eqn:Ha; [|done].
    intros [= <-]. pose proof (proj1 (Forall_lookup _ _) Hroom _ _ Ha) as Hr. cbn in Hr.
    pose proof (proj1 (Forall_lookup _ _) Hw _ _ Ha) as [Hr0 Hr1].
    unfold in_word. case_match; lia.
Qed.

Lemma remove_bitfield_wf s bf : wf s → wf (remove_bitfield_availability s bf).
Proof.
  intros Hwf. pose proof Hwf as (_ & _ & Hl & _ & _ & Hw).
  apply set_availability_wf; [done|by rewrite length_imap|]. apply Forall_lookup. intros i a'.
  rewrite list_lookup_imap. destruct (availability s !! i) as [a|] eqn:Ha; [|done].
  intros [= <-]. pose proof (proj1 (Forall_lookup _ _) Hw _ _ Ha) as [Hr0 Hr1].
  unfold in_word, saturating_sub. case_match; lia.
Qed.

(** Every operation keeps the invariant; only the availability counts can
    overflow. *)
Lemma step_wf s o r s' : wf s → step s o = Ok (r, s') → wf s'.
Proof.
  intros Hwf. destruct o; cbn [step]; intros Hs.
  - apply bind_Ok_inv in Hs as (s1 & Hs & [= _ <-]). unfold add_availability in Hs.
    case_decide; inv_result; [|done].
    match goal with Ha : availability s !! _ = Some ?a |- _ => rename a into a; rename Ha into Ha' end.
    pose proof Hwf as (_ & _ & Hl & _ & _ & Hw).
    pose proof (proj1 (Forall_lookup _ _) Hw _ _ Ha') as [Hr0 _].
    apply set_availability_wf; [done|by rewrite length_insert|].
    apply Forall_insert; [done|]. unfold in_word. lia.
  - apply bind_Ok_inv in Hs as (s1 & Hs & [= _ <-]).
    apply add_bitfield_Ok_inv in Hs as [Hall ->].
    pose proof Hwf as (_ & _ & Hl & _ & _ & Hw).
    apply set_availability_wf; [done|by rewrite length_imap|]. apply Forall_lookup. intros i a'.
    rewrite list_lookup_imap. destruct (availability s !! i) as [a|] eqn:Ha; [|done].
    intros [= <-]. pose proof (proj1 (Forall_lookup _ _) Hw _ _ Ha) as [Hr0 Hr1].
    rewrite Forall_lookup in Hall.
    destruct (Hall i (if ps_has bf i then add_w 32 a 1 else Ok a)) as [b Hb];
      [by rewrite list_lookup_imap, Ha|].
    unfold in_word. case_match; inv_result; lia.
  - injection Hs as _ <-. by apply remove_bitfield_wf.
  - destruct (reserve_piece_Ok s peer_has Hwf) as [[Hr _]|(i & Hr & _)];
      rewrite Hr in Hs; injection Hs as _ <-; [done|].
    apply set_claimed_wf; [done|]. rewrite length_insert. apply Hwf.
  - apply bind_Ok_inv in Hs as (r' & _ & [= _ <-]). done.
  - injection Hs as _ <-. by apply release_piece_wf.
  - injection Hs as _ <-. by apply mark_have_wf.
Qed.

(** A piece that is claimed or owned is not handed out again. *)
Definition blocked (s : t) (x : nat) : Prop :=
  (x < num_pieces s)%nat ∧ (claimed s !! x = Some true ∨ ps_has (have s) x = true).

Lemma reserve_blocks s p x s' :
  wf s → reserve_piece s p = Ok (Some (Z.of_nat x), s') → blocked s' x ∧ ¬ blocked s x.
Proof.
  intros Hwf Hr. destruct (reserve_piece_Ok s p Hwf) as [[Hr' _]|(i & Hr' & [Hc _])];
    rewrite Hr' in Hr; [done|]. injection Hr as Hi%Nat2Z.inj <-. subst i.
  destruct Hc as (Hx & Hh & _ & Hcl). specialize (Hcl eq_refl). split.
  - split; [done|]. left. cbn. apply list_lookup_insert_eq. by eapply lookup_lt_Some.
  - intros [_ [?|?]]; congruence.
Qed.

Lemma step_blocked s o r s' x :
  wf s → step s o = Ok (r, s') → o ≠ Release x → blocked s x → blocked s' x.
Proof.
  intros Hwf Hs Ho [Hx Hb]. destruct o; cbn [step] in Hs.
  - apply bind_Ok_inv in Hs as (s1 & Hs & [= _ <-]). unfold add_availability in Hs.
    case_decide; inv_result; done.
  - apply bind_Ok_inv in Hs as (s1 & Hs & [= _ <-]).
    by apply add_bitfield_Ok_inv in Hs as [_ ->].
  - by injection Hs as _ <-.
  - destruct (reserve_piece_Ok s peer_has Hwf) as [[Hr _]|(i & Hr & _)];
      rewrite Hr in Hs; injection Hs as _ <-; [done|]. split; [done|].
    destruct Hb as [Hb|]; [left|by right]. cbn.
    destruct (decide (i = x)) as [->|]; [|by rewrite list_lookup_insert_ne].
    apply list_lookup_insert_eq. by eapply lookup_lt_Some.
  - apply bind_Ok_inv in Hs as (r' & _ & [= _ <-]). done.
  - injection Hs as _ <-. split; [done|]. cbn. rewrite Nat2Z.id.
    rewrite list_lookup_insert_ne by (intros ->; done). done.
  - injection Hs as _ <-. split; [done|]. cbn. rewrite Nat2Z.id.
    pose proof Hwf as (Hps & Hn & _).
    destruct (decide (index = x)) as [->|].
    + right. apply ps_set_same; [done|by rewrite Hn].
    + rewrite list_lookup_insert_ne by done. rewrite ps_set_ne by done. done.
Qed.

Lemma run_blocked s ops outs s' x q p :
  wf s → run s ops = Ok (outs, s') → blocked s x →
  (∀ r, (r < q)%nat → ops !! r ≠ Some (Release x)) →
  ops !! q = Some (Reserve p) → outs !! q ≠ Some (Some (Z.of_nat x)).
Proof.
  revert s ops outs. induction q as [|q IH]; intros s [|o ops] outs Hwf Hrun Hb Hrel Hq; try done;
    cbn [run] in Hrun; apply bind_Ok_inv in Hrun as ([res s1] & Hs & Hrun);
    apply bind_Ok_inv in Hrun as ([rs s2] & Hrun & [= <- <-]).
  - injection Hq as ->. intros [= ->]. cbn [step] in Hs.
    by apply reserve_blocks in Hs as [_ ?].
  - apply (IH s1 ops rs); try done.
    + by eapply step_wf.
    + eapply step_blocked; [done..| |done]. intros ->. by apply (Hrel 0%nat); [lia|].
    + intros k Hk. apply (Hrel (S k)). lia.
Qed.

Lemma run_exclusive s ops outs s' x p q a b :
  wf s → run s ops = Ok (outs, s') → (p < q)%nat →
  ops !! p = Some (Reserve a) → outs !! p = Some (Some (Z.of_nat x)) →
  ops !! q = Some (Reserve b) → outs !! q = Some (Some (Z.of_nat x)) →
  ¬ (∀ r, (p < r < q)%nat → ops !! r ≠ Some (Release x)).
Proof.
  revert s ops outs q. induction p as [|p IH];
    intros s [|o ops] outs q Hwf Hrun Hpq Hpo Hpr Hqo Hqr Hno; try done;
    cbn [run] in Hrun; apply bind_Ok_inv in Hrun as ([res s1] & Hs & Hrun);
    apply bind_Ok_inv in Hrun as ([rs s2] & Hrun & [= <- <-]);
    (destruct q as [|q]; [lia|]); cbn in Hqo, Hqr, Hpo, Hpr.
  - injection Hpo as ->. injection Hpr as ->. pose proof (step_wf _ _ _ _ Hwf Hs) as Hwf1.
    cbn [step] in Hs. apply reserve_blocks in Hs as [Hb _]; [|done].
    eapply (run_blocked s1 ops rs s2 x q b); try done. intros r Hr. apply (Hno (S r)). lia.
  - eapply (IH s1 ops rs q); try done; [by eapply step_wf|lia|].
    intros r Hr. apply (Hno (S r)). lia.
Qed.
End tracker.
Arguments t : clear implicits.
Arguments op : clear implicits.
End PieceTracker.

(** ** Properties *)

Section tracker_properties.
Context {B : Type} `{PieceSet B} `{Sha1}.
Implicit Types s : PieceTracker.t B.

(** C12: Selection is rarest-first and claims exactly what it returns. On a
    consistent tracker [reserve_piece] never panics; it returns nothing, and
    changes nothing, exactly when no piece is needed, offered by the peer and
    unclaimed; otherwise it returns the candidate with the lowest availability,
    the lowest index among equals, and the only change is that this piece is
    now claimed. The endgame selection makes the same choice among all needed
    pieces the peer has, claimed or not, and changes nothing. *)
Theorem reserve_rarest_first s peer_has :
  PieceTracker.wf s →
  (∃ r s', PieceTracker.reserve_piece s peer_has = Ok (r, s') ∧ PieceTracker.wf s' ∧
     match r with
     | None => s' = s ∧ ∀ i, ¬ PieceTracker.candidate s peer_has true i
     | Some x => ∃ i, x = Z.of_nat i ∧ PieceTracker.rarest s peer_has true i ∧
         s' = PieceTracker.set_claimed s (<[i := true]> (PieceTracker.claimed s))
     end) ∧
  (∃ r, PieceTracker.reserve_piece_endgame s peer_has = Ok r ∧
     match r with
     | None => ∀ i, ¬ PieceTracker.candidate s peer_has false i
     | Some x => ∃ i, x = Z.of_nat i ∧ PieceTracker.rarest s peer_has false i
     end).
Proof.
  intros Hwf. split; [|by apply PieceTracker.rarest_needed_Ok].
  destruct (PieceTracker.reserve_piece_Ok s peer_has Hwf) as [[-> Hn]|(i & -> & Hr)].
  - by exists None, s.
  - do 2 eexists. split; [done|]. split; [|by exists i].
    apply PieceTracker.set_claimed_wf; [done|]. rewrite length_insert. apply Hwf.
Qed.

(** C11: A claim is exclusive. In any sequence of tracker operations, between two
    reservations that returned the same piece that piece was released; in
    particular a piece marked as owned is never reserved again. *)
Theorem claims_exclusive s ops outs s' x p q a b :
  PieceTracker.wf s → PieceTracker.run s ops = Ok (outs, s') → (p < q)%nat →
  ops !! p = Some (PieceTracker.Reserve a) → outs !! p = Some (Some (Z.of_nat x)) →
  ops !! q = Some (PieceTracker.Reserve b) → outs !! q = Some (Some (Z.of_nat x)) →
  ∃ r, (p < r < q)%nat ∧ ops !! r = Some (PieceTracker.Release x).
Proof.
  intros Hwf Hrun Hpq Hpo Hpr Hqo Hqr.
  destruct (decide (Exists (λ r, PieceTracker.releases x <$> ops !! r = Some true)
    (seq (S p) (q - S p)))) as [Hex|Hex].
  - apply Exists_exists in Hex as (r & Hr%elem_of_seq & (o & Ho & Hor)%fmap_Some).
    exists r. split; [lia|]. rewrite Ho. destruct o; try done.
    cbn in Hor. case_bool_decide; [by subst|done].
  - exfalso. eapply (PieceTracker.run_exclusive s ops outs s' x p q a b); try done.
    intros r Hr Hrel. apply Hex, Exists_exists. exists r. split; [apply elem_of_seq; lia|].
    rewrite Hrel. cbn. by rewrite bool_decide_eq_true_2.
Qed.
(** C26: No operation breaks the tracker. On a consistent tracker whose counts are
    below [2^32 - 1] every operation returns, without panicking, a consistent
    tracker of the same torrent, and no operation makes an owned piece missing
    again. *)
Theorem tracker_operations_safe s o :
  PieceTracker.wf s → PieceTracker.room s →
  ∃ r s', PieceTracker.step s o = Ok (r, s') ∧ PieceTracker.wf s' ∧
    PieceTracker.piece_hashes s' = PieceTracker.piece_hashes s ∧
    ps_elems (PieceTracker.have s) ⊆ ps_elems (PieceTracker.have s').
Proof.
  intros Hwf Hroom. pose proof Hwf as (Hps & _).
  destruct o as [i|bf|bf|p|p|i|i]; cbn [PieceTracker.step].
  - destruct (PieceTracker.add_availability_Ok s i Hwf Hroom) as (s' & -> & ? & Hh & _ & ?).
    red_result. do 2 eexists. split; [done|]. by rewrite Hh.
  - destruct (PieceTracker.add_bitfield_Ok s bf Hwf Hroom) as (s' & Hs & ?).
    rewrite Hs. red_result. apply PieceTracker.add_bitfield_Ok_inv in Hs as [_ ->].
    do 2 eexists. by split.
  - do 2 eexists. split; [done|]. split; [by apply PieceTracker.remove_bitfield_wf|done].
  - destruct (PieceTracker.reserve_piece_Ok s p Hwf) as [[-> _]|(i & -> & _)];
      do 2 eexists; (split; [done|]); [done|]. split; [|done].
    apply PieceTracker.set_claimed_wf; [done|]. rewrite length_insert. apply Hwf.
  - destruct (PieceTracker.rarest_needed_Ok s p false Hwf) as (r & Hr & _).
    unfold PieceTracker.reserve_piece_endgame. rewrite Hr. red_result. by do 2 eexists.
  - do 2 eexists. split; [done|]. split; [by apply PieceTracker.release_piece_wf|done].
  - do 2 eexists. split; [done|]. split; [by apply PieceTracker.mark_have_wf|]. split; [done|].
    intros j. rewrite !elem_of_ps_elems. cbn. by apply ps_set_mono.
Qed.

(** A peer's contribution to the availability counts is undone exactly when
    it leaves: removing the bitfield that was added restores the tracker. *)
Theorem availability_restored s s' bf :
  PieceTracker.wf s → PieceTracker.add_bitfield_availability s bf = Ok s' →
  PieceTracker.remove_bitfield_availability s' bf = s.
Proof.
  intros (_ & _ & _ & _ & _ & Hw) [_ ->]%PieceTracker.add_bitfield_Ok_inv.
  destruct s as [ph h av cl]. unfold PieceTracker.remove_bitfield_availability,
    PieceTracker.set_availability. cbn in *. f_equal.
  apply list_eq. intros i. rewrite !list_lookup_imap.
  destruct (av !! i) as [a|] eqn:Ha; [|done]. cbn. f_equal.
  pose proof (proj1 (Forall_lookup _ _) Hw _ _ Ha) as [? _].
  unfold saturating_sub. destruct (ps_has bf i); lia.
Qed.

Lemma tracker_from_info_cases (info : Info.t) :
  Z.of_nat (Info.num_pieces info) < 2 ^ 32 →
  match PieceTracker.from_info (B := B) info with
  | Ok s =>
      (length (Info.pieces info) `mod` 20 = 0)%nat ∧
      PieceTracker.wf s ∧ PieceTracker.num_pieces s = Info.num_pieces info ∧
      ps_elems (PieceTracker.have s) = ∅ ∧
      ∀ (i : nat) data, PieceTracker.verify s (Z.of_nat i) data = true ↔
        (i < Info.num_pieces info)%nat ∧
        sha1 data = slice (i * 20) ((i + 1) * 20) (Info.pieces info)
  | Err e => e = InvalidPiecesLength (Z.of_nat (length (Info.pieces info))) ∧
             (length (Info.pieces info) `mod` 20 ≠ 0)%nat
  | Panic => False
  end.
Proof.
  intros Hsmall. unfold PieceTracker.from_info, Info.piece_hashes.
  change SHA1_LEN with 20%nat.
  destruct (Nat.eqb_spec (length (Info.pieces info) `mod` 20)%nat 0) as [Hm|Hm];
    cbn [negb]; red_result; [|done].
  assert (length (chunks_exact 20 (Info.pieces info)) = Info.num_pieces info) as Hl
    by (apply (chunks_exact_length 20); lia).
  split; [done|]. split_and!.
  - unfold PieceTracker.wf, PieceTracker.num_pieces; cbn. rewrite !length_replicate, Hl.
    split_and!; try done; [auto with engine|by rewrite ps_new_num|].
    apply Forall_replicate. unfold in_word. lia.
  - exact Hl.
  - apply ps_elems_new.
  - intros i data. unfold PieceTracker.verify. cbn. rewrite Nat2Z.id.
    rewrite chunks_exact_lookup by lia.
    pose proof (Nat.div_mod (length (Info.pieces info)) 20 ltac:(lia)) as Hd.
    unfold Info.num_pieces. change SHA1_LEN with 20%nat.
    case_decide.
    + rewrite bool_decide_eq_true. split; [split; [lia|done]|by intros [_ ?]].
    + split; [done|]. intros [? _]. lia.
Qed.

(** Verification is against the torrent's own hashes. A tracker built from a
    torrent (of fewer than [2^32] pieces) is consistent, owns nothing, and
    accepts data for a piece exactly when the piece exists and the data's digest
    is that piece's 20-byte slice of the [pieces] string; building it fails only
    on a [pieces] string that is not a whole number of digests. *)
Theorem from_info_verifies (info : Info.t) :
  Z.of_nat (Info.num_pieces info) < 2 ^ 32 →
  match PieceTracker.from_info (B := B) info with
  | Ok s =>
      (length (Info.pieces info) `mod` 20 = 0)%nat ∧
      PieceTracker.wf s ∧ PieceTracker.num_pieces s = Info.num_pieces info ∧
      ps_elems (PieceTracker.have s) = ∅ ∧
      ∀ (i : nat) data, PieceTracker.verify s (Z.of_nat i) data = true ↔
        (i < Info.num_pieces info)%nat ∧
        sha1 data = slice (i * 20) ((i + 1) * 20) (Info.pieces info)
  | Err e => e = InvalidPiecesLength (Z.of_nat (length (Info.pieces info))) ∧
             (length (Info.pieces info) `mod` 20 ≠ 0)%nat
  | Panic => False
  end.
Proof. apply tracker_from_info_cases. Qed.

(** Owning a piece. Marking piece [i] adds exactly [i] to the owned pieces,
    clears its claim and no other, leaves the counts alone, and the tracker is
    complete exactly when every piece is owned; the piece stops being a
    candidate for any peer, even in the endgame. *)
Theorem mark_have_owns s (i : nat) :
  PieceTracker.wf s → (i < PieceTracker.num_pieces s)%nat →
  let s' := PieceTracker.mark_have s (Z.of_nat i) in
  ps_elems (PieceTracker.have s') = {[i]} ∪ ps_elems (PieceTracker.have s) ∧
  PieceTracker.claimed s' = <[i := false]> (PieceTracker.claimed s) ∧
  PieceTracker.availability s' = PieceTracker.availability s ∧
  (PieceTracker.is_complete s' = true ↔
     ∀ j : nat, (j < PieceTracker.num_pieces s)%nat → j ≠ i → PieceTracker.has s (Z.of_nat j) = true) ∧
  ∀ peer_has skip, ¬ PieceTracker.candidate s' peer_has skip i.
Proof.
  intros Hwf Hi s'. pose proof Hwf as (Hps & Hn & _).
  assert (ps_has (PieceTracker.have s') i = true) as Hhas.
  { cbn. rewrite Nat2Z.id. apply ps_set_same; [done|by rewrite Hn]. }
  split_and!.
  - cbn. rewrite Nat2Z.id. apply ps_elems_set; [done|by rewrite Hn].
  - cbn. by rewrite Nat2Z.id.
  - done.
  - unfold PieceTracker.is_complete. rewrite ps_complete_spec by (by apply PieceTracker.mark_have_wf).
    cbn. rewrite ps_set_num, Hn, Nat2Z.id. unfold PieceTracker.has. setoid_rewrite Nat2Z.id.
    split.
    + intros Hall j Hj Hne. rewrite <-(ps_set_ne _ i) by done. by apply Hall.
    + intros Hall j Hj. destruct (decide (j = i)) as [->|Hne].
      * apply ps_set_same; [done|by rewrite Hn].
      * rewrite ps_set_ne by done. by apply Hall.
  - intros p skip (_ & Hh & _). congruence.
Qed.
End tracker_properties.

(** ** Witnesses *)

(** A digest for the witnesses: the first 20 bytes, padded with zeros. *)
Definition padding_digest : Sha1.
Proof.
  refine {| sha1 := λ bs, take 20 (bs ++ replicate 20 x00) |}.
  abstract (intros bs; rewrite length_take, length_app, length_replicate; unfold SHA1_LEN; lia).
Defined.

(** Three pieces; the second is the rarest. *)
Definition sample_tracker : PieceTracker.t Bitfield.t :=
  {| PieceTracker.piece_hashes := replicate 3 (replicate 20 x00);
     PieceTracker.have := Bitfield.new 3;
     PieceTracker.availability := [2; 1; 1];
     PieceTracker.claimed := [false; false; false] |}.

Definition sample_seed : Bitfield.t := Bitfield.set (Bitfield.set (Bitfield.new 3) 1) 2.

Lemma sample_tracker_wf : PieceTracker.wf sample_tracker.
Proof.
  split; [exact (Bitfield.new_wf 3)|]. split_and!; try reflexivity.
  repeat constructor; unfold in_word; lia.
Qed.

Lemma reserve_rarest_first_witness :
  PieceTracker.rarest sample_tracker sample_seed true 1.
Proof.
  destruct (reserve_rarest_first sample_tracker sample_seed
    sample_tracker_wf) as [(r & s' & Hr & _ & Hm) _].
  assert (r = Some 1) as -> by (vm_compute in Hr; congruence).
  destruct Hm as (i & Hi & Hrare & _). assert (i = 1%nat) as -> by lia. exact Hrare.
Defined.

Lemma claims_exclusive_witness :
  ∃ r, (0 < r < 2)%nat ∧
    [PieceTracker.Reserve sample_seed; PieceTracker.Release 1; PieceTracker.Reserve sample_seed]
      !! r = Some (PieceTracker.Release 1).
Proof.
  eapply (claims_exclusive sample_tracker
    [PieceTracker.Reserve sample_seed; PieceTracker.Release 1; PieceTracker.Reserve sample_seed]
    _ _ 1 0 2 sample_seed sample_seed sample_tracker_wf);
    [vm_compute; reflexivity|lia|reflexivity..].
Defined.

Lemma tracker_operations_safe_witness :
  ∃ r s', PieceTracker.step sample_tracker (PieceTracker.AddBitfield sample_seed)
    = Ok (r, s') ∧ PieceTracker.wf s'.
Proof.
  destruct (tracker_operations_safe sample_tracker
    (PieceTracker.AddBitfield sample_seed) sample_tracker_wf) as (r & s' & Hs & Hwf & _).
  - repeat constructor; lia.
  - exists r, s'. split; [exact Hs|exact Hwf].
Defined.

Lemma availability_restored_witness :
  ∃ s', PieceTracker.add_bitfield_availability sample_tracker sample_seed = Ok s' ∧
    PieceTracker.remove_bitfield_availability s' sample_seed = sample_tracker.
Proof.
  eexists. split; [vm_compute; reflexivity|].
  apply (availability_restored sample_tracker); [apply sample_tracker_wf|vm_compute; reflexivity].
Defined.

Lemma from_info_verifies_witness :
  ∃ s : PieceTracker.t Bitfield.t,
    PieceTracker.from_info sample_info = Ok s ∧ PieceTracker.wf s.
Proof.
  pose proof (from_info_verifies (H0 := padding_digest) (B := Bitfield.t) sample_info
    ltac:(reflexivity)) as Hv.
  destruct (PieceTracker.from_info (B := Bitfield.t) sample_info) as [s|e|] eqn:Hs;
    [|discriminate Hs|discriminate Hs].
  exists s. split; [reflexivity|]. apply Hv.
Defined.

Lemma mark_have_owns_witness :
  ps_elems (PieceTracker.have (PieceTracker.mark_have sample_tracker 2)) =
    {[2%nat]} ∪ ps_elems (PieceTracker.have sample_tracker).
Proof.
  apply (mark_have_owns sample_tracker 2 sample_tracker_wf). cbn; lia.
Defined.
