(* ===== verification/Stats.v ===== *)
(** * Live swarm statistics ([src/download/stats.rs])

    [SwarmStats] maps the address of each connected peer to its live entry and
    keeps the total of the bytes received; the map is a [gmap] over an abstract
    address type. The theorems: what the counters hold after any sequence of
    updates, and that a snapshot lists every connected peer once, the busiest
    first. *)

From S2P Require Export Errors Paths.

Module PeerEntry.
Record t : Type := mk { choked : bool; have_pieces : Z; downloaded : Z }.

Definition default : t := {| choked := true; have_pieces := 0; downloaded := 0 |}.
End PeerEntry.

Module PeerStat.
Record t : Type := mk { addr : str; choked : bool; have_pieces : Z; downloaded_bytes : Z }.
End PeerStat.

Module SwarmStats.
Section stats.
Context {A : Type} `{Countable A}.
(** [SocketAddr]'s [Display]. *)
Context (addr_to_string : A → str).

Record t : Type := mk { total : Z; peers : gmap A PeerEntry.t }.

(** ** Operations *)

Definition new : t := {| total := 0; peers := ∅ |}.

Definition peer_connected (s : t) (addr : A) : t :=
  {| total := total s; peers := <[addr := PeerEntry.default]> (peers s) |}.

Definition peer_disconnected (s : t) (addr : A) : t :=
  {| total := total s; peers := delete addr (peers s) |}.

Definition set_choked (s : t) (addr : A) (choked : bool) : t :=
  {| total := total s;
     peers := alter (λ e, PeerEntry.mk choked (PeerEntry.have_pieces e) (PeerEntry.downloaded e))
                addr (peers s) |}.

Definition set_have_count (s : t) (addr : A) (have_pieces : Z) : t :=
  {| total := total s;
     peers := alter (λ e, PeerEntry.mk (PeerEntry.choked e) have_pieces (PeerEntry.downloaded e))
                addr (peers s) |}.

(** [fetch_add] wraps around; the entry's counter is a plain [u64]. *)
Definition record_block (s : t) (addr : A) (len : Z) : result t :=
  let total' := wrap 64 (total s + len) in
  match peers s !! addr with
  | Some e =>
      d ← add_w 64 (PeerEntry.downloaded e) len;
      Ok {| total := total';
            peers := <[addr := PeerEntry.mk (PeerEntry.choked e) (PeerEntry.have_pieces e) d]>
                       (peers s) |}
  | None => Ok {| total := total'; peers := peers s |}
  end.

Definition connected_count (s : t) : nat := size (peers s).
Definition total_downloaded (s : t) : Z := total s.

Definition to_stat (p : A * PeerEntry.t) : PeerStat.t :=
  PeerStat.mk (addr_to_string p.1) (PeerEntry.choked p.2) (PeerEntry.have_pieces p.2)
    (PeerEntry.downloaded p.2).

(** [sort_by_key(|p| Reverse(p.downloaded_bytes))]. *)
Definition busier (p q : PeerStat.t) : Prop :=
  PeerStat.downloaded_bytes q ≤ PeerStat.downloaded_bytes p.

#[global] Instance busier_dec : RelDecision busier.
Proof. unfold RelDecision, busier. intros. apply _. Defined.

Definition peer_snapshots (s : t) : list PeerStat.t :=
  merge_sort busier (to_stat <$> map_to_list (peers s)).

(** ** Sequences of updates *)

Inductive op : Type :=
  | Connected (addr : A)
  | Disconnected (addr : A)
  | Choked (addr : A) (choked : bool)
  | HaveCount (addr : A) (have_pieces : Z)
  | Received (addr : A) (len : Z).

Definition apply (s : t) (o : op) : result t :=
  match o with
  | Connected a => Ok (peer_connected s a)
  | Disconnected a => Ok (peer_disconnected s a)
  | Choked a c => Ok (set_choked s a c)
  | HaveCount a n => Ok (set_have_count s a n)
  | Received a n => record_block s a n
  end.

(** What the updates said, newest last: the bytes received in all, and the
    entry of a peer since it last connected. *)
Definition received (o : op) : Z := match o with Received _ n => n | _ => 0 end.

Definition sum_received (ops : list op) : Z := foldr (λ o acc, received o + acc) 0 ops.

Definition entry_after (a : A) (e : option PeerEntry.t) (o : op) : option PeerEntry.t :=
  match o with
  | Connected b => if decide (a = b) then Some PeerEntry.default else e
  | Disconnected b => if decide (a = b) then None else e
  | Choked b c =>
      if decide (a = b)
      then (λ e, PeerEntry.mk c (PeerEntry.have_pieces e) (PeerEntry.downloaded e)) <$> e else e
  | HaveCount b n =>
      if decide (a = b)
      then (λ e, PeerEntry.mk (PeerEntry.choked e) n (PeerEntry.downloaded e)) <$> e else e
  | Received b n =>
      if decide (a = b)
      then (λ e, PeerEntry.mk (PeerEntry.choked e) (PeerEntry.have_pieces e)
                   (PeerEntry.downloaded e + n)) <$> e else e
  end.

Lemma apply_spec s o s' :
  apply s o = Ok s' →
  total s' = (match o with Received _ n => wrap 64 (total s + n) | _ => total s end) ∧
  ∀ a, peers s' !! a = entry_after a (peers s !! a) o.
Proof.
  destruct o as [b|b|b c|b n|b n]; cbn [apply].
  1-4: intros [= <-]; split; [done|]; intros a; cbn; destruct (decide (a = b)) as [->|];
    by simplify_map_eq.
  unfold record_block. destruct (peers s !! b) as [e|] eqn:Hb; intros Hs; inv_result;
    (split; [done|]); intros a; cbn; destruct (decide (a = b)) as [->|]; simplify_map_eq;
    by rewrite ?Hb.
Qed.

Lemma run_spec ops s s' :
  in_word 64 (total s) → fold_result apply s ops = Ok s' →
  total s' = wrap 64 (total s + sum_received ops) ∧
  ∀ a, peers s' !! a = foldl (entry_after a) (peers s !! a) ops.
Proof.
  revert s. induction ops as [|o ops IH]; intros s Ht; cbn [fold_result].
  - intros [= <-]. cbn. rewrite Z.add_0_r. by rewrite wrap_small.
  - intros (s1 & [Ht1 Hp1]%apply_spec & Hr)%bind_Ok_inv.
    assert (in_word 64 (total s1)) as Hw.
    { rewrite Ht1. destruct o; [done..|]. by apply wrap_range. }
    destruct (IH s1 Hw Hr) as [-> Hp]. split.
    + rewrite Ht1. cbn [sum_received foldr]. unfold sum_received.
      destruct o; cbn [received]; rewrite ?Z.add_0_l; try done.
      unfold wrap. rewrite Z.add_mod_idemp_l by lia. f_equal. lia.
    + intros a. by rewrite Hp, Hp1.
Qed.
End stats.
Arguments t A {_ _}.
Arguments op : clear implicits.
End SwarmStats.

Section stats_properties.
Context {A : Type} `{Countable A} (addr_to_string : A → str).

(** The counters after any sequence of updates. The total is the number of
    bytes received from all peers, modulo [2^64], whether or not the peer is
    still connected; the map holds exactly the peers whose latest connection
    was not followed by a disconnection, each with the choke state, piece count
    and bytes recorded since that connection. *)
Theorem stats_account ops (s : SwarmStats.t A) :
  fold_result SwarmStats.apply SwarmStats.new ops = Ok s →
  SwarmStats.total_downloaded s = SwarmStats.sum_received ops `mod` 2 ^ 64 ∧
  ∀ a, SwarmStats.peers s !! a = foldl (SwarmStats.entry_after a) None ops.
Proof.
  intros Hs. apply SwarmStats.run_spec in Hs as [Ht Hp]; [|cbn; unfold in_word; lia].
  cbn in Ht. split; [exact Ht|]. intros a. rewrite Hp. cbn. by rewrite lookup_empty.
Qed.

(** A snapshot shows each connected peer exactly once, with its recorded
    state, in decreasing order of downloaded bytes. *)
Theorem snapshots_sorted (s : SwarmStats.t A) :
  SwarmStats.peer_snapshots addr_to_string s ≡ₚ
    (SwarmStats.to_stat addr_to_string <$> map_to_list (SwarmStats.peers s)) ∧
  length (SwarmStats.peer_snapshots addr_to_string s) = SwarmStats.connected_count s ∧
  StronglySorted (λ p q, PeerStat.downloaded_bytes q ≤ PeerStat.downloaded_bytes p)
    (SwarmStats.peer_snapshots addr_to_string s).
Proof.
  unfold SwarmStats.peer_snapshots.
  assert (Total SwarmStats.busier) by (intros p q; unfold SwarmStats.busier; lia).
  assert (Transitive SwarmStats.busier) by (intros p q r; unfold SwarmStats.busier; lia).
  pose proof (merge_sort_Permutation SwarmStats.busier
    (SwarmStats.to_stat addr_to_string <$> map_to_list (SwarmStats.peers s))) as Hperm.
  split; [done|]. split.
  - rewrite Hperm, length_fmap. unfold SwarmStats.connected_count.
    apply length_map_to_list.
  - by apply (StronglySorted_merge_sort SwarmStats.busier).
Qed.
End stats_properties.

(** One peer connects, sends two blocks and reconnects. *)
Lemma stats_account_witness :
  ∃ s : SwarmStats.t nat,
    fold_result SwarmStats.apply SwarmStats.new
      [SwarmStats.Connected 7%nat; SwarmStats.Received 7%nat 16384; SwarmStats.Received 8%nat 10;
       SwarmStats.Connected 7%nat; SwarmStats.Received 7%nat 5] = Ok s ∧
    SwarmStats.total_downloaded s = 16399 ∧
    PeerEntry.downloaded <$> SwarmStats.peers s !! 7%nat = Some 5.
Proof.
  eexists. split; [vm_compute; reflexivity|].
  match goal with |- _ ∧ PeerEntry.downloaded <$> SwarmStats.peers ?s !! _ = _ =>
    destruct (stats_account
      [SwarmStats.Connected 7%nat; SwarmStats.Received 7%nat 16384; SwarmStats.Received 8%nat 10;
       SwarmStats.Connected 7%nat; SwarmStats.Received 7%nat 5] s eq_refl) as [Ht Hp] end.
  split; [exact Ht|]. rewrite Hp. reflexivity.
Defined.
