(* ===== verification/Disks.v ===== *)
(** * Disk layout and file assembly ([src/disk.rs])

    [build_file_map] and [map_region] are the code's arithmetic, with [u64]
    overflow checks; [Storage] runs over a small model of the filesystem: the
    contents of the files by path, and a script of the faults the operating
    system will report. The theorems: the file map is contiguous; the writes of
    a region are in bounds, disjoint and cover exactly the part of the region
    the files hold; writing a piece is one [splice] on the concatenation of the
    files; and writing every piece, in any order, leaves the torrent's content
    on disk. *)

From S2P Require Export Pieces.

(** ** The file map *)

Module MappedFile.
Record t : Type := mk { path : str; length : Z; offset : Z }.
End MappedFile.

Module WriteOp.
Record t : Type := mk { file_index : nat; file_offset : Z; src_start : Z; len : Z }.

#[global] Instance t_eq_dec : EqDecision t.
Proof. solve_decision. Defined.
End WriteOp.

(** One iteration of [build_file_map]: push the file, advance the offset. *)
Definition push_file (st : list MappedFile.t * Z) (pl : str * Z)
  : result (list MappedFile.t * Z) :=
  let '(files, offset) := st in
  let '(path, length) := pl in
  offset' ← ok_or Storage (checked_add 64 offset length);
  Ok (files ++ [MappedFile.mk path length offset], offset').

Definition build_file_map (meta : Metainfo.t) (base_dir : str) : result (list MappedFile.t) :=
  paths ← file_paths meta base_dir;
  '(files, _) ← fold_result push_file ([], 0) paths;
  Ok files.

(** One iteration of [map_region] on file [file_index]; [None] is [continue]. *)
Definition region_op (global_offset region_end : Z) (file_index : nat) (file : MappedFile.t)
  : result (option WriteOp.t) :=
  file_end ← add_w 64 (MappedFile.offset file) (MappedFile.length file);
  let start := Z.max global_offset (MappedFile.offset file) in
  let end_ := Z.min region_end file_end in
  if decide (end_ ≤ start) then Ok None
  else Ok (Some {| WriteOp.file_index := file_index;
                   WriteOp.file_offset := start - MappedFile.offset file;
                   WriteOp.src_start := start - global_offset;
                   WriteOp.len := end_ - start |}).

Fixpoint region_ops (global_offset region_end : Z) (file_index : nat) (files : list MappedFile.t)
  : result (list WriteOp.t) :=
  match files with
  | [] => Ok []
  | file :: files' =>
      o ← region_op global_offset region_end file_index file;
      ops ← region_ops global_offset region_end (S file_index) files';
      Ok (option_list o ++ ops)
  end.

(** The [enumerate] loop starts at index 0. *)
Definition map_region (files : list MappedFile.t) (global_offset : Z) (len : nat)
  : result (list WriteOp.t) :=
  region_end ← add_w 64 global_offset (Z.of_nat len);
  region_ops global_offset region_end 0 files.

(** ** The filesystem

    The files by path; [faults] scripts the coming I/O operations: [Some k]
    fails the operation after [k] bytes of a write, an exhausted script never
    fails. *)

Record World : Type := mk_world {
  disk : gmap str (list byte);
  faults : list (option nat);
}.

Definition io (A : Type) : Type := World → result A * World.

#[export] Instance io_ret : MRet io := λ A a w, (Ok a, w).
#[export] Instance io_bind : MBind io :=
  λ A B f m w,
    match m w with
    | (Ok a, w') => f a w'
    | (Err e, w') => (Err e, w')
    | (Panic, w') => (Panic, w')
    end.

Definition lift {A} (r : result A) : io A := λ w, (r, w).

(** One operation of the script: its effect when it succeeds, and after [k]
    bytes when it fails. *)
Definition attempt (ok : gmap str (list byte) → gmap str (list byte))
    (partial : nat → gmap str (list byte) → gmap str (list byte)) : io () :=
  λ w, match faults w with
       | Some k :: fs => (Err Io, mk_world (partial k (disk w)) fs)
       | None :: fs => (Ok (), mk_world (ok (disk w)) fs)
       | [] => (Ok (), mk_world (ok (disk w)) [])
       end.

(** Bytes written at an offset; a file grows to hold them. *)
Definition write_at (o : nat) (xs c : list byte) : list byte :=
  splice o xs (resize (max (length c) (o + length xs)) x00 c).

Module Handle.
Record t : Type := mk { path : str; pos : Z }.

Definition create_dir_all : io () := attempt id (λ _, id).

(** [write(true).create(true).truncate(false).open(path)]. *)
Definition open (path : str) : io t :=
  _ ← attempt (λ d, <[path := default [] (d !! path)]> d) (λ _, id);
  mret (mk path 0).

Definition set_len (h : t) (len : Z) : io () :=
  attempt (alter (resize (Z.to_nat len) x00) (path h)) (λ _, id).

Definition seek (h : t) (pos : Z) : io t :=
  _ ← attempt id (λ _, id);
  mret (mk (path h) pos).

Definition write_all (h : t) (xs : list byte) : io t :=
  _ ← attempt (alter (write_at (Z.to_nat (pos h)) xs) (path h))
              (λ k, alter (write_at (Z.to_nat (pos h)) (take k xs)) (path h));
  mret (mk (path h) (pos h + Z.of_nat (length xs))).

Definition flush (h : t) : io () := attempt id (λ _, id).
End Handle.

(** [path.parent()] exists unless the path is empty or a root. *)
Definition has_parent (p : str) : bool :=
  match last (Path.components p) with
  | None | Some Path.RootDir => false
  | _ => true
  end.

(** ** [Storage] *)

Module DiskStorage.
Record t : Type := mk {
  geometry : Geometry.t;
  files : list MappedFile.t;
  handles : list Handle.t;
}.

(** One iteration of the creation loop. *)
Definition create_file (handles : list Handle.t) (file : MappedFile.t) : io (list Handle.t) :=
  _ ← (if has_parent (MappedFile.path file) then Handle.create_dir_all else mret ());
  h ← Handle.open (MappedFile.path file);
  _ ← Handle.set_len h (MappedFile.length file);
  mret (handles ++ [h]).

Fixpoint create_files (handles : list Handle.t) (files : list MappedFile.t) : io (list Handle.t) :=
  match files with
  | [] => mret handles
  | file :: files' => hs ← create_file handles file; create_files hs files'
  end.

Definition create (meta : Metainfo.t) (base_dir : str) : io t :=
  geometry ← lift (Geometry.from_info (Metainfo.info meta));
  files ← lift (build_file_map meta base_dir);
  handles ← create_files [] files;
  mret (mk geometry files handles).

(** One write of [write_piece]; the state is the handles and the byte count. *)
Definition write_op (data : list byte) (st : list Handle.t * nat) (op : WriteOp.t)
  : io (list Handle.t * nat) :=
  let '(handles, covered) := st in
  h ← lift (expect (handles !! WriteOp.file_index op));
  h ← Handle.seek h (WriteOp.file_offset op);
  src ← lift (slice_r (Z.to_nat (WriteOp.src_start op))
                (Z.to_nat (WriteOp.src_start op + WriteOp.len op)) data);
  h ← Handle.write_all h src;
  mret (<[WriteOp.file_index op := h]> handles, (covered + Z.to_nat (WriteOp.len op))%nat).

Fixpoint write_ops (data : list byte) (st : list Handle.t * nat) (ops : list WriteOp.t)
  : io (list Handle.t * nat) :=
  match ops with
  | [] => mret st
  | op :: ops' => st' ← write_op data st op; write_ops data st' ops'
  end.

Definition write_piece (s : t) (index : Z) (data : list byte) : io t :=
  global_offset ← lift (Geometry.piece_offset (geometry s) index);
  ops ← lift (map_region (files s) global_offset (length data));
  '(handles, covered) ← write_ops data (handles s, 0%nat) ops;
  if negb (covered =? length data)%nat then lift (Err Storage)
  else mret (mk (geometry s) (files s) handles).

Fixpoint flush_all (handles : list Handle.t) : io () :=
  match handles with
  | [] => mret ()
  | h :: hs => _ ← Handle.flush h; flush_all hs
  end.

Definition finish (s : t) : io () := flush_all (handles s).
End DiskStorage.

(** [assemble]: the pieces received until the channel closes, then a flush. *)
Fixpoint write_pieces (s : DiskStorage.t) (pieces : list (Z * list byte)) : io DiskStorage.t :=
  match pieces with
  | [] => mret s
  | (index, data) :: pieces' =>
      s' ← DiskStorage.write_piece s index data; write_pieces s' pieces'
  end.

Definition assemble (s : DiskStorage.t) (pieces : list (Z * list byte)) : io () :=
  s' ← write_pieces s pieces;
  DiskStorage.finish s'.

(** ** Reasoning about I/O

    [wp m Q w]: run from [w], [m] does not panic; it fails only with an I/O
    error that the script of [w] holds; and otherwise its result and the disk
    satisfy [Q]. *)

Definition wp {A} (m : io A) (Q : A → gmap str (list byte) → Prop) (w : World) : Prop :=
  match m w with
  | (Ok a, w') => Q a (disk w') ∧ (faults w = [] → faults w' = [])
  | (Err e, _) => e = Io ∧ faults w ≠ []
  | (Panic, _) => False
  end.

Section wp.
Context {A B : Type}.

Lemma wp_ret (a : A) (Q : A → gmap str (list byte) → Prop) (w : World) : Q a (disk w) → wp (mret a) Q w.
Proof. done. Qed.

Lemma wp_lift (r : result A) (a : A) (Q : A → gmap str (list byte) → Prop) (w : World) :
  r = Ok a → Q a (disk w) → wp (lift r) Q w.
Proof. by intros ->. Qed.

Lemma wp_bind (m : io A) (f : A → io B) (P : A → gmap str (list byte) → Prop)
    (Q : B → gmap str (list byte) → Prop) (w : World) :
  wp m P w → (∀ a w', P a (disk w') → wp (f a) Q w') → wp (m ≫= f) Q w.
Proof.
  unfold wp. intros Hm Hf. unfold mbind, io_bind.
  destruct (m w) as [[a|e|] w1]; [|done|done]. destruct Hm as [HP Hw].
  specialize (Hf a w1 HP). destruct (f a w1) as [[b|e|] w2]; naive_solver.
Qed.

Lemma wp_mono (m : io A) (P Q : A → gmap str (list byte) → Prop) (w : World) :
  wp m P w → (∀ a d, P a d → Q a d) → wp m Q w.
Proof. unfold wp. destruct (m w) as [[a|e|] w1]; naive_solver. Qed.
End wp.

Lemma wp_attempt (ok : gmap str (list byte) → gmap str (list byte))
    (partial : nat → gmap str (list byte) → gmap str (list byte))
    (Q : () → gmap str (list byte) → Prop) (w : World) :
  Q () (ok (disk w)) → wp (attempt ok partial) Q w.
Proof. unfold wp, attempt. destruct w as [d [|[k|] fs]]; cbn; naive_solver. Qed.

(** ** Files as one stream *)

(** The files are placed end to end from [off]. *)
Fixpoint placed (off : Z) (files : list MappedFile.t) : Prop :=
  match files with
  | [] => True
  | f :: fs => MappedFile.offset f = off ∧ 0 ≤ MappedFile.length f ∧
               placed (off + MappedFile.length f) fs
  end.

Definition files_length (files : list MappedFile.t) : Z :=
  foldr (λ f acc, MappedFile.length f + acc) 0 files.

(** Each file is on the disk with its length and the given contents. *)
Definition stored (d : gmap str (list byte)) (files : list MappedFile.t) (cs : list (list byte)) : Prop :=
  Forall2 (λ f c, d !! MappedFile.path f = Some c ∧ Z.of_nat (length c) = MappedFile.length f)
    files cs.

Definition paths_of (files : list MappedFile.t) : list str := MappedFile.path <$> files.

(** The bytes of [data], which starts at [g] of the stream, over the bytes [l],
    which start at [off]. *)
Definition overlay (off g : Z) (data l : list byte) : list byte :=
  imap (λ k b, default b (if decide (g ≤ off + Z.of_nat k)
                          then data !! Z.to_nat (off + Z.of_nat k - g) else None)) l.

Lemma overlay_length off g data l : length (overlay off g data l) = length l.
Proof. apply length_imap. Qed.

Lemma overlay_lookup off g data l k :
  overlay off g data l !! k =
  (λ b, default b (if decide (g ≤ off + Z.of_nat k)
                   then data !! Z.to_nat (off + Z.of_nat k - g) else None)) <$> l !! k.
Proof. apply list_lookup_imap. Qed.

Lemma overlay_app off g data l1 l2 :
  overlay off g data (l1 ++ l2) =
  overlay off g data l1 ++ overlay (off + Z.of_nat (length l1)) g data l2.
Proof.
  unfold overlay. rewrite imap_app. f_equal. apply imap_ext. intros k x _. cbn.
  by rewrite Nat2Z.inj_add, Z.add_assoc.
Qed.

(** On one file, the overlay is the write [map_region] emits, or nothing. *)
Lemma overlay_splice off g data c :
  0 ≤ g → 0 ≤ off →
  let s := Z.max g off in
  let e := Z.min (g + Z.of_nat (length data)) (off + Z.of_nat (length c)) in
  overlay off g data c =
  (if decide (e ≤ s) then c
   else splice (Z.to_nat (s - off)) (slice (Z.to_nat (s - g)) (Z.to_nat (e - g)) data) c).
Proof.
  intros Hg Ho s e. apply list_eq. intros k. rewrite overlay_lookup.
  destruct (c !! k) as [b|] eqn:Hk.
  - apply lookup_lt_Some in Hk as Hlt. cbn [fmap option_fmap option_map].
    case_decide as Hgk.
    + destruct (data !! Z.to_nat (off + Z.of_nat k - g)) as [x|] eqn:Hx; cbn [default from_option id].
      * apply lookup_lt_Some in Hx as Hxl. rewrite decide_False by lia.
        rewrite splice_lookup by (rewrite slice_length; lia). rewrite slice_length by lia.
        rewrite decide_True by lia. rewrite slice_lookup by lia. rewrite <-Hx. f_equal. lia.
      * apply lookup_ge_None in Hx as Hxl. case_decide as He; [done|].
        rewrite splice_lookup by (rewrite slice_length; lia). rewrite slice_length by lia.
        rewrite decide_False by lia. done.
    + cbn [default from_option id]. case_decide as He; [done|].
      rewrite splice_lookup by (rewrite slice_length; lia). rewrite slice_length by lia.
      rewrite decide_False by lia. done.
  - apply lookup_ge_None in Hk as Hge. cbn [fmap option_fmap option_map].
    case_decide as He; [by rewrite Hk|].
    rewrite splice_lookup by (rewrite slice_length; lia). rewrite slice_length by lia.
    by rewrite decide_False, Hk by lia.
Qed.

(** A region inside the stream. *)
Lemma overlay_inside g data l :
  0 ≤ g → g + Z.of_nat (length data) ≤ Z.of_nat (length l) →
  overlay 0 g data l = splice (Z.to_nat g) data l.
Proof.
  intros Hg Hl. rewrite overlay_splice by lia. cbv zeta. case_decide as He.
  - assert (data = []) as -> by (apply nil_length_inv; lia). by rewrite splice_nil.
  - f_equal; [lia|]. replace (Z.to_nat (Z.max g 0 - g)) with 0%nat by lia.
    replace (Z.to_nat _) with (length data) by lia. apply slice_full.
Qed.

Lemma write_at_inside o xs c :
  (o + length xs ≤ length c)%nat → write_at o xs c = splice o xs c.
Proof. intros. unfold write_at. by rewrite Nat.max_l, resize_all by lia. Qed.

(** ** The file map *)

Lemma files_length_app fs1 fs2 : files_length (fs1 ++ fs2) = files_length fs1 + files_length fs2.
Proof. unfold files_length. induction fs1 as [|f fs1 IH]; cbn; lia. Qed.

Lemma files_length_nonneg off files : placed off files → 0 ≤ files_length files.
Proof.
  revert off. induction files as [|f fs IH]; intros off; cbn; [lia|].
  intros (_ & ? & Hp). specialize (IH _ Hp). unfold files_length in IH. lia.
Qed.

Lemma placed_app off fs1 fs2 :
  placed off (fs1 ++ fs2) ↔ placed off fs1 ∧ placed (off + files_length fs1) fs2.
Proof.
  revert off. induction fs1 as [|f fs1 IH]; intros off; cbn.
  - rewrite Z.add_0_r. tauto.
  - rewrite IH. unfold files_length. rewrite Z.add_assoc. tauto.
Qed.

Definition sum_snd (pls : list (str * Z)) : Z := foldr (λ pl acc, pl.2 + acc) 0 pls.

Lemma push_files_Ok pls files offset files' offset' :
  Forall (λ pl, 0 ≤ pl.2) pls → fold_result push_file (files, offset) pls = Ok (files', offset') →
  ∃ fs, files' = files ++ fs ∧ placed offset fs ∧
    ((λ f, (MappedFile.path f, MappedFile.length f)) <$> fs) = pls ∧
    offset' = offset + sum_snd pls ∧ (offset < 2 ^ 64 → offset' < 2 ^ 64).
Proof.
  intros Hpls. revert files offset. induction Hpls as [|[p l] pls Hl _ IH]; intros files offset;
    cbn [fold_result push_file].
  - intros [= <- <-]. exists []. rewrite app_nil_r. cbn. split_and!; try done; lia.
  - intros Hr. apply bind_Ok_inv in Hr as ([fs1 o1] & H1 & Hr).
    apply bind_Ok_inv in H1 as (o2 & Ho%ok_or_Ok_inv%checked_add_Some & [= <- <-]).
    destruct Ho as [-> Ho].
    destruct (IH _ _ Hr) as (fs & -> & Hp & Hm & -> & Hlt).
    exists (MappedFile.mk p l offset :: fs). split; [by rewrite <-app_assoc|].
    cbn in *. split_and!; try done; [by rewrite Hm|unfold sum_snd; lia|auto].
Qed.

Lemma push_files_Err pls files offset :
  Forall (λ pl, 0 ≤ pl.2) pls → 0 ≤ offset →
  fold_result push_file (files, offset) pls =
    match fold_result push_file (files, offset) pls with
    | Ok r => Ok r
    | _ => Err Storage
    end ∧
  (is_Ok (fold_result push_file (files, offset) pls) ↔ pls = [] ∨ offset + sum_snd pls < 2 ^ 64).
Proof.
  intros Hpls. revert files offset. induction Hpls as [|[p l] pls Hl Hpls IH]; intros files offset Ho;
    cbn [fold_result push_file].
  - split; [done|]. split; [by left|]. eexists. done.
  - cbn in Hl. assert (0 ≤ sum_snd pls) as Hs.
    { clear -Hpls. induction Hpls as [|[q m] pls ? _ IH]; cbn in *; [lia|].
      unfold sum_snd in IH. lia. }
    destruct (checked_add 64 offset l) as [o'|] eqn:Hc; red_result.
    + apply checked_add_Some in Hc as [-> Hc].
      destruct (IH (files ++ [MappedFile.mk p l offset]) (offset + l) ltac:(lia)) as [He Hi].
      split; [done|]. rewrite Hi. cbn [sum_snd foldr snd]. unfold sum_snd in *. split.
      * intros [->|]; right; cbn in *; lia.
      * intros [|]; [done|]. destruct pls; [by left|right; lia].
    + apply checked_add_None in Hc. split; [done|]. split; [by intros []|].
      cbn [sum_snd foldr snd]. unfold sum_snd in *. intros [|]; [done|]. lia.
Qed.

(** ** The writes of a region *)

(** [op] writes bytes [src_start..] of the region at [g] where they belong in
    file [f]. *)
Definition op_fits (g e : Z) (f : MappedFile.t) (op : WriteOp.t) : Prop :=
  0 < WriteOp.len op ∧ 0 ≤ WriteOp.file_offset op ∧
  WriteOp.file_offset op + WriteOp.len op ≤ MappedFile.length f ∧
  0 ≤ WriteOp.src_start op ∧ g + WriteOp.src_start op + WriteOp.len op ≤ e ∧
  MappedFile.offset f + WriteOp.file_offset op = g + WriteOp.src_start op.

Definition op_covers (op : WriteOp.t) (j : Z) : Prop :=
  WriteOp.src_start op ≤ j < WriteOp.src_start op + WriteOp.len op.

Definition op_before (a b : WriteOp.t) : Prop :=
  (WriteOp.file_index a < WriteOp.file_index b)%nat ∧
  WriteOp.src_start a + WriteOp.len a ≤ WriteOp.src_start b.

Definition the_op (g e : Z) (k : nat) (f : MappedFile.t) : option WriteOp.t :=
  let s := Z.max g (MappedFile.offset f) in
  let e' := Z.min e (MappedFile.offset f + MappedFile.length f) in
  if decide (e' ≤ s) then None
  else Some (WriteOp.mk k (s - MappedFile.offset f) (s - g) (e' - s)).

Lemma region_op_Ok g e k f :
  MappedFile.offset f + MappedFile.length f < 2 ^ 64 → region_op g e k f = Ok (the_op g e k f).
Proof.
  intros. unfold region_op, the_op. rewrite add_w_Ok by done. red_result. by case_decide.
Qed.

(** The pure form of the loop, when no file end overflows. *)
Definition the_ops (g e : Z) (k : nat) (files : list MappedFile.t) : list WriteOp.t :=
  concat (imap (λ i f, option_list (the_op g e (k + i) f)) files).

Lemma the_ops_cons g e k f files :
  the_ops g e k (f :: files) = option_list (the_op g e k f) ++ the_ops g e (S k) files.
Proof.
  unfold the_ops. cbn [imap concat]. rewrite Nat.add_0_r. f_equal. f_equal.
  apply imap_ext. intros i x _. cbn. by replace (k + S i)%nat with (S k + i)%nat by lia.
Qed.

Lemma region_ops_Ok off g e k files :
  placed off files → off + files_length files < 2 ^ 64 →
  region_ops g e k files = Ok (the_ops g e k files).
Proof.
  revert off k. induction files as [|f files IH]; intros off k; [done|].
  intros (Ho & Hl & Hp) Ht. pose proof (files_length_nonneg _ _ Hp).
  cbn [files_length foldr] in Ht. fold (files_length files) in Ht.
  cbn [region_ops]. rewrite region_op_Ok by lia. red_result.
  rewrite (IH (off + MappedFile.length f)) by (done || lia). red_result.
  by rewrite the_ops_cons.
Qed.

Lemma the_op_fits g e k f op :
  0 ≤ MappedFile.length f → the_op g e k f = Some op → op_fits g e f op ∧ WriteOp.file_index op = k.
Proof.
  unfold the_op, op_fits. intros Hl. case_decide; [done|]. intros [= <-]. cbn. lia.
Qed.

(** Every write is in bounds and belongs to the file it names. *)
Lemma the_ops_fit off g e k files :
  placed off files →
  Forall (λ op, ∃ i f, WriteOp.file_index op = (k + i)%nat ∧ files !! i = Some f ∧
                       off ≤ MappedFile.offset f ∧ op_fits g e f op) (the_ops g e k files).
Proof.
  revert off k. induction files as [|f files IH]; intros off k; [intros; apply Forall_nil_2|].
  intros (Ho & Hl & Hp). rewrite the_ops_cons. apply Forall_app. split.
  - destruct (the_op g e k f) as [op|] eqn:Hop; [|constructor].
    apply the_op_fits in Hop as [Hf Hk]; [|done]. constructor; [|constructor].
    exists 0%nat, f. split_and!; [lia|done|lia|done].
  - eapply Forall_impl; [by apply IH|]. intros op (i & f' & Hk & Hf & Hoff & Hfit).
    exists (S i), f'. split_and!; [lia|done|lia|done].
Qed.

Lemma the_ops_cover off g e k files j :
  placed off files → g ≤ g + j < e →
  off ≤ g + j < off + files_length files ↔ Exists (λ op, op_covers op j) (the_ops g e k files).
Proof.
  revert off k. induction files as [|f files IH]; intros off k.
  { intros _ _. cbn. rewrite Exists_nil. lia. }
  intros (Ho & Hl & Hp) Hj. rewrite the_ops_cons, Exists_app.
  rewrite <-(IH (off + MappedFile.length f)) by done.
  pose proof (files_length_nonneg _ _ Hp).
  cbn [files_length foldr]. fold (files_length files).
  assert (Exists (λ op, op_covers op j) (option_list (the_op g e k f)) ↔
          off ≤ g + j < off + MappedFile.length f) as ->.
  { unfold the_op. case_decide; simpl; [rewrite Exists_nil; lia|].
    rewrite Exists_cons, Exists_nil. unfold op_covers; cbn. lia. }
  lia.
Qed.

Lemma the_ops_sorted off g e k files :
  placed off files → StronglySorted op_before (the_ops g e k files).
Proof.
  revert off k. induction files as [|f files IH]; intros off k; [intros; constructor|].
  intros (Ho & Hl & Hp). rewrite the_ops_cons.
  pose proof (the_ops_fit _ g e (S k) _ Hp) as Hfit.
  specialize (IH _ (S k) Hp).
  destruct (the_op g e k f) as [op|] eqn:Hop; [|done]. cbn [option_list app].
  constructor; [done|]. eapply Forall_impl; [exact Hfit|].
  intros op' (i & f' & Hk & _ & Hoff & Hf'). apply the_op_fits in Hop as [Hf <-]; [|done].
  unfold op_before, op_fits in *. lia.
Qed.

(** ** Executing the writes *)

Definition handles_match (k : nat) (files : list MappedFile.t) (hs : list Handle.t) : Prop :=
  ∀ i f, files !! i = Some f → ∃ h, hs !! (k + i)%nat = Some h ∧ Handle.path h = MappedFile.path f.

Lemma handles_match_paths k files hs hs' :
  Handle.path <$> hs = Handle.path <$> hs' → handles_match k files hs → handles_match k files hs'.
Proof.
  intros Heq Hm i f Hf. destruct (Hm i f Hf) as (h & Hh & Hp).
  assert ((Handle.path <$> hs) !! (k + i)%nat = Some (MappedFile.path f)) as Hl
    by (by rewrite list_lookup_fmap, Hh, <-Hp).
  rewrite Heq, list_lookup_fmap in Hl. apply fmap_Some in Hl as (h' & Hh' & ->). eauto.
Qed.

(** One write inside its file. *)
Lemma write_op_wp data hs c op f h d cf w :
  hs !! WriteOp.file_index op = Some h → Handle.path h = MappedFile.path f →
  disk w = d → d !! MappedFile.path f = Some cf →
  0 ≤ WriteOp.file_offset op → 0 ≤ WriteOp.len op → 0 ≤ WriteOp.src_start op →
  WriteOp.file_offset op + WriteOp.len op ≤ Z.of_nat (length cf) →
  WriteOp.src_start op + WriteOp.len op ≤ Z.of_nat (length data) →
  wp (DiskStorage.write_op data (hs, c) op)
    (λ '(hs', c') d',
       Handle.path <$> hs' = Handle.path <$> hs ∧ c' = (c + Z.to_nat (WriteOp.len op))%nat ∧
       d' = <[MappedFile.path f :=
                splice (Z.to_nat (WriteOp.file_offset op))
                  (slice (Z.to_nat (WriteOp.src_start op))
                     (Z.to_nat (WriteOp.src_start op + WriteOp.len op)) data) cf]> d) w.
Proof.
  intros Hh Hp Hd Hcf Hfo Hlen Hs Hb1 Hb2. unfold DiskStorage.write_op.
  eapply wp_bind; [eapply (wp_lift _ h (λ h' d', h' = h ∧ d' = d)); [by rewrite Hh|done]|].
  intros h0 w0 [-> Hd0].
  eapply (wp_bind _ _ (λ h' d', h' = Handle.mk (Handle.path h) (WriteOp.file_offset op) ∧ d' = d)).
  { unfold Handle.seek. eapply wp_bind; [apply (wp_attempt _ _ (λ _ d', d' = d)); done|].
    intros [] w1 Hw1. by apply wp_ret. }
  intros h1 w1 [-> Hd1].
  set (src := slice (Z.to_nat (WriteOp.src_start op))
                (Z.to_nat (WriteOp.src_start op + WriteOp.len op)) data).
  eapply wp_bind; [eapply (wp_lift _ src (λ s' d', s' = src ∧ d' = d));
                   [apply slice_r_Ok; lia|done]|].
  intros s0 w2 [-> Hd2].
  assert (length src = Z.to_nat (WriteOp.len op)) as Hsrc by (unfold src; rewrite slice_length; lia).
  eapply (wp_bind _ _ (λ h' d', Handle.path h' = Handle.path h ∧
    d' = <[MappedFile.path f := splice (Z.to_nat (WriteOp.file_offset op)) src cf]> d)).
  { unfold Handle.write_all. eapply wp_bind.
    - apply (wp_attempt _ _ (λ _ d',
        d' = <[MappedFile.path f := splice (Z.to_nat (WriteOp.file_offset op)) src cf]> d)).
      rewrite Hd2. cbn. rewrite Hp. apply map_eq. intros p.
      destruct (decide (p = MappedFile.path f)) as [->|Hne]; simplify_map_eq; [|done].
      rewrite write_at_inside by lia. done.
    - intros [] w3 Hw3. by apply wp_ret. }
  intros h3 w3 [Hp3 Hd3]. apply wp_ret. split; [|done].
  rewrite list_fmap_insert. rewrite Hp3. apply list_insert_id. by rewrite list_lookup_fmap, Hh.
Qed.

Lemma stored_fresh d p c files cs :
  p ∉ paths_of files → stored d files cs → stored (<[p := c]> d) files cs.
Proof.
  intros Hp. unfold paths_of in Hp. induction 1 as [|f cf files cs [Hf Hl] _ IH]; [constructor|].
  cbn in Hp. apply not_elem_of_cons in Hp as [Hne Hp]. constructor; [|by apply IH].
  by rewrite lookup_insert_ne.
Qed.

Lemma stored_length d files cs :
  stored d files cs → Z.of_nat (length (concat cs)) = files_length files.
Proof.
  induction 1 as [|f c files cs [_ Hl] _ IH]; [done|].
  cbn [concat files_length foldr]. rewrite length_app. unfold files_length in IH. lia.
Qed.

Lemma write_ops_app data st ops1 ops2 w :
  DiskStorage.write_ops data st (ops1 ++ ops2) w =
  (DiskStorage.write_ops data st ops1 ≫= λ st', DiskStorage.write_ops data st' ops2) w.
Proof.
  revert st w. induction ops1 as [|op ops1 IH]; intros st w; [done|].
  cbn [app DiskStorage.write_ops]. unfold mbind, io_bind.
  destruct (DiskStorage.write_op data st op w) as [[st'| |] w']; [|done..].
  rewrite IH. done.
Qed.

(** The write to one file puts the overlay there. *)
Lemma head_op_wp data g off k f files hs c c0 w :
  0 ≤ g → 0 ≤ off → MappedFile.offset f = off → Z.of_nat (length c0) = MappedFile.length f →
  handles_match k (f :: files) hs → disk w !! MappedFile.path f = Some c0 →
  let e := g + Z.of_nat (length data) in
  wp (DiskStorage.write_ops data (hs, c) (option_list (the_op g e k f)))
    (λ '(hs', c') d', Handle.path <$> hs' = Handle.path <$> hs ∧
       d' = <[MappedFile.path f := overlay off g data c0]> (disk w) ∧
       c' = (c + Z.to_nat (Z.min e (off + MappedFile.length f) - Z.max g off))%nat) w.
Proof.
  intros Hg Hoff Ho Hl Hm Hf e. rewrite overlay_splice by done. unfold the_op. rewrite Ho, Hl.
  fold e. case_decide as He; cbn [option_list option_rect DiskStorage.write_ops].
  - apply wp_ret. split; [done|]. split; [|lia]. by rewrite insert_id.
  - destruct (Hm 0%nat f eq_refl) as (h & Hh & Hp). rewrite Nat.add_0_r in Hh.
    eapply wp_bind; [eapply write_op_wp; [exact Hh|exact Hp|reflexivity|exact Hf|cbn; lia..]|].
    intros [hs' c'] w' (Hhs & -> & Hd). apply wp_ret. cbn in Hd |- *.
    split; [done|]. split; [|lia]. rewrite Hd. do 2 f_equal. f_equal. lia.
Qed.

Lemma write_ops_wp data g off k files hs c cs w :
  0 ≤ g → 0 ≤ off → placed off files → NoDup (paths_of files) →
  handles_match k files hs → stored (disk w) files cs →
  let e := g + Z.of_nat (length data) in
  wp (DiskStorage.write_ops data (hs, c) (the_ops g e k files))
    (λ '(hs', c') d', Handle.path <$> hs' = Handle.path <$> hs ∧
       (∃ cs', stored d' files cs' ∧ concat cs' = overlay off g data (concat cs)) ∧
       (∀ p, p ∉ paths_of files → d' !! p = disk w !! p) ∧
       c' = (c + Z.to_nat (Z.min e (off + files_length files) - Z.max g off))%nat) w.
Proof.
  intros Hg Hoff Hpl Hnd Hm Hst e.
  revert off k hs c cs w Hoff Hpl Hnd Hm Hst.
  induction files as [|f files IH]; intros off k hs c cs w Hoff Hpl Hnd Hm Hst.
  { apply wp_ret. split; [done|]. inversion Hst; subst. split; [by exists []|].
    split; [done|]. cbn. lia. }
  destruct Hpl as (Ho & Hl & Hp). apply NoDup_cons in Hnd as [Hnf Hnd].
  fold (paths_of files) in Hnf, Hnd.
  apply Forall2_cons_inv_l in Hst as (c0 & cs1 & [Hf Hlc] & Hst & ->).
  pose proof (files_length_nonneg _ _ Hp) as Hfl.
  cbn [files_length foldr]. fold (files_length files).
  rewrite the_ops_cons. unfold wp. rewrite write_ops_app.
  change (wp (DiskStorage.write_ops data (hs, c) (option_list (the_op g e k f)) ≫=
    λ st', DiskStorage.write_ops data st' (the_ops g e (S k) files))
    (λ '(hs', c') d', Handle.path <$> hs' = Handle.path <$> hs ∧
       (∃ cs', stored d' (f :: files) cs' ∧ concat cs' = overlay off g data (concat (c0 :: cs1))) ∧
       (∀ p, p ∉ paths_of (f :: files) → d' !! p = disk w !! p) ∧
       c' = (c + Z.to_nat (Z.min e (off + (MappedFile.length f + files_length files)) - Z.max g off))%nat) w).
  eapply wp_bind; [apply (head_op_wp data g off k f files hs c c0 w); done|].
  intros [hs1 c1] w1 (Hhs1 & Hd1 & Hc1).
  assert (handles_match (S k) files hs1) as Hm1.
  { apply (handles_match_paths _ _ hs); [done|]. intros i f' Hf'.
    destruct (Hm (S i) f' Hf') as (h & Hh & Hph). exists h. split; [|done].
    by replace (S k + i)%nat with (k + S i)%nat by lia. }
  assert (stored (disk w1) files cs1) as Hst1 by (rewrite Hd1; by apply stored_fresh).
  specialize (IH (off + MappedFile.length f) (S k) hs1 c1 cs1 w1 ltac:(lia) Hp Hnd Hm1 Hst1).
  eapply wp_mono; [exact IH|].
  intros [hs' c'] d' (Hhs' & (cs' & Hst' & Hcs') & Hframe & Hc').
  split; [by rewrite Hhs'|]. split; [|split].
  - exists (overlay off g data c0 :: cs'). split.
    + constructor; [|done]. rewrite Hframe, Hd1 by done. simplify_map_eq.
      split; [done|]. by rewrite overlay_length.
    + cbn [concat]. by rewrite overlay_app, Hcs', Hlc.
  - intros p Hp'. unfold paths_of in Hp'. cbn in Hp'. apply not_elem_of_cons in Hp' as [Hne Hp'].
    rewrite Hframe, Hd1 by done. by rewrite lookup_insert_ne.
  - lia.
Qed.

(** ** The storage invariant

    The geometry and the file map describe the same stream, the paths are
    distinct, each handle is open on its file and each file holds its bytes. *)
Definition consistent (s : DiskStorage.t) (d : gmap str (list byte)) (cs : list (list byte)) : Prop :=
  Geometry.wf (DiskStorage.geometry s) ∧ placed 0 (DiskStorage.files s) ∧
  files_length (DiskStorage.files s) = Geometry.total_length (DiskStorage.geometry s) ∧
  Geometry.total_length (DiskStorage.geometry s) < 2 ^ 64 ∧
  NoDup (paths_of (DiskStorage.files s)) ∧
  handles_match 0 (DiskStorage.files s) (DiskStorage.handles s) ∧
  stored d (DiskStorage.files s) cs.

(** Where piece [i] begins. *)
Definition piece_start (g : Geometry.t) (i : Z) : Z := i * Geometry.nominal_length g.

Lemma write_piece_wp s index data cs w :
  consistent s (disk w) cs → 0 ≤ index < Geometry.num_pieces (DiskStorage.geometry s) →
  Z.of_nat (length data) = Geometry.piece_size (DiskStorage.geometry s) index →
  wp (DiskStorage.write_piece s index data)
    (λ s' d', DiskStorage.geometry s' = DiskStorage.geometry s ∧
       DiskStorage.files s' = DiskStorage.files s ∧
       (∃ cs', consistent s' d' cs' ∧
          concat cs' = splice (Z.to_nat (piece_start (DiskStorage.geometry s) index)) data (concat cs)) ∧
       (∀ p, p ∉ paths_of (DiskStorage.files s) → d' !! p = disk w !! p)) w.
Proof.
  intros (Hg & Hpl & Htot & H64 & Hnd & Hm & Hst) Hi Hd.
  set (g := DiskStorage.geometry s) in *. set (fs := DiskStorage.files s) in *.
  pose proof (Geometry.piece_end_total g Hg index Hi) as Hend.
  assert (0 ≤ piece_start g index) as Hps by (unfold piece_start; destruct Hg as (? & _); nia).
  fold (piece_start g index) in Hend.
  unfold DiskStorage.write_piece.
  eapply wp_bind; [eapply (wp_lift _ _ (λ a d, a = piece_start g index ∧ d = disk w));
                   [by apply Geometry.piece_offset_Ok|done]|].
  intros a w1 [-> Hw1].
  eapply wp_bind; [eapply (wp_lift _ _ (λ a d, a = the_ops (piece_start g index)
    (piece_start g index + Z.of_nat (length data)) 0 fs ∧ d = disk w)); [|done]|].
  { unfold map_region. rewrite add_w_Ok by lia. red_result. apply (region_ops_Ok 0); [done|lia]. }
  intros ops w2 [-> Hw2].
  eapply wp_bind; [apply (write_ops_wp data (piece_start g index) 0 0 fs
    (DiskStorage.handles s) 0 cs w2); [lia|lia|done|done|done|by rewrite Hw2]|].
  intros [hs' c'] w3 (Hhs & (cs' & Hst' & Hcs') & Hframe & Hc').
  rewrite (proj2 (Nat.eqb_eq _ _)) by lia. cbn [negb].
  apply wp_ret. cbn [DiskStorage.geometry DiskStorage.files].
  split; [done|]. split; [done|]. split.
  - exists cs'. split.
    + unfold consistent; cbn. split_and!; try done.
      by apply (handles_match_paths _ _ (DiskStorage.handles s)).
    + rewrite Hcs'. apply overlay_inside; [done|].
      rewrite (stored_length _ _ _ Hst). lia.
  - intros p Hp. by rewrite Hframe, Hw2.
Qed.

(** ** Assembling the content *)

Definition piece_bytes (g : Geometry.t) (content : list byte) (i : Z) : list byte :=
  slice (Z.to_nat (piece_start g i)) (Z.to_nat (piece_start g i + Geometry.piece_size g i)) content.

(** The stream [l] agrees with [content] on the pieces [is]. *)
Definition agrees (g : Geometry.t) (content : list byte) (is_ : list Z) (l : list byte) : Prop :=
  ∀ i, i ∈ is_ → 0 ≤ i < Geometry.num_pieces g ∧ piece_bytes g l i = piece_bytes g content i.

Section pieces.
Context (g : Geometry.t) (Hg : Geometry.wf g).

Lemma piece_range i :
  0 ≤ i < Geometry.num_pieces g →
  0 ≤ piece_start g i ∧ 0 < Geometry.piece_size g i ∧
  piece_start g i + Geometry.piece_size g i ≤ Geometry.total_length g.
Proof using Hg.
  intros Hi. pose proof (Geometry.piece_size_range g Hg i).
  pose proof (Geometry.piece_end_total g Hg i Hi). unfold piece_start.
  destruct Hg as (? & _). nia.
Qed.

(** Distinct pieces do not overlap. *)
Lemma pieces_disjoint i j :
  0 ≤ i < Geometry.num_pieces g → 0 ≤ j < Geometry.num_pieces g → i < j →
  piece_start g i + Geometry.piece_size g i ≤ piece_start g j.
Proof using Hg.
  intros Hi Hj Hij. pose proof (Geometry.piece_size_range g Hg i). unfold piece_start.
  destruct Hg as (? & _). nia.
Qed.

Lemma piece_bytes_length l i :
  0 ≤ i < Geometry.num_pieces g → Z.of_nat (length l) = Geometry.total_length g →
  Z.of_nat (length (piece_bytes g l i)) = Geometry.piece_size g i.
Proof using Hg.
  intros Hi Hl. pose proof (piece_range i Hi). unfold piece_bytes.
  rewrite slice_length by lia. lia.
Qed.

(** Writing piece [i] changes piece [i] and no other. *)
Lemma piece_bytes_write l d i j :
  0 ≤ i < Geometry.num_pieces g → 0 ≤ j < Geometry.num_pieces g →
  Z.of_nat (length l) = Geometry.total_length g →
  Z.of_nat (length d) = Geometry.piece_size g i →
  piece_bytes g (splice (Z.to_nat (piece_start g i)) d l) j =
  (if decide (i = j) then d else piece_bytes g l j).
Proof using Hg.
  intros Hi Hj Hl Hd. pose proof (piece_range i Hi). pose proof (piece_range j Hj).
  apply list_eq. intros k.
  destruct (decide (Z.of_nat k < Geometry.piece_size g j)) as [Hk|Hk].
  2:{ rewrite lookup_ge_None_2 by (unfold piece_bytes at 1;
        rewrite slice_length by (rewrite splice_length; lia); lia).
      case_decide; subst; rewrite lookup_ge_None_2; try done;
        [lia|pose proof (piece_bytes_length l j Hj Hl); lia]. }
  unfold piece_bytes at 1. rewrite slice_lookup by lia. rewrite splice_lookup by lia.
  destruct (decide (i = j)) as [->|Hne].
  - rewrite decide_True by lia. f_equal. lia.
  - rewrite decide_False.
    + unfold piece_bytes. by rewrite slice_lookup by lia.
    + destruct (decide (i < j)).
      * pose proof (pieces_disjoint i j Hi Hj ltac:(lia)). lia.
      * pose proof (pieces_disjoint j i Hj Hi ltac:(lia)). lia.
Qed.

Lemma piece_bytes_splice l content i j :
  0 ≤ i < Geometry.num_pieces g → 0 ≤ j < Geometry.num_pieces g →
  Z.of_nat (length l) = Geometry.total_length g →
  Z.of_nat (length content) = Geometry.total_length g →
  piece_bytes g (splice (Z.to_nat (piece_start g i)) (piece_bytes g content i) l) j =
  (if decide (i = j) then piece_bytes g content i else piece_bytes g l j).
Proof using Hg. intros. apply piece_bytes_write; try done. by apply piece_bytes_length. Qed.

(** A stream that agrees on every piece is the content. *)
Lemma agrees_all content l is_ :
  Z.of_nat (length content) = Geometry.total_length g →
  Z.of_nat (length l) = Geometry.total_length g →
  agrees g content is_ l → (∀ i, 0 ≤ i < Geometry.num_pieces g → i ∈ is_) → l = content.
Proof using Hg.
  intros Hc Hl Hag Hall. apply list_eq. intros o.
  destruct (decide (Z.of_nat o < Geometry.total_length g)) as [Ho|Ho];
    [|by rewrite !lookup_ge_None_2 by lia].
  pose proof Hg as (Hn & Hp & Hlast & Ht).
  set (i := Z.of_nat o `div` Geometry.nominal_length g).
  pose proof (Z.div_mod (Z.of_nat o) (Geometry.nominal_length g) ltac:(lia)) as Hd. fold i in Hd.
  pose proof (Z.mod_pos_bound (Z.of_nat o) (Geometry.nominal_length g) ltac:(lia)) as Hm.
  assert (0 ≤ i < Geometry.num_pieces g) as Hi by (split; nia).
  assert (Z.of_nat o `mod` Geometry.nominal_length g < Geometry.piece_size g i) as Hr.
  { unfold Geometry.piece_size. case_decide; [nia|lia]. }
  destruct (Hag i (Hall i Hi)) as [_ Heq].
  apply (f_equal (λ x, x !! Z.to_nat (Z.of_nat o `mod` Geometry.nominal_length g))) in Heq.
  unfold piece_bytes, piece_start in Heq.
  rewrite !slice_lookup in Heq by (pose proof (piece_range i Hi); unfold piece_start in *; lia).
  replace (Z.to_nat (i * Geometry.nominal_length g) +
    Z.to_nat (Z.of_nat o `mod` Geometry.nominal_length g))%nat with o in Heq by nia.
  done.
Qed.
End pieces.

Lemma consistent_length s d cs :
  consistent s d cs →
  Z.of_nat (length (concat cs)) = Geometry.total_length (DiskStorage.geometry s).
Proof. intros (_ & _ & <- & _ & _ & _ & Hst). by eapply stored_length. Qed.

(** A written piece agrees with the content, and the others keep agreeing. *)
Lemma write_piece_agrees s content i is_ cs w :
  let g := DiskStorage.geometry s in
  consistent s (disk w) cs → Z.of_nat (length content) = Geometry.total_length g →
  0 ≤ i < Geometry.num_pieces g → agrees g content is_ (concat cs) →
  wp (DiskStorage.write_piece s i (piece_bytes g content i))
    (λ s' d', DiskStorage.geometry s' = g ∧ DiskStorage.files s' = DiskStorage.files s ∧
       (∃ cs', consistent s' d' cs' ∧ agrees g content (i :: is_) (concat cs')) ∧
       (∀ p, p ∉ paths_of (DiskStorage.files s) → d' !! p = disk w !! p)) w.
Proof.
  intros g Hs Hlen Hi Hag. pose proof Hs as (Hg & _). pose proof (consistent_length _ _ _ Hs) as Hcl.
  eapply wp_mono; [apply (write_piece_wp s i _ cs w Hs Hi); by apply piece_bytes_length|].
  intros s1 d1 (Hgeo & Hfiles & (cs1 & Hs1 & Hcs1) & Hfr).
  split; [done|]. split; [done|]. split; [|done]. exists cs1. split; [done|].
  intros j [->|Hj]%elem_of_cons; rewrite Hcs1.
  - split; [done|]. rewrite piece_bytes_splice by done. by rewrite decide_True.
  - destruct (Hag j Hj) as [Hjr Hje]. split; [done|].
    rewrite piece_bytes_splice by done. case_decide; [by subst|done].
Qed.

Lemma write_pieces_wp s content ps is_ cs w :
  let g := DiskStorage.geometry s in
  consistent s (disk w) cs → Z.of_nat (length content) = Geometry.total_length g →
  Forall (λ p, 0 ≤ p.1 < Geometry.num_pieces g ∧ p.2 = piece_bytes g content p.1) ps →
  agrees g content is_ (concat cs) →
  wp (write_pieces s ps)
    (λ s' d', DiskStorage.geometry s' = g ∧ DiskStorage.files s' = DiskStorage.files s ∧
       (∃ cs', consistent s' d' cs' ∧ agrees g content (reverse ps.*1 ++ is_) (concat cs')) ∧
       (∀ p, p ∉ paths_of (DiskStorage.files s) → d' !! p = disk w !! p)) w.
Proof.
  intros g Hs Hlen Hps. subst g. revert s is_ cs w Hs Hlen Hps.
  induction ps as [|[i data] ps IH]; intros s is_ cs w Hs Hlen Hps Hag.
  { apply wp_ret. split; [done|]. split; [done|]. split; [by exists cs|done]. }
  apply Forall_cons in Hps as [[Hi Hdata] Hps]. cbn in Hi, Hdata. subst data.
  cbn [write_pieces].
  eapply wp_bind; [by apply (write_piece_agrees s content i is_ cs w Hs Hlen Hi)|].
  intros s1 w1 (Hgeo & Hfiles & (cs1 & Hs1 & Hag1) & Hfr).
  specialize (IH s1 (i :: is_) cs1 w1 Hs1). rewrite Hgeo, Hfiles in IH.
  eapply wp_mono; [by apply IH|].
  intros s' d' (? & ? & (cs' & ? & ?) & Hfr'). split; [done|]. split; [done|]. split.
  - exists cs'. split; [done|]. rewrite fmap_cons, reverse_cons, <-app_assoc. done.
  - intros p Hp. rewrite Hfr' by done. by apply Hfr.
Qed.

Lemma flush_all_wp (hs : list Handle.t) (w : World) (Q : gmap str (list byte) → Prop) :
  Q (disk w) → wp (DiskStorage.flush_all hs) (λ _ d', Q d') w.
Proof.
  revert w. induction hs as [|h hs IH]; intros w HQ; cbn [DiskStorage.flush_all]; [by apply wp_ret|].
  eapply wp_bind; [apply (wp_attempt _ _ (λ _ d', Q d')); done|]. intros [] w1. apply IH.
Qed.

(** ** Creating the files *)

(** The contents of a file after creation: what was there, cut or zero-padded. *)
Definition created (d : gmap str (list byte)) (f : MappedFile.t) : list byte :=
  resize (Z.to_nat (MappedFile.length f)) x00 (default [] (d !! MappedFile.path f)).

Lemma create_files_wp off files hs (w : World) :
  placed off files → NoDup (paths_of files) →
  wp (DiskStorage.create_files hs files)
    (λ hs' d', (∃ hs2, hs' = hs ++ hs2 ∧ Handle.path <$> hs2 = paths_of files) ∧
       stored d' files (created (disk w) <$> files) ∧
       (∀ p, p ∉ paths_of files → d' !! p = disk w !! p)) w.
Proof.
  revert off hs w. induction files as [|f files IH]; intros off hs w Hp Hnd.
  { apply wp_ret. split; [exists []; by rewrite app_nil_r|]. split; [constructor|done]. }
  destruct Hp as (_ & Hl & Hp). apply NoDup_cons in Hnd as [Hnf Hnd].
  fold (paths_of files) in Hnf, Hnd. cbn [DiskStorage.create_files].
  eapply (wp_bind _ _ (λ hs1 d1, (∃ h, hs1 = hs ++ [h] ∧ Handle.path h = MappedFile.path f) ∧
    d1 = <[MappedFile.path f := created (disk w) f]> (disk w))).
  { unfold DiskStorage.create_file.
    eapply (wp_bind _ _ (λ _ d, d = disk w)).
    { destruct (has_parent (MappedFile.path f)); [by apply wp_attempt|by apply wp_ret]. }
    intros [] w1 Hw1.
    eapply (wp_bind _ _ (λ h d, Handle.path h = MappedFile.path f ∧
      d = <[MappedFile.path f := default [] (disk w !! MappedFile.path f)]> (disk w))).
    { unfold Handle.open. eapply (wp_bind _ _ (λ _ d,
        d = <[MappedFile.path f := default [] (disk w !! MappedFile.path f)]> (disk w))).
      - apply wp_attempt. by rewrite Hw1.
      - intros [] w2 Hw2. by apply wp_ret. }
    intros h w2 [Hph Hw2].
    eapply (wp_bind _ _ (λ _ d, d = <[MappedFile.path f := created (disk w) f]> (disk w))).
    { apply wp_attempt. rewrite Hw2, Hph. rewrite alter_insert_eq. done. }
    intros [] w3 Hw3. apply wp_ret. split; [by exists h|done]. }
  intros hs1 w1 [(h & -> & Hph) Hd1].
  eapply wp_mono; [by apply (IH _ (hs ++ [h]) w1 Hp Hnd)|].
  intros hs' d' ((hs2 & -> & Hhs2) & Hst & Hfr). split; [|split].
  - exists (h :: hs2). rewrite <-app_assoc. split; [done|]. cbn. by rewrite Hhs2, Hph.
  - constructor.
    + rewrite Hfr, Hd1 by done. simplify_map_eq. split; [done|].
      unfold created. rewrite length_resize. lia.
    + enough (created (disk w1) <$> files = created (disk w) <$> files) as Hmap
        by (change (stored d' files (created (disk w) <$> files)); by rewrite <-Hmap).
      apply list_fmap_ext. intros i f' Hf'. unfold created. rewrite Hd1, lookup_insert_ne; [done|].
      intros Heq. apply Hnf. unfold paths_of. rewrite Heq. apply list_elem_of_fmap_2.
      by eapply list_elem_of_lookup_2.
  - intros p Hp'. unfold paths_of in Hp'. cbn in Hp'. apply not_elem_of_cons in Hp' as [Hne Hp'].
    rewrite Hfr, Hd1 by done. by rewrite lookup_insert_ne.
Qed.

Lemma file_paths_lengths m base pls :
  Info.wf (Metainfo.info m) → file_paths m base = Ok pls →
  Forall (λ pl, 0 ≤ pl.2) pls ∧
  ∀ n, Info.total_length (Metainfo.info m) = Ok n → sum_snd pls = n.
Proof.
  intros (_ & _ & Hwl & Hwf). unfold file_paths, Info.total_length.
  intros (_ & _ & Hr)%bind_Ok_inv. apply bind_Ok_inv in Hr as (l & Hl & Hr). rewrite Hl. red_result.
  unfold Info.layout in Hl. destruct l as [n|fs].
  - injection Hr as <-. split.
    + constructor; [|constructor]. cbn.
      destruct (Info.length _) as [n'|] eqn:Hn, (Info.files _); try done.
      injection Hl as ->. by apply Hwl.
    + intros m' [= <-]. cbn. lia.
  - assert (Forall (λ f, in_word 64 (FileEntry.length f)) fs) as Hfs.
    { destruct (Info.length _), (Info.files _) as [fs'|]; try done.
      injection Hl as ->. by apply Hwf. }
    apply map_result_Ok_inv in Hr.
    assert (snd <$> pls = FileEntry.length <$> fs) as Hlens.
    { clear -Hr. induction Hr as [|f q fs pls Hq _ IH]; [done|]. cbn. rewrite IH.
      apply file_path_Ok in Hq as [_ ->]. done. }
    split.
    + apply Forall_lookup. intros i [p n] Hpn. cbn.
      assert ((snd <$> pls) !! i = Some n) as Hsn by (by rewrite list_lookup_fmap, Hpn).
      rewrite Hlens, list_lookup_fmap in Hsn. apply fmap_Some in Hsn as (f & Hf & ->).
      by apply (proj1 (Forall_lookup _ _) Hfs i f Hf).
    + intros n Hn. rewrite sum_lengths_spec in Hn by done. case_decide; [|done].
      injection Hn as <-. clear -Hlens. revert fs Hlens.
      induction pls as [|[p n] pls IH]; intros [|f fs] Hlens; try done.
      cbn in Hlens. injection Hlens as -> Hlens. specialize (IH fs Hlens).
      unfold sum_snd, sum_of_lengths in *. cbn. lia.
Qed.

(** ** Properties *)

(** The file map places the torrent's files end to end. For non-negative
    lengths [build_file_map] fails with the error of [file_paths], or with a
    storage error exactly when the lengths of a non-empty list sum past
    [2^64 - 1]; otherwise it keeps the resolved paths and lengths in order, each
    file at the sum of the lengths before it. *)
Theorem build_file_map_contiguous meta base :
  Info.wf (Metainfo.info meta) →
  match file_paths meta base with
  | Ok pls =>
      match build_file_map meta base with
      | Ok files =>
          ((λ f, (MappedFile.path f, MappedFile.length f)) <$> files) = pls ∧
          (∀ i f, files !! i = Some f → MappedFile.offset f = sum_snd (take i pls)) ∧
          (pls = [] ∨ sum_snd pls < 2 ^ 64)
      | Err e => e = Storage ∧ 2 ^ 64 ≤ sum_snd pls
      | Panic => False
      end
  | r => build_file_map meta base = match r with Err e => Err e | _ => Panic end
  end.
Proof.
  intros Hwf. unfold build_file_map. destruct (file_paths meta base) as [pls|e|] eqn:Hpl; [|done..].
  red_result. destruct (file_paths_lengths _ _ _ Hwf Hpl) as [Hnn _].
  destruct (push_files_Err pls [] 0 Hnn ltac:(lia)) as [He Hi].
  destruct (fold_result push_file ([], 0) pls) as [[files o]|e|] eqn:Hf; red_result.
  - destruct (push_files_Ok _ _ _ _ _ Hnn Hf) as (fs & -> & Hp & Hm & _ & _).
    split; [done|]. split.
    + intros i f Hfi. rewrite <-Hm. clear -Hp Hfi. cbn [app] in Hfi.
      replace (MappedFile.offset f) with (MappedFile.offset f - 0) by lia.
      revert i Hfi Hp. generalize 0 as off. induction fs as [|f0 fs IH]; intros off i Hfi Hp; [done|].
      destruct Hp as (Ho & _ & Hp). destruct i as [|i]; cbn in *.
      * injection Hfi as ->. lia.
      * specialize (IH _ _ Hfi Hp). unfold sum_snd in IH. lia.
    + destruct (proj1 Hi ltac:(by eexists)) as [->|]; [by left|right; lia].
  - injection He as ->. split; [done|].
    destruct (decide (2 ^ 64 ≤ sum_snd pls)) as [|Hlt]; [done|].
    destruct (proj2 Hi ltac:(right; lia)) as [? ?]. done.
  - done.
Qed.

(** C17: [map_region] covers a region exactly. For files placed end to end and a
    region that ends below [2^64] it does not overflow; every write is
    non-empty, inside the file it names and inside the region, at the place in
    the stream its bytes belong; the writes go through the files in order
    without overlap; and a byte of the region is written exactly when the files
    reach that far. *)
Theorem map_region_covers files g len :
  placed 0 files → files_length files < 2 ^ 64 → 0 ≤ g → g + Z.of_nat len < 2 ^ 64 →
  ∃ ops, map_region files g len = Ok ops ∧
    Forall (λ op, ∃ f, files !! WriteOp.file_index op = Some f ∧
                       op_fits g (g + Z.of_nat len) f op) ops ∧
    StronglySorted op_before ops ∧
    ∀ j, 0 ≤ j < Z.of_nat len → (g + j < files_length files ↔ Exists (λ op, op_covers op j) ops).
Proof.
  intros Hp Ht Hg He. unfold map_region. rewrite add_w_Ok by lia. red_result.
  exists (the_ops g (g + Z.of_nat len) 0 files). split_and!.
  - by apply (region_ops_Ok 0).
  - eapply Forall_impl; [by apply (the_ops_fit 0)|]. intros op (i & f & -> & Hf & _ & Hfit). eauto.
  - by apply (the_ops_sorted 0).
  - intros j Hj. rewrite <-(the_ops_cover 0) by (done || lia). lia.
Qed.


Lemma assemble_cases s content ps cs w :
  let g := DiskStorage.geometry s in
  consistent s (disk w) cs → Z.of_nat (length content) = Geometry.total_length g →
  Forall (λ p, 0 ≤ p.1 < Geometry.num_pieces g ∧ p.2 = piece_bytes g content p.1) ps →
  match assemble s ps w with
  | (Ok _, w') =>
      ∃ cs', stored (disk w') (DiskStorage.files s) cs' ∧
        (∀ p, p ∈ ps → piece_bytes g (concat cs') p.1 = p.2) ∧
        ((∀ i, 0 ≤ i < Geometry.num_pieces g → i ∈ ps.*1) → concat cs' = content)
  | (Err e, _) => e = Io ∧ faults w ≠ []
  | (Panic, _) => False
  end.
Proof.
  intros g Hs Hlen Hps.
  assert (wp (assemble s ps) (λ _ d', ∃ cs', stored d' (DiskStorage.files s) cs' ∧
    Z.of_nat (length (concat cs')) = Geometry.total_length g ∧
    agrees g content (reverse ps.*1 ++ []) (concat cs')) w) as Hwp.
  { unfold assemble. eapply wp_bind; [apply (write_pieces_wp s content ps [] cs w Hs Hlen Hps)|].
    - intros i Hi. by apply not_elem_of_nil in Hi.
    - intros s' w' (Hgeo & Hfiles & (cs' & Hs' & Hag) & _).
      apply (flush_all_wp _ _ (λ d', ∃ cs', _ ∧ _)). exists cs'.
      pose proof (consistent_length _ _ _ Hs') as Hl. rewrite Hgeo in Hl.
      destruct Hs' as (_ & _ & _ & _ & _ & _ & Hst). rewrite Hfiles in Hst. done. }
  unfold wp in Hwp. destruct (assemble s ps w) as [[[]| |] w']; [|done..].
  destruct Hwp as [(cs' & Hst & Hl & Hag) _]. exists cs'. split; [done|].
  rewrite app_nil_r in Hag. split.
  - intros [i d] Hp. cbn.
    destruct (Hag i) as [_ ->].
    { rewrite elem_of_reverse. apply list_elem_of_fmap. by exists (i, d). }
    rewrite Forall_forall in Hps. destruct (Hps _ Hp) as [_ Heq]. by cbn in Heq.
  - intros Hall. apply (agrees_all g (proj1 Hs) content _ (reverse ps.*1)); try done.
    intros i Hi. rewrite elem_of_reverse. by apply Hall.
Qed.


(** Creating the files establishes the storage invariant. *)
Lemma create_wp meta base g pls w :
  Info.wf (Metainfo.info meta) → Geometry.from_info (Metainfo.info meta) = Ok g →
  Geometry.wf g → Info.total_length (Metainfo.info meta) = Ok (Geometry.total_length g) →
  Geometry.total_length g < 2 ^ 64 →
  file_paths meta base = Ok pls → NoDup pls.*1 →
  wp (DiskStorage.create meta base) (λ s d',
    DiskStorage.geometry s = g ∧
    ((λ f, (MappedFile.path f, MappedFile.length f)) <$> DiskStorage.files s) = pls ∧
    consistent s d' (created (disk w) <$> DiskStorage.files s) ∧
    ∀ p, p ∉ paths_of (DiskStorage.files s) → d' !! p = disk w !! p) w.
Proof.
  intros Hwf Hg Hgwf Htot H64 Hpl Hnd.
  destruct (file_paths_lengths _ _ _ Hwf Hpl) as [Hnn Hsum]. specialize (Hsum _ Htot).
  destruct (push_files_Err pls [] 0 Hnn ltac:(lia)) as [He Hi].
  destruct (proj2 Hi ltac:(right; lia)) as [[files o] Hf].
  destruct (push_files_Ok _ _ _ _ _ Hnn Hf) as (fs & Hfs & Hp & Hm & _ & _).
  cbn [app] in Hfs. subst fs.
  assert (NoDup (paths_of files)) as Hndf.
  { unfold paths_of. rewrite <-Hm in Hnd. by rewrite <-list_fmap_compose in Hnd. }
  assert (files_length files = Geometry.total_length g) as Hfl.
  { rewrite <-Hsum, <-Hm. clear. unfold files_length, sum_snd.
    induction files as [|f files IH]; cbn in *; [done|]. by rewrite IH. }
  unfold DiskStorage.create.
  eapply wp_bind; [apply (wp_lift _ g (λ a d, a = g ∧ d = disk w)); done|].
  intros a w1 [-> Hw1].
  eapply wp_bind; [apply (wp_lift _ files (λ a d, a = files ∧ d = disk w)); [|done]|].
  { unfold build_file_map. rewrite Hpl. red_result. by rewrite Hf. }
  intros a w2 [-> Hw2].
  eapply wp_bind; [by apply (create_files_wp 0 files [] w2)|].
  intros hs' w3 ((hs2 & -> & Hhs2) & Hst & Hfr). apply wp_ret. cbn. rewrite Hw2 in Hst, Hfr.
  split_and!; [done|done| |done]. unfold consistent. cbn. split_and!; try done. intros i f Hfi.
  assert ((Handle.path <$> hs2) !! i = Some (MappedFile.path f)) as Hl
    by (rewrite Hhs2; unfold paths_of; by rewrite list_lookup_fmap, Hfi).
  rewrite list_lookup_fmap in Hl. apply fmap_Some in Hl as (h & Hh & ->). eauto.
Qed.

(** For a torrent with a consistent geometry and distinct paths, [create]
    fails only with an I/O error the system reported; otherwise every file
    exists with its exact length, keeping its previous bytes (cut or padded
    with zeros), no other file changed, and the storage is consistent. *)
Theorem create_consistent meta base g pls w :
  Info.wf (Metainfo.info meta) → Geometry.from_info (Metainfo.info meta) = Ok g →
  Geometry.wf g → Info.total_length (Metainfo.info meta) = Ok (Geometry.total_length g) →
  Geometry.total_length g < 2 ^ 64 →
  file_paths meta base = Ok pls → NoDup pls.*1 →
  match DiskStorage.create meta base w with
  | (Ok s, w') =>
      DiskStorage.geometry s = g ∧
      ((λ f, (MappedFile.path f, MappedFile.length f)) <$> DiskStorage.files s) = pls ∧
      consistent s (disk w') (created (disk w) <$> DiskStorage.files s) ∧
      ∀ p, p ∉ paths_of (DiskStorage.files s) → disk w' !! p = disk w !! p
  | (Err e, _) => e = Io ∧ faults w ≠ []
  | (Panic, _) => False
  end.
Proof.
  intros Hwf Hg Hgwf Htot H64 Hpl Hnd.
  pose proof (create_wp meta base g pls w Hwf Hg Hgwf Htot H64 Hpl Hnd) as Hwp. unfold wp in Hwp.
  destruct (DiskStorage.create meta base w) as [[s| |] w']; [|done..]. by destruct Hwp as [? _].
Qed.

(** ** Witnesses

    Two files of 3 and 5 bytes in two pieces of 4 bytes: the first piece
    straddles the files. *)

Definition straddling_meta : Metainfo.t :=
  {| Metainfo.announce := None; Metainfo.announce_list := None;
     Metainfo.info :=
       {| Info.name := lit "d"; Info.piece_length := 4; Info.pieces := replicate 40 nul;
          Info.length := None;
          Info.files := Some [FileEntry.mk 3 [lit "a"] None; FileEntry.mk 5 [lit "b"] None];
          Info.private := None |};
     Metainfo.comment := None; Metainfo.created_by := None; Metainfo.creation_date := None;
     Metainfo.encoding := None; Metainfo.raw_info_hash := None |}.

Lemma straddling_meta_wf : Info.wf (Metainfo.info straddling_meta).
Proof.
  split_and!; [split; vm_compute; congruence|vm_compute; reflexivity|done|].
  intros fs [= <-]. repeat constructor; vm_compute; congruence.
Qed.

Definition straddling_geometry : Geometry.t := Geometry.mk 8 4 2 4.

Definition straddling_files : list MappedFile.t :=
  [MappedFile.mk (lit "d/a") 3 0; MappedFile.mk (lit "d/b") 5 3].

Definition straddling_storage : DiskStorage.t :=
  DiskStorage.mk straddling_geometry straddling_files
    [Handle.mk (lit "d/a") 0; Handle.mk (lit "d/b") 0].

Definition blank_disk : gmap str (list byte) :=
  <[lit "d/a" := replicate 3 x00]> (<[lit "d/b" := replicate 5 x00]> ∅).

Lemma straddling_consistent :
  consistent straddling_storage blank_disk [replicate 3 x00; replicate 5 x00].
Proof.
  split; [unfold Geometry.wf; cbn; lia|]. split; [cbn; lia|]. split; [done|]. split; [cbn; lia|].
  split; [repeat constructor; set_solver|]. split.
  - intros [|[|i]] f Hf; [injection Hf as <-|injection Hf as <-|done]; by eexists.
  - repeat constructor; vm_compute; reflexivity.
Qed.

Lemma build_file_map_contiguous_witness :
  build_file_map straddling_meta [] = Ok straddling_files ∧
  ∀ i f, straddling_files !! i = Some f →
    MappedFile.offset f = sum_snd (take i [(lit "d/a", 3); (lit "d/b", 5)]).
Proof.
  pose proof (build_file_map_contiguous straddling_meta [] straddling_meta_wf) as Hb.
  change (file_paths straddling_meta []) with
    (Ok [(lit "d/a", 3); (lit "d/b", 5)] : result (list (str * Z))) in Hb.
  change (build_file_map straddling_meta []) with (Ok straddling_files) in *.
  split; [reflexivity|]. exact (proj1 (proj2 Hb)).
Defined.

Lemma map_region_covers_witness :
  ∃ ops, map_region straddling_files 0 4 = Ok ops ∧ StronglySorted op_before ops ∧
    Exists (λ op, op_covers op 3) ops.
Proof.
  destruct (map_region_covers straddling_files 0 4) as (ops & Hops & _ & Hs & Hc);
    [cbn; lia|cbn; lia|lia|lia|].
  exists ops. split; [exact Hops|]. split; [exact Hs|]. apply Hc; cbn; lia.
Defined.



Lemma create_consistent_witness :
  ∃ s w', DiskStorage.create straddling_meta [] (mk_world ∅ []) = (Ok s, w') ∧
    consistent s (disk w') (created ∅ <$> DiskStorage.files s).
Proof.
  pose proof (create_consistent straddling_meta [] straddling_geometry
    [(lit "d/a", 3); (lit "d/b", 5)] (mk_world ∅ []) straddling_meta_wf) as Hc.
  destruct (DiskStorage.create straddling_meta [] (mk_world ∅ [])) as [[s|e|] w'].
  - exists s, w'. split; [reflexivity|].
    apply Hc; [reflexivity|unfold Geometry.wf; cbn; lia|reflexivity|cbn; lia|reflexivity|].
    repeat constructor; set_solver.
  - exfalso. apply (proj2 (Hc eq_refl ltac:(unfold Geometry.wf; cbn; lia) eq_refl ltac:(cbn; lia)
      eq_refl ltac:(repeat constructor; set_solver))). reflexivity.
  - exfalso. apply (Hc eq_refl ltac:(unfold Geometry.wf; cbn; lia) eq_refl ltac:(cbn; lia)
      eq_refl). repeat constructor; set_solver.
Defined.
