(* ===== verification/Addresses.v ===== *)
(** * Text and network addresses of the standard library

    What [src/tracker/mod.rs] uses of Rust's standard library:
    [String::from_utf8_lossy], [SocketAddr], and [str::parse::<IpAddr>], the
    strict dotted-quad and RFC 4291 parser of [core::net]. *)

From S2P Require Export Errors.
From S2P Require Export Paths.

(** ** Lossy UTF-8 *)

Module Utf8.

Definition REPLACEMENT : list byte := [xef; xbf; xbd].

Definition within (lo hi : Z) (o : option byte) : bool :=
  match o with Some b => (lo <=? b2z b) && (b2z b <=? hi) | None => false end.

Definition is_cont (o : option byte) : bool := within 128 191 o.

(** The second byte of a three or four byte character. *)
Definition second_ok (first : Z) (o : option byte) : bool :=
  if first =? 224 then within 160 191 o
  else if first =? 237 then within 128 159 o
  else if first =? 240 then within 144 191 o
  else if first =? 244 then within 128 143 o
  else is_cont o.

(** How many bytes the decoder takes at the head of a text, and whether they
    are a character: an ill-formed sequence stops before the first byte that
    cannot continue it. *)
Definition next (b : byte) (rest : list byte) : nat * bool :=
  let z := b2z b in
  if z <? 128 then (1%nat, true)
  else if (194 <=? z) && (z <=? 223) then
    if is_cont (rest !! 0%nat) then (2%nat, true) else (1%nat, false)
  else if (224 <=? z) && (z <=? 239) then
    if negb (second_ok z (rest !! 0%nat)) then (1%nat, false)
    else if negb (is_cont (rest !! 1%nat)) then (2%nat, false) else (3%nat, true)
  else if (240 <=? z) && (z <=? 244) then
    if negb (second_ok z (rest !! 0%nat)) then (1%nat, false)
    else if negb (is_cont (rest !! 1%nat)) then (2%nat, false)
    else if negb (is_cont (rest !! 2%nat)) then (3%nat, false) else (4%nat, true)
  else (1%nat, false).

(** Every step takes a byte: the length is enough fuel. *)
Fixpoint lossy_f (fuel : nat) (l : list byte) : str :=
  match fuel, l with
  | S fuel', b :: rest =>
      let '(n, valid) := next b rest in
      (if valid then take n l else REPLACEMENT) ++ lossy_f fuel' (drop n l)
  | _, _ => []
  end.

(** [String::from_utf8_lossy(l).into_owned()]. *)
Definition from_utf8_lossy (l : list byte) : str := lossy_f (length l) l.

Lemma lossy_ascii_f fuel l :
  (length l ≤ fuel)%nat → Forall (λ b, b2z b < 128) l → lossy_f fuel l = l.
Proof.
  revert l. induction fuel as [|fuel IH]; intros l Hl Ha.
  - by destruct l; [|cbn in Hl; lia].
  - destruct Ha as [|b l Hb Ha]; [done|]. cbn [lossy_f]. unfold next. cbv zeta.
    destruct (Z.ltb_spec (b2z b) 128); [|lia]. cbn. rewrite drop_0. f_equal.
    apply IH; [cbn in Hl; lia|done].
Qed.

(** ASCII text is kept as it is. *)
Lemma from_utf8_lossy_ascii l : Forall (λ b, b2z b < 128) l → from_utf8_lossy l = l.
Proof. by apply lossy_ascii_f. Qed.
End Utf8.

(** ** IP addresses *)

Inductive IpAddr : Type :=
  | V4 (octets : list byte)
  | V6 (octets : list byte).

#[export] Instance IpAddr_eq_dec : EqDecision IpAddr.
Proof. solve_decision. Defined.

Module SocketAddr.
Record t : Type := mk { ip : IpAddr; port : Z }.

#[global] Instance t_eq_dec : EqDecision t.
Proof. solve_decision. Defined.

Definition is_ipv6 (a : t) : bool := match ip a with V6 _ => true | V4 _ => false end.

(** Four or sixteen octets and a 16-bit port. *)
Definition wf (a : t) : Prop :=
  match ip a with V4 o => length o = 4%nat | V6 o => length o = 16%nat end ∧ in_word 16 (port a).
End SocketAddr.

Module IpParser.

Definition dot : byte := x2e.
Definition colon : byte := x3a.

(** [char::to_digit]. *)
Definition to_digit (radix : Z) (b : byte) : option Z :=
  let z := b2z b in
  let d := if (48 <=? z) && (z <=? 57) then Some (z - 48)
           else if (97 <=? z) && (z <=? 102) then Some (z - 87)
           else if (65 <=? z) && (z <=? 70) then Some (z - 55) else None in
  d ≫= λ d, if d <? radix then Some d else None.

(** The loop of [read_number]: the value, the number of digits and the rest. *)
Fixpoint read_digits (radix : Z) (max_digits count : nat) (result : Z) (l : list byte)
  : option (Z * nat * list byte) :=
  match l with
  | [] => Some (result, count, [])
  | c :: l' =>
      match to_digit radix c with
      | Some d =>
          if (max_digits <? S count)%nat then None
          else read_digits radix max_digits (S count) (result * radix + d) l'
      | None => Some (result, count, l)
      end
  end.

Definition read_number (width radix : Z) (max_digits : nat) (allow_zero_prefix : bool)
    (l : list byte) : option (Z * list byte) :=
  '(z, count, rest) ← read_digits radix max_digits 0 0 l;
  if (count =? 0)%nat then None
  else if negb allow_zero_prefix && bool_decide (l !! 0%nat = Some x30) && (1 <? count)%nat then None
  else if z <? 2 ^ width then Some (z, rest) else None.

Definition read_separator {A} (sep : byte) (i : nat) (inner : list byte → option (A * list byte))
    (l : list byte) : option (A * list byte) :=
  if (i =? 0)%nat then inner l
  else match l with
       | c :: l' => if bool_decide (c = sep) then inner l' else None
       | [] => None
       end.

Fixpoint read_octets (n i : nat) (l : list byte) : option (list Z * list byte) :=
  match n with
  | O => Some ([], l)
  | S n' =>
      '(o, l) ← read_separator dot i (read_number 8 10 3 false) l;
      '(os, l) ← read_octets n' (S i) l;
      Some (o :: os, l)
  end.

Definition read_ipv4_addr (l : list byte) : option (list byte * list byte) :=
  (λ p, (map z2b p.1, p.2)) <$> read_octets 4 0 l.

(** The groups read, whether the last two are an embedded IPv4 address, and
    the rest; [n] slots are left, the next has index [i]. *)
Fixpoint read_groups (n i : nat) (l : list byte) : list (list byte) * bool * list byte :=
  match n with
  | O => ([], false, l)
  | S n' =>
      match (if (2 <=? n)%nat then read_separator colon i read_ipv4_addr l else None) with
      | Some (o, l') => ([take 2 o; drop 2 o], true, l')
      | None =>
          match read_separator colon i (read_number 16 16 4 true) l with
          | Some (g, l') =>
              let '(gs, v4, l'') := read_groups n' (S i) l' in (be_encode 2 g :: gs, v4, l'')
          | None => ([], false, l)
          end
      end
  end.

Definition read_ipv6_addr (l : list byte) : option (list byte * list byte) :=
  let '(head, head_ipv4, l) := read_groups 8 0 l in
  if (length head =? 8)%nat then Some (concat head, l)
  else if head_ipv4 then None
  else
    match l with
    | c1 :: c2 :: l =>
        if bool_decide (c1 = colon) && bool_decide (c2 = colon) then
          let '(tail, _, l) := read_groups (8 - (length head + 1)) 0 l in
          Some (concat head ++ replicate (2 * (8 - length head - length tail)) x00 ++ concat tail, l)
        else None
    | _ => None
    end.

(** [s.parse::<IpAddr>()]: the whole text is one address. *)
Definition parse (s : str) : option IpAddr :=
  '(a, rest) ← match read_ipv4_addr s with
               | Some (o, rest) => Some (V4 o, rest)
               | None => (λ p, (V6 p.1, p.2)) <$> read_ipv6_addr s
               end;
  match rest with [] => Some a | _ => None end.
End IpParser.

(** ** A parsed address has its four or sixteen octets *)

Section parser.
Import IpParser.

Lemma read_octets_length n i l os rest : read_octets n i l = Some (os, rest) → length os = n.
Proof.
  revert i l os rest. induction n as [|n IH]; intros i l os rest; cbn [read_octets]; [naive_solver|].
  intros ([o l1] & _ & H1)%bind_Some. apply bind_Some in H1 as ([os' l2] & H2 & [= <- _]).
  cbn. f_equal. by eapply IH.
Qed.

Lemma read_ipv4_length l o rest : read_ipv4_addr l = Some (o, rest) → length o = 4%nat.
Proof.
  unfold read_ipv4_addr. intros ([os r] & Hr & [= -> _])%fmap_Some.
  cbn. rewrite length_map. by eapply read_octets_length.
Qed.

Lemma read_separator_Some {A} sep i (inner : list byte → option (A * list byte)) l r :
  read_separator sep i inner l = Some r → ∃ l', inner l' = Some r.
Proof.
  unfold read_separator. destruct (i =? 0)%nat; [eauto|].
  destruct l; [done|]. case_bool_decide; [eauto|done].
Qed.

Lemma read_groups_length n i l gs v4 rest :
  read_groups n i l = (gs, v4, rest) →
  (length gs ≤ n)%nat ∧ length (concat gs) = (2 * length gs)%nat.
Proof.
  revert i l gs v4 rest. induction n as [|n IH]; intros i l gs v4 rest; cbn [read_groups];
    [by intros [= <- _ _]|].
  destruct (if (2 <=? S n)%nat then _ else None) as [[o l1]|] eqn:H4.
  - destruct (Nat.leb_spec 2 (S n)); [|done]. intros [= <- _ _].
    apply read_separator_Some in H4 as [l' Ho%read_ipv4_length].
    cbn. rewrite app_nil_r, length_app, length_take, length_drop. lia.
  - clear H4. destruct (read_separator _ _ _ _) as [[g l1]|]; [|intros [= <- _ _]; cbn; lia].
    destruct (read_groups n (S i) l1) as [[gs' v'] l2] eqn:Hg. intros [= <- _ _].
    apply IH in Hg as [? ?]. cbn [length concat]. rewrite length_app. cbn. lia.
Qed.

Lemma read_ipv6_length l o rest : read_ipv6_addr l = Some (o, rest) → length o = 16%nat.
Proof.
  unfold read_ipv6_addr. destruct (read_groups 8 0 l) as [[head v4] l1] eqn:Hh.
  apply read_groups_length in Hh as [Hh Hc].
  destruct (Nat.eqb_spec (length head) 8) as [H8|H8]; [intros [= <- _]; lia|].
  destruct v4; [done|]. destruct l1 as [|c1 [|c2 l2]]; [done|done|].
  destruct (_ && _); [|done].
  destruct (read_groups (8 - (length head + 1)) 0 l2) as [[tail v'] l3] eqn:Ht.
  apply read_groups_length in Ht as [Ht Hct]. intros [= <- _].
  rewrite !length_app, length_replicate. lia.
Qed.

Lemma parse_wf s a p : parse s = Some a → in_word 16 p → SocketAddr.wf (SocketAddr.mk a p).
Proof.
  intros Hp Hw. split; [|done]. cbn. unfold parse in Hp.
  apply bind_Some in Hp as ([a' rest] & Hp & Hr). destruct rest; [|done].
  injection Hr as ->. destruct (read_ipv4_addr s) as [[o r]|] eqn:H4.
  - injection Hp as <- ->. by eapply read_ipv4_length.
  - apply fmap_Some in Hp as ([o r] & H6 & [= -> _]). by eapply read_ipv6_length.
Qed.
End parser.
