(* ===== verification/Trackers.v ===== *)
(** * Tracker responses and the UDP protocol ([src/tracker/mod.rs],
      [src/tracker/udp.rs])

    The announce parameters, the compact and the dictionary peer lists, the
    bencoded HTTP response, and the UDP packets of BEP 15 with the exchange that
    retries them. The bencode decoder (crate [serde_bencode]) and the network
    are not part of the repository: the decoder is an argument and the network
    the class [UdpNet]. *)

From S2P Require Export Handshakes Addresses.

Definition COMPACT_PEER_V4_LEN : nat := 6.
Definition COMPACT_PEER_V6_LEN : nat := 18.

Module AnnounceEvent.
Inductive t : Type := Started | Stopped | Completed | NoEvent.

#[global] Instance t_eq_dec : EqDecision t.
Proof. solve_decision. Defined.

Definition as_http_str (e : t) : str :=
  match e with
  | Started => lit "started"
  | Stopped => lit "stopped"
  | Completed => lit "completed"
  | NoEvent => lit ""
  end.

Definition as_udp_code (e : t) : Z :=
  match e with NoEvent => 0 | Completed => 1 | Started => 2 | Stopped => 3 end.
End AnnounceEvent.

Module AnnounceParams.
Record t : Type := mk {
  info_hash : InfoHash.t;
  peer_id : PeerId.t;
  port : Z;
  uploaded : Z;
  downloaded : Z;
  left : Z;
  event : AnnounceEvent.t;
  compact : bool;
  numwant : option Z;
}.

(** The fields hold values of their Rust types. *)
Definition wf (p : t) : Prop :=
  InfoHash.wf (info_hash p) ∧ PeerId.wf (peer_id p) ∧ in_word 16 (port p) ∧
  in_word 64 (uploaded p) ∧ in_word 64 (downloaded p) ∧ in_word 64 (left p) ∧
  from_option (in_word 32) True (numwant p).
End AnnounceParams.

Module AnnounceResponse.
Record t : Type := mk {
  interval : Z;
  peers : list SocketAddr.t;
  seeders : option Z;
  leechers : option Z;
}.

Definition wf (r : t) : Prop :=
  in_word 64 (interval r) ∧ Forall SocketAddr.wf (peers r) ∧
  from_option (in_word 32) True (seeders r) ∧ from_option (in_word 32) True (leechers r).
End AnnounceResponse.

(** ** Compact peers *)

(** [c[0..4]] as the address, [c[4..6]] as the port. *)
Definition compact_v4 (c : list byte) : SocketAddr.t :=
  SocketAddr.mk (V4 (take 4 c)) (be_decode (drop 4 c)).

Definition parse_compact_peers_v4 (bytes : list byte) : result (list SocketAddr.t) :=
  if negb (length bytes mod COMPACT_PEER_V4_LEN =? 0)%nat
  then Err (InvalidPeersData (Z.of_nat (length bytes)) (Z.of_nat COMPACT_PEER_V4_LEN))
  else Ok (compact_v4 <$> chunks_exact COMPACT_PEER_V4_LEN bytes).

Definition compact_v6 (c : list byte) : SocketAddr.t :=
  SocketAddr.mk (V6 (take 16 c)) (be_decode (drop 16 c)).

Definition parse_compact_peers_v6 (bytes : list byte) : result (list SocketAddr.t) :=
  if negb (length bytes mod COMPACT_PEER_V6_LEN =? 0)%nat
  then Err (InvalidPeersData (Z.of_nat (length bytes)) (Z.of_nat COMPACT_PEER_V6_LEN))
  else Ok (compact_v6 <$> chunks_exact COMPACT_PEER_V6_LEN bytes).

(** ** The bencoded response *)

(** [serde_bencode::value::Value]; an [Int] is an [i64]. *)
Inductive Value : Type :=
  | VBytes (b : list byte)
  | VInt (i : Z)
  | VList (l : list Value)
  | VDict (d : gmap (list byte) Value).

(** One entry of a dictionary-model list; [None]: skipped. *)
Definition peer_dict (entry : Value) : option SocketAddr.t :=
  match entry with
  | VDict d =>
      match d !! lit "ip" with
      | Some (VBytes b) =>
          let ip := Utf8.from_utf8_lossy b in
          match d !! lit "port" with
          | Some (VInt p) =>
              let port := wrap 16 p in
              (λ addr, SocketAddr.mk addr port) <$> IpParser.parse ip
          | _ => None
          end
      | _ => None
      end
  | _ => None
  end.

Definition parse_peer_dicts (l : list Value) : result (list SocketAddr.t) :=
  Ok (omap peer_dict l).

Definition dict_int (d : gmap (list byte) Value) (key : str) : option Z :=
  match d !! key with Some (VInt v) => Some v | _ => None end.

(** [from_bytes] is the crate's decoder. *)
Definition parse_http_response (from_bytes : list byte → result Value) (body : list byte)
  : result AnnounceResponse.t :=
  value ← from_bytes body;
  match value with
  | VDict dict =>
      match dict !! lit "failure reason" with
      | Some (VBytes reason) => Err (TrackerFailure (Utf8.from_utf8_lossy reason))
      | _ =>
          let interval := Z.max 0 (default 0 (dict_int dict (lit "interval"))) in
          let seeders := (λ v, wrap 32 (Z.max 0 v)) <$> dict_int dict (lit "complete") in
          let leechers := (λ v, wrap 32 (Z.max 0 v)) <$> dict_int dict (lit "incomplete") in
          peers ← match dict !! lit "peers" with
                  | Some (VBytes b) => parse_compact_peers_v4 b
                  | Some (VList l) => parse_peer_dicts l
                  | _ => Ok []
                  end;
          peers6 ← match dict !! lit "peers6" with
                   | Some (VBytes b) => parse_compact_peers_v6 b
                   | _ => Ok []
                   end;
          Ok (AnnounceResponse.mk interval (peers ++ peers6) seeders leechers)
      end
  | _ => Err (TrackerFailure (lit "response was not a bencode dictionary"))
  end.

(** ** UDP packets *)

Definition PROTOCOL_ID : Z := 0x041727101980.
Definition ACTION_CONNECT : Z := 0.
Definition ACTION_ANNOUNCE : Z := 1.
Definition ACTION_ERROR : Z := 3.
Definition CONNECT_RESPONSE_LEN : nat := 16.
Definition ANNOUNCE_RESPONSE_HEADER_LEN : nat := 20.
Definition MAX_ATTEMPTS : nat := 3.

(** [uW::from_be_bytes(buf[i..j].try_into().unwrap())]. *)
Definition word_at (buf : list byte) (i j : nat) : result Z := be_decode <$> slice_r i j buf.

Definition build_connect_request (transaction_id : Z) : result (list byte) :=
  let buf := replicate 16 x00 in
  buf ← copy_from_slice 0 8 (be_encode 8 PROTOCOL_ID) buf;
  buf ← copy_from_slice 8 12 (be_encode 4 ACTION_CONNECT) buf;
  copy_from_slice 12 16 (be_encode 4 transaction_id) buf.

Definition parse_connect_response (buf : list byte) (expected_txn : Z) : result Z :=
  if (length buf <? CONNECT_RESPONSE_LEN)%nat then Err UdpProtocol
  else
    action ← word_at buf 0 4;
    txn ← word_at buf 4 8;
    if negb (txn =? expected_txn) then Err UdpProtocol
    else if negb (action =? ACTION_CONNECT) then Err UdpProtocol
    else word_at buf 8 16.

(** [n as i32] then [to_be_bytes]: the low 32 bits of [n], or of [-1]. *)
Definition num_want (params : AnnounceParams.t) : Z := default (-1) (AnnounceParams.numwant params).

Definition build_announce_request (connection_id transaction_id key : Z)
    (params : AnnounceParams.t) : result (list byte) :=
  let buf := replicate 98 x00 in
  buf ← copy_from_slice 0 8 (be_encode 8 connection_id) buf;
  buf ← copy_from_slice 8 12 (be_encode 4 ACTION_ANNOUNCE) buf;
  buf ← copy_from_slice 12 16 (be_encode 4 transaction_id) buf;
  buf ← copy_from_slice 16 36 (InfoHash.as_bytes (AnnounceParams.info_hash params)) buf;
  buf ← copy_from_slice 36 56 (PeerId.as_bytes (AnnounceParams.peer_id params)) buf;
  buf ← copy_from_slice 56 64 (be_encode 8 (AnnounceParams.downloaded params)) buf;
  buf ← copy_from_slice 64 72 (be_encode 8 (AnnounceParams.left params)) buf;
  buf ← copy_from_slice 72 80 (be_encode 8 (AnnounceParams.uploaded params)) buf;
  buf ← copy_from_slice 80 84
          (be_encode 4 (AnnounceEvent.as_udp_code (AnnounceParams.event params))) buf;
  buf ← copy_from_slice 88 92 (be_encode 4 key) buf;
  buf ← copy_from_slice 92 96 (be_encode 4 (num_want params)) buf;
  copy_from_slice 96 98 (be_encode 2 (AnnounceParams.port params)) buf.

Definition parse_announce_response (buf : list byte) (expected_txn : Z)
  : result AnnounceResponse.t :=
  if (length buf <? 8)%nat then Err UdpProtocol
  else
    action ← word_at buf 0 4;
    txn ← word_at buf 4 8;
    if negb (txn =? expected_txn) then Err UdpProtocol
    else if action =? ACTION_ERROR then
      reason ← slice_r 8 (length buf) buf;
      Err (TrackerFailure (Utf8.from_utf8_lossy reason))
    else if negb (action =? ACTION_ANNOUNCE) then Err UdpProtocol
    else if (length buf <? ANNOUNCE_RESPONSE_HEADER_LEN)%nat then Err UdpProtocol
    else
      interval ← word_at buf 8 12;
      leechers ← word_at buf 12 16;
      seeders ← word_at buf 16 20;
      rest ← slice_r ANNOUNCE_RESPONSE_HEADER_LEN (length buf) buf;
      peers ← parse_compact_peers_v4 rest;
      Ok (AnnounceResponse.mk interval peers (Some seeders) (Some leechers)).

(** ** The exchange over the network

    [net N] is an asynchronous computation over the state [N] of the network.
    [UdpNet] is what [announce] uses of it: name resolution, one connected
    socket, and the random generator. *)

Definition net (N A : Type) : Type := N → result A * N.

#[export] Instance net_ret {N} : MRet (net N) := λ A a n, (Ok a, n).
#[export] Instance net_bind {N} : MBind (net N) := λ A B f m n,
  match m n with
  | (Ok a, n') => f a n'
  | (Err e, n') => (Err e, n')
  | (Panic, n') => (Panic, n')
  end.

Definition pure_net {N A} (r : result A) : net N A := λ n, (r, n).

(** The socket's history: the datagrams sent and the ones received. *)
Record Traffic : Type := mk_traffic {
  datagrams : list (list byte);
  replies : list (list byte);
}.

Class UdpNet (N : Type) := {
  traffic : N → Traffic;
  lookup_host : str → Z → net N (list SocketAddr.t);
  bind : str → net N ();
  connect_to : SocketAddr.t → net N ();
  send_datagram : list byte → net N ();
  (** [recv] into a buffer of the given size under [timeout]; [None]: elapsed. *)
  recv_datagram : nat → net N (option (list byte));
  random_u32 : net N Z;
  lookup_host_spec h p n r n' : lookup_host h p n = (r, n') →
    (is_Ok r ∨ r = Err Io) ∧ traffic n' = traffic n;
  bind_spec a n r n' : bind a n = (r, n') → (is_Ok r ∨ r = Err Io) ∧ traffic n' = traffic n;
  connect_to_spec a n r n' : connect_to a n = (r, n') →
    (is_Ok r ∨ r = Err Io) ∧ traffic n' = traffic n;
  send_spec d n r n' : send_datagram d n = (r, n') →
    r = Ok () ∧ traffic n' = mk_traffic (datagrams (traffic n) ++ [d]) (replies (traffic n)) ∨
    r = Err Io ∧ traffic n' = traffic n;
  recv_spec size n r n' : recv_datagram size n = (r, n') →
    (r = Ok None ∨ r = Err Io) ∧ traffic n' = traffic n ∨
    ∃ d, r = Ok (Some d) ∧ (length d ≤ size)%nat ∧
         traffic n' = mk_traffic (datagrams (traffic n)) (replies (traffic n) ++ [d]);
  random_spec n r n' : random_u32 n = (r, n') →
    (∃ z, r = Ok z ∧ in_word 32 z) ∧ traffic n' = traffic n;
}.

(** A tracker URL, as [url::Url] splits it. *)
Module TrackerUrl.
Record t : Type := mk { scheme : str; host_str : option str; port : option Z }.
End TrackerUrl.

Section udp.
Context {N : Type} `{UdpNet N}.

(** [exchange]; the loop runs [MAX_ATTEMPTS] times at most. *)
Fixpoint exchange_loop (attempts : nat) (request : list byte) : net N (list byte) :=
  match attempts with
  | O => pure_net (Err Timeout)
  | S attempts' =>
      _ ← send_datagram request;
      reply ← recv_datagram 2048;
      match reply with
      | Some d => mret d
      | None => exchange_loop attempts' request
      end
  end.

Definition exchange (request : list byte) : net N (list byte) := exchange_loop MAX_ATTEMPTS request.

Definition udp_announce (url : TrackerUrl.t) (params : AnnounceParams.t)
  : net N AnnounceResponse.t :=
  host ← pure_net (ok_or UdpProtocol (TrackerUrl.host_str url));
  port ← pure_net (ok_or UdpProtocol (TrackerUrl.port url));
  addrs ← lookup_host host port;
  server ← pure_net (ok_or UdpProtocol (head addrs));
  _ ← bind (if SocketAddr.is_ipv6 server then lit "[::]:0" else lit "0.0.0.0:0");
  _ ← connect_to server;
  connect_txn ← random_u32;
  announce_txn ← random_u32;
  key ← random_u32;
  connect_request ← pure_net (build_connect_request connect_txn);
  connect_reply ← exchange connect_request;
  connection_id ← pure_net (parse_connect_response connect_reply connect_txn);
  request ← pure_net (build_announce_request connection_id announce_txn key params);
  announce_reply ← exchange request;
  pure_net (parse_announce_response announce_reply announce_txn).
End udp.

(** ** Compact entries *)

(** The wire form of a peer. *)
Definition peer_entry (a : SocketAddr.t) : list byte :=
  match SocketAddr.ip a with V4 o | V6 o => o end ++ be_encode 2 (SocketAddr.port a).

(** A list of well-formed addresses of one family. *)
Definition family (v6 : bool) (ps : list SocketAddr.t) : Prop :=
  Forall (λ a, SocketAddr.wf a ∧ SocketAddr.is_ipv6 a = v6) ps.

(** Blobs of fixed-width entries, whatever the width. *)
Lemma entries_iff n (read : list byte → SocketAddr.t) v6 bs ps :
  (0 < n)%nat →
  (∀ c, length c = n → SocketAddr.wf (read c) ∧ SocketAddr.is_ipv6 (read c) = v6 ∧
        peer_entry (read c) = c) →
  (∀ a, SocketAddr.wf a → SocketAddr.is_ipv6 a = v6 →
        length (peer_entry a) = n ∧ read (peer_entry a) = a) →
  (length bs mod n = 0)%nat ∧ read <$> chunks_exact n bs = ps ↔
  family v6 ps ∧ bs = concat (peer_entry <$> ps).
Proof.
  intros Hn Hread Hentry. split.
  - intros [Hmod <-]. pose proof (chunks_exact_Forall_length n bs Hn) as Hc. split.
    + apply Forall_fmap. eapply Forall_impl; [exact Hc|].
      intros c (? & ? & _)%Hread. by split.
    + rewrite <-list_fmap_compose. rewrite <-(chunks_exact_concat n bs) at 1 by done. f_equal.
      rewrite <-(list_fmap_id (chunks_exact n bs)) at 1. apply list_fmap_ext.
      intros i c Hi. rewrite Forall_lookup in Hc. symmetry. by apply Hread, (Hc i).
  - intros [Hps ->].
    assert (Forall (λ c, length c = n) (peer_entry <$> ps)) as Hc.
    { apply Forall_fmap. eapply Forall_impl; [exact Hps|]. intros a [??]. by apply Hentry. }
    split.
    + clear -Hn Hc. induction Hc as [|c cs Hc _ IH]; [by apply Nat.Div0.mod_0_l|].
      cbn. rewrite length_app, Hc. rewrite <-(Nat.mul_1_l n) at 1.
      by rewrite Nat.add_comm, Nat.Div0.mod_add.
    + rewrite chunks_exact_of_concat by done. rewrite <-list_fmap_compose.
      rewrite <-(list_fmap_id ps) at 2. apply list_fmap_ext. intros i a Hi.
      apply (Forall_lookup_1 _ _ _ _ Hps) in Hi as [??]. by apply Hentry.
Qed.

Lemma port_bytes (l : list byte) : length l = 2%nat → be_encode 2 (be_decode l) = l.
Proof. apply be_encode_decode'. Qed.

Lemma parse_v4_iff bs ps :
  parse_compact_peers_v4 bs = Ok ps ↔ family false ps ∧ bs = concat (peer_entry <$> ps).
Proof.
  rewrite <-(entries_iff COMPACT_PEER_V4_LEN compact_v4).
  - unfold parse_compact_peers_v4. destruct (Nat.eqb_spec (length bs mod COMPACT_PEER_V4_LEN) 0);
      cbn [negb]; naive_solver.
  - unfold COMPACT_PEER_V4_LEN. lia.
  - unfold COMPACT_PEER_V4_LEN. intros c Hc. unfold peer_entry, compact_v4, SocketAddr.wf.
    cbn [SocketAddr.ip SocketAddr.port SocketAddr.is_ipv6].
    assert (length (drop 4 c) = 2%nat) by (rewrite length_drop; lia).
    rewrite port_bytes by done. rewrite length_take, take_drop.
    split_and!; try done; [lia|]. by apply (be_decode_word 2).
  - intros [[o|o] p] [Ho Hp]; [|done]. intros _. cbn in Ho, Hp. unfold peer_entry, compact_v4.
    cbn [SocketAddr.ip SocketAddr.port]. rewrite length_app, be_encode_length, Ho. split; [done|].
    rewrite take_app_length', drop_app_length' by done. by rewrite (be_decode_encode_word 2 16).
Qed.

Lemma parse_v6_iff bs ps :
  parse_compact_peers_v6 bs = Ok ps ↔ family true ps ∧ bs = concat (peer_entry <$> ps).
Proof.
  rewrite <-(entries_iff COMPACT_PEER_V6_LEN compact_v6).
  - unfold parse_compact_peers_v6. destruct (Nat.eqb_spec (length bs mod COMPACT_PEER_V6_LEN) 0);
      cbn [negb]; naive_solver.
  - unfold COMPACT_PEER_V6_LEN. lia.
  - unfold COMPACT_PEER_V6_LEN. intros c Hc. unfold peer_entry, compact_v6, SocketAddr.wf.
    cbn [SocketAddr.ip SocketAddr.port SocketAddr.is_ipv6].
    assert (length (drop 16 c) = 2%nat) by (rewrite length_drop; lia).
    rewrite port_bytes by done. rewrite length_take, take_drop.
    split_and!; try done; [lia|]. by apply (be_decode_word 2).
  - intros [[o|o] p] [Ho Hp]; [done|]. intros _. cbn in Ho, Hp. unfold peer_entry, compact_v6.
    cbn [SocketAddr.ip SocketAddr.port]. rewrite length_app, be_encode_length, Ho. split; [done|].
    rewrite take_app_length', drop_app_length' by done. by rewrite (be_decode_encode_word 2 16).
Qed.

(** ** Packets *)

(** A field written into the zeroed rest of a buffer. *)
Lemma copy_field (pre s : list byte) n i j :
  length pre = i → (i + length s)%nat = j → (length s ≤ n)%nat →
  copy_from_slice i j s (pre ++ replicate n x00) =
    Ok ((pre ++ s) ++ replicate (n - length s) x00).
Proof.
  intros. rewrite copy_next by (rewrite ?length_replicate; done). by rewrite drop_replicate.
Qed.

(** A field left zero. *)
Lemma skip_field (pre : list byte) k n :
  (k ≤ n)%nat → pre ++ replicate n x00 = (pre ++ replicate k x00) ++ replicate (n - k) x00.
Proof. intros. rewrite <-app_assoc, <-replicate_add. do 2 f_equal. lia. Qed.

Definition connect_packet (txn : Z) : list byte :=
  be_encode 8 PROTOCOL_ID ++ be_encode 4 ACTION_CONNECT ++ be_encode 4 txn.

Definition announce_packet (cid txn key : Z) (p : AnnounceParams.t) : list byte :=
  be_encode 8 cid ++ be_encode 4 ACTION_ANNOUNCE ++ be_encode 4 txn ++
  InfoHash.as_bytes (AnnounceParams.info_hash p) ++ PeerId.as_bytes (AnnounceParams.peer_id p) ++
  be_encode 8 (AnnounceParams.downloaded p) ++ be_encode 8 (AnnounceParams.left p) ++
  be_encode 8 (AnnounceParams.uploaded p) ++
  be_encode 4 (AnnounceEvent.as_udp_code (AnnounceParams.event p)) ++
  replicate 4 x00 ++ be_encode 4 key ++ be_encode 4 (num_want p) ++
  be_encode 2 (AnnounceParams.port p).

Ltac copy_field_step :=
  rewrite copy_field;
    [red_result
    |autorewrite with wire; cbn [length]; rewrite ?length_replicate; lia
    |autorewrite with wire; cbn [length]; lia
    |autorewrite with wire; cbn [length]; lia].

Lemma build_connect_request_eq txn : build_connect_request txn = Ok (connect_packet txn).
Proof.
  unfold build_connect_request. cbv zeta.
  change (replicate 16 x00) with ([] ++ replicate 16 x00).
  do 3 copy_field_step. autorewrite with wire. cbn [Nat.sub replicate app].
  by rewrite app_nil_r, <-!app_assoc.
Qed.

Lemma build_announce_request_eq cid txn key p :
  InfoHash.wf (AnnounceParams.info_hash p) → PeerId.wf (AnnounceParams.peer_id p) →
  build_announce_request cid txn key p = Ok (announce_packet cid txn key p) ∧
  length (announce_packet cid txn key p) = 98%nat.
Proof.
  unfold InfoHash.wf, PeerId.wf, SHA1_LEN, PEER_ID_LEN, announce_packet. intros Hi Hp.
  split; [|autorewrite with wire; rewrite Hi, Hp, length_replicate; done].
  unfold build_announce_request. cbv zeta.
  set (ih := InfoHash.as_bytes _) in *. set (id := PeerId.as_bytes _) in *.
  change (replicate 98 x00) with ([] ++ replicate 98 x00).
  do 9 copy_field_step.
  rewrite (skip_field _ 4) by (autorewrite with wire; lia).
  do 3 copy_field_step. autorewrite with wire. rewrite Hi, Hp.
  cbn [Nat.sub replicate app]. by rewrite app_nil_r, <-!app_assoc.
Qed.

(** ** Replies *)

Lemma word_at_Ok buf i j :
  (i ≤ j ≤ length buf)%nat → word_at buf i j = Ok (be_decode (slice i j buf)).
Proof. intros. unfold word_at. by rewrite slice_r_Ok. Qed.

(** A packet starts with an action and a transaction id. *)
Lemma packet_head (buf : list byte) :
  (8 ≤ length buf)%nat →
  buf = be_encode 4 (be_decode (slice 0 4 buf)) ++ be_encode 4 (be_decode (slice 4 8 buf)) ++
        drop 8 buf.
Proof.
  intros. rewrite !be_encode_decode' by (rewrite slice_length by lia; done).
  rewrite app_assoc, <-slice_split by lia. unfold slice. by rewrite drop_0, take_drop.
Qed.

(** A 32-bit field reads back. *)
Lemma word32 z : in_word 32 z → be_decode (be_encode 4 z) = z.
Proof. by apply be_decode_encode_word. Qed.

Definition connect_reply (txn cid : Z) (rest : list byte) : list byte :=
  be_encode 4 ACTION_CONNECT ++ be_encode 4 txn ++ be_encode 8 cid ++ rest.

Lemma parse_connect_response_iff buf txn cid :
  in_word 32 txn →
  parse_connect_response buf txn = Ok cid ↔
  in_word 64 cid ∧ ∃ rest, buf = connect_reply txn cid rest.
Proof.
  intros Htxn. unfold parse_connect_response, CONNECT_RESPONSE_LEN, connect_reply. split.
  - destruct (Nat.ltb_spec (length buf) 16); [done|].
    rewrite !word_at_Ok by lia. red_result.
    destruct (Z.eqb_spec (be_decode (slice 4 8 buf)) txn) as [<-|]; [|done].
    destruct (Z.eqb_spec (be_decode (slice 0 4 buf)) ACTION_CONNECT) as [Ha|]; [|done].
    intros [= <-]. split; [apply (be_decode_word 8); [done|by rewrite slice_length by lia]|].
    exists (drop 16 buf). rewrite <-Ha.
    rewrite !be_encode_decode' by (by rewrite slice_length by lia).
    rewrite <-(slice_full buf) at 1.
    rewrite (slice_split 0 4), (slice_split 4 8), (slice_split 8 16) by lia.
    do 3 f_equal. unfold slice. rewrite take_ge; [done|rewrite length_drop; lia].
  - intros [Hcid [rest ->]].
    assert (16 ≤ length (be_encode 4 ACTION_CONNECT ++ be_encode 4 txn ++ be_encode 8 cid ++ rest))%nat
      by (autorewrite with wire; lia).
    rewrite (proj2 (Nat.ltb_ge _ _)) by lia. rewrite !word_at_Ok by lia. red_result.
    change (slice 0 4 _) with (be_encode 4 ACTION_CONNECT).
    change (slice 4 8 _) with (be_encode 4 txn).
    change (slice 8 16 _) with (be_encode 8 cid).
    rewrite (word32 txn), Z.eqb_refl by done. cbn [negb].
    change (be_decode (be_encode 4 ACTION_CONNECT)) with ACTION_CONNECT.
    rewrite Z.eqb_refl. cbn [negb]. by rewrite (be_decode_encode_word 8 64).
Qed.

Definition announce_reply (txn interval leechers seeders : Z) (ps : list SocketAddr.t)
  : list byte :=
  be_encode 4 ACTION_ANNOUNCE ++ be_encode 4 txn ++ be_encode 4 interval ++
  be_encode 4 leechers ++ be_encode 4 seeders ++ concat (peer_entry <$> ps).

Lemma parse_announce_response_iff buf txn r :
  in_word 32 txn →
  parse_announce_response buf txn = Ok r ↔
  ∃ interval leechers seeders ps,
    in_word 32 interval ∧ in_word 32 leechers ∧ in_word 32 seeders ∧ family false ps ∧
    buf = announce_reply txn interval leechers seeders ps ∧
    r = AnnounceResponse.mk interval ps (Some seeders) (Some leechers).
Proof.
  intros Htxn. unfold parse_announce_response, ANNOUNCE_RESPONSE_HEADER_LEN, announce_reply. split.
  - destruct (Nat.ltb_spec (length buf) 8); [done|].
    rewrite (word_at_Ok buf 0 4), (word_at_Ok buf 4 8) by lia. red_result.
    destruct (Z.eqb_spec (be_decode (slice 4 8 buf)) txn) as [<-|]; [|done]. cbn [negb].
    destruct (Z.eqb_spec (be_decode (slice 0 4 buf)) ACTION_ERROR) as [He|He].
    { rewrite slice_r_Ok by lia. done. }
    destruct (Z.eqb_spec (be_decode (slice 0 4 buf)) ACTION_ANNOUNCE) as [Ha|]; [|done]. cbn [negb].
    destruct (Nat.ltb_spec (length buf) 20); [done|]. rewrite !word_at_Ok, slice_r_Ok by lia.
    red_result. destruct (parse_compact_peers_v4 _) as [ps|e|] eqn:Hps; [|done..].
    apply parse_v4_iff in Hps as [Hps Heq]. intros [= <-].
    exists (be_decode (slice 8 12 buf)), (be_decode (slice 12 16 buf)), (be_decode (slice 16 20 buf)), ps.
    split_and!; try (apply (be_decode_word 4); [done|by rewrite slice_length by lia]); try done.
    rewrite <-Heq, <-Ha, !be_encode_decode' by (by rewrite slice_length by lia).
    rewrite <-!slice_split by lia. by rewrite slice_full.
  - intros (iv & lc & sd & ps & Hiv & Hlc & Hsd & Hps & -> & ->).
    set (buf := be_encode 4 ACTION_ANNOUNCE ++ _).
    assert (20 ≤ length buf)%nat by (unfold buf; autorewrite with wire; lia).
    rewrite !(proj2 (Nat.ltb_ge _ _)) by lia. rewrite !word_at_Ok, !slice_r_Ok by lia. red_result.
    change (slice 0 4 buf) with (be_encode 4 ACTION_ANNOUNCE).
    change (slice 4 8 buf) with (be_encode 4 txn).
    change (slice 8 12 buf) with (be_encode 4 iv).
    change (slice 12 16 buf) with (be_encode 4 lc).
    change (slice 16 20 buf) with (be_encode 4 sd).
    change (be_decode (be_encode 4 ACTION_ANNOUNCE)) with ACTION_ANNOUNCE.
    rewrite !word32, Z.eqb_refl by done. cbn [negb].
    change (ACTION_ANNOUNCE =? ACTION_ERROR) with false.
    change (ACTION_ANNOUNCE =? ACTION_ANNOUNCE) with true. cbn [negb].
    assert (slice 20 (length buf) buf = concat (peer_entry <$> ps)) as ->.
    { unfold slice. change (drop 20 buf) with (concat (peer_entry <$> ps)).
      apply take_ge. unfold buf. autorewrite with wire. lia. }
    by rewrite (proj2 (parse_v4_iff _ _) (conj Hps eq_refl)).
Qed.

(** ** The exchange *)

Section udp_lemmas.
Context {N : Type} `{UdpNet N}.

(** A step of [net] that is known to run. *)
Lemma net_bind_inv {A B} (m : net N A) (f : A → net N B) n r n2 :
  (m ≫= f) n = (r, n2) →
  (∃ a n1, m n = (Ok a, n1) ∧ f a n1 = (r, n2)) ∨
  (∃ e, m n = (Err e, n2) ∧ r = Err e) ∨ (m n = (Panic, n2) ∧ r = Panic).
Proof. unfold mbind, net_bind. destruct (m n) as [[a|e|] n1] eqn:Hm; naive_solver. Qed.

Definition sends (n n' : N) (ds rs : list (list byte)) : Prop :=
  datagrams (traffic n') = datagrams (traffic n) ++ ds ∧
  replies (traffic n') = replies (traffic n) ++ rs.

Lemma sends_same n n' : traffic n' = traffic n → sends n n' [] [].
Proof. unfold sends. intros ->. by rewrite !app_nil_r. Qed.

Lemma sends_trans n1 n2 n3 ds rs ds' rs' :
  sends n1 n2 ds rs → sends n2 n3 ds' rs' → sends n1 n3 (ds ++ ds') (rs ++ rs').
Proof. unfold sends. intros [-> ->] [-> ->]. by rewrite !app_assoc. Qed.

(** At most [attempts] copies of the request are sent; the only reply read is
    the one returned; giving up means that every attempt timed out. *)
Lemma exchange_loop_spec attempts request n r n' :
  exchange_loop attempts request n = (r, n') →
  ∃ k, (k ≤ attempts)%nat ∧
    match r with
    | Ok d => (1 ≤ k)%nat ∧ (length d ≤ 2048)%nat ∧ sends n n' (replicate k request) [d]
    | Err e => sends n n' (replicate k request) [] ∧ (e = Io ∨ e = Timeout ∧ k = attempts)
    | Panic => False
    end.
Proof.
  revert n. induction attempts as [|attempts IH]; intros n; cbn [exchange_loop].
  { intros [= <- <-]. exists 0%nat. split; [done|]. split; [by apply sends_same|by right]. }
  intros [(u & n1 & Hs & Hr)|[(e & Hs & ->)|[Hs ->]]]%net_bind_inv;
    apply send_spec in Hs as [[Hok Ht]|[Hok Ht]]; try discriminate Hok; cycle 1.
  { injection Hok as ->. exists 0%nat. split; [lia|]. split; [by apply sends_same|by left]. }
  assert (sends n n1 [request] []) as H1 by (unfold sends; rewrite Ht; by rewrite app_nil_r).
  apply net_bind_inv in Hr as [(o & n2 & Hv & Hr)|[(e & Hv & ->)|[Hv ->]]];
    apply recv_spec in Hv as [[[Ho|Ho] Hv]|(d & Ho & Hd & Hv)]; try discriminate Ho.
  - injection Ho as ->. apply IH in Hr as (k & Hk & Hr). exists (S k). split; [lia|].
    pose proof (sends_trans _ _ _ _ _ _ _ H1 (sends_same _ _ Hv)) as H2.
    destruct r as [d|e|]; [|..|done].
    + destruct Hr as (? & ? & Hr). split_and!; [lia|done|]. exact (sends_trans _ _ _ _ _ _ _ H2 Hr).
    + destruct Hr as [Hr Hk']. split; [exact (sends_trans _ _ _ _ _ _ _ H2 Hr)|]. naive_solver.
  - injection Ho as ->. injection Hr as <- <-. exists 1%nat. split; [lia|].
    split_and!; [done..|]. apply (sends_trans _ _ _ [request] [] [] [d] H1).
    unfold sends. rewrite Hv. by rewrite app_nil_r.
  - injection Ho as ->. exists 1%nat. split; [lia|]. split; [|by left].
    exact (sends_trans _ _ _ _ _ _ _ H1 (sends_same _ _ Hv)).
Qed.

(** The outcome of a computation satisfies [Q]. *)
Definition runs {A} (m : net N A) (Q : result A → N → Prop) (n : N) : Prop :=
  ∀ r n', m n = (r, n') → Q r n'.

Lemma runs_bind {A B} (m : net N A) (f : A → net N B) Q n :
  runs m (λ r n1, match r with Ok a => runs (f a) Q n1 | Err e => Q (Err e) n1 | Panic => Q Panic n1 end) n →
  runs (m ≫= f) Q n.
Proof.
  intros Hm r n' [(a & n1 & Ha & Hf)|[(e & Ha & ->)|[Ha ->]]]%net_bind_inv.
  - exact (Hm _ _ Ha _ _ Hf).
  - exact (Hm _ _ Ha).
  - exact (Hm _ _ Ha).
Qed.

(** A step without traffic. *)
Lemma runs_quiet {A B} (m : net N A) (f : A → net N B) (P : A → Prop) Q n :
  (∀ r n', m n = (r, n') → ((∃ a, r = Ok a ∧ P a) ∨ ∃ e, r = Err e) ∧ traffic n' = traffic n) →
  (∀ e n', traffic n' = traffic n → Q (Err e) n') →
  (∀ a n', P a → traffic n' = traffic n → runs (f a) Q n') →
  runs (m ≫= f) Q n.
Proof.
  intros Hm He Hf. apply runs_bind. intros r n' Hr.
  destruct (Hm _ _ Hr) as [[(a & -> & Ha)|[e ->]] Ht]; auto.
Qed.

Lemma quiet_io {A} (r : result A) : is_Ok r ∨ r = Err Io → (∃ a, r = Ok a ∧ True) ∨ ∃ e, r = Err e.
Proof. intros [[a ->]| ->]; eauto. Qed.

(** A pure step that does not panic. *)
Lemma runs_pure {A B} (x : result A) (f : A → net N B) Q n :
  x ≠ Panic → (∀ e, x = Err e → Q (Err e) n) → (∀ a, x = Ok a → runs (f a) Q n) →
  runs (pure_net x ≫= f) Q n.
Proof.
  intros Hx He Hf. apply runs_bind. intros r n' [= <- <-]. destruct x; [by apply Hf|by apply He|done].
Qed.

Definition announced_ok (params : AnnounceParams.t) (n : N) (r : result AnnounceResponse.t) (n' : N)
  : Prop :=
  ∃ ds rs, sends n n' ds rs ∧ (length ds ≤ 6)%nat ∧
  match r with
  | Ok resp => ∃ ct at_ key cid rest k1 k2 interval leechers seeders ps,
      in_word 32 ct ∧ in_word 32 at_ ∧ in_word 32 key ∧ in_word 64 cid ∧
      (1 ≤ k1 ≤ 3)%nat ∧ (1 ≤ k2 ≤ 3)%nat ∧
      ds = replicate k1 (connect_packet ct) ++ replicate k2 (announce_packet cid at_ key params) ∧
      rs = [connect_reply ct cid rest; announce_reply at_ interval leechers seeders ps] ∧
      family false ps ∧ resp = AnnounceResponse.mk interval ps (Some seeders) (Some leechers)
  | Err _ => True
  | Panic => False
  end.
End udp_lemmas.

(** *** No reply makes the parsers panic *)

Lemma parse_compact_v4_no_panic bs : parse_compact_peers_v4 bs ≠ Panic.
Proof. unfold parse_compact_peers_v4. by destruct (negb _). Qed.

Lemma parse_compact_v6_no_panic bs : parse_compact_peers_v6 bs ≠ Panic.
Proof. unfold parse_compact_peers_v6. by destruct (negb _). Qed.

Lemma parse_connect_no_panic buf txn : parse_connect_response buf txn ≠ Panic.
Proof.
  unfold parse_connect_response, CONNECT_RESPONSE_LEN.
  destruct (Nat.ltb_spec (length buf) 16); [done|]. rewrite !word_at_Ok by lia. red_result.
  destruct (negb (_ =? txn)); [done|]. by destruct (negb _).
Qed.

Lemma parse_announce_no_panic buf txn : parse_announce_response buf txn ≠ Panic.
Proof.
  unfold parse_announce_response, ANNOUNCE_RESPONSE_HEADER_LEN.
  destruct (Nat.ltb_spec (length buf) 8); [done|].
  rewrite (word_at_Ok buf 0 4), (word_at_Ok buf 4 8) by lia. red_result.
  destruct (negb (_ =? txn)); [done|]. rewrite slice_r_Ok by lia. destruct (_ =? ACTION_ERROR); [done|].
  destruct (negb (_ =? ACTION_ANNOUNCE)); [done|]. destruct (Nat.ltb_spec (length buf) 20); [done|].
  rewrite !word_at_Ok, slice_r_Ok by lia. red_result.
  pose proof (parse_compact_v4_no_panic (slice 20 (length buf) buf)) as Hp.
  by destruct (parse_compact_peers_v4 (slice 20 (length buf) buf)).
Qed.

Section announce.
Context {N : Type} `{UdpNet N}.

(** After the two transactions. *)
Lemma announced_ok_err params (n n' : N) ds rs e :
  sends n n' ds rs → (length ds ≤ 6)%nat → announced_ok params n (Err e) n'.
Proof. intros. by exists ds, rs. Qed.

Lemma transactions_ok params (n0 n : N) ct at_ key :
  InfoHash.wf (AnnounceParams.info_hash params) → PeerId.wf (AnnounceParams.peer_id params) →
  in_word 32 ct → in_word 32 at_ → in_word 32 key → traffic n = traffic n0 →
  runs (connect_request ← pure_net (build_connect_request ct);
        connect_reply ← exchange connect_request;
        connection_id ← pure_net (parse_connect_response connect_reply ct);
        request ← pure_net (build_announce_request connection_id at_ key params);
        announce_reply ← exchange request;
        pure_net (parse_announce_response announce_reply at_)) (announced_ok params n0) n.
Proof.
  intros Hih Hid Hct Hat Hkey Hn. rewrite build_connect_request_eq.
  apply runs_pure; [done|done|]. intros a [= <-].
  apply sends_same in Hn.
  apply runs_bind. intros r1 n1 (k1 & Hk1 & H1)%exchange_loop_spec. unfold MAX_ATTEMPTS in Hk1.
  destruct r1 as [d1|e|]; [|destruct H1 as [H1 _]|done].
  2:{ eapply announced_ok_err; [exact (sends_trans _ _ _ _ _ _ _ Hn H1)|].
      rewrite length_app, length_replicate. cbn. lia. }
  destruct H1 as (Hk1' & _ & H1). pose proof (sends_trans _ _ _ _ _ _ _ Hn H1) as Hs1. cbn in Hs1.
  apply runs_pure; [apply parse_connect_no_panic|..].
  { intros e _. eapply announced_ok_err; [exact Hs1|]. rewrite length_replicate. lia. }
  intros cid [Hcid [rest ->]]%parse_connect_response_iff; [|done].
  destruct (build_announce_request_eq cid at_ key params Hih Hid) as [-> _].
  apply runs_pure; [done|done|]. intros a [= <-].
  apply runs_bind. intros r2 n2 (k2 & Hk2 & H2)%exchange_loop_spec. unfold MAX_ATTEMPTS in Hk2.
  destruct r2 as [d2|e|]; [|destruct H2 as [H2 _]|done].
  2:{ eapply announced_ok_err; [exact (sends_trans _ _ _ _ _ _ _ Hs1 H2)|].
      rewrite length_app, !length_replicate. lia. }
  destruct H2 as (Hk2' & _ & H2). pose proof (sends_trans _ _ _ _ _ _ _ Hs1 H2) as Hs2. cbn in Hs2.
  intros r n' [= <- <-]. eexists _, _. split; [exact Hs2|].
  split; [rewrite length_app, !length_replicate; lia|].
  pose proof (parse_announce_no_panic d2 at_) as Hp.
  destruct (parse_announce_response d2 at_) as [resp|e|] eqn:Hr; [|done..].
  apply parse_announce_response_iff in Hr as (iv & lc & sd & ps & _ & _ & _ & Hps & -> & ->); [|done].
  exists ct, at_, key, cid, rest, k1, k2, iv, lc, sd, ps. split_and!; done || lia.
Qed.

Lemma udp_announce_runs url params (n : N) :
  InfoHash.wf (AnnounceParams.info_hash params) → PeerId.wf (AnnounceParams.peer_id params) →
  runs (udp_announce url params) (announced_ok params n) n.
Proof.
  intros Hih Hid. unfold udp_announce.
  assert (∀ e n', traffic n' = traffic n → announced_ok params n (Err e) n') as Herr.
  { intros e n' Ht. eapply announced_ok_err; [by apply sends_same|cbn; lia]. }
  apply runs_pure; [by apply ok_or_no_panic|auto|]. intros h _.
  apply runs_pure; [by apply ok_or_no_panic|auto|]. intros p _.
  eapply (runs_quiet _ _ (λ _, True)); [intros ?? [? ?]%lookup_host_spec; by auto using quiet_io|auto|].
  intros addrs n1 _ Hn1.
  apply runs_pure; [by apply ok_or_no_panic|auto|]. intros server _.
  eapply (runs_quiet _ _ (λ _, True));
    [intros ?? [? ?]%bind_spec; by auto using quiet_io|intros; apply Herr; congruence|].
  intros _ n2 _ Hn2. rewrite Hn1 in Hn2.
  eapply (runs_quiet _ _ (λ _, True));
    [intros ?? [? ?]%connect_to_spec; by auto using quiet_io|intros; apply Herr; congruence|].
  intros _ n3 _ Hn3. rewrite Hn2 in Hn3.
  do 3 (eapply (runs_quiet _ _ (in_word 32));
    [intros ?? [? ?]%random_spec; by auto|intros; apply Herr; congruence|]; intros ??? ?).
  apply transactions_ok; congruence || done.
Qed.
End announce.

(** ** Properties *)

(** Compact peer lists are read exactly. A blob parses to a list of peers if and
    only if it is the concatenation of their entries, 4 (or 16) address octets
    and a big-endian port each; it is rejected exactly when its length is not a
    multiple of 6 (or 18). *)
Theorem compact_peers_exact bs ps :
  (parse_compact_peers_v4 bs = Ok ps ↔ family false ps ∧ bs = concat (peer_entry <$> ps)) ∧
  (parse_compact_peers_v6 bs = Ok ps ↔ family true ps ∧ bs = concat (peer_entry <$> ps)) ∧
  (parse_compact_peers_v4 bs = Err (InvalidPeersData (Z.of_nat (length bs)) 6) ↔
     (length bs mod 6)%nat ≠ 0%nat) ∧
  (parse_compact_peers_v6 bs = Err (InvalidPeersData (Z.of_nat (length bs)) 18) ↔
     (length bs mod 18)%nat ≠ 0%nat).
Proof.
  split_and!; [apply parse_v4_iff|apply parse_v6_iff|..].
  - unfold parse_compact_peers_v4, COMPACT_PEER_V4_LEN.
    destruct (Nat.eqb_spec (length bs mod 6) 0); naive_solver.
  - unfold parse_compact_peers_v6, COMPACT_PEER_V6_LEN.
    destruct (Nat.eqb_spec (length bs mod 18) 0); naive_solver.
Qed.


(** C27: A UDP announce is two acknowledged transactions. A successful announce sent
    one to three copies of the connect packet, read one reply carrying its
    transaction id, sent one to three copies of the announce packet under the
    connection id of that reply, and returns the contents of the second reply
    read. However the network behaves, at most six datagrams are sent and
    nothing panics. *)
Theorem udp_announce_transactions {N} `{UdpNet N} url params (n n' : N) r :
  InfoHash.wf (AnnounceParams.info_hash params) → PeerId.wf (AnnounceParams.peer_id params) →
  udp_announce url params n = (r, n') →
  ∃ ds rs, datagrams (traffic n') = datagrams (traffic n) ++ ds ∧
  replies (traffic n') = replies (traffic n) ++ rs ∧ (length ds ≤ 6)%nat ∧
  match r with
  | Ok resp => ∃ ct at_ key cid rest k1 k2 interval leechers seeders ps,
      in_word 32 ct ∧ in_word 32 at_ ∧ in_word 32 key ∧ in_word 64 cid ∧
      (1 ≤ k1 ≤ 3)%nat ∧ (1 ≤ k2 ≤ 3)%nat ∧
      ds = replicate k1 (connect_packet ct) ++ replicate k2 (announce_packet cid at_ key params) ∧
      rs = [connect_reply ct cid rest; announce_reply at_ interval leechers seeders ps] ∧
      family false ps ∧ resp = AnnounceResponse.mk interval ps (Some seeders) (Some leechers)
  | Err _ => True
  | Panic => False
  end.
Proof.
  intros Hih Hid Hr. destruct (udp_announce_runs url params n Hih Hid r n' Hr)
    as (ds & rs & [Hd Hs] & Hl & Hx). by exists ds, rs.
Qed.

(** The peers of the two fields of a response. *)
Definition peers_field (d : gmap (list byte) Value) (ps : list SocketAddr.t) : Prop :=
  match d !! lit "peers" with
  | Some (VBytes b) => family false ps ∧ b = concat (peer_entry <$> ps)
  | Some (VList l) => ps = omap peer_dict l
  | _ => ps = []
  end.

Definition peers6_field (d : gmap (list byte) Value) (ps : list SocketAddr.t) : Prop :=
  match d !! lit "peers6" with
  | Some (VBytes b) => family true ps ∧ b = concat (peer_entry <$> ps)
  | _ => ps = []
  end.

Lemma peer_dict_wf v a : peer_dict v = Some a → SocketAddr.wf a.
Proof.
  unfold peer_dict. intros Hp. repeat (case_match; try discriminate Hp).
  apply fmap_Some in Hp as (ip & Hip & ->). eapply parse_wf; [done|by apply wrap_range].
Qed.

Lemma family_wf v6 ps : family v6 ps → Forall SocketAddr.wf ps.
Proof. intros Hf. eapply Forall_impl; [exact Hf|]. by intros a [? _]. Qed.

Lemma peers_field_wf d ps : peers_field d ps → Forall SocketAddr.wf ps.
Proof.
  unfold peers_field. repeat case_match; try (intros ->; constructor).
  - intros [? _]. by eapply family_wf.
  - intros ->. apply Forall_forall. intros a (x & _ & Hx)%list_elem_of_omap.
    by eapply peer_dict_wf.
Qed.

Lemma peers6_field_wf d ps : peers6_field d ps → Forall SocketAddr.wf ps.
Proof.
  unfold peers6_field. repeat case_match; try (intros ->; constructor).
  intros [? _]. by eapply family_wf.
Qed.

Lemma peers_parse d :
  match match d !! lit "peers" with
        | Some (VBytes b) => parse_compact_peers_v4 b
        | Some (VList l) => parse_peer_dicts l
        | _ => Ok []
        end with
  | Ok ps => peers_field d ps
  | Err e => ∃ b, d !! lit "peers" = Some (VBytes b) ∧ (length b mod 6)%nat ≠ 0%nat ∧
      e = InvalidPeersData (Z.of_nat (length b)) 6
  | Panic => False
  end.
Proof.
  unfold peers_field. destruct (d !! lit "peers") as [[b|i|l|m]|]; try done.
  destruct (parse_compact_peers_v4 b) as [ps|e|] eqn:Hb; [by apply parse_v4_iff|..];
    unfold parse_compact_peers_v4, COMPACT_PEER_V4_LEN in Hb;
    destruct (Nat.eqb_spec (length b mod 6) 0); try discriminate Hb.
  injection Hb as <-. by exists b.
Qed.

Lemma peers6_parse d :
  match match d !! lit "peers6" with
        | Some (VBytes b) => parse_compact_peers_v6 b
        | _ => Ok []
        end with
  | Ok ps => peers6_field d ps
  | Err e => ∃ b, d !! lit "peers6" = Some (VBytes b) ∧ (length b mod 18)%nat ≠ 0%nat ∧
      e = InvalidPeersData (Z.of_nat (length b)) 18
  | Panic => False
  end.
Proof.
  unfold peers6_field. destruct (d !! lit "peers6") as [[b|i|l|m]|]; try done.
  destruct (parse_compact_peers_v6 b) as [ps|e|] eqn:Hb; [by apply parse_v6_iff|..];
    unfold parse_compact_peers_v6, COMPACT_PEER_V6_LEN in Hb;
    destruct (Nat.eqb_spec (length b mod 18) 0); try discriminate Hb.
  injection Hb as <-. by exists b.
Qed.

(** What an HTTP response means. Once the body decodes to a dictionary the parser
    never panics. It fails only with the tracker's own reason, or because a
    compact blob has a broken length, which it names; otherwise the peers are
    those of [peers] (compact, or the dictionaries with a literal address) then
    those of [peers6], every one with a well-formed address and a 16-bit port,
    and the counts fit their types. *)
Theorem http_response_cases from_bytes body d :
  from_bytes body = Ok (VDict d) →
  match parse_http_response from_bytes body with
  | Ok r =>
      (∀ reason, d !! lit "failure reason" ≠ Some (VBytes reason)) ∧
      (∃ ps ps6, AnnounceResponse.peers r = ps ++ ps6 ∧ peers_field d ps ∧ peers6_field d ps6) ∧
      Forall SocketAddr.wf (AnnounceResponse.peers r) ∧ 0 ≤ AnnounceResponse.interval r ∧
      from_option (in_word 32) True (AnnounceResponse.seeders r) ∧
      from_option (in_word 32) True (AnnounceResponse.leechers r)
  | Err e =>
      (∃ reason, d !! lit "failure reason" = Some (VBytes reason) ∧
         e = TrackerFailure (Utf8.from_utf8_lossy reason)) ∨
      (∃ b, d !! lit "peers" = Some (VBytes b) ∧ (length b mod 6)%nat ≠ 0%nat ∧
         e = InvalidPeersData (Z.of_nat (length b)) 6) ∨
      (∃ b, d !! lit "peers6" = Some (VBytes b) ∧ (length b mod 18)%nat ≠ 0%nat ∧
         e = InvalidPeersData (Z.of_nat (length b)) 18)
  | Panic => False
  end.
Proof.
  intros Hd. unfold parse_http_response. rewrite Hd. red_result.
  pose proof (peers_parse d) as Hp. pose proof (peers6_parse d) as Hp6.
  set (p4 := match d !! lit "peers" with Some _ => _ | None => _ end) in *.
  set (p6 := match d !! lit "peers6" with Some _ => _ | None => _ end) in *.
  assert (∀ o : option Z,
    from_option (in_word 32) True ((λ v, wrap 32 (Z.max 0 v)) <$> o)) as Hw.
  { intros [z|]; [by apply wrap_range|done]. }
  destruct (d !! lit "failure reason") as [[reason|i|l|m]|] eqn:Hf; [by left; eauto|..];
    (destruct p4 as [ps|e|]; red_result; [|by auto|done]);
    (destruct p6 as [ps6|e|]; red_result; [|by auto|done]);
    (split_and!; [done|by exists ps, ps6| |cbn; lia|apply Hw|apply Hw]);
    (cbn; apply Forall_app; split; [by eapply peers_field_wf|by eapply peers6_field_wf]).
Qed.

(** ** Witnesses *)

(** A network that follows a script of replies; [None] is a timeout. *)
Record Scripted : Type := mk_scripted {
  script_traffic : Traffic;
  script : list (option (list byte));
  next_random : Z;
}.

Definition script_recv (size : nat) (n : Scripted) : result (option (list byte)) * Scripted :=
  match script n with
  | Some d :: rest =>
      (Ok (Some (take size d)),
       mk_scripted (mk_traffic (datagrams (script_traffic n))
                      (replies (script_traffic n) ++ [take size d])) rest (next_random n))
  | o => (Ok None, mk_scripted (script_traffic n) (tail o) (next_random n))
  end.

#[export] Program Instance scripted_UdpNet : UdpNet Scripted := {|
  traffic := script_traffic;
  lookup_host _ p n := (Ok [SocketAddr.mk (V4 [x7f; x00; x00; x01]) p], n);
  bind _ n := (Ok (), n);
  connect_to _ n := (Ok (), n);
  send_datagram d n :=
    (Ok (), mk_scripted (mk_traffic (datagrams (script_traffic n) ++ [d])
                           (replies (script_traffic n))) (script n) (next_random n));
  recv_datagram := script_recv;
  random_u32 n := (Ok (wrap 32 (next_random n)),
                   mk_scripted (script_traffic n) (script n) (next_random n + 1));
|}.
Next Obligation. intros h p n r n' [= <- <-]. split; [left; by eexists|done]. Qed.
Next Obligation. intros a n r n' [= <- <-]. split; [left; by eexists|done]. Qed.
Next Obligation. intros a n r n' [= <- <-]. split; [left; by eexists|done]. Qed.
Next Obligation. intros d n r n' [= <- <-]. by left. Qed.
Next Obligation.
  intros size n r n'. cbn. unfold script_recv.
  destruct (script n) as [|[d|] rest]; intros [= <- <-]; [left; auto| |left; auto].
  right. exists (take size d). split_and!; [done|rewrite length_take; lia|done].
Qed.
Next Obligation.
  intros n r n' [= <- <-]. split; [|done]. eexists. split; [done|]. by apply wrap_range.
Qed.

Definition sample_params : AnnounceParams.t :=
  AnnounceParams.mk sample_hash sample_id 6881 100 200 300 AnnounceEvent.Started true (Some 80).

Definition sample_peer : SocketAddr.t := SocketAddr.mk (V4 [x01; x02; x03; x04]) 6881.

(** The first connect packet is lost. *)
Definition sample_net : Scripted :=
  mk_scripted (mk_traffic [] [])
    [None; Some (connect_reply 5 77 []); Some (announce_reply 6 1800 3 5 [sample_peer])] 5.

Definition sample_url : TrackerUrl.t := TrackerUrl.mk (lit "udp") (Some (lit "tracker")) (Some 80).

Lemma sample_announce_runs :
  udp_announce sample_url sample_params sample_net =
    (Ok (AnnounceResponse.mk 1800 [sample_peer] (Some 5) (Some 3)),
     mk_scripted
       (mk_traffic [connect_packet 5; connect_packet 5; announce_packet 77 6 7 sample_params]
          [connect_reply 5 77 []; announce_reply 6 1800 3 5 [sample_peer]]) [] 8).
Proof. vm_compute. reflexivity. Qed.


Lemma udp_announce_transactions_witness :
  ∃ ds rs : list (list byte), ds = [connect_packet 5; connect_packet 5; announce_packet 77 6 7 sample_params] ∧
    length rs = 2%nat ∧ (length ds ≤ 6)%nat.
Proof.
  destruct (udp_announce_transactions sample_url sample_params sample_net _ _ eq_refl eq_refl
    sample_announce_runs) as (ds & rs & Hd & Hr & Hl & _).
  exists ds, rs. cbn in Hd, Hr. rewrite <-Hd, <-Hr in *. split_and!; [done|done|exact Hl].
Defined.

Definition sample_response : gmap (list byte) Value :=
  {[ lit "interval" := VInt 900; lit "complete" := VInt 5;
     lit "peers" := VList [VDict {[ lit "ip" := VBytes (lit "127.0.0.1"); lit "port" := VInt 6881 ]}] ]}.

Lemma sample_response_parses :
  parse_http_response (λ _, Ok (VDict sample_response)) [] =
    Ok (AnnounceResponse.mk 900 [SocketAddr.mk (V4 [x7f; x00; x00; x01]) 6881] (Some 5) None).
Proof. vm_compute. reflexivity. Qed.

Lemma http_response_cases_witness :
  Forall SocketAddr.wf [SocketAddr.mk (V4 [x7f; x00; x00; x01]) 6881].
Proof.
  pose proof (http_response_cases (λ _, Ok (VDict sample_response)) [] sample_response eq_refl) as Hr.
  rewrite sample_response_parses in Hr. apply Hr.
Defined.

(** A dictionary-model port is an [i64] cut to 16 bits. *)
Example dict_port_truncated :
  peer_dict (VDict {[ lit "ip" := VBytes (lit "127.0.0.1"); lit "port" := VInt 65537 ]}) =
    Some (SocketAddr.mk (V4 [x7f; x00; x00; x01]) 1).
Proof. vm_compute. reflexivity. Qed.
