(* ===== verification/TrackerUrls.v ===== *)
(** * HTTP announces ([src/tracker/http.rs]) and the dispatch on the scheme

    [build_url] and the percent-encoding of its binary fields, and [announce] of
    [src/tracker/mod.rs] over either transport. The percent encoder (crate
    [percent_encoding]), the URL parser (crate [url]) and the HTTP client (crate
    [reqwest]) are not part of the repository: the first is the class
    [PercentEncoding], the others are arguments. *)

From S2P Require Export Trackers.

(** ** Text of numbers *)

(** [{n}] for an unsigned number below [10 ^ fuel]. *)
Fixpoint decimal_f (fuel : nat) (n : Z) : str :=
  match fuel with
  | O => []
  | S fuel' =>
      (if n <? 10 then [] else decimal_f fuel' (n `div` 10)) ++ [z2b (48 + n `mod` 10)]
  end.

(** Twenty digits hold every 64-bit number. *)
Definition decimal (n : Z) : str := decimal_f 20 n.

(** ** Percent-encoding

    [AsciiSet] and [percent_encode] as the crate documents them: a byte that is
    in the set or is not ASCII becomes ['%'] and two upper-case hex digits. *)

Definition upper_hex (n : Z) : byte := z2b (if n <? 10 then 48 + n else 55 + n).
Definition percent : byte := x25.
Definition escape (b : byte) : str := [percent; upper_hex (b2z b `div` 16); upper_hex (b2z b `mod` 16)].

Definition is_alphanumeric (b : byte) : bool :=
  Bencode.is_digit b || ((65 <=? b2z b) && (b2z b <=? 90)) || ((97 <=? b2z b) && (b2z b <=? 122)).

Class PercentEncoding := {
  AsciiSet : Type;
  in_set : AsciiSet → byte → bool;
  NON_ALPHANUMERIC : AsciiSet;
  remove : AsciiSet → byte → AsciiSet;
  percent_encode : list byte → AsciiSet → str;
  non_alphanumeric_spec b :
    b2z b < 128 → in_set NON_ALPHANUMERIC b = negb (is_alphanumeric b);
  remove_spec s b c : in_set (remove s b) c = in_set s c && negb (bool_decide (c = b));
  percent_encode_spec bs s :
    percent_encode bs s =
      concat ((λ b, if (128 <=? b2z b) || in_set s b then escape b else [b]) <$> bs);
}.

Section url.
Context `{PercentEncoding}.

Definition UNRESERVED : AsciiSet :=
  remove (remove (remove (remove NON_ALPHANUMERIC x2d) x2e) x5f) x7e.

Definition encode (bs : list byte) : str := percent_encode bs UNRESERVED.

Definition question : byte := x3f.
Definition ampersand : byte := x26.
Definition equals : byte := x3d.

Definition query (params : AnnounceParams.t) : str :=
  let q := lit "info_hash=" ++ encode (InfoHash.as_bytes (AnnounceParams.info_hash params)) in
  let q := q ++ lit "&peer_id=" ++ encode (PeerId.as_bytes (AnnounceParams.peer_id params)) in
  let q := q ++ lit "&port=" ++ decimal (AnnounceParams.port params)
             ++ lit "&uploaded=" ++ decimal (AnnounceParams.uploaded params)
             ++ lit "&downloaded=" ++ decimal (AnnounceParams.downloaded params)
             ++ lit "&left=" ++ decimal (AnnounceParams.left params)
             ++ lit "&compact=" ++ decimal (if AnnounceParams.compact params then 1 else 0) in
  let event := AnnounceEvent.as_http_str (AnnounceParams.event params) in
  let q := if bool_decide (event = []) then q else q ++ lit "&event=" ++ event in
  match AnnounceParams.numwant params with
  | Some n => q ++ lit "&numwant=" ++ decimal n
  | None => q
  end.

Definition build_url (base : str) (params : AnnounceParams.t) : str :=
  let separator := if contains question base then ampersand else question in
  base ++ separator :: query params.

(** ** Announcing *)

Context {N : Type} `{UdpNet N}.
(** [url::Url::parse]; the request of [reqwest], up to the body of a successful
    response; [serde_bencode::from_bytes]. *)
Context (parse_url : str → result TrackerUrl.t) (http_get : str → net N (list byte))
        (from_bytes : list byte → result Value).

Definition http_announce (base_url : str) (params : AnnounceParams.t) : net N AnnounceResponse.t :=
  body ← http_get (build_url base_url params);
  pure_net (parse_http_response from_bytes body).

Definition announce (url : str) (params : AnnounceParams.t) : net N AnnounceResponse.t :=
  parsed ← pure_net (parse_url url);
  let scheme := TrackerUrl.scheme parsed in
  if bool_decide (scheme = lit "http") || bool_decide (scheme = lit "https")
  then http_announce url params
  else if bool_decide (scheme = lit "udp") then udp_announce parsed params
  else pure_net (Err (UnsupportedScheme scheme)).
End url.

(** ** The query as a list of fields *)

Definition unreserved (b : byte) : bool :=
  is_alphanumeric b || bool_decide (b = x2d) || bool_decide (b = x2e) || bool_decide (b = x5f)
  || bool_decide (b = x7e).

Definition unhex (b : byte) : option Z :=
  let z := b2z b in
  if (48 <=? z) && (z <=? 57) then Some (z - 48)
  else if (65 <=? z) && (z <=? 70) then Some (z - 55) else None.

(** What a server does to a value. *)
Fixpoint percent_decode (l : str) : option (list byte) :=
  match l with
  | [] => Some []
  | b :: l' =>
      if decide (b = percent) then
        match l' with
        | h1 :: h2 :: l'' =>
            hi ← unhex h1; lo ← unhex h2; bs ← percent_decode l'';
            Some (z2b (16 * hi + lo) :: bs)
        | _ => None
        end
      else cons b <$> percent_decode l'
  end.

Fixpoint join_with (c : byte) (ls : list str) : str :=
  match ls with
  | [] => []
  | [l] => l
  | l :: ls' => l ++ c :: join_with c ls'
  end.

Lemma split_join c ls :
  ls ≠ [] → Forall (λ l, c ∉ l) ls → Path.split_on c (join_with c ls) = ls.
Proof.
  intros Hne Hls. induction Hls as [|l ls Hl Hls IH]; [done|].
  destruct ls as [|l' ls]; cbn [join_with]; [by apply Path.split_on_plain|].
  rewrite Path.split_on_sep, Path.split_on_plain by done. cbn [app]. f_equal. by apply IH.
Qed.

(** *** Numbers *)

Lemma parse_digits_snoc acc ds b :
  Bencode.parse_digits acc (ds ++ [b]) =
  (a ← Bencode.parse_digits acc ds;
   if Bencode.is_digit b then
     if a * 10 + (b2z b - 48) <? 2 ^ 64 then Some (a * 10 + (b2z b - 48)) else None
   else None).
Proof.
  revert acc. induction ds as [|d ds IH]; intros acc; [done|]. cbn [app Bencode.parse_digits].
  destruct (Bencode.is_digit d); [|done]. cbv zeta. by destruct (_ <? _).
Qed.

Lemma digit_value k : 0 ≤ k < 10 → b2z (z2b (48 + k)) = 48 + k.
Proof. intros. rewrite b2z_z2b. apply Z.mod_small. lia. Qed.

Lemma decimal_f_digits fuel n :
  0 ≤ n → Forall (λ b, Bencode.is_digit b = true) (decimal_f fuel n).
Proof.
  revert n. induction fuel as [|fuel IH]; intros n Hn; [constructor|]. cbn [decimal_f].
  pose proof (Z.mod_pos_bound n 10 ltac:(lia)).
  apply Forall_app. split.
  - destruct (n <? 10); [constructor|]. apply IH. by apply Z.div_pos.
  - constructor; [|constructor]. unfold Bencode.is_digit. rewrite digit_value by done. lia.
Qed.

Lemma decimal_f_value fuel n :
  0 ≤ n < 10 ^ Z.of_nat fuel → (0 < fuel)%nat → n < 2 ^ 64 →
  Bencode.parse_digits 0 (decimal_f fuel n) = Some n.
Proof.
  revert n. induction fuel as [|fuel IH]; intros n Hn Hf H64; [lia|]. cbn [decimal_f].
  pose proof (Z.mod_pos_bound n 10 ltac:(lia)). pose proof (Z.div_mod n 10 ltac:(lia)).
  rewrite parse_digits_snoc. unfold Bencode.is_digit. rewrite digit_value by done.
  assert (Bencode.parse_digits 0 (if n <? 10 then [] else decimal_f fuel (n `div` 10)) =
    Some (n `div` 10)) as ->.
  { destruct (Z.ltb_spec n 10); [by rewrite Z.div_small by lia|].
    rewrite Nat2Z.inj_succ, Z.pow_succ_r in Hn by lia.
    destruct fuel as [|fuel]; [change (Z.of_nat 0) with 0 in Hn; lia|].
    apply IH; [|lia|]; [split; [apply Z.div_pos; lia|apply Z.div_lt_upper_bound; lia]|lia]. }
  red_result. destruct (Z.leb_spec 48 (48 + n `mod` 10)); [|lia].
  destruct (Z.leb_spec (48 + n `mod` 10) 57); [|lia]. cbn [andb].
  replace (n `div` 10 * 10 + (48 + n `mod` 10 - 48)) with n by lia.
  by destruct (Z.ltb_spec n (2 ^ 64)); [|lia].
Qed.

(** A printed number reads back. *)
Lemma decimal_parses n : in_word 64 n → Bencode.parse_usize (decimal n) = Some n.
Proof.
  intros [Hn H64]. pose proof (decimal_f_digits 20 n Hn) as Hd.
  pose proof (decimal_f_value 20 n ltac:(lia) ltac:(lia) H64) as Hv.
  unfold decimal, Bencode.parse_usize.
  destruct (decimal_f 20 n) as [|b l] eqn:Hl; [|].
  - exfalso. cbn [decimal_f] in Hl. by apply app_nil in Hl as [_ [=]].
  - apply Forall_cons in Hd as [Hb _]. rewrite decide_False; [done|]. by intros ->.
Qed.

(** *** Encoded bytes *)

Section encoding.
Context `{PercentEncoding}.

Lemma encode_eq bs :
  encode bs = concat ((λ b, if unreserved b then [b] else escape b) <$> bs).
Proof.
  unfold encode. rewrite percent_encode_spec. f_equal. apply list_fmap_ext. intros i b _.
  destruct (Z.leb_spec 128 (b2z b)) as [Hb|Hb]; cbn [orb].
  - replace (unreserved b) with false; [done|]. symmetry. clear -Hb.
    destruct b; try reflexivity; exfalso; apply Hb; vm_compute; reflexivity.
  - unfold UNRESERVED. rewrite !remove_spec, non_alphanumeric_spec by done. unfold unreserved.
    destruct (is_alphanumeric b); [done|].
    repeat (case_bool_decide; [done|]). done.
Qed.

Lemma decode_unreserved b l :
  unreserved b = true → percent_decode (b :: l) = cons b <$> percent_decode l.
Proof. intros Hb. cbn [percent_decode]. rewrite decide_False; [done|]. by intros ->. Qed.

Lemma unhex_upper n : 0 ≤ n < 16 → unhex (upper_hex n) = Some n.
Proof.
  intros Hn. unfold unhex, upper_hex.
  destruct (Z.ltb_spec n 10); rewrite b2z_z2b, Z.mod_small by lia.
  - rewrite (proj2 (Z.leb_le _ _)), (proj2 (Z.leb_le _ _)) by lia. cbn [andb]. f_equal. lia.
  - rewrite (proj2 (Z.leb_gt (55 + n) 57)), andb_false_r by lia.
    rewrite (proj2 (Z.leb_le _ _)), (proj2 (Z.leb_le _ _)) by lia. cbn [andb]. f_equal. lia.
Qed.

Lemma decode_escape b l : percent_decode (escape b ++ l) = cons b <$> percent_decode l.
Proof.
  pose proof (b2z_range b). pose proof (Z.div_mod (b2z b) 16 ltac:(lia)).
  pose proof (Z.mod_pos_bound (b2z b) 16 ltac:(lia)).
  unfold escape. cbn [app percent_decode]. rewrite decide_True by done.
  rewrite !unhex_upper by lia. red_result. destruct (percent_decode l); [|done]. red_result.
  do 2 f_equal. rewrite <-(z2b_b2z b) at 3. f_equal. lia.
Qed.

(** A server reads back the bytes that were encoded. *)
Lemma encode_decodes bs : percent_decode (encode bs) = Some bs.
Proof.
  rewrite encode_eq. induction bs as [|b bs IH]; [done|]. cbn [fmap list_fmap concat].
  destruct (unreserved b) eqn:Hb.
  - change ([b] ++ ?l) with (b :: l). by rewrite decode_unreserved, IH.
  - by rewrite decode_escape, IH.
Qed.

(** The characters of a query value. *)
Definition value_char (b : byte) : bool := unreserved b || bool_decide (b = percent).

Lemma encode_chars bs : Forall (λ b, value_char b = true) (encode bs).
Proof.
  rewrite encode_eq. induction bs as [|b bs IH]; [constructor|]. cbn [fmap list_fmap concat].
  apply Forall_app. split; [|done]. unfold value_char. destruct (unreserved b) eqn:Hb.
  - constructor; [by rewrite Hb|constructor].
  - clear. destruct b; repeat constructor.
Qed.

Lemma decimal_chars n : 0 ≤ n → Forall (λ b, value_char b = true) (decimal n).
Proof.
  intros Hn. eapply Forall_impl; [by apply decimal_f_digits|]. cbn. intros b Hb.
  unfold value_char, unreserved, is_alphanumeric. by rewrite Hb.
Qed.

Lemma event_chars e : Forall (λ b, value_char b = true) (AnnounceEvent.as_http_str e).
Proof. destruct e; repeat constructor. Qed.

(** *** The fields *)

(** Name and value of every parameter of the query. *)
Definition query_fields (p : AnnounceParams.t) : list (str * str) :=
  [ (lit "info_hash", encode (InfoHash.as_bytes (AnnounceParams.info_hash p)));
    (lit "peer_id", encode (PeerId.as_bytes (AnnounceParams.peer_id p)));
    (lit "port", decimal (AnnounceParams.port p));
    (lit "uploaded", decimal (AnnounceParams.uploaded p));
    (lit "downloaded", decimal (AnnounceParams.downloaded p));
    (lit "left", decimal (AnnounceParams.left p));
    (lit "compact", if AnnounceParams.compact p then lit "1" else lit "0") ] ++
  (if decide (AnnounceParams.event p = AnnounceEvent.NoEvent) then []
   else [(lit "event", AnnounceEvent.as_http_str (AnnounceParams.event p))]) ++
  from_option (λ n, [(lit "numwant", decimal n)]) [] (AnnounceParams.numwant p).

Definition field_text (f : str * str) : str := f.1 ++ equals :: f.2.

Lemma query_join p : query p = join_with ampersand (field_text <$> query_fields p).
Proof.
  unfold query, query_fields. destruct p as [ih id port up down left ev cp nw].
  cbn [AnnounceParams.info_hash AnnounceParams.peer_id AnnounceParams.port AnnounceParams.uploaded
    AnnounceParams.downloaded AnnounceParams.left AnnounceParams.event AnnounceParams.compact
    AnnounceParams.numwant].
  assert (decimal (if cp then 1 else 0) = if cp then lit "1" else lit "0") as -> by (by destruct cp).
  generalize (if cp then lit "1" else lit "0") as c.
  generalize (encode (InfoHash.as_bytes ih)), (encode (PeerId.as_bytes id)), (decimal port),
    (decimal up), (decimal down), (decimal left). intros a b c d e f cc.
  destruct nw as [n|]; cbn [from_option]; [generalize (decimal n); intros nn|];
    (destruct ev;
      [rewrite bool_decide_eq_false_2, decide_False by done..
      |rewrite bool_decide_eq_true_2, decide_True by done]);
    unfold field_text; cbn [fst snd app fmap list_fmap join_with];
    rewrite <-!app_assoc; reflexivity.
Qed.

Lemma fields_ok p :
  AnnounceParams.wf p →
  Forall (λ f, (ampersand ∉ field_text f) ∧
    Forall (λ b, value_char b = true ∨ b = equals) (field_text f)) (query_fields p).
Proof.
  intros (_ & _ & [? _] & [? _] & [? _] & [? _] & Hn).
  assert (∀ f : str * str, Forall (λ b, value_char b = true ∨ b = equals) (field_text f) →
    (ampersand ∉ field_text f) ∧ Forall (λ b, value_char b = true ∨ b = equals) (field_text f)) as Hw.
  { intros f Hf. split; [|done]. intros Hin. rewrite Forall_forall in Hf.
    destruct (Hf _ Hin) as [Hx|Hx]; [vm_compute in Hx|]; discriminate Hx. }
  assert (∀ k v, Forall (λ b, value_char b = true ∨ b = equals) k →
    Forall (λ b, value_char b = true) v →
    Forall (λ b, value_char b = true ∨ b = equals) (field_text (k, v))) as Hkv.
  { intros k v Hk Hv. unfold field_text. apply Forall_app. split; [done|].
    constructor; [by right|]. eapply Forall_impl; [exact Hv|]. auto. }
  assert (∀ z : Z, 0 ≤ z → Forall (λ b, value_char b = true) (decimal z)) as Hdec
    by apply decimal_chars.
  assert (∀ f : str * str, Forall (λ b, value_char b = true) f.1 →
    Forall (λ b, value_char b = true) f.2 → (ampersand ∉ field_text f) ∧
    Forall (λ b, value_char b = true ∨ b = equals) (field_text f)) as Hf.
  { intros [k v] Hk Hv. apply Hw, Hkv; [|done]. eapply Forall_impl; [exact Hk|]. auto. }
  unfold query_fields. cbn [app].
  do 6 (apply Forall_cons; split; [apply Hf; [repeat constructor|cbn [snd]; auto using encode_chars]|]).
  apply Forall_cons; split;
    [apply Hf; [repeat constructor|cbn; destruct (AnnounceParams.compact p); repeat constructor]|].
  apply Forall_app; split.
  - case_decide; [constructor|]. apply Forall_singleton, Hf; [repeat constructor|apply event_chars].
  - destruct (AnnounceParams.numwant p) as [n|]; [|constructor].
    apply Forall_singleton, Hf; [repeat constructor|]. apply Hdec, Hn.
Qed.
End encoding.

(** ** Properties *)

Section url_properties.
Context `{PercentEncoding}.

End url_properties.

(** ** Witness: the encoder as its documentation describes it *)

#[export] Program Instance documented_encoding : PercentEncoding := {|
  AsciiSet := byte → bool;
  in_set s b := s b;
  NON_ALPHANUMERIC b := negb (is_alphanumeric b);
  remove s b c := s c && negb (bool_decide (c = b));
  percent_encode bs s := concat ((λ b, if (128 <=? b2z b) || s b then escape b else [b]) <$> bs);
|}.
Next Obligation. done. Qed.
Next Obligation. done. Qed.
Next Obligation. done. Qed.

Lemma sample_params_wf : AnnounceParams.wf sample_params.
Proof. split_and!; try done; split; cbn; lia. Qed.

