(* ===== verification/UnitTests.v ===== *)
(** * The repository's own unit tests

    Every module of the crate ends with tests. Here each is translated as it is
    written, an assertion for an assertion, and run on the model: a test that
    panics in Rust is [Panic] here, and the [_passes] examples evaluate each one
    to [Ok ()]. So the definitions of this library agree with the code on
    everything its authors thought worth checking.

    The tests of the peer connection and of the download need two ends of a
    conversation; they are in [SwarmTests]. *)

From S2P Require Export Bitfields States Stats Disks TrackerUrls Handshakes.

(** ** Assertions *)

Definition assert (b : bool) : result () := if b then Ok () else Panic.

Definition assert_eq {A} `{EqDecision A} (x y : A) : result () := assert (bool_decide (x = y)).
Definition assert_ne {A} `{EqDecision A} (x y : A) : result () := assert (bool_decide (x ≠ y)).

(** [unwrap] and [expect] of a [Result]. *)
Definition unwrap {A} (r : result A) : result A := match r with Ok a => Ok a | _ => Panic end.

Definition unwrap_err {A} (r : result A) : result Error :=
  match r with Err e => Ok e | _ => Panic end.

Definition is_ok {A} (r : result A) : result bool :=
  match r with Ok _ => Ok true | Err _ => Ok false | Panic => Panic end.

Definition is_err {A} (r : result A) : result bool := negb <$> is_ok r.

(** [assert!(matches!(r, Err(e)))]. *)
Definition assert_err {A} (r : result A) (e : Error) : result () :=
  e' ← unwrap_err r; assert_eq e' e.

(** A loop over a list, for its effects on a state. *)
Definition each {A S} (l : list A) (f : S → A → result S) (s : S) : result S := fold_result f s l.

(** ** [src/download/bitfield.rs] *)

Module bitfield_tests.
Definition sizes_byte_buffer_by_ceil : result () :=
  _ ← assert_eq (length (Bitfield.as_bytes (Bitfield.new 0))) 0%nat;
  _ ← assert_eq (length (Bitfield.as_bytes (Bitfield.new 1))) 1%nat;
  _ ← assert_eq (length (Bitfield.as_bytes (Bitfield.new 8))) 1%nat;
  assert_eq (length (Bitfield.as_bytes (Bitfield.new 9))) 2%nat.

Definition set_and_has_are_msb_first : result () :=
  let bf := Bitfield.new 10 in
  _ ← assert (negb (Bitfield.has bf 0));
  let bf := Bitfield.set bf 0 in
  let bf := Bitfield.set bf 7 in
  let bf := Bitfield.set bf 8 in
  _ ← assert_eq (Bitfield.as_bytes bf) [x81; x80];
  _ ← assert (Bitfield.has bf 0 && Bitfield.has bf 7 && Bitfield.has bf 8);
  _ ← assert (negb (Bitfield.has bf 1) && negb (Bitfield.has bf 9));
  assert_eq (Bitfield.count bf) 3%nat.

Definition out_of_range_access_is_safe : result () :=
  let bf := Bitfield.new 3 in
  let bf := Bitfield.set bf 99 in
  _ ← assert (negb (Bitfield.has bf 99));
  assert (negb (Bitfield.has bf 3)).

Definition completeness_tracks_all_pieces : result () :=
  let bf := Bitfield.new 3 in
  _ ← assert (negb (Bitfield.is_complete bf));
  let bf := Bitfield.set bf 0 in
  let bf := Bitfield.set bf 1 in
  let bf := Bitfield.set bf 2 in
  assert (Bitfield.is_complete bf).

Definition from_bytes_validates_length : result () :=
  ok ← is_ok (Bitfield.from_bytes (replicate 2 x00) 9);
  _ ← assert ok;
  assert_err (Bitfield.from_bytes (replicate 1 x00) 9) PeerProtocol.

Example bitfield_tests_pass :
  Forall (λ t, t = Ok ())
    [sizes_byte_buffer_by_ceil; set_and_has_are_msb_first; out_of_range_access_is_safe;
     completeness_tracks_all_pieces; from_bytes_validates_length].
Proof. repeat (constructor; [vm_compute; reflexivity|]). constructor. Qed.
End bitfield_tests.

(** ** [src/download/piece.rs] *)

Module piece_tests.
(** An [Info] for a torrent of [total] bytes with [piece_len] pieces. *)
Definition info (total piece_len : Z) : Info.t :=
  let num_pieces := Z.to_nat (div_ceil total piece_len) in
  {| Info.name := lit "t"; Info.piece_length := piece_len;
     Info.pieces := replicate (num_pieces * 20) x00; Info.length := Some total;
     Info.files := None; Info.private := None |}.

Definition geometry_handles_short_final_piece_and_block : result () :=
  g ← unwrap (Geometry.from_info (info (2 * 32768 + 5000) 32768));
  _ ← assert_eq (Geometry.num_pieces g) 3;
  n ← Geometry.piece_length g 0;
  _ ← assert_eq n 32768;
  n ← Geometry.piece_length g 2;
  _ ← assert_eq n 5000;
  n ← Geometry.num_blocks g 0;
  _ ← assert_eq n 2;
  b ← Geometry.block_info g 0 1;
  _ ← assert_eq b (BlockInfo.mk 0 16384 16384);
  n ← Geometry.num_blocks g 2;
  _ ← assert_eq n 1;
  b ← Geometry.block_info g 2 0;
  assert_eq b (BlockInfo.mk 2 0 5000).

Definition geometry_rejects_inconsistent_sizes : result () :=
  let bad := info 40000 32768 in
  let bad := {| Info.name := Info.name bad; Info.piece_length := Info.piece_length bad;
                Info.pieces := replicate (4 * 20) x00; Info.length := Info.length bad;
                Info.files := Info.files bad; Info.private := Info.private bad |} in
  e ← is_err (Geometry.from_info bad);
  assert e.

Definition assembler_collects_blocks_then_completes : result () :=
  let asm := PieceAssembler.new 0 20000 in
  _ ← assert (negb (PieceAssembler.is_complete asm));
  asm ← unwrap (PieceAssembler.add_block asm 0 (replicate (Z.to_nat 16384) x01));
  _ ← assert (negb (PieceAssembler.is_complete asm));
  asm ← unwrap (PieceAssembler.add_block asm 16384 (replicate (Z.to_nat 3616) x02));
  _ ← assert (PieceAssembler.is_complete asm);
  let bytes := PieceAssembler.into_bytes asm in
  _ ← assert_eq (length bytes) (Z.to_nat 20000);
  b ← expect (bytes !! 0%nat);
  _ ← assert_eq b x01;
  b ← expect (bytes !! Z.to_nat 16384);
  assert_eq b x02.

Definition assembler_ignores_duplicate_block : result () :=
  let asm := PieceAssembler.new 0 16384 in
  asm ← unwrap (PieceAssembler.add_block asm 0 (replicate (Z.to_nat 16384) x01));
  _ ← assert (PieceAssembler.is_complete asm);
  asm ← unwrap (PieceAssembler.add_block asm 0 (replicate (Z.to_nat 16384) x01));
  assert (PieceAssembler.is_complete asm).

Definition assembler_rejects_misaligned_and_oversized_blocks : result () :=
  let asm := PieceAssembler.new 0 16384 in
  e ← is_err (PieceAssembler.add_block asm 100 (replicate 10 x00));
  _ ← assert e;
  e ← is_err (PieceAssembler.add_block asm 0 (replicate (Z.to_nat 20000) x00));
  assert e.

Example piece_tests_pass :
  Forall (λ t, t = Ok ())
    [geometry_handles_short_final_piece_and_block; geometry_rejects_inconsistent_sizes;
     assembler_collects_blocks_then_completes; assembler_ignores_duplicate_block;
     assembler_rejects_misaligned_and_oversized_blocks].
Proof. repeat (constructor; [vm_compute; reflexivity|]). constructor. Qed.
End piece_tests.

(** ** [src/download/state.rs] *)

Module state_tests.
Section tests.
Context `{Sha1}.

Definition info_with_hashes (hashes : list (list byte)) : Info.t :=
  let pieces := concat hashes in
  {| Info.name := lit "t"; Info.piece_length := 16384; Info.pieces := pieces;
     Info.length := Some (16384 * Z.of_nat (length hashes)); Info.files := None;
     Info.private := None |}.

Definition full_bitfield (n : nat) : Bitfield.t := foldl Bitfield.set (Bitfield.new n) (seq 0 n).

Definition zeros : list byte := replicate 20 x00.

Definition new_tracker (hashes : list (list byte)) : result (PieceTracker.t Bitfield.t) :=
  unwrap (PieceTracker.from_info (info_with_hashes hashes)).

Definition reserve_prefers_rarest_and_claims_exclusively : result () :=
  t ← new_tracker (replicate 3 zeros);
  let all := full_bitfield 3 in
  t ← PieceTracker.add_availability t 0;
  t ← PieceTracker.add_availability t 0;
  t ← PieceTracker.add_availability t 1;
  '(r, t) ← PieceTracker.reserve_piece t all;
  _ ← assert_eq r (Some 2);
  '(r, t) ← PieceTracker.reserve_piece t all;
  _ ← assert_eq r (Some 1);
  '(r, t) ← PieceTracker.reserve_piece t all;
  _ ← assert_eq r (Some 0);
  '(r, t) ← PieceTracker.reserve_piece t all;
  assert_eq r None.

Definition does_not_reserve_pieces_we_have_or_peer_lacks : result () :=
  t ← new_tracker (replicate 3 zeros);
  let t := PieceTracker.mark_have t 0 in
  let peer := Bitfield.set (Bitfield.new 3) 1 in
  '(r, t) ← PieceTracker.reserve_piece t peer;
  _ ← assert_eq r (Some 1);
  '(r, t) ← PieceTracker.reserve_piece t peer;
  assert_eq r None.

Definition release_allows_reclaiming : result () :=
  t ← new_tracker (replicate 2 zeros);
  let all := full_bitfield 2 in
  '(r, t) ← PieceTracker.reserve_piece t all;
  a ← expect r;
  let t := PieceTracker.release_piece t a in
  '(r, t) ← PieceTracker.reserve_piece t all;
  assert (bool_decide (is_Some r)).

Definition endgame_reservation_ignores_claims_but_not_have : result () :=
  t ← new_tracker (replicate 2 zeros);
  let all := full_bitfield 2 in
  '(r, t) ← PieceTracker.reserve_piece t all;
  _ ← assert (bool_decide (is_Some r));
  '(r, t) ← PieceTracker.reserve_piece t all;
  _ ← assert (bool_decide (is_Some r));
  '(r, t) ← PieceTracker.reserve_piece t all;
  _ ← assert_eq r None;
  r ← PieceTracker.reserve_piece_endgame t all;
  _ ← assert (bool_decide (is_Some r));
  let t := PieceTracker.mark_have t 0 in
  let t := PieceTracker.mark_have t 1 in
  r ← PieceTracker.reserve_piece_endgame t all;
  assert_eq r None.

Definition removing_availability_is_saturating_and_changes_rarest_order : result () :=
  t ← new_tracker (replicate 2 zeros);
  let only_0 := Bitfield.set (Bitfield.new 2) 0 in
  let only_1 := Bitfield.set (Bitfield.new 2) 1 in
  let all := full_bitfield 2 in
  t ← PieceTracker.add_bitfield_availability t only_1;
  t ← PieceTracker.add_bitfield_availability t only_0;
  t ← PieceTracker.add_bitfield_availability t only_0;
  '(r, t) ← PieceTracker.reserve_piece t all;
  _ ← assert_eq r (Some 1);
  let t := PieceTracker.release_piece t 1 in
  let t := PieceTracker.remove_bitfield_availability t only_0 in
  '(r, t) ← PieceTracker.reserve_piece t all;
  _ ← assert_eq r (Some 0);
  let t := PieceTracker.remove_bitfield_availability t all in
  let t := PieceTracker.remove_bitfield_availability t all in
  Ok ().

Definition verify_and_complete : result () :=
  let data := lit "hello piece" in
  let hash := sha1 data in
  t ← new_tracker [hash];
  _ ← assert (PieceTracker.verify t 0 data);
  _ ← assert (negb (PieceTracker.verify t 0 (lit "wrong")));
  _ ← assert (negb (PieceTracker.is_complete t));
  let t := PieceTracker.mark_have t 0 in
  assert (PieceTracker.is_complete t).
End tests.

(** Only the last test computes a digest; any that tells its two strings apart
    will do. *)
Example state_tests_pass :
  let _ := padding_digest in
  Forall (λ t, t = Ok ())
    [reserve_prefers_rarest_and_claims_exclusively;
     does_not_reserve_pieces_we_have_or_peer_lacks; release_allows_reclaiming;
     endgame_reservation_ignores_claims_but_not_have;
     removing_availability_is_saturating_and_changes_rarest_order; verify_and_complete].
Proof. repeat (constructor; [vm_compute; reflexivity|]). constructor. Qed.
End state_tests.

(** ** [src/download/stats.rs] *)

Module stats_tests.
(** An address of the test is its port, the rest is the same in all of them. *)
Definition addr (p : Z) : Z := p.
Definition to_string (a : Z) : str := lit "127.0.0.1:" ++ decimal a.

Definition tracks_peer_lifecycle_and_bytes : result () :=
  let s : SwarmStats.t Z := SwarmStats.new in
  let s := SwarmStats.peer_connected s (addr 1) in
  let s := SwarmStats.peer_connected s (addr 2) in
  _ ← assert_eq (SwarmStats.connected_count s) 2%nat;
  let s := SwarmStats.set_choked s (addr 1) false in
  let s := SwarmStats.set_have_count s (addr 1) 5 in
  s ← SwarmStats.record_block s (addr 1) 16384;
  s ← SwarmStats.record_block s (addr 2) 1024;
  _ ← assert_eq (SwarmStats.total_downloaded s) (16384 + 1024);
  let snaps := SwarmStats.peer_snapshots to_string s in
  first ← expect (snaps !! 0%nat);
  _ ← assert_eq (PeerStat.addr first) (to_string (addr 1));
  _ ← assert (negb (PeerStat.choked first));
  _ ← assert_eq (PeerStat.have_pieces first) 5;
  _ ← assert_eq (PeerStat.downloaded_bytes first) 16384;
  let s := SwarmStats.peer_disconnected s (addr 1) in
  assert_eq (SwarmStats.connected_count s) 1%nat.

Example stats_tests_pass : tracks_peer_lifecycle_and_bytes = Ok ().
Proof. vm_compute. reflexivity. Qed.
End stats_tests.

(** ** [src/metainfo.rs] *)

Module metainfo_tests.
(** The bencoded [info] dictionary of the tests. *)
Definition INFO_BYTES : list byte :=
  lit "d6:lengthi12e4:name4:test12:piece lengthi32768e6:pieces20:AAAAAAAAAAAAAAAAAAAAe".

(** The torrent around an info dictionary. *)
Definition torrent_of (info : list byte) : list byte :=
  lit "d8:announce15:http://tracker/4:info" ++ info ++ lit "e".

Definition single_file_torrent : list byte := torrent_of INFO_BYTES.

Definition md5sum_info : list byte :=
  lit "d6:lengthi12e6:md5sum4:beef4:name4:test12:piece lengthi32768e6:pieces20:AAAAAAAAAAAAAAAAAAAAe".

Definition multi_file_info : list byte :=
  lit "d5:filesld6:lengthi10e4:pathl3:dir1:aeed6:lengthi20e4:pathl1:beee4:name3:dir12:piece lengthi16e6:pieces20:BBBBBBBBBBBBBBBBBBBBe".

Definition traversal_info : list byte :=
  lit "d5:filesld6:lengthi10e4:pathl2:..6:passwdeee4:name3:dir12:piece lengthi16e6:pieces20:CCCCCCCCCCCCCCCCCCCCe".

Section tests.
Context `{Sha1}.
Context (decode_metainfo : list byte → option Metainfo.t) (encode_info : Info.t → option (list byte)).

Definition parses_single_file_torrent : result () :=
  meta ← unwrap (from_bytes decode_metainfo single_file_torrent);
  _ ← assert_eq (Metainfo.announce meta) (Some (lit "http://tracker/"));
  _ ← assert_eq (Info.name (Metainfo.info meta)) (lit "test");
  _ ← assert_eq (Info.piece_length (Metainfo.info meta)) 32768;
  _ ← assert_eq (Info.length (Metainfo.info meta)) (Some 12);
  _ ← assert_eq (Info.files (Metainfo.info meta)) None;
  _ ← assert_eq (Info.num_pieces (Metainfo.info meta)) 1%nat;
  n ← unwrap (Info.total_length (Metainfo.info meta));
  _ ← assert_eq n 12;
  l ← unwrap (Info.layout (Metainfo.info meta));
  assert_eq l (Single 12).

Definition info_hash_matches_independent_sha1_of_info_dict : result () :=
  expected ← copy_from_slice 0 SHA1_LEN (sha1 INFO_BYTES) (replicate SHA1_LEN x00);
  meta ← unwrap (from_bytes decode_metainfo single_file_torrent);
  actual ← unwrap (info_hash encode_info meta);
  assert_eq actual (InfoHash.mk expected).

Definition info_hash_uses_raw_bytes_and_preserves_unmodeled_keys : result () :=
  let bytes := torrent_of md5sum_info in
  expected ← copy_from_slice 0 SHA1_LEN (sha1 md5sum_info) (replicate SHA1_LEN x00);
  meta ← unwrap (from_bytes decode_metainfo bytes);
  h ← unwrap (info_hash encode_info meta);
  _ ← assert_eq h (InfoHash.mk expected);
  h ← unwrap (info_info_hash encode_info (Metainfo.info meta));
  assert_ne h (InfoHash.mk expected).

Definition piece_hashes_iterates_20_byte_chunks : result () :=
  meta ← unwrap (from_bytes decode_metainfo single_file_torrent);
  hashes ← unwrap (Info.piece_hashes (Metainfo.info meta));
  _ ← assert_eq (length hashes) 1%nat;
  h ← expect (hashes !! 0%nat);
  assert_eq h (lit "AAAAAAAAAAAAAAAAAAAA").

Definition rejects_pieces_not_multiple_of_20 : result () :=
  let info := {| Info.name := lit "x"; Info.piece_length := 16; Info.pieces := replicate 25 x00;
                 Info.length := Some 16; Info.files := None; Info.private := None |} in
  assert_err (Info.piece_hashes info) (InvalidPiecesLength 25).

Definition parses_multi_file_torrent_and_resolves_paths : result () :=
  let bytes := torrent_of multi_file_info in
  meta ← unwrap (from_bytes decode_metainfo bytes);
  _ ← assert_eq (Info.length (Metainfo.info meta)) None;
  n ← unwrap (Info.total_length (Metainfo.info meta));
  _ ← assert_eq n 30;
  files ← expect (Info.files (Metainfo.info meta));
  _ ← assert_eq (length files) 2%nat;
  f ← expect (files !! 0%nat);
  _ ← assert_eq (FileEntry.path f) [lit "dir"; lit "a"];
  paths ← unwrap (file_paths meta (lit "/downloads"));
  assert_eq paths [(lit "/downloads/dir/dir/a", 10); (lit "/downloads/dir/b", 20)].

Definition rejects_path_traversal_in_file_paths : result () :=
  let bytes := torrent_of traversal_info in
  meta ← unwrap (from_bytes decode_metainfo bytes);
  assert_err (file_paths meta (lit "/downloads")) MalformedTorrent.
End tests.

(** The record most tests build: one file, no optional field. *)
Definition bare (announce : option str) (tiers : option (list (list str))) (name : str) : Metainfo.t :=
  {| Metainfo.announce := announce; Metainfo.announce_list := tiers;
     Metainfo.info := {| Info.name := name; Info.piece_length := 16;
       Info.pieces := replicate 20 x00; Info.length := Some 16; Info.files := None;
       Info.private := None |};
     Metainfo.comment := None; Metainfo.created_by := None; Metainfo.creation_date := None;
     Metainfo.encoding := None; Metainfo.raw_info_hash := None |}.

Definition rejects_path_traversal_in_torrent_name : result () :=
  let meta := bare None None (lit "..") in
  assert_err (file_paths meta (lit "/downloads")) MalformedTorrent.

Definition collects_all_trackers_deduplicated : result () :=
  let meta := bare (Some (lit "http://primary/"))
    (Some [[lit "http://primary/"; lit "http://t1/"]; [lit "http://t2/"]]) (lit "x") in
  assert_eq (Metainfo.all_trackers meta) [lit "http://primary/"; lit "http://t1/"; lit "http://t2/"].

(** What the serde decoder and encoder give for the inputs of the tests. *)
Definition parsed (name : str) (piece_length : Z) (pieces : list byte) (length : option Z)
    (files : option (list FileEntry.t)) : Metainfo.t :=
  {| Metainfo.announce := Some (lit "http://tracker/"); Metainfo.announce_list := None;
     Metainfo.info := Info.mk name piece_length pieces length files None;
     Metainfo.comment := None; Metainfo.created_by := None; Metainfo.creation_date := None;
     Metainfo.encoding := None; Metainfo.raw_info_hash := None |}.

Definition decoded (bs : list byte) : option Metainfo.t :=
  if decide (bs = single_file_torrent ∨ bs = torrent_of md5sum_info) then
    Some (parsed (lit "test") 32768 (lit "AAAAAAAAAAAAAAAAAAAA") (Some 12) None)
  else if decide (bs = torrent_of multi_file_info) then
    Some (parsed (lit "dir") 16 (lit "BBBBBBBBBBBBBBBBBBBB") None
      (Some [FileEntry.mk 10 [lit "dir"; lit "a"] None; FileEntry.mk 20 [lit "b"] None]))
  else if decide (bs = torrent_of traversal_info) then
    Some (parsed (lit "dir") 16 (lit "CCCCCCCCCCCCCCCCCCCC") None
      (Some [FileEntry.mk 10 [lit ".."; lit "passwd"] None]))
  else None.

Definition encoded (i : Info.t) : option (list byte) :=
  if decide (i = Info.mk (lit "test") 32768 (lit "AAAAAAAAAAAAAAAAAAAA") (Some 12) None None)
  then Some INFO_BYTES else None.

Example metainfo_tests_pass :
  let _ := padding_digest in
  Forall (λ t, t = Ok ())
    [parses_single_file_torrent decoded;
     info_hash_matches_independent_sha1_of_info_dict decoded encoded;
     info_hash_uses_raw_bytes_and_preserves_unmodeled_keys decoded encoded;
     piece_hashes_iterates_20_byte_chunks decoded; rejects_pieces_not_multiple_of_20;
     parses_multi_file_torrent_and_resolves_paths decoded;
     rejects_path_traversal_in_file_paths decoded; rejects_path_traversal_in_torrent_name;
     collects_all_trackers_deduplicated].
Proof. repeat (constructor; [vm_compute; reflexivity|]). constructor. Qed.
End metainfo_tests.

(** ** [src/disk.rs] *)

Module disk_tests.
Definition files (spec : list (Z * Z)) : list MappedFile.t :=
  imap (λ i p, {| MappedFile.path := lit "f" ++ decimal (Z.of_nat i);
                  MappedFile.length := p.2; MappedFile.offset := p.1 |}) spec.

Definition maps_region_within_a_single_file : result () :=
  let files := files [(0, 100)] in
  ops ← map_region files 10 20;
  assert_eq ops [WriteOp.mk 0 10 0 20].

Definition maps_region_straddling_two_files : result () :=
  let files := files [(0, 40000); (40000, 30000)] in
  ops ← map_region files 32768 (Z.to_nat 32768);
  assert_eq ops [WriteOp.mk 0 32768 0 7232; WriteOp.mk 1 0 7232 25536].

Definition maps_region_at_exact_file_boundary : result () :=
  let files := files [(0, 100); (100, 100)] in
  ops ← map_region files 100 50;
  assert_eq ops [WriteOp.mk 1 0 0 50].

Definition map_region_skips_zero_length_and_nonoverlapping_files : result () :=
  let files := files [(0, 50); (50, 0); (50, 50)] in
  ops ← map_region files 0 100;
  _ ← assert_eq (length ops) 2%nat;
  o ← expect (ops !! 0%nat);
  _ ← assert_eq (WriteOp.file_index o) 0%nat;
  o ← expect (ops !! 1%nat);
  assert_eq (WriteOp.file_index o) 2%nat.

(** [(0..total).map(f)]. *)
Fixpoint bytes_from (n : nat) (i : Z) (f : Z → Z) : list byte :=
  match n with O => [] | S n' => z2b (f i) :: bytes_from n' (i + 1) f end.

Definition bytes_of (total : Z) (f : Z → Z) : list byte := bytes_from (Z.to_nat total) 0 f.

Definition meta_of (info : Info.t) : Metainfo.t :=
  Metainfo.mk None None info None None None None None.

(** [unwrap] of an I/O result. *)
Definition unwrap_io {A} (m : io A) : io A := λ w, let '(r, w') := m w in (unwrap r, w').

(** [std::fs::read]. *)
Definition read (path : str) : io (list byte) := λ w, (ok_or Io (disk w !! path), w).

(** One iteration of the writing loop. *)
Definition write_from (geometry : Geometry.t) (data : list byte) (storage : DiskStorage.t) (index : Z)
  : io DiskStorage.t :=
  start ← lift (Geometry.piece_offset geometry index);
  plen ← lift (Geometry.piece_length geometry index);
  src ← lift (slice_r (Z.to_nat start) (Z.to_nat (start + plen)) data);
  unwrap_io (DiskStorage.write_piece storage index src).

Fixpoint write_all_from (geometry : Geometry.t) (data : list byte) (storage : DiskStorage.t)
    (indices : list Z) : io DiskStorage.t :=
  match indices with
  | [] => mret storage
  | index :: indices' =>
      storage ← write_from geometry data storage index;
      write_all_from geometry data storage indices'
  end.

(** Both tests start from an empty directory [dir]. *)
Definition writes_multi_file_torrent_to_disk (dir : str) : io () :=
  let piece_len := 32768 in
  let len_a := 40000 in
  let len_b := 30000 in
  let total := len_a + len_b in
  let num_pieces := div_ceil total piece_len in
  let data := bytes_of total (λ i, i `mod` 251) in
  let meta := meta_of
    {| Info.name := lit "torrent"; Info.piece_length := piece_len;
       Info.pieces := replicate (Z.to_nat num_pieces * 20) x00; Info.length := None;
       Info.files := Some [FileEntry.mk len_a [lit "a.bin"] None;
                           FileEntry.mk len_b [lit "sub"; lit "b.bin"] None];
       Info.private := None |} in
  storage ← unwrap_io (DiskStorage.create meta dir);
  geometry ← lift (unwrap (Geometry.from_info (Metainfo.info meta)));
  storage ← write_all_from geometry data storage (rev (Z.of_nat <$> seq 0 (Z.to_nat num_pieces)));
  _ ← unwrap_io (DiskStorage.finish storage);
  let path_a := Path.join (Path.join dir (lit "torrent")) (lit "a.bin") in
  let path_b := Path.join (Path.join (Path.join dir (lit "torrent")) (lit "sub")) (lit "b.bin") in
  got_a ← unwrap_io (read path_a);
  got_b ← unwrap_io (read path_b);
  _ ← lift (assert_eq got_a (take (Z.to_nat len_a) data));
  _ ← lift (assert_eq got_b (drop (Z.to_nat len_a) data));
  _ ← lift (assert_eq (length got_a) (Z.to_nat len_a));
  lift (assert_eq (length got_b) (Z.to_nat len_b)).

Definition writes_single_file_torrent_to_disk (dir : str) : io () :=
  let data := bytes_of 5000 id in
  let meta := meta_of
    {| Info.name := lit "single.bin"; Info.piece_length := 16384; Info.pieces := replicate 20 x00;
       Info.length := Some 5000; Info.files := None; Info.private := None |} in
  storage ← unwrap_io (DiskStorage.create meta dir);
  storage ← unwrap_io (DiskStorage.write_piece storage 0 data);
  _ ← unwrap_io (DiskStorage.finish storage);
  got ← unwrap_io (read (Path.join dir (lit "single.bin")));
  lift (assert_eq got data).

Definition in_tempdir (test : str → io ()) : result () := (test (lit "/tmp/dir") (mk_world ∅ [])).1.

Example disk_tests_pass :
  Forall (λ t, t = Ok ())
    [maps_region_within_a_single_file; maps_region_straddling_two_files;
     maps_region_at_exact_file_boundary; map_region_skips_zero_length_and_nonoverlapping_files;
     in_tempdir writes_multi_file_torrent_to_disk; in_tempdir writes_single_file_torrent_to_disk].
Proof. repeat (constructor; [vm_compute; reflexivity|]). constructor. Qed.
End disk_tests.

(** ** [src/peer/message.rs] *)

Module message_tests.
Section tests.
Context {B : Type} `{ByteBuf B}.
(** [BytesMut::new]. *)
Context (empty : B).

(** [decode(..).unwrap()] and the buffer after it. *)
Definition decode_unwrap (buf : B) : result (option Message * B) :=
  let '(r, buf) := PeerCodec.decode buf in
  m ← unwrap r;
  Ok (m, buf).

Definition round_trip (msg : Message) : result () :=
  buf ← unwrap (PeerCodec.encode msg empty);
  '(r, buf) ← decode_unwrap buf;
  decoded ← expect r;
  _ ← assert_eq decoded msg;
  assert (bool_decide (contents buf = [])).

Definition round_trips_all_message_types : result () :=
  _ ← round_trip KeepAlive;
  _ ← round_trip Choke;
  _ ← round_trip Unchoke;
  _ ← round_trip Interested;
  _ ← round_trip NotInterested;
  _ ← round_trip (Have 42);
  _ ← round_trip (Bitfield [xaa; xff]);
  _ ← round_trip (Request (BlockInfo.mk 1 16384 16384));
  _ ← round_trip (Piece (Block.mk 7 32768 (lit "some block data")));
  _ ← round_trip (Messages.Cancel (BlockInfo.mk 2 0 16384));
  round_trip (Port 6881).

(** One iteration of the loop: byte [i] of the full frame arrives. *)
Definition feed_byte (full_len : nat) (partial : B) (ib : nat * byte) : result B :=
  let '(i, b) := ib in
  let partial := put_u8 partial (b2z b) in
  '(r, partial) ← decode_unwrap partial;
  _ ← (if (i + 1 <? full_len)%nat then assert_eq r None else assert_eq r (Some (Have 5)));
  Ok partial.

Definition decode_waits_for_a_complete_frame : result () :=
  buf ← unwrap (PeerCodec.encode (Have 5) empty);
  let full := contents buf in
  _ ← each (imap pair full) (feed_byte (length full)) empty;
  Ok ().

Definition decodes_two_back_to_back_messages : result () :=
  buf ← unwrap (PeerCodec.encode Unchoke empty);
  buf ← unwrap (PeerCodec.encode (Have 9) buf);
  '(r, buf) ← decode_unwrap buf;
  _ ← assert_eq r (Some Unchoke);
  '(r, buf) ← decode_unwrap buf;
  _ ← assert_eq r (Some (Have 9));
  '(r, buf) ← decode_unwrap buf;
  assert_eq r None.

Definition rejects_oversized_length_prefix : result () :=
  let buf := put_u32 empty (wrap 32 (MAX_MESSAGE_LEN + 1)) in
  assert_err (PeerCodec.decode buf).1 PeerProtocol.

Definition rejects_wrong_payload_length : result () :=
  let buf := put_u32 empty 4 in
  let buf := put_u8 buf id.HAVE in
  let buf := put_slice buf [x00; x00; x00] in
  assert_err (PeerCodec.decode buf).1 PeerProtocol.

Definition rejects_unknown_message_id : result () :=
  let buf := put_u32 empty 1 in
  let buf := put_u8 buf 99 in
  assert_err (PeerCodec.decode buf).1 PeerProtocol.
End tests.

Example message_tests_pass :
  Forall (λ t : list byte → result (), t [] = Ok ())
    [round_trips_all_message_types; decode_waits_for_a_complete_frame;
     decodes_two_back_to_back_messages; rejects_oversized_length_prefix;
     rejects_wrong_payload_length; rejects_unknown_message_id].
Proof. repeat (constructor; [vm_compute; reflexivity|]). constructor. Qed.
End message_tests.

(** ** [src/peer/mod.rs] and [src/peer/handshake.rs] *)

Module handshake_tests.
(** [random_a] and [random_b] are what the generator fills in; the last
    assertion of the test holds when they differ. *)
Definition generated_peer_id_has_client_prefix_and_is_random (random_a random_b : list byte) : result () :=
  a ← PeerId.generate random_a;
  b ← PeerId.generate random_b;
  s ← slice_r 0 (length CLIENT_PREFIX) (PeerId.as_bytes a);
  _ ← assert_eq s CLIENT_PREFIX;
  s ← slice_r 0 (length CLIENT_PREFIX) (PeerId.as_bytes b);
  _ ← assert_eq s CLIENT_PREFIX;
  assert_ne a b.

Definition round_trips_through_bytes : result () :=
  let hs := Handshake.new (InfoHash.mk (replicate 20 xab)) (PeerId.mk (lit "-TN0001-ABCDEFGHIJKL")) in
  bytes ← Handshake.to_bytes hs;
  _ ← assert_eq (length bytes) 68%nat;
  b ← expect (bytes !! 0%nat);
  _ ← assert_eq b x13;
  s ← slice_r 1 20 bytes;
  _ ← assert_eq s PSTR;
  parsed ← unwrap (Handshake.from_bytes bytes);
  assert_eq parsed hs.

Definition rejects_wrong_length : result () :=
  assert_err (Handshake.from_bytes (replicate 10 x00)) PeerProtocol.

Definition zero_handshake : result (list byte) :=
  Handshake.to_bytes (Handshake.new (InfoHash.mk (replicate 20 x00)) (PeerId.mk (replicate 20 x00))).

Definition rejects_bad_protocol_string : result () :=
  bytes ← zero_handshake;
  bytes ← copy_from_slice 1 2 (lit "X") bytes;
  assert_err (Handshake.from_bytes bytes) PeerProtocol.

Definition rejects_bad_pstrlen : result () :=
  bytes ← zero_handshake;
  bytes ← copy_from_slice 0 1 [x12] bytes;
  assert_err (Handshake.from_bytes bytes) PeerProtocol.

Example handshake_tests_pass :
  Forall (λ t, t = Ok ())
    [generated_peer_id_has_client_prefix_and_is_random (lit "ABCDEFGHIJKL") (lit "MNOPQRSTUVWX");
     round_trips_through_bytes; rejects_wrong_length; rejects_bad_protocol_string;
     rejects_bad_pstrlen].
Proof. repeat (constructor; [vm_compute; reflexivity|]). constructor. Qed.
End handshake_tests.

(** ** [src/tracker/mod.rs] *)

Module tracker_tests.
Definition ipv4 (a b c d : byte) (port : Z) : SocketAddr.t := SocketAddr.mk (V4 [a; b; c; d]) port.

Definition parses_compact_v4_peers : result () :=
  let bytes := [x01; x02; x03; x04; x1a; xe1; x0a; x00; x00; x01; x1a; xe2] in
  peers ← unwrap (parse_compact_peers_v4 bytes);
  assert_eq peers [ipv4 x01 x02 x03 x04 6881; ipv4 x0a x00 x00 x01 6882].

Definition rejects_misaligned_compact_peers : result () :=
  let bytes := [x01; x02; x03; x04; x05] in
  assert_err (parse_compact_peers_v4 bytes) (InvalidPeersData 5 (Z.of_nat COMPACT_PEER_V4_LEN)).

Definition compact_body : list byte :=
  lit "d8:completei5e10:incompletei3e8:intervali1800e5:peers6:" ++ [x01; x02; x03; x04; x1a; xe1] ++
  lit "e".

Definition dictionary_body : list byte :=
  lit "d8:intervali900e5:peersld2:ip9:127.0.0.14:porti6881eeee".

Definition failure_body : list byte := lit "d14:failure reason17:torrent not founde".

Section tests.
Context (from_bytes : list byte → result Value).

Definition parses_full_compact_http_response : result () :=
  let body := compact_body in
  resp ← unwrap (parse_http_response from_bytes body);
  _ ← assert_eq (AnnounceResponse.interval resp) 1800;
  _ ← assert_eq (AnnounceResponse.seeders resp) (Some 5);
  _ ← assert_eq (AnnounceResponse.leechers resp) (Some 3);
  assert_eq (AnnounceResponse.peers resp) [ipv4 x01 x02 x03 x04 6881].

Definition parses_dictionary_model_peers : result () :=
  let body := dictionary_body in
  resp ← unwrap (parse_http_response from_bytes body);
  _ ← assert_eq (AnnounceResponse.interval resp) 900;
  assert_eq (AnnounceResponse.peers resp) [ipv4 x7f x00 x00 x01 6881].

Definition surfaces_tracker_failure_reason : result () :=
  let body := failure_body in
  assert_err (parse_http_response from_bytes body) (TrackerFailure (lit "torrent not found")).
End tests.

(** What the decoder gives for the three bodies. *)
Definition decoded_value (body : list byte) : result Value :=
  if decide (body = compact_body) then
    Ok (VDict {[ lit "complete" := VInt 5; lit "incomplete" := VInt 3; lit "interval" := VInt 1800;
                 lit "peers" := VBytes [x01; x02; x03; x04; x1a; xe1] ]})
  else if decide (body = dictionary_body) then
    Ok (VDict {[ lit "interval" := VInt 900;
                 lit "peers" := VList [VDict {[ lit "ip" := VBytes (lit "127.0.0.1");
                                                lit "port" := VInt 6881 ]}] ]})
  else if decide (body = failure_body) then
    Ok (VDict {[ lit "failure reason" := VBytes (lit "torrent not found") ]})
  else Err BencodeDecode.

Example tracker_tests_pass :
  Forall (λ t, t = Ok ())
    [parses_compact_v4_peers; rejects_misaligned_compact_peers;
     parses_full_compact_http_response decoded_value; parses_dictionary_model_peers decoded_value;
     surfaces_tracker_failure_reason decoded_value].
Proof. repeat (constructor; [vm_compute; reflexivity|]). constructor. Qed.
End tracker_tests.

(** ** [src/tracker/udp.rs] *)

Module udp_tests.
Definition sample_params : AnnounceParams.t :=
  {| AnnounceParams.info_hash := InfoHash.mk (replicate 20 x07);
     AnnounceParams.peer_id := PeerId.mk (replicate 20 x09); AnnounceParams.port := 6881;
     AnnounceParams.uploaded := 100; AnnounceParams.downloaded := 200; AnnounceParams.left := 300;
     AnnounceParams.event := AnnounceEvent.Started; AnnounceParams.compact := true;
     AnnounceParams.numwant := Some 80 |}.

(** [assert_eq!(uW::from_be_bytes(req[i..j].try_into().unwrap()), x)]. *)
Definition assert_word (req : list byte) (i j : nat) (x : Z) : result () :=
  w ← word_at req i j; assert_eq w x.

Definition connect_request_has_magic_and_action : result () :=
  req ← build_connect_request 0xdeadbeef;
  _ ← assert_word req 0 8 PROTOCOL_ID;
  _ ← assert_word req 8 12 ACTION_CONNECT;
  assert_word req 12 16 0xdeadbeef.

Definition parses_connect_response_and_rejects_bad_txn : result () :=
  let reply := replicate 16 x00 in
  reply ← copy_from_slice 0 4 (be_encode 4 ACTION_CONNECT) reply;
  reply ← copy_from_slice 4 8 (be_encode 4 0x1234) reply;
  reply ← copy_from_slice 8 16 (be_encode 8 0xCAFEBABEDEADBEEF) reply;
  id ← unwrap (parse_connect_response reply 0x1234);
  _ ← assert_eq id 0xCAFEBABEDEADBEEF;
  assert_err (parse_connect_response reply 0x9999) UdpProtocol.

Definition announce_request_layout_is_correct : result () :=
  let p := sample_params in
  req ← build_announce_request 0xABCD 0x1111 0x2222 p;
  _ ← assert_eq (length req) 98%nat;
  _ ← assert_word req 0 8 0xABCD;
  _ ← assert_word req 8 12 ACTION_ANNOUNCE;
  _ ← assert_word req 12 16 0x1111;
  s ← slice_r 16 36 req;
  _ ← assert_eq s (InfoHash.as_bytes (AnnounceParams.info_hash p));
  s ← slice_r 36 56 req;
  _ ← assert_eq s (PeerId.as_bytes (AnnounceParams.peer_id p));
  _ ← assert_word req 56 64 200;
  _ ← assert_word req 64 72 300;
  _ ← assert_word req 72 80 100;
  _ ← assert_word req 80 84 2;
  _ ← assert_word req 92 96 80;
  assert_word req 96 98 6881.

(** [i32::from_be_bytes] of the word. *)
Definition signed32 (x : Z) : Z := if decide (x < 2 ^ 31) then x else x - 2 ^ 32.

Definition num_want_defaults_to_minus_one : result () :=
  let p := sample_params in
  let p := AnnounceParams.mk (AnnounceParams.info_hash p) (AnnounceParams.peer_id p)
    (AnnounceParams.port p) (AnnounceParams.uploaded p) (AnnounceParams.downloaded p)
    (AnnounceParams.left p) (AnnounceParams.event p) (AnnounceParams.compact p) None in
  req ← build_announce_request 1 2 3 p;
  w ← word_at req 92 96;
  assert_eq (signed32 w) (-1).

Definition parses_announce_response_with_peers : result () :=
  let reply := be_encode 4 ACTION_ANNOUNCE ++ be_encode 4 0x55 ++ be_encode 4 1800 ++
    be_encode 4 3 ++ be_encode 4 5 ++ [x01; x02; x03; x04; x1a; xe1] in
  resp ← unwrap (parse_announce_response reply 0x55);
  _ ← assert_eq (AnnounceResponse.interval resp) 1800;
  _ ← assert_eq (AnnounceResponse.seeders resp) (Some 5);
  _ ← assert_eq (AnnounceResponse.leechers resp) (Some 3);
  assert_eq (AnnounceResponse.peers resp) [SocketAddr.mk (V4 [x01; x02; x03; x04]) 6881].

Definition surfaces_udp_error_action : result () :=
  let reply := be_encode 4 ACTION_ERROR ++ be_encode 4 0x55 ++ lit "bad request" in
  assert_err (parse_announce_response reply 0x55) (TrackerFailure (lit "bad request")).

Example udp_tests_pass :
  Forall (λ t, t = Ok ())
    [connect_request_has_magic_and_action; parses_connect_response_and_rejects_bad_txn;
     announce_request_layout_is_correct; num_want_defaults_to_minus_one;
     parses_announce_response_with_peers; surfaces_udp_error_action].
Proof. repeat (constructor; [vm_compute; reflexivity|]). constructor. Qed.
End udp_tests.

(** ** [src/tracker/http.rs] *)

Module http_tests.
Definition sample_params : AnnounceParams.t :=
  {| AnnounceParams.info_hash :=
       InfoHash.mk ([x00; x41; xff; x2d; x7e] ++ replicate 15 x00);
     AnnounceParams.peer_id := PeerId.mk (lit "-TN0001-ABCDEFGHIJKL"); AnnounceParams.port := 6881;
     AnnounceParams.uploaded := 0; AnnounceParams.downloaded := 0; AnnounceParams.left := 1024;
     AnnounceParams.event := AnnounceEvent.Started; AnnounceParams.compact := true;
     AnnounceParams.numwant := Some 50 |}.

(** [str::starts_with] and [str::contains]. *)
Definition starts_with (s p : str) : bool := bool_decide (take (length p) s = p).

Fixpoint contains (s p : str) : bool :=
  starts_with s p || match s with [] => false | _ :: s' => contains s' p end.

Section tests.
Context `{PercentEncoding}.

Definition encodes_binary_fields_per_tracker_convention : result () :=
  assert_eq (TrackerUrls.encode [x00; x41; xff; x2d; x7e]) (lit "%00A%FF-~").

Definition builds_query_and_chooses_separator : result () :=
  let p := sample_params in
  let url := build_url (lit "http://tracker.example/announce") p in
  _ ← assert (starts_with url (lit "http://tracker.example/announce?info_hash="));
  _ ← assert (contains url (lit "&peer_id=-TN0001-ABCDEFGHIJKL"));
  _ ← assert (contains url (lit "&port=6881"));
  _ ← assert (contains url (lit "&left=1024"));
  _ ← assert (contains url (lit "&compact=1"));
  _ ← assert (contains url (lit "&event=started"));
  _ ← assert (contains url (lit "&numwant=50"));
  let url2 := build_url (lit "http://tracker.example/announce?passkey=abc") p in
  assert (contains url2 (lit "?passkey=abc&info_hash=")).

Definition omits_event_param_when_none : result () :=
  let p := sample_params in
  let p := AnnounceParams.mk (AnnounceParams.info_hash p) (AnnounceParams.peer_id p)
    (AnnounceParams.port p) (AnnounceParams.uploaded p) (AnnounceParams.downloaded p)
    (AnnounceParams.left p) AnnounceEvent.NoEvent (AnnounceParams.compact p)
    (AnnounceParams.numwant p) in
  let url := build_url (lit "http://t/announce") p in
  assert (negb (contains url (lit "event="))).
End tests.

Example http_tests_pass :
  Forall (λ t, t = Ok ())
    [encodes_binary_fields_per_tracker_convention; builds_query_and_chooses_separator;
     omits_event_param_when_none].
Proof. repeat (constructor; [vm_compute; reflexivity|]). constructor. Qed.
End http_tests.
