(* ===== verification/Clients.v ===== *)
(** * What the two front ends share ([src/main.rs], [gui/src/main.rs])

    Collecting peers from the trackers, draining verified pieces to disk,
    describing a torrent for the registry, and deleting its data. Console output
    and log events are left out. *)

From S2P Require Export TrackerUrls Disks States.

#[export] Instance IpAddr_countable : Countable IpAddr.
Proof.
  apply (inj_countable' (λ a, match a with V4 o => inl o | V6 o => inr o end)
    (λ s, match s with inl o => V4 o | inr o => V6 o end)). by intros [].
Defined.

#[export] Instance SocketAddr_countable : Countable SocketAddr.t.
Proof.
  apply (inj_countable' (λ a, (SocketAddr.ip a, SocketAddr.port a))
    (λ p, SocketAddr.mk p.1 p.2)). by intros [].
Defined.

(** ** Collecting peers

    [announce] is [tracker::announce] with the parameters of the session. *)

Section peers.
Context {N : Type} (announce : str → net N AnnounceResponse.t).

(** The loop over the trackers; [st] is [(seen, peers)]. *)
Fixpoint ask_trackers (urls : list str) (st : gset SocketAddr.t * list SocketAddr.t)
  : net N (list SocketAddr.t) :=
  match urls with
  | [] => mret st.2
  | url :: urls' => λ n,
      match announce url n with
      | (Ok resp, n') =>
          let st := foldl push_new st (AnnounceResponse.peers resp) in
          if bool_decide (st.2 = []) then ask_trackers urls' st n' else (Ok st.2, n')
      | (Err _, n') => ask_trackers urls' st n'
      | (Panic, n') => (Panic, n')
      end
  end.

(** [None]: no peers returned by any tracker. *)
Definition collect_peers (meta : Metainfo.t) : net N (option (list SocketAddr.t)) :=
  peers ← ask_trackers (Metainfo.all_trackers meta) (∅, []);
  mret (if bool_decide (peers = []) then None else Some peers).

(** These trackers failed or gave no peer. *)
Inductive unanswered : list str → N → N → Prop :=
  | unanswered_nil n : unanswered [] n n
  | unanswered_cons url urls n n1 n2 :
      (∃ e, announce url n = (Err e, n1)) ∨
      (∃ resp, announce url n = (Ok resp, n1) ∧ AnnounceResponse.peers resp = []) →
      unanswered urls n1 n2 → unanswered (url :: urls) n n2.

Lemma first_occurrences_nil {A} `{EqDecision A} (l : list A) : first_occurrences l = [] ↔ l = [].
Proof. by destruct l. Qed.

Lemma ask_trackers_cases urls n :
  match ask_trackers urls (∅, []) n with
  | (Ok [], n') => unanswered urls n n'
  | (Ok ps, n') => ∃ before url after n1 resp, urls = before ++ url :: after ∧
      unanswered before n n1 ∧ announce url n1 = (Ok resp, n') ∧
      ps = first_occurrences (AnnounceResponse.peers resp)
  | (Err _, _) => False
  | (Panic, n') => ∃ before url after n1, urls = before ++ url :: after ∧
      unanswered before n n1 ∧ announce url n1 = (Panic, n')
  end.
Proof.
  revert n. induction urls as [|url urls IH]; intros n; cbn [ask_trackers]; [constructor|].
  assert (∀ n1, (∃ e, announce url n = (Err e, n1)) ∨
      (∃ resp, announce url n = (Ok resp, n1) ∧ AnnounceResponse.peers resp = []) →
    match ask_trackers urls (∅, []) n1 with
    | (Ok [], n') => unanswered (url :: urls) n n'
    | (Ok ps, n') => ∃ before url' after n2 resp, url :: urls = before ++ url' :: after ∧
        unanswered before n n2 ∧ announce url' n2 = (Ok resp, n') ∧
        ps = first_occurrences (AnnounceResponse.peers resp)
    | (Err _, _) => False
    | (Panic, n') => ∃ before url' after n2, url :: urls = before ++ url' :: after ∧
        unanswered before n n2 ∧ announce url' n2 = (Panic, n')
    end) as Hskip.
  { intros n1 Hn1. specialize (IH n1).
    destruct (ask_trackers urls (∅, []) n1) as [[[|p ps]|e|] n'].
    - by econstructor.
    - destruct IH as (before & url' & after & n2 & resp & -> & Hb & Ha & Hp).
      exists (url :: before), url', after, n2, resp. split_and!; try done. by econstructor.
    - done.
    - destruct IH as (before & url' & after & n2 & -> & Hb & Ha).
      exists (url :: before), url', after, n2. split_and!; try done. by econstructor. }
  destruct (announce url n) as [[resp|e|] n1] eqn:Ha.
  - rewrite push_new_fold. cbn [snd]. case_bool_decide as Hnil.
    + pose proof (proj1 (first_occurrences_nil _) Hnil) as Hp. rewrite Hp. apply Hskip. right. by exists resp.
    + destruct (first_occurrences _) as [|p ps] eqn:Hps; [done|].
      exists [], url, urls, n, resp. split_and!; try done. constructor.
  - apply Hskip. left. by exists e.
  - exists [], url, urls, n. split_and!; try done. constructor.
Qed.

(** Peers come from the first tracker that has any. The trackers are asked in
    order; one that fails or has no peer is skipped; the first that has some
    gives the result, each of its addresses once, in its order, and no later
    tracker is asked. Collection fails only when every tracker was asked in
    vain, and panics only if an announce does. *)
Theorem collect_peers_first meta n :
  match collect_peers meta n with
  | (Ok (Some ps), n') =>
      NoDup ps ∧ ps ≠ [] ∧
      ∃ before url after n1 resp, Metainfo.all_trackers meta = before ++ url :: after ∧
        unanswered before n n1 ∧ announce url n1 = (Ok resp, n') ∧
        ps = first_occurrences (AnnounceResponse.peers resp) ∧
        ∀ a, a ∈ ps ↔ a ∈ AnnounceResponse.peers resp
  | (Ok None, n') => unanswered (Metainfo.all_trackers meta) n n'
  | (Err _, _) => False
  | (Panic, n') => ∃ before url after n1, Metainfo.all_trackers meta = before ++ url :: after ∧
      unanswered before n n1 ∧ announce url n1 = (Panic, n')
  end.
Proof.
  unfold collect_peers, mbind, net_bind. pose proof (ask_trackers_cases (Metainfo.all_trackers meta) n) as Hc.
  destruct (ask_trackers _ _ _) as [[[|p ps]|e|] n']; cbn; [done| |done|done].
  destruct Hc as (before & url & after & n1 & resp & Hu & Hb & Ha & Hps).
  split_and!; [rewrite Hps; apply first_occurrences_NoDup|done|].
  exists before, url, after, n1, resp. split_and!; try done.
  intros a. rewrite Hps. apply first_occurrences_elem.
Qed.
End peers.

(** ** Draining pieces to disk

    The writer task of the command line client counts as it goes; [usize] and
    [u64] have 64 bits. The desktop shell's writer is [assemble] itself. *)

Fixpoint consume_pieces (storage : DiskStorage.t) (done_ bytes : Z) (pieces : list (Z * list byte))
  : io DiskStorage.t :=
  match pieces with
  | [] => mret storage
  | (index, data) :: pieces' =>
      bytes ← lift (add_w 64 bytes (Z.of_nat (length data)));
      storage ← DiskStorage.write_piece storage index data;
      done_ ← lift (add_w 64 done_ 1);
      consume_pieces storage done_ bytes pieces'
  end.

Definition consume_to_disk (storage : DiskStorage.t) (pieces : list (Z * list byte)) : io () :=
  storage ← consume_pieces storage 0 0 pieces;
  DiskStorage.finish storage.

Definition data_bytes (pieces : list (Z * list byte)) : Z :=
  foldr (λ p acc, Z.of_nat (length p.2) + acc) 0 pieces.

Lemma data_bytes_nonneg pieces : 0 ≤ data_bytes pieces.
Proof. unfold data_bytes. induction pieces as [|p pieces IH]; cbn [foldr]; lia. Qed.

Lemma consume_pieces_eq storage done_ bytes pieces w :
  bytes + data_bytes pieces < 2 ^ 64 → done_ + Z.of_nat (length pieces) < 2 ^ 64 →
  consume_pieces storage done_ bytes pieces w = write_pieces storage pieces w.
Proof.
  revert storage done_ bytes w.
  induction pieces as [|[index data] pieces IH]; intros storage done_ bytes w Hb Hd; [done|].
  cbn [consume_pieces write_pieces data_bytes foldr snd length] in *.
  fold (data_bytes pieces) in *. pose proof (data_bytes_nonneg pieces).
  rewrite (add_w_Ok 64 bytes) by lia. unfold mbind, io_bind, lift. cbv beta iota.
  destruct (DiskStorage.write_piece storage index data w) as [[s|e|] w1]; [|done..].
  rewrite (add_w_Ok 64 done_) by lia. apply IH; lia.
Qed.

(** The two writers are one. As long as the bytes and pieces received fit in 64
    bits, the command line client's writer does to the disk exactly what
    [assemble] does, failures included, so every theorem about [assemble] is
    one about it. *)
Theorem consume_is_assemble storage pieces w :
  data_bytes pieces < 2 ^ 64 → Z.of_nat (length pieces) < 2 ^ 64 →
  consume_to_disk storage pieces w = assemble storage pieces w.
Proof.
  intros. unfold consume_to_disk, assemble, mbind, io_bind.
  by rewrite consume_pieces_eq by lia.
Qed.

Lemma consume_is_assemble_witness :
  consume_to_disk straddling_storage [(1, lit "efgh"); (0, lit "abcd")] (mk_world blank_disk []) =
  assemble straddling_storage [(1, lit "efgh"); (0, lit "abcd")] (mk_world blank_disk []).
Proof. apply consume_is_assemble; vm_compute; reflexivity. Defined.

(** ** The registry's description of a torrent ([Record] in [gui/src/main.rs]) *)

Module TorrentRecord.
Record t : Type := mk {
  id : str;
  name : str;
  torrent_path : str;
  output : str;
  total_bytes : Z;
  files : list str;
  root : option str;
  status : str;
}.

#[global] Instance t_eq_dec : EqDecision t.
Proof. solve_decision. Defined.

Definition set_status (r : t) (s : str) : t :=
  mk (id r) (name r) (torrent_path r) (output r) (total_bytes r) (files r) (root r) s.
End TorrentRecord.

Section records.
Context `{Sha1}.
Context (encode_info : Info.t → option (list byte)).

(** [build_record] of a parsed torrent. Paths made of strings are strings, so
    [to_string_lossy] loses nothing. *)
Definition build_record (meta : Metainfo.t) (torrent output status : str) : result TorrentRecord.t :=
  h ← info_hash encode_info meta;
  let id := InfoHash.to_string h in
  total_bytes ← Info.total_length (Metainfo.info meta);
  paths ← file_paths meta output;
  let root := match Info.files (Metainfo.info meta) with
              | Some _ => Some (Path.join output (Info.name (Metainfo.info meta)))
              | None => None
              end in
  Ok (TorrentRecord.mk id (Info.name (Metainfo.info meta)) torrent output total_bytes paths.*1 root status).
End records.

(** ** Deleting a torrent's data

    [remove_dir_all] removes what lies under a directory, [remove_file] one
    file; a failure may come after some files are gone, is logged, and does not
    stop the next removal. *)

Definition under (root p : str) : Prop := Path.components root `prefix_of` Path.components p.

#[export] Instance under_dec root p : Decision (under root p).
Proof. unfold under. apply _. Defined.

Definition remove_all (ps : list str) (d : gmap str (list byte)) : gmap str (list byte) :=
  foldr delete d ps.

Definition files_under (root : str) (d : gmap str (list byte)) : list str :=
  filter (under root) (map_to_list d).*1.

(** [remove_dir_all]: on a failure only the first [k] files are gone. *)
Definition remove_dir_all (root : str) : io () := λ w,
  attempt (λ d, remove_all (files_under root d) d)
    (λ k d, remove_all (take k (files_under root d)) d) w.

Definition remove_file (path : str) : io () := attempt (delete path) (λ _ d, d).

(** The result of a removal is at most logged. *)
Definition ignore (m : io ()) : io () := λ w, (Ok (), (m w).2).

Fixpoint remove_files (paths : list str) : io () :=
  match paths with
  | [] => mret ()
  | p :: paths' => _ ← ignore (remove_file p); remove_files paths'
  end.

Definition delete_data (record : TorrentRecord.t) : io () :=
  match TorrentRecord.root record with
  | Some root => ignore (remove_dir_all root)
  | None => remove_files (TorrentRecord.files record)
  end.

Lemma remove_all_lookup ps d p :
  remove_all ps d !! p = if decide (p ∈ ps) then None else d !! p.
Proof.
  induction ps as [|q ps IH]; [by rewrite decide_False by apply not_elem_of_nil|].
  change (remove_all (q :: ps) d) with (delete q (remove_all ps d)).
  destruct (decide (p = q)) as [->|Hne].
  - rewrite lookup_delete_eq. by rewrite decide_True by left.
  - rewrite lookup_delete_ne, IH by done.
    destruct (decide (p ∈ ps)) as [Hin|Hout]; [by rewrite decide_True by (by right)|].
    by rewrite decide_False by (by rewrite not_elem_of_cons).
Qed.

(** Nothing but the listed paths goes, whatever fails. *)
Definition removes (P : str → Prop) (m : io ()) : Prop :=
  ∀ w p, disk (m w).2 !! p = disk w !! p ∨ disk (m w).2 !! p = None ∧ P p.

Lemma removes_attempt (P : str → Prop) (ps : gmap str (list byte) → list str)
    (ps' : nat → gmap str (list byte) → list str) :
  (∀ d p, p ∈ ps d → P p) → (∀ k d p, p ∈ ps' k d → P p) →
  removes P (attempt (λ d, remove_all (ps d) d) (λ k d, remove_all (ps' k d) d)).
Proof.
  intros Hps Hps' w p. unfold attempt.
  destruct (faults w) as [|[k|] fs]; cbn; rewrite remove_all_lookup; case_decide; eauto.
Qed.

Lemma removes_ignore (P : str → Prop) (m : io ()) : removes P m → removes P (ignore m).
Proof. intros Hm w p. exact (Hm w p). Qed.

Lemma files_under_elem root d p : p ∈ files_under root d → under root p.
Proof. unfold files_under. by intros [? _]%list_elem_of_filter. Qed.

Lemma remove_dir_all_removes root : removes (under root) (remove_dir_all root).
Proof.
  intros w p.
  apply (removes_attempt (under root) (files_under root) (λ k d, take k (files_under root d))).
  - intros d q. apply files_under_elem.
  - intros k d q Hq. apply (files_under_elem root d).
    by apply (subseteq_take k (files_under root d)).
Qed.

Lemma remove_files_removes paths : removes (λ p, p ∈ paths) (remove_files paths).
Proof.
  induction paths as [|q paths IH]; intros w p; [by left|].
  change (remove_files (q :: paths) w) with (remove_files paths (remove_file q w).2).
  specialize (IH (remove_file q w).2 p).
  assert (disk (remove_file q w).2 !! p = disk w !! p ∨ disk (remove_file q w).2 !! p = None ∧ p = q) as Hq.
  { destruct (removes_attempt (λ p, p = q) (λ _, [q]) (λ _ _, [])
      ltac:(by intros ?? ->%list_elem_of_singleton) ltac:(by intros ??? ?%not_elem_of_nil) w p) as [Hq|Hq];
      [by left|by right]. }
  destruct IH as [->|[-> Hp]]; [|right; split; [done|by right]].
  destruct Hq as [->|[-> ->]]; [by left|right; split; [done|by left]].
Qed.

(** C39: Deleting a torrent's data stays inside its own directory. For a record that
    [build_record] made, whatever removals fail, a path of the file system
    whose contents changed is gone, and it is the torrent's name under the
    output directory or lies below it. *)
Theorem delete_data_confined `{Sha1} encode_info meta torrent output status r w p :
  build_record encode_info meta torrent output status = Ok r →
  disk (delete_data r w).2 !! p ≠ disk w !! p →
  disk (delete_data r w).2 !! p = None ∧
  ∃ below, Path.components p =
    Path.components output ++ Path.Normal (Info.name (Metainfo.info meta)) :: below.
Proof.
  unfold build_record. intros Hb Hne.
  apply bind_Ok_inv in Hb as (h & _ & Hb). apply bind_Ok_inv in Hb as (len & _ & Hb).
  apply bind_Ok_inv in Hb as (paths & Hpaths & [= <-]). unfold delete_data in *.
  cbn [TorrentRecord.root TorrentRecord.files] in *.
  assert (safe_name (Info.name (Metainfo.info meta))) as Hname.
  { unfold file_paths in Hpaths. apply bind_Ok_inv in Hpaths as ([] & Hv & _).
    by apply validate_path_component_Ok in Hv. }
  destruct (Info.files (Metainfo.info meta)) as [fs|].
  - destruct (removes_ignore _ _ (remove_dir_all_removes
      (Path.join output (Info.name (Metainfo.info meta)))) w p) as [|[Hnone [below Hp]]]; [done|].
    split; [done|]. exists below. rewrite Hp. unfold Path.join.
    rewrite Path.components_push by apply Hname. by rewrite <-app_assoc.
  - destruct (remove_files_removes paths.*1 w p) as [|[Hnone Hin]]; [done|].
    split; [done|]. apply list_elem_of_fmap in Hin as ([q n] & -> & Hin).
    destruct (file_paths_under meta output paths q n Hpaths Hin) as (names & Hne' & _ & Hhd & Hc).
    destruct names as [|nm names]; [done|]. injection Hhd as ->. by exists (Path.Normal <$> names).
Qed.

Section delete_witness.
#[local] Existing Instance padding_digest.

(** A torrent of two files under [out/d], and a disk that holds one of them, a
    stranger in the same directory, and a file next to it. *)
Definition owned_meta : Metainfo.t :=
  Metainfo.set_raw_info_hash straddling_meta (InfoHash.mk (replicate 20 xaa)).

Definition crowded_disk : gmap str (list byte) :=
  {[ lit "out/d/a" := [x01]; lit "out/d/other" := [x02]; lit "out/dd" := [x03] ]}.

Definition owned_record : result TorrentRecord.t :=
  build_record (λ _, None) owned_meta (lit "t") (lit "out") (lit "stopped").

(** Both files of the directory go, its neighbour stays. *)
Lemma delete_example :
  (λ r, map_to_list (disk (delete_data r (mk_world crowded_disk [])).2)) <$> owned_record =
  Ok [(lit "out/dd", [x03])].
Proof. vm_compute. reflexivity. Qed.

Lemma delete_data_confined_witness :
  ∃ r, owned_record = Ok r ∧ ∃ below, Path.components (lit "out/d/other") =
    Path.components (lit "out") ++ Path.Normal (lit "d") :: below.
Proof.
  pose proof delete_example as He. destruct owned_record as [r|e|] eqn:Hr; [|discriminate He..].
  exists r. split; [reflexivity|].
  apply (delete_data_confined (λ _, None) owned_meta (lit "t") (lit "out") (lit "stopped") r
    (mk_world crowded_disk []) (lit "out/d/other") Hr).
  injection He as He. intros Hx.
  assert ((lit "out/d/other", [x02]) ∈ map_to_list (disk (delete_data r (mk_world crowded_disk [])).2)) as Hin.
  { apply elem_of_map_to_list. rewrite Hx. vm_compute. reflexivity. }
  rewrite He in Hin. apply list_elem_of_singleton in Hin. discriminate Hin.
Defined.
End delete_witness.
