(* ===== verification/Sessions.v ===== *)
(** * One peer session ([run_session] and [handle_block] in
      [src/download/mod.rs])

    The download state machine of one peer task, as a function of the shared
    state and the event that wakes it. The asynchronous function is cut at its
    awaits: [Phase] says where the task is suspended, [session_step] runs it
    from there to the next one. Accesses to the shared tracker happen under its
    lock, so each is inside one step; [Coordinators] interleaves the steps of
    all sessions. A panic ends the task at once, without its cleanup. *)

From S2P Require Export Pieces States Stats.

Definition MAX_PIPELINED_REQUESTS : Z := 5.

Inductive ControlState : Type := Running | Paused | Cancelled.

#[export] Instance ControlState_eq_dec : EqDecision ControlState.
Proof. solve_decision. Defined.

Module VerifiedPiece.
Record t : Type := mk { index : Z; data : list byte }.
End VerifiedPiece.

(** ** State *)

Inductive Phase : Type :=
  | Connecting
  | Starting                       (* send [Interested] *)
  | AtTop                          (* read the control state *)
  | AtPause                        (* [control.changed().await] while paused *)
  | AtClaim                        (* lock the tracker to claim a piece *)
  | AtRefill                       (* send requests *)
  | AtSelect                       (* the [select!] *)
  | Delivering (v : VerifiedPiece.t) (complete : bool)  (* [completed.send(..).await] *)
  | Leaving (r : result ())        (* the loop was left; undo availability *)
  | Ended (r : result ()).

Module Shared.
Record t (B A : Type) `{Countable A} : Type := mk {
  tracker : PieceTracker.t B;
  stats : SwarmStats.t A;
  control : ControlState;
  (** Sends on the control channel, for [changed()]. *)
  control_version : nat;
  done : bool;
  (** The pieces sent on [completed], and whether its receiver still exists. *)
  sent : list VerifiedPiece.t;
  rx_open : bool;
}.
Arguments mk {B A _ _}.
Arguments tracker {B A _ _}.
Arguments stats {B A _ _}.
Arguments control {B A _ _}.
Arguments control_version {B A _ _}.
Arguments done {B A _ _}.
Arguments sent {B A _ _}.
Arguments rx_open {B A _ _}.

Section setters.
Context {B A : Type} `{Countable A}.
Implicit Types sh : t B A.

Definition set_tracker sh tr : t B A :=
  mk tr (stats sh) (control sh) (control_version sh) (done sh) (sent sh) (rx_open sh).
Definition set_stats sh st : t B A :=
  mk (tracker sh) st (control sh) (control_version sh) (done sh) (sent sh) (rx_open sh).
Definition set_done sh : t B A :=
  mk (tracker sh) (stats sh) (control sh) (control_version sh) true (sent sh) (rx_open sh).
(** [completed.send(v)]: lost when the receiver is gone. *)
Definition send sh (v : VerifiedPiece.t) : t B A :=
  mk (tracker sh) (stats sh) (control sh) (control_version sh) (done sh)
     (if rx_open sh then sent sh ++ [v] else sent sh) (rx_open sh).
End setters.
End Shared.

Module Session.
Record t (B A : Type) : Type := mk {
  addr : A;
  phase : Phase;
  peer_has : B;
  choked : bool;
  current : option PieceAssembler.t;
  next_block : Z;
  in_flight : Z;
  (** The control version last seen. *)
  seen : nat;
  (** The messages sent to the peer. *)
  outbox : list Message;
}.
Arguments mk {B A}.
Arguments addr {B A}.
Arguments phase {B A}.
Arguments peer_has {B A}.
Arguments choked {B A}.
Arguments current {B A}.
Arguments next_block {B A}.
Arguments in_flight {B A}.
Arguments seen {B A}.
Arguments outbox {B A}.

Section setters.
Context {B A : Type}.
Implicit Types s : t B A.

Definition set_phase s p : t B A :=
  mk (addr s) p (peer_has s) (choked s) (current s) (next_block s) (in_flight s) (seen s) (outbox s).
Definition set_peer_has s h : t B A :=
  mk (addr s) (phase s) h (choked s) (current s) (next_block s) (in_flight s) (seen s) (outbox s).
Definition set_choked s c : t B A :=
  mk (addr s) (phase s) (peer_has s) c (current s) (next_block s) (in_flight s) (seen s) (outbox s).
Definition set_work s c n f : t B A :=
  mk (addr s) (phase s) (peer_has s) (choked s) c n f (seen s) (outbox s).
Definition set_seen s v : t B A :=
  mk (addr s) (phase s) (peer_has s) (choked s) (current s) (next_block s) (in_flight s) v (outbox s).
Definition push_out s m : t B A :=
  mk (addr s) (phase s) (peer_has s) (choked s) (current s) (next_block s) (in_flight s) (seen s)
     (outbox s ++ [m]).

Definition leave s (r : result ()) : t B A := set_phase s (Leaving r).
Definition crash s : t B A := set_phase s (Ended Panic).
End setters.
End Session.

(** ** The events that resume a task *)

Inductive Event : Type :=
  | Connected (r : result ())         (* [PeerConnection::connect] returned *)
  | Proceed                           (* a step with no outside input *)
  | SendsOk                           (* every send of the step succeeds *)
  | SendFails (after : nat) (e : Error)  (* the send number [after] fails *)
  | ControlChanged
  | DoneChanged
  | TimedOut
  | Received (r : result (option Message)).

Section session.
Context {B A : Type} `{PieceSet B} `{Sha1} `{Countable A}.
Context (geometry : Geometry.t).
Implicit Types (sh : Shared.t B A) (s : Session.t B A).

Definition num_pieces : nat := Z.to_nat (Geometry.num_pieces geometry).

(** A task before its connection. *)
Definition new_session (addr : A) : Session.t B A :=
  Session.mk addr Connecting (ps_new num_pieces) true None 0 0 0 [].

(** [if let Some(asm) = &current { release_piece(asm.index()) }]. *)
Definition release_current sh s : Shared.t B A :=
  match Session.current s with
  | Some asm => Shared.set_tracker sh
                  (PieceTracker.release_piece (Shared.tracker sh) (PieceAssembler.index asm))
  | None => sh
  end.

(** ... with [current.take()] and the counters reset. *)
Definition drop_current s : Session.t B A :=
  match Session.current s with
  | Some _ => Session.set_work s None 0 0
  | None => s
  end.

(** *** The top of the loop *)

Definition at_top sh s : Shared.t B A * Session.t B A :=
  let s := Session.set_seen s (Shared.control_version sh) in
  match Shared.control sh with
  | Cancelled => (release_current sh s, Session.leave s (Ok ()))
  | Paused => (release_current sh s, Session.set_phase (drop_current s) AtPause)
  | Running => (sh, Session.set_phase s AtClaim)
  end.

(** *** Claiming a piece *)

Definition start_piece sh s (index : Z) : Shared.t B A * Session.t B A :=
  match Geometry.piece_length geometry index with
  | Ok len =>
      (sh, Session.set_phase (Session.set_work s (Some (PieceAssembler.new index len)) 0 0) AtRefill)
  | _ => (sh, Session.crash s)
  end.

Definition at_claim sh s : Shared.t B A * Session.t B A :=
  match Session.current s, Session.choked s with
  | None, false =>
      match PieceTracker.reserve_piece (Shared.tracker sh) (Session.peer_has s) with
      | Ok (Some index, t) => start_piece (Shared.set_tracker sh t) s index
      | Ok (None, t) =>
          let sh := Shared.set_tracker sh t in
          if PieceTracker.is_complete t
          then (Shared.set_done sh, Session.leave s (Ok ()))
          else
            match PieceTracker.reserve_piece_endgame t (Session.peer_has s) with
            | Ok (Some index) => start_piece sh s index
            | Ok None => (sh, Session.set_phase s AtRefill)
            | _ => (sh, Session.crash s)
            end
      | _ => (sh, Session.crash s)
      end
  | _, _ => (sh, Session.set_phase s AtRefill)
  end.

(** *** Refilling the pipeline

    The loop sends at most [MAX_PIPELINED_REQUESTS] requests, its fuel;
    [budget] is the number of sends before one fails, if any. *)
Fixpoint refill (fuel : nat) (budget : option (nat * Error)) (index total_blocks : Z) s
  : Session.t B A :=
  match fuel with
  | O => Session.set_phase s AtSelect
  | S fuel' =>
      if decide (Session.in_flight s < MAX_PIPELINED_REQUESTS ∧ Session.next_block s < total_blocks)
      then
        match Geometry.block_info geometry index (Session.next_block s) with
        | Ok b =>
            match budget with
            | Some (O, e) => Session.leave s (Err e)
            | _ =>
                refill fuel' ((λ p, (pred p.1, p.2)) <$> budget) index total_blocks
                  (Session.set_work (Session.push_out s (Request b)) (Session.current s)
                     (Session.next_block s + 1) (Session.in_flight s + 1))
            end
        | _ => Session.crash s
        end
      else Session.set_phase s AtSelect
  end.

Definition at_refill (budget : option (nat * Error)) s : Session.t B A :=
  match Session.choked s, Session.current s with
  | false, Some asm =>
      match Geometry.num_blocks geometry (PieceAssembler.index asm) with
      | Ok total_blocks =>
          refill (Z.to_nat MAX_PIPELINED_REQUESTS) budget (PieceAssembler.index asm) total_blocks s
      | _ => Session.crash s
      end
  | _, _ => Session.set_phase s AtSelect
  end.

(** *** A received block *)

(** [handle_block]: the session and the tracker after it, the verified piece to
    deliver, and whether the torrent is complete. *)
Definition handle_block s (t : PieceTracker.t B) (block : Block.t)
  : result (Session.t B A * PieceTracker.t B * option VerifiedPiece.t * bool) :=
  match Session.current s with
  | None => Ok (s, t, None, false)
  | Some asm =>
      if negb (Block.index block =? PieceAssembler.index asm) then Ok (s, t, None, false)
      else
        asm ← PieceAssembler.add_block asm (Block.begin block) (Block.data block);
        let in_flight := saturating_sub (Session.in_flight s) 1 in
        if negb (PieceAssembler.is_complete asm)
        then Ok (Session.set_work s (Some asm) (Session.next_block s) in_flight, t, None, false)
        else
          let s := Session.set_work s None (Session.next_block s) in_flight in
          let index := PieceAssembler.index asm in
          let data := PieceAssembler.into_bytes asm in
          if PieceTracker.has t index
          then Ok (s, t, None, PieceTracker.is_complete t)
          else if PieceTracker.verify t index data then
            let t := PieceTracker.mark_have t index in
            Ok (s, t, Some (VerifiedPiece.mk index data), PieceTracker.is_complete t)
          else Ok (s, PieceTracker.release_piece t index, None, false)
  end.

(** After a block: wake the siblings and leave, or loop. *)
Definition after_block sh s (complete : bool) : Shared.t B A * Session.t B A :=
  if complete then (Shared.set_done sh, Session.leave s (Ok ()))
  else (sh, Session.set_phase s AtTop).

Definition on_piece sh s (block : Block.t) : Shared.t B A * Session.t B A :=
  match SwarmStats.record_block (Shared.stats sh) (Session.addr s)
          (Z.of_nat (length (Block.data block))) with
  | Ok st =>
      let sh := Shared.set_stats sh st in
      match handle_block s (Shared.tracker sh) block with
      | Ok (s', t', Some v, complete) =>
          (Shared.set_tracker sh t', Session.set_phase s' (Delivering v complete))
      | Ok (s', t', None, complete) => after_block (Shared.set_tracker sh t') s' complete
      | Err e => (sh, Session.leave s (Err e))
      | Panic => (sh, Session.crash s)
      end
  | _ => (sh, Session.crash s)
  end.

(** *** The other messages *)

Definition set_have_count sh s : Shared.t B A :=
  Shared.set_stats sh (SwarmStats.set_have_count (Shared.stats sh) (Session.addr s)
    (wrap 32 (Z.of_nat (ps_count (Session.peer_has s))))).

Definition on_have sh s (index : Z) : Shared.t B A * Session.t B A :=
  let idx := Z.to_nat index in
  if ps_has (Session.peer_has s) idx
  then (set_have_count sh s, Session.set_phase s AtTop)
  else
    let s := Session.set_peer_has s (ps_set (Session.peer_has s) idx) in
    match PieceTracker.add_availability (Shared.tracker sh) idx with
    | Ok t =>
        let sh := Shared.set_tracker sh t in
        (set_have_count sh s, Session.set_phase s AtTop)
    | _ => (sh, Session.crash s)
    end.

Definition on_bitfield sh s (bytes : list byte) : Shared.t B A * Session.t B A :=
  match ps_from_bytes bytes num_pieces with
  | Ok new_has =>
      let t := PieceTracker.remove_bitfield_availability (Shared.tracker sh) (Session.peer_has s) in
      match PieceTracker.add_bitfield_availability t new_has with
      | Ok t =>
          let sh := Shared.set_tracker sh t in
          let s := Session.set_peer_has s new_has in
          (set_have_count sh s, Session.set_phase s AtTop)
      | _ => (Shared.set_tracker sh t, Session.crash s)
      end
  | Err e => (sh, Session.leave s (Err e))
  | Panic => (sh, Session.crash s)
  end.

Definition on_message sh s (m : Message) : Shared.t B A * Session.t B A :=
  match m with
  | Choke =>
      let sh := Shared.set_stats sh (SwarmStats.set_choked (Shared.stats sh) (Session.addr s) true) in
      (release_current sh s, Session.set_phase (drop_current (Session.set_choked s true)) AtTop)
  | Unchoke =>
      (Shared.set_stats sh (SwarmStats.set_choked (Shared.stats sh) (Session.addr s) false),
       Session.set_phase (Session.set_choked s false) AtTop)
  | Have index => on_have sh s index
  | Bitfield bytes => on_bitfield sh s bytes
  | Piece block => on_piece sh s block
  | _ => (sh, Session.set_phase s AtTop)
  end.

Definition on_recv sh s (r : result (option Message)) : Shared.t B A * Session.t B A :=
  match r with
  | Ok (Some m) => on_message sh s m
  | Ok None => (release_current sh s, Session.leave s (Ok ()))
  | Err e => (sh, Session.leave s (Err e))
  | Panic => (sh, Session.crash s)
  end.

(** *** The cleanup after the loop, and the end of [peer_task] *)

Definition cleanup sh s (r : result ()) : Shared.t B A * Session.t B A :=
  (Shared.set_stats
     (Shared.set_tracker sh
        (PieceTracker.remove_bitfield_availability (Shared.tracker sh) (Session.peer_has s)))
     (SwarmStats.peer_disconnected (Shared.stats sh) (Session.addr s)),
   Session.set_phase s (Ended r)).

(** The [sleep] branch of the [select!] is guarded. *)
Definition timeout_enabled s : bool :=
  match Session.current s with Some _ => bool_decide (0 < Session.in_flight s) | None => false end.

(** *** One step

    [None]: the task is not waiting for this event. *)
Definition session_step sh s (e : Event) : option (Shared.t B A * Session.t B A) :=
  match Session.phase s, e with
  | Connecting, Connected (Ok _) =>
      Some (Shared.set_stats sh (SwarmStats.peer_connected (Shared.stats sh) (Session.addr s)),
            Session.set_phase s Starting)
  | Connecting, Connected r => Some (sh, Session.set_phase s (Ended r))
  | Starting, SendsOk => Some (sh, Session.set_phase (Session.push_out s Interested) AtTop)
  | Starting, SendFails _ e =>
      Some (Shared.set_stats sh (SwarmStats.peer_disconnected (Shared.stats sh) (Session.addr s)),
            Session.set_phase s (Ended (Err e)))
  | AtTop, Proceed => Some (at_top sh s)
  | AtPause, ControlChanged =>
      if decide (Session.seen s = Shared.control_version sh) then None
      else Some (sh, Session.set_phase (Session.set_seen s (Shared.control_version sh)) AtTop)
  | AtClaim, Proceed => Some (at_claim sh s)
  | AtRefill, SendsOk => Some (sh, at_refill None s)
  | AtRefill, SendFails n e => Some (sh, at_refill (Some (n, e)) s)
  | AtSelect, ControlChanged =>
      if decide (Session.seen s = Shared.control_version sh) then None
      else Some (sh, Session.set_phase (Session.set_seen s (Shared.control_version sh)) AtTop)
  | AtSelect, DoneChanged =>
      if Shared.done sh then Some (sh, Session.leave s (Ok ())) else None
  | AtSelect, TimedOut =>
      if timeout_enabled s
      then Some (release_current sh s, Session.set_phase (drop_current s) AtTop)
      else None
  | AtSelect, Received r => Some (on_recv sh s r)
  | Delivering v complete, Proceed => Some (after_block (Shared.send sh v) s complete)
  | Leaving r, Proceed => Some (cleanup sh s r)
  | _, _ => None
  end.
End session.

(** ** Properties *)

Section session_properties.
Context {B A : Type} `{PieceSet B} `{Sha1} `{Countable A}.
Context (geometry : Geometry.t).
Implicit Types (sh : Shared.t B A) (s : Session.t B A).

(** Cleanup does not touch the claims. *)
Lemma cleanup_claimed sh s r :
  PieceTracker.claimed (Shared.tracker (cleanup sh s r).1) = PieceTracker.claimed (Shared.tracker sh).
Proof. done. Qed.

(** C30: How a session gives its piece back. A session that is downloading a piece
    releases the claim when the peer closes the connection, chokes it, stays
    silent past the timeout, or the download is paused or cancelled - but not
    when the connection or the peer's message fails: the error leaves the loop,
    the availability is undone, and the piece stays claimed. *)
Theorem claim_after_exit sh s asm e :
  Session.current s = Some asm →
  let released := PieceTracker.claimed
        (PieceTracker.release_piece (Shared.tracker sh) (PieceAssembler.index asm)) in
  (Session.phase s = AtSelect →
     (∃ sh1 s1 sh2 s2,
        session_step geometry sh s (Received (Ok None)) = Some (sh1, s1) ∧
        session_step geometry sh1 s1 Proceed = Some (sh2, s2) ∧
        Session.phase s2 = Ended (Ok ()) ∧ PieceTracker.claimed (Shared.tracker sh2) = released) ∧
     (∃ sh1 s1, session_step geometry sh s (Received (Ok (Some Choke))) = Some (sh1, s1) ∧
        Session.current s1 = None ∧ PieceTracker.claimed (Shared.tracker sh1) = released) ∧
     (0 < Session.in_flight s →
        ∃ sh1 s1, session_step geometry sh s TimedOut = Some (sh1, s1) ∧
        Session.current s1 = None ∧ PieceTracker.claimed (Shared.tracker sh1) = released) ∧
     (∃ sh1 s1 sh2 s2,
        session_step geometry sh s (Received (Err e)) = Some (sh1, s1) ∧
        session_step geometry sh1 s1 Proceed = Some (sh2, s2) ∧
        Session.phase s2 = Ended (Err e) ∧
        PieceTracker.claimed (Shared.tracker sh2) = PieceTracker.claimed (Shared.tracker sh))) ∧
  (Session.phase s = AtTop → Shared.control sh ≠ Running →
     ∃ sh1 s1, session_step geometry sh s Proceed = Some (sh1, s1) ∧
     (Shared.control sh = Cancelled → Session.phase s1 = Leaving (Ok ())) ∧
     (Shared.control sh = Paused → Session.phase s1 = AtPause ∧ Session.current s1 = None ∧
        Session.in_flight s1 = 0) ∧
     PieceTracker.claimed (Shared.tracker sh1) = released).
Proof.
  intros Hcur released. split.
  - intros Hph. unfold session_step. rewrite Hph. cbn. unfold release_current, drop_current. cbn.
    rewrite Hcur. split; [by do 4 eexists|]. split; [by do 2 eexists|].
    split; [|by do 4 eexists].
    intros Hfl. unfold timeout_enabled. rewrite Hcur, bool_decide_eq_true_2 by done.
    by do 2 eexists.
  - intros Hph Hc. unfold session_step. rewrite Hph. unfold at_top, release_current, drop_current.
    cbn. rewrite Hcur. destruct (Shared.control sh) eqn:Hctl; [done|..];
      do 2 eexists; (split; [done|]); by split_and!.
Qed.

(** C31: A panic in the block handler ends the task at once: an empty block at the
    end of a piece whose length is a multiple of 16384 passes the checks of
    [add_block] and panics, and the task ends without releasing the piece and
    without undoing its availability, whatever the rest of the state. *)
Theorem empty_block_crashes sh s asm (i : Z) :
  Session.phase s = AtSelect → Session.current s = Some asm →
  PieceAssembler.index asm = i → PieceAssembler.wf asm →
  PieceAssembler.length asm `mod` BLOCK_SIZE = 0 →
  SwarmStats.record_block (Shared.stats sh) (Session.addr s) 0 ≠ Panic →
  ∃ sh' s', session_step geometry sh s
      (Received (Ok (Some (Piece (Block.mk i (PieceAssembler.length asm) []))))) = Some (sh', s') ∧
    Session.phase s' = Ended Panic ∧
    Shared.tracker sh' = Shared.tracker sh ∧
    ∀ e, session_step geometry sh' s' e = None.
Proof.
  intros Hph Hcur Hi Hwf Hmod Hst. unfold session_step at 1. rewrite Hph. cbn [on_recv on_message].
  unfold on_piece. cbn [Block.data length].
  destruct (SwarmStats.record_block _ _ _) as [st|e|] eqn:Hrec; [| |done].
  2:{ unfold SwarmStats.record_block in Hrec. destruct (_ !! _); [|done].
      apply bind_Err_inv in Hrec as [Hx|(? & _ & ?)]; [|done].
      unfold add_w in Hx. by destruct (checked_add _ _ _). }
  unfold handle_block. rewrite Hcur. cbn [Block.index Block.begin Block.data].
  rewrite Hi, Z.eqb_refl. cbn [negb].
  destruct Hwf as [Hl Hwf'].
  rewrite PieceAssembler.add_block_fits by (done || (cbn; unfold in_word in Hl; lia)).
  rewrite decide_True by done. cbn [mbind result_bind].
  do 2 eexists. split; [done|]. split; [done|]. split; [done|]. done.
Qed.
End session_properties.
