(* ===== verification/Registries.v ===== *)
(** * The torrent registry of the desktop shell ([gui/src/main.rs])

    The registry, the commands the interface invokes, the download pipelines
    that run in the background, and the persisted list, as a transition system.
    A command or a step of a pipeline that holds the registry's lock, or touches
    nothing shared, is one step; [persist] is part of the step that calls it. A
    restart of the program keeps only the persisted list. *)

From S2P Require Export Clients Sessions.

(** ** State *)

Module RegistryHandle.
(** [coordinator]: the pipeline whose coordinator was published here. *)
Record t : Type := mk { coordinator : option nat; record : TorrentRecord.t }.
End RegistryHandle.

(** Where a pipeline is. *)
Inductive Stage : Type :=
  | Preparing                  (* parsing, announcing, creating files *)
  | Published                  (* the coordinator is in the registry *)
  | Swarming                   (* [coordinator.run]: its tasks listen *)
  | Draining                   (* the swarm is over, the writer is not *)
  | Over (failed : bool).

#[export] Instance Stage_eq_dec : EqDecision Stage.
Proof. solve_decision. Defined.

Module Pipeline.
Record t : Type := mk {
  id : str;
  torrent : str;
  output : str;
  stage : Stage;
  control : ControlState;
}.
Definition set_stage (p : t) (s : Stage) : t := mk (id p) (torrent p) (output p) s (control p).

(** [watch::Sender::send]: the value is kept only while tasks listen. *)
Definition send_control (p : t) (c : ControlState) : t :=
  match stage p with
  | Swarming => mk (id p) (torrent p) (output p) (stage p) c
  | _ => p
  end.
End Pipeline.

Record AppState : Type := mk_app {
  torrents : gmap str RegistryHandle.t;
  pipelines : list Pipeline.t;
  (** [torrents.json], and whether it can be written now. *)
  store : list TorrentRecord.t;
  writable : bool;
  (** The file system the torrents are downloaded to. *)
  data : World;
}.

Definition set_torrents (s : AppState) m : AppState :=
  mk_app m (pipelines s) (store s) (writable s) (data s).
Definition set_pipelines (s : AppState) l : AppState :=
  mk_app (torrents s) l (store s) (writable s) (data s).

(** ** What can happen *)

Inductive Refusal : Type := Unreadable | AlreadyListed | UnknownTorrent | AlreadyRunning.

Inductive PipelineEvent : Type :=
  | Prepared (ok : bool)        (* everything before the coordinator's publication *)
  | RunStarted
  | RunEnded
  | WriterEnded (ok complete : bool).

Inductive Command : Type :=
  | Add (read : result Metainfo.t) (torrent output : str)
  | Start (id : str)
  | Pause (id : str)
  | Resume (id : str)
  | Cancel_ (id : str)
  | Remove (id mode : str)
  | Step (k : nat) (e : PipelineEvent)
  | Restart (readable : bool)
  | StoreBecomes (writable : bool).

(** ** The registry *)

Section registry.
Context `{Sha1} (encode_info : Info.t → option (list byte)).

Definition records (s : AppState) : list TorrentRecord.t :=
  (λ p, RegistryHandle.record p.2) <$> map_to_list (torrents s).

(** Best effort: an unwritable file keeps its contents. *)
Definition persist (s : AppState) : AppState :=
  mk_app (torrents s) (pipelines s) (if writable s then records s else store s) (writable s) (data s).

(** [if let Some(h) = map.get_mut(id)]. *)
Definition update_record (f : TorrentRecord.t → TorrentRecord.t) (h : RegistryHandle.t) : RegistryHandle.t :=
  RegistryHandle.mk (RegistryHandle.coordinator h) (f (RegistryHandle.record h)).

Definition set_status (s : AppState) (id status : str) : AppState :=
  persist (set_torrents s
    (alter (update_record (λ r, TorrentRecord.set_status r status)) id (torrents s))).

Definition spawn_pipeline (s : AppState) (id torrent output : str) : AppState :=
  set_pipelines s (pipelines s ++ [Pipeline.mk id torrent output Preparing Running]).

Definition list_torrents (s : AppState) : list TorrentRecord.t := records s.

(** *** Pause, resume, cancel *)

Definition send_to (s : AppState) (h : option RegistryHandle.t) (c : ControlState) : AppState :=
  match h ≫= RegistryHandle.coordinator with
  | Some k => set_pipelines s (alter (λ p, Pipeline.send_control p c) k (pipelines s))
  | None => s
  end.

Definition pause_download (s : AppState) (id : str) : AppState :=
  set_status (send_to s (torrents s !! id) Paused) id (lit "paused").
Definition resume_download (s : AppState) (id : str) : AppState :=
  set_status (send_to s (torrents s !! id) Running) id (lit "downloading").
Definition cancel_download (s : AppState) (id : str) : AppState :=
  set_status (send_to s (torrents s !! id) Cancelled) id (lit "stopped").

(** *** Removing *)

Definition data_only : str := lit "data_only".
Definition list_and_data : str := lit "list_and_data".

Definition remove_torrent (s : AppState) (id mode : str) : AppState :=
  match torrents s !! id with
  | None => s
  | Some h =>
      let s := send_to s (Some h) Cancelled in
      let record := if bool_decide (mode = data_only)
                    then TorrentRecord.set_status (RegistryHandle.record h) (lit "stopped")
                    else RegistryHandle.record h in
      let s := set_torrents s (<[id := RegistryHandle.mk None record]> (torrents s)) in
      let s := if bool_decide (mode = data_only) then s else set_torrents s (delete id (torrents s)) in
      let s := if bool_decide (mode = list_and_data) || bool_decide (mode = data_only)
               then mk_app (torrents s) (pipelines s) (store s) (writable s)
                      (delete_data record (data s)).2
               else s in
      persist s
  end.

(** *** Adding and starting *)

(** [read] is what [Metainfo::from_file] made of the path. *)
Definition add_torrent (s : AppState) (read : result Metainfo.t) (torrent output : str)
  : (TorrentRecord.t + Refusal) * AppState :=
  match (meta ← read; build_record encode_info meta torrent output (lit "downloading")) with
  | Ok record =>
      let id := TorrentRecord.id record in
      match torrents s !! id with
      | Some _ => (inr AlreadyListed, s)
      | None =>
          let s := persist (set_torrents s (<[id := RegistryHandle.mk None record]> (torrents s))) in
          (inl record, spawn_pipeline s id torrent output)
      end
  | _ => (inr Unreadable, s)
  end.

Definition start_torrent (s : AppState) (id : str) : (() + Refusal) * AppState :=
  match torrents s !! id with
  | None => (inr UnknownTorrent, s)
  | Some h =>
      match RegistryHandle.coordinator h with
      | Some _ => (inr AlreadyRunning, s)
      | None =>
          let r := RegistryHandle.record h in
          (inl (), spawn_pipeline (set_status s id (lit "downloading")) id
                     (TorrentRecord.torrent_path r) (TorrentRecord.output r))
      end
  end.

(** *** Starting up *)

Definition restored (r : TorrentRecord.t) : TorrentRecord.t :=
  if bool_decide (TorrentRecord.status r = lit "complete") then r
  else TorrentRecord.set_status r (lit "stopped").

Definition restore_into (m : gmap str RegistryHandle.t) (r : TorrentRecord.t) : gmap str RegistryHandle.t :=
  <[TorrentRecord.id r := RegistryHandle.mk None (restored r)]> m.

(** [restore] into an empty registry; an unreadable file is an empty list. *)
Definition restore (readable : bool) (l : list TorrentRecord.t) : gmap str RegistryHandle.t :=
  foldl restore_into ∅ (if readable then l else []).

Definition restart (s : AppState) (readable : bool) : AppState :=
  mk_app (restore readable (store s)) [] (store s) (writable s) (data s).

(** ** The pipeline *)

(** [spawn_pipeline]'s handling of an error of [run_pipeline]. *)
Definition pipeline_failed (s : AppState) (k : nat) (p : Pipeline.t) : AppState :=
  set_status (set_pipelines s (<[k := Pipeline.set_stage p (Over true)]> (pipelines s)))
    (Pipeline.id p) (lit "error").

(** [h.coordinator = Some(..)], or give up when the entry is gone. *)
Definition publish (s : AppState) (k : nat) (p : Pipeline.t) : AppState :=
  match torrents s !! Pipeline.id p with
  | Some h =>
      set_pipelines
        (set_torrents s (<[Pipeline.id p := RegistryHandle.mk (Some k) (RegistryHandle.record h)]> (torrents s)))
        (<[k := Pipeline.set_stage p Published]> (pipelines s))
  | None => set_pipelines s (<[k := Pipeline.set_stage p (Over false)]> (pipelines s))
  end.

Definition outcome (p : Pipeline.t) (complete : bool) : str :=
  if complete then lit "complete"
  else if bool_decide (Pipeline.control p = Cancelled) then lit "stopped"
  else lit "stalled".

Definition pipeline_finished (s : AppState) (k : nat) (p : Pipeline.t) (complete : bool) : AppState :=
  persist (set_torrents
    (set_pipelines s (<[k := Pipeline.set_stage p (Over false)]> (pipelines s)))
    (alter (λ h, RegistryHandle.mk None (TorrentRecord.set_status (RegistryHandle.record h) (outcome p complete)))
       (Pipeline.id p) (torrents s))).

Definition pipeline_step (s : AppState) (k : nat) (e : PipelineEvent) : option AppState :=
  p ← pipelines s !! k;
  match Pipeline.stage p, e with
  | Preparing, Prepared true => Some (publish s k p)
  | Preparing, Prepared false => Some (pipeline_failed s k p)
  | Published, RunStarted => Some (set_pipelines s (<[k := Pipeline.set_stage p Swarming]> (pipelines s)))
  | Swarming, RunEnded => Some (set_pipelines s (<[k := Pipeline.set_stage p Draining]> (pipelines s)))
  | Draining, WriterEnded true complete => Some (pipeline_finished s k p complete)
  | Draining, WriterEnded false _ => Some (pipeline_failed s k p)
  | _, _ => None
  end.

(** ** Everything that can happen *)

Definition app_step (s : AppState) (c : Command) : option AppState :=
  match c with
  | Add read torrent output => Some (add_torrent s read torrent output).2
  | Start id => Some (start_torrent s id).2
  | Pause id => Some (pause_download s id)
  | Resume id => Some (resume_download s id)
  | Cancel_ id => Some (cancel_download s id)
  | Remove id mode => Some (remove_torrent s id mode)
  | Step k e => pipeline_step s k e
  | Restart readable => Some (restart s readable)
  | StoreBecomes w => Some (mk_app (torrents s) (pipelines s) (store s) w (data s))
  end.

(** The states of a program that started with [l] in [torrents.json]. *)
Definition started (l : list TorrentRecord.t) (d : World) : AppState :=
  mk_app (restore true l) [] l true d.

(** ** The invariant of the registry *)

(** The statuses the code writes, and those a restart leaves. *)
Definition statuses : list str :=
  [lit "downloading"; lit "paused"; lit "complete"; lit "stopped"; lit "error"; lit "stalled"].

(** A literal status is one of them. *)
Ltac known_status := refine (bool_decide_unpack _ _); vm_compute; exact I.

Definition published (g : Stage) : bool :=
  match g with Preparing | Over false => false | _ => true end.

Definition handle_ok (ps : list Pipeline.t) (id : str) (h : RegistryHandle.t) : Prop :=
  TorrentRecord.id (RegistryHandle.record h) = id ∧
  TorrentRecord.status (RegistryHandle.record h) ∈ statuses ∧
  ∀ k, RegistryHandle.coordinator h = Some k →
    ∃ p, ps !! k = Some p ∧ Pipeline.id p = id ∧ published (Pipeline.stage p) = true.

Definition registry_ok (s : AppState) : Prop := map_Forall (handle_ok (pipelines s)) (torrents s).

Lemma build_record_id meta torrent output status r :
  build_record encode_info meta torrent output status = Ok r → TorrentRecord.status r = status.
Proof.
  unfold build_record. intros (? & _ & Hr)%bind_Ok_inv.
  apply bind_Ok_inv in Hr as (? & _ & Hr). by apply bind_Ok_inv in Hr as (? & _ & [= <-]).
Qed.

(** What a step may do to the pipelines without hurting a handle. *)
Definition keeps (ps ps' : list Pipeline.t) : Prop :=
  ∀ k p, ps !! k = Some p → published (Pipeline.stage p) = true →
    ∃ p', ps' !! k = Some p' ∧ Pipeline.id p' = Pipeline.id p ∧ published (Pipeline.stage p') = true.

Lemma handle_ok_keeps ps ps' id h : keeps ps ps' → handle_ok ps id h → handle_ok ps' id h.
Proof.
  intros Hk (Hi & Hs & Hc). split_and!; [done|done|]. intros k Hh.
  destruct (Hc k Hh) as (p & Hp & Hid & Hpub). destruct (Hk k p Hp Hpub) as (p' & ? & ? & ?).
  exists p'. by split_and!; [|congruence|].
Qed.

Lemma keeps_refl ps : keeps ps ps.
Proof. intros k p ??. by exists p. Qed.

Lemma keeps_app ps ps' : keeps ps (ps ++ ps').
Proof. intros k p Hp ?. exists p. split; [by apply lookup_app_l_Some|done]. Qed.

Lemma keeps_insert ps k p p' :
  ps !! k = Some p → Pipeline.id p' = Pipeline.id p →
  (published (Pipeline.stage p) = true → published (Pipeline.stage p') = true) →
  keeps ps (<[k := p']> ps).
Proof.
  intros Hp Hid Hpub j q Hq Hq'. destruct (decide (j = k)) as [->|Hne].
  - exists p'. rewrite list_lookup_insert_eq by (by eapply lookup_lt_Some).
    assert (q = p) as -> by congruence. auto.
  - exists q. by rewrite list_lookup_insert_ne by done.
Qed.

Lemma keeps_send ps k c : keeps ps (alter (λ p, Pipeline.send_control p c) k ps).
Proof.
  intros j p Hp Hpub. destruct (decide (j = k)) as [->|Hne].
  - exists (Pipeline.send_control p c). rewrite list_lookup_alter_eq, Hp.
    split; [done|]. unfold Pipeline.send_control. by destruct (Pipeline.stage p) eqn:Hs; cbn; rewrite ?Hs.
  - exists p. by rewrite list_lookup_alter_ne by done.
Qed.

(** ** Every step keeps it *)

Lemma registry_ok_keeps s ps : keeps (pipelines s) ps → registry_ok s → registry_ok (set_pipelines s ps).
Proof. intros Hk Hs id h Hh. eapply handle_ok_keeps; [exact Hk|by apply Hs]. Qed.

Lemma registry_ok_alter s f id :
  (∀ h, handle_ok (pipelines s) id h → handle_ok (pipelines s) id (f h)) →
  registry_ok s → registry_ok (set_torrents s (alter f id (torrents s))).
Proof.
  intros Hf Hs j h. cbn. rewrite lookup_alter. case_decide as Hj; [subst j|by apply Hs].
  destruct (torrents s !! id) as [h0|] eqn:Hh; [|done]. intros [= <-]. by apply Hf, Hs.
Qed.

Lemma registry_ok_insert s id h :
  handle_ok (pipelines s) id h → registry_ok s → registry_ok (set_torrents s (<[id := h]> (torrents s))).
Proof. intros Hh Hs. by apply map_Forall_insert_2. Qed.

Lemma handle_ok_status ps id h status :
  status ∈ statuses → handle_ok ps id h →
  handle_ok ps id (update_record (λ r, TorrentRecord.set_status r status) h).
Proof. intros Hst (? & _ & ?). by split_and!. Qed.

Lemma set_status_ok s id status : status ∈ statuses → registry_ok s → registry_ok (set_status s id status).
Proof. intros Hst Hs. apply (registry_ok_alter s); [|done]. intros h. by apply handle_ok_status. Qed.

Lemma send_to_ok s h c : registry_ok s → registry_ok (send_to s h c).
Proof.
  intros Hs. unfold send_to. destruct (h ≫= _) as [k|]; [|done].
  apply registry_ok_keeps; [apply keeps_send|done].
Qed.

Lemma send_to_torrents s h c : torrents (send_to s h c) = torrents s.
Proof. unfold send_to. by destruct (h ≫= _). Qed.

Lemma spawn_ok s id torrent output : registry_ok s → registry_ok (spawn_pipeline s id torrent output).
Proof. apply registry_ok_keeps, keeps_app. Qed.

(** The registry after a removal, and who was told. *)
Lemma remove_torrent_torrents s id mode h :
  torrents s !! id = Some h →
  torrents (remove_torrent s id mode) =
    (if bool_decide (mode = data_only)
     then <[id := RegistryHandle.mk None (TorrentRecord.set_status (RegistryHandle.record h) (lit "stopped"))]>
            (torrents s)
     else delete id (torrents s)) ∧
  pipelines (remove_torrent s id mode) = pipelines (send_to s (Some h) Cancelled) ∧
  writable (remove_torrent s id mode) = writable s.
Proof.
  intros Hh. unfold remove_torrent. rewrite Hh. unfold send_to.
  destruct (bool_decide (mode = data_only)), (bool_decide (mode = list_and_data)), (Some h ≫= _);
    cbn; by rewrite ?delete_insert_eq.
Qed.

Lemma remove_ok s id mode : registry_ok s → registry_ok (remove_torrent s id mode).
Proof.
  intros Hs. destruct (torrents s !! id) as [h|] eqn:Hh; [|unfold remove_torrent; by rewrite Hh].
  destruct (remove_torrent_torrents s id mode h Hh) as (Ht & Hp & _).
  pose proof (send_to_ok s (Some h) Cancelled Hs) as Hs1.
  unfold registry_ok in *. rewrite Ht, Hp. rewrite send_to_torrents in Hs1.
  destruct (Hs1 _ _ Hh) as (Hid & _). case_bool_decide.
  - apply map_Forall_insert_2; [|done]. split_and!; [done|known_status|done].
  - by apply map_Forall_delete.
Qed.

Lemma add_ok s read torrent output : registry_ok s → registry_ok (add_torrent s read torrent output).2.
Proof.
  intros Hs. unfold add_torrent. destruct (_ ← read; _) as [r|e|] eqn:Hr; [|done..].
  destruct (torrents s !! _); [done|]. cbn [snd]. apply spawn_ok, (registry_ok_insert s); [|done].
  apply bind_Ok_inv in Hr as (meta & _ & Hr). apply build_record_id in Hr.
  split_and!; [done|cbn; rewrite Hr; by left|done].
Qed.

Lemma start_ok s id : registry_ok s → registry_ok (start_torrent s id).2.
Proof.
  intros Hs. unfold start_torrent. destruct (torrents s !! id) as [h|]; [|done].
  destruct (RegistryHandle.coordinator h); [done|]. apply spawn_ok, set_status_ok; [|done]. by left.
Qed.

Lemma restored_status r : TorrentRecord.status (restored r) ∈ statuses.
Proof. unfold restored. case_bool_decide as Hc; [rewrite Hc|]; known_status. Qed.

Lemma restored_id r : TorrentRecord.id (restored r) = TorrentRecord.id r.
Proof. unfold restored. by case_bool_decide. Qed.

Lemma restore_into_ok ps (l : list TorrentRecord.t) m :
  map_Forall (handle_ok ps) m → map_Forall (handle_ok ps) (foldl restore_into m l).
Proof.
  revert m. induction l as [|r l IH]; intros m Hm; [done|]. apply IH, map_Forall_insert_2; [|done].
  split_and!; [apply restored_id|apply restored_status|done].
Qed.

Lemma restart_ok s readable : registry_ok (restart s readable).
Proof. apply restore_into_ok. by destruct readable. Qed.

Lemma failed_ok s k p :
  pipelines s !! k = Some p → Pipeline.stage p = Preparing ∨ Pipeline.stage p = Draining →
  registry_ok s → registry_ok (pipeline_failed s k p).
Proof.
  intros Hp Hst Hs. apply set_status_ok; [known_status|]. apply registry_ok_keeps; [|done].
  by eapply keeps_insert.
Qed.

Lemma publish_ok s k p :
  pipelines s !! k = Some p → Pipeline.stage p = Preparing → registry_ok s → registry_ok (publish s k p).
Proof.
  intros Hp Hst Hs. unfold publish. destruct (torrents s !! Pipeline.id p) as [h|] eqn:Hh.
  - assert (registry_ok (set_pipelines s (<[k:=Pipeline.set_stage p Published]> (pipelines s)))) as Hs'.
    { apply registry_ok_keeps; [|done]. by eapply keeps_insert. }
    apply (registry_ok_insert (set_pipelines s _)); [|done]. pose proof (Hs _ _ Hh) as (? & ? & _).
    split_and!; [done..|]. intros k' [= <-]. exists (Pipeline.set_stage p Published). split; [|done].
    apply list_lookup_insert_eq. by eapply lookup_lt_Some.
  - apply registry_ok_keeps; [|done]. eapply keeps_insert; [done|done|]. by rewrite Hst.
Qed.

Lemma outcome_status p complete : outcome p complete ∈ statuses.
Proof. unfold outcome. destruct complete; [|case_bool_decide]; known_status. Qed.

(** The handle of the pipeline that ends drops its coordinator; the others are
    of other torrents, so of other pipelines. *)
Lemma finished_ok s k p complete :
  pipelines s !! k = Some p → registry_ok s → registry_ok (pipeline_finished s k p complete).
Proof.
  intros Hp Hs j h. cbn. rewrite lookup_alter. case_decide as Hj.
  - subst j. destruct (torrents s !! Pipeline.id p) as [h0|] eqn:Hh; [|done]. intros [= <-].
    pose proof (Hs _ _ Hh) as (? & _ & _). split_and!; [done|apply outcome_status|done].
  - intros Hh. destruct (Hs _ _ Hh) as (? & ? & Hc). split_and!; [done..|].
    intros k' Hk'. destruct (Hc k' Hk') as (q & Hq & Hid & Hpub).
    assert (k' ≠ k) by congruence. exists q. by rewrite list_lookup_insert_ne by done.
Qed.

Lemma pipeline_step_ok s k e s' : pipeline_step s k e = Some s' → registry_ok s → registry_ok s'.
Proof.
  unfold pipeline_step. intros (p & Hp & Hs)%bind_Some Hok.
  destruct (Pipeline.stage p) eqn:Hst, e as [[]| | |[]]; try done; injection Hs as [= <-];
    first [by apply publish_ok | by apply failed_ok; auto | by apply finished_ok
          | apply registry_ok_keeps; [by eapply keeps_insert|done]].
Qed.

Lemma app_step_ok s c s' : app_step s c = Some s' → registry_ok s → registry_ok s'.
Proof.
  destruct c; cbn [app_step]; [intros [= <-]; intros Hs..|apply pipeline_step_ok|intros [= <-] Hs|intros [= <-] Hs].
  - by apply add_ok.
  - by apply start_ok.
  - apply set_status_ok; [known_status|by apply send_to_ok].
  - apply set_status_ok; [known_status|by apply send_to_ok].
  - apply set_status_ok; [known_status|by apply send_to_ok].
  - by apply remove_ok.
  - apply restart_ok.
  - exact Hs.
Qed.

(** ** What the persisted list is worth *)

(** An entry as a restart would bring it back. *)
Definition normal (h : RegistryHandle.t) : RegistryHandle.t :=
  RegistryHandle.mk None (restored (RegistryHandle.record h)).

(** A restart from the list would bring back the registry. *)
Definition durable (s : AppState) : Prop :=
  writable s = true ∧ restore true (store s) = normal <$> torrents s.

(** No step that loses or blocks the file. *)
Definition keeps_store (c : Command) : Prop :=
  match c with Restart false | StoreBecomes false => False | _ => True end.

Lemma restored_idem r : restored (restored r) = restored r.
Proof.
  unfold restored at 2 3. destruct (bool_decide (_ = _)) eqn:Hc; [unfold restored; by rewrite Hc|].
  unfold restored. by case_bool_decide.
Qed.

Lemma restore_entries (l : list (str * RegistryHandle.t)) m :
  NoDup l.*1 → Forall (λ p, TorrentRecord.id (RegistryHandle.record p.2) = p.1) l →
  foldl restore_into m ((λ p, RegistryHandle.record p.2) <$> l) = (normal <$> list_to_map l) ∪ m.
Proof.
  revert m. induction l as [|[id h] l IH]; intros m Hnd Hid.
  - cbn. by rewrite fmap_empty, map_empty_union.
  - cbn in Hnd. apply NoDup_cons in Hnd as [Hnew Hnd]. apply Forall_cons in Hid as [Hh Hid].
    cbn [fmap list_fmap foldl snd list_to_map foldr fst uncurry] in *. rewrite IH by done.
    unfold restore_into. rewrite Hh, fmap_insert. fold (normal h).
    rewrite <-insert_union_r; [by rewrite insert_union_l|].
    rewrite lookup_fmap. by rewrite (proj1 (not_elem_of_list_to_map l id)).
Qed.

Lemma restore_records s :
  map_Forall (λ id h, TorrentRecord.id (RegistryHandle.record h) = id) (torrents s) →
  restore true (records s) = normal <$> torrents s.
Proof.
  intros Hid. unfold restore, records.
  rewrite restore_entries, list_to_map_to_list, map_union_empty; [done|..].
  - apply NoDup_fst_map_to_list.
  - apply Forall_forall. intros [id h] Hh%elem_of_map_to_list. by apply Hid.
Qed.

(** The file follows the registry wherever [persist] was called. *)
Lemma persist_durable s : writable s = true → registry_ok s → durable (persist s).
Proof.
  intros Hw Hs. split; [done|]. cbn. rewrite Hw. apply restore_records.
  intros id h Hh. by destruct (Hs id h Hh) as (? & _).
Qed.

Lemma set_status_durable s id status :
  writable s = true → status ∈ statuses → registry_ok s → durable (set_status s id status).
Proof.
  intros Hw Hst Hs. apply persist_durable; [done|]. apply registry_ok_alter; [|done].
  intros h. by apply handle_ok_status.
Qed.

Lemma send_to_writable s h c : writable (send_to s h c) = writable s.
Proof. unfold send_to. by destruct (h ≫= _). Qed.

Lemma send_status_durable s id c status :
  durable s → registry_ok s → status ∈ statuses →
  durable (set_status (send_to s (torrents s !! id) c) id status).
Proof.
  intros [Hw _] Hs Hst. apply set_status_durable; [by rewrite send_to_writable|done|].
  by apply send_to_ok.
Qed.

Lemma add_durable s read torrent output :
  durable s → registry_ok s → durable (add_torrent s read torrent output).2.
Proof.
  intros [Hw Hd] Hs. unfold add_torrent.
  destruct (_ ← read; _) as [r|e|] eqn:Hr; [|done..]. destruct (torrents s !! _); [done|].
  unfold spawn_pipeline. cbn [snd]. apply (persist_durable (set_torrents s _)); [done|].
  apply registry_ok_insert; [|done].
  apply bind_Ok_inv in Hr as (meta & _ & Hr). apply build_record_id in Hr.
  split_and!; [done|cbn; rewrite Hr; known_status|done].
Qed.

Lemma start_durable s id : durable s → registry_ok s → durable (start_torrent s id).2.
Proof.
  intros Hd Hs. unfold start_torrent. destruct (torrents s !! id) as [h|]; [|done].
  destruct (RegistryHandle.coordinator h); [done|]. cbn [snd].
  apply (set_status_durable s id (lit "downloading") (proj1 Hd)); [known_status|done].
Qed.

(** A removal ends with [persist], whose list is the registry's. *)
Lemma remove_persists s id mode h :
  torrents s !! id = Some h →
  store (remove_torrent s id mode) =
    if writable s then records (remove_torrent s id mode) else store s.
Proof.
  intros Hh. unfold remove_torrent. rewrite Hh. unfold send_to.
  destruct (bool_decide (mode = data_only)), (bool_decide (mode = list_and_data)), (Some h ≫= _); done.
Qed.

Lemma remove_durable s id mode : durable s → registry_ok s → durable (remove_torrent s id mode).
Proof.
  intros Hd Hs. destruct (torrents s !! id) as [h|] eqn:Hh; [|unfold remove_torrent; by rewrite Hh].
  destruct (remove_torrent_torrents s id mode h Hh) as (_ & _ & Hw).
  split; [rewrite Hw; apply Hd|]. rewrite (remove_persists s id mode h Hh), (proj1 Hd).
  apply restore_records. intros j h' Hj. by destruct (remove_ok s id mode Hs j h' Hj) as (? & _).
Qed.

Lemma publish_durable s k p : durable s → durable (publish s k p).
Proof.
  intros [Hw Hd]. unfold publish. destruct (torrents s !! Pipeline.id p) as [h|] eqn:Hh; [|done].
  split; [done|]. etrans; [exact Hd|]. cbn. rewrite fmap_insert. symmetry. apply insert_id.
  by rewrite lookup_fmap, Hh.
Qed.

Lemma pipeline_step_durable s k e s' :
  pipeline_step s k e = Some s' → registry_ok s → durable s → durable s'.
Proof.
  intros Hstep Hs Hd. pose proof (pipeline_step_ok s k e s' Hstep Hs) as Hs'.
  unfold pipeline_step in Hstep. apply bind_Some in Hstep as (p & Hp & Hstep).
  destruct (Pipeline.stage p) eqn:Hst, e as [[]| | |[]]; try done; injection Hstep as [= <-];
    try exact Hd; try by apply publish_durable.
  all: apply persist_durable; [apply Hd|exact Hs'].
Qed.

Lemma app_step_durable s c s' :
  keeps_store c → app_step s c = Some s' → registry_ok s → durable s → durable s'.
Proof.
  destruct c; intros Hc Hstep Hs Hd; cbn [app_step] in Hstep;
    [injection Hstep as [= <-]..|by eapply pipeline_step_durable| |]; try injection Hstep as [= <-].
  - by apply add_durable.
  - by apply start_durable.
  - apply send_status_durable; [done|done|known_status].
  - apply send_status_durable; [done|done|known_status].
  - apply send_status_durable; [done|done|known_status].
  - by apply remove_durable.
  - destruct readable; [|done]. destruct Hd as [Hw Hd]. split; [done|].
    change (restore true (store s) = normal <$> restore true (store s)). rewrite Hd.
    rewrite <-map_fmap_compose. apply map_fmap_ext. intros id h _. unfold normal. cbn.
    by rewrite restored_idem.
  - destruct writable0; [|done]. destruct Hd as [_ Hd]. by split.
Qed.

Lemma insert_last {A} (l : list A) x y : <[length l := y]> (l ++ [x]) = l ++ [y].
Proof. by rewrite insert_app_r_alt, Nat.sub_diag. Qed.

(** ** Reachable states *)

Definition app_reachable (P : Command → Prop) : relation AppState :=
  rtc (λ s s', ∃ c, P c ∧ app_step s c = Some s').

Fixpoint run_commands (s : AppState) (cs : list Command) : option AppState :=
  match cs with
  | [] => Some s
  | c :: cs' => s' ← app_step s c; run_commands s' cs'
  end.

Lemma run_commands_reachable (P : Command → Prop) s cs s' :
  Forall P cs → run_commands s cs = Some s' → app_reachable P s s'.
Proof.
  intros Hcs. revert s. induction Hcs as [|c cs Hc _ IH]; intros s; cbn [run_commands].
  - intros [= <-]. constructor.
  - intros (s1 & Hs & Hr)%bind_Some. eapply rtc_l; [by exists c|by apply IH].
Qed.

Lemma started_ok l d : registry_ok (started l d).
Proof. by apply restore_into_ok. Qed.

Lemma foldl_restored (l : list TorrentRecord.t) m :
  normal <$> m = m → normal <$> foldl restore_into m l = foldl restore_into m l.
Proof.
  revert m. induction l as [|r l IH]; intros m Hm; [done|]. apply IH. unfold restore_into.
  rewrite fmap_insert, Hm. unfold normal. cbn. by rewrite restored_idem.
Qed.

Lemma started_durable l d : durable (started l d).
Proof. split; [done|]. symmetry. apply foldl_restored, fmap_empty. Qed.

Lemma reachable_ok P s s' : app_reachable P s s' → registry_ok s → registry_ok s'.
Proof. induction 1 as [|s1 s2 s3 (c & _ & Hc) _ IH]; [done|]. intros Hs. by eapply IH, app_step_ok. Qed.

Lemma reachable_durable s s' :
  app_reachable keeps_store s s' → registry_ok s → durable s → durable s'.
Proof.
  induction 1 as [|s1 s2 s3 (c & Hk & Hc) _ IH]; [done|]. intros Hs Hd.
  apply IH; [by eapply app_step_ok|by eapply app_step_durable].
Qed.

(** A pipeline that prepared its download publishes it and runs. *)
Lemma publish_run s k p h :
  pipelines s !! k = Some p → Pipeline.stage p = Preparing → torrents s !! Pipeline.id p = Some h →
  ∃ s2 s3, pipeline_step s k (Prepared true) = Some s2 ∧ pipeline_step s2 k RunStarted = Some s3 ∧
    pipelines s3 = <[k := Pipeline.set_stage p Swarming]> (pipelines s) ∧
    torrents s3 = <[Pipeline.id p := RegistryHandle.mk (Some k) (RegistryHandle.record h)]> (torrents s).
Proof.
  intros Hp Hst Hh. unfold pipeline_step at 1. rewrite Hp. cbn [mbind option_bind]. rewrite Hst.
  unfold publish. rewrite Hh. eexists _, _. split; [done|]. unfold pipeline_step.
  cbn [pipelines set_pipelines set_torrents].
  rewrite list_lookup_insert_eq by (by eapply lookup_lt_Some). cbn [mbind option_bind Pipeline.stage Pipeline.set_stage].
  split; [done|]. cbn. by rewrite list_insert_insert_eq.
Qed.

(** ** Properties *)

(** C33: The registry stays consistent. After any commands, pipeline steps and
    restarts, every entry is filed under its own info-hash, has one of the six
    statuses the code writes, and a published coordinator belongs to a pipeline
    of that torrent which has got past publication and has not ended in order. *)
Theorem registry_consistent l d s id h :
  app_reachable (λ _, True) (started l d) s → torrents s !! id = Some h →
  TorrentRecord.id (RegistryHandle.record h) = id ∧
  TorrentRecord.status (RegistryHandle.record h) ∈ statuses ∧
  ∀ k, RegistryHandle.coordinator h = Some k →
    ∃ p, pipelines s !! k = Some p ∧ Pipeline.id p = id ∧
      Pipeline.stage p ≠ Preparing ∧ Pipeline.stage p ≠ Over false.
Proof.
  intros Hr Hh. destruct (reachable_ok _ _ _ Hr (started_ok l d) id h Hh) as (? & ? & Hc).
  split_and!; [done..|]. intros k Hk. destruct (Hc k Hk) as (p & ? & ? & Hpub).
  exists p. split_and!; [done..| |]; intros Hst; by rewrite Hst in Hpub.
Qed.


(** C35: Until a pipeline has published its coordinator, nobody knows of it. A
    stopped torrent can be started twice in a row, which leaves two pipelines
    preparing the same files; and a cancellation in that time is recorded in
    the status but reaches no pipeline: the pipeline publishes, runs its swarm
    with its control state untouched, and the entry still says stopped. *)
Theorem publication_race s id h :
  torrents s !! id = Some h → RegistryHandle.coordinator h = None →
  let p := Pipeline.mk id (TorrentRecord.torrent_path (RegistryHandle.record h))
             (TorrentRecord.output (RegistryHandle.record h)) Preparing Running in
  let s1 := (start_torrent s id).2 in
  let k := length (pipelines s) in
  (start_torrent s id).1 = inl () ∧ (start_torrent s1 id).1 = inl () ∧
  pipelines (start_torrent s1 id).2 = pipelines s ++ [p; p] ∧
  ∃ s2 s3, pipeline_step (cancel_download s1 id) k (Prepared true) = Some s2 ∧
    pipeline_step s2 k RunStarted = Some s3 ∧
    pipelines s3 = pipelines s ++ [Pipeline.set_stage p Swarming] ∧
    torrents s3 !! id = Some (RegistryHandle.mk (Some k)
      (TorrentRecord.set_status (RegistryHandle.record h) (lit "stopped"))).
Proof.
  intros Hh Hc p s1 k.
  assert (start_torrent s id = (inl (), spawn_pipeline (set_status s id (lit "downloading")) id
     (TorrentRecord.torrent_path (RegistryHandle.record h)) (TorrentRecord.output (RegistryHandle.record h)))) as Hst.
  { unfold start_torrent. by rewrite Hh, Hc. }
  assert (torrents s1 !! id = Some (RegistryHandle.mk None
    (TorrentRecord.set_status (RegistryHandle.record h) (lit "downloading")))) as Hh1.
  { subst s1. rewrite Hst. cbn. rewrite lookup_alter_eq, Hh. cbn. unfold update_record. by rewrite Hc. }
  assert (pipelines s1 = pipelines s ++ [p]) as Hp1 by (subst s1; by rewrite Hst).
  split; [by rewrite Hst|]. unfold start_torrent at 1 2. rewrite Hh1. cbn [RegistryHandle.coordinator].
  split; [done|]. split; [cbn; by rewrite Hp1, <-app_assoc|].
  set (c := cancel_download s1 id).
  assert (pipelines c = pipelines s ++ [p]) as Hp2.
  { subst c. unfold cancel_download, send_to. by rewrite Hh1. }
  assert (torrents c !! id = Some (RegistryHandle.mk None
    (TorrentRecord.set_status (RegistryHandle.record h) (lit "stopped")))) as Hh2.
  { subst c. unfold cancel_download. cbn. by rewrite lookup_alter_eq, send_to_torrents, Hh1. }
  destruct (publish_run c k p _ ltac:(rewrite Hp2; by apply list_lookup_middle) eq_refl Hh2)
    as (s2 & s3 & Hs2 & Hs3 & Hp3 & Ht3).
  exists s2, s3. split_and!; [done..| |].
  - by rewrite Hp3, Hp2, (insert_last (pipelines s)).
  - rewrite Ht3. apply lookup_insert_eq.
Qed.


(** What removing a torrent does. An unknown torrent is left alone. Otherwise
    its entry goes, unless only the data was to be deleted, in which case it
    stays, stopped and without a coordinator; every other entry is as before.
    The file system changes in the two modes that delete data, by exactly what
    [delete_data] does for that record. A running swarm that had been published
    is cancelled, and no other pipeline is touched. *)
Theorem remove_torrent_modes s id mode :
  let s' := remove_torrent s id mode in
  match torrents s !! id with
  | None => s' = s
  | Some h =>
      (∀ j, j ≠ id → torrents s' !! j = torrents s !! j) ∧
      torrents s' !! id =
        (if bool_decide (mode = data_only)
         then Some (RegistryHandle.mk None
                      (TorrentRecord.set_status (RegistryHandle.record h) (lit "stopped")))
         else None) ∧
      data s' =
        (if bool_decide (mode = list_and_data) || bool_decide (mode = data_only)
         then (delete_data (RegistryHandle.record h) (data s)).2 else data s) ∧
      ∀ k p, pipelines s !! k = Some p →
        pipelines s' !! k = Some
          (if bool_decide (RegistryHandle.coordinator h = Some k)
           then Pipeline.send_control p Cancelled else p)
  end.
Proof.
  cbv zeta. destruct (torrents s !! id) as [h|] eqn:Hh; [|unfold remove_torrent; by rewrite Hh].
  destruct (remove_torrent_torrents s id mode h Hh) as (Ht & Hp & _). rewrite Ht, Hp. split_and!.
  - intros j Hj. case_bool_decide; [by rewrite lookup_insert_ne|by rewrite lookup_delete_ne].
  - case_bool_decide; [apply lookup_insert_eq|apply lookup_delete_eq].
  - unfold remove_torrent. rewrite Hh. unfold send_to.
    destruct (bool_decide (mode = data_only)), (bool_decide (mode = list_and_data)), (Some h ≫= _); done.
  - intros k p Hk. unfold send_to. cbn.
    destruct (RegistryHandle.coordinator h) as [k'|]; [|by rewrite bool_decide_eq_false_2 by done].
    clear Ht. cbn. case_bool_decide as Heq.
    + assert (k' = k) as -> by congruence. by rewrite list_lookup_alter_eq, Hk.
    + by rewrite list_lookup_alter_ne by congruence.
Qed.
End registry.

(** ** A concrete registry *)

Section demo.
#[local] Existing Instance padding_digest.

Definition no_encoder (_ : Info.t) : option (list byte) := None.

Definition demo_record : TorrentRecord.t :=
  TorrentRecord.mk (lit "ab12") (lit "demo") (lit "demo.torrent") (lit "out") 8
    [lit "out/demo"] None (lit "paused").

Definition demo_started : AppState := started [demo_record] (mk_world blank_disk []).

(** Started, published, running; the writer ends while nobody cancelled it. *)
Definition demo_commands : list Command :=
  [Start (lit "ab12"); Step 0 (Prepared true); Step 0 RunStarted; Pause (lit "ab12");
   Resume (lit "ab12"); Step 0 RunEnded].

Definition demo_state : AppState := default demo_started (run_commands no_encoder demo_started demo_commands).

Lemma demo_reachable (P : Command → Prop) :
  Forall P demo_commands → app_reachable no_encoder P demo_started demo_state.
Proof.
  intros HP. apply (run_commands_reachable no_encoder P _ demo_commands); [exact HP|].
  vm_compute. reflexivity.
Qed.

Definition demo_handle : RegistryHandle.t :=
  RegistryHandle.mk (Some 0%nat) (TorrentRecord.set_status demo_record (lit "downloading")).

Lemma demo_entry : torrents demo_state !! lit "ab12" = Some demo_handle.
Proof. vm_compute. reflexivity. Qed.

Lemma registry_consistent_witness :
  TorrentRecord.id demo_record = lit "ab12" ∧
  ∃ p, pipelines demo_state !! 0%nat = Some p ∧ Pipeline.id p = lit "ab12".
Proof.
  destruct (registry_consistent no_encoder [demo_record] (mk_world blank_disk []) demo_state
    (lit "ab12") demo_handle (demo_reachable (λ _, True) ltac:(unfold demo_commands; repeat (apply Forall_cons_2; [exact I|]); apply Forall_nil_2)) demo_entry) as (Hid & _ & Hc).
  split; [exact Hid|]. destruct (Hc 0%nat eq_refl) as (p & ? & ? & _). by exists p.
Defined.


Lemma publication_race_witness :
  (start_torrent (start_torrent demo_started (lit "ab12")).2 (lit "ab12")).1 = inl ().
Proof.
  assert (torrents demo_started !! lit "ab12" =
    Some (RegistryHandle.mk None (TorrentRecord.set_status demo_record (lit "stopped")))) as Hh
    by (vm_compute; reflexivity).
  exact (proj1 (proj2 (publication_race demo_started (lit "ab12") _ Hh eq_refl))).
Defined.

End demo.
