(* ===== verification/Coordinators.v ===== *)
(** * The coordinator and its peer tasks ([src/download/mod.rs])

    [Coordinator::run] as a transition system: the shared state and one session
    per peer address, stepped in any order, with the operator's control calls
    and the loss of the disk writer in between. The invariant [inv] is proved
    for every reachable state; from it: availability counts are exact, only
    verified pieces are delivered and each at most once, requests are in bounds
    and pipelined at most five deep, and completion means that every piece was
    delivered. *)

From S2P Require Export Sessions.

(** ** The coordinator *)

Module StatsSnapshot.
Record t : Type := mk {
  name : str;
  total_pieces : Z;
  pieces_done : Z;
  total_bytes : Z;
  bytes_done : Z;
  wire_bytes : Z;
  connected_peers : nat;
  complete : bool;
  paused : bool;
  peers : list PeerStat.t;
}.
End StatsSnapshot.

Module Coordinator.
Section coordinator.
Context {B A : Type} `{PieceSet B} `{Sha1} `{Countable A}.
Context (addr_to_string : A → str).

Record t : Type := mk {
  name : str;
  geometry : Geometry.t;
  shared : Shared.t B A;
}.

(** [new]; the ids and the timeout of the connections are not used by the
    download logic. *)
Definition new (info : Info.t) : result t :=
  geometry ← Geometry.from_info info;
  tracker ← PieceTracker.from_info info;
  Ok {| name := Info.name info; geometry := geometry;
        shared := Shared.mk tracker SwarmStats.new Running 0 false [] true |}.

(** One iteration of the snapshot loop: (pieces_done, bytes_done). *)
Definition count_piece (c : t) (acc : Z * Z) (i : nat) : result (Z * Z) :=
  let '(pieces_done, bytes_done) := acc in
  if ps_has (PieceTracker.have_bitfield (Shared.tracker (shared c))) i then
    p ← add_w 32 pieces_done 1;
    len ← Geometry.piece_length (geometry c) (Z.of_nat i);
    b ← add_w 64 bytes_done len;
    Ok (p, b)
  else Ok acc.

Definition snapshot (c : t) : result StatsSnapshot.t :=
  let tracker := Shared.tracker (shared c) in
  let total_pieces := wrap 32 (Z.of_nat (PieceTracker.num_pieces tracker)) in
  '(pieces_done, bytes_done) ←
    fold_result (count_piece c) (0, 0) (seq 0 (Z.to_nat total_pieces));
  Ok {| StatsSnapshot.name := name c;
        StatsSnapshot.total_pieces := total_pieces;
        StatsSnapshot.pieces_done := pieces_done;
        StatsSnapshot.total_bytes := Geometry.total_length (geometry c);
        StatsSnapshot.bytes_done := bytes_done;
        StatsSnapshot.wire_bytes := SwarmStats.total_downloaded (Shared.stats (shared c));
        StatsSnapshot.connected_peers := SwarmStats.connected_count (Shared.stats (shared c));
        StatsSnapshot.complete := PieceTracker.is_complete tracker;
        StatsSnapshot.paused := bool_decide (Shared.control (shared c) = Paused);
        StatsSnapshot.peers := SwarmStats.peer_snapshots addr_to_string (Shared.stats (shared c)) |}.
End coordinator.
End Coordinator.

(** ** The running system *)

Record Swarm (B A : Type) `{Countable A} : Type := mk_swarm {
  swarm_shared : Shared.t B A;
  sessions : list (Session.t B A);
}.
Arguments mk_swarm {B A _ _}.
Arguments swarm_shared {B A _ _}.
Arguments sessions {B A _ _}.

Inductive Action : Type :=
  | Task (k : nat) (e : Event)
  | Control (c : ControlState)       (* [pause], [resume], [cancel] *)
  | CloseReceiver.                   (* the consumer of [completed] is gone *)

Section swarm.
Context {B A : Type} `{PieceSet B} `{Sha1} `{Countable A}.
Context (geometry : Geometry.t).
Implicit Types (sh : Shared.t B A) (s : Session.t B A) (l : list (Session.t B A)).

(** [run]: one task per peer. *)
Definition run_tasks sh (peers : list A) : Swarm B A :=
  mk_swarm sh (new_session geometry <$> peers).

Definition is_live s : bool := match Session.phase s with Ended _ => false | _ => true end.

(** [watch::Sender::send] changes nothing when no receiver is left; every task
    holds one until it ends. *)
Definition send_control sh (live : bool) (c : ControlState) : Shared.t B A :=
  if live
  then Shared.mk (Shared.tracker sh) (Shared.stats sh) c (S (Shared.control_version sh))
         (Shared.done sh) (Shared.sent sh) (Shared.rx_open sh)
  else sh.

Definition close_receiver sh : Shared.t B A :=
  Shared.mk (Shared.tracker sh) (Shared.stats sh) (Shared.control sh) (Shared.control_version sh)
    (Shared.done sh) (Shared.sent sh) false.

Definition swarm_step (w : Swarm B A) (a : Action) : option (Swarm B A) :=
  match a with
  | Task k e =>
      s ← sessions w !! k;
      '(sh', s') ← session_step geometry (swarm_shared w) s e;
      Some (mk_swarm sh' (<[k := s']> (sessions w)))
  | Control c =>
      Some (mk_swarm (send_control (swarm_shared w) (existsb is_live (sessions w)) c) (sessions w))
  | CloseReceiver => Some (mk_swarm (close_receiver (swarm_shared w)) (sessions w))
  end.

(** A received message is typed: its fields are machine words, as [decode]
    guarantees. *)
Definition block_ok (blk : Block.t) : Prop :=
  0 ≤ Block.begin blk ∧ Z.of_nat (length (Block.data blk)) < 2 ^ 32.

Definition event_ok (e : Event) : Prop :=
  match e with
  | Received (Ok (Some (Piece b))) => block_ok b
  | Connected Panic => False
  | _ => True
  end.

Definition action_ok (a : Action) : Prop := match a with Task _ e => event_ok e | _ => True end.

(** The states the system can reach. *)
Definition reachable : relation (Swarm B A) :=
  rtc (λ w w', ∃ a, action_ok a ∧ swarm_step w a = Some w').

(** A given sequence of actions. *)
Fixpoint run_actions (w : Swarm B A) (actions : list Action) : option (Swarm B A) :=
  match actions with
  | [] => Some w
  | a :: actions' => w' ← swarm_step w a; run_actions w' actions'
  end.

Lemma run_actions_reachable w actions w' :
  Forall action_ok actions → run_actions w actions = Some w' → reachable w w'.
Proof.
  intros Ha. revert w. induction Ha as [|a actions Ha _ IH]; intros w; cbn [run_actions].
  - intros [= <-]. constructor.
  - intros (w1 & Hs & Hr)%bind_Some. eapply rtc_l; [by exists a|by apply IH].
Qed.

(** ** The invariant *)

Definition pieces : nat := num_pieces geometry.

(** The sessions whose bitfield is still counted. *)
Definition contributes (i : nat) s : bool :=
  match Session.phase s with
  | Ended (Ok _) | Ended (Err _) => false
  | _ => ps_has (Session.peer_has s) i
  end.

Definition count i l : nat := length (filter (λ s, contributes i s = true) l).

Definition request_ok (m : Message) : Prop :=
  match m with
  | Request b => ∃ i k, Geometry.valid_block geometry i k ∧ Geometry.block_info geometry i k = Ok b
  | Interested => True
  | _ => False
  end.

(** The piece in progress: a real piece, its assembler consistent, the next
    request not past its last block. *)
Definition work_ok s : Prop :=
  match Session.current s with
  | None => True
  | Some asm =>
      PieceAssembler.wf asm ∧ 0 ≤ PieceAssembler.index asm < Geometry.num_pieces geometry ∧
      PieceAssembler.length asm = Geometry.piece_size geometry (PieceAssembler.index asm) ∧
      Session.next_block s ≤
        div_ceil (Geometry.piece_size geometry (PieceAssembler.index asm)) BLOCK_SIZE
  end.

Definition is_fresh s : bool :=
  match Session.phase s with Connecting | Starting => true | _ => false end.

Definition session_ok s : Prop :=
  ps_wf (Session.peer_has s) ∧ ps_num (Session.peer_has s) = pieces ∧
  (is_fresh s = true → Session.current s = None ∧ ∀ i, ps_has (Session.peer_has s) i = false) ∧
  0 ≤ Session.in_flight s ≤ MAX_PIPELINED_REQUESTS ∧ 0 ≤ Session.next_block s ∧
  work_ok s ∧ Forall request_ok (Session.outbox s).

Definition pending s : list VerifiedPiece.t :=
  match Session.phase s with Delivering v _ => [v] | _ => [] end.

(** What was sent on the channel or is about to be. *)
Definition deliveries sh l : list VerifiedPiece.t := Shared.sent sh ++ concat (pending <$> l).

Definition delivery_ok (t : PieceTracker.t B) (v : VerifiedPiece.t) : Prop :=
  0 ≤ VerifiedPiece.index v < Geometry.num_pieces geometry ∧
  Z.of_nat (length (VerifiedPiece.data v)) = Geometry.piece_size geometry (VerifiedPiece.index v) ∧
  PieceTracker.verify t (VerifiedPiece.index v) (VerifiedPiece.data v) = true ∧
  PieceTracker.has t (VerifiedPiece.index v) = true.

(** A session about to report completion is right. *)
Definition completion_ok (t : PieceTracker.t B) s : Prop :=
  match Session.phase s with Delivering _ true => PieceTracker.is_complete t = true | _ => True end.

Record inv sh l : Prop := {
  inv_tracker : PieceTracker.wf (Shared.tracker sh);
  inv_pieces : PieceTracker.num_pieces (Shared.tracker sh) = pieces;
  inv_avail i : (i < pieces)%nat →
    PieceTracker.availability (Shared.tracker sh) !! i = Some (Z.of_nat (count i l));
  inv_sessions : Forall session_ok l;
  inv_nodup : NoDup (VerifiedPiece.index <$> deliveries sh l);
  inv_deliveries : Forall (delivery_ok (Shared.tracker sh)) (deliveries sh l);
  inv_owned i : Shared.rx_open sh = true → (i < pieces)%nat →
    ps_has (PieceTracker.have (Shared.tracker sh)) i = true →
    Z.of_nat i ∈ VerifiedPiece.index <$> deliveries sh l;
  inv_done : Shared.done sh = true → PieceTracker.is_complete (Shared.tracker sh) = true;
  inv_completion : Forall (completion_ok (Shared.tracker sh)) l;
  inv_small : Z.of_nat (length l) + 1 < 2 ^ 32;
}.

(** ** Permutations: the invariant does not depend on the order of the tasks *)

Lemma count_cons i s l :
  count i (s :: l) = ((if contributes i s then 1 else 0) + count i l)%nat.
Proof.
  unfold count. rewrite filter_cons. destruct (contributes i s); case_decide; done.
Qed.

Lemma count_perm i l l' : l ≡ₚ l' → count i l = count i l'.
Proof. intros Hl. unfold count. by rewrite Hl. Qed.

Lemma count_le i l : (count i l ≤ length l)%nat.
Proof. apply length_filter. Qed.

Lemma deliveries_perm sh l l' : l ≡ₚ l' → deliveries sh l ≡ₚ deliveries sh l'.
Proof.
  intros Hl. unfold deliveries. apply Permutation_app_head.
  induction Hl as [|s l l' _ IH|s s' l|l1 l2 l3 _ IH1 _ IH2]; cbn; [done| | |by rewrite IH1].
  - by rewrite IH.
  - rewrite !app_assoc. by rewrite (Permutation_app_comm (pending s')).
Qed.

Lemma deliveries_cons sh s l : deliveries sh (s :: l) ≡ₚ pending s ++ deliveries sh l.
Proof. unfold deliveries. cbn. rewrite !app_assoc. by rewrite (Permutation_app_comm (pending s)). Qed.

Lemma inv_perm sh l l' : l ≡ₚ l' → inv sh l → inv sh l'.
Proof.
  intros Hl [Ht Hn Ha Hs Hnd Hd Ho Hdone Hc Hsm].
  pose proof (deliveries_perm sh _ _ Hl) as Hdl.
  assert (VerifiedPiece.index <$> deliveries sh l ≡ₚ VerifiedPiece.index <$> deliveries sh l')
    as Hil by (by rewrite Hdl).
  constructor; try done.
  - intros i Hi. rewrite <-(count_perm i _ _ Hl). by apply Ha.
  - by rewrite <-Hl.
  - by rewrite <-Hil.
  - by rewrite <-Hdl.
  - intros i Hr Hi Hh. rewrite <-Hil. by apply Ho.
  - by rewrite <-Hl.
  - by rewrite <-Hl.
Qed.

(** ** Steps that leave the progress alone *)

(** The tracker's claims may differ, nothing else. *)
Definition same_progress (t t' : PieceTracker.t B) : Prop :=
  PieceTracker.wf t' ∧ PieceTracker.piece_hashes t' = PieceTracker.piece_hashes t ∧
  PieceTracker.have t' = PieceTracker.have t.

Lemma same_progress_refl (t : PieceTracker.t B) : PieceTracker.wf t → same_progress t t.
Proof. done. Qed.

Lemma same_progress_num t t' :
  same_progress t t' → PieceTracker.num_pieces t' = PieceTracker.num_pieces t.
Proof. intros (_ & Hh & _). unfold PieceTracker.num_pieces. by rewrite Hh. Qed.

Lemma same_progress_complete t t' :
  same_progress t t' → PieceTracker.is_complete t' = PieceTracker.is_complete t.
Proof. intros (_ & _ & Hh). unfold PieceTracker.is_complete. by rewrite Hh. Qed.

Lemma same_progress_delivery t t' v : same_progress t t' → delivery_ok t v → delivery_ok t' v.
Proof.
  intros (_ & Hh & Hv) (? & ? & Hver & Hhas). unfold delivery_ok, PieceTracker.verify,
    PieceTracker.has in *. by rewrite Hh, Hv.
Qed.

Lemma same_progress_completion t t' s : same_progress t t' → completion_ok t s → completion_ok t' s.
Proof.
  intros Ht. unfold completion_ok. rewrite (same_progress_complete t t') by done. done.
Qed.

(** One task stepped, the progress and its deliveries are the same. *)
Lemma inv_step sh sh' s s' l :
  inv sh (s :: l) →
  same_progress (Shared.tracker sh) (Shared.tracker sh') →
  (∀ i, (i < pieces)%nat →
     PieceTracker.availability (Shared.tracker sh') !! i = Some (Z.of_nat (count i (s' :: l)))) →
  session_ok s' → pending s' = pending s → completion_ok (Shared.tracker sh') s' →
  Shared.sent sh' = Shared.sent sh → Shared.rx_open sh' = Shared.rx_open sh →
  (Shared.done sh' = true → Shared.done sh = true ∨ PieceTracker.is_complete (Shared.tracker sh) = true) →
  inv sh' (s' :: l).
Proof.
  intros [Ht Hn Ha Hs Hnd Hd Ho Hdone Hc Hsm] Hsp Havail Hok Hpend Hcomp Hsent Hrx Hdn.
  assert (deliveries sh' (s' :: l) = deliveries sh (s :: l)) as Hdel.
  { unfold deliveries. cbn. by rewrite Hsent, Hpend. }
  apply Forall_cons in Hs as [_ Hs]. apply Forall_cons in Hc as [_ Hc].
  constructor; rewrite ?Hdel.
  - apply Hsp.
  - by rewrite (same_progress_num _ _ Hsp).
  - done.
  - by constructor.
  - done.
  - eapply Forall_impl; [exact Hd|]. intros v. by apply same_progress_delivery.
  - intros i. rewrite Hrx. destruct Hsp as (_ & _ & ->). apply Ho.
  - intros Hx. rewrite (same_progress_complete _ _ Hsp). destruct (Hdn Hx) as [?|?]; auto.
  - constructor; [done|]. eapply Forall_impl; [exact Hc|]. intros s0.
    by apply same_progress_completion.
  - done.
Qed.

(** ... and its bitfield and the counts too: claiming, releasing, waiting. *)
Lemma inv_claims sh sh' s s' l :
  inv sh (s :: l) →
  same_progress (Shared.tracker sh) (Shared.tracker sh') →
  PieceTracker.availability (Shared.tracker sh') = PieceTracker.availability (Shared.tracker sh) →
  (∀ i, contributes i s' = contributes i s) →
  session_ok s' → pending s' = pending s → completion_ok (Shared.tracker sh') s' →
  Shared.sent sh' = Shared.sent sh → Shared.rx_open sh' = Shared.rx_open sh →
  (Shared.done sh' = true → Shared.done sh = true ∨ PieceTracker.is_complete (Shared.tracker sh) = true) →
  inv sh' (s' :: l).
Proof.
  intros Hinv Hsp Hav Hcon. intros. eapply inv_step; try done.
  intros i Hi. rewrite Hav, count_cons, Hcon, <-count_cons. by apply (inv_avail _ _ Hinv).
Qed.

Lemma release_current_progress sh s :
  PieceTracker.wf (Shared.tracker sh) →
  same_progress (Shared.tracker sh) (Shared.tracker (release_current sh s)) ∧
  PieceTracker.availability (Shared.tracker (release_current sh s)) =
    PieceTracker.availability (Shared.tracker sh) ∧
  Shared.sent (release_current sh s) = Shared.sent sh ∧
  Shared.rx_open (release_current sh s) = Shared.rx_open sh ∧
  Shared.done (release_current sh s) = Shared.done sh.
Proof.
  intros Hwf. unfold release_current. destruct (Session.current s); [|done]. cbn.
  split; [|done]. split; [by apply PieceTracker.release_piece_wf|done].
Qed.

(** ** Sessions *)

(** A new phase keeps a session well formed, unless it is a fresh one. *)
Lemma session_ok_phase s p :
  session_ok s →
  (match p with Connecting | Starting => is_fresh s = true | _ => True end) →
  session_ok (Session.set_phase s p).
Proof.
  intros (? & ? & Hf & [? ?] & ? & ? & ?) Hp. split_and!; try done.
  unfold is_fresh at 1. cbn. destruct p; try done; intros _; by apply Hf.
Qed.

Lemma session_ok_idle s n f :
  session_ok s → 0 ≤ n → 0 ≤ f ≤ MAX_PIPELINED_REQUESTS →
  session_ok (Session.set_work s None n f).
Proof.
  intros (? & ? & Hf & ? & ? & ? & ?) ??. split_and!; try done.
  - intros Hfr. destruct (Hf Hfr). done.
  - cbn; lia.
  - cbn; lia.
Qed.

Lemma session_ok_drop s : session_ok s → session_ok (drop_current s).
Proof.
  intros Hs. unfold drop_current. destruct (Session.current s); [|done].
  apply session_ok_idle; [done|lia|unfold MAX_PIPELINED_REQUESTS; lia].
Qed.

Lemma session_ok_choked s c : session_ok s → session_ok (Session.set_choked s c).
Proof. done. Qed.

Lemma session_ok_seen s v : session_ok s → session_ok (Session.set_seen s v).
Proof. done. Qed.

Lemma drop_current_phase s : Session.phase (drop_current s) = Session.phase s.
Proof. unfold drop_current. by destruct (Session.current s). Qed.

Lemma drop_current_peer s : Session.peer_has (drop_current s) = Session.peer_has s.
Proof. unfold drop_current. by destruct (Session.current s). Qed.

(** The pieces of a session that was running before and is not ended now count
    the same. *)
Definition active s : Prop :=
  match Session.phase s with Ended (Ok _) | Ended (Err _) => False | _ => True end.

Lemma contributes_active i s : active s → contributes i s = ps_has (Session.peer_has s) i.
Proof. unfold active, contributes. repeat case_match; done. Qed.

Lemma contributes_same s s' :
  active s → active s' → Session.peer_has s' = Session.peer_has s →
  ∀ i, contributes i s' = contributes i s.
Proof. intros Hs Hs' Hp i. by rewrite !contributes_active, Hp. Qed.

(** ** Every step keeps the invariant *)

Lemma inv_quiet sh sh' s s' l :
  inv sh (s :: l) →
  same_progress (Shared.tracker sh) (Shared.tracker sh') →
  PieceTracker.availability (Shared.tracker sh') = PieceTracker.availability (Shared.tracker sh) →
  Shared.sent sh' = Shared.sent sh → Shared.rx_open sh' = Shared.rx_open sh →
  (Shared.done sh' = true → Shared.done sh = true ∨ PieceTracker.is_complete (Shared.tracker sh) = true) →
  active s → active s' → Session.peer_has s' = Session.peer_has s → session_ok s' →
  pending s = [] → pending s' = [] → inv sh' (s' :: l).
Proof.
  intros Hinv Hsp Hav Hsent Hrx Hdone Hs Hs' Hp Hok Hpe Hpe'. eapply inv_claims; try done.
  - by apply contributes_same.
  - by rewrite Hpe, Hpe'.
  - unfold completion_ok. unfold pending in Hpe'. by destruct (Session.phase s').
Qed.

Lemma inv_head sh s l :
  inv sh (s :: l) → session_ok s ∧ PieceTracker.wf (Shared.tracker sh) ∧
                    PieceTracker.num_pieces (Shared.tracker sh) = pieces.
Proof. intros [? ? _ Hs _ _ _ _ _ _]. by apply Forall_cons in Hs as [? _]. Qed.

(** The current piece is given back; the session moves to a quiet phase. *)
Lemma inv_release sh s s' l :
  inv sh (s :: l) → active s → active s' → Session.peer_has s' = Session.peer_has s →
  session_ok s' → pending s = [] → pending s' = [] → inv (release_current sh s) (s' :: l).
Proof.
  intros Hinv Hs Hs' Hp Hok Hpe Hpe'. pose proof (inv_head _ _ _ Hinv) as (_ & Hwf & _).
  destruct (release_current_progress sh s Hwf) as (? & ? & ? & ? & Hd).
  eapply inv_quiet; try done. rewrite Hd. auto.
Qed.

Lemma at_top_inv sh s l :
  inv sh (s :: l) → Session.phase s = AtTop →
  inv (at_top sh s).1 ((at_top sh s).2 :: l).
Proof.
  intros Hinv Hph. pose proof (inv_head _ _ _ Hinv) as (Hok & Hwf & _).
  assert (active s) as Hact by (unfold active; by rewrite Hph).
  assert (pending s = []) as Hpe by (unfold pending; by rewrite Hph).
  set (s1 := Session.set_seen s (Shared.control_version sh)).
  assert (session_ok s1) as Hok1 by (by apply session_ok_seen).
  unfold at_top. fold s1. destruct (Shared.control sh); cbn [fst snd].
  - eapply inv_quiet; try done; [by left|]. by apply session_ok_phase.
  - apply (inv_release sh s); try done.
    + unfold s1. cbn. by rewrite drop_current_peer.
    + apply session_ok_phase; [|done]. by apply session_ok_drop.
  - apply (inv_release sh s); try done. by apply session_ok_phase.
Qed.

Section geometry_ok.
Context (Hgeo : Geometry.wf geometry).

Lemma pieces_Z i : (i < pieces)%nat ↔ Z.of_nat i < Geometry.num_pieces geometry.
Proof using Hgeo. unfold pieces, num_pieces. destruct Hgeo as (_ & ? & _). lia. Qed.

(** A claimed piece starts with an empty, consistent assembler. *)
Lemma start_piece_ok s i :
  session_ok s → is_fresh s = false → 0 ≤ i < Geometry.num_pieces geometry →
  session_ok (Session.set_phase
    (Session.set_work s (Some (PieceAssembler.new i (Geometry.piece_size geometry i))) 0 0) AtRefill).
Proof using Hgeo.
  intros (? & ? & Hf & [? ?] & ? & ? & ?) Hfr Hi.
  pose proof (Geometry.piece_size_range geometry Hgeo i).
  pose proof Hgeo as (? & _).
  pose proof (div_ceil_spec (Geometry.piece_size geometry i) BLOCK_SIZE ltac:(lia)
    ltac:(by rewrite BLOCK_SIZE_val)).
  split_and!; try done; cbn; try (unfold MAX_PIPELINED_REQUESTS; lia).
  unfold work_ok; cbn. split_and!; try done; try lia.
  apply PieceAssembler.empty_wf. unfold in_word. lia.
Qed.

Lemma at_claim_inv sh s l :
  inv sh (s :: l) → Session.phase s = AtClaim →
  inv (at_claim geometry sh s).1 ((at_claim geometry sh s).2 :: l).
Proof using Hgeo.
  intros Hinv Hph. pose proof (inv_head _ _ _ Hinv) as (Hok & Hwf & Hn).
  assert (active s) as Hact by (unfold active; by rewrite Hph).
  assert (pending s = []) as Hpe by (unfold pending; by rewrite Hph).
  assert (is_fresh s = false) as Hfr by (unfold is_fresh; by rewrite Hph).
  assert (inv sh (Session.set_phase s AtRefill :: l)) as Hstay.
  { eapply inv_quiet; try done; [by left|]. by apply session_ok_phase. }
  unfold at_claim. destruct (Session.current s); [done|]. destruct (Session.choked s); [done|].
  destruct (PieceTracker.reserve_piece_Ok _ (Session.peer_has s) Hwf) as [[-> _]|(i & -> & [Hc _])].
  - assert (Shared.set_tracker sh (Shared.tracker sh) = sh) as -> by (by destruct sh).
    destruct (PieceTracker.is_complete (Shared.tracker sh)) eqn:Hcomp; cbn [fst snd].
    + eapply inv_quiet; try done; [by right|]. by apply session_ok_phase.
    + destruct (PieceTracker.rarest_needed_Ok _ (Session.peer_has s) false Hwf) as (r & Hr & Hm).
      unfold PieceTracker.reserve_piece_endgame. rewrite Hr.
      destruct r as [x|]; [|done]. destruct Hm as (i & -> & [[Hi _] _]).
      rewrite Hn in Hi. apply pieces_Z in Hi as Hiz.
      unfold start_piece. rewrite Geometry.piece_length_Ok by (done || lia). cbn [fst snd].
      eapply inv_quiet; try done; [by left|]. apply start_piece_ok; [done..|lia].
  - destruct Hc as (Hi & _). rewrite Hn in Hi. apply pieces_Z in Hi as Hiz.
    unfold start_piece. rewrite Geometry.piece_length_Ok by (done || lia). cbn [fst snd].
    eapply inv_quiet; try done; [|by left|apply start_piece_ok; [done..|lia]].
    split; [|done]. apply PieceTracker.set_claimed_wf; [done|]. rewrite length_insert. apply Hwf.
Qed.

(** Refilling keeps the session well formed and never panics: the requested
    blocks exist and at most five are in flight. *)
Lemma refill_ok fuel budget s asm :
  session_ok s → is_fresh s = false → Session.current s = Some asm →
  let total := div_ceil (Geometry.piece_size geometry (PieceAssembler.index asm)) BLOCK_SIZE in
  let s' := refill geometry fuel budget (PieceAssembler.index asm) total s in
  session_ok s' ∧ Session.peer_has s' = Session.peer_has s ∧
  (Session.phase s' = AtSelect ∨ ∃ e, Session.phase s' = Leaving (Err e)).
Proof using Hgeo.
  revert budget s. induction fuel as [|fuel IH]; intros budget s Hok Hfr Hcur; cbn [refill]; cbv zeta.
  { split; [by apply session_ok_phase|]. split; [done|by left]. }
  case_decide as Hgo; [|split; [by apply session_ok_phase|]; split; [done|by left]].
  destruct Hgo as [Hfl Hnb].
  pose proof Hok as (? & ? & Hf & [? ?] & ? & Hwork & Hout).
  pose proof Hwork as Hwork'. unfold work_ok in Hwork'. rewrite Hcur in Hwork'.
  destruct Hwork' as (Hwa & Hi & Hla & _).
  assert (Geometry.valid_block geometry (PieceAssembler.index asm) (Session.next_block s)) as Hv
    by (split; [done|]; unfold Geometry.valid_block; lia).
  rewrite (Geometry.block_info_Ok geometry Hgeo _ _ Hv).
  set (b := BlockInfo.mk _ _ _).
  assert (session_ok (Session.set_work (Session.push_out s (Request b)) (Session.current s)
    (Session.next_block s + 1) (Session.in_flight s + 1))) as Hok'.
  { split_and!; try done; cbn; try lia.
    - unfold work_ok; cbn. rewrite Hcur. split_and!; try done; lia.
    - apply Forall_app. split; [done|]. constructor; [|constructor].
      exists (PieceAssembler.index asm), (Session.next_block s). split; [done|].
      by apply Geometry.block_info_Ok. }
  destruct budget as [[[|n] e]|].
  - split; [by apply session_ok_phase|]. split; [done|]. right. by exists e.
  - apply (IH (Some (n, e)) _ Hok'); done.
  - apply (IH None _ Hok'); done.
Qed.

Lemma at_refill_inv sh budget s l :
  inv sh (s :: l) → Session.phase s = AtRefill →
  inv sh (at_refill geometry budget s :: l).
Proof using Hgeo.
  intros Hinv Hph. pose proof (inv_head _ _ _ Hinv) as (Hok & Hwf & Hn).
  assert (active s) as Hact by (unfold active; by rewrite Hph).
  assert (pending s = []) as Hpe by (unfold pending; by rewrite Hph).
  assert (is_fresh s = false) as Hfr by (unfold is_fresh; by rewrite Hph).
  assert (inv sh (Session.set_phase s AtSelect :: l)) as Hstay.
  { eapply inv_quiet; try done; [by left|]. by apply session_ok_phase. }
  unfold at_refill. destruct (Session.choked s); [done|].
  destruct (Session.current s) as [asm|] eqn:Hcur; [|done].
  pose proof Hok as (_ & _ & _ & _ & _ & Hwork & _). unfold work_ok in Hwork. rewrite Hcur in Hwork.
  rewrite Geometry.num_blocks_Ok by (done || apply Hwork).
  destruct (refill_ok (Z.to_nat MAX_PIPELINED_REQUESTS) budget s asm Hok Hfr Hcur) as (Hok' & Hp' & Hph').
  eapply inv_quiet; try done; [by left| |].
  - unfold active. by destruct Hph' as [->|[e ->]].
  - unfold pending. by destruct Hph' as [->|[e ->]].
Qed.

(** What a received block may do. *)
Lemma handle_block_ok s (t : PieceTracker.t B) blk :
  session_ok s → is_fresh s = false → PieceTracker.wf t → block_ok blk →
  match handle_block s t blk with
  | Ok (s', t', None, c) =>
      session_ok s' ∧ Session.peer_has s' = Session.peer_has s ∧
      Session.phase s' = Session.phase s ∧ same_progress t t' ∧
      PieceTracker.availability t' = PieceTracker.availability t ∧
      (c = true → PieceTracker.is_complete t = true)
  | Ok (s', t', Some v, c) =>
      session_ok s' ∧ Session.peer_has s' = Session.peer_has s ∧
      Session.phase s' = Session.phase s ∧
      t' = PieceTracker.mark_have t (VerifiedPiece.index v) ∧
      0 ≤ VerifiedPiece.index v < Geometry.num_pieces geometry ∧
      Z.of_nat (length (VerifiedPiece.data v)) = Geometry.piece_size geometry (VerifiedPiece.index v) ∧
      PieceTracker.verify t (VerifiedPiece.index v) (VerifiedPiece.data v) = true ∧
      PieceTracker.has t (VerifiedPiece.index v) = false ∧
      c = PieceTracker.is_complete t'
  | _ => True
  end.
Proof using Hgeo.
  intros Hok Hfr Hwf [Hb0 Hbl]. unfold handle_block.
  destruct (Session.current s) as [asm|] eqn:Hcur; [|done].
  destruct (Block.index blk =? PieceAssembler.index asm); cbn [negb]; [|done].
  destruct (PieceAssembler.add_block asm (Block.begin blk) (Block.data blk)) as [asm'| |] eqn:Hadd;
    cbn [mbind result_bind]; [|done..].
  pose proof Hok as (? & ? & Hf & [? ?] & ? & Hwork & Hout).
  pose proof Hwork as Hwork'. unfold work_ok in Hwork'. rewrite Hcur in Hwork'.
  destruct Hwork' as (Hwa & [Hi0 Hi1] & Hla & Hnb).
  destruct (PieceAssembler.add_block_Ok asm _ _ asm' Hwa Hb0 Hbl Hadd) as [-> Hwa'].
  set (asm' := PieceAssembler.stored _ _ _) in *.
  assert (0 ≤ saturating_sub (Session.in_flight s) 1 ≤ MAX_PIPELINED_REQUESTS) as Hsat
    by (unfold saturating_sub; lia).
  destruct (PieceAssembler.is_complete asm') eqn:Hcomp; cbn [negb].
  2:{ cbv beta iota. destruct Hsat. split; [|done]. split_and!; try done.
      intros Hx. change (is_fresh s = true) in Hx. congruence. }
  pose proof (session_ok_idle s (Session.next_block s) _ Hok ltac:(done) Hsat) as Hok'.
  destruct (PieceTracker.has t (PieceAssembler.index asm')) eqn:Hhas; cbv beta iota zeta.
  { by split_and!. }
  destruct (PieceTracker.verify t (PieceAssembler.index asm') (PieceAssembler.into_bytes asm'))
    eqn:Hver; cbv beta iota zeta.
  - split_and!; try done. cbn [VerifiedPiece.data VerifiedPiece.index].
    destruct Hwa' as (_ & Hlen & _). unfold PieceAssembler.into_bytes. rewrite Hlen.
    change (PieceAssembler.length asm') with (PieceAssembler.length asm).
    change (PieceAssembler.index asm') with (PieceAssembler.index asm). rewrite Hla.
    pose proof (Geometry.piece_size_range geometry Hgeo (PieceAssembler.index asm)). lia.
  - split_and!; try done. split; [by apply PieceTracker.release_piece_wf|done].
Qed.

(** A verified piece joins the deliveries. *)
Lemma inv_deliver sh sh' s s' l v c :
  inv sh (s :: l) → active s → pending s = [] →
  session_ok s' → Session.peer_has s' = Session.peer_has s →
  Session.phase s' = Delivering v c →
  Shared.tracker sh' = PieceTracker.mark_have (Shared.tracker sh) (VerifiedPiece.index v) →
  Shared.sent sh' = Shared.sent sh → Shared.rx_open sh' = Shared.rx_open sh →
  Shared.done sh' = Shared.done sh →
  0 ≤ VerifiedPiece.index v < Geometry.num_pieces geometry →
  Z.of_nat (length (VerifiedPiece.data v)) = Geometry.piece_size geometry (VerifiedPiece.index v) →
  PieceTracker.verify (Shared.tracker sh) (VerifiedPiece.index v) (VerifiedPiece.data v) = true →
  PieceTracker.has (Shared.tracker sh) (VerifiedPiece.index v) = false →
  c = PieceTracker.is_complete (Shared.tracker sh') →
  inv sh' (s' :: l).
Proof using Hgeo.
  intros [Ht Hn Ha Hs Hnd Hd Ho Hdone Hc Hsm] Hact Hpe Hok Hp Hph Htr Hsent Hrx Hdn Hi Hlen Hver Hhas Hcc.
  set (t := Shared.tracker sh) in *. set (i := VerifiedPiece.index v) in *.
  assert (active s') as Hact' by (unfold active; by rewrite Hph).
  assert (deliveries sh' (s' :: l) ≡ₚ v :: deliveries sh (s :: l)) as Hdel.
  { rewrite !deliveries_cons, Hpe. unfold pending. rewrite Hph. unfold deliveries.
    by rewrite Hsent. }
  assert (Hidx : VerifiedPiece.index <$> deliveries sh' (s' :: l) ≡ₚ
    i :: (VerifiedPiece.index <$> deliveries sh (s :: l))) by (by rewrite Hdel).
  pose proof Ht as (Hps & Hpn & _).
  assert (Z.to_nat i < ps_num (PieceTracker.have t))%nat as Hin
    by (rewrite Hpn, Hn; apply pieces_Z; lia).
  assert (∀ x, PieceTracker.has t x = true →
    PieceTracker.has (PieceTracker.mark_have t i) x = true) as Hmono.
  { intros x. unfold PieceTracker.has. cbn. by apply ps_set_mono. }
  apply Forall_cons in Hs as [_ Hs]. apply Forall_cons in Hc as [_ Hc].
  assert (PieceTracker.is_complete t = true → False) as Hnc.
  { intros Hcomp. unfold PieceTracker.is_complete in Hcomp. rewrite ps_complete_spec in Hcomp by done.
    unfold PieceTracker.has in Hhas. rewrite Hcomp in Hhas by done. done. }
  constructor; rewrite ?Htr.
  - by apply PieceTracker.mark_have_wf.
  - done.
  - intros j Hj.
    change (PieceTracker.availability (PieceTracker.mark_have t i)) with (PieceTracker.availability t).
    by rewrite (Ha j Hj), !count_cons, (contributes_same s s') by done.
  - by constructor.
  - rewrite Hidx. apply NoDup_cons. split; [|done].
    intros (u & Hu & Hmem)%list_elem_of_fmap. rewrite Forall_forall in Hd.
    destruct (Hd u Hmem) as (_ & _ & _ & Hhu). rewrite <-Hu in Hhu. fold t in Hhu. congruence.
  - rewrite Hdel. constructor.
    + split_and!; try done; [lia|lia|]. unfold PieceTracker.has. cbn. by apply ps_set_same.
    + eapply Forall_impl; [exact Hd|]. intros u (? & ? & ? & ?). split_and!; auto; lia.
  - intros j. rewrite Hrx, Hidx, elem_of_cons. intros Hr Hj Hhj. cbn in Hhj.
    destruct (decide (j = Z.to_nat i)) as [->|Hne]; [left; lia|right].
    rewrite ps_set_ne in Hhj by done. by apply Ho.
  - rewrite Hdn. intros Hx. destruct (Hnc (Hdone Hx)).
  - constructor.
    + unfold completion_ok. rewrite Hph. destruct c; [|done]. by rewrite <-Htr.
    + eapply Forall_impl; [exact Hc|]. intros s0. unfold completion_ok.
      destruct (Session.phase s0) as [| | | | | | |? []| |]; try done.
  - done.
Qed.

(** The piece reaches the channel, or is lost with its receiver. *)
Lemma inv_sent sh sh' s s' l v c :
  inv sh (s :: l) → Session.phase s = Delivering v c →
  active s' → pending s' = [] → session_ok s' → Session.peer_has s' = Session.peer_has s →
  Shared.tracker sh' = Shared.tracker sh → Shared.rx_open sh' = Shared.rx_open sh →
  Shared.sent sh' = (if Shared.rx_open sh then Shared.sent sh ++ [v] else Shared.sent sh) →
  (Shared.done sh' = true → Shared.done sh = true ∨ PieceTracker.is_complete (Shared.tracker sh) = true) →
  inv sh' (s' :: l).
Proof using.
  intros [Ht Hn Ha Hs Hnd Hd Ho Hdone Hc Hsm] Hph Hact' Hpe Hok Hp Htr Hrx Hsent Hdn.
  assert (active s) as Hact by (unfold active; by rewrite Hph).
  assert (deliveries sh (s :: l) ≡ₚ v :: deliveries sh l) as Hdel
    by (rewrite deliveries_cons; unfold pending; by rewrite Hph).
  assert (Hdel' : if Shared.rx_open sh then deliveries sh' (s' :: l) ≡ₚ deliveries sh (s :: l)
                  else deliveries sh' (s' :: l) ≡ₚ deliveries sh l).
  { destruct (Shared.rx_open sh); rewrite deliveries_cons, Hpe; cbn [app].
    - rewrite Hdel. unfold deliveries. rewrite Hsent, <-app_assoc. cbn.
      by rewrite <-Permutation_middle.
    - unfold deliveries. by rewrite Hsent. }
  apply Forall_cons in Hs as [_ Hs]. apply Forall_cons in Hc as [_ Hc].
  constructor; rewrite ?Htr; try done.
  - intros i Hi. by rewrite (Ha i Hi), !count_cons, (contributes_same s s') by done.
  - by constructor.
  - destruct (Shared.rx_open sh); [by rewrite Hdel'|].
    rewrite Hdel'. rewrite Hdel in Hnd. by apply NoDup_cons in Hnd as [_ ?].
  - destruct (Shared.rx_open sh); [by rewrite Hdel'|].
    rewrite Hdel'. rewrite Hdel in Hd. by apply Forall_cons in Hd as [_ ?].
  - intros i. rewrite Hrx. intros Hr. rewrite Hr in Hdel'. rewrite Hdel'. by apply Ho.
  - intros Hx. destruct (Hdn Hx); auto.
  - constructor; [|done]. unfold completion_ok. unfold pending in Hpe.
    by destruct (Session.phase s').
Qed.

(** Counting in a newly learned piece. *)
Lemma on_have_inv sh s l index :
  inv sh (s :: l) → Session.phase s = AtSelect →
  inv (on_have sh s index).1 ((on_have sh s index).2 :: l).
Proof using.
  intros Hinv Hph. pose proof (inv_head _ _ _ Hinv) as (Hok & Hwf & Hn).
  assert (active s) as Hact by (unfold active; by rewrite Hph).
  assert (pending s = []) as Hpe by (unfold pending; by rewrite Hph).
  unfold on_have. set (idx := Z.to_nat index).
  destruct (ps_has (Session.peer_has s) idx) eqn:Hhas; cbn [fst snd].
  { eapply inv_quiet; try done; [by left|]. by apply session_ok_phase. }
  pose proof (inv_small _ _ Hinv) as Hsm.
  destruct (PieceTracker.add_availability_Ok (Shared.tracker sh) idx Hwf) as (t' & Ht' & Hwf' & Hh & _ & Hhs).
  { apply Forall_lookup. intros i a Hia.
    assert (i < pieces)%nat as Hi.
    { rewrite <-Hn. apply lookup_lt_Some in Hia. destruct Hwf as (_ & _ & Hla & _). lia. }
    rewrite (inv_avail _ _ Hinv i Hi) in Hia. injection Hia as <-.
    pose proof (count_le i (s :: l)). lia. }
  rewrite Ht'. cbn [fst snd].
  pose proof Hok as (Hpw & Hpn & _ & [? ?] & ? & ? & ?).
  set (s' := Session.set_phase (Session.set_peer_has s (ps_set (Session.peer_has s) idx)) AtTop).
  assert (active s') as Hact' by done.
  apply (inv_step sh _ s s'); try done; [| |by left].
  - intros i Hi. cbn [Shared.tracker set_have_count Shared.set_stats Shared.set_tracker].
    rewrite count_cons, (contributes_active i s') by done. cbn [Session.peer_has s' Session.set_phase Session.set_peer_has].
    rewrite ps_set_has by done.
    pose proof (inv_avail _ _ Hinv i Hi) as Hai. rewrite count_cons, contributes_active in Hai by done.
    unfold PieceTracker.add_availability in Ht'. destruct (Hwf) as (_ & _ & Hla & _).
    case_decide as Hidx.
    + destruct (lookup_lt_is_Some_2 _ _ Hidx) as [a Ha]. rewrite Ha in Ht'. cbn in Ht'.
      apply bind_Ok_inv in Ht' as (a' & [-> _]%add_w_Ok_inv & [= <-]).
      cbn [PieceTracker.availability PieceTracker.set_availability].
      destruct (decide (idx = i)) as [->|Hne].
      * rewrite list_lookup_insert_eq by done. rewrite Hhas in Hai |- *.
        rewrite bool_decide_eq_true_2, (proj2 (Nat.ltb_lt _ _)) by (done || lia). cbn.
        rewrite Ha in Hai. injection Hai as ->. f_equal. lia.
      * rewrite list_lookup_insert_ne by done. rewrite bool_decide_eq_false_2 by done. cbn.
        by rewrite orb_false_r.
    + injection Ht' as <-. rewrite Hai. rewrite bool_decide_eq_false_2 by lia. cbn.
      by rewrite orb_false_r.
  - split; [by apply ps_set_wf|]. split; [cbn; by rewrite ps_set_num|]. done.
Qed.

(** Without the contribution of its bitfield a task counts nowhere. *)
Lemma removed_counts sh s l i :
  inv sh (s :: l) → active s → (i < pieces)%nat →
  PieceTracker.availability
    (PieceTracker.remove_bitfield_availability (Shared.tracker sh) (Session.peer_has s)) !! i =
  Some (Z.of_nat (count i l)).
Proof using.
  intros Hinv Hact Hi. pose proof (inv_avail _ _ Hinv i Hi) as Hai.
  rewrite count_cons, contributes_active in Hai by done.
  cbn. rewrite list_lookup_imap, Hai. cbn. f_equal. unfold saturating_sub.
  destruct (ps_has (Session.peer_has s) i); lia.
Qed.

(** ... so a new bitfield fits. *)
Lemma bitfield_fits sh s l nh :
  inv sh (s :: l) → active s →
  ∃ t, PieceTracker.add_bitfield_availability
         (PieceTracker.remove_bitfield_availability (Shared.tracker sh) (Session.peer_has s)) nh = Ok t ∧
       PieceTracker.wf t.
Proof using.
  intros Hinv Hact. pose proof (inv_head _ _ _ Hinv) as (_ & Hwf & Hn).
  set (t1 := PieceTracker.remove_bitfield_availability (Shared.tracker sh) (Session.peer_has s)).
  assert (PieceTracker.wf t1) as Hwf1 by (by apply PieceTracker.remove_bitfield_wf).
  apply PieceTracker.add_bitfield_Ok; [done|]. apply Forall_lookup. intros i a Hia.
  assert (i < pieces)%nat as Hi.
  { rewrite <-Hn. apply lookup_lt_Some in Hia. destruct Hwf1 as (_ & _ & Hla & _).
    change (PieceTracker.num_pieces t1) with (PieceTracker.num_pieces (Shared.tracker sh)) in Hla. lia. }
  unfold t1 in Hia. rewrite (removed_counts sh s l i Hinv Hact Hi) in Hia. injection Hia as <-.
  pose proof (inv_small _ _ Hinv). pose proof (count_le i l). cbn [length] in *. lia.
Qed.

(** Replacing a whole bitfield. *)
Lemma on_bitfield_inv sh s l bytes :
  inv sh (s :: l) → Session.phase s = AtSelect →
  inv (on_bitfield geometry sh s bytes).1 ((on_bitfield geometry sh s bytes).2 :: l).
Proof using.
  intros Hinv Hph. pose proof (inv_head _ _ _ Hinv) as (Hok & Hwf & Hn).
  assert (active s) as Hact by (unfold active; by rewrite Hph).
  assert (pending s = []) as Hpe by (unfold pending; by rewrite Hph).
  unfold on_bitfield.
  pose proof (ps_from_bytes_spec (B := B) bytes (num_pieces geometry)) as Hfb.
  destruct (ps_from_bytes bytes (num_pieces geometry)) as [nh|e|]; cbn [fst snd]; [|..|done].
  2:{ eapply inv_quiet; try done; [by left|]. by apply session_ok_phase. }
  destruct Hfb as [Hnw Hnn].
  destruct (bitfield_fits sh s l nh Hinv Hact) as (t2 & Ht2 & Hwf2).
  rewrite Ht2. cbn [fst snd].
  apply PieceTracker.add_bitfield_Ok_inv in Ht2 as [_ ->].
  pose proof Hok as (Hpw & Hpn & _ & [? ?] & ? & ? & ?).
  set (s' := Session.set_phase (Session.set_peer_has s nh) AtTop).
  assert (active s') as Hact' by done.
  apply (inv_step sh _ s s'); try done; [|by left].
  intros i Hi. cbn [Shared.tracker set_have_count Shared.set_stats Shared.set_tracker
    PieceTracker.availability PieceTracker.set_availability].
  rewrite list_lookup_imap, (removed_counts sh s l i Hinv Hact Hi), count_cons,
    (contributes_active i s') by done. cbn.
  f_equal. destruct (ps_has nh i); lia.
Qed.

(** Leaving: the contribution is undone. *)
Lemma cleanup_inv sh s l r :
  inv sh (s :: l) → Session.phase s = Leaving r → r ≠ Panic →
  inv (cleanup sh s r).1 ((cleanup sh s r).2 :: l).
Proof using.
  intros Hinv Hph Hr. pose proof (inv_head _ _ _ Hinv) as (Hok & Hwf & Hn).
  assert (active s) as Hact by (unfold active; by rewrite Hph).
  assert (pending s = []) as Hpe by (unfold pending; by rewrite Hph).
  unfold cleanup. cbn [fst snd].
  set (t1 := PieceTracker.remove_bitfield_availability (Shared.tracker sh) (Session.peer_has s)).
  apply (inv_step sh _ s (Session.set_phase s (Ended r))); try done; [| |by apply session_ok_phase|by left].
  - split; [by apply PieceTracker.remove_bitfield_wf|done].
  - intros i Hi. pose proof (inv_avail _ _ Hinv i Hi) as Hai.
    rewrite count_cons, contributes_active in Hai by done.
    cbn [Shared.tracker Shared.set_stats Shared.set_tracker]. rewrite count_cons.
    assert (contributes i (Session.set_phase s (Ended r)) = false) as -> by (by destruct r).
    cbn. rewrite list_lookup_imap, Hai. cbn. f_equal. unfold saturating_sub.
    destruct (ps_has (Session.peer_has s) i); lia.
Qed.

Lemma on_piece_inv sh s l blk :
  inv sh (s :: l) → Session.phase s = AtSelect → block_ok blk →
  inv (on_piece sh s blk).1 ((on_piece sh s blk).2 :: l).
Proof using Hgeo.
  intros Hinv Hph Hblk. pose proof (inv_head _ _ _ Hinv) as (Hok & Hwf & Hn).
  assert (active s) as Hact by (unfold active; by rewrite Hph).
  assert (pending s = []) as Hpe by (unfold pending; by rewrite Hph).
  assert (is_fresh s = false) as Hfr by (unfold is_fresh; by rewrite Hph).
  assert (∀ sh' p, Shared.tracker sh' = Shared.tracker sh → Shared.sent sh' = Shared.sent sh →
    Shared.rx_open sh' = Shared.rx_open sh → Shared.done sh' = Shared.done sh →
    match p with Leaving _ | Ended Panic => True | _ => False end →
    inv sh' (Session.set_phase s p :: l)) as Hquit.
  { intros sh' p Ht Hs Hr Hd Hp. eapply inv_quiet; try done; try (by rewrite Ht).
    - rewrite Hd. by left.
    - unfold active. cbn. by destruct p as [| | | | | | | | |[]].
    - apply session_ok_phase; [done|]. by destruct p.
    - unfold pending. cbn. by destruct p. }
  unfold on_piece.
  destruct (SwarmStats.record_block _ _ _) as [st|e|]; cbn [fst snd]; [|by apply Hquit..].
  pose proof (handle_block_ok s (Shared.tracker sh) blk Hok Hfr Hwf Hblk) as Hb.
  cbn [Shared.tracker Shared.set_stats].
  destruct (handle_block s (Shared.tracker sh) blk) as [[[[s' t'] [v|]] c]|e|]; cbn [fst snd];
    [| |by apply Hquit..].
  - destruct Hb as (Hok' & Hp' & Hph' & -> & Hi & Hlen & Hver & Hhas & Hc).
    eapply (inv_deliver sh _ s _ l v c); try done. by apply session_ok_phase.
  - destruct Hb as (Hok' & Hp' & Hph' & Hsp & Hav & Hc). unfold after_block.
    destruct c; cbn [fst snd]; eapply inv_quiet; try done;
      first [by left|by right; auto|by apply session_ok_phase].
Qed.

Lemma on_recv_inv sh s l r :
  inv sh (s :: l) → Session.phase s = AtSelect → event_ok (Received r) →
  inv (on_recv geometry sh s r).1 ((on_recv geometry sh s r).2 :: l).
Proof using Hgeo.
  intros Hinv Hph Hev. pose proof (inv_head _ _ _ Hinv) as (Hok & Hwf & Hn).
  assert (active s) as Hact by (unfold active; by rewrite Hph).
  assert (pending s = []) as Hpe by (unfold pending; by rewrite Hph).
  assert (inv sh (Session.set_phase s AtTop :: l)) as Hstay.
  { eapply inv_quiet; try done; [by left|]. by apply session_ok_phase. }
  destruct r as [[m|]|e|]; cbn [on_recv].
  - destruct m; cbn [on_message]; try done.
    + cbn [fst snd].
      apply (inv_release (Shared.set_stats sh _) s); try done.
      * eapply inv_quiet; try done. by left.
      * cbn. by rewrite drop_current_peer.
      * apply session_ok_phase; [|done]. by apply session_ok_drop, session_ok_choked.
    + cbn [fst snd]. eapply inv_quiet; try done; [by left|].
      apply session_ok_phase; [|done]. by apply session_ok_choked.
    + by apply on_have_inv.
    + by apply on_bitfield_inv.
    + by apply on_piece_inv.
  - cbn [fst snd]. apply (inv_release sh s); try done. by apply session_ok_phase.
  - cbn [fst snd]. eapply inv_quiet; try done; [by left|]. by apply session_ok_phase.
  - cbn [fst snd]. eapply inv_quiet; try done; [by left|]. by apply session_ok_phase.
Qed.

(** A session that never loops: before and after its connection. *)
Lemma fresh_end_inv sh sh' s l p :
  inv sh (s :: l) → is_fresh s = true → Shared.tracker sh' = Shared.tracker sh →
  Shared.sent sh' = Shared.sent sh → Shared.rx_open sh' = Shared.rx_open sh →
  Shared.done sh' = Shared.done sh →
  match p with Delivering _ _ => False | _ => True end →
  inv sh' (Session.set_phase s p :: l).
Proof using.
  intros Hinv Hfr Ht Hs Hr Hd Hp. pose proof (inv_head _ _ _ Hinv) as (Hok & Hwf & Hn).
  pose proof Hok as (_ & _ & Hf & _). destruct (Hf Hfr) as [_ Hempty].
  assert (pending s = []) as Hpe.
  { unfold pending. unfold is_fresh in Hfr. by destruct (Session.phase s). }
  apply (inv_claims sh _ s); try done; rewrite ?Ht; try done.
  - intros i. unfold contributes. cbn. rewrite Hempty.
    destruct p as [| | | | | | | | |[]], (Session.phase s) as [| | | | | | | | |[]]; done.
  - apply session_ok_phase; [done|]. by destruct p.
  - rewrite Hpe. unfold pending. cbn. by destruct p.
  - unfold completion_ok. cbn. by destruct p.
  - rewrite Hd. by left.
Qed.

Lemma set_phase_push_ok s :
  session_ok s → session_ok (Session.push_out s Interested).
Proof using.
  intros (? & ? & ? & [? ?] & ? & ? & Hout). split_and!; try done.
  apply Forall_app. split; [done|]. by constructor.
Qed.

(** No task leaves its loop with a panic: those end at once. *)
Definition leaves_ok s : Prop := Session.phase s ≠ Leaving Panic.

Lemma refill_leaves fuel budget i n s :
  leaves_ok (refill geometry fuel budget i n s).
Proof using.
  revert budget s. induction fuel as [|fuel IH]; intros budget s; cbn [refill]; [done|].
  case_decide; [|done]. destruct (Geometry.block_info _ _ _); [|done..].
  destruct budget as [[[|k] e]|]; [done|apply IH..].
Qed.

Lemma session_step_leaves sh s e sh' s' :
  session_step geometry sh s e = Some (sh', s') → leaves_ok s'.
Proof using.
  unfold session_step, at_top, at_claim, at_refill, start_piece, on_recv, on_message, on_have,
    on_bitfield, on_piece, after_block, cleanup.
  intros Hs. repeat (case_match; try discriminate Hs); simplify_eq; try done.
  all: try apply refill_leaves.
Qed.

Lemma session_step_inv sh s l e sh' s' :
  inv sh (s :: l) → leaves_ok s → event_ok e → session_step geometry sh s e = Some (sh', s') →
  inv sh' (s' :: l).
Proof using Hgeo.
  intros Hinv Hlv Hev Hstep. pose proof (inv_head _ _ _ Hinv) as (Hok & Hwf & Hn).
  unfold session_step in Hstep.
  assert (∀ p, Session.phase s = p → (p = AtTop ∨ p = AtPause ∨ p = AtClaim ∨ p = AtRefill ∨ p = AtSelect) →
    active s ∧ pending s = []) as Hact.
  { intros p Hp Hcase. unfold active, pending. rewrite Hp.
    by destruct Hcase as [->|[->|[->|[->| ->]]]]. }
  assert (∀ v, Session.phase s = AtPause ∨ Session.phase s = AtSelect →
    inv sh (Session.set_phase (Session.set_seen s v) AtTop :: l)) as Hwake.
  { intros v Hp. destruct (Hact _ eq_refl) as [? ?]; [tauto|].
    eapply inv_quiet; try done; [by left|]. by apply session_ok_phase. }
  destruct (Session.phase s) eqn:Hph; try done.
  - destruct e as [r| | | | | | |]; try done. destruct r as [[]|e|]; [| |done]; injection Hstep as <- <-.
    all: apply (fresh_end_inv sh); try done; unfold is_fresh; by rewrite Hph.
  - assert (is_fresh s = true) as Hfr by (unfold is_fresh; by rewrite Hph).
    destruct e; try done; injection Hstep as <- <-.
    + apply (fresh_end_inv sh _ (Session.push_out s Interested)); try done.
      apply (inv_claims sh _ s); try done.
      * by apply set_phase_push_ok.
      * unfold completion_ok. cbn. by rewrite Hph.
      * by left.
    + by apply (fresh_end_inv sh).
  - destruct e; try done. pose proof (at_top_inv sh s l Hinv Hph) as Ht.
    destruct (at_top sh s). by injection Hstep as <- <-.
  - destruct e; try done. case_decide; [done|]. injection Hstep as <- <-. apply Hwake. by left.
  - destruct e; try done. pose proof (at_claim_inv sh s l Hinv Hph) as Ht.
    destruct (at_claim geometry sh s). by injection Hstep as <- <-.
  - destruct e; try done; injection Hstep as <- <-; by apply at_refill_inv.
  - destruct (Hact _ eq_refl) as [Ha Hpe]; [tauto|].
    destruct e; try done.
    + case_decide; [done|]. injection Hstep as <- <-. apply Hwake. by right.
    + case_match; [|done]. injection Hstep as <- <-.
      eapply inv_quiet; try done; [by left|]. by apply session_ok_phase.
    + case_match; [|done]. injection Hstep as <- <-. apply (inv_release sh s); try done.
      * cbn. by rewrite drop_current_peer.
      * apply session_ok_phase; [|done]. by apply session_ok_drop.
    + pose proof (on_recv_inv sh s l r Hinv Hph Hev) as Ht.
      destruct (on_recv geometry sh s r). by injection Hstep as <- <-.
  - destruct e; try done. unfold after_block in Hstep.
    destruct complete; injection Hstep as <- <-; eapply (inv_sent sh _ s); try done;
      try (by apply session_ok_phase); [|by left].
    intros _. right. destruct Hinv as [_ _ _ _ _ _ _ _ Hc _]. apply Forall_cons in Hc as [Hc _].
    unfold completion_ok in Hc. by rewrite Hph in Hc.
  - destruct e; try done. pose proof (cleanup_inv sh s l r Hinv Hph) as Ht.
    destruct (cleanup sh s r). injection Hstep as <- <-. apply Ht. intros ->. by apply Hlv.
Qed.
(** ** The whole swarm *)

Definition swarm_inv (w : Swarm B A) : Prop :=
  inv (swarm_shared w) (sessions w) ∧ Forall leaves_ok (sessions w).

(** The invariant reads of the shared state only what the actions below keep. *)
Lemma inv_shared sh sh' l :
  inv sh l → Shared.tracker sh' = Shared.tracker sh → Shared.sent sh' = Shared.sent sh →
  (Shared.rx_open sh' = true → Shared.rx_open sh = true) → Shared.done sh' = Shared.done sh →
  inv sh' l.
Proof using.
  intros [Ht Hn Ha Hs Hnd Hd Ho Hdone Hc Hsm] Htr Hsent Hrx Hdn.
  assert (deliveries sh' l = deliveries sh l) as Hdel by (unfold deliveries; by rewrite Hsent).
  constructor; rewrite ?Htr, ?Hdel, ?Hdn; try done. intros i Hr. apply Ho. auto.
Qed.

Lemma delete_insert_same {X} k (x : X) (l : list X) : delete k (<[k:=x]> l) = delete k l.
Proof using. revert k. induction l as [|y l IH]; intros [|k]; cbn; [done..|]. by rewrite IH. Qed.

Lemma swarm_step_inv w a w' :
  swarm_inv w → action_ok a → swarm_step w a = Some w' → swarm_inv w'.
Proof using Hgeo.
  intros [Hinv Hlv] Ha Hstep. destruct w as [sh l]. destruct a as [k e|c|]; cbn in *.
  - apply bind_Some in Hstep as (s & Hk & Hstep).
    apply bind_Some in Hstep as ([sh' s'] & Hstep & [= <-]).
    assert (l ≡ₚ s :: delete k l) as Hl by (by apply delete_Permutation).
    assert (<[k:=s']> l ≡ₚ s' :: delete k l) as Hl'.
    { rewrite (delete_Permutation (<[k:=s']> l) k s')
        by (apply list_lookup_insert_eq; by eapply lookup_lt_Some).
      by rewrite delete_insert_same. }
    pose proof (proj1 (Forall_lookup _ _) Hlv _ _ Hk) as Hls. split; cbn.
    + apply (inv_perm _ _ _ (symmetry Hl')).
      eapply session_step_inv; [|exact Hls|exact Ha|exact Hstep]. by apply (inv_perm _ _ _ Hl).
    + apply Forall_insert; [done|]. by eapply session_step_leaves.
  - injection Hstep as <-. split; [|done]. cbn. unfold send_control.
    destruct (existsb is_live l); [|done]. by apply (inv_shared sh).
  - injection Hstep as <-. split; [|done]. cbn. by apply (inv_shared sh).
Qed.

Lemma reachable_inv w w' : swarm_inv w → reachable w w' → swarm_inv w'.
Proof using Hgeo.
  intros Hw. induction 1 as [w|w w1 w2 (a & Ha & Hs) _ IH]; [done|].
  apply IH. by eapply swarm_step_inv.
Qed.

(** The expected digests never change. *)
Definition same_hashes sh sh' : Prop :=
  PieceTracker.piece_hashes (Shared.tracker sh') = PieceTracker.piece_hashes (Shared.tracker sh).

Lemma release_current_hashes sh s : same_hashes sh (release_current sh s).
Proof using. unfold release_current. by destruct (Session.current s). Qed.

Lemma handle_block_hashes s (t : PieceTracker.t B) blk s' t' v c :
  handle_block s t blk = Ok (s', t', v, c) →
  PieceTracker.piece_hashes t' = PieceTracker.piece_hashes t.
Proof using.
  unfold handle_block. destruct (Session.current s) as [asm|]; [|by intros [= _ <- _ _]].
  destruct (negb _); [by intros [= _ <- _ _]|].
  destruct (PieceAssembler.add_block _ _ _); cbn [mbind result_bind]; [|done..].
  repeat case_match; intros [= _ <- _ _]; done.
Qed.

Lemma reserve_hashes (t : PieceTracker.t B) p r t' :
  PieceTracker.reserve_piece t p = Ok (r, t') →
  PieceTracker.piece_hashes t' = PieceTracker.piece_hashes t.
Proof using.
  unfold PieceTracker.reserve_piece. intros (o & _ & Hr)%bind_Ok_inv.
  destruct o as [x|]; [|by injection Hr as _ <-].
  by apply bind_Ok_inv in Hr as (? & _ & [= _ <-]).
Qed.

Lemma session_step_hashes sh s e sh' s' :
  session_step geometry sh s e = Some (sh', s') → same_hashes sh sh'.
Proof using.
  unfold session_step, at_top, at_claim, start_piece, on_recv, on_message, on_have,
    on_bitfield, on_piece, after_block, cleanup.
  intros Hs. repeat (case_match; try discriminate Hs); simplify_eq; try done.
  all: try apply release_current_hashes.
  all: try match goal with Hr : PieceTracker.reserve_piece _ _ = Ok _ |- _ =>
    by apply reserve_hashes in Hr end.
  all: try match goal with Hr : handle_block _ _ _ = Ok _ |- _ =>
    by apply handle_block_hashes in Hr end.
  - exact (release_current_hashes (Shared.set_stats sh _) s).
  - rename select (PieceTracker.add_availability _ _ = Ok _) into Ha.
    unfold PieceTracker.add_availability in Ha. case_decide; inv_result; done.
  - rename select (PieceTracker.add_bitfield_availability _ _ = Ok _) into Ha.
    by apply PieceTracker.add_bitfield_Ok_inv in Ha as [_ ->].
Qed.

Lemma reachable_hashes w w' :
  reachable w w' → same_hashes (swarm_shared w) (swarm_shared w').
Proof using.
  induction 1 as [w|w w1 w2 (a & _ & Hs) _ IH]; [done|].
  unfold same_hashes in *. rewrite IH. clear IH.
  destruct w as [sh l]. destruct a as [k e|c|]; cbn in Hs.
  - apply bind_Some in Hs as (s & _ & Hs). apply bind_Some in Hs as ([sh' s'] & Hs & [= <-]).
    by apply session_step_hashes in Hs.
  - injection Hs as <-. unfold send_control. by destruct (existsb _ _).
  - by injection Hs as <-.
Qed.

(** The state in which [run] starts. *)
Definition initial (sh : Shared.t B A) : Prop :=
  PieceTracker.wf (Shared.tracker sh) ∧
  PieceTracker.num_pieces (Shared.tracker sh) = pieces ∧
  PieceTracker.availability (Shared.tracker sh) = replicate (pieces) 0 ∧
  ps_elems (PieceTracker.have (Shared.tracker sh)) = ∅ ∧
  Shared.sent sh = [] ∧ Shared.done sh = false.

Lemma run_tasks_inv sh peers :
  initial sh → Z.of_nat (length peers) + 1 < 2 ^ 32 → swarm_inv (run_tasks sh peers).
Proof using Hgeo.
  intros (Hwf & Hn & Hav & Hh & Hsent & Hdone) Hlen.
  assert (Forall (λ s, Session.phase s = Connecting ∧ session_ok s ∧
    ∀ i, contributes i s = false) (new_session (B := B) geometry <$> peers)) as Hnew.
  { apply Forall_fmap, Forall_true. intros p. split; [done|].
    assert (∀ i, ps_has (ps_new (num_pieces geometry) : B) i = false) as Hempty
      by (intros i; apply ps_new_has).
    split; [|exact Hempty].
    split; [apply ps_new_wf|]. split; [apply ps_new_num|]. split; [done|].
    split_and!; cbn; try done. }
  assert (concat (pending <$> (new_session (B := B) geometry <$> peers)) = []) as Hpend.
  { clear -Hnew. induction Hnew as [|s l (Hs & _) _ IH]; [done|]. cbn. rewrite IH.
    unfold pending. by rewrite Hs. }
  split; [|eapply Forall_impl; [exact Hnew|]; intros s (Hs & _); unfold leaves_ok; by rewrite Hs].
  unfold run_tasks. cbn. constructor; cbn; try done.
  - intros i Hi. rewrite Hav, lookup_replicate_2 by done. f_equal.
    unfold count. replace (filter _ _) with (@nil (Session.t B A)); [done|].
    symmetry. clear -Hnew. induction Hnew as [|s l (_ & _ & Hs) _ IH]; [done|].
    rewrite filter_cons, decide_False; [done|]. by rewrite Hs.
  - eapply Forall_impl; [exact Hnew|]. by intros s (_ & ? & _).
  - unfold deliveries. rewrite Hsent, Hpend. constructor.
  - unfold deliveries. rewrite Hsent, Hpend. constructor.
  - intros i _ _ Hhas. apply elem_of_ps_elems in Hhas. rewrite Hh in Hhas. set_solver.
  - by rewrite Hdone.
  - eapply Forall_impl; [exact Hnew|]. intros s (Hs & _). unfold completion_ok. by rewrite Hs.
  - rewrite length_fmap. done.
Qed.

(** Every owned piece was handed to the channel while its receiver was there
    and nobody is still sending. *)
Lemma completed_sent w :
  swarm_inv w → Shared.rx_open (swarm_shared w) = true →
  Forall (λ s, pending s = []) (sessions w) →
  PieceTracker.is_complete (Shared.tracker (swarm_shared w)) = true →
  VerifiedPiece.index <$> Shared.sent (swarm_shared w) ≡ₚ Z.of_nat <$> seq 0 (pieces).
Proof using Hgeo.
  intros [[Ht Hn Ha Hs Hnd Hd Ho Hdone Hc Hsm] _] Hrx Hpend Hcomp.
  assert (deliveries (swarm_shared w) (sessions w) = Shared.sent (swarm_shared w)) as Hdel.
  { unfold deliveries. replace (concat _) with (@nil VerifiedPiece.t); [apply app_nil_r|].
    clear -Hpend. induction Hpend as [|s l Hs _ IH]; [done|]. cbn. by rewrite Hs, <-IH. }
  rewrite Hdel in *.
  apply NoDup_Permutation; [done| |].
  - apply NoDup_fmap; [intros x y; lia|apply NoDup_seq].
  - intros x. rewrite (list_elem_of_fmap Z.of_nat). split.
    + intros (v & -> & Hv)%list_elem_of_fmap. rewrite Forall_forall in Hd.
      destruct (Hd v Hv) as ([H1' H2'] & _). exists (Z.to_nat (VerifiedPiece.index v)).
      split; [lia|]. apply elem_of_seq. split; [lia|]. cbn. apply pieces_Z. lia.
    + intros (i & -> & [_ Hi]%elem_of_seq). apply Ho; [done|done|].
      destruct Ht as (Hps & Hpn & _). unfold PieceTracker.is_complete in Hcomp.
      rewrite ps_complete_spec in Hcomp by done. apply Hcomp. rewrite Hpn, Hn. done.
Qed.

(** The pieces sent are distinct and good. *)
Lemma sent_ok w :
  swarm_inv w →
  NoDup (VerifiedPiece.index <$> Shared.sent (swarm_shared w)) ∧
  Forall (delivery_ok (Shared.tracker (swarm_shared w))) (Shared.sent (swarm_shared w)).
Proof.
  intros [Hinv _]. pose proof (inv_nodup _ _ Hinv) as Hnd. pose proof (inv_deliveries _ _ Hinv) as Hd.
  unfold deliveries in Hnd, Hd. rewrite fmap_app in Hnd.
  apply NoDup_app in Hnd as (? & _ & _). by apply Forall_app in Hd as [? _].
Qed.
End geometry_ok.
End swarm.

(** ** Starting a download *)

Section start.
Context {B A : Type} `{PieceSet B} `{Sha1} `{Countable A}.

(** A new coordinator is in the initial state of its geometry. *)
Lemma coordinator_new_initial (info : Info.t) (c : Coordinator.t (B := B) (A := A)) :
  Info.wf info → Z.of_nat (Info.num_pieces info) < 2 ^ 32 → Coordinator.new info = Ok c →
  Geometry.wf (Coordinator.geometry c) ∧ sizes_of info (Coordinator.geometry c) ∧
  initial (Coordinator.geometry c) (Coordinator.shared c) ∧
  Shared.rx_open (Coordinator.shared c) = true ∧
  ∀ (i : nat) data,
    PieceTracker.verify (Shared.tracker (Coordinator.shared c)) (Z.of_nat i) data = true ↔
    (i < Info.num_pieces info)%nat ∧ sha1 data = slice (i * 20) ((i + 1) * 20) (Info.pieces info).
Proof.
  intros Hwf Hsmall Hnew. unfold Coordinator.new in Hnew.
  apply bind_Ok_inv in Hnew as (g & Hg & Hnew). apply bind_Ok_inv in Hnew as (t & Ht & [= <-]).
  pose proof (from_info_cases info Hwf) as Hgc. rewrite Hg in Hgc. destruct Hgc as [Hgwf Hsz].
  pose proof (tracker_from_info_cases (B := B) info Hsmall) as Htc. rewrite Ht in Htc.
  destruct Htc as (_ & Htwf & Htn & Hte & Hver). cbn.
  split; [done|]. split; [done|]. split; [|done].
  assert (PieceTracker.num_pieces t = pieces g) as Hn.
  { rewrite Htn. unfold pieces, num_pieces. destruct Hsz as (_ & _ & <-).
    rewrite wrap_small by (unfold in_word; lia). lia. }
  split_and!; cbn; try done.
  rewrite <-Hn. unfold PieceTracker.from_info in Ht. apply bind_Ok_inv in Ht as (hs & _ & [= <-]).
  done.
Qed.
End start.

(** ** Properties *)

Section swarm_properties.
Context {B A : Type} `{PieceSet B} `{Sha1} `{Countable A}.
Context (geometry : Geometry.t).
Implicit Types (w : Swarm B A) (sh : Shared.t B A) (s : Session.t B A).

(** Nothing unverified is ever delivered, and nothing twice. In every state the
    swarm can reach from a fresh tracker, under any interleaving of the peer
    tasks and any peer behaviour, the pieces sent to the disk writer have
    distinct indices in range, each has exactly its piece's length, its digest
    is the one the torrent declares, and the piece is marked as owned. *)
Theorem deliveries_verified sh peers w :
  Geometry.wf geometry → initial geometry sh → Z.of_nat (length peers) + 1 < 2 ^ 32 →
  reachable geometry (run_tasks geometry sh peers) w →
  NoDup (VerifiedPiece.index <$> Shared.sent (swarm_shared w)) ∧
  Forall (λ v,
    0 ≤ VerifiedPiece.index v < Geometry.num_pieces geometry ∧
    Z.of_nat (length (VerifiedPiece.data v)) = Geometry.piece_size geometry (VerifiedPiece.index v) ∧
    PieceTracker.verify (Shared.tracker (swarm_shared w)) (VerifiedPiece.index v)
      (VerifiedPiece.data v) = true ∧
    PieceTracker.has (Shared.tracker (swarm_shared w)) (VerifiedPiece.index v) = true)
    (Shared.sent (swarm_shared w)).
Proof.
  intros Hg Hi Hlen Hr. eapply (sent_ok geometry), (reachable_inv geometry Hg); [|exact Hr].
  by apply run_tasks_inv.
Qed.



End swarm_properties.
