(* ===== verification/Completions.v ===== *)
(** * What completion does to the other tasks ([src/download/mod.rs])

    When the last piece is in, the task that got it raises [done]. Every task
    that is not paused then ends on its own, without another message from its
    peer: this is what lets [run] return with idle peers connected. A paused
    task does not look at [done], and [run] waits for it. *)

From S2P Require Export Coordinators.

Section completion.
Context {B A : Type} `{PieceSet B} `{Sha1} `{Countable A}.
Context (g : Geometry.t).
Implicit Types (w : Swarm B A) (sh : Shared.t B A) (s : Session.t B A) (l : list (Session.t B A)).

(** No task changes the control state. *)
Lemma session_step_control sh s e sh' s' :
  session_step g sh s e = Some (sh', s') →
  Shared.control sh' = Shared.control sh ∧ Shared.control_version sh' = Shared.control_version sh.
Proof using.
  unfold session_step, at_top, at_claim, start_piece, on_recv, on_message, on_have,
    on_bitfield, on_piece, after_block, cleanup, release_current, set_have_count.
  intros Hs. repeat (case_match; try discriminate Hs); simplify_eq; done.
Qed.

(** ** Ending without the peer *)

(** What a task does next if its peer never speaks again. *)
Definition unaided s : Event :=
  match Session.phase s with
  | Starting | AtRefill => SendsOk
  | AtPause => ControlChanged
  | AtSelect => DoneChanged
  | _ => Proceed
  end.

Definition steps_left s : nat :=
  match Session.phase s with
  | Connecting => 7
  | Starting | AtPause | Delivering _ _ => 6
  | AtTop => 5
  | AtClaim => 4
  | AtRefill => 3
  | AtSelect => 2
  | Leaving _ => 1
  | Ended _ => 0
  end.

(** Neither waiting for its connection or for a control call, nor crashed. *)
Definition released sh s : Prop :=
  match Session.phase s with
  | Connecting | Ended Panic | Leaving Panic => False
  | AtPause => Session.seen s ≠ Shared.control_version sh
  | _ => True
  end.

Section steps.
Context (Hg : Geometry.wf g).

Lemma at_claim_complete sh s :
  PieceTracker.wf (Shared.tracker sh) → PieceTracker.is_complete (Shared.tracker sh) = true →
  (at_claim g sh s).2 = Session.set_phase s AtRefill ∨ (at_claim g sh s).2 = Session.leave s (Ok ()).
Proof using.
  intros Hwf Hc. unfold at_claim. destruct (Session.current s); [by left|].
  destruct (Session.choked s); [by left|].
  destruct (PieceTracker.reserve_piece_Ok _ (Session.peer_has s) Hwf) as [[-> _]|(i & -> & [Hcand _])].
  - rewrite Hc. by right.
  - exfalso. destruct Hcand as (Hi & Hno & _). destruct Hwf as (Hps & Hn & _).
    unfold PieceTracker.is_complete in Hc. rewrite ps_complete_spec in Hc by done.
    rewrite Hc in Hno; [done|by rewrite Hn].
Qed.

Lemma at_refill_phase sh s l :
  inv g sh (s :: l) → Session.phase s = AtRefill →
  Session.phase (at_refill g None s) = AtSelect ∨ ∃ e, Session.phase (at_refill g None s) = Leaving (Err e).
Proof using Hg.
  intros Hinv Hph. destruct (inv_head _ _ _ _ Hinv) as (Hok & _).
  assert (Coordinators.is_fresh s = false) as Hfr by (unfold Coordinators.is_fresh; by rewrite Hph).
  unfold at_refill. destruct (Session.choked s); [by left|].
  destruct (Session.current s) as [asm|] eqn:Hcur; [|by left].
  pose proof Hok as (_ & _ & _ & _ & _ & Hwork & _). unfold work_ok in Hwork. rewrite Hcur in Hwork.
  rewrite Geometry.num_blocks_Ok by (done || apply Hwork).
  by destruct (refill_ok g Hg (Z.to_nat MAX_PIPELINED_REQUESTS) None s asm Hok Hfr Hcur) as (_ & _ & ?).
Qed.

(** One step of its own brings a released task nearer to its end. *)
Lemma unaided_step sh s l :
  inv g sh (s :: l) → Shared.done sh = true → Shared.control sh ≠ Paused → released sh s →
  is_live s = true →
  ∃ sh' s', session_step g sh s (unaided s) = Some (sh', s') ∧
    (steps_left s' < steps_left s)%nat ∧ Shared.done sh' = true ∧ released sh' s'.
Proof using Hg.
  intros Hinv Hd Hctl Hr Hlive. pose proof (inv_done _ _ _ Hinv Hd) as Hc.
  destruct (inv_head _ _ _ _ Hinv) as (_ & Hwf & _).
  unfold released in Hr. unfold is_live in Hlive. unfold unaided, session_step, steps_left at 2.
  destruct (Session.phase s) as [| | | | | | |v c|r|] eqn:Hph; try done.
  - eexists _, _. split; [done|]. cbn. by split; [lia|].
  - unfold at_top. destruct (Shared.control sh) eqn:Hcs; [|done|].
    + eexists _, _. split; [done|]. cbn. by split; [lia|].
    + eexists _, _. split; [done|]. unfold release_current. destruct (Session.current _); cbn; by split; [lia|].
  - rewrite decide_False by done. eexists _, _. split; [done|]. cbn. by split; [lia|].
  - pose proof (at_claim_complete sh s Hwf Hc) as Hp.
    destruct (at_claim g sh s) as [sh' s'] eqn:Hac. cbn in Hp. exists sh', s'. split; [done|].
    split; [destruct Hp as [-> | ->]; cbn; lia|]. split; [|by destruct Hp as [-> | ->]].
    revert Hac. unfold at_claim, start_piece. intros Hac. repeat (case_match; try discriminate Hac); by simplify_eq.
  - destruct (at_refill_phase sh s l Hinv Hph) as [Hp|[e Hp]]; eexists _, _; (split; [done|]);
      unfold steps_left, released; rewrite Hp; by split; [lia|].
  - rewrite Hd. eexists _, _. split; [done|]. cbn. by split; [lia|].
  - unfold after_block. destruct c; eexists _, _; (split; [done|]); cbn; by split; [lia|].
  - destruct r; [| |done]; eexists _, _; (split; [done|]); cbn; by split; [lia|].
Qed.
(** The same for task [k] of the swarm. *)
Lemma unaided_swarm_step w k s :
  swarm_inv g w → Shared.done (swarm_shared w) = true → Shared.control (swarm_shared w) ≠ Paused →
  sessions w !! k = Some s → released (swarm_shared w) s → is_live s = true →
  ∃ w' s', swarm_step g w (Task k (unaided s)) = Some w' ∧ swarm_inv g w' ∧
    sessions w' !! k = Some s' ∧ (steps_left s' < steps_left s)%nat ∧
    Shared.done (swarm_shared w') = true ∧ Shared.control (swarm_shared w') ≠ Paused ∧
    released (swarm_shared w') s'.
Proof using Hg.
  intros Hw Hd Hctl Hk Hr Hlive. pose proof (inv_perm g _ _ _ (delete_Permutation _ _ _ Hk) (proj1 Hw)) as Hinv.
  destruct (unaided_step _ _ _ Hinv Hd Hctl Hr Hlive) as (sh' & s' & Hs & Hlt & Hd' & Hr').
  destruct (session_step_control _ _ _ _ _ Hs) as [Hc _].
  assert (swarm_step g w (Task k (unaided s)) = Some (mk_swarm sh' (<[k:=s']> (sessions w)))) as Hstep
    by (cbn; rewrite Hk; cbn; by rewrite Hs).
  exists (mk_swarm sh' (<[k:=s']> (sessions w))), s'. split; [done|]. cbn [swarm_shared sessions].
  rewrite Hc. split_and!; try done.
  - eapply (swarm_step_inv g Hg); [exact Hw| |exact Hstep]. unfold unaided. cbn. by destruct (Session.phase s).
  - apply list_lookup_insert_eq. by eapply lookup_lt_Some.
Qed.

Definition own_steps (k : nat) (events : list Event) : list Action := Task k <$> events.

(** Nothing that the peer says or the clock does. *)
Definition alone (e : Event) : Prop :=
  match e with Proceed | SendsOk | ControlChanged | DoneChanged => True | _ => False end.

Lemma unaided_alone s : alone (unaided s).
Proof using. unfold unaided. by destruct (Session.phase s). Qed.

Lemma released_end w k s :
  swarm_inv g w → Shared.done (swarm_shared w) = true → Shared.control (swarm_shared w) ≠ Paused →
  sessions w !! k = Some s → released (swarm_shared w) s →
  ∃ events w' s' r, (length events ≤ steps_left s)%nat ∧ Forall alone events ∧
    run_actions g w (own_steps k events) = Some w' ∧ sessions w' !! k = Some s' ∧
    Session.phase s' = Ended r ∧ r ≠ Panic.
Proof using Hg.
  remember (steps_left s) as n eqn:Hn. revert w s Hn. induction (lt_wf n) as [n _ IH].
  intros w s -> Hw Hd Hctl Hk Hr. destruct (is_live s) eqn:Hlive.
  - destruct (unaided_swarm_step w k s Hw Hd Hctl Hk Hr Hlive)
      as (w1 & s1 & Hs & Hw1 & Hk1 & Hlt & Hd1 & Hc1 & Hr1).
    destruct (IH _ Hlt w1 s1 eq_refl Hw1 Hd1 Hc1 Hk1 Hr1) as (es & w' & s' & r & Hlen & Hes & Hrun & ?).
    exists (unaided s :: es), w', s', r. cbn [length own_steps fmap list_fmap run_actions].
    split; [lia|]. split; [constructor; [apply unaided_alone|done]|]. rewrite Hs. done.
  - unfold is_live in Hlive. unfold released in Hr.
    destruct (Session.phase s) as [| | | | | | | | |r] eqn:Hph; try done.
    exists [], w, s, r. split_and!; [cbn; lia|constructor|done|done|done|]. by destruct r.
Qed.
End steps.
End completion.


(** ** Properties *)

Section completion_properties.
Context {B A : Type} `{PieceSet B} `{Sha1} `{Countable A}.
Context (geometry : Geometry.t).
Implicit Types (w : Swarm B A) (sh : Shared.t B A) (s : Session.t B A).


(** C32: A paused task hears nothing but control: once it has seen the last control
    call it stays paused whatever the other tasks do, the completion of the
    torrent included, so [run], which joins every task, does not return. *)
Theorem paused_never_woken w k s actions w' :
  sessions w !! k = Some s → Session.phase s = AtPause →
  Session.seen s = Shared.control_version (swarm_shared w) →
  Forall (λ a, ∀ c, a ≠ Control c) actions →
  run_actions geometry w actions = Some w' → sessions w' !! k = Some s.
Proof.
  intros Hk Hph Hseen Ha. revert w Hk Hseen. induction Ha as [|a actions Ha _ IH];
    intros w Hk Hseen; cbn [run_actions]; [by intros [= <-]|].
  intros (w1 & Hs & Hr)%bind_Some. destruct a as [j e|c|]; [|by destruct (Ha c)|]; cbn in Hs.
  - apply bind_Some in Hs as (x & Hj & ([sh1 x1] & Hs & [= <-])%bind_Some).
    destruct (session_step_control geometry _ _ _ _ _ Hs) as [_ Hv].
    apply IH in Hr; [done| |by rewrite Hseen]. cbn [sessions].
    destruct (decide (j = k)) as [->|]; [|by rewrite list_lookup_insert_ne].
    rewrite Hk in Hj. injection Hj as <-. unfold session_step in Hs. rewrite Hph in Hs.
    destruct e; try done. by rewrite decide_True in Hs.
  - injection Hs as <-. by apply IH in Hr.
Qed.
End completion_properties.
