(* ===== verification/Writers.v ===== *)
(** * The disk writer and its channel

    Both front ends and the example hand the verified pieces to a task that
    writes them, over a channel of 64 pieces ([consume_to_disk] in
    [src/main.rs], the writer of [run_pipeline] in [gui/src/main.rs]). The
    writer runs beside the peer tasks: a delivery waits while the channel is
    full, the receiver goes when the writer ends, and the channel closes when
    the last sender is gone. [Download.step] is that system. The lemmas keep
    what the writer has taken equal to what is on disk. *)

From S2P Require Export Coordinators Disks.

(** The capacity of [mpsc::channel]. *)
Definition CHANNEL : nat := 64.

(** ** The writer *)

(** How many of the pieces sent it has taken, and its result once it has
    ended. *)
Module Writer.
Record t : Type := mk { storage : DiskStorage.t; taken : nat; outcome : option (result ()) }.

Definition start (st : DiskStorage.t) : t := mk st 0 None.

Definition finish_with {A} (x : t) (n : nat) (r : result A) : t :=
  mk (storage x) n (Some (r ≫= λ _, Ok ())).

(** One turn: take and write a piece, or, when the channel is [closed] and
    empty, flush. *)
Definition step (sent : list VerifiedPiece.t) (closed : bool) (x : t) (w : World)
  : option (t * World) :=
  match outcome x, sent !! taken x with
  | Some _, _ => None
  | None, Some v =>
      Some (match DiskStorage.write_piece (storage x) (VerifiedPiece.index v) (VerifiedPiece.data v) w with
            | (Ok s, w') => (mk s (S (taken x)) None, w')
            | (r, w') => (finish_with x (S (taken x)) r, w')
            end)
  | None, None =>
      if closed
      then let '(r, w') := DiskStorage.finish (storage x) w in Some (finish_with x (taken x) r, w')
      else None
  end.
End Writer.

(** ** The channel *)

Section channel.
Context {B A : Type} `{Countable A}.
Implicit Types (w : Swarm B A) (wr : Writer.t).

(** It holds 64 pieces and its receiver exists. *)
Definition channel_full w wr : bool :=
  Shared.rx_open (swarm_shared w) &&
  (CHANNEL <=? length (Shared.sent (swarm_shared w)) - Writer.taken wr)%nat.

(** Task [k] is in [completed.send(..)] and has to wait. *)
Definition blocked w wr (k : nat) : bool :=
  channel_full w wr &&
  match sessions w !! k with
  | Some s => match Session.phase s with Delivering _ _ => true | _ => false end
  | None => false
  end.

(** The senders are the tasks: [run] drops its own. *)
Definition senders_gone w : bool := forallb (λ s, negb (is_live s)) (sessions w).
End channel.

(** ** A download *)

Module Download.
Record t (B A : Type) `{Countable A} : Type := mk {
  swarm : Swarm B A;
  writer : Writer.t;
  world : World;
}.
Arguments mk {B A _ _}.
Arguments swarm {B A _ _}.
Arguments writer {B A _ _}.
Arguments world {B A _ _}.

Inductive Turn : Type :=
  | Peers (a : Action)      (* a step of the swarm, or a control command *)
  | Write.

Section download.
Context {B A : Type} `{PieceSet B} `{Sha1} `{Countable A}.
Context (geometry : Geometry.t).
Implicit Types (x : t B A).

Definition sent x : list VerifiedPiece.t := Shared.sent (swarm_shared (swarm x)).

Definition waits x (a : Action) : bool :=
  match a with Task k _ => blocked (swarm x) (writer x) k | Control _ => false | CloseReceiver => true end.

(** The receiver goes with the writer. *)
Definition step x (t : Turn) : option (Download.t B A) :=
  match t with
  | Peers a =>
      if waits x a then None
      else w ← swarm_step geometry (swarm x) a; Some (mk w (writer x) (world x))
  | Write =>
      '(wr, d) ← Writer.step (sent x) (senders_gone (swarm x)) (writer x) (world x);
      w ← match Writer.outcome wr with
          | Some _ => swarm_step geometry (swarm x) CloseReceiver
          | None => Some (swarm x)
          end;
      Some (mk w wr d)
  end.

Definition turn_ok (t : Turn) : Prop := match t with Peers a => action_ok a | Write => True end.

Fixpoint run x (ts : list Turn) : option (Download.t B A) :=
  match ts with
  | [] => Some x
  | t :: ts' => x' ← step x t; run x' ts'
  end.

(** The tasks of [peers] and a writer that has taken nothing. *)
Definition start (st : DiskStorage.t) (sh : Shared.t B A) (peers : list A) (w : World) : Download.t B A :=
  mk (run_tasks geometry sh peers) (Writer.start st) w.
End download.
End Download.

(** ** What a step adds to the channel *)

Section sending.
Context {B A : Type} `{PieceSet B} `{Sha1} `{Countable A}.
Context (g : Geometry.t).
Implicit Types (sh : Shared.t B A) (s : Session.t B A) (w : Swarm B A).

(** Only a delivering task adds to what was sent, and none closes the receiver. *)
Lemma session_step_sent sh s e sh' s' :
  session_step g sh s e = Some (sh', s') →
  Shared.rx_open sh' = Shared.rx_open sh ∧
  (Shared.sent sh' = Shared.sent sh ∨
   ∃ v c, Session.phase s = Delivering v c ∧ Shared.sent sh' = Shared.sent (Shared.send sh v)).
Proof using.
  intros Hs. destruct (Session.phase s) eqn:Hph.
  8:{ unfold session_step in Hs. rewrite Hph in Hs. destruct e; try done. unfold after_block in Hs.
      destruct complete; injection Hs as <- _; (split; [done|right; eauto]). }
  all: unfold session_step, at_top, at_claim, start_piece, on_recv, on_message, on_have,
    on_bitfield, on_piece, after_block, cleanup, release_current in Hs; rewrite Hph in Hs.
  all: repeat (case_match; try discriminate Hs); simplify_eq; (split; [done|by left]).
Qed.

Lemma session_step_prefix sh s e sh' s' :
  session_step g sh s e = Some (sh', s') →
  Shared.rx_open sh' = Shared.rx_open sh ∧ Shared.sent sh `prefix_of` Shared.sent sh' ∧
  (Shared.rx_open sh = false → Shared.sent sh' = Shared.sent sh).
Proof using.
  intros Hs. destruct (session_step_sent _ _ _ _ _ Hs) as [Hrx [Hsent|(v & c & _ & Hsent)]];
    rewrite Hsent, Hrx; [done|]. cbn [Shared.send Shared.sent].
  destruct (Shared.rx_open sh); split_and!; try done. by apply prefix_app_r.
Qed.

Lemma swarm_step_prefix w a w' :
  a ≠ CloseReceiver → swarm_step g w a = Some w' →
  Shared.rx_open (swarm_shared w') = Shared.rx_open (swarm_shared w) ∧
  Shared.sent (swarm_shared w) `prefix_of` Shared.sent (swarm_shared w') ∧
  (Shared.rx_open (swarm_shared w) = false → Shared.sent (swarm_shared w') = Shared.sent (swarm_shared w)).
Proof using.
  intros Ha Hs. destruct a as [k e|c|]; cbn [swarm_step] in Hs; [|injection Hs as <-; cbn; by destruct (existsb _ _)|done].
  apply bind_Some in Hs as (s & _ & ([sh' s'] & Hs & [= <-])%bind_Some).
  by eapply session_step_prefix.
Qed.

(** With every task ended only the control state can still change. *)
Lemma ended_step w a w' :
  senders_gone w = true → a ≠ CloseReceiver → swarm_step g w a = Some w' →
  Shared.tracker (swarm_shared w') = Shared.tracker (swarm_shared w) ∧
  Shared.sent (swarm_shared w') = Shared.sent (swarm_shared w) ∧ sessions w' = sessions w.
Proof using.
  intros Hgone Ha Hs. destruct a as [k e|c|]; cbn [swarm_step] in Hs; [|injection Hs as <-; cbn; by destruct (existsb _ _)|done].
  apply bind_Some in Hs as (s & Hk & ([sh' s'] & Hs & [= <-])%bind_Some).
  unfold senders_gone in Hgone. rewrite forallb_forall in Hgone.
  specialize (Hgone s (proj1 (list_elem_of_In _ _) (list_elem_of_lookup_2 _ _ _ Hk))).
  unfold is_live in Hgone. unfold session_step in Hs. by destruct (Session.phase s).
Qed.
End sending.

(** ** What is on disk *)

Section written.
Context (g : Geometry.t) (Hg : Geometry.wf g) (files : list MappedFile.t) (w0 : World).
Implicit Types (v : VerifiedPiece.t) (wr : Writer.t) (sent : list VerifiedPiece.t).

Definition deliverable v : Prop :=
  0 ≤ VerifiedPiece.index v < Geometry.num_pieces g ∧
  Z.of_nat (length (VerifiedPiece.data v)) = Geometry.piece_size g (VerifiedPiece.index v).

Definition on_disk (l : list byte) v : Prop := piece_bytes g l (VerifiedPiece.index v) = VerifiedPiece.data v.

(** The pieces taken are in the files. *)
Definition writing sent wr (d : gmap str (list byte)) : Prop :=
  DiskStorage.geometry (Writer.storage wr) = g ∧ DiskStorage.files (Writer.storage wr) = files ∧
  ∃ cs, consistent (Writer.storage wr) d cs ∧ Forall (on_disk (concat cs)) (take (Writer.taken wr) sent).

(** The writer ends well with everything written, and otherwise with an error
    of the system. *)
Definition writer_ok sent wr (w : World) : Prop :=
  match Writer.outcome wr with
  | None => writing sent wr (disk w) ∧ (faults w0 = [] → faults w = [])
  | Some (Ok _) => (writing sent wr (disk w) ∧ (length sent ≤ Writer.taken wr)%nat) ∧
                   (faults w0 = [] → faults w = [])
  | Some (Err e) => e = Io ∧ faults w0 ≠ []
  | Some Panic => False
  end.

Lemma take_piece sent v wr (w : World) :
  writing sent wr (disk w) → sent !! Writer.taken wr = Some v →
  Forall deliverable sent → NoDup (VerifiedPiece.index <$> sent) →
  wp (DiskStorage.write_piece (Writer.storage wr) (VerifiedPiece.index v) (VerifiedPiece.data v))
    (λ st d, writing sent (Writer.mk st (S (Writer.taken wr)) None) d) w.
Proof using Hg.
  intros (Hgeo & Hfiles & cs & Hst & Hon) Hv Hdel Hnd.
  rewrite Forall_forall in Hdel.
  destruct (Hdel v (list_elem_of_lookup_2 _ _ _ Hv)) as [Hi Hlen].
  pose proof (consistent_length _ _ _ Hst) as Hl. rewrite Hgeo in Hl.
  eapply wp_mono; [apply (write_piece_wp _ _ _ cs w Hst); by rewrite Hgeo|].
  intros st d (Hgeo' & Hfiles' & (cs' & Hst' & Hcs') & _). rewrite Hgeo in *.
  split; [done|]. split; [cbn; congruence|]. exists cs'. split; [done|].
  cbn [Writer.taken]. rewrite (take_S_r _ _ v) by done. rewrite Hcs'. unfold on_disk.
  apply Forall_app. split; [|constructor; [|done]].
  - rewrite Forall_forall in Hon |- *. intros u Hu. specialize (Hon u Hu).
    apply list_elem_of_lookup in Hu as [k Hk]. apply lookup_take_Some in Hk as [Hk Hlt].
    destruct (Hdel u (list_elem_of_lookup_2 _ _ _ Hk)) as [Hiu _].
    rewrite (piece_bytes_write g Hg) by done. rewrite decide_False; [done|]. intros Heq.
    enough (Writer.taken wr = k) by lia.
    apply (NoDup_lookup _ _ _ (VerifiedPiece.index v) Hnd); rewrite list_lookup_fmap;
      [by rewrite Hv|by rewrite Hk; cbn; rewrite Heq].
  - rewrite (piece_bytes_write g Hg) by done. by rewrite decide_True.
Qed.

(** From a [wp] to what the writer keeps. *)
Lemma outcome_kept {T : Type} (m : io T) (Q : T → gmap str (list byte) → Prop) (w : World) :
  wp m Q w → (faults w0 = [] → faults w = []) →
  match m w with
  | (Ok a, w') => Q a (disk w') ∧ (faults w0 = [] → faults w' = [])
  | (Err e, _) => e = Io ∧ faults w0 ≠ []
  | (Panic, _) => False
  end.
Proof using. unfold wp. intros Hm Hw. destruct (m w) as [[a|e|] w']; naive_solver. Qed.

Lemma writer_step_ok sent closed wr (w : World) wr' (w' : World) :
  Forall deliverable sent → NoDup (VerifiedPiece.index <$> sent) →
  writer_ok sent wr w → Writer.step sent closed wr w = Some (wr', w') →
  writer_ok sent wr' w' ∧ Writer.outcome wr = None ∧
  (Writer.outcome wr' = None → Writer.taken wr' = S (Writer.taken wr)) ∧
  (Writer.taken wr ≤ length sent → Writer.taken wr' ≤ length sent)%nat ∧
  (∀ u, Writer.outcome wr' = Some (Ok u) → closed = true).
Proof using Hg.
  intros Hdel Hnd Hok Hstep. unfold Writer.step, writer_ok in *.
  destruct (Writer.outcome wr) eqn:Ho; [done|]. destruct Hok as [Hw Hf].
  destruct (sent !! Writer.taken wr) as [v|] eqn:Hv.
  - pose proof (lookup_lt_Some _ _ _ Hv).
    pose proof (outcome_kept _ _ _ (take_piece sent v wr w Hw Hv Hdel Hnd) Hf) as Hp.
    injection Hstep as Hstep.
    destruct (DiskStorage.write_piece _ _ _ w) as [[st'|e|] w1]; [|destruct Hp|done];
      injection Hstep as <- <-; cbn; done.
  - apply lookup_ge_None in Hv. destruct closed; [|done].
    assert (wp (DiskStorage.finish (Writer.storage wr)) (λ _ d, writing sent wr d) w) as Hwp
      by by apply flush_all_wp.
    pose proof (outcome_kept _ _ _ Hwp Hf) as Hp.
    destruct (DiskStorage.finish (Writer.storage wr) w) as [[[]|e|] w1]; [|destruct Hp|done];
      injection Hstep as <- <-; cbn; [|done]. destruct Hp as [Hp ?].
    split; [|done]. split; [|done]. by split; [exact Hp|].
Qed.

(** With every piece of a content written, the files are the content. *)
Lemma written_content sent wr d (content : list byte) :
  writing sent wr d → (length sent ≤ Writer.taken wr)%nat →
  Z.of_nat (length content) = Geometry.total_length g → Forall deliverable sent →
  Forall (λ v, VerifiedPiece.data v = piece_bytes g content (VerifiedPiece.index v)) sent →
  (∀ i, 0 ≤ i < Geometry.num_pieces g → i ∈ VerifiedPiece.index <$> sent) →
  ∃ cs, stored d files cs ∧ concat cs = content.
Proof using Hg.
  intros (Hgeo & Hfiles & cs & Hst & Hon) Htaken Hlen Hdel Hdata Hall. exists cs.
  pose proof (consistent_length _ _ _ Hst) as Hl. rewrite Hgeo in Hl.
  split; [destruct Hst as (_ & _ & _ & _ & _ & _ & Hst); by rewrite <-Hfiles|].
  rewrite take_ge in Hon by done.
  apply (agrees_all g Hg content _ (VerifiedPiece.index <$> sent)); [done..| |done].
  intros i Hi. apply list_elem_of_fmap in Hi as (v & -> & Hv).
  rewrite Forall_forall in Hon, Hdata, Hdel. rewrite <-Hdata by done. split; [by apply Hdel|by apply Hon].
Qed.
End written.

(** ** The invariant of a download *)

Section download.
Context {B A : Type} `{PieceSet B} `{Sha1} `{Countable A}.
Context (g : Geometry.t) (Hg : Geometry.wf g) (files : list MappedFile.t) (w0 : World).
Implicit Types (x : Download.t B A) (w : Swarm B A).

Lemma sent_deliverable w :
  swarm_inv g w →
  Forall (deliverable g) (Shared.sent (swarm_shared w)) ∧
  NoDup (VerifiedPiece.index <$> Shared.sent (swarm_shared w)).
Proof using.
  intros Hw. destruct (sent_ok g w Hw) as [Hnd Hd]. split; [|done].
  eapply Forall_impl; [exact Hd|]. intros v (Hi & Hl & _). by split.
Qed.

Lemma ended_pending w : senders_gone w = true → Forall (λ s, pending s = []) (sessions w).
Proof using.
  intros Hgone. apply Forall_forall. intros s Hs. unfold senders_gone in Hgone.
  rewrite forallb_forall in Hgone. specialize (Hgone s (proj1 (list_elem_of_In _ _) Hs)).
  unfold is_live in Hgone. unfold pending. by destruct (Session.phase s).
Qed.

(** Complete, with every task ended and the receiver there: all was sent. *)
Lemma gone_all_sent w :
  swarm_inv g w → Shared.rx_open (swarm_shared w) = true → senders_gone w = true →
  PieceTracker.is_complete (Shared.tracker (swarm_shared w)) = true →
  ∀ i, 0 ≤ i < Geometry.num_pieces g → i ∈ VerifiedPiece.index <$> Shared.sent (swarm_shared w).
Proof using Hg.
  intros Hw Hrx Hgone Hcomp i Hi.
  rewrite (completed_sent g Hg w Hw Hrx (ended_pending w Hgone) Hcomp).
  apply list_elem_of_fmap. exists (Z.to_nat i). split; [lia|]. apply elem_of_seq.
  unfold pieces, num_pieces. lia.
Qed.

Record download_ok x : Prop := {
  dl_inv : swarm_inv g (Download.swarm x);
  dl_taken : (Writer.taken (Download.writer x) ≤ length (Download.sent x))%nat;
  dl_open : Shared.rx_open (swarm_shared (Download.swarm x)) =
            bool_decide (Writer.outcome (Download.writer x) = None);
  dl_writer : writer_ok g files w0 (Download.sent x) (Download.writer x) (Download.world x);
  dl_done u : Writer.outcome (Download.writer x) = Some (Ok u) →
    senders_gone (Download.swarm x) = true ∧
    (PieceTracker.is_complete (Shared.tracker (swarm_shared (Download.swarm x))) = true →
     ∀ i, 0 ≤ i < Geometry.num_pieces g → i ∈ VerifiedPiece.index <$> Download.sent x);
}.

Lemma peers_turn_ok x a x' :
  download_ok x → action_ok a → Download.step g x (Download.Peers a) = Some x' → download_ok x'.
Proof using Hg.
  intros [Hinv Htaken Hopen Hwr Hdone] Ha Hstep. cbn [Download.step] in Hstep.
  assert (a ≠ CloseReceiver) as Hne by (intros ->; done).
  destruct (Download.waits x a); [done|]. apply bind_Some in Hstep as (w & Hs & [= <-]).
  destruct (swarm_step_prefix g _ _ _ Hne Hs) as (Hrx & [more Hmore] & Hclosed).
  unfold Download.sent in *. constructor; cbn [Download.swarm Download.writer Download.world];
    unfold Download.sent; cbn [Download.swarm].
  - by eapply swarm_step_inv.
  - rewrite Hmore, length_app. lia.
  - by rewrite Hrx.
  - unfold writer_ok in *. rewrite Hopen in Hclosed.
    destruct (Writer.outcome (Download.writer x)) as [[u| |]|]; [by rewrite Hclosed|done..|].
    unfold writing in *. rewrite Hmore, take_app_le by done. exact Hwr.
  - intros u Hu. destruct (Hdone u Hu) as [Hgone Hall].
    destruct (ended_step g _ _ _ Hgone Hne Hs) as (Ht & Hsent & Hss).
    unfold senders_gone in *. by rewrite Ht, Hsent, Hss.
Qed.

Lemma write_turn_ok x x' :
  download_ok x → Download.step g x Download.Write = Some x' → download_ok x'.
Proof using Hg.
  intros [Hinv Htaken Hopen Hwr Hdone] Hstep. cbn [Download.step] in Hstep.
  apply bind_Some in Hstep as ([wr d] & Hw & Hstep). apply bind_Some in Hstep as (w & Hn & [= <-]).
  destruct (sent_deliverable _ Hinv) as [Hdel Hnd].
  destruct (writer_step_ok g Hg files w0 _ _ _ _ wr d Hdel Hnd Hwr Hw) as (Hok & Ho & _ & Htk & Hgone).
  rewrite Ho in Hopen. cbn in Hopen.
  destruct (Writer.outcome wr) as [r|] eqn:Hr.
  - injection Hn as <-. constructor; cbn [Download.swarm Download.writer Download.world]; unfold Download.sent in *;
      cbn [Download.swarm].
    + by apply (swarm_step_inv g Hg _ CloseReceiver _ Hinv).
    + by apply Htk.
    + by rewrite Hr.
    + done.
    + intros u Hu. rewrite Hr in Hu. injection Hu as ->. specialize (Hgone u eq_refl).
      split; [done|]. cbn. intros Hcomp. by apply gone_all_sent.
  - injection Hn as <-. constructor; cbn [Download.swarm Download.writer Download.world]; unfold Download.sent in *;
      cbn [Download.swarm]; [done|by apply Htk|by rewrite Hr|done|by rewrite Hr].
Qed.

Lemma download_run_ok ts x x' :
  download_ok x → Forall Download.turn_ok ts → Download.run g x ts = Some x' → download_ok x'.
Proof using Hg.
  intros Hx Hts. revert x Hx. induction Hts as [|t ts Ht _ IH]; intros x Hx; cbn [Download.run].
  { by intros [= <-]. }
  intros (x1 & Hs & Hrun)%bind_Some. apply (IH x1); [|done].
  destruct t as [a|]; [by eapply peers_turn_ok|by eapply write_turn_ok].
Qed.

(** The swarm of a download goes through reachable states. *)
Lemma download_reachable ts x x' :
  Forall Download.turn_ok ts → Download.run g x ts = Some x' →
  reachable g (Download.swarm x) (Download.swarm x').
Proof using.
  intros Hts. revert x. induction Hts as [|t ts Ht _ IH]; intros x; cbn [Download.run].
  { intros [= <-]. apply rtc_refl. }
  intros (x1 & Hs & Hrun)%bind_Some. destruct t as [a|]; cbn [Download.step] in Hs.
  - destruct (Download.waits x a); [done|]. apply bind_Some in Hs as (w & Hs & [= <-]).
    eapply rtc_l; [by exists a|]. exact (IH _ Hrun).
  - apply bind_Some in Hs as ([wr d] & _ & Hs). apply bind_Some in Hs as (w & Hs & [= <-]).
    specialize (IH _ Hrun). destruct (Writer.outcome wr); [|by injection Hs as <-].
    eapply rtc_l; [by exists CloseReceiver|]. exact IH.
Qed.

Lemma download_start_ok st sh peers (w : World) :
  initial g sh → Shared.rx_open sh = true → Z.of_nat (length peers) + 1 < 2 ^ 32 →
  DiskStorage.geometry st = g → DiskStorage.files st = files → (∃ cs, consistent st (disk w) cs) →
  (faults w0 = [] → faults w = []) →
  download_ok (Download.start g st sh peers w).
Proof using Hg.
  intros Hi Hrx Hlen Hgeo Hfiles [cs Hcs] Hf. constructor; try done.
  - by apply run_tasks_inv.
  - cbn. lia.
  - split; [|done]. split; [done|]. split; [done|]. exists cs. by split; [|constructor].
Qed.

(** A complete download whose writer ended well is on disk. *)
Lemma download_on_disk x u :
  download_ok x → Writer.outcome (Download.writer x) = Some (Ok u) →
  PieceTracker.is_complete (Shared.tracker (swarm_shared (Download.swarm x))) = true →
  ∃ cs, stored (disk (Download.world x)) files cs ∧
    ∀ i, 0 ≤ i < Geometry.num_pieces g →
      PieceTracker.verify (Shared.tracker (swarm_shared (Download.swarm x))) i
        (piece_bytes g (concat cs) i) = true.
Proof using.
  intros [Hinv _ _ Hwr Hdone] Ho Hcomp. unfold writer_ok in Hwr. rewrite Ho in Hwr.
  destruct Hwr as [[(_ & <- & cs & Hst & Hon) Htk] _].
  exists cs. split; [by destruct Hst as (_ & _ & _ & _ & _ & _ & Hst)|].
  intros i Hi. pose proof (proj2 (Hdone u Ho) Hcomp i Hi) as Hin.
  apply list_elem_of_fmap in Hin as (v & -> & Hv).
  rewrite take_ge in Hon by done. rewrite Forall_forall in Hon. rewrite (Hon v Hv).
  destruct (sent_ok g _ Hinv) as [_ Hd]. rewrite Forall_forall in Hd. by destruct (Hd v Hv) as (_ & _ & ? & _).
Qed.

(** A delivery that waits, waits for a writer that can move; and so does the
    end of the download. *)
Lemma writer_moves x k :
  download_ok x →
  blocked (Download.swarm x) (Download.writer x) k = true ∨
  senders_gone (Download.swarm x) = true ∧ Writer.outcome (Download.writer x) = None →
  ∃ x', Download.step g x Download.Write = Some x'.
Proof using.
  intros [_ _ Hopen _ _] Hor. cbn [Download.step].
  assert (∃ wr d, Writer.step (Download.sent x) (senders_gone (Download.swarm x)) (Download.writer x)
    (Download.world x) = Some (wr, d)) as (wr & d & ->).
  { unfold Writer.step. destruct Hor as [Hb|[Hgone Ho]].
    - apply andb_true_iff in Hb as [Hfull _]. apply andb_true_iff in Hfull as [Hrx Hn%Nat.leb_le].
      rewrite Hopen in Hrx. apply bool_decide_eq_true in Hrx as ->.
      destruct (lookup_lt_is_Some_2 (Download.sent x) (Writer.taken (Download.writer x))) as [v ->].
      { unfold CHANNEL, Download.sent in *. lia. }
      destruct (DiskStorage.write_piece _ _ _ _) as [[?|?|] ?]; eauto.
    - rewrite Ho, Hgone. destruct (Download.sent x !! _).
      + destruct (DiskStorage.write_piece _ _ _ _) as [[?|?|] ?]; eauto.
      + destruct (DiskStorage.finish _ _); eauto. }
  cbn. destruct (Writer.outcome wr); cbn; eauto.
Qed.

(** *** The writer's turns are bounded *)

Lemma sent_bound w :
  swarm_inv g w → Z.of_nat (length (Shared.sent (swarm_shared w))) ≤ Geometry.num_pieces g.
Proof using Hg.
  intros Hw. destruct Hg as (_ & Hn & _). destruct (sent_deliverable w Hw) as [Hd Hnd].
  assert (VerifiedPiece.index <$> Shared.sent (swarm_shared w)
    ⊆+ Z.of_nat <$> seq 0 (Z.to_nat (Geometry.num_pieces g))) as Hsub.
  { apply NoDup_submseteq; [done|]. intros i (v & -> & Hv)%list_elem_of_fmap.
    rewrite Forall_forall in Hd. destruct (Hd v Hv) as ([? Hi] & _). apply list_elem_of_fmap.
    exists (Z.to_nat (VerifiedPiece.index v)). split; [lia|]. apply elem_of_seq. lia. }
  apply submseteq_length in Hsub. rewrite !length_fmap, length_seq in Hsub. lia.
Qed.

Definition writes_left (wr : Writer.t) : Z :=
  match Writer.outcome wr with
  | None => 1 + Geometry.num_pieces g - Z.of_nat (Writer.taken wr)
  | Some _ => 0
  end.

Lemma writes_left_nonneg x : download_ok x → 0 ≤ writes_left (Download.writer x).
Proof using Hg.
  intros [Hinv Htk _ _ _]. pose proof (sent_bound _ Hinv). unfold writes_left, Download.sent in *.
  destruct (Writer.outcome _); lia.
Qed.

Lemma write_turn_left x x' :
  download_ok x → Download.step g x Download.Write = Some x' →
  writes_left (Download.writer x') < writes_left (Download.writer x).
Proof using Hg.
  intros [Hinv Htk _ Hwr _] Hstep. pose proof (sent_bound _ Hinv) as Hb.
  destruct (sent_deliverable _ Hinv) as [Hdel Hnd]. cbn [Download.step] in Hstep.
  apply bind_Some in Hstep as ([wr d] & Hw & Hstep). apply bind_Some in Hstep as (w & _ & [= <-]).
  destruct (writer_step_ok g Hg files w0 _ _ _ _ wr d Hdel Hnd Hwr Hw) as (_ & Ho & Hnext & Htk' & _).
  specialize (Htk' Htk). unfold writes_left, Download.sent in *. cbn [Download.writer]. rewrite Ho.
  destruct (Writer.outcome wr); [lia|]. rewrite Hnext by done. lia.
Qed.

Definition is_write (t : Download.Turn) : bool := match t with Download.Write => true | _ => false end.

Lemma run_writes ts x x' :
  download_ok x → Forall Download.turn_ok ts → Download.run g x ts = Some x' →
  Z.of_nat (length (filter (λ t, is_write t = true) ts)) + writes_left (Download.writer x') ≤
  writes_left (Download.writer x).
Proof using Hg.
  intros Hx Hts. revert x Hx. induction Hts as [|t ts Ht _ IH]; intros x Hx; cbn [Download.run].
  { intros [= <-]. rewrite filter_nil. cbn. lia. }
  intros (x1 & Hs & Hrun)%bind_Some. rewrite filter_cons. destruct t as [a|]; cbn [is_write].
  - rewrite decide_False by done. assert (Download.writer x1 = Download.writer x) as <-.
    { cbn [Download.step] in Hs. destruct (Download.waits x a); [done|].
      by apply bind_Some in Hs as (w & _ & [= <-]). }
    apply IH; [by eapply peers_turn_ok|done].
  - rewrite decide_True by done. cbn [length]. pose proof (write_turn_left _ _ Hx Hs).
    specialize (IH x1 ltac:(by eapply write_turn_ok) Hrun). lia.
Qed.
End download.

(** C22: The disk writer is never in the way. In any run of a download, whatever the
    peers send and the user commands, the writer has at most one turn per piece
    and one for the end; a delivery that waits on a full channel waits for a
    writer that can move; and once every peer task has ended, the writer can
    move until it has its result. *)
Theorem writer_never_stuck {B A : Type} `{PieceSet B} `{Sha1} `{Countable A} g st cs
    (sh : Shared.t B A) peers w ts x :
  Geometry.wf g → initial g sh → Shared.rx_open sh = true → Z.of_nat (length peers) + 1 < 2 ^ 32 →
  DiskStorage.geometry st = g → consistent st (disk w) cs →
  Forall Download.turn_ok ts → Download.run g (Download.start g st sh peers w) ts = Some x →
  Z.of_nat (length (filter (λ t, is_write t = true) ts)) ≤ Geometry.num_pieces g + 1 ∧
  (∀ k, blocked (Download.swarm x) (Download.writer x) k = true →
     ∃ x', Download.step g x Download.Write = Some x') ∧
  (senders_gone (Download.swarm x) = true → Writer.outcome (Download.writer x) = None →
     ∃ x', Download.step g x Download.Write = Some x').
Proof.
  intros Hg Hi Hrx Hlen Hgeo Hcs Hts Hrun.
  assert (download_ok g (DiskStorage.files st) w (Download.start g st sh peers w)) as Hx
    by (apply download_start_ok; eauto).
  pose proof (download_run_ok g Hg _ _ _ _ _ Hx Hts Hrun) as Hx'.
  pose proof (run_writes g Hg _ _ _ _ _ Hx Hts Hrun) as Hw.
  pose proof (writes_left_nonneg g Hg _ _ _ Hx'). split.
  { unfold writes_left in Hw at 2. cbn in Hw. lia. }
  split; intros; eapply writer_moves; eauto.
  Unshelve. exact 0%nat.
Qed.
