(* ===== verification/Seeders.v ===== *)
(** * A seeder, and a download from it ([examples/loopback_download.rs])

    [run_seeder] of the example (the tests of [src/download/mod.rs] have a twin)
    advertises every piece, unchokes, and answers each request with the slice
    of its data. It is put at the other end of the connection of one task of a
    swarm; the other tasks and their peers do what they like. The messages
    between the two travel in order. A bound on the moves of this pair, and the
    lack of a state in which the pair is stuck before the download is complete,
    make the liveness of the engine. *)

From S2P Require Export Writers.

(** ** The seeder *)

(** Every bit set, one after the other. *)
Definition full_bitfield (num_pieces : nat) : Bitfield.t :=
  foldl Bitfield.set (Bitfield.new num_pieces) (seq 0 num_pieces).

Module Seeder.
Record t : Type := mk {
  (** What it sends before it reads, and what is on its way to the client. *)
  to_send : list Message;
  in_transit : list Message;
  (** How many of the client's messages it has read, and whether it runs. *)
  read : nat;
  up : bool;
}.

Definition start (num_pieces : nat) : t :=
  mk [Bitfield (Bitfield.to_message_bytes (full_bitfield num_pieces)); Unchoke] [] 0 true.

(** One turn of a peer that replies to a message with [answer]; [outbox] is what
    the client has sent so far. *)
Definition turn (answer : Message → result (list Message)) (outbox : list Message) (x : t) : option t :=
  if up x then
    match to_send x with
    | m :: ms => Some (mk ms (in_transit x ++ [m]) (read x) true)
    | [] =>
        m ← outbox !! read x;
        match answer m with
        | Ok ms => Some (mk [] (in_transit x ++ ms) (S (read x)) true)
        | _ => Some (mk [] (in_transit x) (S (read x)) false)
        end
    end
  else None.

Section seeder.
Context (piece_len : Z) (data : list byte).

(** [&data[start..end]]; [usize] has 64 bits. *)
Definition block_for (bi : BlockInfo.t) : result (list byte) :=
  first ← mul_w 64 (BlockInfo.index bi) piece_len;
  start ← add_w 64 first (BlockInfo.begin bi);
  end_ ← add_w 64 start (BlockInfo.length bi);
  slice_r (Z.to_nat start) (Z.to_nat end_) data.

(** Requests are answered, everything else is ignored. *)
Definition answer (m : Message) : result (list Message) :=
  match m with
  | Request bi =>
      d ← block_for bi;
      Ok [Piece (Block.mk (BlockInfo.index bi) (BlockInfo.begin bi) d)]
  | _ => Ok []
  end.

Definition step (outbox : list Message) (x : t) : option t := turn answer outbox x.
End seeder.
End Seeder.

(** ** A swarm with a seeder *)

Record Net (A : Type) `{Countable A} : Type := mk_net {
  swarm : Swarm Bitfield.t A;
  seeder : Seeder.t;
}.
Arguments mk_net {A _ _}.
Arguments swarm {A _ _}.
Arguments seeder {A _ _}.

Inductive Move : Type :=
  | Serve                      (* the seeder's turn *)
  | Receive                    (* its task gets the next message *)
  | Own (e : Event)            (* another step of its task *)
  | Other (a : Action).        (* the rest of the swarm *)

(** The moves of the seeder and its task. *)
Definition own (m : Move) : bool := match m with Other _ => false | _ => true end.

(** The task connects, its sends succeed, and it is not kept waiting past the
    timeout; nobody pauses or cancels. *)
Definition own_event (e : Event) : bool :=
  match e with Connected (Ok _) | Proceed | SendsOk | DoneChanged => true | _ => false end.

Definition other_action (k : nat) (a : Action) : bool :=
  match a with Task j _ => negb (j =? k)%nat | Control _ => false | CloseReceiver => true end.

Section net.
Context {A : Type} `{Sha1} `{Countable A}.
Context (geometry : Geometry.t) (data : list byte) (k : nat).
Implicit Types (w : Net A) (sh : Shared.t Bitfield.t A) (s : Session.t Bitfield.t A).

(** [listener.accept()] returns when the task has connected. *)
Definition accepted s : bool := match Session.phase s with Connecting => false | _ => true end.

Definition net_step w (m : Move) : option (Net A) :=
  match m with
  | Serve =>
      s ← sessions (swarm w) !! k;
      if accepted s
      then x ← Seeder.step (Geometry.nominal_length geometry) data (Session.outbox s) (seeder w);
           Some (mk_net (swarm w) x)
      else None
  | Receive =>
      match Seeder.in_transit (seeder w) with
      | m :: ms =>
          w' ← swarm_step geometry (swarm w) (Task k (Received (Ok (Some m))));
          Some (mk_net w' (Seeder.mk (Seeder.to_send (seeder w)) ms (Seeder.read (seeder w))
                             (Seeder.up (seeder w))))
      | [] => None
      end
  | Own e =>
      if own_event e
      then w' ← swarm_step geometry (swarm w) (Task k e); Some (mk_net w' (seeder w))
      else None
  | Other a =>
      if other_action k a
      then w' ← swarm_step geometry (swarm w) a; Some (mk_net w' (seeder w))
      else None
  end.

(** Received messages are typed, as in [action_ok]. *)
Definition move_ok (m : Move) : Prop := match m with Other a => action_ok a | _ => True end.

Fixpoint run_moves w (ms : list Move) : option (Net A) :=
  match ms with
  | [] => Some w
  | m :: ms' => w' ← net_step w m; run_moves w' ms'
  end.

(** The swarm of [peers] about to start, the seeder behind the [k]th. *)
Definition start_net sh (peers : list A) : Net A :=
  mk_net (run_tasks geometry sh peers) (Seeder.start (num_pieces geometry)).
End net.

(** ** What the seeder sends *)

Lemma full_bitfield_spec n :
  Bitfield.wf (full_bitfield n) ∧ Bitfield.num_pieces (full_bitfield n) = n ∧
  ∀ i, (i < n)%nat → Bitfield.has (full_bitfield n) i = true.
Proof.
  unfold full_bitfield.
  assert (∀ is_ b, Bitfield.wf b →
    let b' := foldl Bitfield.set b is_ in
    Bitfield.wf b' ∧ Bitfield.num_pieces b' = Bitfield.num_pieces b ∧
    ∀ i, (i < Bitfield.num_pieces b)%nat → i ∈ is_ ∨ Bitfield.has b i = true → Bitfield.has b' i = true) as Hset.
  { intros is_. induction is_ as [|j is_ IH]; intros b Hb; cbn [foldl].
    - split_and!; [done..|]. intros i _ [?%not_elem_of_nil|?]; done.
    - destruct (IH (Bitfield.set b j) (Bitfield.set_wf b j Hb)) as (? & Hn & Hh).
      rewrite Bitfield.set_num_pieces in Hn, Hh. split_and!; [done..|].
      intros i Hi Hor. apply Hh; [done|]. rewrite Bitfield.has_set by apply Hb.
      destruct Hor as [[->|?]%elem_of_cons|Hor]; [right|by left|right; by rewrite Hor].
      rewrite bool_decide_eq_true_2, (proj2 (Nat.ltb_lt _ _)) by done. apply orb_true_r. }
  destruct (Hset (seq 0 n) (Bitfield.new n) (Bitfield.new_wf n)) as (? & ? & Hh).
  split_and!; [done..|]. intros i Hi. apply Hh; [done|]. left. apply elem_of_seq. lia.
Qed.

(** The client reads the advertised bitfield as full. *)
Lemma full_bitfield_received n :
  ∃ b, ps_from_bytes (Bitfield.to_message_bytes (full_bitfield n)) n = Ok b ∧
    ∀ i, (i < n)%nat → ps_has b i = true.
Proof.
  destruct (full_bitfield_spec n) as ((Hs & _) & Hn & Hh).
  change (ps_from_bytes (Bitfield.to_message_bytes (full_bitfield n)) n)
    with (Bitfield.from_bytes (Bitfield.bytes (full_bitfield n)) n).
  unfold Bitfield.from_bytes. unfold Bitfield.sized in Hs. rewrite Hs, Hn, Nat.eqb_refl.
  eexists. split; [done|]. intros i Hi. rewrite <-(Hh i Hi). rewrite <-Hn at 2.
  by destruct (full_bitfield n).
Qed.

Section serving.
Context (g : Geometry.t) (data : list byte).
Context (Hg : Geometry.wf g) (Hdata : Z.of_nat (length data) = Geometry.total_length g).

(** Block [j] of piece [i], its request and its answer. *)
Definition block (i j : Z) : BlockInfo.t :=
  BlockInfo.mk i (j * BLOCK_SIZE) (Z.min BLOCK_SIZE (Geometry.piece_size g i - j * BLOCK_SIZE)).

Definition piece_message (i j : Z) : Message :=
  Piece (Block.mk i (j * BLOCK_SIZE) (block_data (piece_bytes g data i) (block i j))).

(** A request for a block that exists gets the block's bytes. *)
Lemma answer_request i j :
  Geometry.valid_block g i j →
  Seeder.answer (Geometry.nominal_length g) data (Request (block i j)) = Ok [piece_message i j].
Proof using Hg Hdata.
  intros Hv. pose proof Hv as [Hi _]. pose proof (Geometry.valid_block_begin g Hg i j Hv) as Hb.
  pose proof (Geometry.piece_end_total g Hg i Hi). pose proof (Geometry.piece_size_range g Hg i).
  pose proof Hg as (? & ? & ? & Htot). pose proof BLOCK_SIZE_val as Hbs.
  assert (Geometry.total_length g < 2 ^ 64) by (rewrite Htot; nia).
  cbn [Seeder.answer]. unfold Seeder.block_for, piece_message, block_data, block.
  cbn [BlockInfo.index BlockInfo.begin BlockInfo.length].
  set (n := Z.min BLOCK_SIZE _) in *.
  assert (0 ≤ n ∧ j * BLOCK_SIZE + n ≤ Geometry.piece_size g i) by lia.
  rewrite mul_w_Ok by lia. red_result. rewrite add_w_Ok by lia. red_result.
  rewrite add_w_Ok by lia. red_result. rewrite slice_r_Ok by lia. red_result.
  do 4 f_equal. unfold piece_bytes, piece_start. rewrite slice_slice by lia. f_equal; lia.
Qed.

(** The client takes the answer as the delivery of the block. *)
Lemma deliver_block i j a :
  Geometry.valid_block g i j →
  deliver g i (piece_bytes g data i) a j =
  PieceAssembler.add_block a (j * BLOCK_SIZE) (block_data (piece_bytes g data i) (block i j)).
Proof using Hg. intros Hv. unfold deliver. by rewrite (Geometry.block_info_Ok g Hg i j Hv). Qed.

Lemma block_data_length i j :
  Geometry.valid_block g i j →
  0 < Z.of_nat (length (block_data (piece_bytes g data i) (block i j))) ≤ BLOCK_SIZE.
Proof using Hg Hdata.
  intros Hv. pose proof Hv as [Hi _]. pose proof (Geometry.valid_block_begin g Hg i j Hv) as Hb.
  pose proof (piece_bytes_length g Hg data i Hi Hdata). pose proof BLOCK_SIZE_val.
  unfold block_data, block. cbn [BlockInfo.begin BlockInfo.length]. rewrite slice_length by lia. lia.
Qed.
End serving.
