(* ===== verification/Liveness.v ===== *)
(** * Downloads from a seeder finish

    The swarm of [Seeders], with any other tasks, peers and interleaving. The
    seeder and its task keep a joint invariant ([honest]); [potential] bounds
    how many more moves the two can make together, never grows, and falls with
    each such move; and while the torrent is incomplete one of them can move.
    So a scheduler that does not neglect the two forever completes the download. *)

From S2P Require Export Seeders.

(** ** What a step of a session leaves alone *)

Section frame.
Context {B A : Type} `{PieceSet B} `{Sha1} `{Countable A}.
Context (geometry : Geometry.t).
Implicit Types (sh : Shared.t B A) (s : Session.t B A).

Definition owned_kept (t t' : PieceTracker.t B) : Prop :=
  ∀ i, ps_has (PieceTracker.have t) i = true → ps_has (PieceTracker.have t') i = true.

(** The operator's state, the address, the entries of other peers, and the
    pieces that are owned. *)
Definition framed sh s sh' s' : Prop :=
  Shared.control sh' = Shared.control sh ∧ Session.addr s' = Session.addr s ∧
  (∀ a, a ≠ Session.addr s →
     SwarmStats.peers (Shared.stats sh') !! a = SwarmStats.peers (Shared.stats sh) !! a) ∧
  owned_kept (Shared.tracker sh) (Shared.tracker sh').

Lemma owned_kept_refl (t t' : PieceTracker.t B) :
  PieceTracker.have t' = PieceTracker.have t → owned_kept t t'.
Proof. intros Hh i. by rewrite Hh. Qed.

Lemma reserve_have (t : PieceTracker.t B) p r t' :
  PieceTracker.reserve_piece t p = Ok (r, t') → PieceTracker.have t' = PieceTracker.have t.
Proof.
  unfold PieceTracker.reserve_piece. intros (o & _ & Hr)%bind_Ok_inv.
  destruct o as [x|]; [|by injection Hr as _ <-].
  by apply bind_Ok_inv in Hr as (? & _ & [= _ <-]).
Qed.

Lemma add_availability_have (t : PieceTracker.t B) i t' :
  PieceTracker.add_availability t i = Ok t' → PieceTracker.have t' = PieceTracker.have t.
Proof. unfold PieceTracker.add_availability. case_decide; intros; inv_result; done. Qed.

Lemma handle_block_frame s (t : PieceTracker.t B) blk s' t' v c :
  PieceTracker.wf t → handle_block s t blk = Ok (s', t', v, c) →
  Session.addr s' = Session.addr s ∧ owned_kept t t'.
Proof.
  intros Hwf. unfold handle_block. destruct (Session.current s) as [asm|].
  2:{ intros [= <- <- _ _]. by split; [|apply owned_kept_refl]. }
  destruct (negb _). { intros [= <- <- _ _]. by split; [|apply owned_kept_refl]. }
  destruct (PieceAssembler.add_block _ _ _); cbn [mbind result_bind]; [|done..].
  repeat case_match; intros [= <- <- _ _]; (split; [done|]); try by apply owned_kept_refl.
  intros i Hi. cbn. by apply ps_set_mono; [apply Hwf|].
Qed.

Lemma refill_addr fuel budget i n s : Session.addr (refill geometry fuel budget i n s) = Session.addr s.
Proof.
  revert budget s. induction fuel as [|fuel IH]; intros budget s; cbn [refill]; [done|].
  case_decide; [|done]. destruct (Geometry.block_info _ _ _); [|done..].
  destruct budget as [[[|k] e]|]; [done|by rewrite IH..].
Qed.

Lemma drop_current_addr s : Session.addr (drop_current s) = Session.addr s.
Proof. unfold drop_current. by destruct (Session.current s). Qed.

Lemma release_current_frame sh s :
  Shared.control (release_current sh s) = Shared.control sh ∧
  Shared.stats (release_current sh s) = Shared.stats sh ∧
  PieceTracker.have (Shared.tracker (release_current sh s)) = PieceTracker.have (Shared.tracker sh).
Proof. unfold release_current. by destruct (Session.current s). Qed.

Lemma framed_same sh s sh' s' :
  Shared.control sh' = Shared.control sh → Session.addr s' = Session.addr s →
  Shared.stats sh' = Shared.stats sh →
  PieceTracker.have (Shared.tracker sh') = PieceTracker.have (Shared.tracker sh) →
  framed sh s sh' s'.
Proof. intros ?? Hst ?. split_and!; [done..|by rewrite Hst|by apply owned_kept_refl]. Qed.

Lemma framed_stats sh s sh' s' st :
  framed (Shared.set_stats sh st) s sh' s' →
  (∀ a, a ≠ Session.addr s → SwarmStats.peers st !! a = SwarmStats.peers (Shared.stats sh) !! a) →
  framed sh s sh' s'.
Proof.
  intros (? & ? & Hst & ?) Ha. split_and!; [done..| |done]. intros a Hne.
  rewrite Hst by done. by apply Ha.
Qed.

Lemma record_block_frame (st st' : @SwarmStats.t A _ _) (a b : A) n :
  SwarmStats.record_block st a n = Ok st' → b ≠ a → SwarmStats.peers st' !! b = SwarmStats.peers st !! b.
Proof.
  unfold SwarmStats.record_block. intros Hr Hne. destruct (_ !! a); inv_result; [|done].
  cbn. by rewrite lookup_insert_ne.
Qed.

Lemma at_claim_frame sh s sh' s' : at_claim geometry sh s = (sh', s') → framed sh s sh' s'.
Proof.
  unfold at_claim, start_piece. intros Hc. repeat case_match; simplify_eq; apply framed_same; try done.
  all: cbn; by eapply reserve_have.
Qed.

Lemma on_message_frame sh s m sh' s' :
  PieceTracker.wf (Shared.tracker sh) → on_message geometry sh s m = (sh', s') → framed sh s sh' s'.
Proof.
  intros Hwf. destruct m; cbn [on_message]; try (intros [= <- <-]; by apply framed_same).
  - intros [= <- <-]. destruct (release_current_frame (Shared.set_stats sh
      (SwarmStats.set_choked (Shared.stats sh) (Session.addr s) true)) s) as (Hc & Hs & Hh).
    eapply framed_stats; [apply framed_same; [exact Hc|exact (drop_current_addr (Session.set_choked s true))|exact Hs|exact Hh]|].
    intros a Ha. cbn. by rewrite lookup_alter_ne by done.
  - intros [= <- <-]. eapply framed_stats; [by apply framed_same|].
    intros a Ha. cbn. by rewrite lookup_alter_ne by done.
  - unfold on_have, set_have_count. intros Hs. repeat case_match; simplify_eq; try by apply framed_same.
    all: split_and!; [done..| |]; try (intros ? Hne; cbn; by rewrite lookup_alter_ne by done).
    all: apply owned_kept_refl; try done. by eapply add_availability_have.
  - unfold on_bitfield, set_have_count. intros Hs. repeat case_match; simplify_eq; try by apply framed_same.
    split_and!; [done..| |]; [intros ? Hne; cbn; by rewrite lookup_alter_ne by done|].
    apply owned_kept_refl. rename select (PieceTracker.add_bitfield_availability _ _ = Ok _) into Ha.
    by apply PieceTracker.add_bitfield_Ok_inv in Ha as [_ ->].
  - unfold on_piece, after_block. intros Hs.
    destruct (SwarmStats.record_block _ _ _) as [st|e|] eqn:Hrec; simplify_eq; try by apply framed_same.
    eapply framed_stats; [|intros a Ha; by eapply record_block_frame].
    destruct (handle_block _ _ _) as [[[[s1 t1] v] c]|e|] eqn:Hb; simplify_eq; try by apply framed_same.
    apply handle_block_frame in Hb as [Haddr Hown]; [|done].
    destruct v; [|destruct c]; simplify_eq; (split_and!; [done|exact Haddr|done|exact Hown]).
Qed.

Lemma session_step_frame sh s e sh' s' :
  PieceTracker.wf (Shared.tracker sh) → session_step geometry sh s e = Some (sh', s') → framed sh s sh' s'.
Proof.
  intros Hwf. unfold session_step, at_top, at_refill, on_recv, after_block, cleanup.
  intros Hs. repeat (case_match; try discriminate Hs); simplify_eq; try by apply framed_same.
  all: try by (eapply at_claim_frame; eassumption).
  all: try by (eapply on_message_frame; eassumption).
  all: try by (apply framed_same; rewrite ?refill_addr).
  all: try (destruct (release_current_frame sh s) as (Hc & Hs & Hh);
            apply framed_same; try done; cbn; by rewrite ?drop_current_addr).
  all: split_and!; [done..| |by apply owned_kept_refl].
  all: intros ? Hne; cbn; by rewrite ?lookup_insert_ne, ?lookup_delete_ne by done.
Qed.

(** A task that could not be doing anything of its own left its peer's entry. *)
Lemma swarm_step_frame w a w' :
  PieceTracker.wf (Shared.tracker (swarm_shared w)) →
  (∀ c, a ≠ Control c) → swarm_step geometry w a = Some w' →
  Shared.control (swarm_shared w') = Shared.control (swarm_shared w) ∧
  owned_kept (Shared.tracker (swarm_shared w)) (Shared.tracker (swarm_shared w')) ∧
  Session.addr <$> sessions w' = Session.addr <$> sessions w ∧
  ∀ k s, sessions w !! k = Some s → (∀ e, a ≠ Task k e) →
    sessions w' !! k = Some s ∧
    (NoDup (Session.addr <$> sessions w) →
     SwarmStats.peers (Shared.stats (swarm_shared w')) !! Session.addr s =
     SwarmStats.peers (Shared.stats (swarm_shared w)) !! Session.addr s).
Proof.
  intros Hwf Hc. destruct w as [sh l], a as [j e|c|]; cbn [swarm_step swarm_shared sessions].
  - intros (s & Hj & ([sh' s'] & Hs & [= <-])%bind_Some)%bind_Some. cbn [swarm_shared sessions].
    apply session_step_frame in Hs as (Hctl & Ha & Hst & Hown); [|done].
    split_and!; [done..| |].
    + rewrite list_fmap_insert, Ha. apply list_insert_id. by rewrite list_lookup_fmap, Hj.
    + intros k s0 Hk Hne. assert (j ≠ k) as Hjk by (intros ->; by apply (Hne e)).
      rewrite list_lookup_insert_ne by done. split; [done|]. intros Hnd. apply Hst. intros Heq.
      apply Hjk. apply (NoDup_lookup _ j k (Session.addr s) Hnd); rewrite list_lookup_fmap.
      * by rewrite Hj.
      * by rewrite Hk, <-Heq.
  - by destruct (Hc c).
  - intros [= <-]. cbn [swarm_shared sessions]. split_and!; [done|by apply owned_kept_refl|done|].
    intros k s Hk _. by split.
Qed.
(** The task is in its loop. *)
Definition looping s : bool :=
  match Session.phase s with AtTop | AtClaim | AtRefill | AtSelect => true | _ => false end.

End frame.

(** The phase [Hph] excludes this case of [honest]. *)
Ltac wrong_phase Hph :=
  exfalso; unfold looping, Coordinators.is_fresh in *; rewrite Hph in *;
  repeat match goal with H : _ ∨ _ |- _ => destruct H | H : ∃ _, _ |- _ => destruct H as [? H] end;
  naive_solver.

(** ** The blocks still to fetch *)

Section fetching.
Context {B : Type} `{PieceSet B} `{Sha1}.
Context (g : Geometry.t) (Hg : Geometry.wf g).
Implicit Types (t : PieceTracker.t B).

Definition blocks (i : Z) : Z := div_ceil (Geometry.piece_size g i) BLOCK_SIZE.

Definition total_blocks : Z := sum_below (λ i, blocks (Z.of_nat i)) (num_pieces g).

(** The blocks of the pieces that are not owned, [current] left out. *)
Definition to_fetch t (current : option Z) : Z :=
  sum_below (λ i, if ps_has (PieceTracker.have t) i || bool_decide (current = Some (Z.of_nat i))
                  then 0 else blocks (Z.of_nat i)) (num_pieces g).

Lemma blocks_pos i : 0 < blocks i.
Proof using Hg.
  pose proof (Geometry.piece_size_range g Hg i). unfold blocks.
  pose proof (proj2 (div_ceil_lt (Geometry.piece_size g i) BLOCK_SIZE 0 ltac:(by rewrite BLOCK_SIZE_val))).
  lia.
Qed.

Lemma to_fetch_nonneg t c : 0 ≤ to_fetch t c.
Proof using Hg.
  apply sum_below_nonneg. intros i _. pose proof (blocks_pos (Z.of_nat i)). case_match; lia.
Qed.

Lemma to_fetch_total t c : to_fetch t c ≤ total_blocks.
Proof using Hg.
  apply sum_below_le. intros i _. pose proof (blocks_pos (Z.of_nat i)). destruct (_ || _); lia.
Qed.

Lemma to_fetch_kept t t' c : owned_kept t t' → to_fetch t' c ≤ to_fetch t c.
Proof using Hg.
  intros Hk. apply sum_below_le. intros i _. pose proof (blocks_pos (Z.of_nat i)).
  destruct (ps_has (PieceTracker.have t) i) eqn:Hi; [by rewrite (Hk i Hi)|].
  destruct (ps_has (PieceTracker.have t') i), (bool_decide _); cbn; lia.
Qed.

(** Claiming a missing piece takes its blocks out. *)
Lemma to_fetch_claim t i :
  0 ≤ i < Geometry.num_pieces g → ps_has (PieceTracker.have t) (Z.to_nat i) = false →
  to_fetch t None = to_fetch t (Some i) + blocks i.
Proof using.
  intros Hi Hh. unfold to_fetch. rewrite (sum_below_one _ (λ j,
    if ps_has (PieceTracker.have t) j || bool_decide (Some i = Some (Z.of_nat j)) then 0 else blocks (Z.of_nat j))
    (num_pieces g) (Z.to_nat i)).
  - rewrite Z2Nat.id, Hh by lia. rewrite (bool_decide_eq_true_2 (Some i = Some i)) by done.
    rewrite (bool_decide_eq_false_2 (None = _)) by done. cbn [orb]. lia.
  - unfold num_pieces. lia.
  - intros j _ Hne. rewrite (bool_decide_eq_false_2 (Some i = _)); [done|]. intros [=]. lia.
Qed.

(** When it was owned meanwhile, giving it up costs nothing. *)
Lemma to_fetch_owned t i :
  0 ≤ i → ps_has (PieceTracker.have t) (Z.to_nat i) = true → to_fetch t (Some i) = to_fetch t None.
Proof using.
  intros Hi Hh. apply sum_below_ext. intros j _.
  destruct (decide (Some i = Some (Z.of_nat j))) as [[= ->]|Hne].
  - rewrite Nat2Z.id in Hh. by rewrite Hh.
  - by rewrite (bool_decide_eq_false_2 (Some i = _)).
Qed.

Lemma to_fetch_mark t i :
  PieceTracker.wf t → PieceTracker.num_pieces t = num_pieces g → 0 ≤ i < Geometry.num_pieces g →
  to_fetch (PieceTracker.mark_have t i) None = to_fetch t (Some i).
Proof using Hg.
  intros (Hps & Hpn & _) Hn Hi. apply sum_below_ext. intros j Hj. cbn.
  rewrite ps_set_has by done. rewrite Hpn, Hn. unfold num_pieces in *. rewrite orb_false_r.
  rewrite (proj2 (Nat.ltb_lt _ _)) by lia. rewrite andb_true_r.
  by rewrite (bool_decide_ext (Z.to_nat i = j) (Some i = Some (Z.of_nat j))) by (split; [intros <-; f_equal; lia|intros [= ->]; lia]).
Qed.

Lemma to_fetch_new t :
  ps_elems (PieceTracker.have t) = ∅ → to_fetch t None = total_blocks.
Proof using Hg.
  intros Hh. apply sum_below_ext. intros j _.
  destruct (ps_has (PieceTracker.have t) j) eqn:Hj; [|done].
  apply elem_of_ps_elems in Hj. set_solver.
Qed.
End fetching.

(** ** The seeder and its task *)

Section honest.
Context {A : Type} `{Sha1} `{Countable A}.
Context (g : Geometry.t) (data : list byte).
Implicit Types (t : PieceTracker.t Bitfield.t) (s : Session.t Bitfield.t A) (x : Seeder.t)
  (sh : Shared.t Bitfield.t A).

Definition over s : bool :=
  match Session.phase s with Leaving _ | Ended _ => true | _ => false end.

Definition advertised s : Prop :=
  ∀ i, (i < num_pieces g)%nat → ps_has (Session.peer_has s) i = true.

Definition unread s x : list Message := drop (Seeder.read x) (Session.outbox s).
Definition coming x : list Message := Seeder.in_transit x ++ Seeder.to_send x.

(** Blocks [from], [from + 1], ... of a piece. *)
Definition requests (i from n : Z) : list Message := (λ j, Request (block g i j)) <$> seqZ from n.
Definition answers (i from n : Z) : list Message := piece_message g data i <$> seqZ from n.

(** The first [r] blocks of its piece are in the assembler. *)
Definition prefix_assembled (asm : PieceAssembler.t) (r : Z) : Prop :=
  ∃ ks, assembled g (PieceAssembler.index asm) (piece_bytes g data (PieceAssembler.index asm)) ks asm ∧
    ∀ j, j ∈ ks ↔ 0 ≤ j < r.

(** The seeder runs, and has read no more than was sent. *)
Definition reading s x : Prop :=
  Seeder.up x = true ∧ (Seeder.read x ≤ length (Session.outbox s))%nat.

(** What the two know about each other, phase by phase. *)
Inductive honest t s x : Prop :=
  | honest_fresh :
      Coordinators.is_fresh s = true → Session.choked s = true → Session.current s = None →
      Session.outbox s = [] → Seeder.read x = 0%nat → Seeder.up x = true →
      coming x = coming (Seeder.start (num_pieces g)) → honest t s x
  | honest_greeting (told : bool) :
      looping s = true → Session.choked s = true → Session.current s = None →
      Forall (eq Interested) (unread s x) → reading s x →
      coming x = (if told then [Unchoke] else coming (Seeder.start (num_pieces g))) →
      (told = true → advertised s) → honest t s x
  | honest_idle :
      Session.phase s = AtTop ∨ Session.phase s = AtClaim ∨ (∃ v c, Session.phase s = Delivering v c ∧
        VerifiedPiece.data v = piece_bytes g data (VerifiedPiece.index v)) →
      Session.choked s = false → Session.current s = None → advertised s →
      Forall (eq Interested) (unread s x) → reading s x → coming x = [] → honest t s x
  | honest_working asm (r q : Z) (pre : list Message) :
      looping s = true → Session.choked s = false → Session.current s = Some asm → advertised s →
      0 ≤ PieceAssembler.index asm < Geometry.num_pieces g →
      prefix_assembled asm r → PieceAssembler.remaining asm ≠ 0 →
      0 ≤ r → 0 ≤ q → r + q ≤ Session.next_block s ≤ blocks g (PieceAssembler.index asm) →
      Session.in_flight s = Session.next_block s - r →
      (Session.phase s = AtSelect → r < Session.next_block s) →
      Forall (eq Interested) pre →
      unread s x = pre ++ requests (PieceAssembler.index asm) (r + q) (Session.next_block s - (r + q)) →
      reading s x → Seeder.to_send x = [] →
      Seeder.in_transit x = answers (PieceAssembler.index asm) r q → honest t s x
  | honest_over :
      Session.phase s = Leaving (Ok ()) ∨ Session.phase s = Ended (Ok ()) →
      PieceTracker.is_complete t = true → honest t s x.

(** ** The potential *)

Definition rank s : Z :=
  match Session.phase s with
  | Connecting => 8 | Starting => 7 | Delivering _ _ => 6 | AtTop => 5 | AtClaim => 4
  | AtRefill => 3 | AtSelect => 2 | Leaving _ => 1 | _ => 0
  end.

(** The messages the seeder has still to read or send of its own. *)
Definition backlog s x : Z := Z.of_nat (length (Seeder.to_send x)) + Z.of_nat (length (unread s x)).

(** The blocks of the current piece not received, and not requested. *)
Definition missing_blocks s : Z := from_option PieceAssembler.remaining 0 (Session.current s).
Definition unrequested s : Z :=
  from_option (λ asm, blocks g (PieceAssembler.index asm) - Session.next_block s) 0 (Session.current s).
Definition greetings s x : Z := if Session.choked s then Z.of_nat (length (coming x)) else 0.

(** What the task has to download in all. *)
Definition left_over t s : Z :=
  missing_blocks s + to_fetch g t (PieceAssembler.index <$> Session.current s).

(** Six moves per message to receive, one per message to serve. *)
Definition potential t s x : Z :=
  rank s + backlog s x +
  (if over s then 0
   else 6 * (greetings s x + left_over t s) + unrequested s +
        to_fetch g t (PieceAssembler.index <$> Session.current s)).

(** The bytes counted for the seeder's peer are those of blocks downloaded. *)
Definition accounted sh s : Prop :=
  accepted s = true → over s = false →
  ∀ e, SwarmStats.peers (Shared.stats sh) !! Session.addr s = Some e →
    0 ≤ PeerEntry.downloaded e ∧
    PeerEntry.downloaded e + BLOCK_SIZE * left_over (Shared.tracker sh) s ≤ BLOCK_SIZE * total_blocks g.

Context (Hg : Geometry.wf g) (Hdata : Z.of_nat (length data) = Geometry.total_length g).

Lemma requests_cons i from n : 0 < n → requests i from n = Request (block g i from) :: requests i (from + 1) (n - 1).
Proof using. intros Hn. unfold requests. rewrite seqZ_cons by done. by rewrite Z.add_1_r. Qed.

Lemma requests_app i from n m :
  0 ≤ n → 0 ≤ m → requests i from (n + m) = requests i from n ++ requests i (from + n) m.
Proof using. intros. unfold requests. by rewrite seqZ_app, fmap_app. Qed.

Lemma answers_cons i from n : 0 < n → answers i from n = piece_message g data i from :: answers i (from + 1) (n - 1).
Proof using. intros Hn. unfold answers. rewrite seqZ_cons by done. by rewrite Z.add_1_r. Qed.

Lemma answers_snoc i from n : 0 ≤ n → answers i from (n + 1) = answers i from n ++ [piece_message g data i (from + n)].
Proof using. intros Hn. unfold answers. rewrite seqZ_app, fmap_app by lia. done. Qed.

(** *** The rest of the swarm moves *)

Lemma complete_kept t t' :
  PieceTracker.wf t → PieceTracker.wf t' → PieceTracker.num_pieces t' = PieceTracker.num_pieces t →
  owned_kept t t' → PieceTracker.is_complete t = true → PieceTracker.is_complete t' = true.
Proof using Hg Hdata.
  intros (Hw & Hn & _) (Hw' & Hn' & _) Heq Hk. unfold PieceTracker.is_complete.
  rewrite !ps_complete_spec by done. rewrite Hn, Hn', Heq. intros Hall i Hi. by apply Hk, Hall.
Qed.

Lemma honest_kept t t' s x :
  (PieceTracker.is_complete t = true → PieceTracker.is_complete t' = true) →
  honest t s x → honest t' s x.
Proof using Hg Hdata.
  intros Hc []; [eapply honest_fresh|eapply honest_greeting|eapply honest_idle|eapply honest_working
    |eapply honest_over]; eauto.
Qed.

Lemma left_over_kept t t' s : owned_kept t t' → left_over t' s ≤ left_over t s.
Proof using Hg Hdata. intros Hk. unfold left_over. pose proof (to_fetch_kept g Hg t t' (PieceAssembler.index <$> Session.current s) Hk). lia. Qed.

Lemma potential_kept t t' s x : owned_kept t t' → potential t' s x ≤ potential t s x.
Proof using Hg Hdata.
  intros Hk. pose proof (left_over_kept t t' s Hk).
  pose proof (to_fetch_kept g Hg t t' (PieceAssembler.index <$> Session.current s) Hk).
  unfold potential. destruct (over s); lia.
Qed.

(** *** The seeder moves *)

Lemma unread_cons s x m ms : unread s x = m :: ms →
  Session.outbox s !! Seeder.read x = Some m ∧ drop (S (Seeder.read x)) (Session.outbox s) = ms.
Proof using Hg Hdata.
  unfold unread. intros Hd. rewrite <-(Nat.add_0_r (Seeder.read x)), <-lookup_drop, Hd. split; [done|].
  replace (S _) with (Seeder.read x + 1)%nat by lia. by rewrite <-drop_drop, Hd.
Qed.

Lemma backlog_send s x m ms :
  Seeder.to_send x = m :: ms →
  let x' := Seeder.mk ms (Seeder.in_transit x ++ [m]) (Seeder.read x) true in
  coming x' = coming x ∧ unread s x' = unread s x ∧ backlog s x' = backlog s x - 1.
Proof using Hg Hdata.
  intros Hs x'. unfold coming, backlog, unread. cbn. rewrite Hs, <-app_assoc. cbn [length app].
  split_and!; [done..|lia].
Qed.

(** Of the potential a turn changes only the backlog. *)
Lemma potential_serve t s x x' :
  over s = true ∨ coming x' = coming x ∨ Session.choked s = false →
  backlog s x' = backlog s x - 1 → potential t s x' < potential t s x.
Proof using Hg Hdata.
  intros Hc Hb. unfold potential, greetings. rewrite Hb. destruct Hc as [-> |Hc]; [lia|].
  assert ((if Session.choked s then Z.of_nat (length (coming x')) else 0) =
    (if Session.choked s then Z.of_nat (length (coming x)) else 0)) as ->.
  { destruct Hc as [->| ->]; done. }
  destruct (over s); lia.
Qed.

Lemma backlog_read s x m ms y b :
  Seeder.to_send x = [] → unread s x = m :: ms →
  backlog s (Seeder.mk [] y (S (Seeder.read x)) b) = backlog s x - 1.
Proof using Hg Hdata.
  intros Hs Hu. destruct (unread_cons s x m ms Hu) as [_ Hd]. unfold backlog. rewrite Hs, Hu.
  unfold unread. cbn [Seeder.read Seeder.to_send length]. rewrite Hd. lia.
Qed.

(** The three turns: one of its own messages, one that it ignores, one request. *)
Lemma serve_sends t s x m ms :
  Seeder.up x = true → Seeder.to_send x = m :: ms → honest t s x →
  let x' := Seeder.mk ms (Seeder.in_transit x ++ [m]) (Seeder.read x) true in
  honest t s x' ∧ potential t s x' < potential t s x.
Proof using Hg Hdata.
  intros Hup Hs Hh x'. destruct (backlog_send s x m ms Hs) as (Hc & Hu & Hb). fold x' in Hc, Hu, Hb.
  assert (reading s x → reading s x') as Hrd by (intros [_ ?]; by split).
  split; [|apply potential_serve; auto].
  destruct Hh as [| | |asm r q pre| ].
  - apply honest_fresh; try done. by rewrite Hc.
  - apply (honest_greeting _ _ _ told); auto; by rewrite ?Hu, ?Hc.
  - exfalso. rename select (coming x = []) into Hco. unfold coming in Hco. rewrite Hs in Hco.
    by apply app_eq_nil in Hco as [_ ?].
  - congruence.
  - by apply honest_over.
Qed.

Lemma serve_ignores t s x ms :
  Seeder.up x = true → Seeder.to_send x = [] → unread s x = Interested :: ms → honest t s x →
  let x' := Seeder.mk [] (Seeder.in_transit x ++ []) (S (Seeder.read x)) true in
  honest t s x' ∧ potential t s x' < potential t s x.
Proof using Hg Hdata.
  intros Hup Hs Hu Hh x'.
  assert (coming x' = coming x) as Hc by (unfold coming; cbn; by rewrite Hs, !app_nil_r).
  assert (unread s x' = ms) as Hu' by apply (unread_cons s x _ _ Hu).
  assert (reading s x') as Hrd.
  { split; [done|]. apply (lookup_lt_Some (Session.outbox s) _ Interested), (unread_cons s x _ _ Hu). }
  split; [|apply potential_serve; [by auto|by eapply backlog_read]].
  destruct Hh as [| | |asm r q pre| ].
  - rename select (Session.outbox s = []) into Ho. unfold unread in Hu. by rewrite Ho, drop_nil in Hu.
  - rename select (Forall _ (unread s x)) into Hf. rewrite Hu in Hf. apply Forall_cons in Hf as [_ Hf].
    apply (honest_greeting _ _ _ told); auto; by rewrite ?Hu', ?Hc.
  - rename select (Forall _ (unread s x)) into Hf. rewrite Hu in Hf. apply Forall_cons in Hf as [_ Hf].
    apply honest_idle; auto; by rewrite ?Hu', ?Hc.
  - rename select (unread s x = _) into Hx. rewrite Hu in Hx. destruct pre as [|m pre].
    { destruct (decide (0 < Session.next_block s - (r + q))).
      - by rewrite requests_cons in Hx by done.
      - unfold requests in Hx. by rewrite seqZ_nil in Hx by lia. }
    injection Hx as <- Hms. rename select (Forall _ (Interested :: pre)) into Hf.
    apply Forall_cons in Hf as [_ Hf]. apply (honest_working _ _ _ asm r q pre); try done; [by rewrite Hu', Hms|].
    cbn. by rewrite app_nil_r.
  - by apply honest_over.
Qed.

Lemma serve_answers t s x asm r q ms :
  Seeder.up x = true → Seeder.to_send x = [] →
  let i := PieceAssembler.index asm in
  Session.current s = Some asm →
  0 < Session.next_block s - (r + q) →
  unread s x = requests i (r + q) (Session.next_block s - (r + q)) → ms = [piece_message g data i (r + q)] →
  looping s = true → Session.choked s = false → advertised s →
  0 ≤ i < Geometry.num_pieces g → prefix_assembled asm r → PieceAssembler.remaining asm ≠ 0 →
  0 ≤ r → 0 ≤ q → r + q ≤ Session.next_block s ≤ blocks g i →
  Session.in_flight s = Session.next_block s - r →
  (Session.phase s = AtSelect → r < Session.next_block s) →
  Seeder.in_transit x = answers i r q →
  let x' := Seeder.mk [] (Seeder.in_transit x ++ ms) (S (Seeder.read x)) true in
  honest t s x' ∧ potential t s x' < potential t s x.
Proof using Hg Hdata.
  intros Hup Hs i Hcur Hpos Hu -> ??????????? Hin x'.
  rewrite requests_cons in Hu by done.
  assert (reading s x') as Hrd.
  { split; [done|]. eapply lookup_lt_Some, (unread_cons s x _ _ Hu). }
  split; [|apply potential_serve; [by auto|by eapply backlog_read]].
  apply (honest_working _ _ _ asm r (q + 1) []); try done; try lia; cbn.
  - fold i. lia.
  - etrans; [apply (unread_cons s x _ _ Hu)|]. fold i. f_equal; lia.
  - rewrite Hin, answers_snoc by done. done.
Qed.

Lemma serve_step t s x x' :
  honest t s x → Seeder.step (Geometry.nominal_length g) data (Session.outbox s) x = Some x' →
  honest t s x' ∧ potential t s x' < potential t s x.
Proof using Hg Hdata.
  intros Hh. unfold Seeder.step, Seeder.turn. destruct (Seeder.up x) eqn:Hup; [|done].
  destruct (Seeder.to_send x) as [|m ms] eqn:Hs; [|intros [= <-]; by apply serve_sends].
  intros (m & Hm & Hx)%bind_Some.
  assert (unread s x = m :: drop (S (Seeder.read x)) (Session.outbox s)) as Hu.
  { unfold unread. by apply drop_S. }
  pose proof Hh as Hh0.
  destruct Hh as [| | |asm r q pre ? ? ? ? ? ? ? ? ? ? ? ? Hpre Hreq|Hph Hc].
  - rename select (Session.outbox s = []) into Ho. by rewrite Ho in Hm.
  - rename select (Forall _ (unread s x)) into Hf. pose proof Hf as Hf'. rewrite Hu in Hf'.
    apply Forall_cons in Hf' as [<- _]. injection Hx as <-. by eapply serve_ignores.
  - rename select (Forall _ (unread s x)) into Hf. pose proof Hf as Hf'. rewrite Hu in Hf'.
    apply Forall_cons in Hf' as [<- _]. injection Hx as <-. by eapply serve_ignores.
  - destruct pre as [|m' pre].
    + cbn [app] in Hreq. rewrite Hreq in Hu.
      destruct (decide (0 < Session.next_block s - (r + q))) as [Hpos|Hneg];
        [|unfold requests in Hu; by rewrite seqZ_nil in Hu by lia].
      pose proof Hu as Hu'. rewrite requests_cons in Hu' by done. injection Hu' as <- _.
      rewrite answer_request in Hx by (done || (split; [done|]; unfold blocks in *; lia)).
      injection Hx as <-. by eapply serve_answers.
    + pose proof Hreq as Hr'. rewrite Hu in Hr'. injection Hr' as -> Hms.
      pose proof Hpre as Hpre'. apply Forall_cons in Hpre' as [<- _]. injection Hx as <-.
      by eapply serve_ignores.
  - assert (over s = true) as Hov by (unfold over; by destruct Hph as [->| ->]).
    assert (∃ y b, x' = Seeder.mk [] y (S (Seeder.read x)) b) as (y & b & ->).
    { destruct (Seeder.answer _ _ m); injection Hx as <-; by do 2 eexists. }
    split; [by apply honest_over|]. apply potential_serve; [by auto|by eapply backlog_read].
Qed.

(** *** The task moves on its own *)

(** The fields of a session as a whole. *)
Lemma session_eta s :
  s = Session.mk (Session.addr s) (Session.phase s) (Session.peer_has s) (Session.choked s)
        (Session.current s) (Session.next_block s) (Session.in_flight s) (Session.seen s) (Session.outbox s).
Proof using Hg Hdata. by destruct s. Qed.

(** Refilling requests the next blocks until five are in flight or the piece
    has no more. *)
Lemma refill_sends fuel i s :
  0 ≤ i < Geometry.num_pieces g → 0 ≤ Session.next_block s ≤ blocks g i →
  Session.in_flight s ≤ 5 → 5 - Session.in_flight s ≤ Z.of_nat fuel →
  ∃ c, 0 ≤ c ∧ Session.next_block s + c ≤ blocks g i ∧
    (Session.in_flight s + c = 5 ∨ Session.next_block s + c = blocks g i) ∧
    refill g fuel None i (blocks g i) s =
      Session.mk (Session.addr s) AtSelect (Session.peer_has s) (Session.choked s) (Session.current s)
        (Session.next_block s + c) (Session.in_flight s + c) (Session.seen s)
        (Session.outbox s ++ requests i (Session.next_block s) c).
Proof using Hg Hdata.
  intros Hi. revert s.
  assert (∀ s, Session.set_phase s AtSelect =
    Session.mk (Session.addr s) AtSelect (Session.peer_has s) (Session.choked s) (Session.current s)
      (Session.next_block s + 0) (Session.in_flight s + 0) (Session.seen s)
      (Session.outbox s ++ requests i (Session.next_block s) 0)) as Hstay.
  { intros s. unfold requests. rewrite seqZ_nil by lia. by rewrite app_nil_r, !Z.add_0_r. }
  induction fuel as [|fuel IH]; intros s Hn Hf Hfuel; cbn [refill].
  { exists 0. split_and!; [lia|lia|left; lia|apply Hstay]. }
  case_decide as Hgo; unfold MAX_PIPELINED_REQUESTS in Hgo.
  2:{ exists 0. split_and!; [lia|lia|lia|apply Hstay]. }
  rewrite (Geometry.block_info_Ok g Hg) by (split; [done|]; unfold blocks in *; lia).
  cbn [fmap option_fmap option_map].
  destruct (IH (Session.set_work (Session.push_out s (Request (block g i (Session.next_block s))))
    (Session.current s) (Session.next_block s + 1) (Session.in_flight s + 1))) as (c & Hc & Hle & Hor & Heq);
    cbn in *; try lia.
  exists (c + 1). split_and!; [lia|lia|lia|]. unfold block in Heq. rewrite Heq.
  rewrite (requests_cons i _ (c + 1)) by lia. rewrite <-app_assoc. cbn [app]. f_equal; try lia.
  repeat f_equal; lia.
Qed.

(** What the task relies on. *)
Definition verifies t : Prop :=
  ∀ i, 0 ≤ i < Geometry.num_pieces g → PieceTracker.verify t i (piece_bytes g data i) = true.

Lemma prefix_lt asm r :
  0 ≤ PieceAssembler.index asm < Geometry.num_pieces g → prefix_assembled asm r →
  PieceAssembler.remaining asm ≠ 0 → r < blocks g (PieceAssembler.index asm).
Proof using Hg Hdata.
  intros Hi (ks & Has & Hks) Hrem.
  pose proof (piece_bytes_length g Hg data _ Hi Hdata) as Hlen.
  destruct (assembled_complete g _ _ Hg Hi Hlen ks asm Has) as [Hc _].
  destruct (decide (r < blocks g (PieceAssembler.index asm))); [done|]. exfalso. apply Hrem.
  apply Z.eqb_eq, Hc. intros j [_ Hj]. apply Hks. unfold blocks in *. lia.
Qed.

(** The claim: done, or the first blocks of a missing piece are wanted. *)
Lemma claim_cases sh s :
  PieceTracker.wf (Shared.tracker sh) → PieceTracker.num_pieces (Shared.tracker sh) = num_pieces g →
  Session.current s = None → Session.choked s = false → advertised s →
  at_claim g sh s = (Shared.set_done sh, Session.leave s (Ok ())) ∧
    PieceTracker.is_complete (Shared.tracker sh) = true ∨
  ∃ i sh', 0 ≤ i < Geometry.num_pieces g ∧
    ps_has (PieceTracker.have (Shared.tracker sh)) (Z.to_nat i) = false ∧
    at_claim g sh s = (sh', Session.set_phase
      (Session.set_work s (Some (PieceAssembler.new i (Geometry.piece_size g i))) 0 0) AtRefill) ∧
    PieceTracker.have (Shared.tracker sh') = PieceTracker.have (Shared.tracker sh) ∧
    Shared.stats sh' = Shared.stats sh.
Proof using Hg Hdata.
  intros Hwf Hn Hcur Hch Had. pose proof Hwf as (Hps & Hpn & _).
  assert (∀ i, (i < PieceTracker.num_pieces (Shared.tracker sh))%nat → 0 ≤ Z.of_nat i < Geometry.num_pieces g)
    as Hrange by (intros i Hi; rewrite Hn in Hi; unfold num_pieces in Hi; lia).
  unfold at_claim. rewrite Hcur, Hch.
  destruct (PieceTracker.reserve_piece_Ok _ (Session.peer_has s) Hwf) as [[-> _]|(i & -> & [Hc _])].
  - assert (Shared.set_tracker sh (Shared.tracker sh) = sh) as -> by (by destruct sh).
    destruct (PieceTracker.is_complete (Shared.tracker sh)) eqn:Hcomp; [by left|]. right.
    destruct (PieceTracker.rarest_needed_Ok _ (Session.peer_has s) false Hwf) as (r & Hr & Hm).
    unfold PieceTracker.reserve_piece_endgame. rewrite Hr. destruct r as [z|].
    + destruct Hm as (i & -> & [[Hi [Hh _]] _]). pose proof (Hrange i Hi).
      unfold start_piece. rewrite Geometry.piece_length_Ok by done.
      exists (Z.of_nat i), sh. rewrite Nat2Z.id. split_and!; done || lia.
    + exfalso. assert (PieceTracker.is_complete (Shared.tracker sh) = true); [|congruence].
      unfold PieceTracker.is_complete. apply ps_complete_spec; [done|]. intros i Hi. rewrite Hpn in Hi.
      destruct (ps_has (PieceTracker.have (Shared.tracker sh)) i) eqn:Hh; [done|].
      destruct (Hm i). split_and!; [done|done|apply Had; by rewrite <-Hn|done].
  - right. destruct Hc as (Hi & Hh & _). pose proof (Hrange i Hi).
    unfold start_piece. rewrite Geometry.piece_length_Ok by done.
    eexists (Z.of_nat i), _. rewrite Nat2Z.id. split_and!; done || lia.
Qed.

Definition improves sh s x sh' s' x' : Prop :=
  honest (Shared.tracker sh') s' x' ∧ accounted sh' s' ∧
  potential (Shared.tracker sh') s' x' < potential (Shared.tracker sh) s x.

Lemma to_fetch_have t t' c : PieceTracker.have t' = PieceTracker.have t → to_fetch g t' c = to_fetch g t c.
Proof using Hg Hdata. intros Hh. unfold to_fetch. by rewrite Hh. Qed.

(** Same work, a lower rank. *)
Lemma improves_quiet sh s x sh' s' :
  honest (Shared.tracker sh') s' x → accounted sh s → accepted s = true →
  over s = false → over s' = false → rank s' < rank s →
  Session.addr s' = Session.addr s → Session.choked s' = Session.choked s →
  Session.current s' = Session.current s → Session.next_block s' = Session.next_block s →
  Session.outbox s' = Session.outbox s → Shared.stats sh' = Shared.stats sh →
  PieceTracker.have (Shared.tracker sh') = PieceTracker.have (Shared.tracker sh) →
  improves sh s x sh' s' x.
Proof using Hg Hdata.
  intros Hh Hacc Hap Ho Ho' Hr Ha Hch Hcur Hnb Hout Hst Hhave. split; [done|].
  assert (left_over (Shared.tracker sh') s' = left_over (Shared.tracker sh) s) as Hl.
  { unfold left_over, missing_blocks. by rewrite Hcur, (to_fetch_have _ _ _ Hhave). }
  split.
  - intros _ _ e. rewrite Ha, Hst, Hl. by apply Hacc.
  - unfold potential, greetings, backlog, unread, unrequested. rewrite Ho, Ho', Hl, Hch, Hcur, Hnb, Hout.
    rewrite (to_fetch_have _ _ _ Hhave). lia.
Qed.

Lemma work_nonneg t s :
  session_ok g s → 0 ≤ left_over t s ∧ 0 ≤ unrequested s ∧
    0 ≤ to_fetch g t (PieceAssembler.index <$> Session.current s).
Proof using Hg Hdata.
  intros (_ & _ & _ & _ & _ & Hw & _).
  pose proof (to_fetch_nonneg g Hg t (PieceAssembler.index <$> Session.current s)).
  unfold left_over, missing_blocks, unrequested, work_ok in *.
  destruct (Session.current s) as [asm|]; cbn in *; [|lia].
  destruct Hw as ((_ & _ & _ & Hrem) & _ & _ & Hn). unfold blocks. lia.
Qed.

(** The task leaves, and the torrent is complete. *)
Lemma improves_leave sh s x sh' :
  session_ok g s → over s = false → 1 < rank s →
  PieceTracker.is_complete (Shared.tracker sh') = true →
  improves sh s x sh' (Session.leave s (Ok ())) x.
Proof using Hg Hdata.
  intros Hok Ho Hr Hc. split; [apply honest_over; [by left|done]|]. split; [done|].
  destruct (work_nonneg (Shared.tracker sh) s Hok) as (? & ? & ?).
  unfold potential. rewrite Ho.
  change (over (Session.leave s (Ok ()))) with true. change (rank (Session.leave s (Ok ()))) with 1.
  change (backlog (Session.leave s (Ok ())) x) with (backlog s x).
  assert (0 ≤ greetings s x) by (unfold greetings; destruct (Session.choked s); lia).
  lazy iota. lia.
Qed.

(** A claimed piece: its blocks move from the pieces to fetch to the current one. *)
Lemma improves_claim sh s x sh' i :
  honest (Shared.tracker sh) s x → accounted sh s → Session.phase s = AtClaim →
  Session.choked s = false → Session.current s = None → advertised s →
  0 ≤ i < Geometry.num_pieces g → ps_has (PieceTracker.have (Shared.tracker sh)) (Z.to_nat i) = false →
  PieceTracker.have (Shared.tracker sh') = PieceTracker.have (Shared.tracker sh) →
  Shared.stats sh' = Shared.stats sh →
  improves sh s x sh' (Session.set_phase
    (Session.set_work s (Some (PieceAssembler.new i (Geometry.piece_size g i))) 0 0) AtRefill) x.
Proof using Hg Hdata.
  intros Hh Hacc Hph Hch Hcur Had Hi Hmiss Hhave Hst.
  pose proof (blocks_pos g Hg i) as Hb.
  pose proof (to_fetch_claim g (Shared.tracker sh) i Hi Hmiss) as Hclaim.
  set (s' := Session.set_phase _ _).
  assert (left_over (Shared.tracker sh') s' = left_over (Shared.tracker sh) s) as Hl.
  { unfold left_over, missing_blocks. rewrite Hcur. cbn [from_option fmap option_fmap option_map].
    rewrite Hclaim. cbn. rewrite (to_fetch_have _ _ _ Hhave). unfold blocks. lia. }
  split; [|split].
  - destruct Hh as [Hf| ? Hlp Hch'| ? ? ? ? Hun Hup Hco|asm ? ? ? ? ? Hc'|Hov].
    + by wrong_phase Hph.
    + congruence.
    + apply app_eq_nil in Hco as [Hin Hts].
      apply (honest_working _ _ _ (PieceAssembler.new i (Geometry.piece_size g i)) 0 0 (unread s x));
        try done; cbn; try lia.
      * exists []. split; [by apply new_assembled|]. intros j. split; [by intros ?%not_elem_of_nil|lia].
      * unfold blocks in Hb. lia.
      * change (unread s' x) with (unread s x). unfold requests. rewrite seqZ_nil by lia. by rewrite app_nil_r.
    + congruence.
    + by wrong_phase Hph.
  - intros _ _ e. rewrite Hst, Hl. apply Hacc; unfold accepted, over; by rewrite Hph.
  - unfold potential. rewrite Hl. change (over s') with false. change (rank s') with 3.
    assert (over s = false) as -> by (unfold over; by rewrite Hph).
    assert (rank s = 4) as -> by (unfold rank; by rewrite Hph).
    change (backlog s' x) with (backlog s x). change (greetings s' x) with (greetings s x).
    unfold unrequested. rewrite Hcur. cbn. rewrite Hclaim, (to_fetch_have _ _ _ Hhave). lia.
Qed.

(** The facts of the swarm's invariant that a single task needs. *)
Record task_ready sh s : Prop := {
  ready_tracker : PieceTracker.wf (Shared.tracker sh);
  ready_pieces : PieceTracker.num_pieces (Shared.tracker sh) = num_pieces g;
  ready_session : session_ok g s;
  ready_done : Shared.done sh = true → PieceTracker.is_complete (Shared.tracker sh) = true;
  ready_completion : completion_ok (Shared.tracker sh) s;
  ready_control : Shared.control sh = Running;
}.

Lemma at_top_step sh s x :
  task_ready sh s → honest (Shared.tracker sh) s x → accounted sh s → Session.phase s = AtTop →
  improves sh s x (at_top sh s).1 (at_top sh s).2 x.
Proof using Hg Hdata.
  intros Hr Hh Hacc Hph. unfold at_top. rewrite (ready_control _ _ Hr). cbn [fst snd].
  apply improves_quiet; try done; try (unfold accepted, over, rank; by rewrite Hph).
  destruct Hh as [Hf|told| |asm r q pre|Hov].
  - by wrong_phase Hph.
  - by apply (honest_greeting _ _ _ told).
  - apply honest_idle; try done. by right; left.
  - by apply (honest_working _ _ _ asm r q pre).
  - by wrong_phase Hph.
Qed.

Lemma at_claim_step sh s x :
  task_ready sh s → honest (Shared.tracker sh) s x → accounted sh s → Session.phase s = AtClaim →
  improves sh s x (at_claim g sh s).1 (at_claim g sh s).2 x.
Proof using Hg Hdata.
  intros Hr Hh Hacc Hph. pose proof Hh as Hh0.
  assert (over s = false ∧ accepted s = true ∧ rank s = 4) as (Hov & Hap & Hrk)
    by (unfold accepted, over, rank; by rewrite Hph).
  assert (Session.current s ≠ None ∨ Session.choked s = true →
    honest (Shared.tracker sh) (Session.set_phase s AtRefill) x →
    improves sh s x (at_claim g sh s).1 (at_claim g sh s).2 x) as Hstay.
  { intros Hor Hh'. assert (at_claim g sh s = (sh, Session.set_phase s AtRefill)) as ->.
    { unfold at_claim. destruct (Session.current s), (Session.choked s); try done; naive_solver. }
    apply improves_quiet; try done. rewrite Hrk. cbn. lia. }
  destruct Hh as [Hf|told ? Hch Hcur Hun Hup Hco Had|? Hch Hcur Had ? ? ?|asm r q pre ? ? Hcur|Hx].
  - by wrong_phase Hph.
  - apply Hstay; [by right|]. by apply (honest_greeting _ _ _ told).
  - destruct (claim_cases sh s (ready_tracker _ _ Hr) (ready_pieces _ _ Hr) Hcur Hch Had)
      as [[-> Hc]|(i & sh' & Hi & Hmiss & -> & Hhave & Hst)]; cbn [fst snd].
    + apply improves_leave; [apply Hr|done|lia|done].
    + by apply improves_claim.
  - apply Hstay; [left; congruence|]. by apply (honest_working _ _ _ asm r q pre).
  - by wrong_phase Hph.
Qed.

Lemma at_refill_step sh s x :
  task_ready sh s → honest (Shared.tracker sh) s x → accounted sh s → Session.phase s = AtRefill →
  improves sh s x sh (at_refill g None s) x.
Proof using Hg Hdata.
  intros Hr Hh Hacc Hph.
  assert (over s = false ∧ accepted s = true ∧ rank s = 3) as (Hov & Hap & Hrk)
    by (unfold accepted, over, rank; by rewrite Hph).
  destruct Hh as [Hf|told ? Hch Hcur Hun Hup Hco Had|Hx|asm r q pre ? Hch Hcur Had Hi Has Hrem ? ?
    Hnb Hfl ? Hpre Hun [? Hrd] ? Hin|Hx].
  - by wrong_phase Hph.
  - unfold at_refill. rewrite Hch. apply improves_quiet; try done; [|rewrite Hrk; cbn; lia].
    by apply (honest_greeting _ _ _ told).
  - by wrong_phase Hph.
  - unfold at_refill. rewrite Hch, Hcur, Geometry.num_blocks_Ok by done. fold (blocks g (PieceAssembler.index asm)).
    pose proof (ready_session _ _ Hr) as (_ & _ & _ & Hfl5 & Hnb0 & _). unfold MAX_PIPELINED_REQUESTS in *.
    pose proof (prefix_lt asm r Hi Has Hrem) as Hlt.
    destruct (refill_sends (Z.to_nat 5) (PieceAssembler.index asm) s Hi ltac:(lia) ltac:(lia) ltac:(lia))
      as (c & Hc & Hle & Hor & ->).
    set (s' := Session.mk _ _ _ _ _ _ _ _ _).
    assert (unread s' x = unread s x ++ requests (PieceAssembler.index asm) (Session.next_block s) c) as Hun'.
    { unfold unread. cbn. rewrite drop_app.
      by replace (Seeder.read x - length (Session.outbox s))%nat with 0%nat by lia. }
    split; [|split].
    + apply (honest_working _ _ _ asm r q pre); try done; cbn; try lia.
      * rewrite Hun', Hun, <-app_assoc. f_equal.
        replace (Session.next_block s + c - (r + q)) with (Session.next_block s - (r + q) + c) by lia.
        rewrite requests_app by lia. do 2 f_equal. lia.
      * split; [done|]. cbn. rewrite length_app. lia.
    + intros _ _. exact (Hacc Hap Hov).
    + assert (backlog s' x = backlog s x + c) as Hb.
      { unfold backlog. rewrite Hun', length_app. unfold requests at 1.
        rewrite length_fmap, length_seqZ. lia. }
      unfold potential. rewrite Hb, Hov. change (over s') with false. change (rank s') with 2.
      change (left_over (Shared.tracker sh) s') with (left_over (Shared.tracker sh) s).
      change (greetings s' x) with (greetings s x). unfold unrequested. rewrite Hcur. cbn. rewrite Hcur. cbn. lia.
  - by wrong_phase Hph.
Qed.

Lemma delivering_step sh s x v c :
  task_ready sh s → honest (Shared.tracker sh) s x → accounted sh s → Session.phase s = Delivering v c →
  let r := after_block (Shared.send sh v) s c in improves sh s x r.1 r.2 x.
Proof using Hg Hdata.
  intros Hr Hh Hacc Hph. cbv zeta.
  assert (over s = false ∧ accepted s = true ∧ rank s = 6) as (Hov & Hap & Hrk)
    by (unfold accepted, over, rank; by rewrite Hph).
  pose proof (ready_completion _ _ Hr) as Hc. unfold completion_ok in Hc. rewrite Hph in Hc.
  unfold after_block. destruct c; cbn [fst snd].
  - apply improves_leave; [apply Hr|done|lia|done].
  - apply improves_quiet; try done; [|rewrite Hrk; cbn; lia].
    destruct Hh as [Hf|told Hl|Hx|asm r q pre Hl|Hx].
    + by wrong_phase Hph.
    + by wrong_phase Hph.
    + apply honest_idle; auto.
    + by wrong_phase Hph.
    + by wrong_phase Hph.
Qed.

Lemma leaving_step sh s x r :
  task_ready sh s → honest (Shared.tracker sh) s x → Session.phase s = Leaving r →
  improves sh s x (cleanup sh s r).1 (cleanup sh s r).2 x.
Proof using Hg Hdata.
  intros Hr Hh Hph. unfold cleanup. cbn [fst snd].
  assert (over s = true ∧ rank s = 1) as (Hov & Hrk) by (unfold over, rank; by rewrite Hph).
  destruct Hh as [Hf|told Hl|Hx|asm r' q pre Hl|Hx Hc].
  - by wrong_phase Hph.
  - by wrong_phase Hph.
  - by wrong_phase Hph.
  - by wrong_phase Hph.
  - assert (r = Ok ()) as -> by (destruct Hx; congruence).
    split; [apply honest_over; [by right|exact Hc]|]. split; [done|].
    unfold potential, backlog, unread. rewrite Hov, Hrk. cbn. lia.
Qed.

Lemma connected_step sh s x :
  honest (Shared.tracker sh) s x → Session.phase s = Connecting →
  improves sh s x (Shared.set_stats sh (SwarmStats.peer_connected (Shared.stats sh) (Session.addr s)))
    (Session.set_phase s Starting) x.
Proof using Hg Hdata.
  intros Hh Hph.
  destruct Hh as [Hf ? Hcur|told Hl|Hx|asm r' q pre Hl|Hx].
  - split; [by apply honest_fresh|]. split.
    + intros _ _ e. cbn. rewrite lookup_insert_eq. intros [= <-]. cbn.
      unfold left_over, missing_blocks. cbn. rewrite Hcur. cbn.
      pose proof (to_fetch_total g Hg (Shared.tracker sh) None). pose proof BLOCK_SIZE_val. nia.
    + unfold potential, over, rank, greetings, left_over, missing_blocks, unrequested, backlog, unread.
      rewrite Hph. cbn. lia.
  - by wrong_phase Hph.
  - by wrong_phase Hph.
  - by wrong_phase Hph.
  - by wrong_phase Hph.
Qed.

Lemma starting_step sh s x :
  honest (Shared.tracker sh) s x → accounted sh s → Session.phase s = Starting →
  improves sh s x sh (Session.set_phase (Session.push_out s Interested) AtTop) x.
Proof using Hg Hdata.
  intros Hh Hacc Hph.
  destruct Hh as [Hf Hch Hcur Hout Hrd Hup Hco|told Hl|Hx|asm r' q pre Hl|Hx].
  - split; [|split].
    + apply (honest_greeting _ _ _ false); try done.
      * unfold unread. cbn. rewrite Hout, Hrd. cbn. by repeat constructor.
      * split; [done|]. rewrite Hrd. lia.
    + intros _ _. apply Hacc; unfold accepted, over; by rewrite Hph.
    + unfold potential, over, rank, backlog, unread. rewrite Hph. cbn. rewrite Hout, Hrd. cbn.
      unfold greetings, left_over, missing_blocks, unrequested. cbn. rewrite Hcur. cbn. lia.
  - by wrong_phase Hph.
  - by wrong_phase Hph.
  - by wrong_phase Hph.
  - by wrong_phase Hph.
Qed.

(** Every step the task takes without a message brings the pair forward. *)
Lemma task_step sh s x e sh' s' :
  task_ready sh s → honest (Shared.tracker sh) s x → accounted sh s →
  own_event e = true → session_step g sh s e = Some (sh', s') → improves sh s x sh' s' x.
Proof using Hg Hdata.
  intros Hr Hh Hacc He. unfold session_step.
  destruct (Session.phase s) eqn:Hph, e as [[]| | | | | | |]; try done.
  - intros [= <- <-]. by apply connected_step.
  - intros [= <- <-]. by apply starting_step.
  - pose proof (at_top_step sh s x Hr Hh Hacc Hph). destruct (at_top sh s). by intros [= <- <-].
  - pose proof (at_claim_step sh s x Hr Hh Hacc Hph). destruct (at_claim g sh s). by intros [= <- <-].
  - intros [= <- <-]. by apply at_refill_step.
  - destruct (Shared.done sh) eqn:Hd; [|done]. intros [= <- <-].
    apply improves_leave; [apply Hr|unfold over; by rewrite Hph|unfold rank; rewrite Hph; lia|].
    by apply (ready_done _ _ Hr).
  - pose proof (delivering_step sh s x v complete Hr Hh Hacc Hph) as Hs. cbv zeta in Hs.
    destruct (after_block _ s complete). by intros [= <- <-].
  - pose proof (leaving_step sh s x r Hr Hh Hph). destruct (cleanup sh s r). by intros [= <- <-].
Qed.

(** *** The task receives a message *)

Definition pop x (ms : list Message) : Seeder.t :=
  Seeder.mk (Seeder.to_send x) ms (Seeder.read x) (Seeder.up x).

Lemma coming_pop x m ms : Seeder.in_transit x = m :: ms → coming x = m :: coming (pop x ms).
Proof using Hg Hdata. intros Hin. unfold coming. by rewrite Hin. Qed.

(** One message less to come is worth six moves; counting it in the statistics
    changes nothing else. *)
Lemma improves_greeting sh s x sh' s' m ms :
  honest (Shared.tracker sh') s' (pop x ms) → accounted sh s → Session.phase s = AtSelect →
  Session.phase s' = AtTop → Session.choked s = true → Seeder.in_transit x = m :: ms →
  Session.addr s' = Session.addr s → Session.current s = None → Session.current s' = None →
  Session.outbox s' = Session.outbox s →
  (∀ e', SwarmStats.peers (Shared.stats sh') !! Session.addr s = Some e' →
     ∃ e, SwarmStats.peers (Shared.stats sh) !! Session.addr s = Some e ∧
          PeerEntry.downloaded e' = PeerEntry.downloaded e) →
  PieceTracker.have (Shared.tracker sh') = PieceTracker.have (Shared.tracker sh) →
  improves sh s x sh' s' (pop x ms).
Proof using Hg Hdata.
  intros Hh Hacc Hph Hph' Hch Hin Ha Hcur Hcur' Hout Hst Hhave. split; [done|].
  assert (left_over (Shared.tracker sh') s' = left_over (Shared.tracker sh) s) as Hl.
  { unfold left_over, missing_blocks. by rewrite Hcur, Hcur', (to_fetch_have _ _ _ Hhave). }
  split.
  - intros _ _ e' He'. rewrite Ha in He'. destruct (Hst e' He') as (e & He & ->). rewrite Hl.
    apply Hacc; [..|done]; unfold accepted, over; by rewrite Hph.
  - unfold potential, over, rank. rewrite Hph, Hph', Hl.
    unfold backlog, unread, unrequested. rewrite Hout, Hcur, Hcur'. cbn [Seeder.read Seeder.to_send pop].
    cbn [from_option fmap option_fmap option_map]. rewrite (to_fetch_have _ _ _ Hhave).
    unfold greetings. rewrite Hch. pose proof (coming_pop x m ms Hin) as ->. cbn [length].
    assert (0 ≤ (if Session.choked s' then Z.of_nat (length (coming (pop x ms))) else 0)
              ≤ Z.of_nat (length (coming (pop x ms)))) by (destruct (Session.choked s'); lia).
    lia.
Qed.

Lemma alter_downloaded sh a (f : PeerEntry.t → PeerEntry.t) e' :
  (∀ e, PeerEntry.downloaded (f e) = PeerEntry.downloaded e) →
  alter f a (SwarmStats.peers (Shared.stats sh)) !! a = Some e' →
  ∃ e, SwarmStats.peers (Shared.stats sh) !! a = Some e ∧ PeerEntry.downloaded e' = PeerEntry.downloaded e.
Proof using Hg Hdata.
  intros Hf. rewrite lookup_alter_eq. destruct (_ !! a) as [e|]; [|done]. intros [= <-]. eauto.
Qed.

Lemma receive_bitfield sh s l x ms :
  inv g sh (s :: l) → honest (Shared.tracker sh) s x → accounted sh s → Session.phase s = AtSelect →
  Session.choked s = true → Session.current s = None → Forall (eq Interested) (unread s x) → reading s x →
  Seeder.in_transit x = Bitfield (Bitfield.to_message_bytes (full_bitfield (num_pieces g))) :: ms →
  coming (pop x ms) = [Unchoke] →
  let r := on_bitfield g sh s (Bitfield.to_message_bytes (full_bitfield (num_pieces g))) in
  improves sh s x r.1 r.2 (pop x ms).
Proof using Hg Hdata.
  intros Hinv Hh Hacc Hph Hch Hcur Hun Hrd Hin Hco. unfold on_bitfield.
  destruct (full_bitfield_received (num_pieces g)) as (b & -> & Hb).
  destruct (bitfield_fits g sh s l b Hinv ltac:(unfold active; by rewrite Hph)) as (t' & Ht' & _).
  rewrite Ht'. apply PieceTracker.add_bitfield_Ok_inv in Ht' as [_ Ht']. cbn [fst snd].
  eapply improves_greeting; try done.
  - by apply (honest_greeting _ _ _ true).
  - intros e'. by refine (alter_downloaded (Shared.set_tracker sh t') _ _ e' _).
  - cbn. by rewrite Ht'.
Qed.

Lemma receive_unchoke sh s x ms :
  honest (Shared.tracker sh) s x → accounted sh s → Session.phase s = AtSelect →
  Session.choked s = true → Session.current s = None → advertised s →
  Forall (eq Interested) (unread s x) → reading s x →
  Seeder.in_transit x = Unchoke :: ms → coming (pop x ms) = [] →
  let r := on_message g sh s Unchoke in improves sh s x r.1 r.2 (pop x ms).
Proof using Hg Hdata.
  intros Hh Hacc Hph Hch Hcur Had Hun Hrd Hin Hco. cbn [on_message fst snd].
  eapply improves_greeting; try done.
  - apply honest_idle; auto.
  - intros e'. by apply alter_downloaded.
Qed.

(** *** A block arrives *)

(** One block less to download, and its bytes are counted. *)
Lemma improves_block sh s x sh' s' ms (n : Z) :
  honest (Shared.tracker sh') s' (pop x ms) → accounted sh s → Session.phase s = AtSelect →
  over s' = false → rank s' ≤ 6 → Session.choked s = false → Session.choked s' = false →
  Session.addr s' = Session.addr s → Session.outbox s' = Session.outbox s →
  0 ≤ n ≤ BLOCK_SIZE →
  (∀ e', SwarmStats.peers (Shared.stats sh') !! Session.addr s = Some e' →
     ∃ e, SwarmStats.peers (Shared.stats sh) !! Session.addr s = Some e ∧
          PeerEntry.downloaded e' = PeerEntry.downloaded e + n) →
  left_over (Shared.tracker sh') s' = left_over (Shared.tracker sh) s - 1 →
  unrequested s' = unrequested s →
  to_fetch g (Shared.tracker sh') (PieceAssembler.index <$> Session.current s') =
    to_fetch g (Shared.tracker sh) (PieceAssembler.index <$> Session.current s) →
  improves sh s x sh' s' (pop x ms).
Proof using Hg Hdata.
  intros Hh Hacc Hph Ho' Hr Hch Hch' Ha Hout Hn Hst Hl Hu Hf.
  assert (over s = false ∧ accepted s = true ∧ rank s = 2) as (Hov & Hap & Hrk)
    by (unfold accepted, over, rank; by rewrite Hph).
  split; [done|]. split.
  - intros _ _ e' He'. rewrite Ha in He'. destruct (Hst e' He') as (e & He & ->). rewrite Hl.
    destruct (Hacc Hap Hov e He). lia.
  - unfold potential, greetings. rewrite Ho', Hov, Hch, Hch', Hl, Hu, Hf, Hrk.
    unfold backlog, unread. rewrite Hout. cbn [Seeder.read Seeder.to_send pop]. lia.
Qed.

(** ... and when it was the last of all, the task leaves. *)
Lemma improves_last sh s x sh' s' ms :
  session_ok g s → Session.phase s = AtSelect → Session.choked s = false →
  Session.outbox s' = Session.outbox s →
  Session.phase s' = Leaving (Ok ()) → PieceTracker.is_complete (Shared.tracker sh') = true →
  improves sh s x sh' s' (pop x ms).
Proof using Hg Hdata.
  intros Hok Hph Hch Hout Hph' Hc.
  assert (over s = false ∧ rank s = 2 ∧ over s' = true ∧ rank s' = 1) as (Hov & Hrk & Hov' & Hrk')
    by (unfold over, rank; by rewrite Hph, Hph').
  split; [apply honest_over; [by left|done]|]. split; [intros _; by rewrite Hov'|].
  destruct (work_nonneg (Shared.tracker sh) s Hok) as (? & ? & ?).
  unfold potential, greetings. rewrite Hov, Hrk, Hov', Hrk', Hch.
  unfold backlog, unread. rewrite Hout. cbn [Seeder.read Seeder.to_send pop]. lia.
Qed.

Lemma record_fits sh s n :
  BLOCK_SIZE * total_blocks g < 2 ^ 64 → accounted sh s → accepted s = true → over s = false →
  n ≤ BLOCK_SIZE → 1 ≤ left_over (Shared.tracker sh) s →
  ∃ st, SwarmStats.record_block (Shared.stats sh) (Session.addr s) n = Ok st ∧
    ∀ e', SwarmStats.peers st !! Session.addr s = Some e' →
      ∃ e, SwarmStats.peers (Shared.stats sh) !! Session.addr s = Some e ∧
           PeerEntry.downloaded e' = PeerEntry.downloaded e + n.
Proof using Hg Hdata.
  intros Hbound Hacc Hap Hov Hn Hl. unfold SwarmStats.record_block. pose proof BLOCK_SIZE_val.
  destruct (_ !! Session.addr s) as [e|] eqn:He.
  - destruct (Hacc Hap Hov e He) as [H0' H1']. rewrite add_w_Ok by nia. red_result.
    eexists. split; [done|]. cbn. intros e'. rewrite lookup_insert_eq. intros [= <-]. by exists e.
  - eexists. split; [done|]. intros e'. cbn. by rewrite He.
Qed.

(** The assembler takes the next block. *)
Lemma next_block_stored asm i r :
  PieceAssembler.index asm = i → 0 ≤ i < Geometry.num_pieces g → prefix_assembled asm r →
  0 ≤ r < blocks g i →
  ∃ asm', PieceAssembler.add_block asm (r * BLOCK_SIZE)
            (block_data (piece_bytes g data i) (block g i r)) = Ok asm' ∧
    PieceAssembler.index asm' = i ∧ prefix_assembled asm' (r + 1) ∧
    PieceAssembler.remaining asm' = PieceAssembler.remaining asm - 1 ∧
    (PieceAssembler.is_complete asm' = true →
       r + 1 = blocks g i ∧ PieceAssembler.into_bytes asm' = piece_bytes g data i).
Proof using Hg Hdata.
  intros Hidx Hi (ks & Has & Hks) Hr. rewrite Hidx in Has.
  pose proof (piece_bytes_length g Hg data _ Hi Hdata) as Hlen.
  assert (Geometry.valid_block g i r) as Hv by (split; [done|exact Hr]).
  destruct (deliver_assembled g i _ Hg Hi Hlen ks asm r Hv Has) as (asm' & Hd & Has').
  rewrite deliver_block in Hd by done. exists asm'. split; [done|].
  pose proof Has as (Hwf & Hl & Hrec & _).
  pose proof (block_data_length g data Hg Hdata i r Hv) as Hbl. pose proof BLOCK_SIZE_val as Hbs.
  destruct (PieceAssembler.add_block_Ok asm (r * BLOCK_SIZE)
    (block_data (piece_bytes g data i) (block g i r)) asm' Hwf ltac:(nia) ltac:(lia) Hd) as [-> Hwf'].
  split; [done|]. split.
  { exists (r :: ks). cbn [PieceAssembler.index PieceAssembler.stored]. rewrite Hidx. split; [done|].
    intros j. rewrite elem_of_cons, Hks. lia. }
  pose proof Hwf as (_ & _ & Hlr & Hm). rewrite Hl in Hlr. fold (blocks g i) in Hlr. split.
  - assert (PieceAssembler.received asm !! Z.to_nat r = Some false) as Hf.
    { destruct (PieceAssembler.received asm !! Z.to_nat r) as [[]|] eqn:Hx; [|done|].
      - apply Hrec, Hks in Hx. lia.
      - apply lookup_ge_None in Hx. lia. }
    cbn. rewrite Z.div_mul by (rewrite Hbs; lia). pose proof (PieceAssembler.missing_insert _ _ Hf). lia.
  - intros Hc. destruct (assembled_complete g i _ Hg Hi Hlen _ _ Has') as [Hall Hbytes].
    split; [|by apply Hbytes].
    assert (Geometry.valid_block g i (blocks g i - 1)) as Hlast by (split; [done|]; fold (blocks g i); lia).
    apply (proj1 Hall Hc), elem_of_cons in Hlast as [?|Hlast%Hks]; lia.
Qed.

Context (Hbound : BLOCK_SIZE * total_blocks g < 2 ^ 64).

(** What is left after the block, whether or not the piece is whole. *)
Lemma left_over_block t s asm asm' n f :
  Session.current s = Some asm → PieceAssembler.index asm' = PieceAssembler.index asm →
  PieceAssembler.remaining asm' = PieceAssembler.remaining asm - 1 →
  left_over t (Session.set_work s (Some asm') n f) = left_over t s - 1.
Proof using Hg Hdata.
  intros Hcur Hi Hrem. unfold left_over, missing_blocks. cbn. rewrite Hcur. cbn. rewrite Hi, Hrem. lia.
Qed.

(** The seeder and its task after the last block of a piece. *)
Lemma honest_after_piece t s x ms p :
  p = AtTop ∨ (∃ v c, p = Delivering v c ∧ VerifiedPiece.data v = piece_bytes g data (VerifiedPiece.index v)) →
  Session.choked s = false → advertised s → Forall (eq Interested) (unread s x) → reading s x →
  Seeder.to_send x = [] → ms = [] → ∀ n f,
  honest t (Session.set_phase (Session.set_work s None n f) p) (pop x ms).
Proof using Hg Hdata.
  intros Hp Hch Had Hun Hrd Hts -> n f. apply honest_idle; try done.
  - destruct Hp as [->|(v & c & -> & ?)]; [by left|]. right; right. by exists v, c.
Qed.

Lemma receive_piece sh s x asm (i r q : Z) pre ms :
  task_ready sh s → verifies (Shared.tracker sh) → accounted sh s →
  Session.phase s = AtSelect → Session.choked s = false → Session.current s = Some asm → advertised s →
  PieceAssembler.index asm = i → 0 ≤ i < Geometry.num_pieces g →
  prefix_assembled asm r → PieceAssembler.remaining asm ≠ 0 →
  0 ≤ r → 0 < q → r + q ≤ Session.next_block s ≤ blocks g i →
  Session.in_flight s = Session.next_block s - r → Forall (eq Interested) pre →
  unread s x = pre ++ requests i (r + q) (Session.next_block s - (r + q)) →
  reading s x → Seeder.to_send x = [] → ms = answers i (r + 1) (q - 1) →
  let res := on_message g sh s (piece_message g data i r) in improves sh s x res.1 res.2 (pop x ms).
Proof using Hg Hdata Hbound.
  intros Hr Hver Hacc Hph Hch Hcur Had Hidx Hi Has Hrem Hr0 Hq Hnb Hfl Hpre Hun Hrd Hts Hms.
  assert (over s = false ∧ accepted s = true) as (Hov & Hap)
    by (unfold accepted, over; by rewrite Hph).
  pose proof (ready_session _ _ Hr) as Hok. pose proof (ready_tracker _ _ Hr) as Hwf.
  assert (Geometry.valid_block g i r) as Hv by (split; [done|]; fold (blocks g i); lia).
  pose proof (block_data_length g data Hg Hdata i r Hv) as Hbl.
  destruct (next_block_stored asm i r Hidx Hi Has ltac:(lia)) as (asm' & Hadd & Hidx' & Has' & Hrem' & Hwhole).
  assert (0 < left_over (Shared.tracker sh) s) as Hpos.
  { unfold left_over, missing_blocks. rewrite Hcur. cbn.
    pose proof (to_fetch_nonneg g Hg (Shared.tracker sh) (Some (PieceAssembler.index asm))).
    pose proof Hok as (_ & _ & _ & _ & _ & Hw & _). unfold work_ok in Hw. rewrite Hcur in Hw.
    destruct Hw as ((_ & _ & _ & Hm) & _). lia. }
  cbn [on_message piece_message]. unfold on_piece. cbn [Block.data].
  destruct (record_fits sh s (Z.of_nat (length (block_data (piece_bytes g data i) (block g i r))))
    Hbound Hacc Hap Hov ltac:(lia) ltac:(lia)) as (st & -> & Hst).
  unfold handle_block. rewrite Hcur. cbn [Block.index Block.begin Block.data Shared.tracker Shared.set_stats].
  rewrite Hidx, Z.eqb_refl. cbn [negb]. rewrite Hadd. cbn [mbind result_bind].
  assert (saturating_sub (Session.in_flight s) 1 = Session.next_block s - (r + 1)) as ->
    by (unfold saturating_sub; lia).
  destruct (PieceAssembler.is_complete asm') eqn:Hc; cbn [negb].
  2:{ cbn [after_block fst snd].
      apply (improves_block sh s x _ _ ms (Z.of_nat (length (block_data (piece_bytes g data i) (block g i r)))));
        try done; try lia.
      - apply (honest_working _ _ _ asm' (r + 1) (q - 1) pre); try done; rewrite ?Hidx'; cbn; try lia; try done.
        + by apply Z.eqb_neq in Hc.
        + replace (r + 1 + (q - 1)) with (r + q) by lia. exact Hun.
      - apply (left_over_block _ s asm asm'); congruence.
      - unfold unrequested. rewrite Hcur. cbn. by rewrite Hidx', Hidx.
      - rewrite Hcur. cbn. by rewrite Hidx', Hidx. }
  destruct (Hwhole eq_refl) as [Hr1 Hbytes]. apply Z.eqb_eq in Hc.
  assert (q = 1 ∧ Session.next_block s = r + 1) as [-> Hnb'] by lia.
  assert (ms = []) as Hnil by (rewrite Hms; unfold answers; by rewrite seqZ_nil by lia).
  assert (Forall (eq Interested) (unread s x)) as Hunp.
  { rewrite Hun. unfold requests. rewrite seqZ_nil by lia. by rewrite app_nil_r. }
  pose proof (ready_pieces _ _ Hr) as Hn.
  assert (∀ st' t' c n f p, over (Session.set_phase s p) = false → rank (Session.set_phase s p) ≤ 6 →
    p = AtTop ∨ (∃ v c, p = Delivering v c ∧ VerifiedPiece.data v = piece_bytes g data (VerifiedPiece.index v)) →
    n = Session.next_block s → c = None → Shared.stats st' = st → Shared.tracker st' = t' →
    to_fetch g t' None = to_fetch g (Shared.tracker sh) (Some i) →
    improves sh s x st' (Session.set_phase (Session.set_work s c n f) p) (pop x ms)) as Hdone.
  { intros sh' t' c n f p Ho' Hrk Hp -> -> Hst' Ht' Hf'.
    apply (improves_block sh s x _ _ ms (Z.of_nat (length (block_data (piece_bytes g data i) (block g i r)))));
      try done; try lia; cbn.
    - by apply honest_after_piece.
    - by rewrite Hst'.
    - unfold left_over, missing_blocks. cbn. rewrite Hcur, Ht', Hf'. cbn. rewrite Hidx. lia.
    - unfold unrequested. rewrite Hcur. cbn. rewrite Hidx. lia.
    - rewrite Hcur, Ht', Hf'. cbn. by rewrite Hidx. }
  rewrite Hidx', Hbytes, (Hver i Hi).
  destruct (PieceTracker.has (Shared.tracker sh) i) eqn:Hhas; cbv beta iota zeta.
  - unfold after_block. destruct (PieceTracker.is_complete (Shared.tracker sh)) eqn:Hcomp; cbn [fst snd].
    + by apply improves_last.
    + apply (Hdone _ (Shared.tracker sh)); auto; try done. symmetry. apply to_fetch_owned; [lia|exact Hhas].
  - cbn [fst snd]. apply (Hdone _ (PieceTracker.mark_have (Shared.tracker sh) i)); try done.
    + right. by do 2 eexists.
    + by apply to_fetch_mark.
Qed.

(** Every message the task receives brings the pair forward. *)
Lemma receive_step sh s l x m ms sh' s' :
  inv g sh (s :: l) → task_ready sh s → verifies (Shared.tracker sh) →
  honest (Shared.tracker sh) s x → accounted sh s → Seeder.in_transit x = m :: ms →
  session_step g sh s (Received (Ok (Some m))) = Some (sh', s') → improves sh s x sh' s' (pop x ms).
Proof using Hg Hdata Hbound.
  intros Hinv Hr Hver Hh Hacc Hin Hs.
  assert (Session.phase s = AtSelect ∧ on_message g sh s m = (sh', s')) as [Hph Hm].
  { unfold session_step in Hs. destruct (Session.phase s); try done. by injection Hs. }
  clear Hs. assert ((sh', s').1 = sh' ∧ (sh', s').2 = s') as [Hf Hsn] by done.
  rewrite <-Hm in Hf, Hsn. subst sh' s'. clear Hm.
  pose proof (coming_pop x m ms Hin) as Hco.
  destruct Hh as [Hf|told Hl Hch Hcur Hun Hrd Hco' Had|Hx|asm r q pre Hl Hch Hcur Had Hi Has Hrem Hr0 Hq0
    Hnb Hfl Hsel Hpre Hun Hrd Hts Hin'|Hx].
  - by wrong_phase Hph.
  - rewrite Hco in Hco'. destruct told; injection Hco' as -> Hrest.
    + apply receive_unchoke; auto. by apply (honest_greeting _ _ _ true); auto; rewrite Hco, Hrest.
    + apply (receive_bitfield sh s l); auto. by apply (honest_greeting _ _ _ false); auto; rewrite Hco, Hrest.
  - by wrong_phase Hph.
  - destruct (decide (0 < q)) as [Hq|Hq]; [|unfold answers in Hin'; rewrite seqZ_nil in Hin' by lia; by rewrite Hin in Hin'].
    rewrite answers_cons, Hin in Hin' by done. injection Hin' as -> Hms.
    by apply (receive_piece sh s x asm _ r q pre).
  - by wrong_phase Hph.
Qed.
End honest.

(** ** The whole net *)

Section net_liveness.
Context {A : Type} `{Sha1} `{Countable A}.
Context (g : Geometry.t) (data : list byte) (k : nat).
Context (Hg : Geometry.wf g) (Hdata : Z.of_nat (length data) = Geometry.total_length g).
Context (Hbound : BLOCK_SIZE * total_blocks g < 2 ^ 64).
Implicit Types (w : Net A) (s : Session.t Bitfield.t A).

Record net_ok w s : Prop := {
  ok_inv : swarm_inv g (swarm w);
  ok_control : Shared.control (swarm_shared (swarm w)) = Running;
  ok_verifies : verifies g data (Shared.tracker (swarm_shared (swarm w)));
  ok_addrs : NoDup (Session.addr <$> sessions (swarm w));
  ok_task : sessions (swarm w) !! k = Some s;
  ok_honest : honest g data (Shared.tracker (swarm_shared (swarm w))) s (seeder w);
  ok_accounted : accounted g (swarm_shared (swarm w)) s;
}.

Definition net_potential w s : Z :=
  potential g (Shared.tracker (swarm_shared (swarm w))) s (seeder w).

Lemma net_ready w s : net_ok w s → task_ready g (swarm_shared (swarm w)) s.
Proof using.
  intros [[Hinv _] Hc _ _ Hk _ _]. destruct Hinv as [Ht Hn _ Hs _ _ _ Hd Hcomp _].
  constructor; try done; by eapply (Forall_lookup_1 _ _ k).
Qed.

Lemma net_head w s :
  net_ok w s → inv g (swarm_shared (swarm w)) (s :: delete k (sessions (swarm w))).
Proof using.
  intros [[Hinv _] _ _ _ Hk _ _]. eapply inv_perm; [|exact Hinv]. by apply delete_Permutation.
Qed.

(** What the swarm keeps whatever moves. *)
Lemma net_frame w s a v' x' s' :
  net_ok w s → action_ok a → (∀ c, a ≠ Control c) → swarm_step g (swarm w) a = Some v' →
  sessions v' !! k = Some s' → honest g data (Shared.tracker (swarm_shared v')) s' x' →
  accounted g (swarm_shared v') s' → net_ok (mk_net v' x') s'.
Proof using Hg.
  intros Hok Ha Hc Hstep Hk Hh Hacc. pose proof (ok_inv _ _ Hok) as Hinv.
  destruct (swarm_step_frame g (swarm w) a v' (inv_tracker _ _ _ (proj1 Hinv)) Hc Hstep) as (Hctl & _ & Haddr & _).
  constructor; cbn [swarm seeder]; try done.
  - by eapply (swarm_step_inv g Hg).
  - rewrite Hctl. apply Hok.
  - intros i Hi. pose proof (ok_verifies _ _ Hok i Hi) as Hv. unfold PieceTracker.verify in *.
    by rewrite (reachable_hashes g (swarm w) v') by (apply rtc_once; by exists a).
  - rewrite Haddr. apply Hok.
Qed.

(** A step of the task itself. *)
Lemma net_task w s e v' x' :
  net_ok w s → event_ok e → swarm_step g (swarm w) (Task k e) = Some v' →
  (∀ sh' s', session_step g (swarm_shared (swarm w)) s e = Some (sh', s') →
     improves g data (swarm_shared (swarm w)) s (seeder w) sh' s' x') →
  ∃ s', net_ok (mk_net v' x') s' ∧ net_potential (mk_net v' x') s' < net_potential w s.
Proof using Hg.
  intros Hok He Hstep Himp. pose proof Hstep as Hst. cbn [swarm_step] in Hst.
  rewrite (ok_task _ _ Hok) in Hst. cbn in Hst. apply bind_Some in Hst as ([sh' s'] & Hs & [= <-]).
  destruct (Himp sh' s' Hs) as (Hh & Hacc & Hp). exists s'. split; [|exact Hp].
  apply (net_frame w s (Task k e)); try done. cbn. apply list_lookup_insert_eq. by eapply lookup_lt_Some, ok_task.
Qed.

(** A message of the seeder is well typed. *)
Lemma honest_message (sh : Shared.t Bitfield.t A) s x m ms :
  honest g data (Shared.tracker sh) s x → Session.phase s = AtSelect →
  Seeder.in_transit x = m :: ms → event_ok (Received (Ok (Some m))).
Proof using Hg Hdata.
  intros Hh Hph Hin.
  destruct Hh as [Hf|told Hl ? ? ? ? Hco|Hx|asm r q pre Hl Hch Hcur Had Hi Has Hrem Hr0 Hq0
    Hnb Hfl Hsel Hpre Hun Hrd Hts Hin'|Hx].
  - by wrong_phase Hph.
  - rewrite (coming_pop g data Hg Hdata x m ms Hin) in Hco. by destruct told; injection Hco as -> _.
  - by wrong_phase Hph.
  - destruct (decide (0 < q)) as [Hq|Hq]; [|unfold answers in Hin'; rewrite seqZ_nil in Hin' by lia; by rewrite Hin in Hin'].
    rewrite answers_cons, Hin in Hin' by done. injection Hin' as -> _.
    assert (Geometry.valid_block g (PieceAssembler.index asm) r) as Hv
      by (split; [done|]; fold (blocks g (PieceAssembler.index asm)); lia).
    pose proof (block_data_length g data Hg Hdata _ r Hv). pose proof BLOCK_SIZE_val.
    split; cbn; lia.
  - by wrong_phase Hph.
Qed.

(** Every move keeps [net_ok]; none raises the potential, and those of the pair
    lower it. *)
Lemma net_step_ok w s m w' :
  net_ok w s → move_ok m → net_step g data k w m = Some w' →
  ∃ s', net_ok w' s' ∧ net_potential w' s' ≤ net_potential w s ∧
    (own m = true → net_potential w' s' < net_potential w s).
Proof using Hg Hdata Hbound.
  intros Hok Hm Hstep. pose proof (net_ready w s Hok) as Hr.
  assert (∀ s', net_ok w' s' → net_potential w' s' < net_potential w s →
    ∃ s', net_ok w' s' ∧ net_potential w' s' ≤ net_potential w s ∧
      (own m = true → net_potential w' s' < net_potential w s)) as Hlower.
  { intros s' ??. exists s'. split_and!; [done|lia|done]. }
  destruct m as [| |e|a]; cbn [net_step] in Hstep.
  - rewrite (ok_task _ _ Hok) in Hstep. cbn [mbind option_bind] in Hstep.
    destruct (accepted s); [|done]. apply bind_Some in Hstep as (x & Hx & [= <-]).
    destruct (serve_step g data Hg Hdata _ s _ x (ok_honest _ _ Hok) Hx) as [Hh Hp].
    apply (Hlower s); [|exact Hp]. destruct Hok. by constructor.
  - destruct (Seeder.in_transit (seeder w)) as [|m ms] eqn:Hin; [done|].
    apply bind_Some in Hstep as (v1 & Hs & [= <-]).
    assert (Session.phase s = AtSelect) as Hph.
    { cbn [swarm_step] in Hs. rewrite (ok_task _ _ Hok) in Hs. cbn in Hs.
      apply bind_Some in Hs as (? & Hs & _). unfold session_step in Hs. by destruct (Session.phase s). }
    destruct (net_task w s _ v1 (pop (seeder w) ms) Hok (honest_message _ _ _ _ _ (ok_honest _ _ Hok) Hph Hin) Hs)
      as (s' & ? & ?); [|by apply (Hlower s')].
    intros sh' s' Hss. eapply (receive_step g data Hg Hdata Hbound); try done; try apply Hok. by apply net_head.
  - destruct (own_event e) eqn:He; [|done]. apply bind_Some in Hstep as (v1 & Hs & [= <-]).
    destruct (net_task w s e v1 (seeder w) Hok ltac:(by destruct e as [[]| | | | | | |]) Hs)
      as (s' & ? & ?); [|by apply (Hlower s')].
    intros sh' s' Hss. apply (task_step g data Hg Hdata _ _ _ e); try done; apply Hok.
  - destruct (other_action k a) eqn:Ho; [|done]. apply bind_Some in Hstep as (v1 & Hs & [= <-]).
    assert (∀ c, a ≠ Control c) as Hc by (intros c ->; done).
    assert (∀ e, a ≠ Task k e) as Hne by (intros e ->; cbn in Ho; by rewrite Nat.eqb_refl in Ho).
    pose proof (ok_inv _ _ Hok) as Hinv. pose proof (swarm_step_inv g Hg _ _ _ Hinv Hm Hs) as Hinv1.
    destruct (swarm_step_frame g (swarm w) a v1 (inv_tracker _ _ _ (proj1 Hinv)) Hc Hs) as (_ & Hown & _ & Hself).
    destruct (Hself k s (ok_task _ _ Hok) Hne) as [Hk1 Hst]. specialize (Hst (ok_addrs _ _ Hok)).
    exists s. split; [|split; [by apply (potential_kept g data Hg Hdata)|done]].
    eapply net_frame; try done.
    + eapply (honest_kept g data Hg Hdata); [|apply Hok].
      apply (complete_kept g data Hg Hdata); [apply Hinv|apply Hinv1| |exact Hown].
      by rewrite (inv_pieces _ _ _ (proj1 Hinv)), (inv_pieces _ _ _ (proj1 Hinv1)).
    + intros Hap Hov e He. rewrite Hst in He. destruct (ok_accounted _ _ Hok Hap Hov e He) as [? Hle].
      split; [done|]. pose proof (left_over_kept g data Hg Hdata _ _ s Hown). pose proof BLOCK_SIZE_val. nia.
Qed.

(** *** Somebody can move *)

Definition can_move w : Prop := ∃ m w', own m = true ∧ net_step g data k w m = Some w'.

Definition finished w : Prop :=
  PieceTracker.is_complete (Shared.tracker (swarm_shared (swarm w))) = true ∧
  ∃ s, sessions (swarm w) !! k = Some s ∧ Session.phase s = Ended (Ok ()).

Lemma own_moves w s e sh' s' :
  sessions (swarm w) !! k = Some s → own_event e = true →
  session_step g (swarm_shared (swarm w)) s e = Some (sh', s') → can_move w.
Proof using.
  intros Hk He Hs. eexists (Own e), _. split; [done|]. cbn [net_step]. rewrite He. cbn [swarm_step].
  rewrite Hk. cbn. rewrite Hs. done.
Qed.

Lemma proceed_moves w s :
  sessions (swarm w) !! k = Some s → Session.phase s = AtTop ∨ Session.phase s = AtClaim ∨
    (∃ v c, Session.phase s = Delivering v c) ∨ (∃ r, Session.phase s = Leaving r) → can_move w.
Proof using.
  intros Hk Hph. destruct (session_step g (swarm_shared (swarm w)) s Proceed) as [[sh' s']|] eqn:Hs;
    [by apply (own_moves w s Proceed sh' s')|].
  exfalso. unfold session_step in Hs. by destruct Hph as [Hp|[Hp|[(? & ? & Hp)|[? Hp]]]]; rewrite Hp in Hs.
Qed.

Lemma refill_moves w s : sessions (swarm w) !! k = Some s → Session.phase s = AtRefill → can_move w.
Proof using.
  intros Hk Hph. eapply (own_moves w s SendsOk); [done|done|]. unfold session_step. by rewrite Hph.
Qed.

Lemma receive_moves w s m ms :
  sessions (swarm w) !! k = Some s → Session.phase s = AtSelect → Seeder.in_transit (seeder w) = m :: ms → can_move w.
Proof using.
  intros Hk Hph Hin.
  destruct (on_recv g (swarm_shared (swarm w)) s (Ok (Some m))) as [sh' s'] eqn:Hr.
  eexists Receive, _. split; [done|]. cbn [net_step]. rewrite Hin. cbn [swarm_step].
  rewrite Hk. cbn [mbind option_bind]. unfold session_step. by rewrite Hph, Hr.
Qed.

Lemma serve_moves w s :
  sessions (swarm w) !! k = Some s → accepted s = true → Seeder.up (seeder w) = true →
  Seeder.to_send (seeder w) ≠ [] ∨ unread s (seeder w) ≠ [] → can_move w.
Proof using Hg Hdata.
  intros Hk Hap Hup Hsome.
  destruct (Seeder.step (Geometry.nominal_length g) data (Session.outbox s) (seeder w)) as [x|] eqn:Hx.
  - eexists Serve, _. split; [done|]. cbn [net_step]. rewrite Hk. cbn. by rewrite Hap, Hx.
  - exfalso. unfold Seeder.step, Seeder.turn in Hx. rewrite Hup in Hx.
    destruct (Seeder.to_send (seeder w)) as [|m ms]; [|done]. destruct Hsome as [?|Hun]; [done|].
    destruct (unread s (seeder w)) as [|m ms] eqn:Hu; [done|].
    destruct (unread_cons g data Hg Hdata s _ m ms Hu) as [Hm _]. rewrite Hm in Hx. cbn in Hx.
    by destruct (Seeder.answer _ _ m).
Qed.

Lemma looping_moves w s :
  sessions (swarm w) !! k = Some s → looping s = true → Seeder.up (seeder w) = true →
  (Session.phase s = AtSelect → coming (seeder w) ≠ [] ∨ unread s (seeder w) ≠ []) → can_move w.
Proof using Hg Hdata.
  intros Hk Hl Hup Hsel. unfold looping in Hl. destruct (Session.phase s) eqn:Hph; try done.
  - apply (proceed_moves w s); auto.
  - apply (proceed_moves w s); auto.
  - by apply (refill_moves w s).
  - destruct (Seeder.in_transit (seeder w)) as [|m ms] eqn:Hin; [|by apply (receive_moves w s m ms)].
    apply (serve_moves w s); [done|unfold accepted; by rewrite Hph|done|].
    destruct (Hsel eq_refl) as [Hco|]; [left|by right]. unfold coming in Hco. by rewrite Hin in Hco.
Qed.

Lemma net_progress w s : net_ok w s → finished w ∨ can_move w.
Proof using Hg Hdata.
  intros Hok. pose proof (ok_task _ _ Hok) as Hk.
  destruct (ok_honest _ _ Hok) as [Hf|told Hl ? ? ? Hrd Hco|Hx|asm r q pre Hl Hch Hcur Had Hi Has Hrem Hr0 Hq0
    Hnb Hfl Hsel Hpre Hun Hrd Hts Hin|Hx Hc].
  - right. unfold Coordinators.is_fresh in Hf. destruct (Session.phase s) eqn:Hph; try done.
    + eapply (own_moves w s (Connected (Ok ()))); [done|done|]. unfold session_step. by rewrite Hph.
    + eapply (own_moves w s SendsOk); [done|done|]. unfold session_step. by rewrite Hph.
  - right. apply (looping_moves w s); try done; [apply Hrd|]. intros _. left. rewrite Hco. by destruct told.
  - right. apply (proceed_moves w s); [done|]. destruct Hx as [?|[?|(v & c & ? & _)]]; eauto 6.
  - right. apply (looping_moves w s); try done; [apply Hrd|]. intros Hph. specialize (Hsel Hph).
    destruct (decide (0 < q)) as [Hq|Hq].
    + left. unfold coming. rewrite Hin, answers_cons by done. done.
    + right. rewrite Hun, requests_cons by lia. by destruct pre.
  - destruct Hx as [Hph|Hph]; [right; apply (proceed_moves w s); eauto 6|left].
    split; [done|]. by exists s.
Qed.

(** *** Runs *)

Lemma run_moves_ok ms w s w' :
  net_ok w s → Forall move_ok ms → run_moves g data k w ms = Some w' →
  ∃ s', net_ok w' s' ∧
    Z.of_nat (length (filter (λ m, own m = true) ms)) + net_potential w' s' ≤ net_potential w s.
Proof using Hg Hdata Hbound.
  intros Hok Hms. revert w s Hok. induction Hms as [|m ms Hm _ IH]; intros w s Hok; cbn [run_moves].
  { intros [= <-]. exists s. split; [done|]. rewrite filter_nil. cbn. lia. }
  intros (w1 & Hs & Hrun)%bind_Some. destruct (net_step_ok w s m w1 Hok Hm Hs) as (s1 & Hok1 & Hle & Hlt).
  destruct (IH w1 s1 Hok1 Hrun) as (s' & Hok' & Hle'). exists s'. split; [done|].
  rewrite filter_cons. case_decide; cbn [length]; [specialize (Hlt ltac:(done)); lia|lia].
Qed.

Lemma potential_nonneg w s : net_ok w s → 0 ≤ net_potential w s.
Proof using Hg Hdata.
  intros Hok. destruct (work_nonneg g data Hg Hdata (Shared.tracker (swarm_shared (swarm w))) s
    (ready_session _ _ _ (net_ready w s Hok))) as (? & ? & ?).
  unfold net_potential, potential, backlog, greetings.
  assert (0 ≤ rank s) by (unfold rank; destruct (Session.phase s); lia).
  destruct (over s), (Session.choked s); lia.
Qed.

Lemma start_net_ok sh peers :
  initial g sh → Shared.control sh = Running → verifies g data (Shared.tracker sh) →
  NoDup peers → Z.of_nat (length peers) + 1 < 2 ^ 32 → (k < length peers)%nat →
  ∃ s, net_ok (start_net g sh peers) s ∧ net_potential (start_net g sh peers) s = 22 + 7 * total_blocks g.
Proof using Hg Hdata.
  intros Hi Hc Hv Hnd Hlen Hk. apply lookup_lt_is_Some in Hk as [a Ha].
  exists (new_session g a). split.
  - constructor; try done.
    + by apply run_tasks_inv.
    + cbn. rewrite <-list_fmap_compose. cbn. by rewrite list_fmap_id.
    + cbn. by rewrite list_lookup_fmap, Ha.
    + by apply honest_fresh.
  - unfold net_potential, potential. cbn. unfold left_over, greetings, backlog, unread, unrequested. cbn.
    destruct Hi as (_ & _ & _ & Hh & _). rewrite (to_fetch_new g Hg _ Hh). lia.
Qed.
End net_liveness.

(** *** What the only task delivers *)

Section authentic.
Context {A : Type} `{Sha1} `{Countable A}.
Context (g : Geometry.t) (data : list byte).
Context (Hg : Geometry.wf g) (Hdata : Z.of_nat (length data) = Geometry.total_length g).
Context (Hbound : BLOCK_SIZE * total_blocks g < 2 ^ 64).
Implicit Types (sh : Shared.t Bitfield.t A) (s : Session.t Bitfield.t A).

Definition authentic (v : VerifiedPiece.t) : Prop :=
  VerifiedPiece.data v = piece_bytes g data (VerifiedPiece.index v).

(** The moves of the pair only add to what was sent. *)
Lemma own_step_sent k (w : Net A) m w' :
  own m = true → net_step g data k w m = Some w' →
  Shared.rx_open (swarm_shared (swarm w')) = Shared.rx_open (swarm_shared (swarm w)) ∧
  Shared.sent (swarm_shared (swarm w)) `prefix_of` Shared.sent (swarm_shared (swarm w')) ∧
  (Shared.rx_open (swarm_shared (swarm w)) = false →
   Shared.sent (swarm_shared (swarm w')) = Shared.sent (swarm_shared (swarm w))).
Proof using.
  intros Hm Hstep. destruct m as [| |e|a]; cbn [net_step] in Hstep; [..|done].
  - apply bind_Some in Hstep as (s0 & _ & Hstep). destruct (accepted s0); [|done].
    by apply bind_Some in Hstep as (x & _ & [= <-]).
  - destruct (Seeder.in_transit (seeder w)); [done|].
    apply bind_Some in Hstep as (v' & Hs & [= <-]). by eapply swarm_step_prefix; [|exact Hs].
  - destruct (own_event e); [|done]. apply bind_Some in Hstep as (v' & Hs & [= <-]).
    by eapply swarm_step_prefix; [|exact Hs].
Qed.

(** In a swarm of one task everything sent is the seeder's data. *)
Lemma sole_step (w : Net A) s m w' :
  net_ok g data 0 w s → length (sessions (swarm w)) = 1%nat → move_ok m →
  net_step g data 0 w m = Some w' → Forall authentic (Shared.sent (swarm_shared (swarm w))) →
  length (sessions (swarm w')) = 1%nat ∧ Forall authentic (Shared.sent (swarm_shared (swarm w'))).
Proof using Hg Hdata.
  intros Hok Hone Hm Hstep Hall. pose proof (ok_task _ _ _ _ _ Hok) as Hk.
  assert (∀ e v', swarm_step g (swarm w) (Task 0 e) = Some v' →
    length (sessions v') = 1%nat ∧ Forall authentic (Shared.sent (swarm_shared v'))) as Htask.
  { intros e v'. cbn [swarm_step]. rewrite Hk. cbn. intros ([sh' s'] & Hs & [= <-])%bind_Some. cbn.
    rewrite length_insert. split; [done|].
    destruct (session_step_sent g _ _ _ _ _ Hs) as [_ [->|(v & c & Hph & ->)]]; [done|]. cbn.
    destruct (Shared.rx_open _); [|done]. apply Forall_app. split; [done|]. constructor; [|done].
    destruct (ok_honest _ _ _ _ _ Hok) as [|? Hl|Hx|? ? ? ? Hl|]; try by wrong_phase Hph.
    destruct Hx as [Hx|[Hx|(v' & c' & Hx & Hv)]]; [congruence..|].
    rewrite Hph in Hx. by injection Hx as <- <-. }
  destruct m as [| |e|a]; cbn [net_step] in Hstep.
  - apply bind_Some in Hstep as (s0 & _ & Hstep). destruct (accepted s0); [|done].
    by apply bind_Some in Hstep as (x & _ & [= <-]).
  - destruct (Seeder.in_transit (seeder w)); [done|].
    apply bind_Some in Hstep as (v' & Hs & [= <-]). by apply (Htask _ _ Hs).
  - destruct (own_event e); [|done]. apply bind_Some in Hstep as (v' & Hs & [= <-]). by apply (Htask _ _ Hs).
  - destruct a as [[|j] e|c|]; cbn [other_action Nat.eqb negb] in Hstep; try done; cbn [swarm_step] in Hstep.
    + rewrite lookup_ge_None_2 in Hstep by lia. done.
    + cbn in Hstep. by injection Hstep as <-.
Qed.

Lemma sole_run ms (w : Net A) s w' :
  net_ok g data 0 w s → length (sessions (swarm w)) = 1%nat → Forall move_ok ms →
  run_moves g data 0 w ms = Some w' → Forall authentic (Shared.sent (swarm_shared (swarm w))) →
  Forall authentic (Shared.sent (swarm_shared (swarm w'))).
Proof using Hg Hdata Hbound.
  intros Hok Hone Hms. revert w s Hok Hone.
  induction Hms as [|m ms Hm _ IH]; intros w s Hok Hone; cbn [run_moves]; [by intros [= <-]|].
  intros (w1 & Hs & Hrun)%bind_Some Hall.
  destruct (net_step_ok g data 0 Hg Hdata Hbound w s m w1 Hok Hm Hs) as (s1 & Hok1 & _ & _).
  destruct (sole_step w s m w1 Hok Hone Hm Hs Hall) as [Hone1 Hall1].
  by apply (IH w1 s1).
Qed.
End authentic.

(** ** Properties *)

(** C2: A download with one honest seeder finishes. Put a seeder of the content
    behind one task of any swarm whose pieces have the content's digests; let
    the other tasks and their peers do anything, in any interleaving. Then the
    seeder and its task make at most 22 + 7 N moves between them, where N is
    the number of blocks of the torrent; and whenever neither of the two can
    move, the torrent is complete and the task has ended in order. So however
    the other peers behave, it is enough not to neglect these two. *)
Theorem seeder_completes {A : Type} `{Sha1} `{Countable A} g data k
    (sh : Shared.t Bitfield.t A) peers ms w :
  Geometry.wf g → Z.of_nat (length data) = Geometry.total_length g →
  BLOCK_SIZE * total_blocks g < 2 ^ 64 →
  initial g sh → Shared.control sh = Running →
  (∀ i, 0 ≤ i < Geometry.num_pieces g →
     PieceTracker.verify (Shared.tracker sh) i (piece_bytes g data i) = true) →
  NoDup peers → Z.of_nat (length peers) + 1 < 2 ^ 32 → (k < length peers)%nat →
  Forall move_ok ms → run_moves g data k (start_net g sh peers) ms = Some w →
  Z.of_nat (length (filter (λ m, own m = true) ms)) ≤ 22 + 7 * total_blocks g ∧
  ((∃ m w', own m = true ∧ net_step g data k w m = Some w') ∨
   PieceTracker.is_complete (Shared.tracker (swarm_shared (swarm w))) = true ∧
   ∃ s, sessions (swarm w) !! k = Some s ∧ Session.phase s = Ended (Ok ())).
Proof.
  intros Hg Hdata Hbound Hi Hc Hv Hnd Hlen Hk Hms Hrun.
  destruct (start_net_ok g data k Hg Hdata sh peers Hi Hc Hv Hnd Hlen Hk) as (s & Hok & Hp).
  destruct (run_moves_ok g data k Hg Hdata Hbound ms _ s w Hok Hms Hrun) as (s' & Hok' & Hle).
  pose proof (potential_nonneg g data k Hg Hdata w s' Hok'). split; [lia|].
  destruct (net_progress g data k Hg Hdata w s' Hok') as [?|?]; [by right|by left].
Qed.
