(* ===== verification/Refinements.v ===== *)
(** * What the coordinator promises ([Coordinator::run])

    The contract of [src/download/mod.rs], without peers, messages, requests or
    claims: a set of owned pieces that grows by verified pieces only, a list of
    deliveries to the disk writer, each an owned piece with its data and never
    the same piece twice, and a completion signal that is raised when every
    piece is owned and never taken back. The running swarm refines it: every
    step of every task is zero or more steps of the contract. What holds of the
    contract is then proved on three small rules. *)

From S2P Require Export Liveness.

(** ** The contract *)

Module Spec.
Record t : Type := mk {
  owned : gset nat;
  delivered : list (nat * list byte);
  finished : bool;
}.

Definition start : t := mk ∅ [] false.

Section spec.
(** The number of pieces, and which data is right for a piece. *)
Context (n : nat) (right : nat → list byte → Prop).

Inductive step : relation t :=
  | step_own i d o l f :
      (i < n)%nat → i ∉ o → right i d → step (mk o l f) (mk ({[i]} ∪ o) l f)
  | step_deliver i d o l f :
      i ∈ o → i ∉ l.*1 → right i d → step (mk o l f) (mk o (l ++ [(i, d)]) f)
  | step_finish o l :
      (∀ i, (i < n)%nat → i ∈ o) → step (mk o l false) (mk o l true).

(** What holds in every state of the contract. *)
Record ok (x : t) : Prop := {
  ok_range i : i ∈ owned x → (i < n)%nat;
  ok_once : NoDup (delivered x).*1;
  ok_right i d : (i, d) ∈ delivered x → i ∈ owned x ∧ right i d;
  ok_finished : finished x = true → ∀ i, (i < n)%nat → i ∈ owned x;
}.

Lemma spec_start_ok : ok start.
Proof. constructor; cbn; [set_solver|constructor|intros ?? ?%not_elem_of_nil; done|done]. Qed.

Lemma spec_step_ok x y : ok x → step x y → ok y.
Proof.
  intros [Hr Ho Hg Hf] Hs. destruct Hs as [i d o l f Hi Hno Hd|i d o l f Hi Hno Hd|o l Hall]; cbn in *.
  - constructor; cbn; [set_solver|done| |set_solver].
    intros j e Hj. destruct (Hg j e Hj). set_solver.
  - constructor; cbn; [done| | |done].
    + rewrite fmap_app. apply NoDup_app. split_and!; [done| |apply NoDup_singleton].
      intros j Hj ->%list_elem_of_singleton. done.
    + intros j e [Hj|Hj]%elem_of_app; [by apply Hg|].
      apply list_elem_of_singleton in Hj. by injection Hj as -> ->.
  - by constructor.
Qed.

(** Nothing is taken back. *)
Definition grows (x y : t) : Prop :=
  owned x ⊆ owned y ∧ delivered x `prefix_of` delivered y ∧ (finished x = true → finished y = true).

Lemma steps_grow x y : rtc step x y → grows x y.
Proof.
  induction 1 as [x|x y z Hs _ (Ho & Hd & Hf)]; [done|].
  destruct Hs; cbn in *; (split_and!; [set_solver| |auto]); [done| |done].
  etrans; [|exact Hd]. by apply prefix_app_r.
Qed.

Lemma steps_ok x y : ok x → rtc step x y → ok y.
Proof. intros Hx. induction 1 as [x|x y z Hs _ IH]; [done|]. apply IH. by eapply spec_step_ok. Qed.
End spec.
End Spec.

(** ** The abstraction *)

Section refinement.
Context {B A : Type} `{PieceSet B} `{Sha1} `{Countable A}.
Context (g : Geometry.t) (Hg : Geometry.wf g).
Implicit Types (w : Swarm B A) (sh : Shared.t B A) (s : Session.t B A).

Definition indexed (v : VerifiedPiece.t) : nat * list byte :=
  (Z.to_nat (VerifiedPiece.index v), VerifiedPiece.data v).

Definition abstract w : Spec.t :=
  Spec.mk (ps_elems (PieceTracker.have (Shared.tracker (swarm_shared w))))
    (indexed <$> Shared.sent (swarm_shared w)) (Shared.done (swarm_shared w)).

(** The data whose digest the torrent declares, of the piece's length. *)
Definition declared (hashes : list (list byte)) (i : nat) (d : list byte) : Prop :=
  hashes !! i = Some (sha1 d) ∧ Z.of_nat (length d) = Geometry.piece_size g (Z.of_nat i).

Lemma verify_declared (t : PieceTracker.t B) i d :
  0 ≤ i → PieceTracker.verify t i d = true → Z.of_nat (length d) = Geometry.piece_size g i →
  declared (PieceTracker.piece_hashes t) (Z.to_nat i) d.
Proof using.
  unfold PieceTracker.verify, declared. intros Hi Hv Hl. rewrite Z2Nat.id by done. split; [|done].
  destruct (PieceTracker.piece_hashes t !! Z.to_nat i); [|done].
  by apply bool_decide_eq_true in Hv as ->.
Qed.

Lemma release_current_have sh s :
  PieceTracker.have (Shared.tracker (release_current sh s)) = PieceTracker.have (Shared.tracker sh).
Proof using. apply release_current_frame. Qed.

Lemma on_recv_have sh s r sh' s' :
  Some (on_recv g sh s r) = Some (sh', s') →
  PieceTracker.have (Shared.tracker sh') = PieceTracker.have (Shared.tracker sh) ∨
  ∃ b, r = Ok (Some (Piece b)) ∧ on_piece sh s b = (sh', s').
Proof using.
  intros Hs. destruct r as [[m|]|er|]; cbn [on_recv] in Hs;
    try (left; simplify_eq; done || apply release_current_have).
  destruct m; cbn [on_message] in Hs; try (left; simplify_eq; done || apply release_current_have).
  - left. injection Hs as <- _. apply (release_current_have (Shared.set_stats sh _)).
  - left. unfold on_have, set_have_count in Hs. repeat case_match; simplify_eq; try done.
    by eapply add_availability_have.
  - left. unfold on_bitfield, set_have_count in Hs. repeat case_match; simplify_eq; try done.
    rename select (PieceTracker.add_bitfield_availability _ _ = Ok _) into Ha.
    by apply PieceTracker.add_bitfield_Ok_inv in Ha as [_ ->].
  - right. injection Hs as Hs. eauto.
Qed.

(** Only a block can change the owned pieces. *)
Lemma session_step_have sh s e sh' s' :
  session_step g sh s e = Some (sh', s') →
  PieceTracker.have (Shared.tracker sh') = PieceTracker.have (Shared.tracker sh) ∨
  ∃ b, Session.phase s = AtSelect ∧ e = Received (Ok (Some (Piece b))) ∧ on_piece sh s b = (sh', s').
Proof using.
  intros Hs. destruct (Session.phase s) eqn:Hph.
  7:{ unfold session_step in Hs. rewrite Hph in Hs.
      destruct e as [| | | | | | |r];
        [..|by apply on_recv_have in Hs as [?|(b & -> & Hs)]; [left|right; eauto]].
      all: left; repeat (case_match; try discriminate Hs); simplify_eq; try done.
      by apply release_current_have. }
  all: left; unfold session_step, at_top, at_claim, start_piece, after_block, cleanup in Hs;
    rewrite Hph in Hs; repeat (case_match; try discriminate Hs); simplify_eq; try done.
  all: first [apply release_current_have|by eapply reserve_have].
Qed.

(** A block either leaves the owned pieces alone or adds one verified piece. *)
Definition gains (t t' : PieceTracker.t B) : Prop :=
  PieceTracker.have t' = PieceTracker.have t ∨
  ∃ i d, (i < pieces g)%nat ∧ (i ∉ ps_elems (PieceTracker.have t)) ∧
    declared (PieceTracker.piece_hashes t) i d ∧
    (ps_elems (PieceTracker.have t') = {[i]} ∪ ps_elems (PieceTracker.have t)).

Lemma on_piece_gains sh s b sh' s' :
  session_ok g s → Coordinators.is_fresh s = false → PieceTracker.wf (Shared.tracker sh) →
  PieceTracker.num_pieces (Shared.tracker sh) = pieces g → block_ok b →
  on_piece sh s b = (sh', s') → gains (Shared.tracker sh) (Shared.tracker sh').
Proof using Hg.
  intros Hok Hfr Hwf Hn Hb. pose proof (handle_block_ok g Hg s (Shared.tracker sh) b Hok Hfr Hwf Hb) as Hh.
  unfold on_piece, after_block. destruct (SwarmStats.record_block _ _ _) as [st| |]; [|intros [= <- <-]; by left..].
  cbn [Shared.set_stats Shared.tracker].
  destruct (handle_block s (Shared.tracker sh) b) as [[[[s1 t1] [v|]] c]| |]; [| |intros [= <- <-]; by left..].
  - destruct Hh as (_ & _ & _ & -> & Hi & Hl & Hv & Hhas & _). intros [= <- <-]. right. cbn.
    exists (Z.to_nat (VerifiedPiece.index v)), (VerifiedPiece.data v).
    assert (Z.to_nat (VerifiedPiece.index v) < pieces g)%nat as Hlt by (apply (pieces_Z g Hg); lia).
    destruct Hwf as (Hps & Hpn & _). split_and!; [done| | |].
    + rewrite elem_of_ps_elems. unfold PieceTracker.has in Hhas. congruence.
    + by apply verify_declared; [apply Hi|..].
    + apply ps_elems_set; [done|]. by rewrite Hpn, Hn.
  - destruct Hh as (_ & _ & _ & (_ & _ & Hhave) & _). destruct c; intros [= <- <-]; by left.
Qed.

(** Completion is never taken back. *)
Lemma session_step_done sh s e sh' s' :
  session_step g sh s e = Some (sh', s') → Shared.done sh = true → Shared.done sh' = true.
Proof using.
  unfold session_step, at_top, at_claim, start_piece, on_recv, on_message, on_have,
    on_bitfield, on_piece, after_block, cleanup, release_current.
  intros Hs Hd. repeat (case_match; try discriminate Hs); simplify_eq; done.
Qed.

(** What one step of the swarm does to the contract's state. *)
Record progress (w w' : Swarm B A) : Prop := {
  progress_have : gains (Shared.tracker (swarm_shared w)) (Shared.tracker (swarm_shared w'));
  progress_hashes : same_hashes (swarm_shared w) (swarm_shared w');
  progress_sent : Shared.sent (swarm_shared w') = Shared.sent (swarm_shared w) ∨
    ∃ v, Shared.sent (swarm_shared w') = Shared.sent (swarm_shared w) ++ [v];
  progress_done : Shared.done (swarm_shared w) = true → Shared.done (swarm_shared w') = true;
}.

Lemma swarm_step_progress w a w' :
  swarm_inv g w → action_ok a → swarm_step g w a = Some w' → progress w w'.
Proof using Hg.
  intros [Hinv _] Ha Hs. destruct a as [k e|c|]; cbn [swarm_step] in Hs.
  - apply bind_Some in Hs as (s & Hk & ([sh' s'] & Hs & [= <-])%bind_Some).
    constructor; cbn [swarm_shared]; [|by eapply session_step_hashes| |by eapply session_step_done].
    + destruct (session_step_have _ _ _ _ _ Hs) as [Hh|(b & Hph & -> & Hp)]; [by left|].
      pose proof (inv_sessions _ _ _ Hinv) as Hok. rewrite Forall_lookup in Hok.
      eapply on_piece_gains; [by eapply Hok| |apply Hinv|apply Hinv|exact Ha|exact Hp].
      unfold Coordinators.is_fresh. by rewrite Hph.
    + destruct (session_step_sent g _ _ _ _ _ Hs) as (_ & [?|(v & c & _ & ->)]); [by left|].
      cbn. destruct (Shared.rx_open (swarm_shared w)); [right; by exists v|by left].
  - injection Hs as <-. constructor; cbn; unfold send_control, same_hashes; destruct (existsb _ _); cbn;
      first [done|by left].
  - injection Hs as <-. constructor; cbn; first [done|by left].
Qed.

Lemma sent_indices (l : list VerifiedPiece.t) :
  Forall (λ v, 0 ≤ VerifiedPiece.index v) l →
  NoDup (VerifiedPiece.index <$> l) → NoDup (indexed <$> l).*1.
Proof using.
  intros Hl Hnd. rewrite <-list_fmap_compose.
  replace (compose fst indexed <$> l) with (Z.to_nat <$> (VerifiedPiece.index <$> l))
    by (by rewrite <-list_fmap_compose).
  apply (NoDup_fmap_2_strong Z.to_nat); [|done].
  intros x y (u & -> & Hu)%list_elem_of_fmap (v & -> & Hv)%list_elem_of_fmap.
  rewrite Forall_forall in Hl. pose proof (Hl _ Hu). pose proof (Hl _ Hv). lia.
Qed.

(** Every step of the swarm is at most one step of each kind of the contract. *)
Lemma progress_steps w w' hashes :
  swarm_inv g w' → progress w w' →
  PieceTracker.piece_hashes (Shared.tracker (swarm_shared w)) = hashes →
  rtc (Spec.step (pieces g) (declared hashes)) (abstract w) (abstract w').
Proof using Hg.
  intros Hw' [Hhave Hhash Hsent Hdone] <-. destruct (sent_ok g w' Hw') as [Hnd Hgood].
  pose proof (inv_done _ _ _ (proj1 Hw')) as Hcomplete.
  pose proof (inv_tracker _ _ _ (proj1 Hw')) as Hwf. pose proof (inv_pieces _ _ _ (proj1 Hw')) as Hn.
  unfold same_hashes in Hhash. unfold abstract.
  set (o := ps_elems (PieceTracker.have (Shared.tracker (swarm_shared w)))).
  set (o' := ps_elems (PieceTracker.have (Shared.tracker (swarm_shared w')))).
  set (right := declared _).
  trans (Spec.mk o' (indexed <$> Shared.sent (swarm_shared w)) (Shared.done (swarm_shared w))).
  { destruct Hhave as [He|(i & d & Hi & Hno & Hd & He)]; [unfold o, o'; by rewrite He|].
    unfold o'. rewrite He. apply rtc_once. by econstructor. }
  trans (Spec.mk o' (indexed <$> Shared.sent (swarm_shared w')) (Shared.done (swarm_shared w))).
  { destruct Hsent as [->|(v & Hv)]; [done|]. rewrite Hv in *. rewrite fmap_app. apply rtc_once.
    apply Forall_app in Hgood as [Hold Hgood]. apply Forall_singleton in Hgood as ([Hi0 Hi1] & Hl & Hver & Hhas).
    assert (NoDup (indexed <$> Shared.sent (swarm_shared w) ++ [v]).*1) as Hnd'.
    { apply sent_indices; [|done]. apply Forall_app. split; [|by constructor].
      eapply Forall_impl; [exact Hold|]. by intros ? [[? _] _]. }
    rewrite !fmap_app in Hnd'. apply NoDup_app in Hnd' as (_ & Hnd' & _).
    apply Spec.step_deliver.
    - unfold o'. by apply elem_of_ps_elems.
    - intros Hin. apply (Hnd' _ Hin), list_elem_of_singleton. done.
    - unfold right. rewrite <-Hhash. by apply verify_declared. }
  destruct (Shared.done (swarm_shared w')) eqn:Hd'; destruct (Shared.done (swarm_shared w)); try done.
  - apply rtc_once, Spec.step_finish. intros i Hi. apply elem_of_ps_elems.
    unfold PieceTracker.is_complete in Hcomplete. rewrite ps_complete_spec in Hcomplete by apply Hwf.
    apply Hcomplete; [done|]. destruct Hwf as (_ & -> & _). by rewrite Hn.
  - by discriminate Hdone.
Qed.

Lemma reachable_steps w w' :
  swarm_inv g w → reachable g w w' →
  rtc (Spec.step (pieces g) (declared (PieceTracker.piece_hashes (Shared.tracker (swarm_shared w)))))
    (abstract w) (abstract w').
Proof using Hg.
  intros Hw. induction 1 as [w|w w1 w2 (a & Ha & Hs) _ IH]; [done|].
  pose proof (swarm_step_progress _ _ _ Hw Ha Hs) as Hp.
  assert (swarm_inv g w1) as Hw1 by (by eapply swarm_step_inv).
  etrans; [by apply progress_steps|]. rewrite <-(progress_hashes _ _ Hp). by apply IH.
Qed.
End refinement.

(** ** Property *)

Section refinement_property.
Context {B A : Type} `{PieceSet B} `{Sha1} `{Countable A}.
Context (geometry : Geometry.t).
Implicit Types (sh : Shared.t B A) (w : Swarm B A).

(** C5: The coordinator implements its contract. Whatever the peers send and however
    their tasks interleave, a swarm that starts with nothing only ever performs
    the contract's steps: own a piece that the torrent's digest accepts, hand an
    owned piece to the writer for the first time, report completion once
    everything is owned. So every state it reaches is one the contract allows,
    and from there on no owned piece, no delivery and no completion is ever
    taken back. *)
Theorem swarm_refines_spec sh peers w :
  Geometry.wf geometry → initial geometry sh → Z.of_nat (length peers) + 1 < 2 ^ 32 →
  reachable geometry (run_tasks geometry sh peers) w →
  let right := declared geometry (PieceTracker.piece_hashes (Shared.tracker sh)) in
  rtc (Spec.step (pieces geometry) right) Spec.start (abstract w) ∧
  Spec.ok (pieces geometry) right (abstract w) ∧
  ∀ w', reachable geometry w w' → Spec.grows (abstract w) (abstract w').
Proof.
  intros Hg Hi Hlen Hr right. pose proof (run_tasks_inv geometry Hg sh peers Hi Hlen) as H0'.
  assert (rtc (Spec.step (pieces geometry) right) Spec.start (abstract w)) as Hsteps.
  { pose proof (reachable_steps geometry Hg _ _ H0' Hr) as Hs. unfold abstract in Hs at 1. cbn in Hs.
    destruct Hi as (_ & _ & _ & He & Hsent & Hdone). by rewrite He, Hsent, Hdone in Hs. }
  split; [done|]. split.
  - eapply Spec.steps_ok; [apply Spec.spec_start_ok|exact Hsteps].
  - intros w' Hr'. eapply Spec.steps_grow, (reachable_steps geometry Hg); [|exact Hr'].
    by eapply reachable_inv.
Qed.
End refinement_property.
