(* ===== verification/SwarmTests.v ===== *)
(** * The repository's own tests of the connection and of the download

    The tests of [src/peer/connection.rs] and [src/download/mod.rs] run both ends
    of a conversation on one machine. Here the remote ends are translated too,
    and the two are run against each other on one schedule, which visits the
    tasks in turn, lets a task see control and completion before messages, and
    lets no request time out. [_pass] examples evaluate every test. *)

From S2P Require Export UnitTests Refinements.

(** ** [src/peer/connection.rs] *)

Module connection_tests.
(** The bytes that an end of the connection has to read are the bytes the other
    end wrote; [handshake] writes before it reads. *)
Definition written (info_hash : InfoHash.t) (peer_id : PeerId.t) : list byte :=
  sent (handshake (S := list byte * list byte) ([], []) info_hash peer_id).2.

Definition handshake_and_message_exchange_over_tcp : result () :=
  let info_hash := InfoHash.mk (replicate 20 x11) in
  let server_peer_id := PeerId.mk (lit "-TN0001-SERVERSERVER") in
  let client_peer_id := PeerId.mk (lit "-TN0001-CLIENTCLIENT") in
  (* the two handshakes *)
  remote ← unwrap (handshake (S := list byte * list byte) ([], written info_hash client_peer_id)
                     info_hash server_peer_id).1;
  _ ← assert_eq (Handshake.peer_id remote) client_peer_id;
  '(remote_peer_id, _) ← unwrap (connect false
      (Ok ([] : list byte, written info_hash server_peer_id)) false info_hash client_peer_id);
  _ ← assert_eq remote_peer_id server_peer_id;
  (* the client sends *)
  to_server ← unwrap (PeerCodec.encode Interested ([] : list byte));
  '(m, _) ← message_tests.decode_unwrap to_server;
  _ ← assert_eq m (Some Interested);
  (* the server answers *)
  to_client ← unwrap (PeerCodec.encode Unchoke ([] : list byte));
  to_client ← unwrap (PeerCodec.encode (Piece (Block.mk 0 0 (lit "hello"))) to_client);
  '(m, to_client) ← message_tests.decode_unwrap to_client;
  _ ← assert_eq m (Some Unchoke);
  '(m, to_client) ← message_tests.decode_unwrap to_client;
  assert_eq m (Some (Piece (Block.mk 0 0 (lit "hello")))).

Definition rejects_mismatched_info_hash : result () :=
  let zero_id := PeerId.mk (replicate 20 x00) in
  let result := connect false
    (Ok ([] : list byte, written (InfoHash.mk (replicate 20 x22)) zero_id)) false
    (InfoHash.mk (replicate 20 x11)) zero_id in
  assert_err result PeerProtocol.

Example connection_tests_pass :
  Forall (λ t, t = Ok ()) [handshake_and_message_exchange_over_tcp; rejects_mismatched_info_hash].
Proof. repeat (constructor; [vm_compute; reflexivity|]). constructor. Qed.
End connection_tests.

(** ** [src/download/mod.rs]: the remote peers *)

Module download_tests.
Section tests.
Context `{Sha1}.

(** Content, and an [Info] that matches it. *)
Definition make_torrent (total piece_len : Z) : list byte * Info.t :=
  let data := disk_tests.bytes_of total (λ i, i `mod` 251) in
  let pieces := foldl (λ pieces chunk, pieces ++ sha1 chunk) [] (chunks (Z.to_nat piece_len) data) in
  (data,
   {| Info.name := lit "test"; Info.piece_length := piece_len; Info.pieces := pieces;
      Info.length := Some total; Info.files := None; Info.private := None |}).

(** What a peer does with a message; its state is [Seeder.t]. *)
Record Peer : Type := mk_peer {
  at_start : Seeder.t;
  answer : Message → result (list Message);
}.

(** A peer that advertises everything and answers every request. *)
Definition run_seeder (data : list byte) (piece_len : Z) (num_pieces : nat) : Peer :=
  mk_peer (Seeder.start num_pieces) (Seeder.answer piece_len data).

(** One that advertises some pieces and keeps quiet about one of them. *)
Definition run_partial_seeder (data : list byte) (piece_len : Z) (num_pieces : nat)
    (advertise : list Z) (withhold : option Z) : Peer :=
  let bf := foldl (λ bf i, Bitfield.set bf (Z.to_nat i)) (Bitfield.new num_pieces) advertise in
  mk_peer (Seeder.mk [Bitfield (Bitfield.to_message_bytes bf); Unchoke] [] 0 true)
    (λ m, match m with
          | Request bi =>
              if decide (withhold = Some (BlockInfo.index bi)) then Ok []
              else Seeder.answer piece_len data m
          | _ => Ok []
          end).

(** One that has nothing and says nothing. *)
Definition run_idle_peer (num_pieces : nat) : Peer :=
  mk_peer (Seeder.mk [Bitfield (Bitfield.to_message_bytes (Bitfield.new num_pieces)); Unchoke] [] 0 true)
    (λ _, Ok []).

(** ** The schedule *)

(** The engine and its remote peers, one per task. *)
Record Play : Type := mk_play {
  engine : Coordinator.t (B := Bitfield.t) (A := nat);
  tasks : list (Session.t Bitfield.t nat);
  remotes : list (Seeder.t * (Message → result (list Message)));
}.

(** [coordinator.run(addrs, tx)], the peers listening. *)
Definition spawn (c : Coordinator.t (B := Bitfield.t) (A := nat)) (peers : list Peer) : Play :=
  mk_play c
    (sessions (run_tasks (Coordinator.geometry c) (Coordinator.shared c) (seq 0 (length peers))))
    ((λ p, (at_start p, answer p)) <$> peers).

Definition apply (st : Play) (a : Action) : option Play :=
  w ← swarm_step (Coordinator.geometry (engine st))
        (mk_swarm (Coordinator.shared (engine st)) (tasks st)) a;
  Some (mk_play (Coordinator.mk (Coordinator.name (engine st))
                   (Coordinator.geometry (engine st)) (swarm_shared w))
          (sessions w) (remotes st)).

(** What a task does next without its peer. *)
Definition next_event (sh : Shared.t Bitfield.t nat) (s : Session.t Bitfield.t nat) : option Event :=
  match Session.phase s with
  | Connecting => Some (Connected (Ok ()))
  | Starting | AtRefill => Some SendsOk
  | AtTop | AtClaim | Delivering _ _ | Leaving _ => Some Proceed
  | AtPause => if decide (Session.seen s = Shared.control_version sh) then None else Some ControlChanged
  | AtSelect =>
      if decide (Session.seen s = Shared.control_version sh)
      then if Shared.done sh then Some DoneChanged else None
      else Some ControlChanged
  | Ended _ => None
  end.

Definition task_turn (k : nat) (st : Play) : option Play :=
  s ← tasks st !! k;
  '(x, f) ← remotes st !! k;
  match next_event (Coordinator.shared (engine st)) s with
  | Some e => apply st (Task k e)
  | None =>
      match Session.phase s, Seeder.in_transit x with
      | AtSelect, m :: ms =>
          st ← apply st (Task k (Received (Ok (Some m))));
          Some (mk_play (engine st) (tasks st)
                  (<[k := (Seeder.mk (Seeder.to_send x) ms (Seeder.read x) (Seeder.up x), f)]> (remotes st)))
      | _, _ => Some st
      end
  end.

Definition peer_turn (k : nat) (st : Play) : option Play :=
  s ← tasks st !! k;
  '(x, f) ← remotes st !! k;
  if accepted s then
    match Seeder.turn f (Session.outbox s) x with
    | Some x => Some (mk_play (engine st) (tasks st) (<[k := (x, f)]> (remotes st)))
    | None => Some st
    end
  else Some st.

(** Every task and its peer once. *)
Definition sweep (st : Play) : option Play :=
  foldl (λ o k, st ← o; st ← task_turn k st; peer_turn k st) (Some st) (seq 0 (length (tasks st))).

(** Sweeps until a condition holds; running out of them is the test's timeout. *)
Fixpoint play_until (p : Play → bool) (fuel : nat) (st : Play) : result Play :=
  if p st then Ok st
  else match fuel with
       | O => Panic
       | S fuel' => st ← expect (sweep st); play_until p fuel' st
       end.

Fixpoint play_for (n : nat) (st : Play) : result Play :=
  match n with O => Ok st | S n' => st ← expect (sweep st); play_for n' st end.

Definition PATIENCE : nat := 1000.

(** [run] has joined every task, and none of them panicked. *)
Definition returned (st : Play) : bool :=
  forallb (λ s, match Session.phase s with Ended (Ok _) => true | _ => false end) (tasks st).

Definition finish (st : Play) : result Play := play_until returned PATIENCE st.

Definition control (c : ControlState) (st : Play) : result Play := expect (apply st (Control c)).

Definition snapshot (st : Play) : result StatsSnapshot.t :=
  Coordinator.snapshot (λ a, decimal (Z.of_nat a)) (engine st).

Definition wait_for_pieces (st : Play) (target : Z) : result Play :=
  play_until (λ st, match snapshot st with
                    | Ok s => bool_decide (target ≤ StatsSnapshot.pieces_done s)
                    | _ => false
                    end) PATIENCE st.

Definition is_complete (st : Play) : bool :=
  PieceTracker.is_complete (Shared.tracker (Coordinator.shared (engine st))).

(** ** [src/download/mod.rs]: the tests *)

Definition endgame_recovers_a_piece_stranded_by_a_stalled_peer : result () :=
  let piece_len := 16384 in
  let num_pieces := 4 in
  let total := num_pieces * piece_len in
  let '(data, info) := make_torrent total piece_len in
  let last := num_pieces - 1 in
  let stall := run_partial_seeder data piece_len (Z.to_nat num_pieces) [last] (Some last) in
  let full := run_seeder data piece_len (Z.to_nat num_pieces) in
  coordinator ← unwrap (Coordinator.new info);
  st ← wait_for_pieces (spawn coordinator [stall; full]) num_pieces;
  _ ← assert (is_complete st);
  _ ← finish st;
  Ok ().

Definition run_returns_when_complete_even_with_idle_peers_connected : result () :=
  let piece_len := 16384 in
  let num_pieces := 4 in
  let total := num_pieces * piece_len in
  let '(data, info) := make_torrent total piece_len in
  let full := run_seeder data piece_len (Z.to_nat num_pieces) in
  let idle := run_idle_peer (Z.to_nat num_pieces) in
  coordinator ← unwrap (Coordinator.new info);
  st ← finish (spawn coordinator [full; idle]);
  assert (is_complete st).

(** One iteration of the collector. *)
Definition collect (piece_len : Z) (acc : list byte * nat) (p : VerifiedPiece.t)
  : result (list byte * nat) :=
  let '(assembled, got) := acc in
  let start := Z.to_nat (VerifiedPiece.index p * piece_len) in
  assembled ← copy_from_slice start (start + length (VerifiedPiece.data p))
                (VerifiedPiece.data p) assembled;
  Ok (assembled, S got).

Definition downloads_and_verifies_whole_torrent_from_a_peer : result () :=
  let piece_len := 32768 in
  let total := 2 * piece_len + 5000 in
  let '(data, info) := make_torrent total piece_len in
  let num_pieces := Info.num_pieces info in
  let seeder := run_seeder data piece_len num_pieces in
  coordinator ← unwrap (Coordinator.new info);
  st ← finish (spawn coordinator [seeder]);
  '(assembled, got) ← each (Shared.sent (Coordinator.shared (engine st)))
                        (collect piece_len) (replicate (Z.to_nat total) x00, 0%nat);
  _ ← assert_eq got num_pieces;
  _ ← assert_eq assembled data;
  assert (is_complete st).

Definition cancel_stops_the_download_before_completion : result () :=
  let piece_len := 16384 in
  let total := 8 * piece_len in
  let '(data, info) := make_torrent total piece_len in
  let num_pieces := Info.num_pieces info in
  let seeder := run_seeder data piece_len num_pieces in
  coordinator ← unwrap (Coordinator.new info);
  st ← wait_for_pieces (spawn coordinator [seeder]) 1;
  st ← control Cancelled st;
  st ← finish st;
  _ ← assert (bool_decide (Shared.control (Coordinator.shared (engine st)) = Cancelled));
  assert (negb (is_complete st)).

Definition pause_halts_progress_and_resume_completes : result () :=
  let piece_len := 16384 in
  let total := 6 * piece_len in
  let '(data, info) := make_torrent total piece_len in
  let num_pieces := Info.num_pieces info in
  let seeder := run_seeder data piece_len num_pieces in
  coordinator ← unwrap (Coordinator.new info);
  st ← wait_for_pieces (spawn coordinator [seeder]) 1;
  st ← control Paused st;
  s ← snapshot st;
  _ ← assert (StatsSnapshot.paused s);
  let after_pause := StatsSnapshot.pieces_done s in
  st ← play_for 100 st;
  s ← snapshot st;
  let still := StatsSnapshot.pieces_done s in
  _ ← assert_eq after_pause still;
  st ← control Running st;
  st ← finish st;
  assert (is_complete st).
End tests.

Example download_tests_pass :
  let _ := padding_digest in
  Forall (λ t, t = Ok ())
    [endgame_recovers_a_piece_stranded_by_a_stalled_peer;
     run_returns_when_complete_even_with_idle_peers_connected;
     downloads_and_verifies_whole_torrent_from_a_peer;
     cancel_stops_the_download_before_completion; pause_halts_progress_and_resume_completes].
Proof. repeat (constructor; [vm_compute; reflexivity|]). constructor. Qed.
End download_tests.
