(* ===== verification/Loopbacks.v ===== *)
(** * The loopback download ([examples/loopback_download.rs])

    The example makes a torrent of its own data, starts the seeder, runs the
    engine against it with a disk writer at the other end of a channel of 64
    pieces, and compares the file with the data. [setup] is what comes before
    the tasks start; [loop_step] interleaves the seeder, the peer task and the
    writer; [report] is the comparison. The theorem: whatever the interleaving,
    they stop, and the comparison succeeds unless the system reported an I/O
    error. The progress bar is left out. *)

From S2P Require Export Liveness.

Definition PIECE_LEN : Z := 256 * 1024.
Definition TOTAL : Z := 4 * 1024 * 1024 + 12345.

(** [(0..TOTAL).map(|i| (i.wrapping_mul(31) % 251) as u8)]. *)
Definition demo_data : list byte := (λ i, z2b (wrap 64 (i * 31) `mod` 251)) <$> seqZ 0 TOTAL.

(** ** The torrent *)

Section torrent.
Context `{Sha1} (piece_len : Z) (data : list byte).

Definition demo_hashes : list byte :=
  foldl (λ pieces chunk, pieces ++ sha1 chunk) [] (chunks (Z.to_nat piece_len) data).

Definition loopback_info : Info.t :=
  {| Info.name := lit "demo.bin"; Info.piece_length := piece_len; Info.pieces := demo_hashes;
     Info.length := Some (Z.of_nat (length data)); Info.files := None; Info.private := None |}.

Definition loopback_meta : Metainfo.t :=
  {| Metainfo.announce := None; Metainfo.announce_list := None; Metainfo.info := loopback_info;
     Metainfo.comment := None; Metainfo.created_by := None; Metainfo.creation_date := None;
     Metainfo.encoding := None; Metainfo.raw_info_hash := None |}.

(** The data is in memory, not empty, and cut into fewer than [2^32] pieces. *)
Definition demo_ok : Prop :=
  0 < piece_len < 2 ^ 32 ∧ data ≠ [] ∧ Bencode.alloc data ∧
  div_ceil (Z.of_nat (length data)) piece_len < 2 ^ 32.

Definition demo_pieces_count : Z := div_ceil (Z.of_nat (length data)) piece_len.

Definition demo_geometry : Geometry.t :=
  Geometry.mk (Z.of_nat (length data)) piece_len demo_pieces_count
    (Z.of_nat (length data) - (demo_pieces_count - 1) * piece_len).

Context (Hok : demo_ok).

Lemma hashes_concat : demo_hashes = concat (sha1 <$> chunks (Z.to_nat piece_len) data).
Proof using.
  unfold demo_hashes. rewrite <-(app_nil_l (concat _)). generalize (@nil byte).
  generalize (chunks (Z.to_nat piece_len) data). clear.
  induction l as [|c cs IH]; intros acc; cbn; [by rewrite app_nil_r|]. by rewrite IH, <-app_assoc.
Qed.

Lemma hashes_sized : Forall (λ c, length c = SHA1_LEN) (sha1 <$> chunks (Z.to_nat piece_len) data).
Proof using. apply Forall_fmap, Forall_true. intros c. apply sha1_length. Qed.

Lemma hashes_length : length demo_hashes = (length (chunks (Z.to_nat piece_len) data) * SHA1_LEN)%nat.
Proof using.
  rewrite hashes_concat. generalize (chunks (Z.to_nat piece_len) data). intros cs. clear.
  induction cs as [|c cs IH]; cbn [fmap list_fmap concat length]; [done|]. rewrite length_app, sha1_length, IH. lia.
Qed.

Lemma pieces_count : Z.of_nat (Info.num_pieces loopback_info) = demo_pieces_count.
Proof using Hok.
  unfold Info.num_pieces. cbn [loopback_info Info.pieces]. rewrite hashes_length, Nat.div_mul by done.
  unfold demo_pieces_count. rewrite chunks_length by (destruct Hok; lia). f_equal. destruct Hok; lia.
Qed.

Lemma demo_geometry_wf : Geometry.wf demo_geometry ∧ Z.of_nat (length data) = Geometry.total_length demo_geometry.
Proof using Hok.
  destruct Hok as (Hp & Hne & _ & Hn). split; [|done]. unfold Geometry.wf, demo_geometry, demo_pieces_count in *.
  cbn. assert (0 < length data)%nat by (destruct data; [done|cbn; lia]).
  destruct (div_ceil_spec (Z.of_nat (length data)) piece_len) as [?|?]; [lia..| |lia].
  nia.
Qed.

Lemma info_wf : Info.wf loopback_info.
Proof using Hok.
  pose proof demo_geometry_wf as [(_ & Hn & _) _]. destruct Hok as (Hp & _ & Ha & _).
  unfold Bencode.alloc in *. split_and!; cbn [loopback_info Info.piece_length Info.length Info.pieces Info.files].
  - unfold in_word. lia.
  - unfold Bencode.alloc. rewrite hashes_length. pose proof pieces_count as Hc.
    unfold Info.num_pieces in Hc. cbn [loopback_info Info.pieces] in Hc.
    rewrite hashes_length, Nat.div_mul in Hc by done. cbn in Hn. unfold SHA1_LEN. lia.
  - intros l [= <-]. unfold in_word. lia.
  - done.
Qed.

Lemma demo_sizes g : Geometry.wf g → sizes_of loopback_info g ↔ g = demo_geometry.
Proof using Hok.
  intros Hg. pose proof demo_geometry_wf as [(_ & Hn & _ & Ht) _]. unfold sizes_of.
  rewrite pieces_count, (wrap_small 32) by (unfold in_word; cbn in Hn; lia).
  destruct Hg as (_ & _ & _ & Hg). destruct g as [t p n l]. unfold demo_geometry in *. cbn in *. split.
  - intros ([= <-] & <- & <-). f_equal. lia.
  - by intros [= -> -> -> ->].
Qed.

Lemma demo_from_info : Geometry.from_info loopback_info = Ok demo_geometry.
Proof using Hok.
  pose proof (from_info_cases loopback_info info_wf) as Hc.
  destruct demo_geometry_wf as [Hg _].
  destruct (Geometry.from_info loopback_info) as [g|e|]; [|exfalso..].
  - destruct Hc as [Hwf Hs]. f_equal. by apply demo_sizes.
  - destruct Hc as [?|[_ Hno]]; [done|]. apply (Hno demo_geometry); [done|]. by apply demo_sizes.
  - done.
Qed.

(** The digest the torrent has for piece [i] is the digest of the data's. *)
Lemma demo_piece_hash (i : nat) :
  Z.of_nat i < demo_pieces_count →
  sha1 (piece_bytes demo_geometry data (Z.of_nat i)) = slice (i * 20) ((i + 1) * 20) demo_hashes.
Proof using Hok.
  intros Hi. pose proof demo_geometry_wf as [Hg Hlen]. destruct Hok as (Hp & _).
  pose proof (piece_range demo_geometry Hg (Z.of_nat i) ltac:(cbn; lia)) as (? & Hs & He).
  unfold piece_start in *. cbn [demo_geometry Geometry.nominal_length Geometry.total_length] in *.
  assert (chunks (Z.to_nat piece_len) data !! i = Some (piece_bytes demo_geometry data (Z.of_nat i))) as Hc.
  { rewrite chunks_lookup by lia. rewrite decide_True by lia. f_equal. unfold piece_bytes, slice, piece_start.
    cbn [demo_geometry Geometry.nominal_length].
    replace (Z.to_nat (Z.of_nat i * piece_len)) with (i * Z.to_nat piece_len)%nat by lia.
    unfold Geometry.piece_size in *. cbn [demo_geometry Geometry.num_pieces Geometry.last_piece_length Geometry.nominal_length] in *.
    case_decide; [|f_equal; rewrite Z2Nat.inj_add, Z2Nat.inj_mul, Nat2Z.id by lia; lia].
    destruct Hg as (_ & _ & [_ Hlast] & _). cbn in Hlast.
    rewrite !take_ge; [done|rewrite length_drop; nia|rewrite length_drop; nia]. }
  assert (chunks_exact 20 demo_hashes !! i = Some (sha1 (piece_bytes demo_geometry data (Z.of_nat i)))) as Hh.
  { rewrite hashes_concat. rewrite chunks_exact_of_concat by (lia || apply hashes_sized).
    by rewrite list_lookup_fmap, Hc. }
  rewrite chunks_exact_lookup in Hh by lia. case_decide; [|done]. by injection Hh.
Qed.

Lemma demo_blocks_bound : BLOCK_SIZE * total_blocks demo_geometry < 2 ^ 64.
Proof using Hok.
  pose proof demo_geometry_wf as [Hg Hlen]. destruct Hok as (Hp & _ & Ha & _). unfold Bencode.alloc in Ha.
  pose proof BLOCK_SIZE_val as Hb. unfold total_blocks.
  assert (∀ i, BLOCK_SIZE * blocks demo_geometry i ≤ piece_len + BLOCK_SIZE) as Hone.
  { intros i. pose proof (Geometry.piece_size_range demo_geometry Hg i) as Hs. cbn in Hs.
    unfold blocks. destruct (div_ceil_spec (Geometry.piece_size demo_geometry i) BLOCK_SIZE) as [?|?]; lia. }
  assert (BLOCK_SIZE * sum_below (λ i, blocks demo_geometry (Z.of_nat i)) (num_pieces demo_geometry) ≤
    Z.of_nat (num_pieces demo_geometry) * (piece_len + BLOCK_SIZE)) as Hsum.
  { generalize (num_pieces demo_geometry). intros n. induction n as [|n IH]; cbn [sum_below]; [lia|].
    specialize (Hone (Z.of_nat n)). lia. }
  destruct Hg as (_ & [? Hn] & Hl & Ht). cbn [demo_geometry Geometry.nominal_length Geometry.num_pieces
    Geometry.last_piece_length Geometry.total_length] in *.
  unfold num_pieces in *. cbn [demo_geometry Geometry.num_pieces] in *. rewrite Z2Nat.id in Hsum by lia.
  enough (demo_pieces_count * piece_len ≤ 2 ^ 63 + 2 ^ 32) by nia. nia.
Qed.

(** *** Creating the engine *)

Lemma demo_coordinator_new {A : Type} `{Countable A} :
  ∃ c : Coordinator.t (B := Bitfield.t) (A := A), Coordinator.new loopback_info = Ok c ∧
    Coordinator.geometry c = demo_geometry ∧ initial demo_geometry (Coordinator.shared c) ∧
    Shared.control (Coordinator.shared c) = Running ∧ Shared.rx_open (Coordinator.shared c) = true ∧
    verifies demo_geometry data (Shared.tracker (Coordinator.shared c)).
Proof using Hok.
  pose proof demo_geometry_wf as [(_ & Hn & _) _]. cbn in Hn.
  assert (Z.of_nat (Info.num_pieces loopback_info) < 2 ^ 32) as Hsmall by (rewrite pieces_count; lia).
  pose proof (tracker_from_info_cases (B := Bitfield.t) loopback_info Hsmall) as Ht.
  destruct (Coordinator.new (B := Bitfield.t) (A := A) loopback_info) as [c|e|] eqn:Hc;
    pose proof Hc as Hnew; unfold Coordinator.new in Hnew; rewrite demo_from_info in Hnew;
    red_result; destruct (PieceTracker.from_info loopback_info) as [t|e'|]; red_result; try done.
  2:{ destruct Ht as [_ Hm]. cbn [loopback_info Info.pieces] in Hm.
      rewrite hashes_length in Hm. change SHA1_LEN with 20%nat in Hm. by rewrite Nat.Div0.mod_mul in Hm. }
  injection Hnew as <-.
  destruct (coordinator_new_initial loopback_info _ info_wf Hsmall Hc) as (_ & _ & Hi & Hrx & Hv).
  eexists. split; [done|]. split_and!; try done.
  intros i Hir. cbn in Hir. rewrite <-(Z2Nat.id i) by lia. apply Hv.
  pose proof pieces_count. split; [lia|]. apply demo_piece_hash. lia.
Qed.

(** *** Creating the file *)

Definition demo_path (base : str) : str := Path.join base (lit "demo.bin").

Context {A : Type} `{Countable A} (encode_info : Info.t → option (list byte)).

Definition setup (base : str) : io (DiskStorage.t * Coordinator.t (B := Bitfield.t) (A := A)) :=
  _ ← lift (info_hash encode_info loopback_meta);
  storage ← DiskStorage.create loopback_meta base;
  coordinator ← lift (Coordinator.new loopback_info);
  mret (storage, coordinator).

Lemma demo_name_ok : validate_path_component (lit "demo.bin") = Ok ().
Proof using. vm_compute. reflexivity. Qed.

Lemma demo_file_paths base :
  file_paths loopback_meta base = Ok [(demo_path base, Z.of_nat (length data))].
Proof using. unfold file_paths. cbn [loopback_meta Metainfo.info loopback_info Info.name]. by rewrite demo_name_ok. Qed.

(** What the example has when its tasks start. *)
Record prepared (base : str) (st : DiskStorage.t) (c : Coordinator.t (B := Bitfield.t) (A := A))
    (d : gmap str (list byte)) : Prop := {
  prepared_geometry : DiskStorage.geometry st = demo_geometry;
  prepared_paths : paths_of (DiskStorage.files st) = [demo_path base];
  prepared_files : ∃ cs, consistent st d cs;
  prepared_engine : Coordinator.geometry c = demo_geometry;
  prepared_initial : initial demo_geometry (Coordinator.shared c);
  prepared_control : Shared.control (Coordinator.shared c) = Running;
  prepared_open : Shared.rx_open (Coordinator.shared c) = true;
  prepared_verifies : verifies demo_geometry data (Shared.tracker (Coordinator.shared c));
}.

Lemma setup_prepared base w :
  is_Some (encode_info loopback_info) → wp (setup base) (λ p d, prepared base p.1 p.2 d) w.
Proof using Hok.
  intros [enc Henc]. pose proof demo_geometry_wf as [Hg Hlen]. unfold setup.
  eapply wp_bind; [eapply (wp_lift _ _ (λ _ _, True)); [|done]|].
  { unfold info_hash. cbn [loopback_meta Metainfo.raw_info_hash Metainfo.info].
    unfold info_info_hash. rewrite Henc. red_result.
    rewrite copy_from_slice_Ok; [done|rewrite length_replicate; lia|by rewrite sha1_length]. }
  intros _ w1 _.
  assert (Geometry.total_length demo_geometry < 2 ^ 64) as H64.
  { destruct Hok as (_ & _ & Ha & _). unfold Bencode.alloc in Ha. cbn. lia. }
  eapply wp_bind; [apply (create_wp loopback_meta base demo_geometry _ w1 info_wf demo_from_info Hg eq_refl H64
    (demo_file_paths base)); cbn; apply NoDup_singleton|].
  intros st w2 (Hgeo & Hfiles & Hst & _).
  destruct (demo_coordinator_new (A := A)) as (c & Hc & Hcg & Hi & Hct & Hrx & Hv).
  eapply wp_bind; [eapply (wp_lift _ _ (λ a d, a = c ∧ d = disk w2)); [exact Hc|done]|].
  intros c' w3 [-> Hw]. apply wp_ret. cbn [fst snd]. rewrite Hw. constructor; try done.
  - apply (f_equal (fmap fst)) in Hfiles. by rewrite <-list_fmap_compose in Hfiles.
  - by eexists.
Qed.
End torrent.

(** ** The running system *)

Record Loop (A : Type) `{Countable A} : Type := mk_loop {
  net : Net A;
  writer : Writer.t;
  world : World;
}.
Arguments mk_loop {A _ _}.
Arguments net {A _ _}.
Arguments writer {A _ _}.
Arguments world {A _ _}.

Inductive Turn : Type :=
  | Peer (m : Move)   (* the seeder's, or its task's *)
  | Write.            (* the disk writer's *)

Section loop.
Context {A : Type} `{Sha1} `{Countable A}.
Context (geometry : Geometry.t) (data : list byte).
Implicit Types (x : Loop A).

Definition sent_pieces x : list VerifiedPiece.t := Shared.sent (swarm_shared (swarm (net x))).

(** A send of the task waits while the channel is full. *)
Definition waits x (m : Move) : bool :=
  match m with Own _ => blocked (swarm (net x)) (writer x) 0 | _ => false end.

(** The receiver goes with the writer. *)
Definition loop_step x (t : Turn) : option (Loop A) :=
  match t with
  | Peer m =>
      if own m && negb (waits x m)
      then n ← net_step geometry data 0 (net x) m; Some (mk_loop n (writer x) (world x))
      else None
  | Write =>
      '(wr, w) ← Writer.step (sent_pieces x) (senders_gone (swarm (net x))) (writer x) (world x);
      n ← match Writer.outcome wr with
          | Some _ => net_step geometry data 0 (net x) (Other CloseReceiver)
          | None => Some (net x)
          end;
      Some (mk_loop n wr w)
  end.

Fixpoint run_turns x (ts : list Turn) : option (Loop A) :=
  match ts with
  | [] => Some x
  | t :: ts' => x' ← loop_step x t; run_turns x' ts'
  end.

(** One peer, [addr], and a writer that has taken nothing. *)
Definition start_loop (st : DiskStorage.t) (c : Coordinator.t (B := Bitfield.t) (A := A)) (addr : A)
    (w : World) : Loop A :=
  mk_loop (start_net geometry (Coordinator.shared c) [addr]) (Writer.start st) w.

(** [std::fs::read]. *)
Definition contents (path : str) : io (list byte) := λ w, (ok_or Io (disk w !! path), w).

Definition read_file (path : str) : io (list byte) := _ ← attempt id (λ _, id); contents path.

(** The writer's result [r], then the file against the data. *)
Definition report (base : str) (r : result ()) : io bool :=
  _ ← lift r;
  written ← read_file (demo_path base);
  mret (bool_decide (written = data)).
End loop.

(** ** Invariant *)

Section progress.
Context {A : Type} `{Sha1} `{Countable A}.
Context (g : Geometry.t) (data : list byte) (files : list MappedFile.t) (w0 : World).
Context (Hg : Geometry.wf g) (Hdata : Z.of_nat (length data) = Geometry.total_length g).
Context (Hbound : BLOCK_SIZE * total_blocks g < 2 ^ 64).
Implicit Types (x : Loop A) (s : Session.t Bitfield.t A).

(** As a download, whose peers are the one task. *)
Definition as_download x : Download.t Bitfield.t A :=
  Download.mk (swarm (net x)) (writer x) (world x).

Record loop_ok x s : Prop := {
  loop_net : net_ok g data 0 (net x) s;
  loop_one : length (sessions (swarm (net x))) = 1%nat;
  loop_authentic : Forall (authentic g data) (sent_pieces x);
  loop_download : download_ok g files w0 (as_download x);
}.

Definition loop_left x s : Z := net_potential g (net x) s + writes_left g (writer x).

Lemma write_refines x x' :
  loop_step g data x Write = Some x' →
  Download.step g (as_download x) Download.Write = Some (as_download x').
Proof using.
  cbn [loop_step]. intros ([wr d] & Hw & Hstep)%bind_Some. apply bind_Some in Hstep as (n & Hn & [= <-]).
  cbn [Download.step]. unfold Download.sent. cbn [as_download Download.swarm Download.writer Download.world].
  unfold sent_pieces in Hw. rewrite Hw. cbn.
  destruct (Writer.outcome wr); by injection Hn as <-.
Qed.

(** A turn of the loop is one of the download, or the seeder's. *)
Lemma loop_refines x s t x' :
  net_ok g data 0 (net x) s → loop_step g data x t = Some x' →
  as_download x' = as_download x ∨
  ∃ t', Download.turn_ok t' ∧ Download.step g (as_download x) t' = Some (as_download x').
Proof using Hg Hdata.
  intros Hnet Hstep. destruct t as [m|].
  - cbn [loop_step] in Hstep. destruct (own m && negb (waits x m)) eqn:Hm; [|done]. apply andb_true_iff in Hm as [Hm Hw%negb_true_iff].
    apply bind_Some in Hstep as (n & Hn & [= <-]). destruct m as [| |e|a]; cbn [net_step] in Hn; [..|done].
    + left. apply bind_Some in Hn as (s0 & _ & Hn). destruct (accepted s0); [|done].
      by apply bind_Some in Hn as (y & _ & [= <-]).
    + right. destruct (Seeder.in_transit (seeder (net x))) as [|m ms] eqn:Hin; [done|].
      apply bind_Some in Hn as (v' & Hs & [= <-]).
      assert (Session.phase s = AtSelect) as Hph.
      { cbn [swarm_step] in Hs. rewrite (ok_task _ _ _ _ _ Hnet) in Hs. cbn in Hs.
        apply bind_Some in Hs as (? & Hs & _). unfold session_step in Hs. by destruct (Session.phase s). }
      exists (Download.Peers (Task 0 (Received (Ok (Some m))))). split.
      { exact (honest_message g data Hg Hdata (swarm_shared (swarm (net x))) s _ m ms
          (ok_honest _ _ _ _ _ Hnet) Hph Hin). }
      cbn [Download.step Download.waits as_download Download.swarm Download.writer].
      unfold blocked. rewrite (ok_task _ _ _ _ _ Hnet), Hph, andb_false_r, Hs. done.
    + right. destruct (own_event e) eqn:He; [|done]. apply bind_Some in Hn as (v' & Hs & [= <-]).
      exists (Download.Peers (Task 0 e)). split; [by destruct e as [[]| | | | | | |]|].
      cbn [Download.step Download.waits as_download Download.swarm Download.writer].
      cbn [waits] in Hw. rewrite Hw, Hs. done.
  - right. exists Download.Write. split; [done|]. by apply write_refines.
Qed.

Lemma refined_ok x s t x' :
  loop_ok x s → loop_step g data x t = Some x' → download_ok g files w0 (as_download x').
Proof using Hg Hdata.
  intros Hx Hstep. pose proof (loop_download _ _ Hx) as Hd.
  destruct (loop_refines x s t x' (loop_net _ _ Hx) Hstep) as [->|(t' & Ht & Hs)]; [done|].
  by apply (download_run_ok g Hg files w0 [t'] (as_download x)); [|constructor|cbn; rewrite Hs].
Qed.

(** A turn of the seeder or its task. *)
Lemma peer_turn x s m x' :
  loop_ok x s → loop_step g data x (Peer m) = Some x' →
  ∃ s', loop_ok x' s' ∧ loop_left x' s' < loop_left x s.
Proof using Hg Hdata Hbound.
  intros Hx Hstep. pose proof (refined_ok _ _ _ _ Hx Hstep) as Hd'.
  destruct Hx as [Hnet Hone Hauth _]. cbn [loop_step] in Hstep.
  destruct (own m && negb (waits x m)) eqn:Hm; [|done]. apply andb_true_iff in Hm as [Hm _].
  apply bind_Some in Hstep as (n & Hn & [= <-]).
  assert (move_ok m) as Hmok by by destruct m.
  destruct (net_step_ok g data 0 Hg Hdata Hbound _ _ _ _ Hnet Hmok Hn) as (s' & Hnet' & _ & Hlt).
  destruct (sole_step g data Hg Hdata _ _ _ _ Hnet Hone Hmok Hn Hauth) as [Hone' Hauth'].
  exists s'. split; [by constructor|].
  specialize (Hlt Hm). unfold loop_left. cbn [writer net]. lia.
Qed.

(** A turn of the writer. *)
Lemma writer_turn x s x' :
  loop_ok x s → loop_step g data x Write = Some x' →
  ∃ s', loop_ok x' s' ∧ loop_left x' s' < loop_left x s.
Proof using Hg Hdata Hbound.
  intros Hx Hstep. pose proof (refined_ok _ _ _ _ Hx Hstep) as Hd'.
  pose proof (write_refines _ _ Hstep) as Hw.
  pose proof (write_turn_left g Hg files w0 _ _ (loop_download _ _ Hx) Hw) as Hlt.
  destruct Hx as [Hnet Hone Hauth _]. cbn [loop_step] in Hstep.
  apply bind_Some in Hstep as ([wr w] & _ & Hstep). apply bind_Some in Hstep as (n & Hn & [= <-]).
  assert (sent_pieces (mk_loop n wr w) = sent_pieces x ∧ length (sessions (swarm n)) = 1%nat ∧
    ∃ s', net_ok g data 0 n s' ∧ net_potential g n s' ≤ net_potential g (net x) s) as (Hs & Hone' & s' & Hnet' & Hle).
  { destruct (Writer.outcome wr); [|injection Hn as <-; split_and!; eauto; by exists s].
    destruct (net_step_ok g data 0 Hg Hdata Hbound _ _ (Other CloseReceiver) _ Hnet I Hn) as (s' & ? & ? & _).
    injection Hn as <-. split_and!; eauto; done. }
  exists s'. split; [by constructor; rewrite ?Hs|].
  unfold loop_left. cbn [as_download Download.writer writer net] in *. lia.
Qed.

Lemma run_turns_ok ts x s x' :
  loop_ok x s → run_turns g data x ts = Some x' →
  ∃ s', loop_ok x' s' ∧ Z.of_nat (length ts) + loop_left x' s' ≤ loop_left x s.
Proof using Hg Hdata Hbound.
  revert x s. induction ts as [|t ts IH]; intros x s Hx; cbn [run_turns].
  { intros [= <-]. exists s. split; [done|]. cbn. lia. }
  intros (x1 & Hs & Hrun)%bind_Some.
  assert (∃ s1, loop_ok x1 s1 ∧ loop_left x1 s1 < loop_left x s) as (s1 & Hx1 & Hlt).
  { destruct t as [m|]; [by eapply peer_turn|by eapply writer_turn]. }
  destruct (IH x1 s1 Hx1 Hrun) as (s' & ? & ?). exists s'. split; [done|]. cbn [length]. lia.
Qed.

Lemma loop_left_nonneg x s : loop_ok x s → 0 ≤ loop_left x s.
Proof using Hg Hdata.
  intros Hx. pose proof (writes_left_nonneg g Hg _ _ _ (loop_download _ _ Hx)) as Hw.
  pose proof (potential_nonneg g data 0 Hg Hdata _ _ (loop_net _ _ Hx)).
  unfold loop_left. cbn [as_download Download.writer] in Hw. lia.
Qed.

Lemma sole_gone x s :
  loop_ok x s → senders_gone (swarm (net x)) = negb (is_live s).
Proof using.
  intros Hx. pose proof (ok_task _ _ _ _ _ (loop_net _ _ Hx)) as Hs. pose proof (loop_one _ _ Hx) as Hone.
  unfold senders_gone. destruct (sessions (swarm (net x))) as [|s0 [|? ?]]; try done.
  injection Hs as ->. cbn. by rewrite andb_true_r.
Qed.

(** The honest task ends only when the torrent is complete. *)
Lemma ended_complete x s :
  loop_ok x s → is_live s = false →
  PieceTracker.is_complete (Shared.tracker (swarm_shared (swarm (net x)))) = true.
Proof using.
  intros Hx Hs. unfold is_live in Hs.
  destruct (ok_honest _ _ _ _ _ (loop_net _ _ Hx)) as [Hf|? Hl|Hp|? ? ? ? Hl|]; try done.
  - unfold Coordinators.is_fresh in Hf. by destruct (Session.phase s).
  - unfold looping in Hl. by destruct (Session.phase s).
  - destruct Hp as [Hp|[Hp|(? & ? & Hp & _)]]; by rewrite Hp in Hs.
  - unfold looping in Hl. by destruct (Session.phase s).
Qed.

(** A writer that ended well did so on a complete torrent. *)
Lemma ended_well x s u :
  loop_ok x s → Writer.outcome (writer x) = Some (Ok u) →
  PieceTracker.is_complete (Shared.tracker (swarm_shared (swarm (net x)))) = true.
Proof using.
  intros Hx Ho. apply (ended_complete x s Hx). pose proof (sole_gone x s Hx) as Heq.
  destruct (dl_done _ _ _ _ (loop_download _ _ Hx) u Ho) as [Hgone _].
  cbn [as_download Download.swarm] in Hgone. rewrite Hgone in Heq. by destruct (is_live s).
Qed.

(** Somebody has a turn until the writer has ended. *)
Lemma loop_progress x s :
  loop_ok x s → Writer.outcome (writer x) = None → ∃ t x', loop_step g data x t = Some x'.
Proof using Hg Hdata.
  intros Hx Ho. pose proof (loop_net _ _ Hx) as Hnet. pose proof (sole_gone x s Hx) as Hgone.
  assert (∀ k, blocked (swarm (net x)) (writer x) k = true ∨ senders_gone (swarm (net x)) = true →
    ∃ t x', loop_step g data x t = Some x') as Hwrite.
  { intros k Hor. destruct (writer_moves g files w0 (as_download x) k (loop_download _ _ Hx)) as (y & Hy);
      [tauto|]. exists Write. cbn [loop_step]. cbn [Download.step] in Hy. unfold Download.sent in Hy.
    cbn [as_download Download.swarm Download.writer Download.world] in Hy. unfold sent_pieces.
    apply bind_Some in Hy as ([wr d] & -> & _). cbn. destruct (Writer.outcome wr); cbn; eauto. }
  destruct (blocked (swarm (net x)) (writer x) 0) eqn:Hb; [by apply (Hwrite 0%nat); left|].
  destruct (net_progress g data 0 Hg Hdata _ _ Hnet) as [(_ & s' & Hs' & Hph)|(m & n & Hm & Hn)].
  - apply (Hwrite 0%nat). right. rewrite (ok_task _ _ _ _ _ Hnet) in Hs'. injection Hs' as <-.
    rewrite Hgone. unfold is_live. by rewrite Hph.
  - exists (Peer m). cbn [loop_step]. assert (waits x m = false) as -> by by destruct m.
    rewrite Hm. cbn. rewrite Hn. cbn. eauto.
Qed.

(** ... and when it has ended well the data is on disk. *)
Lemma loop_ended x s u :
  loop_ok x s → Writer.outcome (writer x) = Some (Ok u) →
  ∃ cs, stored (disk (world x)) files cs ∧ concat cs = data.
Proof using Hg Hdata.
  intros Hx Ho. pose proof (loop_download _ _ Hx) as [Hinv _ _ Hwr Hdone].
  destruct (Hdone u Ho) as [_ Hall]. unfold writer_ok in Hwr. cbn [as_download Download.writer] in Hwr.
  rewrite Ho in Hwr. destruct Hwr as [[Hw Htk] _].
  destruct (sent_deliverable g _ Hinv) as [Hdel _].
  apply (written_content g Hg files _ _ _ data Hw Htk Hdata Hdel (loop_authentic _ _ Hx)), Hall.
  exact (ended_well x s u Hx Ho).
Qed.
End progress.

Section reporting.
Context `{Sha1} (piece_len : Z) (data : list byte) (Hok : demo_ok piece_len data).

Lemma report_ok {A : Type} `{Countable A} base files w0 (x : Loop A) s r :
  paths_of files = [demo_path base] → loop_ok (demo_geometry piece_len data) data files w0 x s → Writer.outcome (writer x) = Some r →
  match report data base r (world x) with
  | (Ok same, _) => same = true ∧ PieceTracker.is_complete (Shared.tracker (swarm_shared (swarm (net x)))) = true
  | (Err e, _) => e = Io ∧ faults w0 ≠ []
  | (Panic, _) => False
  end.
Proof using Hok.
  intros Hfiles Hx Ho. destruct (demo_geometry_wf _ _ Hok) as [Hg Hlen].
  pose proof (dl_writer _ _ _ _ (loop_download _ _ _ _ _ _ Hx)) as Hwr. unfold writer_ok in Hwr.
  cbn [as_download Download.writer Download.world] in Hwr. rewrite Ho in Hwr.
  destruct r as [u|e|]; [|done..]. destruct Hwr as [_ Hf].
  destruct (loop_ended _ data files w0 Hg Hlen x s u Hx Ho) as (cs & Hst & Hcs).
  assert (disk (world x) !! demo_path base = Some data) as Hd.
  { unfold stored, paths_of in *. destruct files as [|f [|? ?]]; try done. injection Hfiles as Hp.
    apply Forall2_cons_inv_l in Hst as (c & cs' & [Hf' _] & Hnil & ->).
    apply Forall2_nil_inv_l in Hnil as ->. cbn in Hcs. rewrite app_nil_r in Hcs. by rewrite <-Hp, <-Hcs. }
  assert (wp (report data base (Ok u)) (λ same _, same = true) (world x)) as Hr.
  { unfold report, read_file, contents. eapply wp_bind; [by apply (wp_lift _ u (λ _ d, d = disk (world x)))|].
    intros u' w1 Hw1. eapply (wp_bind _ _ (λ c _, c = data)).
    - eapply wp_bind; [by apply (wp_attempt _ _ (λ _ d, d = disk (world x)))|].
      intros [] w2 Hw2. unfold wp. rewrite Hw2, Hd. done.
    - intros c w2 ->. apply wp_ret. by apply bool_decide_eq_true_2. }
  pose proof (ended_well _ _ _ _ _ _ u Hx Ho) as Hcomp.
  unfold wp in Hr. destruct (report data base (Ok u) (world x)) as [[same|e|] w']; naive_solver.
Qed.

Lemma start_loop_ok {A : Type} `{Countable A} base w0 w st (c : Coordinator.t (B := Bitfield.t) (A := A)) addr :
  prepared piece_len data base st c (disk w) → (faults w0 = [] → faults w = []) →
  ∃ s, loop_ok (demo_geometry piece_len data) data (DiskStorage.files st) w0
         (start_loop (demo_geometry piece_len data) st c addr w) s ∧
       loop_left (demo_geometry piece_len data) (start_loop (demo_geometry piece_len data) st c addr w) s =
       23 + 7 * total_blocks (demo_geometry piece_len data) + demo_pieces_count piece_len data.
Proof using Hok.
  intros [Hsg Hsp Hcs Hcg Hi Hct Hrx Hv] Hf. destruct (demo_geometry_wf _ _ Hok) as [Hg Hlen].
  destruct (start_net_ok _ data 0 Hg Hlen (Coordinator.shared c) [addr] Hi Hct Hv
    ltac:(apply NoDup_singleton) ltac:(cbn; lia) ltac:(cbn; lia)) as (s & Hs & Hp).
  assert (Hsent : Shared.sent (Coordinator.shared c) = []) by (by destruct Hi as (_ & _ & _ & _ & ? & _)).
  exists s. split.
  - constructor; try done; [unfold sent_pieces; cbn; by rewrite Hsent|].
    apply (download_start_ok _ Hg (DiskStorage.files st) w0 st (Coordinator.shared c) [addr] w);
      done.
  - unfold loop_left, writes_left. cbn [writer net start_loop Writer.start Writer.outcome Writer.taken].
    rewrite Hp. cbn [demo_geometry Geometry.num_pieces]. lia.
Qed.
End reporting.

(** ** Properties *)

(** C3: The loopback download succeeds. For any data that fits in memory, cut into
    fewer than [2^32] pieces, the torrent the example makes is accepted and its
    file is created, unless the system reports an I/O error. Then, however the
    seeder, the peer task and the disk writer take turns over a channel of 64
    pieces: together they have at most 23 + 7 N + P turns (N blocks, P pieces);
    as long as the writer has not ended one of them has a turn, so they never
    block one another; and when it has ended the file is, byte for byte, the
    data, and the torrent complete, so the progress printer has stopped too,
    unless the system reported an I/O error. *)
Theorem loopback_succeeds {A : Type} `{Sha1} `{Countable A} encode_info piece_len data base (addr : A) w0 :
  demo_ok piece_len data → is_Some (encode_info (loopback_info piece_len data)) →
  match setup piece_len data (A := A) encode_info base w0 with
  | (Ok (st, c), w1) => ∀ turns x,
      let g := Coordinator.geometry c in
      run_turns g data (start_loop g st c addr w1) turns = Some x →
      Z.of_nat (length turns) ≤ 23 + 7 * total_blocks g + demo_pieces_count piece_len data ∧
      (Writer.outcome (writer x) = None → ∃ t x', loop_step g data x t = Some x') ∧
      ∀ r, Writer.outcome (writer x) = Some r →
        match report data base r (world x) with
        | (Ok same, _) => same = true ∧
            PieceTracker.is_complete (Shared.tracker (swarm_shared (swarm (net x)))) = true
        | (Err e, _) => e = Io ∧ faults w0 ≠ []
        | (Panic, _) => False
        end
  | (Err e, _) => e = Io ∧ faults w0 ≠ []
  | (Panic, _) => False
  end.
Proof.
  intros Hok Henc. pose proof (setup_prepared piece_len data Hok (A := A) encode_info base w0 Henc) as Hs.
  unfold wp in Hs. destruct (setup _ _ _ _ w0) as [[[st c]|e|] w1]; [|done..].
  destruct Hs as [Hp Hf]. cbn [fst snd] in Hp. intros turns x. cbv zeta.
  rewrite (prepared_engine _ _ _ _ _ _ Hp). intros Hrun.
  destruct (demo_geometry_wf _ _ Hok) as [Hg Hlen]. pose proof (demo_blocks_bound _ _ Hok) as Hb.
  destruct (start_loop_ok piece_len data Hok base w0 w1 st c addr Hp Hf) as (s & Hx & Hleft).
  destruct (run_turns_ok _ _ _ _ Hg Hlen Hb _ _ _ _ Hx Hrun) as (s' & Hx' & Hle).
  pose proof (loop_left_nonneg _ _ _ _ Hg Hlen _ _ Hx'). split; [lia|]. split.
  - intros Ho. exact (loop_progress _ _ _ _ Hg Hlen _ _ Hx' Ho).
  - intros r Hr. apply (report_ok piece_len data Hok base (DiskStorage.files st) w0 x s' r); [|done..].
    exact (prepared_paths _ _ _ _ _ _ Hp).
Qed.

(** ** A small run *)

Section demo.
#[local] Existing Instance padding_digest.

Definition small_data : list byte := lit "abcdefghij".

(** The first turn that can be taken, [fuel] times. *)
Definition candidates : list Turn :=
  [Peer (Own (Connected (Ok ()))); Peer (Own Proceed); Peer (Own SendsOk); Peer (Own DoneChanged);
   Peer Serve; Peer Receive; Write].

Fixpoint greedy (g : Geometry.t) (data : list byte) (fuel : nat) (x : Loop nat) : list Turn :=
  match fuel with
  | O => []
  | S fuel' =>
      match list_find (λ t, is_Some (loop_step g data x t)) candidates with
      | Some (_, t) =>
          match loop_step g data x t with
          | Some x' => t :: greedy g data fuel' x'
          | None => []
          end
      | None => []
      end
  end.

Definition small_setup : result (DiskStorage.t * Coordinator.t (B := Bitfield.t) (A := nat)) * World :=
  setup 4 small_data (λ _, Some []) [] (mk_world ∅ []).

(** The run from what [setup] gave passes a test. *)
Definition small_run_passes (r : result (DiskStorage.t * Coordinator.t (B := Bitfield.t) (A := nat)) * World)
    (test : list Turn → Loop nat → bool) : bool :=
  match r with
  | (Ok (st, c), w) =>
      let g := Coordinator.geometry c in
      let x := start_loop g st c 7%nat w in
      let turns := greedy g small_data 60 x in
      match run_turns g small_data x turns with Some x' => test turns x' | None => false end
  | _ => false
  end.

Lemma small_run_passes_inv r test :
  small_run_passes r test = true →
  ∃ st c w turns x, r = (Ok (st, c), w) ∧
    run_turns (Coordinator.geometry c) small_data (start_loop (Coordinator.geometry c) st c 7%nat w) turns = Some x ∧
    test turns x = true.
Proof.
  unfold small_run_passes. destruct r as [[[st c]|e|] w]; [|done..]. cbv zeta.
  destruct (run_turns _ _ _ _) as [x|] eqn:Hrun; [|done]. intros Ht.
  exists st, c, w. do 2 eexists. split; [done|]. split; [exact Hrun|exact Ht].
Qed.

(** Thirty-six turns, and the writer has ended well. *)
Definition small_end (turns : list Turn) (x : Loop nat) : bool :=
  bool_decide (length turns = 36%nat) && bool_decide (Writer.outcome (writer x) = Some (Ok ())) &&
  match report small_data [] (Ok ()) (world x) with (Ok _, _) => true | _ => false end.

Lemma small_run_ends : small_run_passes small_setup small_end = true.
Proof. vm_compute. reflexivity. Qed.

Lemma small_ok : demo_ok 4 small_data.
Proof. split_and!; [lia|lia|done|vm_compute; reflexivity|vm_compute; reflexivity]. Qed.

Lemma loopback_succeeds_witness :
  ∃ st c w (turns : list Turn) (x : Loop nat), small_setup = (Ok (st, c), w) ∧
    run_turns (Coordinator.geometry c) small_data (start_loop (Coordinator.geometry c) st c 7%nat w) turns = Some x ∧
    small_end turns x = true ∧ ∃ w', report small_data [] (Ok ()) (world x) = (Ok true, w').
Proof.
  destruct (small_run_passes_inv _ _ small_run_ends) as (st & c & w & turns & x & Hs & Hrun & Hend).
  exists st, c, w, turns, x. split; [exact Hs|]. split; [exact Hrun|]. split; [exact Hend|].
  pose proof (loopback_succeeds (λ _, Some []) 4 small_data [] 7%nat (mk_world ∅ []) small_ok
    ltac:(by eexists)) as Hl.
  fold small_setup in Hl. rewrite Hs in Hl. destruct (Hl turns x Hrun) as (_ & _ & Hrep).
  unfold small_end in Hend. apply andb_true_iff in Hend as [Hend Hr].
  apply andb_true_iff in Hend as [_ Ho%bool_decide_eq_true]. specialize (Hrep (Ok ()) Ho).
  destruct (report small_data [] (Ok ()) (world x)) as [[same|e|] w']; [|discriminate Hr..].
  exists w'. rewrite (proj1 Hrep). reflexivity.
Defined.
(** *** A seeder behind the second of two tasks

    The first peer connects, unchokes, has every piece, is asked for one and
    never answers. *)

Definition idle_peer : list Move :=
  (λ e, Other (Task 0 e)) <$>
    [Connected (Ok ()); SendsOk; Proceed; Proceed; SendsOk; Received (Ok (Some Unchoke)); Proceed; Proceed;
     SendsOk; Received (Ok (Some (Bitfield [xe0]))); Proceed; Proceed; SendsOk].

Lemma idle_peer_ok : Forall move_ok idle_peer.
Proof. repeat constructor. Qed.

Definition own_candidates : list Move :=
  [Own (Connected (Ok ())); Own Proceed; Own SendsOk; Own DoneChanged; Serve; Receive].

Fixpoint own_moves_from (g : Geometry.t) (data : list byte) (k fuel : nat) (w : Net nat) : list Move :=
  match fuel with
  | O => []
  | S fuel' =>
      match list_find (λ m, is_Some (net_step g data k w m)) own_candidates with
      | Some (_, m) =>
          match net_step g data k w m with
          | Some w' => m :: own_moves_from g data k fuel' w'
          | None => []
          end
      | None => []
      end
  end.

Lemma own_candidates_ok : Forall move_ok own_candidates.
Proof. repeat constructor. Qed.

Lemma own_moves_from_ok g data k fuel w : Forall move_ok (own_moves_from g data k fuel w).
Proof.
  revert w. induction fuel as [|fuel IH]; intros w; cbn [own_moves_from]; [constructor|].
  destruct (list_find _ own_candidates) as [[i m]|] eqn:Hf; [|constructor].
  destruct (net_step g data k w m); [|constructor].
  apply list_find_Some in Hf as (Hm & _). constructor; [|apply IH].
  by eapply (Forall_lookup_1 _ _ _ _ own_candidates_ok).
Qed.

Definition pair_moves (c : Coordinator.t (B := Bitfield.t) (A := nat)) : list Move :=
  let g := Coordinator.geometry c in
  match run_moves g small_data 1 (start_net g (Coordinator.shared c) [7%nat; 8%nat]) idle_peer with
  | Some w => idle_peer ++ own_moves_from g small_data 1 60 w
  | None => []
  end.

Lemma pair_moves_ok c : Forall move_ok (pair_moves c).
Proof.
  unfold pair_moves. destruct (run_moves _ _ _ _ _); [|constructor].
  apply Forall_app. split; [apply idle_peer_ok|apply own_moves_from_ok].
Qed.

(** The run, and a test of its moves and its end. *)
Definition pair_passes (r : result (Coordinator.t (B := Bitfield.t) (A := nat)))
    (test : list Move → Net nat → bool) : bool :=
  match r with
  | Ok c =>
      let g := Coordinator.geometry c in
      match run_moves g small_data 1 (start_net g (Coordinator.shared c) [7%nat; 8%nat]) (pair_moves c) with
      | Some w => test (pair_moves c) w
      | None => false
      end
  | _ => false
  end.

Lemma pair_passes_inv r test :
  pair_passes r test = true →
  ∃ c w, r = Ok c ∧
    run_moves (Coordinator.geometry c) small_data 1
      (start_net (Coordinator.geometry c) (Coordinator.shared c) [7%nat; 8%nat]) (pair_moves c) = Some w ∧
    test (pair_moves c) w = true.
Proof.
  unfold pair_passes. destruct r as [c|e|]; [|done..]. cbv zeta.
  destruct (run_moves _ _ _ _ (pair_moves c)) as [w|] eqn:Hrun; [|done]. intros Ht. by exists c, w.
Qed.

(** Thirty-two of the moves were the pair's, and the second task has ended. *)
Definition pair_end (ms : list Move) (w : Net nat) : bool :=
  (length (filter (λ m, own m = true) ms) =? 32)%nat &&
  match sessions (swarm w) !! 1%nat with Some s => negb (is_live s) | None => false end.

Lemma pair_run_ends :
  pair_passes (Coordinator.new (B := Bitfield.t) (A := nat) (loopback_info 4 small_data)) pair_end = true.
Proof. vm_compute. reflexivity. Qed.

Lemma seeder_completes_witness :
  ∃ g (sh : Shared.t Bitfield.t nat) ms w,
    run_moves g small_data 1 (start_net g sh [7%nat; 8%nat]) ms = Some w ∧ pair_end ms w = true ∧
    Z.of_nat (length (filter (λ m, own m = true) ms)) ≤ 22 + 7 * total_blocks g.
Proof.
  destruct (pair_passes_inv _ _ pair_run_ends) as (c & w & Hc & Hrun & Hend).
  destruct (demo_coordinator_new 4 small_data small_ok (A := nat)) as (c' & Hc' & Hcg & Hi & Hct & _ & Hv).
  assert (c' = c) as -> by congruence. rewrite Hcg in Hrun.
  destruct (demo_geometry_wf 4 small_data small_ok) as [Hg Hlen].
  destruct (seeder_completes (demo_geometry 4 small_data) small_data 1 (Coordinator.shared c)
    [7%nat; 8%nat] (pair_moves c) w Hg Hlen (demo_blocks_bound 4 small_data small_ok) Hi Hct Hv
    ltac:(repeat constructor; set_solver) ltac:(cbn; lia) ltac:(cbn; lia) (pair_moves_ok c) Hrun) as [Hb _].
  exists (demo_geometry 4 small_data), (Coordinator.shared c), (pair_moves c), w.
  split; [exact Hrun|]. split; [exact Hend|exact Hb].
Defined.
End demo.
