(* ===== verification/Demos.v ===== *)
(** * A concrete download

    One run of the whole system, and states at which the theorems of
    [Sessions], [Coordinators] and [Refinements] apply: their hypotheses hold at real inputs. *)

From S2P Require Export Disks Refinements Completions.

Definition as_pair (v : VerifiedPiece.t) : Z * list byte :=
  (VerifiedPiece.index v, VerifiedPiece.data v).

(** ** A concrete download

    Eight bytes in two pieces over two files; one peer that connects, unchokes
    us, has both pieces and answers every request. *)

Definition demo_pieces : list byte :=
  (lit "abcd" ++ replicate 16 x00) ++ (lit "efgh" ++ replicate 16 x00).

Definition demo_info : Info.t :=
  {| Info.name := lit "d"; Info.piece_length := 4; Info.pieces := demo_pieces;
     Info.length := None;
     Info.files := Some [FileEntry.mk 3 [lit "a"] None; FileEntry.mk 5 [lit "b"] None];
     Info.private := None |}.

Lemma demo_info_wf : Info.wf demo_info.
Proof.
  split_and!; [split; vm_compute; congruence|vm_compute; reflexivity|done|].
  intros fs [= <-]. repeat constructor; vm_compute; congruence.
Qed.

Definition demo_actions : list Action :=
  Task 0 <$>
    [Connected (Ok ()); SendsOk; Proceed; Proceed; SendsOk; Received (Ok (Some Unchoke));
     Proceed; Proceed; SendsOk; Received (Ok (Some (Bitfield [xc0])));
     Proceed; Proceed; SendsOk; Received (Ok (Some (Piece (Block.mk 0 0 (lit "abcd")))));
     Proceed; Proceed; Proceed; SendsOk; Received (Ok (Some (Piece (Block.mk 1 0 (lit "efgh")))));
     Proceed; Proceed].

Lemma demo_actions_ok : Forall action_ok demo_actions.
Proof. repeat constructor; cbn; lia. Qed.

Section demo.
#[local] Existing Instance padding_digest.

Definition demo_coordinator : result (Coordinator.t (B := Bitfield.t) (A := nat)) :=
  Coordinator.new demo_info.

(** The first [n] steps of the run. *)
Definition demo_run (n : nat) (c : Coordinator.t (B := Bitfield.t) (A := nat))
  : option (Swarm Bitfield.t nat) :=
  run_actions (Coordinator.geometry c)
    (run_tasks (Coordinator.geometry c) (Coordinator.shared c) [7%nat]) (take n demo_actions).

Definition demo_pairs : list (Z * list byte) := [(0, lit "abcd"); (1, lit "efgh")].

(** The state after [n] steps passes a test. *)
Definition run_passes (n : nat) (r : result (Coordinator.t (B := Bitfield.t) (A := nat)))
    (test : Swarm Bitfield.t nat → bool) : bool :=
  match r with
  | Ok c =>
      match demo_run n c with
      | Some w => bool_decide (Coordinator.geometry c = straddling_geometry) && test w
      | None => false
      end
  | _ => false
  end.

(** Everything the theorems ask of a run, from one evaluation. *)
Lemma run_passes_true n r test :
  run_passes n r test = true → r = demo_coordinator →
  ∃ c w, demo_coordinator = Ok c ∧ Coordinator.geometry c = straddling_geometry ∧
    Geometry.wf (Coordinator.geometry c) ∧
    initial (Coordinator.geometry c) (Coordinator.shared c) ∧
    reachable (Coordinator.geometry c)
      (run_tasks (Coordinator.geometry c) (Coordinator.shared c) [7%nat]) w ∧
    test w = true.
Proof.
  unfold run_passes. intros Ht Hr. destruct r as [c|e|]; [|done..].
  destruct (demo_run n c) as [w|] eqn:Hw; [|done].
  apply andb_true_iff in Ht as [Hg%bool_decide_eq_true Ht].
  destruct (coordinator_new_initial demo_info c demo_info_wf ltac:(vm_compute; reflexivity)
    (eq_sym Hr)) as (Hwf & _ & Hi & _).
  exists c, w. split_and!; try done.
  eapply run_actions_reachable; [|exact Hw]. apply Forall_take, demo_actions_ok.
Qed.

(** The run ends with both pieces sent and nobody left. *)
Definition ended_well (w : Swarm Bitfield.t nat) : bool :=
  PieceTracker.is_complete (Shared.tracker (swarm_shared w)) &&
  Shared.rx_open (swarm_shared w) &&
  forallb (λ s, negb (is_live s)) (sessions w) &&
  bool_decide (as_pair <$> Shared.sent (swarm_shared w) = demo_pairs).

Lemma ended_well_true w :
  ended_well w = true →
  PieceTracker.is_complete (Shared.tracker (swarm_shared w)) = true ∧
  Shared.rx_open (swarm_shared w) = true ∧
  Forall (λ s, is_live s = false) (sessions w) ∧
  as_pair <$> Shared.sent (swarm_shared w) = demo_pairs.
Proof.
  unfold ended_well. rewrite !andb_true_iff.
  intros [[[Hcomp Hrx] Hlive] Hpairs%bool_decide_eq_true]. split_and!; try done.
  apply Forall_forall. intros s Hs. rewrite forallb_forall in Hlive.
  apply list_elem_of_In in Hs. apply Hlive in Hs. by apply negb_true_iff in Hs.
Qed.

Lemma demo_ends : run_passes 21 demo_coordinator ended_well = true.
Proof. vm_compute. reflexivity. Qed.

(** After thirteen steps the peer is counted and a block is requested. *)
Definition requesting (w : Swarm Bitfield.t nat) : bool :=
  existsb (λ s, bool_decide (Session.outbox s = [Interested; Request (BlockInfo.mk 0 0 4)]))
    (sessions w).

Lemma demo_requests : run_passes 13 demo_coordinator requesting = true.
Proof. vm_compute. reflexivity. Qed.

(** A second task is paused while the last piece is on its way to the writer. *)
Definition paused_actions : list Action :=
  [Task 1 (Connected (Ok ())); Task 1 SendsOk] ++ take 19 demo_actions ++
  [Control Paused; Task 1 Proceed; Task 0 Proceed].

Definition left_paused (w : Swarm Bitfield.t nat) : bool :=
  Shared.done (swarm_shared w) && PieceTracker.is_complete (Shared.tracker (swarm_shared w)) &&
  match sessions w !! 1%nat with
  | Some s =>
      bool_decide (Session.seen s = Shared.control_version (swarm_shared w)) &&
      match Session.phase s with AtPause => true | _ => false end
  | None => false
  end.

(** Two tasks and a sequence of actions. *)
Definition pair_run (actions : list Action) : option (Swarm Bitfield.t nat) :=
  match demo_coordinator with
  | Ok c => run_actions (Coordinator.geometry c)
      (run_tasks (Coordinator.geometry c) (Coordinator.shared c) [7%nat; 8%nat]) actions
  | _ => None
  end.

Definition paused_run : option (Swarm Bitfield.t nat) := pair_run paused_actions.

(** The torrent is complete and the task is still waiting, for ever. *)
Lemma paused_never_woken_witness :
  ∃ w s, paused_run = Some w ∧ Shared.done (swarm_shared w) = true ∧
    ∀ w', run_actions straddling_geometry w [Task 0 Proceed; CloseReceiver] = Some w' →
      sessions w' !! 1%nat = Some s.
Proof.
  assert (from_option left_paused false paused_run = true) as Ht by (vm_compute; reflexivity).
  destruct paused_run as [w|]; [|discriminate Ht]. cbn in Ht. unfold left_paused in Ht.
  destruct (sessions w !! 1%nat) as [s|] eqn:Hs; [|by rewrite andb_false_r in Ht].
  exists w, s. rewrite !andb_true_iff in Ht. destruct Ht as [[Hd _] [Hv%bool_decide_eq_true Hp]].
  split; [reflexivity|]. split; [exact Hd|]. intros w' Hr.
  apply (paused_never_woken straddling_geometry w 1 s [Task 0 Proceed; CloseReceiver] w' Hs);
    [by destruct (Session.phase s)|exact Hv|repeat constructor; discriminate|exact Hr].
Defined.

(** A second task is connected to an idle peer when the last piece arrives. *)
Definition idle_actions : list Action :=
  (Task 1 <$> [Connected (Ok ()); SendsOk; Proceed; Proceed; SendsOk]) ++ take 20 demo_actions.

Definition left_idle (w : Swarm Bitfield.t nat) : bool :=
  Shared.done (swarm_shared w) && bool_decide (Shared.control (swarm_shared w) = Running) &&
  match sessions w !! 1%nat with
  | Some s => match Session.phase s with AtSelect => true | _ => false end
  | None => false
  end.

Definition passes_idle (r : result (Coordinator.t (B := Bitfield.t) (A := nat))) : bool :=
  match r with
  | Ok c =>
      match run_actions (Coordinator.geometry c)
              (run_tasks (Coordinator.geometry c) (Coordinator.shared c) [7%nat; 8%nat]) idle_actions with
      | Some w => left_idle w
      | None => false
      end
  | _ => false
  end.

Lemma passes_idle_true r :
  passes_idle r = true → r = demo_coordinator →
  ∃ c w s, Geometry.wf (Coordinator.geometry c) ∧
    initial (Coordinator.geometry c) (Coordinator.shared c) ∧
    reachable (Coordinator.geometry c)
      (run_tasks (Coordinator.geometry c) (Coordinator.shared c) [7%nat; 8%nat]) w ∧
    Shared.done (swarm_shared w) = true ∧ Shared.control (swarm_shared w) = Running ∧
    sessions w !! 1%nat = Some s ∧ Session.phase s = AtSelect.
Proof.
  unfold passes_idle. intros Ht Hc. destruct r as [c| |]; [|done..].
  destruct (run_actions _ _ idle_actions) as [w|] eqn:Hw; [|done].
  destruct (coordinator_new_initial demo_info c demo_info_wf ltac:(vm_compute; reflexivity)
    (eq_sym Hc)) as (Hwf & _ & Hi & _).
  assert (Forall action_ok idle_actions) as Hok
    by (apply Forall_app; split; [repeat constructor|apply Forall_take, demo_actions_ok]).
  pose proof (run_actions_reachable _ _ _ _ Hok Hw) as Hr.
  unfold left_idle in Ht. destruct (sessions w !! 1%nat) as [s|] eqn:Hs; [|by rewrite andb_false_r in Ht].
  rewrite !andb_true_iff in Ht. destruct Ht as [[Hd Hrun%bool_decide_eq_true] Hp].
  exists c, w, s. do 6 (split; [assumption|]). by destruct (Session.phase s).
Qed.

Lemma demo_idle : passes_idle demo_coordinator = true.
Proof. vm_compute. reflexivity. Qed.


(** *** The swarm properties along the run *)

Lemma deliveries_verified_witness :
  ∃ vs, as_pair <$> vs = demo_pairs ∧ NoDup (VerifiedPiece.index <$> vs) ∧
    Forall (λ v, 0 ≤ VerifiedPiece.index v < 2) vs.
Proof.
  destruct (run_passes_true _ _ _ demo_ends eq_refl) as (c & w & _ & Hg & Hwf & Hi & Hr & Ht).
  destruct (ended_well_true w Ht) as (_ & _ & _ & Hpairs).
  destruct (deliveries_verified (Coordinator.geometry c) (Coordinator.shared c) [7%nat] w Hwf Hi
    ltac:(cbn; lia) Hr) as [Hnd Hd].
  exists (Shared.sent (swarm_shared w)). split; [exact Hpairs|]. split; [exact Hnd|].
  eapply Forall_impl; [exact Hd|]. intros v (Hv & _). rewrite Hg in Hv. exact Hv.
Defined.


(** The finished run is the contract's: both pieces owned and delivered. *)
Lemma swarm_refines_spec_witness :
  ∃ (c : Coordinator.t (B := Bitfield.t) (A := nat)) x,
    demo_coordinator = Ok c ∧
    rtc (Spec.step 2 (declared straddling_geometry
      (PieceTracker.piece_hashes (Shared.tracker (Coordinator.shared c))))) Spec.start x ∧
    length (Spec.delivered x) = 2%nat.
Proof.
  destruct (run_passes_true _ _ _ demo_ends eq_refl) as (c & w & Hc & Hg & Hwf & Hi & Hr & Ht).
  destruct (ended_well_true w Ht) as (_ & _ & _ & Hpairs).
  destruct (swarm_refines_spec (Coordinator.geometry c) (Coordinator.shared c) [7%nat] w Hwf Hi
    ltac:(cbn; lia) Hr) as (Hs & _).
  exists c, (abstract w). rewrite Hg in Hs. split; [exact Hc|]. split; [exact Hs|].
  unfold abstract, Spec.delivered. rewrite length_fmap, <-(length_fmap as_pair), Hpairs. reflexivity.
Defined.


End demo.

(** ** A session in the middle of a piece *)

Definition working_shared (ctl : ControlState) : Shared.t Bitfield.t nat :=
  Shared.mk (PieceTracker.set_claimed sample_tracker [false; true; false])
    SwarmStats.new ctl 0 false [] true.

Definition working_session (p : Phase) (n : Z) : Session.t Bitfield.t nat :=
  Session.mk 7%nat p sample_seed false (Some (PieceAssembler.new 1 n)) 1 1 0 [].

Section working.
#[local] Existing Instance padding_digest.

Lemma claim_after_exit_witness :
  ∃ sh1 s1 sh2 s2,
    session_step straddling_geometry (working_shared Running) (working_session AtSelect 4)
      (Received (Err Io)) = Some (sh1, s1) ∧
    session_step straddling_geometry sh1 s1 Proceed = Some (sh2, s2) ∧
    Session.phase s2 = Ended (Err Io) ∧
    PieceTracker.claimed (Shared.tracker sh2) = [false; true; false].
Proof.
  destruct (claim_after_exit straddling_geometry (working_shared Running)
    (working_session AtSelect 4) (PieceAssembler.new 1 4) Io eq_refl) as [Hs _].
  destruct (Hs eq_refl) as (_ & _ & _ & Herr). exact Herr.
Defined.

Lemma empty_block_crashes_witness :
  ∃ sh s, session_step (Geometry.mk 32768 16384 2 16384) (working_shared Running)
      (working_session AtSelect 16384)
      (Received (Ok (Some (Piece (Block.mk 1 16384 []))))) = Some (sh, s) ∧
    Session.phase s = Ended Panic.
Proof.
  destruct (empty_block_crashes (Geometry.mk 32768 16384 2 16384) (working_shared Running)
    (working_session AtSelect 16384) (PieceAssembler.new 1 16384) 1 eq_refl eq_refl eq_refl
    (PieceAssembler.empty_wf 1 16384 ltac:(unfold in_word; lia)))
    as (sh & s & Hs & Hp & _).
  - cbn. rewrite BLOCK_SIZE_val. reflexivity.
  - discriminate.
  - exists sh, s. split; [exact Hs|exact Hp].
Defined.
End working.
