(* ===== verification/Snapshots.v ===== *)
(** * The progress snapshot ([Coordinator::snapshot])

    What the interface shows while the swarm runs: the loop over the pieces never
    overflows, and its totals are those of the owned pieces. *)

From S2P Require Export Demos.

Section totals.
Context (g : Geometry.t) (Hg : Geometry.wf g).
Implicit Types (f : nat → bool) (n : nat).

(** The bytes of the pieces below [n] that pass a test. *)
Fixpoint bytes_below f n : Z :=
  match n with
  | O => 0
  | S n' => bytes_below f n' + (if f n' then Geometry.piece_size g (Z.of_nat n') else 0)
  end.

Lemma bytes_below_le f n :
  Z.of_nat n ≤ Geometry.num_pieces g → 0 ≤ bytes_below f n ≤ bytes_below (λ _, true) n.
Proof using Hg.
  induction n as [|n IH]; intros Hn; [done|]. cbn [bytes_below].
  specialize (IH ltac:(lia)). pose proof (Geometry.piece_size_range g Hg (Z.of_nat n)).
  destruct (f n); lia.
Qed.

Lemma bytes_below_all n :
  Z.of_nat n < Geometry.num_pieces g →
  bytes_below (λ _, true) n = Z.of_nat n * Geometry.nominal_length g.
Proof.
  induction n as [|n IH]; intros Hn; [done|]. cbn [bytes_below].
  rewrite IH, Geometry.piece_size_full by lia. lia.
Qed.

Lemma bytes_total : bytes_below (λ _, true) (Z.to_nat (Geometry.num_pieces g)) = Geometry.total_length g.
Proof using Hg.
  destruct Hg as (? & ? & ? & Ht).
  replace (Z.to_nat (Geometry.num_pieces g)) with (S (Z.to_nat (Geometry.num_pieces g - 1))) by lia.
  cbn [bytes_below]. rewrite bytes_below_all by lia. unfold Geometry.piece_size.
  rewrite decide_True by lia. rewrite Z2Nat.id by lia. lia.
Qed.

(** All the bytes are there only when all the pieces are. *)
Lemma bytes_below_full f n :
  Z.of_nat n ≤ Geometry.num_pieces g →
  bytes_below f n = bytes_below (λ _, true) n ↔ ∀ i, (i < n)%nat → f i = true.
Proof using Hg.
  induction n as [|n IH]; intros Hn; [split; [lia|done]|]. cbn [bytes_below].
  specialize (IH ltac:(lia)). pose proof (bytes_below_le f n ltac:(lia)).
  pose proof (Geometry.piece_size_range g Hg (Z.of_nat n)). split.
  - intros Heq i Hi. destruct (f n) eqn:Hf; [|lia].
    destruct (decide (i = n)) as [->|]; [done|]. apply IH; lia.
  - intros Hall. rewrite Hall by lia. rewrite (proj2 IH); [done|].
    intros i Hi. apply Hall. lia.
Qed.
End totals.

Section snapshot.
Context {B A : Type} `{PieceSet B} `{Sha1} `{Countable A}.
Context (addr_to_string : A → str).

(** The loop after [n] pieces. *)
Lemma count_pieces_Ok (c : Coordinator.t (B := B) (A := A)) n :
  let has := ps_has (PieceTracker.have (Shared.tracker (Coordinator.shared c))) in
  Geometry.wf (Coordinator.geometry c) → Z.of_nat n ≤ Geometry.num_pieces (Coordinator.geometry c) →
  Geometry.total_length (Coordinator.geometry c) < 2 ^ 64 →
  fold_result (Coordinator.count_piece c) (0, 0) (seq 0 n) =
    Ok (Z.of_nat (count_below has n), bytes_below (Coordinator.geometry c) has n).
Proof.
  intros has Hg Hn Ht. induction n as [|n IH]; [done|].
  rewrite seq_S, fold_result_app, IH by lia. red_result. cbn [fold_result Nat.add].
  unfold Coordinator.count_piece at 1. cbv beta iota.
  pose proof (count_below_le has n) as Hc.
  pose proof (bytes_below_le _ Hg has (S n) Hn) as Hb.
  pose proof (bytes_below_le _ Hg (λ _, true) (S n) Hn) as Hb'.
  assert (bytes_below (Coordinator.geometry c) (λ _, true) (S n) ≤
    Geometry.total_length (Coordinator.geometry c)) as Hle.
  { cbn [bytes_below]. pose proof (Geometry.piece_end_total _ Hg (Z.of_nat n) ltac:(lia)).
    rewrite bytes_below_all by lia. done. }
  cbn [bytes_below count_below] in *. unfold PieceTracker.have_bitfield. fold has.
  destruct (has n) eqn:Hh; [|by rewrite Z.add_0_r].
  pose proof Hg as (? & ? & _).
  rewrite add_w_Ok by lia. red_result. rewrite Geometry.piece_length_Ok by (done || lia).
  red_result. rewrite add_w_Ok by lia. red_result. do 3 f_equal. lia.
Qed.

(** C40: The snapshot is accurate. In every reachable state of the swarm the snapshot
    is computed without overflow; it counts exactly the owned pieces and their
    bytes, never more than the torrent's, and the three ways of being finished
    agree: the flag, all the pieces, all the bytes. *)
Theorem snapshot_accurate name geometry sh peers (w : Swarm B A) :
  Geometry.wf geometry → Geometry.total_length geometry < 2 ^ 64 → initial geometry sh →
  Z.of_nat (length peers) + 1 < 2 ^ 32 →
  reachable geometry (run_tasks geometry sh peers) w →
  let owned := PieceTracker.have (Shared.tracker (swarm_shared w)) in
  ∃ s, Coordinator.snapshot addr_to_string (Coordinator.mk name geometry (swarm_shared w)) = Ok s ∧
    StatsSnapshot.total_pieces s = Geometry.num_pieces geometry ∧
    StatsSnapshot.total_bytes s = Geometry.total_length geometry ∧
    StatsSnapshot.pieces_done s = Z.of_nat (size (ps_elems owned)) ∧
    StatsSnapshot.bytes_done s = bytes_below geometry (ps_has owned) (Z.to_nat (Geometry.num_pieces geometry)) ∧
    0 ≤ StatsSnapshot.pieces_done s ≤ StatsSnapshot.total_pieces s ∧
    0 ≤ StatsSnapshot.bytes_done s ≤ StatsSnapshot.total_bytes s ∧
    (StatsSnapshot.complete s = true ↔
       StatsSnapshot.pieces_done s = StatsSnapshot.total_pieces s) ∧
    (StatsSnapshot.complete s = true ↔
       StatsSnapshot.bytes_done s = StatsSnapshot.total_bytes s) ∧
    (StatsSnapshot.paused s = true ↔ Shared.control (swarm_shared w) = Paused).
Proof.
  intros Hg Ht Hi Hlen Hr owned.
  assert (swarm_inv geometry w) as [Hinv _]
    by (eapply (reachable_inv geometry Hg); [by apply run_tasks_inv|exact Hr]).
  pose proof (inv_pieces _ _ _ Hinv) as Hn.
  destruct (inv_tracker _ _ _ Hinv) as (Hps & Hpn & _). fold owned in Hps, Hpn.
  rewrite Hn in Hpn. unfold pieces, num_pieces in *.
  assert (0 < Geometry.num_pieces geometry < 2 ^ 32) as Hnp by apply Hg.
  unfold Coordinator.snapshot. cbn [Coordinator.shared Coordinator.geometry Coordinator.name].
  rewrite Hn, Z2Nat.id, wrap_small by (unfold in_word; lia).
  rewrite (count_pieces_Ok (Coordinator.mk name geometry (swarm_shared w))) by (cbn; done || lia).
  cbn [Coordinator.shared Coordinator.geometry]. fold owned. red_result.
  eexists. split; [done|].
  cbn [StatsSnapshot.total_pieces StatsSnapshot.total_bytes StatsSnapshot.pieces_done
    StatsSnapshot.bytes_done StatsSnapshot.complete StatsSnapshot.paused].
  pose proof (count_below_le (ps_has owned) (Z.to_nat (Geometry.num_pieces geometry))) as Hc.
  pose proof (bytes_below_le _ Hg (ps_has owned) (Z.to_nat (Geometry.num_pieces geometry)) ltac:(lia)) as Hb.
  pose proof (count_below_full (ps_has owned) (Z.to_nat (Geometry.num_pieces geometry))) as Hcf.
  pose proof (bytes_below_full _ Hg (ps_has owned) (Z.to_nat (Geometry.num_pieces geometry)) ltac:(lia)) as Hbf.
  rewrite bytes_total in Hb, Hbf by done.
  unfold PieceTracker.is_complete. fold owned. rewrite ps_complete_spec, Hpn by done.
  split; [done|]. split; [done|].
  split; [rewrite <-ps_count_size, ps_count_spec, Hpn by done; done|]. split; [done|].
  split; [lia|]. split; [lia|].
  split; [rewrite <-Hcf; lia|]. split; [by rewrite Hbf|]. by rewrite bool_decide_eq_true.
Qed.
End snapshot.

(** The run of [Demos], finished. *)
Section demo.
#[local] Existing Instance padding_digest.

Lemma snapshot_accurate_witness :
  ∃ s, StatsSnapshot.complete s = true ∧ StatsSnapshot.bytes_done s = 8.
Proof.
  destruct (run_passes_true _ _ _ demo_ends eq_refl) as (c & w & _ & Hg & Hwf & Hi & Hr & Ht).
  destruct (ended_well_true w Ht) as (Hcomp & _).
  destruct (snapshot_accurate (λ _ : nat, []) (lit "d") (Coordinator.geometry c) (Coordinator.shared c)
    [7%nat] w Hwf ltac:(rewrite Hg; cbn; lia) Hi ltac:(cbn; lia) Hr)
    as (s & Hs & _ & Htot & _ & _ & _ & _ & _ & Hb & _).
  assert (StatsSnapshot.complete s = true) as Hc.
  { unfold Coordinator.snapshot in Hs. apply bind_Ok_inv in Hs as ([p b] & _ & [= <-]). exact Hcomp. }
  exists s. split; [exact Hc|]. apply Hb in Hc. rewrite Hc, Htot, Hg. reflexivity.
Defined.
End demo.
