(* ===== verification/EndToEnd.v ===== *)
(** * From the swarm to the disk

    The pieces the coordinator delivers ([Coordinators]) are drained by the disk
    assembler ([Disks], [assemble] in [src/disk.rs]). Together: once a download
    has completed, every piece of the files on disk has the digest the torrent
    declares. A concrete run of the whole system instantiates the theorem. *)

From S2P Require Export Demos.

(** ** The content the deliveries describe *)

(** The data delivered for piece [i]. *)
Definition delivered (vs : list VerifiedPiece.t) (i : Z) : list byte :=
  from_option VerifiedPiece.data [] (list_find (λ v, VerifiedPiece.index v = i) vs ≫= λ p, Some p.2).

Definition delivered_content (vs : list VerifiedPiece.t) (n : nat) : list byte :=
  concat ((λ i, delivered vs (Z.of_nat i)) <$> seq 0 n).

Lemma delivered_unique vs v :
  NoDup (VerifiedPiece.index <$> vs) → v ∈ vs → delivered vs (VerifiedPiece.index v) = VerifiedPiece.data v.
Proof.
  intros Hnd Hv. unfold delivered.
  destruct (list_find _ vs) as [[k u]|] eqn:Hf; cbn.
  - apply list_find_Some in Hf as (Hu & Hidx & _). apply list_elem_of_lookup in Hv as [k' Hv].
    assert (k = k') as ->.
    { apply (NoDup_lookup (VerifiedPiece.index <$> vs) k k' (VerifiedPiece.index v)); [done| |].
      - by rewrite list_lookup_fmap, Hu, <-Hidx.
      - by rewrite list_lookup_fmap, Hv. }
    congruence.
  - apply list_find_None in Hf. rewrite Forall_forall in Hf. by destruct (Hf v Hv).
Qed.

Section content.
Context (g : Geometry.t) (Hg : Geometry.wf g) (f : nat → list byte).
Context (Hf : ∀ i, Z.of_nat i < Geometry.num_pieces g →
                   Z.of_nat (length (f i)) = Geometry.piece_size g (Z.of_nat i)).

Lemma prefix_length n :
  Z.of_nat n < Geometry.num_pieces g →
  Z.of_nat (length (concat (f <$> seq 0 n))) = Z.of_nat n * Geometry.nominal_length g.
Proof using Hf.
  induction n as [|n IH]; intros Hn; [done|].
  rewrite seq_S, fmap_app, concat_app, length_app, Nat2Z.inj_add, IH by lia. cbn.
  rewrite app_nil_r, Hf, Geometry.piece_size_full by lia. lia.
Qed.

Lemma content_length :
  Z.of_nat (length (concat (f <$> seq 0 (Z.to_nat (Geometry.num_pieces g))))) = Geometry.total_length g.
Proof using Hf Hg.
  destruct Hg as (? & ? & ? & Ht).
  replace (Z.to_nat (Geometry.num_pieces g)) with (S (Z.to_nat (Geometry.num_pieces g - 1))) by lia.
  rewrite seq_S, fmap_app, concat_app, length_app, Nat2Z.inj_add, prefix_length by lia. cbn.
  rewrite app_nil_r, Hf by lia. unfold Geometry.piece_size. rewrite decide_True by lia. rewrite Z2Nat.id by lia. lia.
Qed.

Lemma content_piece i :
  Z.of_nat i < Geometry.num_pieces g →
  piece_bytes g (concat (f <$> seq 0 (Z.to_nat (Geometry.num_pieces g)))) (Z.of_nat i) = f i.
Proof using Hf.
  intros Hi. unfold piece_bytes.
  replace (Z.to_nat (Geometry.num_pieces g)) with (i + S (Z.to_nat (Geometry.num_pieces g) - i - 1))%nat by lia.
  rewrite seq_app, fmap_app, concat_app. cbn [seq fmap list_fmap concat Nat.add].
  pose proof (prefix_length i Hi) as Hp. pose proof (Hf i Hi) as Hfi.
  apply slice_mid; unfold piece_start; lia.
Qed.
End content.

(** What a complete swarm has sent to the disk writer is one content of the
    torrent's size: every piece of it was sent, and verified. *)
Lemma sent_content {B A : Type} `{PieceSet B} `{Sha1} `{Countable A} g (w : Swarm B A) :
  Geometry.wf g → swarm_inv g w →
  Shared.rx_open (swarm_shared w) = true →
  PieceTracker.is_complete (Shared.tracker (swarm_shared w)) = true →
  Forall (λ s, is_live s = false) (sessions w) →
  ∃ content, Z.of_nat (length content) = Geometry.total_length g ∧
    Forall (λ v, 0 ≤ VerifiedPiece.index v < Geometry.num_pieces g ∧
      VerifiedPiece.data v = piece_bytes g content (VerifiedPiece.index v) ∧
      PieceTracker.verify (Shared.tracker (swarm_shared w)) (VerifiedPiece.index v)
        (VerifiedPiece.data v) = true) (Shared.sent (swarm_shared w)) ∧
    ∀ i, 0 ≤ i < Geometry.num_pieces g →
      ∃ v, v ∈ Shared.sent (swarm_shared w) ∧ VerifiedPiece.index v = i.
Proof.
  intros Hg Hw Hrx Hcomp Hended.
  assert (Forall (λ s, pending s = []) (sessions w)) as Hpend.
  { eapply Forall_impl; [exact Hended|]. intros s. unfold is_live, pending.
    by destruct (Session.phase s). }
  pose proof (completed_sent g Hg w Hw Hrx Hpend Hcomp) as Hperm.
  destruct (sent_ok g w Hw) as [Hnd Hd]. rewrite Forall_forall in Hd.
  set (vs := Shared.sent (swarm_shared w)) in *.
  assert (∀ i, 0 ≤ i < Geometry.num_pieces g → ∃ v, v ∈ vs ∧ VerifiedPiece.index v = i) as Hall.
  { intros i Hi. assert (i ∈ VerifiedPiece.index <$> vs) as Hin.
    { rewrite Hperm. apply list_elem_of_fmap. exists (Z.to_nat i). split; [lia|].
      apply elem_of_seq. unfold pieces, num_pieces. lia. }
    apply list_elem_of_fmap in Hin as (v & -> & ?). by exists v. }
  assert (∀ i : nat, Z.of_nat i < Geometry.num_pieces g →
    Z.of_nat (length (delivered vs (Z.of_nat i))) = Geometry.piece_size g (Z.of_nat i)) as Hlens.
  { intros i Hi. destruct (Hall (Z.of_nat i) ltac:(lia)) as (v & Hv & <-).
    rewrite delivered_unique by done. by destruct (Hd v Hv) as (_ & ? & _). }
  exists (delivered_content vs (Z.to_nat (Geometry.num_pieces g))).
  split; [exact (content_length g Hg _ Hlens)|]. split; [|done].
  apply Forall_forall. intros v Hv. destruct (Hd v Hv) as ([? ?] & _ & ? & _).
  split; [lia|]. split; [|done].
  pose proof (content_piece g _ Hlens (Z.to_nat (VerifiedPiece.index v)) ltac:(lia)) as Hp.
  cbn beta in Hp. rewrite Z2Nat.id in Hp by lia. unfold delivered_content. rewrite Hp. by rewrite delivered_unique.
Qed.

(** Every piece of [l] has the digest that the torrent declares for it. *)
Definition verified_content `{Sha1} (info : Info.t) (g : Geometry.t) (l : list byte) : Prop :=
  ∀ i, (i < Info.num_pieces info)%nat →
    sha1 (piece_bytes g l (Z.of_nat i)) = slice (i * 20) ((i + 1) * 20) (Info.pieces info).


(** [m] is carried over the wire: after what [dst] holds, and from [src]. *)
Definition carried {D} `{ByteBuf D} (m : Message) (dst : D) : Prop :=
  ∃ dst', PeerCodec.encode m dst = Ok dst' ∧ contents dst' = contents dst ++ frame m ∧
    ∀ src rest, contents src = frame m ++ rest →
      ∃ src' : D, PeerCodec.decode src = (Ok (Some m), src') ∧ contents src' = rest.

(** C21: Everything the client says to a peer is well typed and survives the wire. In
    every reachable state, each message a task has sent is an [Interested] or a
    request whose fields fit their widths: [encode] appends exactly its frame,
    whatever the buffer holds, and a receiver that decodes the frame gets the
    message back. *)
Theorem conversation_typed {B A D : Type} `{PieceSet B} `{Sha1} `{Countable A} `{ByteBuf D} g
    (sh : Shared.t B A) peers w (dst : D) :
  Geometry.wf g → initial g sh → Z.of_nat (length peers) + 1 < 2 ^ 32 →
  reachable g (run_tasks g sh peers) w →
  Forall (λ s, Forall (λ m,
    (m = Interested ∨ ∃ b, m = Request b ∧ BlockInfo.wf b) ∧ carried m dst)
    (Session.outbox s)) (sessions w).
Proof.
  intros Hg Hi Hlen Hr. apply (reachable_inv g Hg) in Hr as [Hinv _]; [|by apply run_tasks_inv].
  eapply Forall_impl; [exact (inv_sessions _ _ _ Hinv)|].
  intros s (_ & _ & _ & _ & _ & _ & Hout). eapply Forall_impl; [exact Hout|].
  intros m Hm. assert (m = Interested ∨ ∃ b, m = Request b ∧ BlockInfo.wf b) as Hmsg.
  { destruct m; try done; [by left|right]. destruct Hm as (i & k & Hv & Hb). eexists. split; [done|].
    by destruct (Geometry.block_info_wf g Hg _ _ _ Hv Hb) as (? & _). }
  split; [done|]. assert (encodable m) as He by (by destruct Hmsg as [->|(b & -> & ?)]).
  destruct (encode_contents m dst He) as (dst' & ? & ?). exists dst'. split_and!; [done..|].
  intros src rest Hsrc. by apply decode_frame_complete.
Qed.

(** ** The theorem at a concrete download *)

Section demo.
#[local] Existing Instance padding_digest.

Lemma demo_assembles :
  (assemble straddling_storage demo_pairs (mk_world blank_disk [])).1 = Ok ().
Proof. vm_compute. reflexivity. Qed.


Lemma conversation_typed_witness :
  ∃ (w : Swarm Bitfield.t nat) s m, s ∈ sessions w ∧ m = Request (BlockInfo.mk 0 0 4) ∧ m ∈ Session.outbox s ∧
    carried m ([] : list byte).
Proof.
  destruct (run_passes_true _ _ _ demo_requests eq_refl) as (c & w & _ & Hg & Hwf & Hi & Hr & Ht).
  pose proof (conversation_typed (Coordinator.geometry c) (Coordinator.shared c) [7%nat] w ([] : list byte)
    Hwf Hi ltac:(cbn; lia) Hr) as Hc.
  apply existsb_exists in Ht as (s & Hs & Hout%bool_decide_eq_true). apply list_elem_of_In in Hs.
  exists w, s, (Request (BlockInfo.mk 0 0 4)). split; [exact Hs|]. split; [reflexivity|].
  assert (Request (BlockInfo.mk 0 0 4) ∈ Session.outbox s) as Hm by (rewrite Hout; by right; left).
  split; [exact Hm|]. rewrite Forall_forall in Hc. specialize (Hc s Hs).
  rewrite Forall_forall in Hc. exact (proj2 (Hc _ Hm)).
Defined.
End demo.
