(* ===== verification/Programs.v ===== *)
(** * The two programs ([main] of [src/main.rs], [run_pipeline] of
      [gui/src/main.rs])

    Both go from a [.torrent] to files on disk by the same steps: parse,
    announce, collect peers, create the files, create the coordinator
    ([prepare]); then the swarm and the disk writer run side by side
    ([Download] of [Writers]); then the result is read off ([conclude] of the
    command line client, [pipeline_events] of the desktop shell). The theorems
    are about whole runs: a run that reports success has left on disk exactly
    the pieces whose digests the torrent declares. Messages to the console and
    the log are left out. *)

From S2P Require Export EndToEnd Registries Writers.

(** ** Programs

    A program has the network and the file system; it ends with a value, with
    one of these failures, or with a panic. *)

Inductive Stop : Type :=
  | Failed (e : Error)
  | NoPeers             (* "no peers returned by any tracker" *)
  | Stalled             (* "download stalled: peers exhausted .." *)
  | WriterPanicked.     (* "disk writer task panicked" *)

Inductive ending (A : Type) : Type := Returns (a : A) | Fails (s : Stop) | Panics.
Arguments Returns {A}.
Arguments Fails {A}.
Arguments Panics {A}.

Definition prog (N A : Type) : Type := N * World → ending A * (N * World).

#[export] Instance prog_ret {N} : MRet (prog N) := λ A a s, (Returns a, s).
#[export] Instance prog_bind {N} : MBind (prog N) :=
  λ A B f m s,
    match m s with
    | (Returns a, s') => f a s'
    | (Fails e, s') => (Fails e, s')
    | (Panics, s') => (Panics, s')
    end.

Definition ending_of {A} (r : result A) : ending A :=
  match r with Ok a => Returns a | Err e => Fails (Failed e) | Panic => Panics end.

Definition pure {N A} (r : result A) : prog N A := λ s, (ending_of r, s).
Definition on_net {N A} (m : net N A) : prog N A :=
  λ s, let '(r, n) := m s.1 in (ending_of r, (n, s.2)).
Definition on_disk {N A} (m : io A) : prog N A :=
  λ s, let '(r, w) := m s.2 in (ending_of r, (s.1, w)).

(** ** Up to the swarm *)

Module Ready.
Record t : Type := mk {
  meta : Metainfo.t;
  peers : list SocketAddr.t;
  storage : DiskStorage.t;
  coordinator : Coordinator.t (B := Bitfield.t) (A := SocketAddr.t);
}.
End Ready.

Section programs.
Context `{Sha1} `{PercentEncoding} {N : Type} `{UdpNet N}.
Context (decode_metainfo : list byte → option Metainfo.t) (encode_info : Info.t → option (list byte)).
Context (parse_url : str → result TrackerUrl.t) (http_get : str → net N (list byte))
        (decode_value : list byte → result Value).

Definition session_params (info_hash : InfoHash.t) (peer_id : PeerId.t) (port left numwant : Z)
  : AnnounceParams.t :=
  AnnounceParams.mk info_hash peer_id port 0 0 left AnnounceEvent.Started true (Some numwant).

(** [read] is what reading the [.torrent] gave, [random] what the generator
    fills the peer id with. *)
Definition prepare (read : result (list byte)) (random : list byte) (port numwant : Z) (output : str)
  : prog N Ready.t :=
  bytes ← pure read;
  meta ← pure (from_bytes decode_metainfo bytes);
  info_hash ← pure (info_hash encode_info meta);
  total_length ← pure (Info.total_length (Metainfo.info meta));
  peer_id ← pure (PeerId.generate random);
  let params := session_params info_hash peer_id port total_length numwant in
  found ← on_net (collect_peers (λ url, announce parse_url http_get decode_value url params) meta);
  match found with
  | None => λ s, (Fails NoPeers, s)
  | Some peers =>
      storage ← on_disk (DiskStorage.create meta output);
      coordinator ← pure (Coordinator.new (Metainfo.info meta));
      mret (Ready.mk meta peers storage coordinator)
  end.

(** The command line client takes the port (6881) and the number of peers (50)
    from its arguments; the desktop shell has them fixed. *)
Definition pipeline_prepare (read : result (list byte)) (random : list byte) (output : str)
  : prog N Ready.t := prepare read random 6881 50 output.

(** ** The swarm and the writer *)

Definition geometry_of (p : Ready.t) : Geometry.t := Coordinator.geometry (Ready.coordinator p).

(** [coordinator.run(peers, tx)] next to the writer, about to start. *)
Definition launch (p : Ready.t) (w : World) : Download.t Bitfield.t SocketAddr.t :=
  Download.start (geometry_of p) (Ready.storage p) (Coordinator.shared (Ready.coordinator p))
    (Ready.peers p) w.

Definition complete (x : Download.t Bitfield.t SocketAddr.t) : bool :=
  PieceTracker.is_complete (Shared.tracker (swarm_shared (Download.swarm x))).

(** ** The results *)

(** The end of [main], once the writer has ended with [r]. *)
Definition conclude (r : result ()) (complete : bool) : ending () :=
  match r with
  | Ok _ => if complete then Returns () else Fails Stalled
  | Err e => Fails (Failed e)
  | Panic => Fails WriterPanicked
  end.

(** The end of [run_pipeline], as the registry sees it. *)
Definition pipeline_event (r : result ()) (complete : bool) : PipelineEvent :=
  WriterEnded (match r with Ok _ => true | _ => false end) complete.

Definition prepared_event {A} (r : ending A) : PipelineEvent :=
  Prepared (match r with Returns _ => true | _ => false end).

(** ** What is true of a prepared download *)

Lemma prog_bind_Returns {A B} (m : prog N A) (f : A → prog N B) s b s' :
  (m ≫= f) s = (Returns b, s') → ∃ a s1, m s = (Returns a, s1) ∧ f a s1 = (Returns b, s').
Proof using. unfold mbind, prog_bind. destruct (m s) as [[a| |] s1]; naive_solver. Qed.

Lemma pure_Returns {A} (r : result A) (s : N * World) a s' :
  pure r s = (Returns a, s') → r = Ok a ∧ s' = s.
Proof using. unfold pure. destruct r; cbn; naive_solver. Qed.

Lemma on_net_Returns {A} (m : net N A) s a s' :
  on_net m s = (Returns a, s') → m s.1 = (Ok a, s'.1) ∧ s'.2 = s.2.
Proof using. unfold on_net. destruct (m s.1) as [[?| |] ?]; cbn; naive_solver. Qed.

Lemma on_disk_Returns {A} (m : io A) (s : N * World) a s' :
  on_disk m s = (Returns a, s') → m s.2 = (Ok a, s'.2) ∧ s'.1 = s.1.
Proof using. unfold on_disk. destruct (m s.2) as [[?| |] ?]; cbn; naive_solver. Qed.

Lemma prepare_Returns read random port numwant output s p s' :
  prepare read random port numwant output s = (Returns p, s') →
  ∃ bytes h total peer_id, read = Ok bytes ∧ from_bytes decode_metainfo bytes = Ok (Ready.meta p) ∧
    info_hash encode_info (Ready.meta p) = Ok h ∧
    Info.total_length (Metainfo.info (Ready.meta p)) = Ok total ∧ PeerId.generate random = Ok peer_id ∧
    collect_peers (λ url, announce parse_url http_get decode_value url
      (session_params h peer_id port total numwant)) (Ready.meta p) s.1 = (Ok (Some (Ready.peers p)), s'.1) ∧
    DiskStorage.create (Ready.meta p) output s.2 = (Ok (Ready.storage p), s'.2) ∧
    Coordinator.new (Metainfo.info (Ready.meta p)) = Ok (Ready.coordinator p).
Proof using.
  unfold prepare. intros (bytes & s1 & [-> ->]%pure_Returns & Hp)%prog_bind_Returns.
  apply prog_bind_Returns in Hp as (m & s2 & [Hm ->]%pure_Returns & Hp).
  apply prog_bind_Returns in Hp as (h & s3 & [Hh ->]%pure_Returns & Hp).
  apply prog_bind_Returns in Hp as (total & s4 & [Ht ->]%pure_Returns & Hp).
  apply prog_bind_Returns in Hp as (pid & s5 & [Hpid ->]%pure_Returns & Hp). cbv zeta in Hp.
  apply prog_bind_Returns in Hp as (found & s6 & [Hf Hs6]%on_net_Returns & Hp).
  destruct found as [ps|]; [|done].
  apply prog_bind_Returns in Hp as (st & s7 & [Hst Hs7]%on_disk_Returns & Hp).
  apply prog_bind_Returns in Hp as (c & s8 & [Hc ->]%pure_Returns & Hp). injection Hp as <- <-.
  exists bytes, h, total, pid. rewrite Hs6 in Hst. rewrite Hs7. by split_and!.
Qed.

(** The decoder returns lengths that fit their fields. *)
Context (Hdecode : ∀ bs m, decode_metainfo bs = Some m → Info.wf (Metainfo.info m)).

Lemma decoded_wf bs m : from_bytes decode_metainfo bs = Ok m → Info.wf (Metainfo.info m).
Proof using Hdecode.
  unfold from_bytes. intros (m0 & Hm & Hb)%bind_Ok_inv. apply bind_Ok_inv in Hb as (h & _ & [= <-]).
  destruct (decode_metainfo bs) as [m'|] eqn:Hd; [|done]. injection Hm as ->. exact (Hdecode _ _ Hd).
Qed.

(** The torrent has fewer than [2^32] pieces, the peers' count fits a [u32],
    and no two files have the same path. *)
Record sized (p : Ready.t) (output : str) : Prop := {
  few_pieces : Z.of_nat (Info.num_pieces (Metainfo.info (Ready.meta p))) < 2 ^ 32;
  few_peers : Z.of_nat (length (Ready.peers p)) + 1 < 2 ^ 32;
  distinct_paths pls : file_paths (Ready.meta p) output = Ok pls → NoDup pls.*1;
}.

(** The files of the torrent are on the disk at their full lengths, and every
    piece of their concatenation has the digest the torrent declares. *)
Definition verified_on_disk (p : Ready.t) (output : str) (d : gmap str (list byte)) : Prop :=
  ∃ pls cs, file_paths (Ready.meta p) output = Ok pls ∧
    Forall2 (λ pl c, d !! pl.1 = Some c ∧ Z.of_nat (length c) = pl.2) pls cs ∧
    verified_content (Metainfo.info (Ready.meta p)) (geometry_of p) (concat cs).

(** What [prepare] leaves is the start of a download. *)
Lemma prepared_download read random port numwant output s p s' :
  prepare read random port numwant output s = (Returns p, s') → sized p output →
  ∃ pls, file_paths (Ready.meta p) output = Ok pls ∧ Geometry.wf (geometry_of p) ∧
    ((λ f, (MappedFile.path f, MappedFile.length f)) <$> DiskStorage.files (Ready.storage p)) = pls ∧
    download_ok (geometry_of p) (DiskStorage.files (Ready.storage p)) s.2 (launch p s'.2).
Proof using Hdecode.
  intros Hp [Hfew Hpeers Hnd].
  destruct (prepare_Returns _ _ _ _ _ _ _ _ Hp)
    as (bytes & h & total & pid & _ & Hm & _ & _ & _ & _ & Hst & Hc).
  pose proof (decoded_wf _ _ Hm) as Hwf.
  destruct (coordinator_new_initial _ _ Hwf Hfew Hc) as (Hg & (Htot & _ & _) & Hi & Hrx & _).
  fold (geometry_of p) in *.
  assert (Geometry.from_info (Metainfo.info (Ready.meta p)) = Ok (geometry_of p)) as Hgeo.
  { unfold Coordinator.new in Hc. apply bind_Ok_inv in Hc as (g & Hg' & Hc).
    apply bind_Ok_inv in Hc as (t & _ & Hc). injection Hc as Hc. unfold geometry_of. by rewrite <-Hc. }
  assert (∃ pls, file_paths (Ready.meta p) output = Ok pls) as [pls Hpl].
  { unfold DiskStorage.create, build_file_map in Hst. destruct (file_paths (Ready.meta p) output) as [pls|e|];
      [eauto|exfalso..]; unfold mbind, io_bind, lift in Hst; rewrite Hgeo in Hst; by cbn in Hst. }
  pose proof (total_length_word _ _ Hwf Htot) as [_ H64].
  pose proof (create_wp _ output _ pls s.2 Hwf Hgeo Hg Htot H64 Hpl (Hnd pls Hpl)) as Hwp.
  unfold wp in Hwp. rewrite Hst in Hwp. destruct Hwp as [(Hsg & Hfiles & Hcons & _) Hf].
  exists pls. split; [done|]. split; [done|]. split; [done|].
  apply (download_start_ok (geometry_of p) Hg); try done. by eexists.
Qed.

Lemma pieces_of read random port numwant output s p s' :
  prepare read random port numwant output s = (Returns p, s') → sized p output →
  Info.num_pieces (Metainfo.info (Ready.meta p)) = num_pieces (geometry_of p).
Proof using Hdecode.
  intros Hp Hsz. destruct (prepare_Returns _ _ _ _ _ _ _ _ Hp) as (bytes & h & total & pid & _ & Hm & _ & _ & _ & _ & _ & Hc).
  destruct (coordinator_new_initial _ _ (decoded_wf _ _ Hm) (few_pieces _ _ Hsz) Hc) as (_ & (_ & _ & Hn) & _).
  fold (geometry_of p) in Hn. rewrite wrap_small in Hn by (unfold in_word; pose proof (few_pieces _ _ Hsz); lia).
  unfold num_pieces. lia.
Qed.

(** An incomplete tracker lacks a piece. *)
Lemma missing_piece g files w0 (x : Download.t Bitfield.t SocketAddr.t) :
  download_ok g files w0 x → complete x = false →
  ∃ i, (i < num_pieces g)%nat ∧
    PieceTracker.has (Shared.tracker (swarm_shared (Download.swarm x))) (Z.of_nat i) = false.
Proof using.
  intros [[Hinv _] _ _ _ _] Hcomp. pose proof (inv_tracker _ _ _ Hinv) as (Hps & Hn & _).
  pose proof (inv_pieces _ _ _ Hinv) as Hpn. unfold complete, PieceTracker.is_complete in Hcomp.
  set (have := PieceTracker.have (Shared.tracker (swarm_shared (Download.swarm x)))) in *.
  destruct (decide (Forall (λ i, ps_has have i = true) (seq 0 (num_pieces g)))) as [Hall|Hnot].
  - exfalso. rewrite (proj2 (ps_complete_spec have Hps)) in Hcomp; [done|].
    intros i Hi. rewrite Forall_forall in Hall. apply Hall, elem_of_seq. unfold pieces in Hpn. lia.
  - apply not_Forall_Exists in Hnot; [|apply _]. apply Exists_exists in Hnot as (i & Hi & Hh).
    exists i. apply elem_of_seq in Hi. split; [lia|]. unfold PieceTracker.has. rewrite Nat2Z.id.
    by apply not_true_is_false.
Qed.

(** A writer that ended well on a complete torrent. *)
Lemma success_on_disk read random port numwant output s p s' ts x u :
  prepare read random port numwant output s = (Returns p, s') → sized p output →
  Forall Download.turn_ok ts → Download.run (geometry_of p) (launch p s'.2) ts = Some x →
  Writer.outcome (Download.writer x) = Some (Ok u) → complete x = true →
  verified_on_disk p output (disk (Download.world x)).
Proof using Hdecode.
  intros Hp Hsz Hts Hrun Ho Hcomp.
  destruct (prepared_download _ _ _ _ _ _ _ _ Hp Hsz) as (pls & Hpl & Hg & Hfiles & Hok).
  pose proof (download_run_ok _ Hg _ _ _ _ _ Hok Hts Hrun) as Hx.
  destruct (download_on_disk _ _ _ x u Hx Ho Hcomp) as (cs & Hst & Hver).
  exists pls, cs. split; [done|]. split.
  { rewrite <-Hfiles. unfold stored in Hst. apply Forall2_fmap_l. exact Hst. }
  intros i Hi. destruct (prepare_Returns _ _ _ _ _ _ _ _ Hp) as (bytes & h & total & pid & _ & Hm & _ & _ & _ & _ & _ & Hc).
  destruct (coordinator_new_initial _ _ (decoded_wf _ _ Hm) (few_pieces _ _ Hsz) Hc)
    as (_ & (_ & _ & Hn) & _ & _ & Hdig). fold (geometry_of p) in Hn.
  rewrite wrap_small in Hn by (unfold in_word; pose proof (few_pieces _ _ Hsz); lia).
  apply (Hdig i). specialize (Hver (Z.of_nat i) ltac:(lia)).
  pose proof (reachable_hashes _ _ _ (download_reachable _ _ _ _ Hts Hrun)) as Hh.
  unfold same_hashes in Hh. unfold PieceTracker.verify in *. by rewrite Hh in Hver.
Qed.

(** The end of a pipeline records "complete" only for a complete download whose
    writer ended well. *)
Lemma recorded_status reg k q ok complete_ reg' h :
  pipelines reg !! k = Some q → Pipeline.stage q = Draining →
  pipeline_step reg k (WriterEnded ok complete_) = Some reg' →
  torrents reg' !! Pipeline.id q = Some h → TorrentRecord.status (RegistryHandle.record h) = lit "complete" →
  ok = true ∧ complete_ = true.
Proof using.
  unfold pipeline_step. intros -> Hstage. cbn [mbind option_bind]. rewrite Hstage. destruct ok.
  - intros [= <-]. cbn. rewrite lookup_alter_eq. destruct (torrents reg !! Pipeline.id q) as [h0|]; [|done].
    intros [= <-]. cbn. unfold outcome. destruct complete_; [done|]. by case_bool_decide.
  - intros [= <-]. unfold pipeline_failed. cbn. rewrite lookup_alter_eq.
    destruct (torrents reg !! Pipeline.id q) as [h0|]; [|done]. by intros [= <-].
Qed.


End programs.

(** ** A whole run

    The torrent of [Demos] with a UDP tracker that answers the second connect
    packet; its one peer serves both pieces while the writer works. *)

Section demo.
#[local] Existing Instance padding_digest.

Definition program_meta : Metainfo.t :=
  {| Metainfo.announce := Some (lit "udp://tracker:80"); Metainfo.announce_list := None;
     Metainfo.info := demo_info; Metainfo.comment := None; Metainfo.created_by := None;
     Metainfo.creation_date := None; Metainfo.encoding := None; Metainfo.raw_info_hash := None |}.

Lemma program_decodes (bs : list byte) m : Some program_meta = Some m → Info.wf (Metainfo.info m).
Proof. intros [= <-]. exact demo_info_wf. Qed.

Definition start_of (m : Metainfo.t) : ending Ready.t * (Scripted * World) :=
  pipeline_prepare (λ _, Some m) (λ _, None) (λ _, Ok sample_url) (λ _ n, (Err Io, n)) (λ _, Err Io)
    (Ok (lit "d4:infodee")) (replicate 12 x41) [] (sample_net, mk_world ∅ []).

Definition program_start : ending Ready.t * (Scripted * World) := start_of program_meta.

(** The first piece is written while the second is fetched. *)
Definition program_turns : list Download.Turn :=
  (Download.Peers <$> take 18 demo_actions) ++ [Download.Write] ++
  (Download.Peers <$> drop 18 demo_actions) ++ [Download.Write; Download.Write].

Lemma program_turns_ok : Forall Download.turn_ok program_turns.
Proof.
  unfold program_turns. rewrite !Forall_app, !Forall_fmap. pose proof demo_actions_ok as Ha.
  split_and!; [by apply Forall_take|by constructor|by apply Forall_drop|by repeat constructor].
Qed.

Definition program_passes (r : ending Ready.t * (Scripted * World))
    (test : Ready.t → Download.t Bitfield.t SocketAddr.t → bool) : bool :=
  match r with
  | (Returns p, s) =>
      match Download.run (geometry_of p) (launch p s.2) program_turns with
      | Some x => test p x
      | None => false
      end
  | _ => false
  end.

Lemma program_passes_inv r test :
  program_passes r test = true →
  ∃ p s x, r = (Returns p, s) ∧
    Download.run (geometry_of p) (launch p s.2) program_turns = Some x ∧ test p x = true.
Proof.
  unfold program_passes. destruct r as [[p|e|] s]; [|done..].
  destruct (Download.run _ _ program_turns) as [x|] eqn:Hrun; [|done]. intros Ht. by exists p, s, x.
Qed.

(** One peer, and the writer has ended well on a complete torrent. *)
Definition program_end (p : Ready.t) (x : Download.t Bitfield.t SocketAddr.t) : bool :=
  bool_decide (Ready.meta p = Metainfo.set_raw_info_hash program_meta (InfoHash.mk (sha1 (lit "de")))) &&
  bool_decide (Ready.peers p = [sample_peer]) &&
  bool_decide (Writer.outcome (Download.writer x) = Some (Ok ())) && complete x &&
  bool_decide (disk (Download.world x) !! lit "d/b" = Some (lit "defgh")).

Lemma program_runs : program_passes program_start program_end = true.
Proof. vm_compute. reflexivity. Qed.

Lemma program_facts :
  ∃ p s x, program_start = (Returns p, s) ∧ sized p [] ∧
    Download.run (geometry_of p) (launch p s.2) program_turns = Some x ∧
    Writer.outcome (Download.writer x) = Some (Ok ()) ∧ complete x = true ∧
    disk (Download.world x) !! lit "d/b" = Some (lit "defgh").
Proof.
  destruct (program_passes_inv _ _ program_runs) as (p & s & x & Hs & Hrun & Ht).
  unfold program_end in Ht. rewrite !andb_true_iff, !bool_decide_eq_true in Ht.
  destruct Ht as [[[[Hm Hp] Ho] Hc] Hb]. exists p, s, x.
  split; [exact Hs|]. split; [|split; [exact Hrun|split; [exact Ho|split; [exact Hc|exact Hb]]]].
  constructor; rewrite ?Hm, ?Hp; [vm_compute; reflexivity|cbn; lia|].
  intros pls Hpls. assert (pls = [(lit "d/a", 3); (lit "d/b", 5)]) as ->.
  { assert (file_paths (Metainfo.set_raw_info_hash program_meta (InfoHash.mk (sha1 (lit "de")))) [] =
      Ok [(lit "d/a", 3); (lit "d/b", 5)]) as He by (vm_compute; reflexivity). congruence. }
  apply (bool_decide_unpack _). vm_compute. exact I.
Qed.



(** *** The writer of that run *)

Definition drain_passes (r : result (Coordinator.t (B := Bitfield.t) (A := nat))) : bool :=
  match r with
  | Ok c =>
      bool_decide (Coordinator.geometry c = straddling_geometry) &&
      match Download.run (Coordinator.geometry c)
              (Download.start (Coordinator.geometry c) straddling_storage (Coordinator.shared c) [7%nat]
                 (mk_world blank_disk []))
              (take 22 program_turns) with
      | Some x => senders_gone (Download.swarm x) && bool_decide (Writer.outcome (Download.writer x) = None)
      | None => false
      end
  | _ => false
  end.

Lemma drain_passes_inv r :
  drain_passes r = true →
  ∃ c x, r = Ok c ∧ Coordinator.geometry c = straddling_geometry ∧
    Download.run (Coordinator.geometry c)
      (Download.start (Coordinator.geometry c) straddling_storage (Coordinator.shared c) [7%nat]
         (mk_world blank_disk [])) (take 22 program_turns) = Some x ∧
    senders_gone (Download.swarm x) = true ∧ Writer.outcome (Download.writer x) = None.
Proof.
  unfold drain_passes. destruct r as [c|e|]; [|done..].
  intros [Hg%bool_decide_eq_true Ht]%andb_true_iff.
  destruct (Download.run _ _ (take 22 program_turns)) as [x|] eqn:Hrun; [|done].
  apply andb_true_iff in Ht as [Ht Ho%bool_decide_eq_true]. by exists c, x.
Qed.

Lemma drains : drain_passes demo_coordinator = true.
Proof. vm_compute. reflexivity. Qed.

(** Every task has ended, one piece is still in the channel: the writer moves. *)
Lemma writer_never_stuck_witness :
  ∃ g (x x' : Download.t Bitfield.t nat), senders_gone (Download.swarm x) = true ∧
    Download.step g x Download.Write = Some x'.
Proof.
  destruct (drain_passes_inv _ drains) as (c & x & Hc & Hg & Hrun & Hgone & Ho).
  destruct (coordinator_new_initial demo_info c demo_info_wf ltac:(vm_compute; reflexivity) Hc)
    as (Hwf & _ & Hi & Hrx & _).
  destruct (writer_never_stuck (Coordinator.geometry c) straddling_storage [replicate 3 x00; replicate 5 x00]
    (Coordinator.shared c) [7%nat] (mk_world blank_disk []) (take 22 program_turns) x Hwf Hi Hrx
    ltac:(cbn; lia) (eq_sym Hg) straddling_consistent (Forall_take _ _ _ program_turns_ok) Hrun)
    as (_ & _ & Hmove).
  destruct (Hmove Hgone Ho) as [x' Hx']. exists (Coordinator.geometry c), x, x'. split; [exact Hgone|exact Hx'].
Defined.

(** *** Two files with one path *)

Definition twice_meta : Metainfo.t :=
  {| Metainfo.announce := Some (lit "udp://tracker:80"); Metainfo.announce_list := None;
     Metainfo.info :=
       {| Info.name := lit "d"; Info.piece_length := 4; Info.pieces := demo_pieces; Info.length := None;
          Info.files := Some [FileEntry.mk 4 [lit "a"] None; FileEntry.mk 4 [lit "a"] None];
          Info.private := None |};
     Metainfo.comment := None; Metainfo.created_by := None; Metainfo.creation_date := None;
     Metainfo.encoding := None; Metainfo.raw_info_hash := None |}.

Definition twice_end (p : Ready.t) (x : Download.t Bitfield.t SocketAddr.t) : bool :=
  bool_decide (Writer.outcome (Download.writer x) = Some (Ok ())) && complete x &&
  bool_decide (map_to_list (disk (Download.world x)) = [(lit "d/a", lit "efgh")]).

End demo.
